(* ===== verification/_CoqProject ===== *)
-Q . S2P
Prelude.v
Bytes.v
Text.v
Core.v
Protocol.v
Effects.v
Tpm.v
FileSystem.v
AtomicFile.v
KeyStore.v
History.v
Config.v
Broker.v
Control.v
Esapi.v
Paths.v
Graphical.v
Runtime.v
Monitor.v
Connection.v
Limiter.v
Accept.v
Sockets.v
Pinentry.v
Secrets.v
Output.v
Commands.v
Client.v
Exec.v
Main.v
Dialog.v
Abandon.v
Watched.v
EndToEnd.v
Served.v
