(* ===== verification/Prelude.v ===== *)
(** * Keyvisor: a verification development

    Keyvisor keeps SSH keys in a TPM.  The agent (src/crates/keyvisor-agent) speaks the SSH
    agent protocol on one socket, signs with TPM keys, and asks for PINs through a control
    protocol on a second socket; the command line (src/crates/keyvisor-cli) creates, lists and
    deletes keys, authorizes pending requests and runs commands whose signatures it
    authorizes; keyvisor-tpm talks to the TPM, keyvisor-core has the domain types.  This
    development models the code of the four crates and proves what makes it correct.  It has
    one file per component, named after it; below, "main.rs" is the agent's unless the
    command line's is named.

    ** How programs are modelled

    Pure functions are functions to [result], Rust's [Result] with a third outcome [Panic]
    (Prelude).  Integers are [Z] with their width written out (Bytes), text is a list of
    bytes with UTF-8 validation (Text).  A program with effects is a tree of operations,
    [prog E A] (Effects): one signature [E] per boundary, and a handler that executes an
    operation on a state under a choice of the environment.  The choice holds the faults and
    everything that happens between two operations: other threads, the user, peers, child
    processes, the clock.  [run] executes a program with given choices, [reach] is the
    transition system of all choices, and [safe I p Q s] says that every state the program
    passes through satisfies [I] and its end [Q].  A theorem about [reach] holds at every
    moment and under all interleavings and faults, at the granularity of one operation.

    ** The files

    - Core, Tpm: crates/keyvisor-core/src/lib.rs and crates/keyvisor-tpm/src/lib.rs.  The
      trait [TpmSigner] is a class; its clients are proved against the laws [TpmSignerLaws].
    - Esapi: keyvisor-tpm/src/esapi.rs, on the class [Tss] of what it uses of tss_esapi.
      [sign_is_guarded] and [generate_is_guarded]: every command is sent in a salted,
      encrypted session, nothing is loaded that was not validated, signatures have their
      width; [signature_reaches_wire] connects it with Protocol.
    - Protocol: keyvisor-agent/src/protocol.rs.  [parse_request_correct]: exactly the
      encodings of requests are parsed; the responses are the frames of the protocol.
    - FileSystem, AtomicFile: paths, inodes, faults and crashes of [std::fs], and the pattern
      by which three modules replace a file.  KeyStore (lib.rs), History (history.rs), Config
      (config.rs): formats with their round trips, and the refinement of the operations on
      files to operations on a map of records, a bounded list, and a setting, at every crash
      point ([save_refines_insert], [append_refines_push], [config_save_load]).
    - Broker: the hand-over of PINs between [request_pin] and [AUTHORIZE] as a transition
      system of all threads ([pin_confinement], [authorization_single_use],
      [request_progress]).  Control: both ends of the control protocol;
      [control_refines_broker] is the simulation of a connection by the broker's events,
      with what the connection read and what it answered.
    - Graphical: the child process that shows a dialog, from its start to its end.  Runtime:
      [AgentRuntime] of main.rs, over Broker, Graphical, KeyStore, History and [TpmSigner],
      with [request_pin] and its loop operation by operation: [sign_is_authorized],
      [history_is_honest], [request_is_answered].  Its state keeps a log of the appends to the
      history, each with the files before and after it and its result, and of the lines
      printed to the standard error.  Abandon: a client that leaves while its
      request waits ([abandoned_request_is_refused]).
    - Monitor: [RequestMonitor], its start and end and its thread, which sets the flag that
      Runtime's [check] reads.  Watched: a request beside its monitor's thread, in every
      interleaving, with the wait of [join] for the end of that thread
      ([request_is_watched]).  Connection: [serve_connection], which answers
      frames in their order.
    - Limiter, Accept: [ConnectionLimiter] as a transition system, and the two accept loops
      that use it.  Paths: where sockets and files are, in both programs.  Sockets: [serve]
      up to its accept loop, socket activation, [bind_socket], [SocketGuard].
    - Pinentry, Secrets: the Assuan protocol and the ways a PIN is entered, from the command
      line's main.rs.  Output: the tables it prints.  Commands: the key, config and history
      commands over files, TPM and user.  Client: [authorize] and [agent status]; its
      [authorize_reaches_the_agent] composes the command line with Control and Broker; every
      conversation keeps the path it was opened at and the last inspection of that path, and
      every call of kill(2) is kept with its result.  Exec: [exec], its signals and its child.
    - Main: [main] and [run] of both programs.  Dialog: no code of its own;
      [dialog_is_its_own] follows the child process through a whole request, and relates its
      arguments to [run] of the command line.
    - EndToEnd: no code of its own; [signature_end_to_end] runs Runtime's request thread, the
      broker, Control's service and Client's command together, from the request packet of a
      client to the signature in its answer, when the user is at a terminal.  Served: no code
      of its own; [created_key_is_served] follows a key from [key create] of the command line,
      past a crash, to the agent's list of identities and, without PIN, to a signature.

    ** Shared state and interfaces

    Threads of the agent share the broker (a map of pending requests and channels, guarded by
    a mutex: each critical section is one event), the TPM signer and the history behind their
    mutexes, and the files.  A poisoned mutex of the broker is a branch of the
    code and of the model; as no critical section panics it is never taken ([Broker.inv_lock]).  Runtime's handler lets the other threads do any broker events,
    and the TPM change state, between two operations of a request.  Control and Runtime meet
    only in Broker's events; Runtime and Esapi only in [TpmSigner]; Connection and Runtime in
    the operation that handles a packet; Monitor and Runtime in the flag, which Watched shares; Accept and Limiter in the limiter's steps.

    ** Fuel

    Loops without a structural measure have fuel and return [None] when it runs out.  That
    it suffices is proved: [request_is_answered] and [dialog_is_its_own] (one round more than
    the timeout has periods of 50 ms), [connection_serves_in_order] (bounded rounds per
    frame), [pinentry_response_correct] (one line per byte of input), [terminate_child_ends]
    (51 rounds of 20 ms in a second).  The loops that run as long as something outside does,
    [exec] with its child, the monitor with its request and the accept loops with the agent,
    return [None] for lack of fuel only after as many rounds ([exec_ends_with_its_child],
    [monitor_ends]).  In Watched the monitor's loop has no fuel: where a round ends the next
    begins; only the wait for its end has, and [request_is_watched] says that the thread ends
    within four of its operations once that wait has begun.

    ** Assumptions, and what is not modelled

    - sha2, base64, [to_string_lossy] and the version string are parameters; rustix, listenfd,
      signal-hook and tss_esapi are operations, answered by the environment.
    - Files: no other process changes the directories of a store while one operation on it
      runs, except in Sockets' guards; paths in environment variables are absolute; a rename
      is atomic and a directory's [fsync] makes its entries durable.
    - The standard error of the agent can be written; [eprintln!] would panic otherwise.
    - [zeroize]: that memory is cleared is not expressible here; values are only dropped.
    - Threads are scheduled at operations; memory orders of the atomics do not matter as each
      flag is the only thing its reader reads.  Spawning the control service is one operation.
    - A client's connection is not closed explicitly in the models of Client and Exec, and
      the descriptors of child processes are not modelled.
    - The handlers of Commands and Client have separate files and users; no invocation uses
      both.  In Exec the child is arbitrary.
    - Tests, and the module declarations and re-exports of the crates.

    Findings of the modelling are recorded with the development: transient objects and
    sessions of esapi.rs that stay open on rare errors ([Esapi.Sample.key_left_loaded]), the
    interpretation of every connection error as a stale socket in [bind_socket], and
    identifiers that are printed unescaped ([Output.tab_in_identifier]). *)

From stdpp Require Export base tactics list gmap strings.
From Stdlib Require Export ZArith Lia.

#[global] Open Scope Z_scope.
#[global] Open Scope list_scope.

(** ** Outcomes of Rust computations

    [result E A] is Rust's [Result<A, E>] with a third outcome, [Panic], for the
    operations of the language that abort the thread: an index out of range, an
    [expect] on an error, an arithmetic overflow.  A theorem that a function never
    returns [Panic] is the panic-freedom of the code. *)

Inductive result (E A : Type) : Type :=
  | Ok (a : A)
  | Err (e : E)
  | Panic.

Arguments Ok {E A} a.
Arguments Err {E A} e.
Arguments Panic {E A}.

#[global] Instance result_ret E : MRet (result E) := fun A a => Ok a.
#[global] Instance result_bind E : MBind (result E) := fun A B f m =>
  match m with
  | Ok a => f a
  | Err e => Err e
  | Panic => Panic
  end.
#[global] Instance result_fmap E : FMap (result E) := fun A B f m =>
  match m with
  | Ok a => Ok (f a)
  | Err e => Err e
  | Panic => Panic
  end.

#[global] Instance result_eq_dec {E A} `{EqDecision E} `{EqDecision A} :
  EqDecision (result E A).
Proof. solve_decision. Defined.

#[global] Instance Ok_inj {E A} : Inj eq eq (@Ok E A).
Proof. by intros x y [= ->]. Qed.

(** [Result::map_err]. *)
Definition map_err {E F A} (f : E -> F) (m : result E A) : result F A :=
  match m with
  | Ok a => Ok a
  | Err e => Err (f e)
  | Panic => Panic
  end.

(** [Result::is_ok]. *)
Definition is_ok {E A} (m : result E A) : bool :=
  match m with Ok _ => true | _ => false end.

(** [Option::ok_or]. *)
Definition ok_or {E A} (o : option A) (e : E) : result E A :=
  match o with Some a => Ok a | None => Err e end.

(** [Option::expect] and [Result::expect] on a conversion: the panic outcome. *)
Definition expect {E A} (o : option A) : result E A :=
  match o with Some a => Ok a | None => Panic end.

(** ** Inversion of monadic computations *)

Section ResultLemmas.
Context {E A B : Type}.
Implicit Types (m : result E A) (f : A -> result E B).

Lemma bind_Ok_inv m f b :
  mbind f m = Ok b -> exists a, m = Ok a /\ f a = Ok b.
Proof. destruct m; simpl; try discriminate; eauto. Qed.

Lemma bind_Err_inv m f e :
  mbind f m = Err e -> m = Err e \/ exists a, m = Ok a /\ f a = Err e.
Proof. destruct m; simpl; try discriminate; intros H; eauto. left. congruence. Qed.

Lemma bind_no_panic m f :
  m <> Panic -> (forall a, m = Ok a -> f a <> Panic) -> mbind f m <> Panic.
Proof. destruct m; simpl; try congruence; eauto. Qed.

Lemma map_err_Ok_inv {F} (g : E -> F) m a : map_err g m = Ok a -> m = Ok a.
Proof. destruct m; simpl; congruence. Qed.

Lemma ok_or_Ok_inv (o : option A) (e : E) a : ok_or o e = Ok a -> o = Some a.
Proof. destruct o; simpl; congruence. Qed.
End ResultLemmas.

(** ** Panic-freedom, with the errors a computation can report *)

Definition fails_with {E A} (P : E -> Prop) (m : result E A) : Prop :=
  match m with
  | Ok _ => True
  | Err e => P e
  | Panic => False
  end.

Section FailsWith.
Context {E A B : Type} (P : E -> Prop).

Lemma fails_with_bind (m : result E A) (f : A -> result E B) :
  fails_with P m -> (forall a, m = Ok a -> fails_with P (f a)) -> fails_with P (mbind f m).
Proof. destruct m; simpl; auto. Qed.

Lemma fails_with_Ok (a : A) : fails_with P (@Ok E A a).
Proof. exact I. Qed.

Lemma fails_with_Err (e : E) : P e -> fails_with P (@Err E A e).
Proof. done. Qed.

Lemma fails_with_ok_or (o : option A) (e : E) : P e -> fails_with P (ok_or o e).
Proof. by destruct o. Qed.

Lemma fails_with_if (c : bool) (m n : result E A) :
  fails_with P m -> fails_with P n -> fails_with P (if c then m else n).
Proof. by destruct c. Qed.

Lemma fails_with_no_panic (m : result E A) : fails_with P m -> m <> Panic.
Proof. by destruct m. Qed.
End FailsWith.

(** Hint base [fails]: the readers' and writers' own lemmas are added to it. *)
Create HintDb fails discriminated.
#[global] Hint Resolve fails_with_Ok fails_with_Err fails_with_ok_or fails_with_if : fails.

(** [solve_fails]: walk a computation bind by bind. *)
Ltac solve_fails :=
  repeat first
    [ progress cbn [mbind result_bind]
    | apply fails_with_bind; [solve [eauto 4 with fails]|intros [? ?] _]
    | apply fails_with_bind; [solve [eauto 4 with fails]|intros ? _]
    | apply fails_with_if
    | solve [eauto 4 with fails] ].

(** ** Lengths: [usize] values are integers *)

Definition len {A} (l : list A) : Z := Z.of_nat (length l).

Section LenLemmas.
Context {A : Type}.
Implicit Types l k : list A.

Lemma len_nil : len (@nil A) = 0.
Proof. reflexivity. Qed.

Lemma len_cons x l : len (x :: l) = 1 + len l.
Proof. unfold len; simpl; lia. Qed.

Lemma len_app l k : len (l ++ k) = len l + len k.
Proof. unfold len; rewrite length_app; lia. Qed.

Lemma len_nonneg l : 0 <= len l.
Proof. unfold len; lia. Qed.

Lemma len_take n l : len (firstn n l) = Z.min (Z.of_nat n) (len l).
Proof. unfold len; rewrite length_firstn; lia. Qed.

Lemma len_drop n l : len (skipn n l) = Z.max 0 (len l - Z.of_nat n).
Proof. unfold len; rewrite length_skipn; lia. Qed.

Lemma len_0_inv l : len l = 0 -> l = [].
Proof. destruct l; unfold len; simpl; [done | lia]. Qed.

Lemma len_replicate n (x : A) : len (replicate n x) = Z.of_nat n.
Proof. unfold len; rewrite length_replicate; lia. Qed.
End LenLemmas.

(** [is_empty] of a slice or a string. *)
Definition is_empty {A} (l : list A) : bool := match l with [] => true | _ => false end.

Lemma is_empty_len {A} (l : list A) : is_empty l = (len l <? 1).
Proof.
  destruct l; [done|]. simpl. symmetry. apply Z.ltb_ge. rewrite len_cons.
  pose proof (len_nonneg l). lia.
Qed.

Lemma len_fmap {A B} (f : A -> B) (l : list A) : len (f <$> l) = len l.
Proof. unfold len; rewrite length_fmap; lia. Qed.

(** Rewrite base [len]: the length of every list constructor the model uses. *)
Create Rewrite HintDb len.
#[global] Hint Rewrite @len_nil @len_cons @len_app @len_take @len_drop @len_replicate
  @len_fmap : len.

(** [len_lia]: arithmetic goals over lengths. *)
Ltac pose_len_nonneg :=
  repeat match goal with
  | |- context [len ?l] =>
      lazymatch goal with
      | _ : 0 <= len l |- _ => fail
      | _ => pose proof (len_nonneg l)
      end
  | _ : context [len ?l] |- _ =>
      lazymatch goal with
      | _ : 0 <= len l |- _ => fail
      | _ => pose proof (len_nonneg l)
      end
  end.
Ltac len_lia := autorewrite with len in *; pose_len_nonneg; lia.

(** [res_inv]: decompose every hypothesis that a monadic computation succeeded. *)
Ltac res_inv :=
  repeat match goal with
  | H : mbind _ _ = Ok _ |- _ =>
      let a := fresh "a" in let H1 := fresh "H" in let H2 := fresh "H" in
      apply bind_Ok_inv in H as (a & H1 & H2)
  | H : map_err _ _ = Ok _ |- _ => apply map_err_Ok_inv in H
  | H : ok_or _ _ = Ok _ |- _ => apply ok_or_Ok_inv in H
  | H : Ok _ = Ok _ |- _ => injection H as H
  | H : Err _ = Err _ |- _ => injection H as H
  | H : Some _ = Some _ |- _ => injection H as H
  | H : Ok _ = Err _ |- _ => discriminate H
  | H : Err _ = Ok _ |- _ => discriminate H
  | H : Ok _ = Panic |- _ => discriminate H
  | H : Err _ = Panic |- _ => discriminate H
  | H : Panic = _ |- _ => discriminate H
  | H : (if ?c then Err _ else _) = Ok _ |- _ =>
      let E := fresh "E" in destruct c eqn:E; [discriminate H|]
  | H : (if ?c then _ else Err _) = Ok _ |- _ =>
      let E := fresh "E" in destruct c eqn:E; [|discriminate H]
  | H : (if ?c then Panic else _) = Ok _ |- _ =>
      let E := fresh "E" in destruct c eqn:E; [discriminate H|]
  | x : (_ * _)%type |- _ => destruct x
  end; cbn in *; subst.

(** [bool_lia]: turn the boolean comparisons of the hypotheses into arithmetic. *)
Ltac bool_to_prop :=
  repeat match goal with
  | H : (_ && _)%bool = true |- _ => apply andb_true_iff in H as [? ?]
  | H : (_ && _)%bool = false |- _ => apply andb_false_iff in H
  | H : (_ || _)%bool = false |- _ => apply orb_false_iff in H as [? ?]
  | H : (_ || _)%bool = true |- _ => apply orb_true_iff in H
  | H : negb _ = true |- _ => apply negb_true_iff in H
  | H : negb _ = false |- _ => apply negb_false_iff in H
  | H : (_ <? _) = true |- _ => apply Z.ltb_lt in H
  | H : (_ <? _) = false |- _ => apply Z.ltb_ge in H
  | H : (_ <=? _) = true |- _ => apply Z.leb_le in H
  | H : (_ <=? _) = false |- _ => apply Z.leb_gt in H
  | H : (_ =? _) = true |- _ => apply Z.eqb_eq in H
  | H : (_ =? _) = false |- _ => apply Z.eqb_neq in H
  end.
Ltac bool_lia := bool_to_prop; len_lia.
