(* ===== verification/Bytes.v ===== *)
(** Bytes and machine integers: [u8] values, big-endian encodings, slices.
    Everything here models the part of the Rust standard library the program uses. *)

From S2P Require Import Prelude.
From Stdlib Require Import Strings.Byte.

(** ** Bytes *)

Abbreviation byte := Byte.byte.
Abbreviation bytes := (list Byte.byte).

(** A [u8] as an integer. *)
Definition u8 (b : byte) : Z := Z.of_N (Byte.to_N b).

(** The byte of an integer, modulo 256. *)
Definition b8 (z : Z) : byte :=
  match Byte.of_N (Z.to_N (z mod 256)) with
  | Some b => b
  | None => x00
  end.

#[global] Instance byte_eq_decision : EqDecision byte := Byte.byte_eq_dec.
#[global] Instance byte_inhabited : Inhabited byte := populate x00.

Lemma u8_range b : 0 <= u8 b < 256.
Proof. unfold u8. pose proof (Byte.to_N_bounded b). lia. Qed.

Lemma u8_b8 z : u8 (b8 z) = z mod 256.
Proof.
  unfold u8, b8. pose proof (Z.mod_pos_bound z 256 eq_refl).
  destruct (Byte.of_N _) eqn:E.
  - apply Byte.to_of_N in E. rewrite E. lia.
  - apply Byte.of_N_None_iff in E. lia.
Qed.

Lemma u8_inj b c : u8 b = u8 c -> b = c.
Proof.
  unfold u8. intros H%N2Z.inj.
  pose proof (Byte.of_to_N b); pose proof (Byte.of_to_N c). congruence.
Qed.

Lemma b8_u8 b : b8 (u8 b) = b.
Proof. apply u8_inj. rewrite u8_b8. apply Z.mod_small, u8_range. Qed.

Lemma u8_b8_small z : 0 <= z < 256 -> u8 (b8 z) = z.
Proof. intros. rewrite u8_b8. by apply Z.mod_small. Qed.

#[global] Instance byte_countable : Countable byte :=
  inj_countable' u8 b8 b8_u8.

(** A string literal of the source, as its bytes. *)
Definition str (s : string) : bytes := String.list_byte_of_string s.

(** ** Conversions between integer types *)

Definition u32_max : Z := 2 ^ 32 - 1.
Definition u64_max : Z := 2 ^ 64 - 1.

(** [u32::try_from(n : usize)] and [usize::try_from(n : u32)], on the 64-bit
    targets the program is built for. *)
Definition u32_try_from (n : Z) : option Z := if n <=? u32_max then Some n else None.
Definition usize_try_from (n : Z) : option Z := if n <=? u64_max then Some n else None.

(** ** Big-endian encodings: [to_be_bytes] and [from_be_bytes] *)

Fixpoint be_bytes (n : nat) (z : Z) : bytes :=
  match n with
  | O => []
  | S n => be_bytes n (z / 256) ++ [b8 z]
  end.
Definition to_be (n : nat) (z : Z) : bytes := be_bytes n z.

Definition from_be (l : bytes) : Z := foldl (fun acc b => acc * 256 + u8 b) 0 l.

Lemma to_be_S n z : to_be (S n) z = to_be n (z / 256) ++ [b8 z].
Proof. reflexivity. Qed.

Lemma length_to_be n z : length (to_be n z) = n.
Proof. revert z; induction n; intros; [done|]. rewrite to_be_S, length_app, IHn; simpl; lia. Qed.

Lemma len_to_be n z : len (to_be n z) = Z.of_nat n.
Proof. unfold len. by rewrite length_to_be. Qed.
#[global] Hint Rewrite len_to_be : len.

Lemma from_be_snoc l b : from_be (l ++ [b]) = from_be l * 256 + u8 b.
Proof. unfold from_be. by rewrite foldl_snoc. Qed.

Lemma from_be_to_be n z : from_be (to_be n z) = z mod 256 ^ Z.of_nat n.
Proof.
  revert z; induction n as [|n IH]; intros z.
  - by rewrite Z.mod_1_r.
  - rewrite to_be_S, from_be_snoc, IH, u8_b8, Nat2Z.inj_succ, Z.pow_succ_r by lia.
    rewrite Z.rem_mul_r by lia. lia.
Qed.

Lemma from_be_to_be_small n z :
  0 <= z < 256 ^ Z.of_nat n -> from_be (to_be n z) = z.
Proof. intros. rewrite from_be_to_be. by apply Z.mod_small. Qed.

Lemma from_be_bound l : 0 <= from_be l < 256 ^ len l.
Proof.
  induction l as [|b l IH] using rev_ind; [split; reflexivity|].
  rewrite from_be_snoc, len_app. pose proof (u8_range b).
  replace (len l + len [b]) with (Z.succ (len l)) by (unfold len; simpl; lia).
  rewrite Z.pow_succ_r by (unfold len; lia).
  generalize dependent (256 ^ len l). lia.
Qed.

Lemma from_be_app l k : from_be (l ++ k) = from_be l * 256 ^ len k + from_be k.
Proof.
  induction k as [|b k IH] using rev_ind.
  - rewrite app_nil_r. change (256 ^ len []) with 1. change (from_be []) with 0. lia.
  - rewrite app_assoc, !from_be_snoc, IH, len_app.
    change (len [b]) with 1. rewrite Z.pow_add_r by (unfold len; lia). lia.
Qed.

Lemma from_be_cons b l : from_be (b :: l) = u8 b * 256 ^ len l + from_be l.
Proof. exact (from_be_app [b] l). Qed.

Lemma to_be_from_be l : to_be (length l) (from_be l) = l.
Proof.
  induction l as [|b l IH] using rev_ind; [done|].
  rewrite length_app, Nat.add_comm. change (length [b] + length l)%nat with (S (length l)).
  rewrite to_be_S, from_be_snoc.
  pose proof (u8_range b). f_equal.
  - rewrite Z.div_add_l, Z.div_small, Z.add_0_r by lia. done.
  - f_equal. apply u8_inj. rewrite u8_b8, Z.add_comm, Z.mod_add by lia.
    by apply Z.mod_small.
Qed.

Lemma to_be_from_be' n l : length l = n -> to_be n (from_be l) = l.
Proof. intros <-. apply to_be_from_be. Qed.

#[global] Opaque to_be.
#[global] Arguments from_be : simpl never.
#[global] Arguments u8 : simpl never.
#[global] Arguments b8 : simpl never.

(** ** Slices *)

(** [slice::split_at], which panics past the end. *)
Definition split_at {E} (l : bytes) (mid : Z) : result E (bytes * bytes) :=
  if len l <? mid then Panic
  else Ok (firstn (Z.to_nat mid) l, skipn (Z.to_nat mid) l).

(** [slice::split_at_checked]. *)
Definition split_at_checked (l : bytes) (mid : Z) : option (bytes * bytes) :=
  if len l <? mid then None
  else Some (firstn (Z.to_nat mid) l, skipn (Z.to_nat mid) l).

Lemma split_at_app {E} (l k : bytes) : @split_at E (l ++ k) (len l) = Ok (l, k).
Proof.
  unfold split_at. rewrite len_app.
  destruct (_ <? _) eqn:?; [bool_lia|].
  unfold len. rewrite Nat2Z.id. by rewrite take_app_length, drop_app_length.
Qed.

Lemma split_at_Ok {E} (l : bytes) mid a k :
  0 <= mid -> @split_at E l mid = Ok (a, k) -> l = a ++ k /\ len a = mid.
Proof.
  unfold split_at. intros Hm H. destruct (_ <? _) eqn:?; [done|].
  injection H as <- <-. rewrite take_drop. split; [done|].
  rewrite len_take. bool_lia.
Qed.

(** ** Reading from a cursor

    The parsers of the program all read through the same two steps: a bounds check and
    [split_at], and four bytes converted to a [u32]. *)

Definition take_or {E} (e : E) (input : bytes) (length : Z) : result E (bytes * bytes) :=
  if len input <? length then Err e else split_at input length.

(** [value.try_into::<[u8; n]>()]. *)
Definition array_of (n : Z) (l : bytes) : option bytes := if len l =? n then Some l else None.

Definition u32_or {E} (e : E) (input : bytes) : result E (Z * bytes) :=
  '(value, input) ← take_or e input 4;
  array ← ok_or (array_of 4 value) e;
  Ok (from_be array, input).

(** A length-prefixed string. *)
Definition prefixed (s : bytes) : bytes := to_be 4 (len s) ++ s.

Lemma len_prefixed s : len (prefixed s) = 4 + len s.
Proof. unfold prefixed. len_lia. Qed.
#[global] Hint Rewrite len_prefixed : len.

Lemma u32_max_nonneg : 0 <= u32_max.
Proof. done. Qed.

Lemma from_be_u32 l : len l = 4 -> 0 <= from_be l <= u32_max.
Proof. intros H. pose proof (from_be_bound l). rewrite H in *. unfold u32_max. lia. Qed.

Lemma usize_of_u32 z : z <= u32_max -> usize_try_from z = Some z.
Proof.
  intros. unfold usize_try_from. rewrite (proj2 (Z.leb_le _ _)); [done|].
  unfold u32_max, u64_max in *. lia.
Qed.

Lemma u32_try_from_small n : n <= u32_max -> u32_try_from n = Some n.
Proof. intros. unfold u32_try_from. by rewrite (proj2 (Z.leb_le _ _)). Qed.

Section Readers.
Context {E : Type} (e : E).

Lemma take_or_app (l k : bytes) : take_or e (l ++ k) (len l) = Ok (l, k).
Proof.
  unfold take_or. rewrite split_at_app. destruct (_ <? _) eqn:?; [bool_lia|done].
Qed.

Lemma take_or_Ok input n v rest :
  0 <= n -> take_or e input n = Ok (v, rest) -> input = v ++ rest /\ len v = n.
Proof. unfold take_or. intros ? H. destruct (_ <? _); [done|]. by eapply split_at_Ok. Qed.

Lemma take_or_cases input n :
  0 <= n ->
  (exists v rest, take_or e input n = Ok (v, rest)) \/
  (take_or e input n = Err e /\ len input < n).
Proof.
  intros. unfold take_or, split_at. destruct (_ <? _) eqn:?; [right; split; [done|bool_lia]|].
  left; eauto.
Qed.

Lemma take_or_fails (P : E -> Prop) input n : P e -> 0 <= n -> fails_with P (take_or e input n).
Proof.
  intros. destruct (take_or_cases input n) as [(v & r & ->)|[-> _]]; done.
Qed.

Lemma u32_or_app z k : 0 <= z <= u32_max -> u32_or e (to_be 4 z ++ k) = Ok (z, k).
Proof.
  intros Hz. unfold u32_or. rewrite (take_or_app (to_be 4 z) k : take_or _ _ 4 = _).
  cbn [mbind result_bind]. unfold array_of. rewrite len_to_be. simpl.
  rewrite from_be_to_be_small; [done|]. unfold u32_max in Hz. lia.
Qed.

Lemma u32_or_Ok input z rest :
  u32_or e input = Ok (z, rest) -> input = to_be 4 z ++ rest /\ 0 <= z <= u32_max.
Proof.
  unfold u32_or, array_of. intros ([a i] & [-> Hv]%take_or_Ok & H)%bind_Ok_inv; [|lia].
  rewrite Hv in H. simpl in H. res_inv.
  split; [|by apply from_be_u32].
  rewrite to_be_from_be' by (unfold len in Hv; lia). done.
Qed.

Lemma u32_or_cases input :
  (exists z rest, u32_or e input = Ok (z, rest)) \/ (u32_or e input = Err e /\ len input < 4).
Proof.
  unfold u32_or. destruct (take_or_cases input 4) as [(v & rest & E1)|[E1 ?]]; [lia|..]; rewrite E1.
  - left. apply take_or_Ok in E1 as [_ Hv]; [|lia]. unfold array_of. simpl. rewrite Hv. simpl. eauto.
  - by right.
Qed.
End Readers.

(** A bounded length-prefixed field. *)
Definition prefixed_or {E} (short long : E) (input : bytes) (limit : Z) : result E (bytes * bytes) :=
  '(length, input) ← u32_or short input;
  if limit <? length then Err long else take_or short input length.

Section PrefixedReader.
Context {E : Type} (short long : E).

Lemma prefixed_or_app s k limit :
  len s <= limit -> limit <= u32_max -> prefixed_or short long (prefixed s ++ k) limit = Ok (s, k).
Proof.
  intros Hs Hl. unfold prefixed_or, prefixed. rewrite <- app_assoc, u32_or_app by len_lia.
  cbn [mbind result_bind]. rewrite (proj2 (Z.ltb_ge _ _)) by done. apply take_or_app.
Qed.

Lemma prefixed_or_Ok input limit s rest :
  prefixed_or short long input limit = Ok (s, rest) -> input = prefixed s ++ rest /\ len s <= limit.
Proof.
  unfold prefixed_or. intros ([z i] & [-> Hz]%u32_or_Ok & H)%bind_Ok_inv.
  destruct (limit <? z) eqn:E1; [done|]. apply take_or_Ok in H as [-> <-]; [|lia].
  unfold prefixed. rewrite <- app_assoc. split; [done|bool_lia].
Qed.

Lemma u32_or_fails (P : E -> Prop) input : P short -> fails_with P (u32_or short input).
Proof. intros. destruct (u32_or_cases short input) as [(z & i & ->)|[-> _]]; done. Qed.

Lemma prefixed_or_fails (P : E -> Prop) input limit :
  P short -> P long -> fails_with P (prefixed_or short long input limit).
Proof.
  intros. apply fails_with_bind; [by apply u32_or_fails|].
  intros [z i] [-> Hz]%u32_or_Ok. destruct (limit <? z); [done|]. apply take_or_fails; [done|lia].
Qed.
End PrefixedReader.

(** Slice indexing [l[i]], which panics out of range. *)
Definition index {E} (l : bytes) (i : Z) : result E byte :=
  expect (if 0 <=? i then l !! Z.to_nat i else None).

(** [slice::position] with [&value[first..]]: the suffix from the first byte that
    satisfies [p]. *)
Fixpoint position {A} (p : A -> bool) (l : list A) : option nat :=
  match l with
  | [] => None
  | x :: l => if p x then Some 0%nat else S <$> position p l
  end.

Lemma position_None {A} (p : A -> bool) l :
  position p l = None -> Forall (fun x => p x = false) l.
Proof.
  induction l as [|x l IH]; simpl; [constructor|].
  destruct (p x) eqn:?; [done|]. destruct (position p l); [done|]. auto.
Qed.

Lemma position_Some {A} (p : A -> bool) l n :
  position p l = Some n ->
  Forall (fun x => p x = false) (firstn n l) /\ exists x k, skipn n l = x :: k /\ p x = true.
Proof.
  revert n; induction l as [|x l IH]; intros n; simpl; [done|].
  destruct (p x) eqn:?; [intros [= <-]; simpl; eauto|].
  destruct (position p l) as [m|]; simpl; [|done]. intros [= <-].
  destruct (IH m eq_refl) as [? ?]. simpl. auto.
Qed.

Lemma from_be_zeros l k : Forall (fun b => u8 b = 0) l -> from_be (l ++ k) = from_be k.
Proof.
  induction 1 as [|b l Hb _ IH]; [done|]. cbn [app]. rewrite from_be_cons, IH, Hb. lia.
Qed.

(** The high bit of a byte. *)
Lemma high_bit b : negb (Z.land (u8 b) 0x80 =? 0) = (128 <=? u8 b).
Proof. by destruct b. Qed.
