(* ===== verification/Text.v ===== *)
(** Text: the operations of Rust's [str] and [String] the program uses, on UTF-8
    byte sequences, with decimal and hexadecimal conversions. *)

From S2P Require Import Prelude Bytes.
From Stdlib Require Import Strings.Byte.

(** ** UTF-8 validation: [String::from_utf8] *)

Definition in_range (b : byte) (lo hi : Z) : bool := (lo <=? u8 b) && (u8 b <=? hi).
Definition utf8_cont (b : byte) : bool := in_range b 0x80 0xBF.

(** The rest of the text after its first character.  The well-formed sequences are
    those of the Unicode standard (its table 3-7): no overlong form, no surrogate,
    nothing above U+10FFFF. *)
Definition utf8_next (l : bytes) : option bytes :=
  match l with
  | a :: l =>
      if u8 a <? 0x80 then Some l
      else match l with
      | b :: l =>
          if in_range a 0xC2 0xDF then if utf8_cont b then Some l else None
          else match l with
          | c :: l =>
              if (in_range a 0xE0 0xE0 && in_range b 0xA0 0xBF
                  || (in_range a 0xE1 0xEC || in_range a 0xEE 0xEF) && utf8_cont b
                  || in_range a 0xED 0xED && in_range b 0x80 0x9F) && utf8_cont c
              then Some l
              else match l with
              | d :: l =>
                  if (in_range a 0xF0 0xF0 && in_range b 0x90 0xBF
                      || in_range a 0xF1 0xF3 && utf8_cont b
                      || in_range a 0xF4 0xF4 && in_range b 0x80 0x8F)
                     && utf8_cont c && utf8_cont d
                  then Some l else None
              | [] => None
              end
          | [] => None
          end
      | [] => None
      end
  | [] => None
  end.

(** Validation of the whole text, one character at a time; the length of the text is
    fuel enough, since every character has at least one byte. *)
Fixpoint utf8_run (n : nat) (l : bytes) : bool :=
  match l, n with
  | [], _ => true
  | _, O => false
  | _, S n => match utf8_next l with Some l' => utf8_run n l' | None => false end
  end.
Definition utf8_valid (l : bytes) : bool := utf8_run (length l) l.

(** [String::from_utf8]. *)
Definition from_utf8 {E} (e : E) (l : bytes) : result E bytes :=
  if utf8_valid l then Ok l else Err e.

#[global] Arguments utf8_next : simpl never.

(** One case per test of [utf8_next]. *)
Ltac utf8_cases :=
  unfold utf8_next;
  repeat first
    [ match goal with |- context [match ?l with [] => _ | _ :: _ => _ end] =>
        is_var l; destruct l; simpl end
    | match goal with |- context [if ?c then _ else _] => destruct c end ].

Lemma utf8_next_shorter l l' : utf8_next l = Some l' -> (length l' < length l)%nat.
Proof. utf8_cases; intros; simplify_eq/=; lia. Qed.

Lemma utf8_next_app l l' k : utf8_next l = Some l' -> utf8_next (l ++ k) = Some (l' ++ k).
Proof.
  utf8_cases; intros; simplify_eq/=;
    repeat match goal with H : ?c = _ |- context [?c] => rewrite H end; done.
Qed.

Lemma utf8_run_enough n m l :
  (length l <= n)%nat -> (length l <= m)%nat -> utf8_run n l = utf8_run m l.
Proof.
  revert m l; induction n as [|n IH]; intros m [|a l] Hn Hm; simpl in *; try lia.
  - by destruct m.
  - by destruct m.
  - destruct m as [|m]; simpl; [lia|].
    destruct (utf8_next (a :: l)) eqn:E; [|done].
    apply utf8_next_shorter in E; simpl in E. apply IH; lia.
Qed.

(** The unfolding equation of validation. *)
Lemma utf8_valid_next l :
  utf8_valid l =
    match l with
    | [] => true
    | _ => match utf8_next l with Some l' => utf8_valid l' | None => false end
    end.
Proof.
  destruct l as [|a l]; [done|]. unfold utf8_valid; cbn [utf8_run length].
  destruct (utf8_next (a :: l)) eqn:E; [|done].
  apply utf8_next_shorter in E; simpl in E. apply utf8_run_enough; lia.
Qed.

(** Concatenation with valid text in front changes nothing. *)
Lemma utf8_app l k : utf8_valid l = true -> utf8_valid (l ++ k) = utf8_valid k.
Proof.
  remember (length l) as n eqn:Hn. revert l Hn.
  induction (lt_wf n) as [n _ IH]. intros l -> Hl.
  rewrite utf8_valid_next in Hl. destruct l as [|a l]; [done|].
  destruct (utf8_next (a :: l)) as [l'|] eqn:E; [|done].
  rewrite utf8_valid_next. change ((a :: l) ++ k) with (a :: (l ++ k)).
  cbn match. rewrite (utf8_next_app (a :: l) l' k E : utf8_next (a :: (l ++ k)) = _).
  eapply IH; eauto using utf8_next_shorter.
Qed.

Definition is_ascii (b : byte) : bool := u8 b <? 0x80.

Lemma utf8_cons_ascii b l : is_ascii b = true -> utf8_valid (b :: l) = utf8_valid l.
Proof.
  unfold is_ascii. intros H. rewrite utf8_valid_next. unfold utf8_next. by rewrite H.
Qed.

Lemma utf8_ascii l : forallb is_ascii l = true -> utf8_valid l = true.
Proof.
  induction l as [|b l IH]; simpl; [done|].
  intros [Hb Hl]%andb_true_iff. rewrite utf8_cons_ascii; auto.
Qed.

(** ** Searching and splitting *)

Definition newline : byte := b8 10.
Definition carriage_return : byte := b8 13.
Definition tab : byte := b8 9.

(** [str::split_once] on an ASCII separator. *)
Fixpoint split_once (sep : byte) (l : bytes) : option (bytes * bytes) :=
  match l with
  | [] => None
  | b :: l =>
      if decide (b = sep) then Some ([], l)
      else prod_map (cons b) id <$> split_once sep l
  end.

Lemma split_once_app sep l k : sep ∉ l -> split_once sep (l ++ sep :: k) = Some (l, k).
Proof.
  induction l as [|b l IH]; simpl; intros H.
  - by rewrite decide_True.
  - apply not_elem_of_cons in H as [? ?]. rewrite decide_False by done.
    by rewrite IH.
Qed.

Lemma split_once_Some sep l a b :
  split_once sep l = Some (a, b) -> l = a ++ sep :: b /\ sep ∉ a.
Proof.
  revert a; induction l as [|c l IH]; intros a; simpl; [done|].
  case_decide; [intros [= <- <-]; subst; split; [done|apply not_elem_of_nil]|].
  destruct (split_once sep l) as [[a' b']|]; simpl; [|done].
  intros [= <- <-]. destruct (IH a' eq_refl) as [-> ?]. split; [done|].
  apply not_elem_of_cons; auto.
Qed.

(** [str::split_inclusive] on an ASCII separator: every piece but the last ends with it. *)
Fixpoint split_inclusive (sep : byte) (l : bytes) : list bytes :=
  match l with
  | [] => []
  | b :: l =>
      if decide (b = sep) then [b] :: split_inclusive sep l
      else match split_inclusive sep l with
           | [] => [[b]]
           | x :: xs => (b :: x) :: xs
           end
  end.

(** [str::strip_suffix] with one ASCII character. *)
Definition strip_suffix (c : byte) (l : bytes) : option bytes :=
  match last l with
  | Some b => if decide (b = c) then Some (removelast l) else None
  | None => None
  end.

Lemma strip_suffix_snoc c l : strip_suffix c (l ++ [c]) = Some l.
Proof. unfold strip_suffix. by rewrite last_snoc, decide_True, removelast_last. Qed.

Lemma strip_suffix_none c l : last l <> Some c -> strip_suffix c l = None.
Proof. unfold strip_suffix. destruct (last l); [|done]. intros. by rewrite decide_False by congruence. Qed.

(** [str::lines]. *)
Definition lines (l : bytes) : list bytes :=
  (fun line =>
     match strip_suffix newline line with
     | None => line
     | Some line =>
         match strip_suffix carriage_return line with
         | None => line
         | Some line => line
         end
     end) <$> split_inclusive newline l.

Lemma split_inclusive_line l k :
  newline ∉ l ->
  split_inclusive newline (l ++ newline :: k) = (l ++ [newline]) :: split_inclusive newline k.
Proof.
  induction l as [|b l IH]; intros H; [done|].
  apply not_elem_of_cons in H as [? ?]. cbn [split_inclusive app].
  rewrite decide_False by done. by rewrite IH.
Qed.

Lemma lines_line l k :
  newline ∉ l -> last l <> Some carriage_return ->
  lines (l ++ newline :: k) = l :: lines k.
Proof.
  intros Hn Hc. unfold lines. rewrite split_inclusive_line by done.
  rewrite fmap_cons. by rewrite strip_suffix_snoc, strip_suffix_none.
Qed.

(** [u8::is_ascii_whitespace] and [str::split_ascii_whitespace]. *)
Definition is_ascii_whitespace (b : byte) : bool :=
  let z := u8 b in (z =? 32) || (z =? 9) || (z =? 10) || (z =? 12) || (z =? 13).

Fixpoint split_ascii_whitespace (l : bytes) : list bytes :=
  match l with
  | [] => []
  | b :: l' =>
      if is_ascii_whitespace b then split_ascii_whitespace l'
      else match l' with
           | [] => [[b]]
           | c :: _ =>
               if is_ascii_whitespace c then [b] :: split_ascii_whitespace l'
               else match split_ascii_whitespace l' with
                    | [] => [[b]]
                    | x :: xs => (b :: x) :: xs
                    end
           end
  end.

(** [str::starts_with] and [str::strip_prefix]. *)
Fixpoint strip_prefix (p l : bytes) : option bytes :=
  match p, l with
  | [], _ => Some l
  | a :: p, b :: l => if decide (a = b) then strip_prefix p l else None
  | _ :: _, [] => None
  end.
Definition starts_with (p l : bytes) : bool := bool_decide (is_Some (strip_prefix p l)).

Lemma strip_prefix_app p l : strip_prefix p (p ++ l) = Some l.
Proof. induction p; simpl; [done|]. by rewrite decide_True. Qed.

Lemma strip_prefix_Some p l k : strip_prefix p l = Some k <-> l = p ++ k.
Proof.
  split; [|intros ->; apply strip_prefix_app].
  revert l; induction p as [|a p IH]; intros [|b l]; simpl; try congruence.
  case_decide; [|done]. intros ->%IH. congruence.
Qed.

(** ** Decimal numbers *)

Definition digit (d : Z) : byte := b8 (48 + d).
Definition is_digit (b : byte) : bool := in_range b 48 57.

(** [u64::to_string]: twenty digits hold every 64-bit value.  The type has no negative
    values, so none has digits of its own here. *)
Fixpoint print_digits (fuel : nat) (n : Z) : bytes :=
  match fuel with
  | O => []
  | S fuel => if n <? 10 then [digit n] else print_digits fuel (n / 10) ++ [digit (n mod 10)]
  end.
Definition print_dec (n : Z) : bytes := print_digits 20 (Z.max 0 n).

(** The digits of [str::parse::<u64>]; [None] on a character that is not a digit and
    on overflow of the accumulator. *)
Fixpoint parse_digits (max acc : Z) (l : bytes) : option Z :=
  match l with
  | [] => Some acc
  | b :: l =>
      if is_digit b then
        let acc := acc * 10 + (u8 b - 48) in
        if acc <=? max then parse_digits max acc l else None
      else None
  end.

(** [str::parse::<u64>] and [str::parse::<usize>]: an optional plus sign, then at least
    one digit. *)
Definition parse_u64 (l : bytes) : option Z :=
  match l with
  | [] => None
  | b :: l' =>
      if u8 b =? 43 then match l' with [] => None | _ => parse_digits u64_max 0 l' end
      else parse_digits u64_max 0 l
  end.

Lemma u8_digit d : 0 <= d < 10 -> u8 (digit d) = 48 + d.
Proof. intros. unfold digit. apply u8_b8_small. lia. Qed.

Lemma is_digit_digit d : 0 <= d < 10 -> is_digit (digit d) = true.
Proof.
  intros. unfold is_digit, in_range. rewrite u8_digit by done.
  apply andb_true_iff. split; apply Z.leb_le; lia.
Qed.

Lemma parse_digits_app max acc l k :
  parse_digits max acc (l ++ k) = parse_digits max acc l ≫= fun a => parse_digits max a k.
Proof.
  revert acc; induction l as [|b l IH]; intros acc; simpl; [done|].
  destruct (is_digit b); [|done]. destruct (_ <=? max); [|done]. apply IH.
Qed.

Lemma parse_print_digits fuel n :
  0 <= n < 10 ^ Z.of_nat fuel -> n <= u64_max ->
  parse_digits u64_max 0 (print_digits fuel n) = Some n.
Proof.
  revert n; induction fuel as [|fuel IH]; intros n Hn Hmax; [simpl in *; f_equal; lia|].
  cbn [print_digits]. destruct (n <? 10) eqn:E; [|rewrite parse_digits_app, IH].
  - apply Z.ltb_lt in E. cbn [parse_digits].
    rewrite is_digit_digit, u8_digit by lia.
    replace (0 * 10 + _) with n by lia. by rewrite (proj2 (Z.leb_le _ _) Hmax).
  - pose proof (Z.mod_pos_bound n 10 eq_refl). pose proof (Z.div_mod n 10).
    cbn [parse_digits mbind option_bind]. rewrite is_digit_digit, u8_digit by lia.
    replace (n / 10 * 10 + _) with n by lia. by rewrite (proj2 (Z.leb_le _ _) Hmax).
  - rewrite Nat2Z.inj_succ, Z.pow_succ_r in Hn by lia. split.
    + apply Z.div_pos; lia.
    + apply Z.div_lt_upper_bound; lia.
  - apply Z.div_le_upper_bound; lia.
Qed.

Lemma print_digits_is_digit fuel n :
  0 <= n -> Forall (fun b => is_digit b = true) (print_digits fuel n).
Proof.
  revert n; induction fuel as [|fuel IH]; intros n Hn; cbn [print_digits]; [constructor|].
  destruct (n <? 10) eqn:E.
  - apply Z.ltb_lt in E. repeat constructor. apply is_digit_digit; lia.
  - apply Forall_app; split; [apply IH, Z.div_pos; lia|].
    repeat constructor. apply is_digit_digit, Z.mod_pos_bound; lia.
Qed.

Lemma print_digits_cons fuel n :
  0 <= n -> exists b l, print_digits (S fuel) n = b :: l /\ is_digit b = true.
Proof.
  intros Hn. pose proof (print_digits_is_digit (S fuel) n Hn) as H.
  destruct (print_digits (S fuel) n) as [|b l] eqn:E.
  - exfalso. cbn [print_digits] in E. destruct (n <? 10); [done|].
    by apply app_nil in E as [_ ?].
  - exists b, l. by inversion H.
Qed.

Lemma print_dec_not_elem c n : is_digit c = false -> c ∉ print_dec n.
Proof.
  intros Hc Hin. pose proof (print_digits_is_digit 20 (Z.max 0 n) ltac:(lia)) as H.
  rewrite Forall_forall in H. by rewrite H in Hc.
Qed.

(** Decimal numbers survive printing and parsing. *)
Lemma parse_print_dec n : 0 <= n <= u64_max -> parse_u64 (print_dec n) = Some n.
Proof.
  intros Hn. unfold print_dec. rewrite Z.max_r by lia.
  destruct (print_digits_cons 19 n ltac:(lia)) as (b & l & E & Hb).
  pose proof (parse_print_digits 20 n) as P. rewrite E in *. unfold parse_u64.
  unfold is_digit, in_range in Hb.
  destruct (u8 b =? 43) eqn:?; [bool_lia|]. apply P; [|lia].
  assert (u64_max < 10 ^ Z.of_nat 20) by (vm_compute; reflexivity). lia.
Qed.

(** ** Hexadecimal *)

(** The table of digits, indexed by a nibble. *)
Definition HEX : bytes := str "0123456789abcdef".
Definition hex_byte (digits : bytes) (b : byte) : bytes :=
  [digits !!! Z.to_nat (Z.shiftr (u8 b) 4); digits !!! Z.to_nat (Z.land (u8 b) 0x0f)].
Definition hex_encode (l : bytes) : bytes := l ≫= hex_byte HEX.

Definition is_lower_hex (b : byte) : bool := is_digit b || in_range b 97 102.

(** The value of a hexadecimal digit of either case: [hex_digit] of the client. *)
Definition hex_value (b : byte) : option Z :=
  if in_range b 48 57 then Some (u8 b - 48)
  else if in_range b 97 102 then Some (u8 b - 97 + 10)
  else if in_range b 65 70 then Some (u8 b - 65 + 10)
  else None.

(** Pairs of digits back to bytes. *)
Fixpoint hex_decode (l : bytes) : option bytes :=
  match l with
  | [] => Some []
  | [_] => None
  | h :: l :: rest =>
      high ← hex_value h;
      low ← hex_value l;
      cons (b8 (Z.lor (Z.shiftl high 4) low)) <$> hex_decode rest
  end.

(** What the table holds at every nibble. *)
Lemma HEX_nibble n :
  0 <= n < 16 ->
  is_lower_hex (HEX !!! Z.to_nat n) = true /\ hex_value (HEX !!! Z.to_nat n) = Some n.
Proof.
  intros Hn. assert (forallb (fun n => is_lower_hex (HEX !!! n) &&
    bool_decide (hex_value (HEX !!! n) = Some (Z.of_nat n)))%bool (seq 0 16) = true) as H
    by (vm_compute; reflexivity).
  rewrite forallb_forall in H. specialize (H (Z.to_nat n)).
  rewrite in_seq, Z2Nat.id in H by lia.
  apply andb_true_iff in H as [? ?%bool_decide_eq_true]; [auto|lia].
Qed.

Lemma high_nibble b : 0 <= Z.shiftr (u8 b) 4 < 16.
Proof.
  pose proof (u8_range b). rewrite Z.shiftr_div_pow2 by lia. change (2 ^ 4) with 16.
  split; [apply Z.div_pos; lia|apply Z.div_lt_upper_bound; lia].
Qed.

Lemma low_nibble b : 0 <= Z.land (u8 b) 0x0f < 16.
Proof.
  change 0x0f with (Z.ones 4). rewrite Z.land_ones by lia. by apply Z.mod_pos_bound.
Qed.

Lemma nibbles_lor b : Z.lor (Z.shiftl (Z.shiftr (u8 b) 4) 4) (Z.land (u8 b) 0x0f) = u8 b.
Proof.
  change 0x0f with (Z.ones 4). apply Z.bits_inj'. intros n Hn.
  rewrite Z.lor_spec, Z.shiftl_spec, Z.land_spec by done.
  destruct (Z.ltb_spec n 4).
  - rewrite Z.testbit_neg_r, Z.ones_spec_low by lia. simpl. by rewrite andb_true_r.
  - rewrite Z.shiftr_spec, Z.ones_spec_high by lia. rewrite andb_false_r, orb_false_r.
    f_equal. lia.
Qed.

Lemma hex_encode_cons b l : hex_encode (b :: l) = hex_byte HEX b ++ hex_encode l.
Proof. reflexivity. Qed.

Lemma hex_decode_encode l : hex_decode (hex_encode l) = Some l.
Proof.
  induction l as [|b l IH]; [done|]. rewrite hex_encode_cons. unfold hex_byte.
  cbn [app hex_decode].
  rewrite (proj2 (HEX_nibble _ (high_nibble b))), (proj2 (HEX_nibble _ (low_nibble b))).
  simpl. rewrite IH. simpl. by rewrite nibbles_lor, b8_u8.
Qed.

Lemma hex_encode_inj l k : hex_encode l = hex_encode k -> l = k.
Proof. intros H. apply (f_equal hex_decode) in H. rewrite !hex_decode_encode in H. congruence. Qed.

Lemma hex_encode_lower l : forallb is_lower_hex (hex_encode l) = true.
Proof.
  induction l as [|b l IH]; [done|]. rewrite hex_encode_cons, forallb_app, IH. simpl.
  by rewrite (proj1 (HEX_nibble _ (high_nibble b))), (proj1 (HEX_nibble _ (low_nibble b))).
Qed.

Lemma len_hex_encode l : len (hex_encode l) = 2 * len l.
Proof.
  induction l as [|b l IH]; [done|]. rewrite hex_encode_cons. unfold hex_byte.
  autorewrite with len. lia.
Qed.
#[global] Hint Rewrite len_hex_encode : len.

Lemma is_lower_hex_ascii b : is_lower_hex b = true -> is_ascii b = true.
Proof. unfold is_lower_hex, is_digit, in_range, is_ascii. lia. Qed.

(** No separator of the formats that carry hexadecimal text is itself a digit. *)
Lemma hex_encode_not_elem c l : is_lower_hex c = false -> c ∉ hex_encode l.
Proof.
  intros Hc Hin. pose proof (hex_encode_lower l) as H.
  rewrite forallb_forall in H. rewrite H in Hc; [done|]. by apply list_elem_of_In.
Qed.

(** ** Trimming *)

(** The UTF-8 encodings of the characters of Unicode's [White_Space].  No encoding of a
    character is a proper prefix or suffix of another's, so that looking for these at the
    two ends of a text is looking at its first and last characters. *)
Definition WHITE_SPACE : list bytes :=
  ((fun b => [b8 b]) <$> [9; 10; 11; 12; 13; 32]) ++
  [[b8 0xC2; b8 0x85]; [b8 0xC2; b8 0xA0]; [b8 0xE1; b8 0x9A; b8 0x80]] ++
  ((fun n => [b8 0xE2; b8 0x80; b8 (0x80 + Z.of_nat n)]) <$> seq 0 11) ++
  [[b8 0xE2; b8 0x80; b8 0xA8]; [b8 0xE2; b8 0x80; b8 0xA9]; [b8 0xE2; b8 0x80; b8 0xAF];
   [b8 0xE2; b8 0x81; b8 0x9F]; [b8 0xE3; b8 0x80; b8 0x80]].

(** What is left after the first of [ps] that is a prefix. *)
Fixpoint strip_any (ps : list bytes) (l : bytes) : option bytes :=
  match ps with
  | [] => None
  | p :: ps => match strip_prefix p l with Some l => Some l | None => strip_any ps l end
  end.

Fixpoint strip_all (fuel : nat) (ps : list bytes) (l : bytes) : bytes :=
  match fuel with
  | O => l
  | S fuel => match strip_any ps l with Some l => strip_all fuel ps l | None => l end
  end.

(** [str::trim]; the length of the text is fuel enough. *)
Definition trim_start (l : bytes) : bytes := strip_all (length l) WHITE_SPACE l.
Definition trim_end (l : bytes) : bytes :=
  reverse (strip_all (length l) (reverse <$> WHITE_SPACE) (reverse l)).
Definition trim (l : bytes) : bytes := trim_end (trim_start l).

Lemma strip_any_Some ps l l' : strip_any ps l = Some l' -> exists p, p ∈ ps /\ l = p ++ l'.
Proof.
  induction ps as [|p ps IH]; cbn; [done|]. destruct (strip_prefix p l) as [k|] eqn:E.
  - intros [= ->]. exists p. split; [by left|]. by apply strip_prefix_Some.
  - intros (q & ? & ->)%IH. exists q. split; [by right|done].
Qed.

(** All of it is stripped: no character of [ps] is left in front. *)
Lemma strip_all_done ps l fuel :
  Forall (fun p => p <> []) ps -> (length l <= fuel)%nat -> strip_any ps (strip_all fuel ps l) = None.
Proof.
  intros Hps. revert l. induction fuel as [|fuel IH]; intros l Hl; cbn [strip_all].
  - destruct l; [|cbn in Hl; lia]. destruct (strip_any ps []) as [k|] eqn:E; [|done].
    apply strip_any_Some in E as (p & Hp & E). rewrite Forall_forall in Hps. apply Hps in Hp.
    by destruct p.
  - destruct (strip_any ps l) as [k|] eqn:E; [|done]. apply IH.
    apply strip_any_Some in E as (p & Hp & ->). rewrite Forall_forall in Hps. apply Hps in Hp.
    destruct p; [done|]. cbn in Hl. rewrite length_app in Hl. lia.
Qed.

Lemma WHITE_SPACE_nonempty : Forall (fun p => p <> []) WHITE_SPACE.
Proof. by apply (bool_decide_unpack _). Qed.

(** What trimming takes away at the front. *)
Lemma strip_all_app ps l fuel : exists w, l = w ++ strip_all fuel ps l.
Proof.
  revert l. induction fuel as [|fuel IH]; intros l; cbn [strip_all]; [by exists []|].
  destruct (strip_any ps l) as [k|] eqn:E; [|by exists []].
  apply strip_any_Some in E as (p & _ & ->). destruct (IH k) as [w Hw]. exists (p ++ w).
  by rewrite <- app_assoc, <- Hw.
Qed.

(** A text that neither starts nor ends with white space is left alone. *)
Lemma trim_none l :
  strip_any WHITE_SPACE l = None -> strip_any (reverse <$> WHITE_SPACE) (reverse l) = None -> trim l = l.
Proof.
  intros H1 H2. unfold trim, trim_start, trim_end.
  assert (strip_all (length l) WHITE_SPACE l = l) as ->.
  { destruct (length l); cbn [strip_all]; [done|]. by rewrite H1. }
  assert (strip_all (length l) (reverse <$> WHITE_SPACE) (reverse l) = reverse l) as ->; [|by rewrite reverse_involutive].
  destruct (length l); cbn [strip_all]; [done|]. by rewrite H2.
Qed.

Example trim_name : trim (str "  work key ") = str "work key".
Proof. by vm_compute. Qed.
