(* ===== verification/Core.v ===== *)
(** The domain types shared by every Keyvisor process: crates/keyvisor-core. *)

From S2P Require Import Prelude Bytes Text.

(** ** Key identifiers *)

(** [KeyId(String)]. *)
Record KeyId := mkKeyId { as_str : bytes }.

(** [KeyId::new]. *)
Definition KeyId_new (value : bytes) : KeyId := mkKeyId value.

#[global] Instance KeyId_eq_dec : EqDecision KeyId.
Proof. solve_decision. Defined.

#[global] Instance KeyId_countable : Countable KeyId :=
  inj_countable' as_str mkKeyId (fun k => match k with mkKeyId _ => eq_refl end).

(** ** Algorithms and authorization policies *)

Inductive KeyAlgorithm := EcdsaNistP256 | EcdsaNistP384.

#[global] Instance KeyAlgorithm_eq_dec : EqDecision KeyAlgorithm.
Proof. solve_decision. Defined.

Definition ssh_key_type (self : KeyAlgorithm) : bytes :=
  match self with
  | EcdsaNistP256 => str "ecdsa-sha2-nistp256"
  | EcdsaNistP384 => str "ecdsa-sha2-nistp384"
  end.

Definition ssh_curve_name (self : KeyAlgorithm) : bytes :=
  match self with
  | EcdsaNistP256 => str "nistp256"
  | EcdsaNistP384 => str "nistp384"
  end.

Definition digest_size (self : KeyAlgorithm) : Z :=
  match self with
  | EcdsaNistP256 => 32
  | EcdsaNistP384 => 48
  end.

Definition ecdsa_component_size (self : KeyAlgorithm) : Z :=
  match self with
  | EcdsaNistP256 => 32
  | EcdsaNistP384 => 48
  end.

Inductive KeyUsePolicy := NoPin | TpmPin.

#[global] Instance KeyUsePolicy_eq_dec : EqDecision KeyUsePolicy.
Proof. solve_decision. Defined.

(** ** Public information about a key *)

Record KeySummary := mkKeySummary {
  id : KeyId;
  name : bytes;
  algorithm : KeyAlgorithm;
  use_policy : KeyUsePolicy;
  public_key : bytes;
}.

#[global] Instance KeySummary_eq_dec : EqDecision KeySummary.
Proof. solve_decision. Defined.

(** The invariant the Rust types carry: a [String] is valid UTF-8. *)
Definition KeyId_wf (k : KeyId) : bool := utf8_valid (as_str k).
Definition KeySummary_wf (k : KeySummary) : bool := KeyId_wf (id k) && utf8_valid (name k).

Lemma component_size_range a : 0 < ecdsa_component_size a <= 48.
Proof. destruct a; simpl; lia. Qed.

Lemma len_ssh_key_type a : len (ssh_key_type a) = 19.
Proof. by destruct a. Qed.
