(* ===== verification/Protocol.v ===== *)
(** The bounded OpenSSH agent protocol: crates/keyvisor-agent/src/protocol.rs. *)

From S2P Require Import Prelude Bytes Text Core.
From Stdlib Require Import Strings.Byte.

Definition MAX_PACKET_LENGTH : Z := 256 * 1024.

Definition SSH_AGENT_FAILURE : Z := 5.
Definition SSH2_AGENTC_REQUEST_IDENTITIES : Z := 11.
Definition SSH2_AGENT_IDENTITIES_ANSWER : Z := 12.
Definition SSH2_AGENTC_SIGN_REQUEST : Z := 13.
Definition SSH2_AGENT_SIGN_RESPONSE : Z := 14.

(** ** Data *)

Inductive AgentRequest :=
  | RequestIdentities
  | Sign (public_key data : bytes) (flags : Z).

Inductive ProtocolError :=
  | EmptyPacket
  | PacketTooLarge
  | Truncated
  | TrailingData
  | UnsupportedRequest
  | InvalidSignature.

#[global] Instance AgentRequest_eq_dec : EqDecision AgentRequest.
Proof. solve_decision. Defined.
#[global] Instance ProtocolError_eq_dec : EqDecision ProtocolError.
Proof. solve_decision. Defined.

(** [impl Display for ProtocolError]. *)
Definition ProtocolError_display (e : ProtocolError) : bytes :=
  match e with
  | EmptyPacket => str "SSH agent packet is empty"
  | PacketTooLarge => str "SSH agent packet exceeds its limit"
  | Truncated => str "SSH agent packet is truncated"
  | TrailingData => str "SSH agent packet has trailing data"
  | UnsupportedRequest => str "SSH agent request is unsupported"
  | InvalidSignature => str "TPM ECDSA signature is invalid"
  end.

(** ** Reading: a cursor [&mut &[u8]] is passed and returned *)

Definition take (input : bytes) (length : Z) : result ProtocolError (bytes * bytes) :=
  if len input <? length then Err Truncated
  else split_at input length.

Definition take_u32 (input : bytes) : result ProtocolError (Z * bytes) :=
  '(value, input) ← take input 4;
  bytes ← ok_or (array_of 4 value) Truncated;
  Ok (from_be bytes, input).

Definition take_string (input : bytes) : result ProtocolError (bytes * bytes) :=
  '(value, input) ← take_u32 input;
  length ← ok_or (usize_try_from value) PacketTooLarge;
  take input length.

Definition ensure_empty (input : bytes) : result ProtocolError unit :=
  match input with
  | [] => Ok tt
  | _ => Err TrailingData
  end.

Definition parse_request (packet : bytes) : result ProtocolError AgentRequest :=
  match packet with
  | [] => Err EmptyPacket
  | message_type :: input =>
      if MAX_PACKET_LENGTH <? len packet then Err PacketTooLarge
      else if u8 message_type =? SSH2_AGENTC_REQUEST_IDENTITIES then
        _ ← ensure_empty input;
        Ok RequestIdentities
      else if u8 message_type =? SSH2_AGENTC_SIGN_REQUEST then
        '(public_key, input) ← take_string input;
        '(data, input) ← take_string input;
        '(flags, input) ← take_u32 input;
        _ ← ensure_empty input;
        Ok (Sign public_key data flags)
      else Err UnsupportedRequest
  end.

(** ** Writing: an output buffer [&mut Vec<u8>] is passed and returned *)

Definition frame (payload : bytes) : result ProtocolError bytes :=
  length ← expect (u32_try_from (len payload));
  Ok (to_be 4 length ++ payload).

Definition checked_frame (payload : bytes) : result ProtocolError bytes :=
  if MAX_PACKET_LENGTH <? len payload then Err PacketTooLarge
  else frame payload.

Definition push_string (output value : bytes) : result ProtocolError bytes :=
  length ← ok_or (u32_try_from (len value)) PacketTooLarge;
  let output := output ++ to_be 4 length in
  let output := output ++ value in
  if MAX_PACKET_LENGTH <? len output then Err PacketTooLarge else Ok output.

Definition push_mpint (output value : bytes) : result ProtocolError bytes :=
  let value :=
    match position (fun byte => negb (u8 byte =? 0)) value with
    | None => []
    | Some first => skipn first value
    end in
  match value with
  | byte :: _ =>
      if negb (Z.land (u8 byte) 0x80 =? 0) then push_string output (b8 0 :: value)
      else push_string output value
  | [] => push_string output value
  end.

Definition failure_response : result ProtocolError bytes := frame [b8 SSH_AGENT_FAILURE].

Fixpoint push_identities (payload : bytes) (keys : list KeySummary) :
    result ProtocolError bytes :=
  match keys with
  | [] => Ok payload
  | key :: keys =>
      payload ← push_string payload (public_key key);
      payload ← push_string payload (name key);
      push_identities payload keys
  end.

Definition identities_response (keys : list KeySummary) : result ProtocolError bytes :=
  let payload := [b8 SSH2_AGENT_IDENTITIES_ANSWER] in
  count ← ok_or (u32_try_from (len keys)) PacketTooLarge;
  let payload := payload ++ to_be 4 count in
  payload ← push_identities payload keys;
  checked_frame payload.

Definition ecdsa_signature_response (algorithm : KeyAlgorithm) (signature : bytes) :
    result ProtocolError bytes :=
  '(r, s) ← ok_or
    (match split_at_checked signature (ecdsa_component_size algorithm) with
     | Some (r, s) =>
         if len s =? ecdsa_component_size algorithm then Some (r, s) else None
     | None => None
     end) InvalidSignature;
  ecdsa ← push_mpint [] r;
  ecdsa ← push_mpint ecdsa s;
  signature_blob ← push_string [] (ssh_key_type algorithm);
  signature_blob ← push_string signature_blob ecdsa;
  let payload := [b8 SSH2_AGENT_SIGN_RESPONSE] in
  payload ← push_string payload signature_blob;
  checked_frame payload.

(** ** The wire format, declaratively *)

(** An SSH string: a four-byte length and the bytes. *)
Abbreviation ssh_string := prefixed.

(** The client's encoding of a request. *)
Definition encode_request (r : AgentRequest) : bytes :=
  match r with
  | RequestIdentities => [b8 11]
  | Sign pk data flags => b8 13 :: ssh_string pk ++ ssh_string data ++ to_be 4 flags
  end.

Definition request_wf (r : AgentRequest) : Prop :=
  match r with
  | RequestIdentities => True
  | Sign pk data flags => len pk <= u32_max /\ len data <= u32_max /\ 0 <= flags <= u32_max
  end.

(** The identity list as [ssh-agent] clients read it: count, then blob and comment. *)
Definition identities_payload (keys : list KeySummary) : bytes :=
  b8 12 :: to_be 4 (len keys) ++
    (keys ≫= fun k => ssh_string (public_key k) ++ ssh_string (name k)).

(** The size of that payload. *)
Definition identities_size (keys : list KeySummary) : Z :=
  5 + foldr (fun k n => 8 + len (public_key k) + len (name k) + n) 0 keys.

(** The integer a two's-complement SSH [mpint] denotes, and canonicity (RFC 4251,
    section 5): no leading byte that the sign of the next one makes redundant. *)
Definition mpint_value (b : bytes) : Z :=
  match b with
  | [] => 0
  | x :: _ => if 128 <=? u8 x then from_be b - 256 ^ len b else from_be b
  end.

Definition mpint_canonical (b : bytes) : Prop :=
  match b with
  | [] => True
  | [x] => u8 x <> 0
  | x :: y :: _ => ~ (u8 x = 0 /\ u8 y < 128) /\ ~ (u8 x = 255 /\ 128 <= u8 y)
  end.

(** The encoding [push_mpint] appends. *)
Definition mpint_of (value : bytes) : bytes :=
  let value :=
    match position (fun byte => negb (u8 byte =? 0)) value with
    | None => []
    | Some first => skipn first value
    end in
  match value with
  | byte :: _ => if 128 <=? u8 byte then b8 0 :: value else value
  | [] => []
  end.

(** The signature response as OpenSSH reads it. *)
Definition signature_payload (a : KeyAlgorithm) (r s : bytes) : bytes :=
  b8 14 :: ssh_string (ssh_string (ssh_key_type a) ++
                       ssh_string (ssh_string (mpint_of r) ++ ssh_string (mpint_of s))).

(** ** Lemmas on the readers *)

(** [take] and [take_u32] are the shared readers, with the error [Truncated]. *)
Lemma take_u32_eq input : take_u32 input = u32_or Truncated input.
Proof. reflexivity. Qed.

Lemma take_string_app s k : len s <= u32_max -> take_string (ssh_string s ++ k) = Ok (s, k).
Proof.
  intros Hs. unfold take_string, prefixed.
  rewrite <- app_assoc, take_u32_eq, u32_or_app by len_lia.
  simpl. rewrite usize_of_u32 by done. apply take_or_app.
Qed.

Lemma take_string_Ok input s rest :
  take_string input = Ok (s, rest) -> input = ssh_string s ++ rest /\ len s <= u32_max.
Proof.
  unfold take_string. intros ([z i] & [-> Hz]%u32_or_Ok & H)%bind_Ok_inv.
  rewrite usize_of_u32 in H by lia. apply take_or_Ok in H as [-> <-]; [|lia].
  unfold prefixed. rewrite <- app_assoc. split; [done|lia].
Qed.

(** A reader fails only on a proper prefix of an encoding. *)
Lemma take_string_cases input :
  (exists s rest, take_string input = Ok (s, rest)) \/
  (take_string input = Err Truncated /\
   exists s rest, rest <> [] /\ len s <= u32_max /\ input ++ rest = ssh_string s).
Proof.
  unfold take_string. rewrite take_u32_eq.
  destruct (u32_or_cases Truncated input) as [(z & rest & E)|[E Hlen]]; rewrite E.
  - apply u32_or_Ok in E as [-> Hz]. simpl. rewrite usize_of_u32 by lia. simpl.
    destruct (take_or_cases Truncated rest z) as [(s & r & E)|[E Hlen]]; [lia|left; eauto|right].
    split; [done|]. exists (rest ++ replicate (Z.to_nat (z - len rest)) (b8 0)),
      (replicate (Z.to_nat (z - len rest)) (b8 0)).
    assert (len (rest ++ replicate (Z.to_nat (z - len rest)) (b8 0)) = z) as Hl by len_lia.
    split; [|split; [lia|]].
    + intros H%(f_equal len). len_lia.
    + unfold prefixed. by rewrite Hl, <- app_assoc.
  - right. split; [done|]. set (pad := replicate (Z.to_nat (4 - len input)) (b8 0)).
    set (z := from_be (input ++ pad)).
    assert (len (input ++ pad) = 4) as Hl by (unfold pad; len_lia).
    assert (0 <= z <= u32_max) as Hz by (by apply from_be_u32).
    exists (replicate (Z.to_nat z) (b8 0)), (pad ++ replicate (Z.to_nat z) (b8 0)).
    split; [|split; [len_lia|]].
    + intros H%(f_equal len). unfold pad in *. len_lia.
    + unfold prefixed. rewrite len_replicate, Z2Nat.id by lia. unfold z.
      by rewrite app_assoc, to_be_from_be' by (unfold len in Hl; lia).
Qed.

(** ** Requests *)

Lemma encode_sign_app pk d f k :
  encode_request (Sign pk d f) ++ k =
    b8 13 :: ssh_string pk ++ ssh_string d ++ to_be 4 f ++ k.
Proof. cbn [encode_request app]. by rewrite <- !app_assoc. Qed.

Ltac solve_request_wf :=
  unfold request_wf; pose proof u32_max_nonneg; len_lia.

(** The body of a sign request either parses, or is too short, or too long. *)
Definition sign_body_result (input : bytes) (r : result ProtocolError AgentRequest) : Prop :=
  match r with
  | Ok r => b8 13 :: input = encode_request r /\ request_wf r
  | Err Truncated =>
      exists r rest, rest <> [] /\ request_wf r /\ (b8 13 :: input) ++ rest = encode_request r
  | Err TrailingData =>
      exists r extra, extra <> [] /\ request_wf r /\ b8 13 :: input = encode_request r ++ extra
  | _ => False
  end.

Lemma sign_body_correct input :
  sign_body_result input
    ('(public_key, input) ← take_string input;
     '(data, input) ← take_string input;
     '(flags, input) ← take_u32 input;
     _ ← ensure_empty input;
     Ok (Sign public_key data flags)).
Proof.
  destruct (take_string_cases input) as [(pk & i1 & E)|[E (s & rest & Hr & Hs & Hi)]];
    rewrite E; cbn [mbind result_bind].
  2:{ exists (Sign s [] 0), (rest ++ ssh_string [] ++ to_be 4 0).
      split; [by intros [? ?]%app_nil|]. split; [solve_request_wf|].
      rewrite app_assoc. cbn [app]. rewrite Hi. done. }
  apply take_string_Ok in E as [-> Hpk].
  destruct (take_string_cases i1) as [(d & i2 & E)|[E (s & rest & Hr & Hs & Hi)]];
    rewrite E; cbn [mbind result_bind].
  2:{ exists (Sign pk s 0), (rest ++ to_be 4 0).
      split; [by intros [? ?]%app_nil|]. split; [solve_request_wf|].
      cbn [app encode_request]. by rewrite <- Hi, <- !app_assoc. }
  apply take_string_Ok in E as [-> Hd].
  rewrite take_u32_eq.
  destruct (u32_or_cases Truncated i2) as [(f & i3 & E)|[E Hl]]; rewrite E; cbn [mbind result_bind].
  2:{ set (pad := replicate (Z.to_nat (4 - len i2)) (b8 0)).
      assert (len (i2 ++ pad) = 4) as Hp by (unfold pad; len_lia).
      exists (Sign pk d (from_be (i2 ++ pad))), pad.
      split; [intros H%(f_equal len); unfold pad in H; len_lia|].
      split; [pose proof (from_be_u32 _ Hp); solve_request_wf|].
      cbn [app encode_request]. rewrite to_be_from_be' by (unfold len in Hp; lia).
      by rewrite <- !app_assoc. }
  apply u32_or_Ok in E as [-> Hf].
  destruct i3 as [|x i3]; cbn.
  - by rewrite app_nil_r.
  - exists (Sign pk d f), (x :: i3). rewrite encode_sign_app. done.
Qed.

(** What [parse_request] answers on every packet, by cases. *)
Definition parse_result (packet : bytes) (r : result ProtocolError AgentRequest) : Prop :=
  match r with
  | Ok r => packet = encode_request r /\ request_wf r /\ len packet <= MAX_PACKET_LENGTH
  | Err EmptyPacket => packet = []
  | Err PacketTooLarge => MAX_PACKET_LENGTH < len packet
  | Err Truncated =>
      exists r rest, rest <> [] /\ request_wf r /\ packet ++ rest = encode_request r
  | Err TrailingData =>
      exists r extra, extra <> [] /\ request_wf r /\ packet = encode_request r ++ extra
  | Err UnsupportedRequest =>
      exists b input, packet = b :: input /\ u8 b <> 11 /\ u8 b <> 13
  | Err InvalidSignature | Panic => False
  end.

Lemma parse_request_sound packet : parse_result packet (parse_request packet).
Proof.
  destruct packet as [|b input]; [done|]. unfold parse_request, parse_result.
  destruct (_ <? _) eqn:Hmax; [bool_lia|]. apply Z.ltb_ge in Hmax.
  unfold SSH2_AGENTC_REQUEST_IDENTITIES, SSH2_AGENTC_SIGN_REQUEST.
  destruct (u8 b =? 11) eqn:E11; [apply Z.eqb_eq in E11|].
  { assert (b = b8 11) as -> by (apply u8_inj; rewrite E11; done).
    destruct input as [|x input]; cbn; [done|]. by exists RequestIdentities, (x :: input). }
  destruct (u8 b =? 13) eqn:E13; [apply Z.eqb_eq in E13|].
  2:{ exists b, input. split; [done|bool_lia]. }
  assert (b = b8 13) as -> by (apply u8_inj; rewrite E13; done).
  pose proof (sign_body_correct input) as H.
  destruct (_ ≫= _) as [r|[]|]; simpl in H; try done.
  by destruct H.
Qed.

Lemma parse_encode_request r :
  request_wf r -> len (encode_request r) <= MAX_PACKET_LENGTH ->
  parse_request (encode_request r) = Ok r.
Proof.
  intros Hwf Hlen. unfold parse_request.
  destruct r as [|pk d f]; [by vm_compute|]. destruct Hwf as (Hpk & Hd & Hf).
  cbn [encode_request] in *. destruct (_ <? _) eqn:?; [bool_lia|].
  change (u8 (b8 13)) with 13. cbn [Z.eqb Pos.eqb SSH2_AGENTC_REQUEST_IDENTITIES
    SSH2_AGENTC_SIGN_REQUEST].
  rewrite take_string_app by done. cbn [mbind result_bind].
  rewrite take_string_app by done. cbn [mbind result_bind].
  rewrite <- (app_nil_r (to_be 4 f)), take_u32_eq, u32_or_app by done. done.
Qed.

Lemma parse_request_no_panic packet : parse_request packet <> Panic.
Proof. intros H. pose proof (parse_request_sound packet) as P. by rewrite H in P. Qed.

(** [C21] Parsing inverts the client's encoding, and only that: a packet parses to [r]
    exactly when it is the encoding of the well-formed request [r] within the bound.
    Every rejected packet gets the error that names its cause: an empty packet, one over
    the bound, a proper prefix of an encoding, an encoding followed by extra bytes, or an
    unknown message type.  [parse_request] never panics and never reads outside the
    packet. *)
Theorem parse_request_correct packet :
  (forall r, parse_request packet = Ok r <->
     packet = encode_request r /\ request_wf r /\ len packet <= MAX_PACKET_LENGTH) /\
  parse_result packet (parse_request packet).
Proof.
  split; [|apply parse_request_sound]. intros r. split.
  - intros H. pose proof (parse_request_sound packet) as P. by rewrite H in P.
  - intros (-> & ? & ?). by apply parse_encode_request.
Qed.

(** ** Responses *)

Lemma push_string_spec output value :
  push_string output value =
    if MAX_PACKET_LENGTH <? len output + 4 + len value then Err PacketTooLarge
    else Ok (output ++ ssh_string value).
Proof.
  unfold push_string, prefixed.
  destruct (Z.leb_spec (len value) u32_max) as [H|H].
  - rewrite u32_try_from_small by done. cbn [mbind result_bind ok_or].
    rewrite <- app_assoc. autorewrite with len. by rewrite Z.add_assoc.
  - unfold u32_try_from. rewrite (proj2 (Z.leb_gt _ _) H). cbn [mbind result_bind ok_or].
    rewrite (proj2 (Z.ltb_lt _ _)); [done|].
    pose proof (len_nonneg output). unfold u32_max, MAX_PACKET_LENGTH in *. lia.
Qed.

Lemma push_string_small output value :
  len output + 4 + len value <= MAX_PACKET_LENGTH ->
  push_string output value = Ok (output ++ ssh_string value).
Proof. intros. by rewrite push_string_spec, (proj2 (Z.ltb_ge _ _)). Qed.

(** Run the next [push_string] of a computation whose sizes are known to be small. *)
Ltac push_string_step :=
  match goal with
  | |- mbind _ (push_string ?output ?value) = _ =>
      rewrite (push_string_small output value) by (unfold MAX_PACKET_LENGTH; len_lia);
      cbn [mbind result_bind]
  end.

Lemma frame_ok payload :
  len payload <= u32_max -> frame payload = Ok (ssh_string payload).
Proof. intros. unfold frame. by rewrite u32_try_from_small. Qed.

(** The [expect] of [frame] is never reached with a length that does not fit. *)
Lemma checked_frame_spec payload :
  checked_frame payload =
    if MAX_PACKET_LENGTH <? len payload then Err PacketTooLarge
    else Ok (ssh_string payload).
Proof.
  unfold checked_frame. destruct (_ <? _) eqn:E; [done|]. apply frame_ok.
  apply Z.ltb_ge in E. unfold MAX_PACKET_LENGTH, u32_max in *. lia.
Qed.

Definition identities_body (keys : list KeySummary) : bytes :=
  keys ≫= fun k => ssh_string (public_key k) ++ ssh_string (name k).

Lemma identities_body_cons k keys :
  identities_body (k :: keys) =
    (ssh_string (public_key k) ++ ssh_string (name k)) ++ identities_body keys.
Proof. reflexivity. Qed.

Lemma len_identities_body keys : len (identities_body keys) = identities_size keys - 5.
Proof.
  unfold identities_size. induction keys as [|k keys IH]; [done|].
  rewrite identities_body_cons. autorewrite with len. rewrite IH. cbn [foldr]. lia.
Qed.

Lemma len_identities_payload keys : len (identities_payload keys) = identities_size keys.
Proof.
  unfold identities_payload. fold (identities_body keys).
  autorewrite with len. rewrite len_identities_body. lia.
Qed.

(** The bound tested after each string is the bound on the whole payload: sizes grow. *)
Lemma push_identities_spec payload keys :
  len payload <= MAX_PACKET_LENGTH ->
  push_identities payload keys =
    if MAX_PACKET_LENGTH <? len payload + (identities_size keys - 5) then Err PacketTooLarge
    else Ok (payload ++ identities_body keys).
Proof.
  revert payload; induction keys as [|k keys IH]; intros payload Hp; cbn [push_identities].
  - rewrite Z.add_0_r, (proj2 (Z.ltb_ge _ _)) by done. by rewrite app_nil_r.
  - assert (identities_size (k :: keys) - 5 =
      (8 + len (public_key k) + len (name k)) + (identities_size keys - 5)) as ->
      by (unfold identities_size; cbn [foldr]; lia).
    pose proof (len_identities_body keys) as Hb. pose proof (len_nonneg (identities_body keys)).
    pose proof (len_nonneg (public_key k)). pose proof (len_nonneg (name k)).
    rewrite push_string_spec. destruct (_ <? _) eqn:E1; cbn [mbind result_bind].
    { rewrite (proj2 (Z.ltb_lt _ _)); [done|]. bool_lia. }
    rewrite push_string_spec. destruct (_ <? len (_ ++ _) + _ + _) eqn:E2; cbn [mbind result_bind].
    { rewrite (proj2 (Z.ltb_lt _ _)); [done|]. bool_lia. }
    rewrite IH by bool_lia. rewrite identities_body_cons, !app_assoc.
    match goal with |- (if _ <? ?x then _ else _) = (if _ <? ?y then _ else _) =>
      replace x with y by len_lia end.
    done.
Qed.

(** The identity list answer, on every list of keys: when the count, the blobs and
    the comments fit in one packet it is the frame of exactly that payload, in order,
    and otherwise the error [PacketTooLarge].  No key list makes it panic. *)
Theorem identities_response_spec keys :
  identities_response keys =
    if MAX_PACKET_LENGTH <? identities_size keys then Err PacketTooLarge
    else Ok (ssh_string (identities_payload keys)).
Proof.
  unfold identities_response.
  assert (8 * len keys <= identities_size keys - 5) as Hn.
  { unfold identities_size. induction keys as [|k keys IH]; [done|].
    cbn [foldr]. rewrite len_cons. pose proof (len_nonneg (public_key k)).
    pose proof (len_nonneg (name k)). lia. }
  unfold u32_try_from. destruct (_ <=? u32_max) eqn:E; cbn [mbind result_bind ok_or].
  2:{ rewrite (proj2 (Z.ltb_lt _ _)); [done|].
      apply Z.leb_gt in E. unfold u32_max, MAX_PACKET_LENGTH in *. lia. }
  set (header := [b8 _] ++ to_be 4 (len keys)).
  assert (len header = 5) as Hh by (unfold header; len_lia).
  rewrite push_identities_spec by (rewrite Hh; done). rewrite Hh.
  replace (5 + (identities_size keys - 5)) with (identities_size keys) by lia.
  destruct (_ <? _) eqn:E1; cbn [mbind result_bind]; [done|].
  rewrite checked_frame_spec, len_app, Hh, len_identities_body.
  replace (5 + (identities_size keys - 5)) with (identities_size keys) by lia.
  rewrite E1. unfold header, identities_payload. by rewrite <- app_assoc.
Qed.

Lemma push_mpint_of output value : push_mpint output value = push_string output (mpint_of value).
Proof.
  unfold push_mpint, mpint_of.
  set (v := match position _ _ with Some _ => _ | None => _ end). destruct v as [|b v]; [done|].
  rewrite high_bit. by destruct (_ <=? _).
Qed.

Lemma strip_zeros value :
  let v := match position (fun byte => negb (u8 byte =? 0)) value with
           | None => []
           | Some first => skipn first value
           end in
  from_be v = from_be value /\ len v <= len value /\
  match v with [] => True | x :: _ => u8 x <> 0 end.
Proof.
  destruct (position _ value) as [n|] eqn:E; cbn zeta.
  - apply position_Some in E as [Hz (x & k & Hd & Hx)].
    split; [|split; [len_lia|]].
    + rewrite <- (take_drop n value) at 2. rewrite from_be_zeros; [done|].
      eapply Forall_impl; [exact Hz|]. intros ? ?; cbn in *; bool_lia.
    + rewrite Hd. cbn in Hx. bool_lia.
  - apply position_None in E. split; [|split; [len_lia|done]].
    rewrite <- (app_nil_r value), from_be_zeros; [done|].
    eapply Forall_impl; [exact E|]. intros ? ?; cbn in *; bool_lia.
Qed.

Lemma mpint_spec output value :
  push_mpint output value = push_string output (mpint_of value) /\
  mpint_value (mpint_of value) = from_be value /\
  mpint_canonical (mpint_of value) /\
  len (mpint_of value) <= len value + 1.
Proof.
  split; [apply push_mpint_of|]. unfold mpint_of.
  pose proof (strip_zeros value) as H. cbn zeta in H.
  set (v := match position _ _ with Some _ => _ | None => _ end) in *.
  destruct v as [|x v]; destruct H as (<- & Hl & Hx).
  { split_and!; [done..|len_lia]. }
  pose proof (u8_range x). destruct (128 <=? u8 x) eqn:E.
  - split_and!; [|simpl; rewrite !u8_b8_small by lia; bool_lia|len_lia].
    cbn. rewrite u8_b8_small by lia. simpl. by rewrite (from_be_cons (b8 0)), u8_b8_small.
  - split_and!; [cbn; by rewrite E| |len_lia].
    apply Z.leb_gt in E. destruct v; simpl; lia.
Qed.

(** Without leading zeros a number has one representation. *)
Lemma from_be_leading (l k : bytes) :
  match l with [] => True | x :: _ => u8 x <> 0 end ->
  match k with [] => True | x :: _ => u8 x <> 0 end ->
  from_be l = from_be k -> l = k.
Proof.
  assert (forall l : bytes, match l with [] => True | x :: _ => u8 x <> 0 end ->
    256 ^ len l <= 256 * from_be l + (if decide (l = []) then 1 else 0) < 256 * 256 ^ len l) as Hsize.
  { intros [|x m] Hx; [by vm_compute|]. rewrite decide_False by done. pose proof (u8_range x).
    pose proof (from_be_bound m). rewrite from_be_cons, len_cons. pose proof (len_nonneg m).
    replace (256 ^ (1 + len m)) with (256 * 256 ^ len m) by (rewrite Z.pow_add_r by lia; done). nia. }
  intros Hl Hk E. assert (len l = len k) as Hlen.
  { pose proof (Hsize l Hl) as H1. pose proof (Hsize k Hk) as H2. rewrite E in H1.
    destruct (Z.lt_trichotomy (len l) (len k)) as [Hc|[Hc|Hc]]; [|done|].
    - exfalso. assert (256 * 256 ^ len l <= 256 ^ len k) as Hp.
      { rewrite <- Z.pow_succ_r by apply len_nonneg. apply Z.pow_le_mono_r; lia. }
      destruct (decide (l = [])), (decide (k = [])); subst; lia.
    - exfalso. assert (256 * 256 ^ len k <= 256 ^ len l) as Hp.
      { rewrite <- Z.pow_succ_r by apply len_nonneg. apply Z.pow_le_mono_r; lia. }
      destruct (decide (l = [])), (decide (k = [])); subst; lia. }
  rewrite <- (to_be_from_be l), <- (to_be_from_be k), E. unfold len in Hlen. by f_equal; lia.
Qed.

Lemma mpint_of_value value value' : from_be value = from_be value' -> mpint_of value = mpint_of value'.
Proof.
  unfold mpint_of. pose proof (strip_zeros value) as H. pose proof (strip_zeros value') as H'.
  cbn zeta in H, H'. set (v := match position _ value with Some _ => _ | None => _ end) in *.
  set (v' := match position _ value' with Some _ => _ | None => _ end) in *.
  destruct H as (E & _ & Hn), H' as (E' & _ & Hn'). intros Hv. rewrite <- E, <- E' in Hv.
  by rewrite (from_be_leading v v').
Qed.

(** The mpint of a TPM scalar: [push_mpint] appends one SSH string whose content
    denotes the unsigned big-endian value of the scalar (so it is never negative), is
    canonical, and is at most one byte longer than the scalar; two scalars have the same
    content exactly when they denote the same number. *)
Theorem push_mpint_canonical output value :
  push_mpint output value = push_string output (mpint_of value) /\
  mpint_value (mpint_of value) = from_be value /\
  mpint_canonical (mpint_of value) /\
  len (mpint_of value) <= len value + 1 /\
  forall value', mpint_of value = mpint_of value' <-> from_be value = from_be value'.
Proof.
  destruct (mpint_spec output value) as (H1 & H2 & H3 & H4). split_and!; [done..|].
  intros value'. split.
  - intros E. destruct (mpint_spec output value') as (_ & H2' & _). congruence.
  - apply mpint_of_value.
Qed.

Lemma signature_sizes a r s :
  len r = ecdsa_component_size a -> len s = ecdsa_component_size a ->
  len (mpint_of r) <= 49 /\ len (mpint_of s) <= 49.
Proof.
  intros. pose proof (component_size_range a).
  pose proof (mpint_spec [] r) as (_ & _ & _ & ?).
  pose proof (mpint_spec [] s) as (_ & _ & _ & ?). lia.
Qed.

Lemma signature_response_eq a signature :
  ecdsa_signature_response a signature =
    if len signature =? 2 * ecdsa_component_size a then
      let width := Z.to_nat (ecdsa_component_size a) in
      Ok (ssh_string (signature_payload a (firstn width signature) (skipn width signature)))
    else Err InvalidSignature.
Proof.
  unfold ecdsa_signature_response, split_at_checked.
  pose proof (component_size_range a) as Hw.
  destruct (_ <? _) eqn:E1; [|destruct (len (skipn _ _) =? _) eqn:E2];
    cbn [mbind result_bind ok_or].
  1,3: rewrite (proj2 (Z.eqb_neq _ _)) by bool_lia; done.
  rewrite (proj2 (Z.eqb_eq _ _)) by bool_lia.
  set (r := firstn _ _). set (s := skipn _ _).
  assert (len r = ecdsa_component_size a) as Hr by (unfold r; bool_lia).
  assert (len s = ecdsa_component_size a) as Hs by (unfold s; bool_lia).
  destruct (signature_sizes a r s Hr Hs) as [Hmr Hms].
  pose proof (len_ssh_key_type a) as Hk.
  repeat (rewrite ?push_mpint_of; push_string_step).
  rewrite checked_frame_spec, (proj2 (Z.ltb_ge _ _)) by (unfold MAX_PACKET_LENGTH; len_lia).
  done.
Qed.

(** The signature answer, on every byte string: two components of the width of the
    algorithm give the frame of the OpenSSH signature blob of their mpints, which is
    never too large, and every other length is [InvalidSignature].  The answer depends on
    the two numbers alone. *)
Theorem ecdsa_signature_response_spec a signature :
  ecdsa_signature_response a signature =
    (if len signature =? 2 * ecdsa_component_size a then
       let width := Z.to_nat (ecdsa_component_size a) in
       Ok (ssh_string (signature_payload a (firstn width signature) (skipn width signature)))
     else Err InvalidSignature) /\
  forall r s r' s', from_be r = from_be r' -> from_be s = from_be s' ->
    signature_payload a r s = signature_payload a r' s'.
Proof.
  split; [apply signature_response_eq|]. intros r s r' s' Hr Hs. unfold signature_payload.
  by rewrite (mpint_of_value r r'), (mpint_of_value s s').
Qed.

(** ** Panic-freedom of the responses *)

Definition response_error (e : ProtocolError) : Prop := e = PacketTooLarge \/ e = InvalidSignature.

Lemma response_error_large : response_error PacketTooLarge.
Proof. by left. Qed.
Lemma response_error_invalid : response_error InvalidSignature.
Proof. by right. Qed.
#[local] Hint Resolve response_error_large response_error_invalid : fails.

Lemma push_string_fails output value : fails_with response_error (push_string output value).
Proof. unfold push_string. solve_fails. Qed.

Lemma push_mpint_fails output value : fails_with response_error (push_mpint output value).
Proof. rewrite push_mpint_of. apply push_string_fails. Qed.

Lemma checked_frame_fails payload : fails_with response_error (checked_frame payload).
Proof. rewrite checked_frame_spec. auto with fails. Qed.

Lemma push_identities_fails payload keys : fails_with response_error (push_identities payload keys).
Proof.
  revert payload. induction keys as [|k keys IH]; intros payload; cbn [push_identities]; [done|].
  do 2 (apply fails_with_bind; [apply push_string_fails|]; intros ? _). apply IH.
Qed.
#[local] Hint Resolve push_string_fails push_mpint_fails checked_frame_fails push_identities_fails : fails.
#[local] Opaque checked_frame push_mpint.

Lemma identities_response_no_panic keys : identities_response keys <> Panic.
Proof. apply (fails_with_no_panic response_error). unfold identities_response. solve_fails. Qed.

Lemma signature_response_no_panic a signature : ecdsa_signature_response a signature <> Panic.
Proof. apply (fails_with_no_panic response_error). unfold ecdsa_signature_response. solve_fails. Qed.

(** ** Messages *)

(** A message of the protocol: its length in four bytes, most significant first, and then
    as many bytes, at least one and not too many. *)
Definition framed (message : bytes) : Prop :=
  exists payload, message = to_be 4 (len payload) ++ payload /\ 1 <= len payload <= MAX_PACKET_LENGTH.

Lemma identities_framed keys response : identities_response keys = Ok response -> framed response.
Proof.
  rewrite identities_response_spec. destruct (_ <? _) eqn:E; [done|]. intros [= <-]. apply Z.ltb_ge in E.
  exists (identities_payload keys). split; [reflexivity|]. split; [|by rewrite len_identities_payload].
  unfold identities_payload. len_lia.
Qed.

Lemma signature_framed algorithm signature response :
  ecdsa_signature_response algorithm signature = Ok response -> framed response.
Proof.
  rewrite signature_response_eq. destruct (_ =? _) eqn:E; [|done]. intros [= <-].
  pose proof (component_size_range algorithm). set (w := Z.to_nat (ecdsa_component_size algorithm)).
  assert (len (firstn w signature) = ecdsa_component_size algorithm) as Hr by (unfold w; bool_lia).
  assert (len (skipn w signature) = ecdsa_component_size algorithm) as Hs by (unfold w; bool_lia).
  destruct (signature_sizes algorithm _ _ Hr Hs) as [Hmr Hms]. pose proof (len_ssh_key_type algorithm).
  eexists. split; [reflexivity|]. unfold signature_payload, MAX_PACKET_LENGTH. len_lia.
Qed.
