(* ===== verification/Effects.v ===== *)
(** Effectful programs.

    A program that talks to the operating system, the TPM or a peer is a tree of
    operations: [prog E A] performs operations of the signature [E] and returns an [A].
    A handler interprets one operation on a state, given the environment's choice for
    that operation (a fault, an order of directory entries, what a peer sends); the
    same program is then executable ([run]) and a transition system ([step]). *)

From S2P Require Import Prelude.

Inductive prog (E : Type -> Type) (A : Type) : Type :=
  | Ret (a : A)
  | Vis (X : Type) (e : E X) (k : X -> prog E A).

Arguments Ret {E A} a.
Arguments Vis {E A X} e k.

#[global] Instance prog_ret E : MRet (prog E) := fun A a => Ret a.
#[global] Instance prog_bind E : MBind (prog E) := fun A B f =>
  fix go (p : prog E A) : prog E B :=
    match p with
    | Ret a => f a
    | Vis e k => Vis e (fun x => go (k x))
    end.

(** One operation. *)
Definition trigger {E : Type -> Type} {X} (e : E X) : prog E X := Vis e Ret.

(** The [?] operator inside an effectful function: stop at the first error. *)
Definition try_bind {E Er A B} (f : A -> prog E (result Er B)) (m : prog E (result Er A)) :
    prog E (result Er B) :=
  m ≫= fun r =>
    match r with
    | Ok a => f a
    | Err e => Ret (Err e)
    | Panic => Ret Panic
    end.

Notation "x ←? y ; z" := (try_bind (fun x => z) y)
  (at level 20, y at level 100, z at level 200, format "x  ←?  y ;  '/' z") : stdpp_scope.
Notation "' x ←? y ; z" := (try_bind (fun x => z) y)
  (at level 20, x pattern, y at level 100, z at level 200,
   format "' x  ←?  y ;  '/' z") : stdpp_scope.

(** [Result::map_err] on the outcome of a program. *)
Definition map_err_prog {E Er F A} (f : Er -> F) (m : prog E (result Er A)) :
    prog E (result F A) :=
  m ≫= fun r => Ret (map_err f r).

(** Use a program of one signature in a larger one. *)
Fixpoint lift {E F : Type -> Type} (inj : forall X, E X -> F X) {A} (p : prog E A) : prog F A :=
  match p with
  | Ret a => Ret a
  | Vis e k => Vis (inj _ e) (fun x => lift inj (k x))
  end.

(** ** Interpretation *)

Class Handler (E : Type -> Type) (S V : Type) := exec : forall {X}, V -> S -> E X -> X * S.

Section Semantics.
Context {E : Type -> Type} {S V : Type} `{!Handler E S V}.

(** Execution with a list of choices, [calm] once they are exhausted. *)
Fixpoint run (calm : V) {A} (p : prog E A) (vs : list V) (s : S) : A * S :=
  match p with
  | Ret a => (a, s)
  | Vis e k =>
      let v := match vs with v :: _ => v | [] => calm end in
      let '(x, s) := exec v s e in
      run calm (k x) (tail vs) s
  end.

(** Configurations reachable under every choice of the environment. *)
Inductive reach {A} (p : prog E A) (s : S) : prog E A -> S -> Prop :=
  | reach_refl : reach p s p s
  | reach_step X (e : E X) (k : X -> prog E A) s1 v :
      reach p s (Vis e k) s1 ->
      reach p s (k (fst (exec v s1 e))) (snd (exec v s1 e)).

(** [safe I p Q s]: from [s], every state [p] goes through satisfies [I], and when it
    returns, its value and the final state satisfy [Q]. *)
Fixpoint safe (I : S -> Prop) {A} (p : prog E A) (Q : A -> S -> Prop) (s : S) : Prop :=
  I s /\
  match p with
  | Ret a => Q a s
  | Vis e k => forall v, safe I (k (fst (exec v s e))) Q (snd (exec v s e))
  end.

Context {A B : Type}.
Implicit Types (p : prog E A) (I : S -> Prop).

Lemma safe_here I p Q s : safe I p Q s -> I s.
Proof. destruct p; simpl; tauto. Qed.

Lemma safe_ret I (a : A) (Q : A -> S -> Prop) s : I s -> Q a s -> safe I (Ret a) Q s.
Proof. simpl; auto. Qed.

Lemma safe_vis I {X} (e : E X) (k : X -> prog E A) Q s :
  I s -> (forall v, safe I (k (fst (exec v s e))) Q (snd (exec v s e))) ->
  safe I (Vis e k) Q s.
Proof. simpl; auto. Qed.

Lemma safe_bind I p (f : A -> prog E B) Q s :
  safe I p (fun a => safe I (f a) Q) s -> safe I (p ≫= f) Q s.
Proof.
  revert s; induction p as [a|X e k IH]; intros s; simpl; [tauto|].
  intros [HI Hk]. split; [done|]. intros v. apply IH, Hk.
Qed.

Lemma safe_trigger {X} I (e : E X) (Q : X -> S -> Prop) s :
  I s -> (forall v, let '(x, s') := exec v s e in I s' /\ Q x s') -> safe I (trigger e) Q s.
Proof.
  intros HI He. split; [exact HI|]. intros v. specialize (He v). by destruct (exec v s e) as [x s'].
Qed.

Lemma safe_mono I (J : S -> Prop) p (Q R : A -> S -> Prop) s :
  (forall s, I s -> J s) -> (forall a s, Q a s -> R a s) ->
  safe I p Q s -> safe J p R s.
Proof.
  intros HI HQ. revert s; induction p as [a|X e k IH]; intros s; simpl; intros [? ?]; auto.
Qed.

(** The invariant holds at the end too. *)
Lemma safe_end I p Q s : safe I p Q s -> safe I p (fun a s => I s /\ Q a s) s.
Proof. revert s; induction p as [a|X e k IH]; intros s; simpl; intros [? ?]; auto. Qed.

(** Soundness of [safe] for the transition system. *)
Lemma safe_reach I p Q s p' s' :
  safe I p Q s -> reach p s p' s' -> safe I p' Q s'.
Proof. intros Hs. induction 1; [done|]. simpl in IHreach. apply IHreach. Qed.

Lemma safe_reach_inv I p Q s p' s' :
  safe I p Q s -> reach p s p' s' -> I s'.
Proof. intros Hs Hr. eapply safe_here, safe_reach; eauto. Qed.

Lemma safe_reach_ret I p Q s a s' :
  safe I p Q s -> reach p s (Ret a) s' -> Q a s'.
Proof. intros Hs Hr. eapply (safe_reach I p Q s (Ret a)) in Hr; [|done]. by destruct Hr. Qed.

(** A finished program goes nowhere. *)
Lemma reach_ret_inv (a : A) s p s' : reach (Ret a) s p s' -> p = Ret a /\ s' = s.
Proof. induction 1 as [|X e k s1 v H [? ?]]; done. Qed.

(** [run] is one of the executions the transition system allows. *)
Lemma reach_trans p s p1 s1 p2 s2 :
  reach p s p1 s1 -> reach p1 s1 p2 s2 -> reach p s p2 s2.
Proof. intros H1. induction 1; [done|]. by apply reach_step. Qed.

Lemma run_reach calm p vs s :
  reach p s (Ret (fst (run calm p vs s))) (snd (run calm p vs s)).
Proof.
  revert vs s; induction p as [a|X e k IH]; intros vs s; simpl; [constructor|].
  set (v := match vs with v :: _ => v | [] => calm end).
  destruct (exec v s e) as [x s1] eqn:Ex. eapply reach_trans; [|apply IH].
  assert (x = fst (exec v s e)) as -> by (by rewrite Ex).
  assert (s1 = snd (exec v s e)) as -> by (by rewrite Ex).
  apply reach_step, reach_refl.
Qed.

Lemma safe_run I calm p Q vs s :
  safe I p Q s -> Q (fst (run calm p vs s)) (snd (run calm p vs s)).
Proof. intros Hs. eapply safe_reach_ret; [exact Hs|apply run_reach]. Qed.
End Semantics.

Section TrySafe.
Context {E : Type -> Type} {S V : Type} `{!Handler E S V} {Er A B : Type}.

Lemma safe_try I (m : prog E (result Er A)) (f : A -> prog E (result Er B)) Q s :
  safe I m (fun r s =>
    match r with
    | Ok a => safe I (f a) Q s
    | Err e => I s /\ Q (Err e) s
    | Panic => I s /\ Q Panic s
    end) s ->
  safe I (try_bind f m) Q s.
Proof.
  intros H. apply safe_bind. eapply safe_mono; [..|exact H]; [done|].
  intros [a|e|] s'; auto.
Qed.

Lemma safe_map_err {F} I (g : Er -> F) (m : prog E (result Er A)) Q s :
  safe I m (fun r s => I s /\ Q (map_err g r) s) s -> safe I (map_err_prog g m) Q s.
Proof. intros H. apply safe_bind. eapply safe_mono; [..|exact H]; auto. Qed.
End TrySafe.

(** A program of a smaller signature keeps its specification in the larger one, when the
    larger handler interprets its operations on a part of the state, by a part of the choice. *)
Lemma safe_lift {E F : Type -> Type} {S T V W} `{!Handler E S V, !Handler F T W}
    (inj : forall X, E X -> F X) (put : S -> T) (view : W -> V) {A} (I : T -> Prop) (p : prog E A) (Q : A -> T -> Prop) s :
  (forall X (e : E X) v s, exec v (put s) (inj X e) = (fst (exec (view v) s e), put (snd (exec (view v) s e)))) ->
  safe (fun s => I (put s)) p (fun a s => Q a (put s)) s -> safe I (lift inj p) Q (put s).
Proof.
  intros Hinj. revert s; induction p as [a|X e k IH]; intros s; simpl; [done|].
  intros [HI Hk]. split; [done|]. intros v. rewrite Hinj. apply IH, Hk.
Qed.

(** The strongest specification: what is reached. *)
Lemma safe_reached {E S V} `{!Handler E S V} {A} (p : prog E A) s :
  safe (fun s' => exists p', reach p s p' s') p (fun a s' => reach p s (Ret a) s') s.
Proof.
  cut (forall q s', reach p s q s' ->
    safe (fun s' => exists p', reach p s p' s') q (fun a s' => reach p s (Ret a) s') s').
  { intros H. apply H, reach_refl. }
  intros q. induction q as [a|X e k IH]; intros s' Hr; simpl; (split; [by eexists|]); [done|].
  intros v. by apply IH, reach_step.
Qed.

(** ** Panic-freedom *)

Section Total.
Context {E : Type -> Type} {S V : Type} `{!Handler E S V}.

(** From every state, whatever the environment does, the program does not panic. *)
Definition total {Er A} (p : prog E (result Er A)) : Prop :=
  forall s, safe (fun _ => True) p (fun r _ => r <> Panic) s.

Lemma total_ret {Er A} (r : result Er A) : r <> Panic -> total (Ret r).
Proof. by intros H s. Qed.

Lemma total_bind {Er B X} (m : prog E X) (f : X -> prog E (result Er B)) (P : X -> Prop) :
  (forall s, safe (fun _ => True) m (fun x _ => P x) s) -> (forall x, P x -> total (f x)) ->
  total (m ≫= f).
Proof.
  intros Hm Hf s. apply safe_bind. eapply safe_mono; [..|apply Hm]; [done|].
  intros x s' Hx. by apply Hf.
Qed.

Context {Er F A B : Type}.

Lemma total_try (m : prog E (result Er A)) (f : A -> prog E (result Er B)) :
  total m -> (forall a, total (f a)) -> total (try_bind f m).
Proof.
  intros Hm Hf. apply (total_bind _ _ (fun r => r <> Panic)); [done|].
  intros [a|e|] Hr; [apply Hf|by apply total_ret|done].
Qed.

Lemma total_map_err (g : Er -> F) (m : prog E (result Er A)) : total m -> total (map_err_prog g m).
Proof.
  intros Hm. apply (total_bind _ _ (fun r => r <> Panic)); [done|].
  intros r Hr. apply total_ret. by destruct r.
Qed.

Lemma total_run calm (p : prog E (result Er A)) vs s : total p -> fst (run calm p vs s) <> Panic.
Proof. intros Hp. exact (safe_run _ calm p _ vs s (Hp s)). Qed.
End Total.

Create HintDb total discriminated.
#[global] Hint Resolve total_ret total_try total_map_err : total.
#[global] Hint Extern 1 (Ok _ <> Panic) => discriminate : total.
#[global] Hint Extern 1 (Err _ <> Panic) => discriminate : total.

(** Executions that satisfy two specifications satisfy their conjunction. *)
Lemma safe_and {E S V} `{!Handler E S V} {A} (I J : S -> Prop) (p : prog E A) (Q R : A -> S -> Prop) s :
  safe I p Q s -> safe J p R s -> safe (fun s => I s /\ J s) p (fun a s => Q a s /\ R a s) s.
Proof.
  revert s; induction p as [a|X e k IH]; intros s; simpl; intros [? Hp] [? Hq]; [done|].
  split; [done|]. intros v. by apply IH.
Qed.

(** ** Undisturbed executions *)

Section CalmRun.
Context {E : Type -> Type} {S V : Type} `{!Handler E S V} (calm : V).

Lemma run_bind {A B} (p : prog E A) (f : A -> prog E B) s a s' :
  run calm p [] s = (a, s') -> run calm (p ≫= f) [] s = run calm (f a) [] s'.
Proof.
  revert s; induction p as [x|X e k IH]; intros s; simpl; [by intros [= -> ->]|].
  destruct (exec calm s e) as [x s1]. apply IH.
Qed.

Lemma run_try {Er A B} (m : prog E (result Er A)) (f : A -> prog E (result Er B)) s a s1 :
  run calm m [] s = (Ok a, s1) -> run calm (try_bind f m) [] s = run calm (f a) [] s1.
Proof. intros H. unfold try_bind. by rewrite (run_bind m _ s (Ok a) s1). Qed.

Lemma run_map_err {Er F A} (g : Er -> F) (m : prog E (result Er A)) s a s1 :
  run calm m [] s = (Ok a, s1) -> run calm (map_err_prog g m) [] s = (Ok a, s1).
Proof. intros H. unfold map_err_prog. by rewrite (run_bind m _ s (Ok a) s1). Qed.

Lemma run_trigger {X} (e : E X) s : run calm (trigger e) [] s = exec calm s e.
Proof. cbn. by destruct (exec calm s e). Qed.

Lemma run_try_op {Er A B} (e : E (result Er A)) (f : A -> prog E (result Er B)) s a s1 :
  exec calm s e = (Ok a, s1) -> run calm (try_bind f (trigger e)) [] s = run calm (f a) [] s1.
Proof. intros H. apply run_try. by rewrite run_trigger. Qed.

(** The first operation of a program, with its choice. *)
Lemma run_op {X A} (e : E X) (f : X -> prog E A) v vs s x s' :
  exec v s e = (x, s') -> run calm (trigger e ≫= f) (v :: vs) s = run calm (f x) vs s'.
Proof. intros H. cbn. by rewrite H. Qed.

Lemma run_op_bind {X A B} (e : E X) (g : X -> prog E A) (f : A -> prog E B) v vs s x s' :
  exec v s e = (x, s') -> run calm ((trigger e ≫= g) ≫= f) (v :: vs) s = run calm (g x ≫= f) vs s'.
Proof. intros H. cbn. by rewrite H. Qed.

Lemma run_assoc {A B C} (m : prog E A) (f : A -> prog E B) (g : B -> prog E C) vs s :
  run calm ((m ≫= f) ≫= g) vs s = run calm (m ≫= fun x => f x ≫= g) vs s.
Proof.
  revert vs s; induction m as [a|X e k IH]; intros vs s; [done|]. cbn.
  destruct (exec (match vs with v :: _ => v | [] => calm end) s e) as [x s1]. apply IH.
Qed.

(** The first choice can be given explicitly. *)
Lemma run_calm_cons {A} (p : prog E A) s : run calm p [calm] s = run calm p [] s.
Proof. by destruct p. Qed.
End CalmRun.

Lemma run_lift {E F : Type -> Type} {S T V W} `{!Handler E S V, !Handler F T W}
    (inj : forall X, E X -> F X) (put : S -> T) (calm : V) (calm' : W) {A} (p : prog E A) s :
  (forall X (e : E X) s, exec calm' (put s) (inj X e) = (fst (exec calm s e), put (snd (exec calm s e)))) ->
  run calm' (lift inj p) [] (put s) = (fst (run calm p [] s), put (snd (run calm p [] s))).
Proof.
  intros Hinj. revert s; induction p as [a|X e k IH]; intros s; simpl; [done|].
  rewrite Hinj. destruct (exec calm s e) as [x s1]. apply IH.
Qed.

(** ** Every moment of an execution *)

Section Along.
Context {E : Type -> Type} {S V : Type} `{!Handler E S V}.

(** [P] holds of the rest of the program and the state, at every moment. *)
Fixpoint along {A} (P : prog E A -> S -> Prop) (p : prog E A) (s : S) : Prop :=
  P p s /\
  match p with
  | Ret _ => True
  | Vis e k => forall v, along P (k (fst (exec v s e))) (snd (exec v s e))
  end.

Context {A B : Type}.
Implicit Types (p : prog E A) (I : S -> Prop).

Lemma along_here P p s : along P p s -> P p s.
Proof. destruct p; simpl; tauto. Qed.

Lemma along_reach P p s p' s' : along P p s -> reach p s p' s' -> P p' s'.
Proof.
  intros Ha Hr. apply along_here. induction Hr as [|X e k s1 v Hr IH]; [done|]. destruct IH as [_ IH]. apply IH.
Qed.

Lemma along_mono (P R : prog E A -> S -> Prop) p s : (forall q t, P q t -> R q t) -> along P p s -> along R p s.
Proof. intros H. revert s; induction p as [a|X e k IH]; intros s; simpl; intros [? ?]; auto. Qed.

Lemma along_safe I P p Q s : (forall q t, I t -> P q t) -> safe I p Q s -> along P p s.
Proof. intros H. revert s; induction p as [a|X e k IH]; intros s; simpl; intros [? Hk]; split; auto; intros v; apply IH, Hk. Qed.

Lemma along_bind (P : prog E B -> S -> Prop) I p (f : A -> prog E B) s :
  along (fun q t => P (q ≫= f) t) p s -> safe I p (fun a t => along P (f a) t) s -> along P (p ≫= f) s.
Proof.
  revert s; induction p as [a|X e k IH]; intros s; simpl; [tauto|]. intros [HP Hk] [_ Hs]. split; [done|].
  intros v. apply IH; [apply Hk|apply Hs].
Qed.

(** A prefix in whose states nothing is to be shown. *)
Lemma along_prefix (P : prog E B -> S -> Prop) I p (f : A -> prog E B) s :
  (forall q t, I t -> P q t) -> safe I p (fun a t => along P (f a) t) s -> along P (p ≫= f) s.
Proof. intros H Hs. eapply along_bind, Hs. eapply along_safe, Hs. intros q t. apply H. Qed.

Lemma along_end (P : prog E A -> S -> Prop) p s : along P p s -> safe (fun _ => True) p (fun a t => P (Ret a) t) s.
Proof. revert s; induction p as [a|X e k IH]; intros s; simpl; [tauto|]. intros [_ Hk]. split; [done|]. intros v. apply IH, Hk. Qed.

(** The rest of the program after some operations. *)
Fixpoint advance {C} (p : prog E C) (vs : list V) (s : S) : prog E C * S :=
  match p, vs with
  | Vis e k, v :: vs => advance (k (fst (exec v s e))) vs (snd (exec v s e))
  | _, _ => (p, s)
  end.

Lemma advance_reach p vs s : reach p s (fst (advance p vs s)) (snd (advance p vs s)).
Proof.
  revert vs s; induction p as [a|X e k IH]; intros vs s; [constructor|]. destruct vs as [|v vs]; cbn; [constructor|].
  eapply reach_trans; [|apply IH]. apply reach_step, reach_refl.
Qed.
End Along.

(** Programs all of whose operations satisfy [P]. *)
Section Every.
Context {E : Type -> Type} (P : forall X, E X -> Prop).

Fixpoint every {A} (p : prog E A) : Prop :=
  match p with
  | Ret _ => True
  | Vis e k => P _ e /\ forall x, every (k x)
  end.

Lemma every_bind {A B} (p : prog E A) (f : A -> prog E B) : every p -> (forall x, every (f x)) -> every (p ≫= f).
Proof. intros Hp Hf. induction p as [x|X e k IH]; [apply Hf|]. destruct Hp as [He Hk]. split; [done|]. intros x. by apply IH. Qed.

Lemma every_try {Er A B} (p : prog E (result Er A)) (f : A -> prog E (result Er B)) :
  every p -> (forall x, every (f x)) -> every (try_bind f p).
Proof. intros Hp Hf. apply every_bind; [done|]. by intros []. Qed.

Lemma every_map_err {Er F A} (g : Er -> F) (p : prog E (result Er A)) : every p -> every (map_err_prog g p).
Proof. intros Hp. by apply every_bind. Qed.

(** What each of them keeps, the program keeps. *)
Lemma safe_every {S V} `{!Handler E S V} {A} (I : S -> Prop) (p : prog E A) s :
  (forall X (e : E X) v s, P X e -> I s -> I (snd (exec v s e))) -> every p -> I s -> safe I p (fun _ => I) s.
Proof.
  intros HI. revert s; induction p as [x|X e k IH]; intros s Hp Hs; [by apply safe_ret|]. destruct Hp as [He Hk].
  apply safe_vis; [done|]. intros v. apply IH; [done|]. by apply HI.
Qed.
End Every.

Lemma every_mono {E : Type -> Type} (P R : forall X, E X -> Prop) {A} (p : prog E A) :
  (forall X (e : E X), P X e -> R X e) -> every P p -> every R p.
Proof. intros H. induction p as [x|X e k IH]; [done|]. intros [He Hk]. split; [by apply H|]. intros x. by apply IH. Qed.
