(* ===== verification/Tpm.v ===== *)
(** The TPM boundary: crates/keyvisor-tpm/src/lib.rs. *)

From S2P Require Import Prelude Bytes Text Core Effects.

(** Authorization supplied to one TPM command. *)
Inductive TpmAuthorization :=
  | AuthNone
  | AuthPin (pin : bytes).

(** A reference to a TPM object: a public area, a wrapped private blob, the name of the
    parent it was created under. *)
Record TpmObject := mkTpmObject {
  public : bytes;
  wrapped_private : bytes;
  parent_name : bytes;
  object_use_policy : KeyUsePolicy;
}.

#[global] Instance TpmObject_eq_dec : EqDecision TpmObject.
Proof. solve_decision. Defined.

(** The TPM-wide dictionary-attack counters. *)
Record DictionaryAttackState := mkDictionaryAttackState {
  failed_tries : Z;
  max_tries : Z;
  recovery_time_seconds : Z;
  lockout_recovery_seconds : Z;
}.

Inductive TpmError :=
  | Unavailable
  | UnsupportedAlgorithm
  | InvalidAuthorization
  | AuthorizationFailed
  | DictionaryAttackLockout
  | PolicyFailed
  | InvalidObject
  | Transport.

#[global] Instance TpmError_eq_dec : EqDecision TpmError.
Proof. solve_decision. Defined.

(** [impl Display for TpmError]. *)
Definition TpmError_display (self : TpmError) : bytes :=
  match self with
  | Unavailable => str "TPM is unavailable"
  | UnsupportedAlgorithm => str "this TPM does not support the requested key algorithm"
  | InvalidAuthorization => str "TPM authorization is invalid"
  | AuthorizationFailed => str "TPM authorization failed"
  | DictionaryAttackLockout => str "TPM dictionary-attack lockout is active"
  | PolicyFailed => str "TPM policy check failed"
  | InvalidObject => str "TPM object metadata is invalid"
  | Transport => str "TPM transport failed"
  end.

(** [impl Debug for TpmObject]: what it prints of each field. *)
Inductive DebugField :=
  | DebugLen (name : bytes) (n : Z)
  | DebugText (name text : bytes)
  | DebugBytes (name value : bytes)
  | DebugPolicy (name : bytes) (p : KeyUsePolicy).
Definition TpmObject_debug (self : TpmObject) : list DebugField :=
  [ DebugLen (str "public_len") (len (public self));
    DebugText (str "wrapped_private") (str "[redacted]");
    DebugBytes (str "parent_name") (parent_name self);
    DebugPolicy (str "use_policy") (object_use_policy self) ].

(** ** The trait

    [TpmSigner] is what the agent and the command line know of the TPM: a way to open it
    and three operations, as programs over whatever operations the implementation performs. *)

Class TpmSigner (E : Type -> Type) := {
  signer : Type;
  tpm_connect : prog E (result TpmError signer);
  tpm_generate : signer -> bytes -> KeyAlgorithm -> TpmAuthorization ->
    prog E (result TpmError (KeySummary * TpmObject));
  tpm_sign : signer -> TpmObject -> KeyAlgorithm -> bytes -> TpmAuthorization ->
    prog E (result TpmError bytes);
  tpm_dictionary_attack_state : signer -> prog E (result TpmError DictionaryAttackState);
}.

(** What an implementation promises, however the TPM behaves: no panic; a signature has
    the fixed width of its algorithm; a generated key has the requested name, algorithm
    and policy. *)
Definition policy_of (authorization : TpmAuthorization) : KeyUsePolicy :=
  match authorization with AuthNone => NoPin | AuthPin _ => TpmPin end.

Class TpmSignerLaws (E : Type -> Type) {S V : Type} `{!Handler E S V} `{!TpmSigner E} (calm : V) := {
  connect_total : forall vs s, fst (run calm tpm_connect vs s) <> Panic;
  sign_width : forall self key algorithm digest authorization vs s,
    match fst (run calm (tpm_sign self key algorithm digest authorization) vs s) with
    | Ok signature => len signature = 2 * ecdsa_component_size algorithm
    | Err _ => True
    | Panic => False
    end;
  generate_summary : forall self name0 algorithm0 authorization vs s,
    match fst (run calm (tpm_generate self name0 algorithm0 authorization) vs s) with
    | Ok (summary, object) => name summary = name0 /\ algorithm summary = algorithm0 /\
        use_policy summary = policy_of authorization /\ object_use_policy object = policy_of authorization
    | Err _ => True
    | Panic => False
    end;
}.

(** ** A concrete signer *)

Module Toy.
(** A TPM that answers every command at once. *)
Inductive toyE : Type -> Type := .
#[global] Instance toy_handler : Handler toyE unit unit := fun X v s e => match e with end.
Definition toy_key (name0 : bytes) (algorithm0 : KeyAlgorithm) (authorization : TpmAuthorization) :
    KeySummary * TpmObject :=
  (mkKeySummary (KeyId_new (str "a")) name0 algorithm0 (policy_of authorization) (str "p"),
   mkTpmObject (str "p") (str "w") (str "q") (policy_of authorization)).
#[global] Instance toy : TpmSigner toyE := {
  signer := unit;
  tpm_connect := Ret (Ok tt);
  tpm_generate self name0 algorithm0 authorization := Ret (Ok (toy_key name0 algorithm0 authorization));
  tpm_sign self key algorithm digest authorization :=
    Ret (Ok (replicate (Z.to_nat (2 * ecdsa_component_size algorithm)) (b8 1)));
  tpm_dictionary_attack_state self := Ret (Ok (mkDictionaryAttackState 0 32 7200 86400));
}.

#[global] Instance toy_laws : TpmSignerLaws toyE tt.
Proof.
  split; [done| |done]. intros self key algorithm digest authorization vs s. cbn [run tpm_sign toy fst].
  rewrite len_replicate. by destruct algorithm.
Qed.
End Toy.
