(* ===== verification/FileSystem.v ===== *)
(** The file system as [std::fs] presents it: paths, inodes, the operations the
    program uses, the faults the environment can inject, and crashes. *)

From S2P Require Import Prelude Bytes Text Effects.

(** ** Paths: the components of an absolute path *)

Abbreviation path := (list (list Byte.byte)).

Definition slash : byte := b8 47.
Definition dot : byte := b8 46.

(** The components of a string: separated by slashes, without the empty ones and [.]. *)
Fixpoint split_slash (l : bytes) : list bytes :=
  match l with
  | [] => [[]]
  | b :: l =>
      if decide (b = slash) then [] :: split_slash l
      else match split_slash l with
           | [] => [[b]]
           | x :: xs => (b :: x) :: xs
           end
  end.
Definition components (s : bytes) : path :=
  filter (fun c => c <> [] /\ c <> [dot]) (split_slash s).

(** [PathBuf::join]: an absolute argument replaces the path. *)
Definition join (p : path) (s : bytes) : path :=
  match s with
  | b :: _ => if decide (b = slash) then components s else p ++ components s
  | [] => p
  end.

(** [Path::parent]. *)
Definition parent (p : path) : option path :=
  match p with [] => None | _ => Some (removelast p) end.

(** [Path::extension]: what follows the last dot of the file name, unless the name
    starts with its only dot. *)
Fixpoint rsplit_dot (l : bytes) : option (bytes * bytes) :=
  match l with
  | [] => None
  | b :: l =>
      match rsplit_dot l with
      | Some (x, y) => Some (b :: x, y)
      | None => if decide (b = dot) then Some ([], l) else None
      end
  end.
Definition extension (name : bytes) : option bytes :=
  if decide (name = [dot; dot]) then None
  else match rsplit_dot name with
       | Some ([], _) => None
       | Some (_, e) => Some e
       | None => None
       end.

(** ** Errors *)

Inductive ErrorKind :=
  | NotFound
  | AlreadyExists
  | InvalidInput
  | PermissionDenied
  | AddrInUse
  | UnexpectedEof
  | InvalidDataKind
  | OtherKind.

#[global] Instance ErrorKind_eq_dec : EqDecision ErrorKind.
Proof. solve_decision. Defined.

Record io_error := mk_io_error { kind : ErrorKind; message : bytes }.

#[global] Instance io_error_eq_dec : EqDecision io_error.
Proof. solve_decision. Defined.

Abbreviation io_result := (result io_error).

Definition not_found : io_error := mk_io_error NotFound (str "No such file or directory (os error 2)").
Definition already_exists : io_error := mk_io_error AlreadyExists (str "File exists (os error 17)").
Definition is_a_directory : io_error := mk_io_error OtherKind (str "Is a directory (os error 21)").
Definition not_a_directory : io_error := mk_io_error OtherKind (str "Not a directory (os error 20)").
Definition bad_descriptor : io_error := mk_io_error OtherKind (str "Bad file descriptor (os error 9)").
Definition too_many_links : io_error :=
  mk_io_error OtherKind (str "Too many levels of symbolic links (os error 40)").

(** ** State *)

Inductive FileType := Regular | Directory | Symlink (target : path) | SocketFile | OtherFile.

#[global] Instance FileType_eq_dec : EqDecision FileType.
Proof. solve_decision. Defined.

Definition is_file (t : FileType) : bool := match t with Regular => true | _ => false end.
Definition is_dir (t : FileType) : bool := match t with Directory => true | _ => false end.
Definition is_socket (t : FileType) : bool := match t with SocketFile => true | _ => false end.

(** An inode: its contents in the page cache, and the contents on stable storage. *)
Record inode := mk_inode {
  file_type : FileType;
  mode : Z;
  uid : Z;
  data : bytes;
  stable_data : bytes;
}.

(** The directory tree as the system sees it ([entries]) and as stable storage has it
    ([stable_entries]), both from paths to inode numbers. *)
Record fs := mk_fs {
  entries : gmap path Z;
  stable_entries : gmap path Z;
  inodes : gmap Z inode;
  next_ino : Z;
  umask : Z;
  euid : Z;
}.

Record metadata := mk_metadata {
  md_type : FileType;
  md_mode : Z;
  md_uid : Z;
  md_ino : Z;
}.

(** A descriptor: a regular file by inode, or a directory by path. *)
Inductive handle := HFile (ino : Z) | HDir (p : path).

(** [0o600], [0o700], [0o077] and [0o777]. *)
Definition MODE_0600 : Z := 6 * 64.
Definition MODE_0700 : Z := 7 * 64.
Definition MODE_0077 : Z := 7 * 8 + 7.
Definition MODE_0777 : Z := 7 * 64 + 7 * 8 + 7.

(** ** Lookups *)

Definition inode_at (s : fs) (p : path) : option inode := entries s !! p ≫= fun i => inodes s !! i.

Definition dir_at (s : fs) (p : path) : bool :=
  match p with
  | [] => true
  | _ => match inode_at s p with Some n => is_dir (file_type n) | None => false end
  end.

(** Every proper ancestor of the path is a directory. *)
Definition ancestors (p : path) : list path := (fun n => firstn n p) <$> seq 0 (length p).
Definition parents_ok (s : fs) (p : path) : bool := forallb (dir_at s) (ancestors p).

Definition find (s : fs) (p : path) : option (Z * inode) :=
  if parents_ok s p then
    i ← entries s !! p;
    n ← inodes s !! i;
    Some (i, n)
  else None.

(** Resolution of a final symbolic link, as [open] does it. *)
Fixpoint resolve (fuel : nat) (s : fs) (p : path) : io_result (Z * inode) :=
  match find s p with
  | None => Err not_found
  | Some (i, n) =>
      match file_type n with
      | Symlink target =>
          match fuel with
          | O => Err too_many_links
          | S fuel => resolve fuel s target
          end
      | _ => Ok (i, n)
      end
  end.
Definition MAX_LINKS : nat := 40.

(** The names in a directory. *)
Definition names_in (s : fs) (p : path) : list bytes :=
  omap (fun '(q, _) => if decide (parent q = Some p) then last q else None)
    (map_to_list (entries s)).

(** ** Operations *)

Inductive fsE : Type -> Type :=
  | SymlinkMetadata (p : path) : fsE (io_result metadata)
  | ReadFile (p : path) : fsE (io_result bytes)
  | CreateNew (p : path) (mode : Z) : fsE (io_result handle)
  | OpenRead (p : path) : fsE (io_result handle)
  | WriteAll (h : handle) (b : bytes) : fsE (io_result unit)
  | SyncAll (h : handle) : fsE (io_result unit)
  | Rename (a b : path) : fsE (io_result unit)
  | RemoveFile (p : path) : fsE (io_result unit)
  | ReadDir (p : path) : fsE (io_result (list (io_result bytes)))
  | CreateDirAll (p : path) (mode : Z) : fsE (io_result unit)
  | SetPermissions (p : path) (mode : Z) : fsE (io_result unit).

(** The environment's part in one operation: a fault, with the number of bytes or
    entries transferred before it, and the order directory entries come in. *)
Record choice := mk_choice {
  fault : option bytes;
  partial : nat;
  order : list bytes;
}.
Definition calm : choice := mk_choice None 0 [].

Definition set_inode (s : fs) (i : Z) (n : inode) : fs :=
  mk_fs (entries s) (stable_entries s) (<[i := n]> (inodes s)) (next_ino s) (umask s) (euid s).
Definition set_entries (s : fs) (e : gmap path Z) : fs :=
  mk_fs e (stable_entries s) (inodes s) (next_ino s) (umask s) (euid s).
Definition set_stable_entries (s : fs) (e : gmap path Z) : fs :=
  mk_fs (entries s) e (inodes s) (next_ino s) (umask s) (euid s).

(** A new directory entry for a new inode. *)
Definition add_inode (s : fs) (p : path) (t : FileType) (m : Z) : fs :=
  mk_fs (<[p := next_ino s]> (entries s)) (stable_entries s)
    (<[next_ino s := mk_inode t (Z.land m (Z.lnot (umask s))) (euid s) [] []]> (inodes s))
    (next_ino s + 1) (umask s) (euid s).

Definition set_data (n : inode) (d : bytes) : inode :=
  mk_inode (file_type n) (mode n) (uid n) d (stable_data n).
Definition set_stable (n : inode) : inode :=
  mk_inode (file_type n) (mode n) (uid n) (data n) (data n).
Definition set_mode (n : inode) (m : Z) : inode :=
  mk_inode (file_type n) m (uid n) (data n) (stable_data n).

(** Bytes written to a descriptor go to the end of its file. *)
Definition write_data (s : fs) (h : handle) (b : bytes) : io_result unit * fs :=
  match h with
  | HFile i =>
      match inodes s !! i with
      | Some n => (Ok tt, set_inode s i (set_data n (data n ++ b)))
      | None => (Err bad_descriptor, s)
      end
  | HDir _ => (Err bad_descriptor, s)
  end.

(** [fsync]: a file's contents, or the entries of a directory. *)
Definition sync_handle (s : fs) (h : handle) : fs :=
  match h with
  | HFile i =>
      match inodes s !! i with
      | Some n => set_inode s i (set_stable n)
      | None => s
      end
  | HDir d =>
      set_stable_entries s
        (filter (fun '(q, _) => parent q = Some d) (entries s) ∪
         filter (fun '(q, _) => parent q <> Some d) (stable_entries s))
  end.

(** [mkdir -p]: the missing ancestors and the directory itself. *)
Fixpoint make_dirs (s : fs) (ps : list path) (m : Z) : io_result unit * fs :=
  match ps with
  | [] => (Ok tt, s)
  | p :: ps =>
      match p, inode_at s p with
      | [], _ => make_dirs s ps m
      | _, Some n =>
          if is_dir (file_type n) then make_dirs s ps m else (Err already_exists, s)
      | _, None => make_dirs (add_inode s p Directory m) ps m
      end
  end.

(** The answers of [read_dir]: the entries in the environment's order, cut short by an
    error at a fault. *)
Definition dir_listing (v : choice) (names : list bytes) : list (io_result bytes) :=
  let names := if decide (order v ≡ₚ names) then order v else names in
  match fault v with
  | None => Ok <$> names
  | Some m => (Ok <$> firstn (partial v) names) ++ [Err (mk_io_error OtherKind m)]
  end.

(** What an operation answers, and the state it leaves, in the absence of a fault. *)
Definition fs_exec {X} (v : choice) (s : fs) (e : fsE X) : X * fs :=
  match e in fsE X return X * fs with
  | SymlinkMetadata p =>
      match find s p with
      | Some (i, n) => (Ok (mk_metadata (file_type n) (mode n) (uid n) i), s)
      | None => (Err not_found, s)
      end
  | ReadFile p =>
      match resolve MAX_LINKS s p with
      | Ok (_, n) =>
          match file_type n with
          | Regular => (Ok (data n), s)
          | Directory => (Err is_a_directory, s)
          | _ => (Err (mk_io_error OtherKind (str "No such device or address (os error 6)")), s)
          end
      | Err e => (Err e, s)
      | Panic => (Panic, s)
      end
  | CreateNew p m =>
      if parents_ok s p then
        match entries s !! p with
        | Some _ => (Err already_exists, s)
        | None => (Ok (HFile (next_ino s)), add_inode s p Regular m)
        end
      else (Err not_found, s)
  | OpenRead p =>
      match resolve MAX_LINKS s p with
      | Ok (i, n) =>
          match file_type n with
          | Regular => (Ok (HFile i), s)
          | Directory => (Ok (HDir p), s)
          | _ => (Err (mk_io_error OtherKind (str "No such device or address (os error 6)")), s)
          end
      | Err e => (Err e, s)
      | Panic => (Panic, s)
      end
  | WriteAll h b => write_data s h b
  | SyncAll h => (Ok tt, sync_handle s h)
  | Rename a b =>
      match find s a with
      | None => (Err not_found, s)
      | Some (i, _) =>
          if parents_ok s b then
            match inode_at s b with
            | Some n =>
                if is_dir (file_type n) then (Err is_a_directory, s)
                else (Ok tt, set_entries s (<[b := i]> (delete a (entries s))))
            | None => (Ok tt, set_entries s (<[b := i]> (delete a (entries s))))
            end
          else (Err not_found, s)
      end
  | RemoveFile p =>
      match find s p with
      | None => (Err not_found, s)
      | Some (_, n) =>
          if is_dir (file_type n) then (Err is_a_directory, s)
          else (Ok tt, set_entries s (delete p (entries s)))
      end
  | ReadDir p =>
      if dir_at s p && parents_ok s p then (Ok (dir_listing v (names_in s p)), s)
      else match find s p with
           | None => (Err not_found, s)
           | Some _ => (Err not_a_directory, s)
           end
  | CreateDirAll p m => make_dirs s (tail (ancestors p) ++ [p]) m
  | SetPermissions p m =>
      match resolve MAX_LINKS s p with
      | Ok (i, n) => (Ok tt, set_inode s i (set_mode n m))
      | Err e => (Err e, s)
      | Panic => (Panic, s)
      end
  end.

(** What a faulting operation leaves: a write may have transferred a prefix; every other
    operation leaves the state alone. *)
Definition fs_fault {X} (v : choice) (m : bytes) (s : fs) (e : fsE X) : X * fs :=
  let err := mk_io_error OtherKind m in
  match e in fsE X return X * fs with
  | SymlinkMetadata _ => (Err err, s)
  | ReadFile _ => (Err err, s)
  | CreateNew _ _ => (Err err, s)
  | OpenRead _ => (Err err, s)
  | WriteAll h b => (Err err, snd (write_data s h (firstn (partial v) b)))
  | SyncAll _ => (Err err, s)
  | Rename _ _ => (Err err, s)
  | RemoveFile _ => (Err err, s)
  | ReadDir p => (Err err, s)
  | CreateDirAll _ _ => (Err err, s)
  | SetPermissions _ _ => (Err err, s)
  end.

(** A fault of [read_dir] strikes either the opening of the directory or, after
    [partial] entries, its iteration. *)
Definition is_iteration {X} (v : choice) (e : fsE X) : bool :=
  match e with ReadDir _ => (0 <? Z.of_nat (partial v)) | _ => false end.

#[global] Instance fs_handler : Handler fsE fs choice := fun X v s e =>
  match fault v with
  | Some m => if is_iteration v e then fs_exec v s e else fs_fault v m s e
  | None => fs_exec v s e
  end.

(** ** Crashes *)

(** After a power loss every directory entry is either the one the system had or the one
    on stable storage, independently of the others, and a file whose contents were not
    all on stable storage can hold anything.  The permissions are those the file had when
    it was synchronized, which the program does not change afterwards. *)
Definition crash_inode (n n' : inode) : Prop :=
  file_type n' = file_type n /\
  (data n = stable_data n -> data n' = data n /\ mode n' = mode n).

Record crash (s s' : fs) : Prop := mk_crash {
  crash_entry : forall p, entries s' !! p = entries s !! p \/ entries s' !! p = stable_entries s !! p;
  crash_inodes : forall i, option_Forall2 crash_inode (inodes s !! i) (inodes s' !! i);
}.

(** The contents of the regular file at a path. *)
Definition contents (s : fs) (p : path) : option bytes :=
  match find s p with
  | Some (_, n) => if is_file (file_type n) then Some (data n) else None
  | None => None
  end.

(** A directory whose entry, like those of the directories above it, is on stable storage. *)
Definition durable_dir (s : fs) (p : path) : Prop :=
  forall q, In q (ancestors p ++ [p]) -> stable_entries s !! q = entries s !! q /\ dir_at s q = true.

(** A file name of such a directory that is on stable storage: absent, or a regular file
    whose contents are. *)
Definition durable_file (s : fs) (d : path) (c : bytes) (o : option bytes) : Prop :=
  durable_dir s d /\
  stable_entries s !! (d ++ [c]) = entries s !! (d ++ [c]) /\
  match o with
  | None => entries s !! (d ++ [c]) = None
  | Some b => exists j n, entries s !! (d ++ [c]) = Some j /\ inodes s !! j = Some n /\
      file_type n = Regular /\ data n = b /\ stable_data n = b
  end.

(** Every entry leads to an inode, and inode numbers are handed out once. *)
Definition fs_wf (s : fs) : Prop :=
  (forall p i, entries s !! p = Some i \/ stable_entries s !! p = Some i ->
     is_Some (inodes s !! i)) /\
  (forall i, is_Some (inodes s !! i) -> i < next_ino s).

(** ** Lemmas *)

Lemma exec_cases {X} v s (e : fsE X) :
  (exists m, exec v s e = fs_fault v m s e) \/ exec v s e = fs_exec v s e.
Proof.
  unfold exec, fs_handler. destruct (fault v) as [m|]; [|auto].
  destruct (is_iteration v e); eauto.
Qed.

Lemma safe_op {X} I (e : fsE X) (Q : X -> fs -> Prop) s :
  I s ->
  (forall v m, I (snd (fs_fault v m s e)) /\
    Q (fst (fs_fault v m s e)) (snd (fs_fault v m s e))) ->
  (forall v, I (snd (fs_exec v s e)) /\ Q (fst (fs_exec v s e)) (snd (fs_exec v s e))) ->
  safe I (trigger e) Q s.
Proof.
  intros HI Hf He. apply safe_vis; [done|]. intros v.
  destruct (exec_cases v s e) as [[m ->]| ->]; simpl; auto.
Qed.

Lemma ancestors_snoc p c : ancestors (p ++ [c]) = ancestors p ++ [p].
Proof.
  unfold ancestors. rewrite length_app, Nat.add_1_r, seq_S, fmap_app. simpl. f_equal.
  - apply list_fmap_ext. intros i x [-> Hi]%lookup_seq. rewrite take_app_le by lia. done.
  - by rewrite take_app_length.
Qed.

Lemma in_ancestors_length p q : In q (ancestors p) -> (length q < length p)%nat.
Proof.
  unfold ancestors. rewrite <- list_elem_of_In, list_elem_of_fmap.
  intros (n & -> & Hn%elem_of_seq). rewrite length_take. lia.
Qed.

Lemma parents_ok_snoc s p c : parents_ok s (p ++ [c]) = parents_ok s p && dir_at s p.
Proof. unfold parents_ok. rewrite ancestors_snoc, forallb_app. simpl. by rewrite andb_true_r. Qed.

Lemma parent_snoc (p : path) c : parent (p ++ [c]) = Some p.
Proof. unfold parent. rewrite removelast_last. by destruct p. Qed.

(** Joining a directory and a file name. *)
Lemma split_slash_name l : slash ∉ l -> split_slash l = [l].
Proof.
  induction l as [|b l IH]; [done|]. rewrite not_elem_of_cons. intros [H1 H2]. simpl.
  rewrite decide_False by congruence. by rewrite IH.
Qed.

(** A file name: without slashes, not empty and not [.]. *)
Definition name_ok (c : bytes) : Prop := (slash ∉ c) /\ (c <> []) /\ (c <> [dot]).

Lemma join_name p c : name_ok c -> join p c = p ++ [c].
Proof.
  intros (H1 & H2 & H3). unfold join. destruct c as [|b c]; [done|].
  rewrite decide_False by (intros ->; apply H1; left).
  f_equal. unfold components. rewrite split_slash_name by done.
  by rewrite filter_cons_True.
Qed.

(** The extension of a name that ends in a dot and a suffix without dots. *)
Lemma rsplit_dot_snoc a e : dot ∉ e -> rsplit_dot (a ++ dot :: e) = Some (a, e).
Proof.
  intros He. assert (forall l, dot ∉ l -> rsplit_dot l = None) as H0.
  { induction l as [|b l IH]; [done|]. rewrite not_elem_of_cons. intros [? ?]. simpl.
    rewrite IH by done. by rewrite decide_False by congruence. }
  induction a as [|b a IH]; simpl; [|by rewrite IH].
  by rewrite H0.
Qed.

Lemma extension_app a e : a <> [] -> dot ∉ e -> e <> [] -> extension (a ++ dot :: e) = Some e.
Proof.
  intros Ha He1 He2. unfold extension. rewrite decide_False.
  - rewrite rsplit_dot_snoc by done. by destruct a.
  - destruct a as [|b [|c a]]; [done| |]; [destruct e; [done|]|]; intros [=].
    destruct a; naive_solver.
Qed.

(** [dir_at] looks at one entry and the type of one inode. *)
Definition same_type (o o' : option inode) : Prop :=
  option_Forall2 (fun n n' => file_type n' = file_type n) o o'.

Lemma dir_at_same s s' p :
  same_type (inode_at s p) (inode_at s' p) -> dir_at s' p = dir_at s p.
Proof.
  intros H. destruct p; [done|]. unfold dir_at. destruct H as [n n' H|]; [|done]. by rewrite H.
Qed.

Lemma parents_ok_same s s' p :
  (forall q, In q (ancestors p) -> same_type (inode_at s q) (inode_at s' q)) ->
  parents_ok s' p = parents_ok s p.
Proof.
  unfold parents_ok. induction (ancestors p) as [|q l IH]; intros H; [done|]. simpl.
  rewrite (dir_at_same s s') by (apply H; by left). rewrite IH; [done|]. intros ??; apply H; by right.
Qed.

Ltac destruct_ex :=
  repeat match goal with
  | H : exists _, _ |- _ => destruct H
  | H : _ /\ _ |- _ => destruct H
  end.

Lemma find_Some s p i n :
  find s p = Some (i, n) <->
  parents_ok s p = true /\ entries s !! p = Some i /\ inodes s !! i = Some n.
Proof.
  unfold find. destruct (parents_ok s p); [|split; intros; destruct_and?; done].
  destruct (entries s !! p) as [j|]; simpl; [|split; intros; destruct_and?; done].
  destruct (inodes s !! j) eqn:E; simpl;
    split; intros; destruct_and?; simplify_eq; try congruence; auto.
Qed.

Lemma resolve_regular k s p i n :
  find s p = Some (i, n) -> file_type n = Regular -> resolve k s p = Ok (i, n).
Proof. intros H Ht. destruct k; simpl; rewrite H, Ht; done. Qed.

Lemma contents_Some s p b :
  contents s p = Some b <->
  exists i n, find s p = Some (i, n) /\ file_type n = Regular /\ data n = b.
Proof.
  unfold contents. destruct (find s p) as [[i n]|].
  - destruct (file_type n) eqn:E; simpl; split; intros; destruct_and?; destruct_ex;
      simplify_eq; try congruence; eauto.
  - split; intros; destruct_and?; destruct_ex; done.
Qed.

(** Crashes keep the type of every inode. *)
Lemma crash_same_type s s' p :
  crash s s' -> stable_entries s !! p = entries s !! p ->
  same_type (inode_at s p) (inode_at s' p).
Proof.
  intros [He Hi] Hs. unfold inode_at, same_type.
  assert (entries s' !! p = entries s !! p) as -> by (destruct (He p); congruence).
  destruct (entries s !! p) as [i|]; simpl; [|constructor].
  destruct (Hi i) as [n n' (Ht & _)|]; constructor; done.
Qed.

(** No crash is a crash. *)
Lemma crash_refl s : crash s s.
Proof.
  split; [auto|]. intros i. destruct (inodes s !! i); constructor. by split.
Qed.

(** A file on stable storage: a regular inode whose contents are all there. *)
Definition settled (s : fs) (i : Z) (b : bytes) : Prop :=
  exists n, inodes s !! i = Some n /\ file_type n = Regular /\ data n = b /\ stable_data n = b.

(** A crash keeps the contents of such a file, at every path that still leads to it. *)
Lemma crash_settled s s' p i b :
  crash s s' -> settled s i b -> parents_ok s' p = true -> entries s' !! p = Some i ->
  exists n n', inodes s !! i = Some n /\ find s' p = Some (i, n') /\
    file_type n' = Regular /\ data n' = b /\ mode n' = mode n.
Proof.
  intros Hc (n & Hn & Ht & Hd & Hs) Hp He.
  pose proof (crash_inodes _ _ Hc i) as Hi. rewrite Hn in Hi.
  inversion Hi as [? n' (Ht' & Hd') Eq1 Eq2|]; subst.
  destruct Hd' as [Hd' Hm']; [done|].
  exists n, n'. split_and!; [done| |congruence..]. apply find_Some. auto.
Qed.

Lemma crash_contents s s' p i b :
  crash s s' -> settled s i b -> parents_ok s' p = true -> entries s' !! p = Some i ->
  contents s' p = Some b.
Proof.
  intros Hc Hi Hp He. apply contents_Some.
  destruct (crash_settled s s' p i b) as (n & n' & _ & ? & ? & ? & _); eauto 6.
Qed.

(** A regular file that only its owner may access. *)
Definition private_file (s : fs) (p : path) (b : bytes) : Prop :=
  exists i n, find s p = Some (i, n) /\ file_type n = Regular /\ data n = b /\
    Z.land (mode n) MODE_0077 = 0.

Lemma private_contents s p b : private_file s p b -> contents s p = Some b.
Proof. intros (i & n & ? & ? & ? & _). apply contents_Some. eauto 6. Qed.

Lemma contents_absent s p : entries s !! p = None -> contents s p = None.
Proof. intros H. unfold contents, find. rewrite H. by destruct (parents_ok s p). Qed.

(** What [fsync] of a directory stores: its entries, and no other. *)
Lemma stable_sync_dir s d q :
  stable_entries (sync_handle s (HDir d)) !! q =
    if decide (parent q = Some d) then entries s !! q else stable_entries s !! q.
Proof.
  cbn. rewrite lookup_union, !map_lookup_filter. case_decide as H.
  - destruct (entries s !! q); simpl.
    + rewrite option_guard_True by done. simpl. by destruct (stable_entries s !! q ≫= _).
    + destruct (stable_entries s !! q); simpl; [|done]. by rewrite option_guard_False by auto.
  - destruct (stable_entries s !! q) as [i|]; simpl.
    + rewrite option_guard_True by done. simpl.
      destruct (entries s !! q); simpl; [|done]. by rewrite option_guard_False.
    + destruct (entries s !! q); simpl; [|done]. by rewrite option_guard_False.
Qed.

(** A directory that is reached is found. *)
Lemma find_dir s p :
  p <> [] -> parents_ok s p = true -> dir_at s p = true ->
  exists i n, find s p = Some (i, n) /\ file_type n = Directory.
Proof.
  intros Hne Hp Hd. unfold dir_at, inode_at in Hd. destruct p as [|c p]; [done|].
  destruct (entries s !! (c :: p)) as [i|] eqn:E1; [|done]. simpl in Hd.
  destruct (inodes s !! i) as [n|] eqn:E2; [|done].
  exists i, n. split; [by apply find_Some|]. by destruct (file_type n).
Qed.

(** Opening a directory. *)
Lemma open_dir s d v :
  d <> [] -> parents_ok s d = true -> dir_at s d = true ->
  fs_exec v s (OpenRead d) = (Ok (HDir d), s).
Proof.
  intros Hd Hp Ha. destruct (find_dir s d) as (i & n & Hf & Ht); [done..|].
  cbn [fs_exec]. unfold MAX_LINKS. cbn [resolve]. rewrite Hf, Ht. by rewrite Ht.
Qed.

(** The names in a directory are those of its entries, each once. *)
Lemma parent_last (q p : path) c : parent q = Some p -> last q = Some c -> q = p ++ [c].
Proof.
  destruct q as [|x q] using rev_ind; [done|]. rewrite parent_snoc, last_snoc. by intros [= ->] [= ->].
Qed.

Lemma names_in_elem s p c : c ∈ names_in s p <-> is_Some (entries s !! (p ++ [c])).
Proof.
  unfold names_in. rewrite list_elem_of_omap. split.
  - intros ([q i] & Hq%elem_of_map_to_list & H). case_decide as Hp; [|done].
    rewrite <- (parent_last q p c) by done. by eexists.
  - intros [i Hi]. exists (p ++ [c], i). split; [by apply elem_of_map_to_list|].
    by rewrite parent_snoc, decide_True, last_snoc.
Qed.

Lemma NoDup_omap {A B} (f : A -> option B) (l : list A) :
  NoDup l -> (forall x y b, x ∈ l -> y ∈ l -> f x = Some b -> f y = Some b -> x = y) ->
  NoDup (omap f l).
Proof.
  intros Hl Hf. induction Hl as [|x l Hx Hl IH]; [constructor|]. cbn.
  assert (NoDup (omap f l)) by (apply IH; intros; eapply Hf; eauto; by right).
  destruct (f x) as [b|] eqn:E; [|done]. constructor; [|done].
  rewrite list_elem_of_omap. intros (y & Hy & E'). apply Hx.
  by rewrite (Hf x y b) by (done || by left || by right).
Qed.

Lemma names_in_NoDup s p : NoDup (names_in s p).
Proof.
  unfold names_in. apply NoDup_omap; [apply NoDup_map_to_list|].
  intros [q i] [q' i'] c Hq%elem_of_map_to_list Hq'%elem_of_map_to_list.
  repeat case_decide; try done. intros H1 H2.
  assert (q = q') as -> by (by rewrite (parent_last q p c), (parent_last q' p c)). congruence.
Qed.

(** A directory below directories is found. *)
Lemma dir_found s p :
  p <> [] -> (forall q, In q (ancestors p ++ [p]) -> dir_at s q = true) ->
  exists i n, find s p = Some (i, n) /\ file_type n = Directory.
Proof.
  intros Hne Hd. apply find_dir; [done| |apply Hd, in_or_app; right; by left].
  apply forallb_forall. intros q Hq. apply Hd, in_or_app. by left.
Qed.

(** Reading a file. *)
Lemma exec_read v s p i n :
  find s p = Some (i, n) -> file_type n = Regular -> fs_exec v s (ReadFile p) = (Ok (data n), s).
Proof.
  intros Hf Ht. cbn [fs_exec]. by rewrite (resolve_regular _ _ _ _ _ Hf Ht), Ht.
Qed.

Lemma exec_read_absent v s p : find s p = None -> fs_exec v s (ReadFile p) = (Err not_found, s).
Proof. intros Hf. cbn [fs_exec]. unfold MAX_LINKS. cbn [resolve]. by rewrite Hf. Qed.

(** ** Panic-freedom *)

(** No operation panics, and neither does an entry of a directory listing. *)
Definition answer_ok {X} (e : fsE X) : X -> Prop :=
  match e in fsE X return X -> Prop with
  | ReadDir _ => fun r => match r with Ok l => Forall (fun x => x <> Panic) l | Err _ => True | Panic => False end
  | SymlinkMetadata _ => fun r => r <> Panic
  | ReadFile _ => fun r => r <> Panic
  | CreateNew _ _ => fun r => r <> Panic
  | OpenRead _ => fun r => r <> Panic
  | WriteAll _ _ => fun r => r <> Panic
  | SyncAll _ => fun r => r <> Panic
  | Rename _ _ => fun r => r <> Panic
  | RemoveFile _ => fun r => r <> Panic
  | CreateDirAll _ _ => fun r => r <> Panic
  | SetPermissions _ _ => fun r => r <> Panic
  end.

Lemma resolve_no_panic k s p : resolve k s p <> Panic.
Proof.
  revert p. induction k as [|k IH]; intros p; cbn [resolve]; destruct (find s p) as [[i n]|]; try done;
    by destruct (file_type n).
Qed.

Lemma dir_listing_ok v names : Forall (fun x => x <> Panic) (dir_listing v names).
Proof.
  unfold dir_listing. destruct (fault v).
  - apply Forall_app. split; [|by repeat constructor]. apply Forall_fmap, Forall_true. done.
  - apply Forall_fmap, Forall_true. done.
Qed.

Lemma make_dirs_no_panic s ps m : fst (make_dirs s ps m) <> Panic.
Proof.
  revert s. induction ps as [|p ps IH]; intros s; cbn [make_dirs]; [done|].
  destruct p; [apply IH|]. destruct (inode_at s _); [|apply IH]. by destruct (is_dir _).
Qed.

Lemma exec_answer_ok {X} v s (e : fsE X) : answer_ok e (fst (exec v s e)).
Proof.
  destruct (exec_cases v s e) as [[m ->]| ->]; [by destruct e|].
  destruct e; cbn [fs_exec answer_ok].
  - by destruct (find s p) as [[i n]|].
  - pose proof (resolve_no_panic MAX_LINKS s p). destruct (resolve MAX_LINKS s p) as [[i n]|e|]; [|done..].
    by destruct (file_type n).
  - destruct (parents_ok s p); [|done]. by destruct (entries s !! p).
  - pose proof (resolve_no_panic MAX_LINKS s p). destruct (resolve MAX_LINKS s p) as [[i n]|e|]; [|done..].
    by destruct (file_type n).
  - unfold write_data. destruct h as [i|d]; [|done]. by destruct (inodes s !! i).
  - done.
  - destruct (find s a) as [[i n]|]; [|done]. destruct (parents_ok s b); [|done].
    destruct (inode_at s b) as [x|]; [|done]. by destruct (is_dir (file_type x)).
  - destruct (find s p) as [[i n]|]; [|done]. by destruct (is_dir (file_type n)).
  - destruct (dir_at s p && parents_ok s p)%bool; [apply dir_listing_ok|]. by destruct (find s p).
  - apply make_dirs_no_panic.
  - pose proof (resolve_no_panic MAX_LINKS s p). by destruct (resolve MAX_LINKS s p) as [[i n]|e|].
Qed.

Lemma safe_answer_ok {X} (e : fsE X) s : safe (fun _ => True) (trigger e) (fun x _ => answer_ok e x) s.
Proof. apply safe_vis; [done|]. intros v. apply safe_ret; [done|]. apply exec_answer_ok. Qed.

Lemma total_metadata p : total (trigger (SymlinkMetadata p)).
Proof. exact (safe_answer_ok _). Qed.
Lemma total_read p : total (trigger (ReadFile p)).
Proof. exact (safe_answer_ok _). Qed.
Lemma total_create p m : total (trigger (CreateNew p m)).
Proof. exact (safe_answer_ok _). Qed.
Lemma total_open p : total (trigger (OpenRead p)).
Proof. exact (safe_answer_ok _). Qed.
Lemma total_write h b : total (trigger (WriteAll h b)).
Proof. exact (safe_answer_ok _). Qed.
Lemma total_sync h : total (trigger (SyncAll h)).
Proof. exact (safe_answer_ok _). Qed.
Lemma total_rename a b : total (trigger (Rename a b)).
Proof. exact (safe_answer_ok _). Qed.
Lemma total_remove p : total (trigger (RemoveFile p)).
Proof. exact (safe_answer_ok _). Qed.
Lemma total_create_dir p m : total (trigger (CreateDirAll p m)).
Proof. exact (safe_answer_ok _). Qed.
Lemma total_permissions p m : total (trigger (SetPermissions p m)).
Proof. exact (safe_answer_ok _). Qed.

#[global] Hint Resolve total_metadata total_read total_create total_open total_write total_sync
  total_rename total_remove total_create_dir total_permissions : total.
