(* ===== verification/AtomicFile.v ===== *)
(** Atomic replacement of a file.

    The key store, the history and the configuration all write a file the same way: an
    exclusively created temporary file in the same directory, the contents, [fsync], a
    rename over the destination, [fsync] of the directory.  This file has the shared
    programs and the theorem about them: whatever fails and wherever the power is lost,
    the destination holds the old contents or the new ones, and a success is durable. *)

From S2P Require Import Prelude Bytes Text Effects FileSystem.

(** ** Programs *)

(** [ensure_private_directory] of the key store and of the history, which differ in their
    complaint about what is not a directory. *)
Definition ensure_private_directory_or (complaint : bytes) (directory : path) : prog fsE (io_result unit) :=
  r ← trigger (SymlinkMetadata directory);
  created ← match r with
    | Ok metadata =>
        if negb (is_dir (md_type metadata)) then
          Ret (Err (mk_io_error InvalidInput complaint))
        else Ret (Ok tt)
    | Err error =>
        if decide (kind error = NotFound) then trigger (CreateDirAll directory MODE_0700)
        else Ret (Err error)
    | Panic => Ret Panic
    end;
  match created with
  | Ok _ => trigger (SetPermissions directory MODE_0700)
  | _ => Ret created
  end.

(** [create_private_file]: exclusive creation with owner-only permissions. *)
Definition create_private_file (p : path) : prog fsE (io_result handle) :=
  trigger (CreateNew p MODE_0600).

(** [for attempt in 0..attempts]: the first candidate that does not exist yet; [None]
    when all of them do. *)
Fixpoint first_free (candidate : Z -> path) (attempts : nat) (attempt : Z) :
    prog fsE (io_result (option (path * handle))) :=
  match attempts with
  | O => Ret (Ok None)
  | S attempts =>
      r ← create_private_file (candidate attempt);
      match r with
      | Ok file => Ret (Ok (Some (candidate attempt, file)))
      | Err error =>
          if decide (kind error = AlreadyExists)
          then first_free candidate attempts (attempt + 1)
          else Ret (Err error)
      | Panic => Ret Panic
      end
  end.

Fixpoint write_chunks (file : handle) (chunks : list bytes) : prog fsE (io_result unit) :=
  match chunks with
  | [] => Ret (Ok tt)
  | b :: chunks => _ ←? trigger (WriteAll file b); write_chunks file chunks
  end.

(** [fs::File::open(directory)?.sync_all()]. *)
Definition sync_directory (directory : path) : prog fsE (io_result unit) :=
  file ←? trigger (OpenRead directory);
  trigger (SyncAll file).

(** The closure of the three [save] functions: write, sync, rename, sync the directory. *)
Definition commit_body (temporary : path) (file : handle) (chunks : list bytes)
    (destination directory : path) : prog fsE (io_result unit) :=
  _ ←? write_chunks file chunks;
  _ ←? trigger (SyncAll file);
  _ ←? trigger (Rename temporary destination);
  sync_directory directory.

(** The closure's result, with the temporary file removed after an error. *)
Definition commit (temporary : path) (file : handle) (chunks : list bytes)
    (destination directory : path) : prog fsE (io_result unit) :=
  write_result ← commit_body temporary file chunks destination directory;
  match write_result with
  | Ok _ => Ret write_result
  | _ => _ ← trigger (RemoveFile temporary); Ret write_result
  end.

(** Whatever the umask, the mode of a new file gives nothing to the group and to others. *)
Lemma mode_0600_private m : Z.land (Z.land MODE_0600 m) MODE_0077 = 0.
Proof. by rewrite <- Z.land_assoc, (Z.land_comm m), Z.land_assoc. Qed.

(** ** Panic-freedom *)

Lemma total_ensure_private_directory complaint d : total (ensure_private_directory_or complaint d).
Proof.
  apply (total_bind _ _ (fun r => r <> Panic)); [apply (total_metadata d)|]. intros r Hr.
  apply (total_bind _ _ (fun r => r <> Panic)).
  - destruct r as [md|e|]; [|destruct (decide _); [apply total_create_dir|by apply total_ret]|done].
    destruct (negb _); by apply total_ret.
  - intros c Hc. destruct c; [apply total_permissions|by apply total_ret|done].
Qed.

Lemma total_first_free candidate n k : total (first_free candidate n k).
Proof.
  revert k. induction n as [|n IH]; intros k; cbn [first_free]; [by apply total_ret|].
  apply (total_bind _ _ (fun r => r <> Panic)); [apply total_create|]. intros [f|e|] Hr; [by apply total_ret| |done].
  destruct (decide _); [apply IH|by apply total_ret].
Qed.

Lemma total_write_chunks h chunks : total (write_chunks h chunks).
Proof. induction chunks; cbn [write_chunks]; auto with total. Qed.

Lemma total_sync_directory d : total (sync_directory d).
Proof. unfold sync_directory. auto with total. Qed.
#[global] Hint Resolve total_ensure_private_directory total_first_free total_write_chunks
  total_sync_directory : total.

Lemma total_commit temporary file chunks destination d :
  total (commit temporary file chunks destination d).
Proof.
  apply (total_bind _ _ (fun r => r <> Panic)).
  - change (total (commit_body temporary file chunks destination d)). unfold commit_body. auto with total.
  - intros [u|e|] Hr; [by apply total_ret| |done].
    apply (total_bind _ _ (fun r => r <> Panic)); [apply total_remove|]. intros _ _. by apply total_ret.
Qed.
#[global] Hint Resolve total_commit : total.

(** ** What is preserved *)

(** Two inodes with the same file behind them; permissions can differ. *)
Definition same_file (n n' : inode) : Prop :=
  file_type n' = file_type n /\ data n' = data n /\ stable_data n' = stable_data n.

#[global] Instance same_file_equivalence : Equivalence same_file.
Proof.
  unfold same_file. split.
  - by intros n.
  - intros n n' (? & ? & ?). auto.
  - intros n1 n2 n3 (? & ? & ?) (? & ? & ?). split_and!; congruence.
Qed.

Section Replace.
(** The directory, the destination's name, the temporary names; the state before, the
    destination's contents before, and the contents to be written. *)
Context (dir : path) (fname : bytes) (tname : Z -> bytes).
Context (s0 : fs) (old : option bytes) (new : bytes).
Hypothesis dir_ne : dir <> [].
Hypothesis temp_ne : forall a, tname a <> fname.
Hypothesis s0_wf : fs_wf s0.
Hypothesis dest_durable : durable_file s0 dir fname old.

Let dest : path := dir ++ [fname].
Let candidate (a : Z) : path := dir ++ [tname a].
Let ino : Z := next_ino s0.

Definition is_temp (q : path) : Prop := exists a, q = candidate a.

(** Nothing but the destination, the temporaries and the new inode changes. *)
Record frame (s : fs) : Prop := {
  fr_entries : forall q, q <> dest -> ~ is_temp q -> entries s !! q = entries s0 !! q;
  fr_stable : forall q, q <> dest -> ~ is_temp q ->
    stable_entries s !! q = stable_entries s0 !! q \/
    stable_entries s !! q = entries s0 !! q;
  fr_inodes : forall j, j <> ino -> option_Forall2 same_file (inodes s0 !! j) (inodes s !! j);
  fr_private : forall n, inodes s !! ino = Some n -> Z.land (mode n) MODE_0077 = 0;
}.

(** The three stages of the destination: untouched, renamed, renamed durably. *)
Definition at_old (s : fs) : Prop :=
  entries s !! dest = entries s0 !! dest /\
  stable_entries s !! dest = stable_entries s0 !! dest.
Definition at_both (s : fs) : Prop :=
  entries s !! dest = Some ino /\ stable_entries s !! dest = stable_entries s0 !! dest /\
  settled s ino new.
Definition at_new (s : fs) : Prop :=
  entries s !! dest = Some ino /\ stable_entries s !! dest = Some ino /\ settled s ino new.

(** The invariant of every state of a replacement. *)
Definition replacing (s : fs) : Prop := frame s /\ (at_old s \/ at_both s \/ at_new s).

(** *** Directories *)

Lemma not_special q : In q (ancestors dest) -> q <> dest /\ ~ is_temp q.
Proof.
  unfold dest. intros Hq%in_ancestors_length. split; [intros ->; lia|].
  intros [a ->]. unfold candidate in Hq. rewrite !length_app in Hq. simpl in Hq. lia.
Qed.

Lemma frame_entry_below s q i : frame s -> entries s0 !! q = Some i -> i <> ino.
Proof.
  intros _ H. destruct s0_wf as [Hin Hlt]. unfold ino.
  assert (i < next_ino s0); [|lia]. apply Hlt, (Hin q). auto.
Qed.

Lemma frame_ancestor s s' q :
  frame s -> crash s s' -> In q (ancestors dest) -> dir_at s' q = true.
Proof.
  intros Hf Hc Hq. destruct (not_special q Hq) as [H1 H2].
  destruct dest_durable as (Hd & _). unfold dest in Hq. rewrite ancestors_snoc in Hq.
  destruct (Hd q Hq) as [Hs Hdir].
  rewrite <- Hdir. rewrite <- (dir_at_same s0 s).
  - apply dir_at_same, crash_same_type; [done|].
    destruct (fr_stable s Hf q H1 H2), (fr_entries s Hf q H1 H2); congruence.
  - unfold inode_at, same_type. rewrite (fr_entries s Hf q H1 H2).
    destruct (entries s0 !! q) as [i|] eqn:E; simpl; [|constructor].
    destruct (fr_inodes s Hf i) as [n n' (? & _)|]; [|by constructor|constructor].
    by eapply frame_entry_below.
Qed.

Lemma frame_parents_ok s s' c : frame s -> crash s s' -> parents_ok s' (dir ++ [c]) = true.
Proof.
  intros Hf Hc. unfold parents_ok. rewrite forallb_forall. intros q Hq.
  eapply frame_ancestor; [done..|]. unfold dest. rewrite ancestors_snoc in *. done.
Qed.
(** *** What a crash leaves *)

(** A file that was on stable storage before still is. *)
Lemma frame_settled s i b p :
  frame s -> entries s0 !! p = Some i -> settled s0 i b -> settled s i b.
Proof.
  intros Hf He (n & Hn & Ht & Hd & Hs).
  pose proof (fr_inodes s Hf i (frame_entry_below s p i Hf He)) as Hi. rewrite Hn in Hi.
  inversion Hi as [? n' (Ht' & Hd' & Hs') Eq1 Eq2|]; subst.
  exists n'. split_and!; congruence.
Qed.

(** A durable file keeps its contents wherever the crash restores its entry. *)
Lemma durable_crash s s' c o :
  frame s -> crash s s' -> durable_file s0 dir c o ->
  entries s' !! (dir ++ [c]) = entries s0 !! (dir ++ [c]) ->
  contents s' (dir ++ [c]) = o.
Proof.
  intros Hf Hc (_ & _ & Ho) E. destruct o as [b|].
  - destruct Ho as (j & n & Hj & Hn). rewrite Hj in E.
    eapply crash_contents; [done| |by eapply frame_parents_ok|done].
    eapply frame_settled; [done..|]. by exists n.
  - apply contents_absent. congruence.
Qed.

(** A durable file that is not being replaced survives. *)
Lemma frame_keeps s s' c o :
  frame s -> crash s s' -> durable_file s0 dir c o ->
  entries s !! (dir ++ [c]) = entries s0 !! (dir ++ [c]) ->
  stable_entries s !! (dir ++ [c]) = stable_entries s0 !! (dir ++ [c]) \/
  stable_entries s !! (dir ++ [c]) = entries s0 !! (dir ++ [c]) ->
  contents s' (dir ++ [c]) = o.
Proof.
  intros Hf Hc Ho He Hs. eapply durable_crash; [done..|].
  destruct Ho as (_ & Hst & _).
  destruct (crash_entry _ _ Hc (dir ++ [c])), Hs; congruence.
Qed.

Lemma new_contents s s' :
  frame s -> crash s s' -> settled s ino new -> entries s' !! dest = Some ino ->
  contents s' dest = Some new.
Proof.
  intros Hf Hc Hn E. eapply crash_contents; [done..| |done].
  by eapply frame_parents_ok.
Qed.

(** The destination after a crash. *)
Lemma at_old_contents s s' : frame s -> at_old s -> crash s s' -> contents s' dest = old.
Proof. intros Hf [He Hs] Hc. eapply frame_keeps; eauto. Qed.

Lemma at_new_contents s s' : frame s -> at_new s -> crash s s' -> contents s' dest = Some new.
Proof.
  intros Hf (He & Hs & Hn) Hc. apply (new_contents s); auto.
  destruct (crash_entry _ _ Hc dest); congruence.
Qed.

Lemma at_new_private s s' : frame s -> at_new s -> crash s s' -> private_file s' dest new.
Proof.
  intros Hf (He & Hs & Hn) Hc.
  destruct (crash_settled s s' dest ino new) as (n & n' & Hi & Hfd & Ht & Hd & Hm); try done.
  - by eapply frame_parents_ok.
  - destruct (crash_entry _ _ Hc dest); congruence.
  - exists ino, n'. split_and!; try done. rewrite Hm. by apply (fr_private s Hf).
Qed.

Lemma at_both_contents s s' :
  frame s -> at_both s -> crash s s' -> contents s' dest = old \/ contents s' dest = Some new.
Proof.
  intros Hf (He & Hs & Hn) Hc.
  destruct (crash_entry _ _ Hc dest) as [E|E].
  - right. apply (new_contents s); auto. congruence.
  - left. eapply durable_crash; [done..|]. fold dest.
    destruct dest_durable as (_ & Hst & _). fold dest in Hst. congruence.
Qed.

(** Every state of a replacement, after any crash, has the old or the new contents. *)
Lemma replacing_crash s s' :
  replacing s -> crash s s' -> contents s' dest = old \/ contents s' dest = Some new.
Proof.
  intros [Hf [H|[H|H]]] Hc.
  - left. by eapply at_old_contents.
  - by eapply at_both_contents.
  - right. by eapply at_new_contents.
Qed.

Lemma not_temp c : (forall a, c <> tname a) -> ~ is_temp (dir ++ [c]).
Proof. intros Hc [a H]. unfold candidate in H. apply app_inj_2 in H as [_ [= ?]]; [|done]. by apply (Hc a). Qed.

(** The other durable files of the directory survive too. *)
Lemma replacing_other s s' c o :
  replacing s -> crash s s' -> durable_file s0 dir c o ->
  c <> fname -> (forall a, c <> tname a) -> contents s' (dir ++ [c]) = o.
Proof.
  intros [Hf _] Hc Ho Hc1 Hc2.
  assert (dir ++ [c] <> dest) as H1 by (unfold dest; intros [_ [=]]%app_inj_2; done).
  assert (~ is_temp (dir ++ [c])) as H2 by by apply not_temp.
  eapply frame_keeps; eauto using fr_entries, fr_stable.
Qed.

(** The other names in the directory after a crash were there before, or could be. *)
Lemma frame_names s s' c :
  frame s -> crash s s' -> c <> fname -> (forall a, c <> tname a) -> is_Some (entries s' !! (dir ++ [c])) ->
  is_Some (entries s0 !! (dir ++ [c])) \/ is_Some (stable_entries s0 !! (dir ++ [c])).
Proof.
  intros Hf Hc Hc1 Hc2 Hs.
  assert (dir ++ [c] <> dest) as H1 by (unfold dest; intros [_ [=]]%app_inj_2; done).
  assert (~ is_temp (dir ++ [c])) as H2 by by apply not_temp.
  pose proof (fr_entries s Hf _ H1 H2) as He. pose proof (fr_stable s Hf _ H1 H2) as Hst.
  destruct (crash_entry _ _ Hc (dir ++ [c])) as [E|E]; rewrite E in Hs; [left; congruence|].
  destruct Hst as [Est|Est]; rewrite Est in Hs; auto.
Qed.

(** *** Steps *)

Definition idle (s : fs) : Prop := frame s /\ at_old s /\ next_ino s = ino.

(** The temporary [a] exists and holds [b]. *)
Definition writing (a : Z) (b : bytes) (s : fs) : Prop :=
  frame s /\ at_old s /\ entries s !! candidate a = Some ino /\
  exists n, inodes s !! ino = Some n /\ file_type n = Regular /\ data n = b.

Lemma candidate_ne a : candidate a <> dest.
Proof. unfold candidate, dest. intros [_ [= H]]%app_inj_2; [|done]. by apply (temp_ne a). Qed.

Lemma candidate_ok s a : frame s -> parents_ok s (candidate a) = true.
Proof. intros Hf. eapply frame_parents_ok; [done|apply crash_refl]. Qed.

Lemma dest_ok s : frame s -> parents_ok s dest = true.
Proof. intros Hf. eapply frame_parents_ok; [done|apply crash_refl]. Qed.

Lemma frame_refl : frame s0.
Proof.
  split; auto.
  - intros j _. destruct (inodes s0 !! j); constructor. reflexivity.
  - intros n Hn. destruct s0_wf as [_ H]. unfold ino in Hn.
    specialize (H (next_ino s0)). rewrite Hn in H. assert (next_ino s0 < next_ino s0) by eauto. lia.
Qed.

Lemma frame_set_inode s n :
  frame s -> Z.land (mode n) MODE_0077 = 0 -> frame (set_inode s ino n).
Proof.
  intros [He Hs Hi Hp] Hm. split; [done..| |].
  - intros j Hj. cbn. rewrite lookup_insert_ne by done. auto.
  - intros n'. cbn. rewrite lookup_insert_eq. by intros [= <-].
Qed.

Lemma frame_set_entries s e :
  frame s -> (forall q, q <> dest -> ~ is_temp q -> e !! q = entries s !! q) ->
  frame (set_entries s e).
Proof. intros [He Hs Hi Hp] H. split; cbn; [|done..]. intros q ??. rewrite H; auto. Qed.

Lemma idle_replacing s : idle s -> replacing s.
Proof. intros (? & ? & _). split; auto. Qed.

Lemma writing_replacing a b s : writing a b s -> replacing s.
Proof. intros (? & ? & _). split; auto. Qed.
Hint Resolve idle_replacing writing_replacing : core.

Lemma idle_refl : idle s0.
Proof. split_and!; [apply frame_refl|by split|done]. Qed.

(** The directory is a directory throughout. *)
Lemma frame_dir s :
  frame s -> exists i n, find s dir = Some (i, n) /\ file_type n = Directory /\ i <> ino.
Proof.
  intros Hf. pose proof (dest_ok s Hf) as Hp. unfold dest in Hp. rewrite parents_ok_snoc in Hp.
  apply andb_true_iff in Hp as [Hp Hd].
  destruct (find_dir s dir) as (i & n & Hfd & Ht); [done..|].
  exists i, n. split_and!; [done..|].
  apply find_Some in Hfd as (_ & E1 & _).
  apply (frame_entry_below s dir); [done|].
  destruct (not_special dir) as [H1 H2]; [|by rewrite <- (fr_entries s Hf)].
  unfold dest. rewrite ancestors_snoc. apply in_or_app. right. by left.
Qed.

(** The operations before the temporary file is created. *)
Lemma idle_set_permissions s v m :
  idle s -> exists s', fs_exec v s (SetPermissions dir m) = (Ok tt, s') /\ idle s'.
Proof.
  intros (Hf & [Ho1 Ho2] & Hn). destruct (frame_dir s Hf) as (i & n & Hfd & Ht & Hi).
  exists (set_inode s i (set_mode n m)). split.
  { cbn [fs_exec]. unfold MAX_LINKS. cbn [resolve]. by rewrite Hfd, Ht. }
  split_and!; [|by split|done]. destruct Hf as [He Hs Hin Hp]. split; [done..| |].
  - intros j Hj. cbn. destruct (decide (j = i)) as [->|Hij].
    + rewrite lookup_insert_eq. apply find_Some in Hfd as (_ & _ & Hni). specialize (Hin i Hj).
      rewrite Hni in Hin. inversion Hin as [n0 ? Hsame|]; subst. constructor.
      etransitivity; [exact Hsame|]. by split_and!.
    + rewrite lookup_insert_ne by done. auto.
  - intros n'. cbn. rewrite lookup_insert_ne by done. apply Hp.
Qed.

Lemma set_permissions_safe s m :
  idle s -> safe replacing (trigger (SetPermissions dir m)) (fun r s => r <> Panic /\ idle s) s.
Proof.
  intros Hs. apply safe_op; [by auto|intros v e; cbn; by auto|].
  intros v. destruct (idle_set_permissions s v m Hs) as (s' & -> & Hs'). cbn. auto.
Qed.

Lemma symlink_metadata_safe s :
  idle s ->
  safe replacing (trigger (SymlinkMetadata dir))
    (fun r s => idle s /\
       match r with
       | Ok m => md_type m = Directory
       | Err e => kind e = OtherKind
       | Panic => False
       end) s.
Proof.
  intros Hs. apply safe_op; [by auto|intros v e; cbn; by auto|].
  intros v. destruct (frame_dir s (proj1 Hs)) as (i & n & Hfd & Ht & _).
  cbn [fs_exec]. rewrite Hfd. cbn. auto.
Qed.

Lemma ensure_private_directory_safe complaint s :
  idle s ->
  safe replacing (ensure_private_directory_or complaint dir)
    (fun r s => r <> Panic /\ idle s) s.
Proof.
  intros Hs. apply safe_bind. eapply safe_mono; [done| |by apply symlink_metadata_safe].
  intros [m|e|] s1 [Hs1 Hr]; [| |done].
  - rewrite Hr. by apply set_permissions_safe.
  - rewrite decide_False by congruence. apply safe_ret; [by apply idle_replacing|done].
Qed.

Lemma idle_create a s :
  idle s -> entries s !! candidate a = None ->
  writing a [] (add_inode s (candidate a) Regular MODE_0600).
Proof.
  intros (Hf & [Ho1 Ho2] & Hn) E. pose proof (candidate_ne a) as Hne.
  unfold add_inode. rewrite Hn. split_and!.
  - split; cbn.
    + intros q H1 H2. rewrite lookup_insert_ne by (intros <-; apply H2; by exists a).
      by apply (fr_entries s Hf).
    + apply (fr_stable s Hf).
    + intros j Hj. rewrite lookup_insert_ne by done. by apply (fr_inodes s Hf).
    + intros n. rewrite lookup_insert_eq. intros [= <-]. apply mode_0600_private.
  - split; cbn; [|done]. by rewrite lookup_insert_ne.
  - cbn. by rewrite lookup_insert_eq.
  - eexists. cbn. rewrite lookup_insert_eq. eauto.
Qed.

Lemma first_free_safe cand attempts a s :
  (forall a, cand a = dir ++ [tname a]) -> idle s ->
  safe replacing (first_free cand attempts a)
    (fun r s =>
       match r with
       | Ok (Some (t, h)) => h = HFile ino /\ exists a, t = dir ++ [tname a] /\ writing a [] s
       | Panic => False
       | _ => idle s
       end) s.
Proof.
  intros Hc. revert a s; induction attempts as [|attempts IH]; intros a s Hs; [by apply safe_ret; auto|].
  cbn [first_free]. rewrite (Hc a). fold (candidate a). apply safe_bind, safe_op; [by auto|intros v m|intros v].
  { cbn [fs_fault fst snd]. rewrite decide_False by done. split; [by auto|].
    apply safe_ret; auto. }
  cbn [fs_exec]. rewrite candidate_ok by apply Hs.
  destruct (entries s !! candidate a) eqn:E; cbn.
  - split; [auto|]. apply IH, Hs.
  - pose proof (idle_create a s Hs E) as Hw. destruct Hs as (? & ? & Hn).
    split_and!; [by eauto..|by rewrite Hn|by exists a].
Qed.

Lemma writing_write a b c s :
  writing a b s -> exists s',
    write_data s (HFile ino) c = (Ok tt, s') /\ writing a (b ++ c) s'.
Proof.
  intros (Hf & [Ho1 Ho2] & Ht & n & Hn & Hr & Hd). unfold write_data. rewrite Hn.
  eexists; split; [done|].
  split_and!; [apply frame_set_inode; [done|by apply (fr_private s Hf n)]|done|done|].
  eexists. cbn. rewrite lookup_insert_eq. split_and!; [done..|]. cbn. congruence.
Qed.

Lemma write_chunks_safe chunks a b s :
  writing a b s ->
  safe replacing (write_chunks (HFile ino) chunks)
    (fun r s =>
       match r with
       | Ok _ => writing a (b ++ concat chunks) s
       | Err _ => exists b', writing a b' s
       | Panic => False
       end) s.
Proof.
  revert b s; induction chunks as [|c chunks IH]; intros b s Hw; cbn [write_chunks concat].
  { rewrite app_nil_r. apply safe_ret; eauto. }
  apply safe_try, safe_op; [by eauto|..].
  - intros v m. cbn [fs_fault fst snd].
    destruct (writing_write a b (firstn (partial v) c) s Hw) as (s' & -> & Hw'). cbn. eauto 6.
  - intros v. cbn [fs_exec fst snd].
    destruct (writing_write a b c s Hw) as (s' & -> & Hw'). cbn.
    rewrite app_assoc. split; [eauto|]. apply IH, Hw'.
Qed.

(** The contents are on stable storage, under the temporary name. *)
Definition synced (a : Z) (s : fs) : Prop :=
  frame s /\ at_old s /\ entries s !! candidate a = Some ino /\ settled s ino new.

Lemma synced_replacing a s : synced a s -> replacing s.
Proof. intros (? & ? & _). split; auto. Qed.

Lemma writing_sync a s : writing a new s -> synced a (sync_handle s (HFile ino)).
Proof.
  intros (Hf & Ho & Ht & n & Hn & Hr & Hd). cbn. rewrite Hn.
  split_and!; [apply frame_set_inode; [done|by apply (fr_private s Hf n)]|exact Ho|done|].
  eexists. cbn. rewrite lookup_insert_eq. cbn. eauto.
Qed.

(** After the rename the destination is the new file, not yet durably. *)
Definition renamed (a : Z) (s : fs) : Prop :=
  frame s /\ at_both s /\ entries s !! candidate a = None.

Lemma renamed_replacing a s : renamed a s -> replacing s.
Proof. intros (? & ? & _). split; auto. Qed.

Lemma dest_not_dir s n : frame s -> at_old s -> inode_at s dest = Some n -> is_dir (file_type n) = false.
Proof.
  intros Hf [He _] Hn. unfold inode_at in Hn. rewrite He in Hn.
  destruct dest_durable as (_ & _ & Ho). fold dest in Ho. destruct old as [b|].
  - destruct Ho as (j & n0 & Hj & Hn0 & Ht & _). rewrite Hj in Hn. simpl in Hn.
    pose proof (fr_inodes s Hf j (frame_entry_below s _ j Hf Hj)) as Hi.
    rewrite Hn0, Hn in Hi. inversion Hi as [? ? (Ht' & _)|]; subst. by rewrite Ht', Ht.
  - by rewrite Ho in Hn.
Qed.

Lemma synced_rename a s v :
  synced a s -> exists s', fs_exec v s (Rename (candidate a) dest) = (Ok tt, s') /\ renamed a s'.
Proof.
  intros (Hf & Ho & Ht & Hn). pose proof (candidate_ne a) as Hne.
  exists (set_entries s (<[dest := ino]> (delete (candidate a) (entries s)))). split.
  - destruct Hn as (n & Hn & _). cbn [fs_exec].
    rewrite (proj2 (find_Some s (candidate a) ino n))
      by (split_and!; [by apply candidate_ok|done|done]).
    rewrite dest_ok by done.
    destruct (inode_at s dest) eqn:E; [|done]. by erewrite dest_not_dir.
  - split_and!.
    + apply frame_set_entries; [done|]. intros q H1 H2.
      rewrite lookup_insert_ne, lookup_delete_ne; [done| |by symmetry].
      intros <-. apply H2. by exists a.
    + split_and!; [by cbn; rewrite lookup_insert_eq|apply Ho|done].
    + cbn. by rewrite lookup_insert_ne, lookup_delete_eq.
Qed.

(** After the directory's [fsync] it is, durably. *)
Definition installed (a : Z) (s : fs) : Prop :=
  frame s /\ at_new s /\ entries s !! candidate a = None.

Lemma installed_replacing a s : installed a s -> replacing s.
Proof. intros (? & ? & _). split; auto. Qed.

Lemma frame_sync_dir s : frame s -> frame (sync_handle s (HDir dir)).
Proof.
  intros [He Hs Hi Hp]. split; [apply He| |apply Hi|apply Hp].
  intros q H1 H2. rewrite stable_sync_dir. case_decide; [right; by apply He|by apply Hs].
Qed.

Lemma renamed_sync a s : renamed a s -> installed a (sync_handle s (HDir dir)).
Proof.
  intros (Hf & (Hd & Hst & Hn) & Ht). split_and!; [by apply frame_sync_dir|split_and!|done].
  - exact Hd.
  - rewrite stable_sync_dir. rewrite decide_True by apply parent_snoc. exact Hd.
  - exact Hn.
Qed.

Lemma open_dir_frame s v : frame s -> fs_exec v s (OpenRead dir) = (Ok (HDir dir), s).
Proof.
  intros Hf. apply open_dir; [done|..].
  - pose proof (dest_ok s Hf) as H. unfold dest in H. rewrite parents_ok_snoc in H.
    by apply andb_true_iff in H as [? ?].
  - eapply frame_ancestor; [done|apply crash_refl|]. unfold dest.
    rewrite ancestors_snoc. apply in_or_app. right. by left.
Qed.

Hint Resolve synced_replacing renamed_replacing installed_replacing : core.

Lemma commit_body_safe a chunks s :
  concat chunks = new -> writing a [] s ->
  safe replacing (commit_body (candidate a) (HFile ino) chunks dest dir)
    (fun r s =>
       match r with
       | Ok _ => installed a s
       | Err _ => (exists b, writing a b s) \/ renamed a s
       | Panic => False
       end) s.
Proof.
  intros Hnew Hw. apply safe_try. eapply safe_mono; [done| |by apply (write_chunks_safe chunks)].
  intros [[]|e|] s1; [|intros [b Hb]; by eauto 10|done]. cbn [app]. rewrite Hnew. clear s Hw.
  intros Hw. apply safe_try, safe_op; [by eauto|intros v m; cbn; by eauto 10|].
  intros v. cbn [fs_exec fst snd]. pose proof (writing_sync a s1 Hw) as Hs. split; [by eauto|].
  revert Hs. generalize (sync_handle s1 (HFile ino)). clear s1 Hw. intros s Hs.
  apply safe_try, safe_op; [by eauto|..].
  { intros v' m. cbn. split; [by eauto|]. split; [by eauto|]. left.
    destruct Hs as (? & ? & ? & n & ? & ? & ? & ?). exists new. split_and!; eauto. }
  intros v'. destruct (synced_rename a s v' Hs) as (s1 & -> & Hr). cbn [fst snd]. split; [by eauto|].
  apply safe_try, safe_op; [by eauto|intros ??; cbn; by eauto 10|].
  intros w. rewrite open_dir_frame by apply Hr. cbn [fst snd]. split; [by eauto|].
  apply safe_op; [by eauto|intros ??; cbn; by eauto|].
  intros w'. cbn [fs_exec fst snd]. pose proof (renamed_sync a s1 Hr). by eauto.
Qed.

(** The outcome of a replacement: on success the destination durably has the new
    contents and the temporary is gone; on an error it has the old or the new ones. *)
Definition replaced (r : io_result unit) (s : fs) : Prop :=
  match r with
  | Ok _ => frame s /\ at_new s /\ exists a, entries s !! candidate a = None
  | Err _ => frame s /\ (at_old s \/ at_both s)
  | Panic => False
  end.

Lemma remove_temp a s v :
  replacing s -> (at_old s \/ at_both s) ->
  let s' := snd (fs_exec v s (RemoveFile (candidate a))) in
  replacing s' /\ frame s' /\ (at_old s' \/ at_both s').
Proof.
  intros Hr Ho. pose proof (candidate_ne a) as Hne. cbn.
  assert (replacing s /\ frame s /\ (at_old s \/ at_both s)) as Hsame
    by (split_and!; [done|apply Hr|done]).
  destruct (find s (candidate a)) as [[i n]|]; [|done].
  destruct (is_dir (file_type n)); [done|]. cbn.
  assert (frame (set_entries s (delete (candidate a) (entries s)))) as Hf.
  { apply frame_set_entries; [apply Hr|]. intros q H1 H2.
    rewrite lookup_delete_ne; [done|]. intros <-. apply H2. by exists a. }
  assert (at_old (set_entries s (delete (candidate a) (entries s))) \/
          at_both (set_entries s (delete (candidate a) (entries s)))) as Ho'.
  { destruct Ho as [Ho|Ho]; [left|right]; destruct Ho; split; cbn; try done;
      by rewrite lookup_delete_ne. }
  split_and!; [|done|done]. split; [done|]. tauto.
Qed.

Lemma commit_safe a chunks s :
  concat chunks = new -> writing a [] s ->
  safe replacing (commit (dir ++ [tname a]) (HFile ino) chunks dest dir) replaced s.
Proof.
  intros Hnew Hw. apply safe_bind.
  eapply safe_mono; [done| |by apply (commit_body_safe a chunks)].
  intros [[]|e|] s1; [|intros Hs1|done].
  { intros Hi. apply safe_ret; [by eauto|]. destruct Hi as (? & ? & ?). split_and!; eauto. }
  assert (replacing s1 /\ (at_old s1 \/ at_both s1)) as [Hr Ho].
  { destruct Hs1 as [[b Hb]|Hb]; (split; [by eauto|]); [left; apply Hb|right; apply Hb]. }
  apply safe_bind, safe_op; [done|..].
  - intros v m. cbn. destruct Hr. split; [split; tauto|]. split; [split; tauto|]. auto.
  - intros v. destruct (remove_temp a s1 v Hr Ho) as (H1 & H2 & H3). split; [done|].
    apply safe_ret; [done|]. by split.
Qed.

(** *** The contract *)

(** What the caller is told: a success is the new contents on stable storage. *)
Definition saved {Er A} (r : result Er A) (s : fs) : Prop :=
  match r with
  | Ok _ => frame s /\ at_new s
  | Err _ => replacing s
  | Panic => False
  end.

Lemma replaced_saved {Er} (g : io_error -> Er) r s : replaced r s -> replacing s /\ saved (map_err g r) s.
Proof.
  destruct r as [[]|e|]; cbn; [intros (Hf & Hn & _)|intros [Hf Ho]|done];
    unfold replacing; tauto.
Qed.

(** *** Undisturbed executions succeed *)

Lemma ensure_private_directory_calm complaint s :
  idle s ->
  exists s', run calm (ensure_private_directory_or complaint dir) [] s = (Ok tt, s') /\
    idle s' /\ entries s' = entries s.
Proof.
  intros Hs. destruct (frame_dir s (proj1 Hs))
    as (i & n & Hf & Ht & _).
  destruct (idle_set_permissions s calm MODE_0700 Hs)
    as (s' & E & Hs').
  exists s'. split_and!; [|done|].
  - unfold ensure_private_directory_or.
    rewrite (run_bind calm _ _ s (Ok (mk_metadata (file_type n) (mode n) (uid n) i)) s);
      [|rewrite run_trigger; cbn; by rewrite Hf].
    cbn [md_type]. rewrite Ht. cbn [is_dir negb].
    rewrite (run_bind calm _ _ s (Ok tt) s); [|done].
    by rewrite run_trigger.
  - cbn in E. unfold MAX_LINKS in E. cbn [resolve] in E. rewrite Hf, Ht in E. by injection E as <-.
Qed.

Lemma first_free_calm cand attempts a k s :
  (forall a, cand a = dir ++ [tname a]) ->
  idle s -> entries s !! (dir ++ [tname (a + Z.of_nat k)]) = None -> (k < attempts)%nat ->
  exists b s', run calm (first_free cand attempts a) [] s =
    (Ok (Some (dir ++ [tname b], HFile ino)), s') /\ writing b [] s'.
Proof.
  intros Hc. revert a k; induction attempts as [|attempts IH]; intros a k Hs Hk Hlt; [lia|].
  cbn [first_free]. rewrite (Hc a). fold (candidate a). unfold create_private_file.
  destruct (entries s !! candidate a) eqn:E.
  - erewrite run_bind with (a := Err already_exists) (s' := s); cycle 1.
    { rewrite run_trigger. cbn. by rewrite candidate_ok, E by apply Hs. }
    cbn. destruct k as [|k].
    { rewrite Z.add_0_r in Hk. fold (candidate a) in Hk. congruence. }
    apply (IH (a + 1) k); [done| |lia]. by replace (a + 1 + Z.of_nat k) with (a + Z.of_nat (S k)) by lia.
  - exists a, (add_inode s (candidate a) Regular MODE_0600).
    split; [|by apply idle_create].
    erewrite run_bind; cycle 1.
    { rewrite run_trigger. cbn. by rewrite candidate_ok, E by apply Hs. }
    destruct Hs as (_ & _ & ->). done.
Qed.

Lemma write_chunks_calm chunks a b s :
  writing a b s -> exists s',
    run calm (write_chunks (HFile ino) chunks) [] s = (Ok tt, s') /\
    writing a (b ++ concat chunks) s'.
Proof.
  revert b s; induction chunks as [|c chunks IH]; intros b s Hw; cbn [write_chunks concat].
  { rewrite app_nil_r. eauto. }
  destruct (writing_write a b c s Hw) as (s1 & E & Hw1).
  destruct (IH _ _ Hw1) as (s2 & E2 & Hw2). exists s2. split; [|by rewrite app_assoc].
  by rewrite (run_try_op calm _ _ s tt s1).
Qed.

Lemma commit_calm a chunks s :
  concat chunks = new -> writing a [] s -> exists s',
    run calm (commit (dir ++ [tname a]) (HFile ino) chunks dest dir) [] s = (Ok tt, s') /\
    frame s' /\ at_new s'.
Proof.
  intros Hnew Hw.
  destruct (write_chunks_calm chunks a [] s Hw) as (s1 & E1 & Hw1). cbn in Hw1. rewrite Hnew in Hw1.
  pose proof (writing_sync a s1 Hw1) as Hs.
  destruct (synced_rename a _ calm Hs) as (s2 & E2 & Hr).
  pose proof (renamed_sync a s2 Hr) as (Hf & Hn & _).
  exists (sync_handle s2 (HDir dir)). split; [|done]. unfold commit.
  rewrite (run_bind calm _ _ s (Ok tt) (sync_handle s2 (HDir dir))); [done|].
  unfold commit_body, sync_directory. rewrite (run_try calm _ _ _ _ _ E1).
  rewrite (run_try_op calm _ _ s1 tt (sync_handle s1 (HFile ino))) by done.
  rewrite (run_try_op calm _ _ _ tt s2) by exact E2.
  rewrite (run_try_op calm _ _ s2 (HDir dir) s2); [by rewrite run_trigger|].
  exact (open_dir_frame s2 calm (proj1 Hr)).
Qed.
End Replace.

(** The contract of the three [save] functions, for a program [p] that replaces the file
    [fname] of [dir], with contents [old], by [new], from [s0].  In every state that [p]
    can reach under any faults, and after a crash there: the file has the old or the new
    contents; every other durable file of the directory (the temporaries apart) keeps
    its own; and once [p] has reported success the file has the new contents, and is the
    owner's alone.  [p] does not panic. *)
Definition atomic_update {Er A} (dir : path) (fname : bytes) (tname : Z -> bytes)
    (s0 : fs) (old : option bytes) (new : bytes) (p : prog fsE (result Er A)) : Prop :=
  forall p' s s', reach p s0 p' s -> crash s s' ->
    (contents s' (dir ++ [fname]) = old \/ contents s' (dir ++ [fname]) = Some new) /\
    (forall c o, durable_file s0 dir c o -> c <> fname -> (forall a, c <> tname a) ->
       contents s' (dir ++ [c]) = o) /\
    (forall a, p' = Ret (Ok a) -> private_file s' (dir ++ [fname]) new) /\
    p' <> Ret Panic.

Lemma saved_atomic {Er A} dir fname tname s0 old new (p : prog fsE (result Er A)) :
  fs_wf s0 -> durable_file s0 dir fname old ->
  safe (replacing dir fname tname s0 new) p (saved dir fname tname s0 new) s0 ->
  atomic_update dir fname tname s0 old new p.
Proof.
  intros Hwf Hd Hsafe p' s s' Hr Hc. pose proof (safe_reach_inv _ _ _ _ _ _ Hsafe Hr) as Hi.
  split_and!.
  - by eapply replacing_crash.
  - intros c o Ho H1 H2. by eapply (replacing_other dir fname tname s0 old).
  - intros a ->. destruct (safe_reach_ret _ _ _ _ _ _ Hsafe Hr) as [Hf Hn].
    by eapply at_new_private.
  - intros ->. exact (safe_reach_ret _ _ _ _ _ _ Hsafe Hr).
Qed.

Lemma durable_contents s s' dir c o :
  fs_wf s -> durable_file s dir c o -> crash s s' -> contents s' (dir ++ [c]) = o.
Proof.
  intros Hwf Ho Hc. eapply (at_old_contents dir c (fun _ => []) s o); eauto.
  - by apply frame_refl.
  - by split.
Qed.

(** ** A concrete file system: the private directory [/k], empty *)

(** Whether a concrete file system is well-formed is decidable. *)
Lemma fs_wf_decide s :
  bool_decide (map_Forall (fun _ i => is_Some (inodes s !! i)) (entries s) /\
    map_Forall (fun _ i => is_Some (inodes s !! i)) (stable_entries s) /\
    map_Forall (fun i _ => i < next_ino s) (inodes s)) = true -> fs_wf s.
Proof.
  intros (H1 & H2 & H3)%bool_decide_eq_true. split; [intros p i [H|H]; eauto|]. intros i [n H]. eauto.
Qed.

Module EmptyDir.
Definition dir : path := [str "k"].
Definition state : fs :=
  mk_fs {[ dir := 1 ]} {[ dir := 1 ]} {[ 1 := mk_inode Directory MODE_0700 1000 [] [] ]} 2 0 1000.

Lemma state_wf : fs_wf state.
Proof.
  split; cbn.
  - intros p i [H|H]; apply lookup_singleton_Some in H as [_ <-]; by eexists.
  - intros i [n H]. apply lookup_singleton_Some in H as [<- _]. lia.
Qed.

Lemma absent c : durable_file state dir c None.
Proof.
  split_and!; [|done|].
  - intros q [<-|[<-|[]]]; split; by vm_compute.
  - cbn [entries state]. by rewrite lookup_singleton_ne.
Qed.
End EmptyDir.
