(* ===== verification/KeyStore.v ===== *)
(** The key store: crates/keyvisor-agent/src/lib.rs. *)

From Stdlib Require Import Sorted.
From S2P Require Import Prelude Bytes Text Core Tpm Effects FileSystem AtomicFile.

Definition MAGIC : bytes := str "KEYVSR" ++ [b8 0; b8 1].
Definition MAX_TEXT_LEN : Z := 4 * 1024.
Definition MAX_BLOB_LEN : Z := 1024 * 1024.

(** ** Data *)

Record StoredKey := mkStoredKey { summary : KeySummary; object : TpmObject }.

#[global] Instance StoredKey_eq_dec : EqDecision StoredKey.
Proof. solve_decision. Defined.

Inductive StoreError :=
  | Io (error : io_error)
  | InvalidRecord
  | RecordTooLarge.

#[global] Instance StoreError_eq_dec : EqDecision StoreError.
Proof. solve_decision. Defined.

(** [impl Display for StoreError]. *)
Definition StoreError_display (self : StoreError) : bytes :=
  match self with
  | Io error => str "key store I/O failed: " ++ message error
  | InvalidRecord => str "stored key metadata is invalid"
  | RecordTooLarge => str "stored key metadata exceeds its limit"
  end.

(** ** The record format *)

Definition validate_record (key : StoredKey) : result StoreError unit :=
  if is_empty (as_str (id (summary key)))
     || is_empty (name (summary key))
     || (MAX_TEXT_LEN <? len (as_str (id (summary key))))
     || (MAX_TEXT_LEN <? len (name (summary key)))
     || is_empty (public_key (summary key))
     || (MAX_BLOB_LEN <? len (public_key (summary key)))
     || is_empty (public (object key))
     || (MAX_BLOB_LEN <? len (public (object key)))
     || is_empty (wrapped_private (object key))
     || (MAX_BLOB_LEN <? len (wrapped_private (object key)))
     || is_empty (parent_name (object key))
     || (MAX_BLOB_LEN <? len (parent_name (object key)))
     || negb (bool_decide (use_policy (summary key) = object_use_policy (object key)))
  then Err InvalidRecord
  else Ok tt.

Definition push_bytes (output value : bytes) (limit : Z) : result StoreError bytes :=
  if limit <? len value then Err RecordTooLarge
  else
    length ← ok_or (u32_try_from (len value)) RecordTooLarge;
    let output := output ++ to_be 4 length in
    Ok (output ++ value).

Definition algorithm_tag (algorithm : KeyAlgorithm) : Z :=
  match algorithm with
  | EcdsaNistP256 => 1
  | EcdsaNistP384 => 2
  end.

Definition policy_tag (policy : KeyUsePolicy) : Z :=
  match policy with
  | NoPin => 1
  | TpmPin => 2
  end.

Definition read_policy (tag : Z) : result StoreError KeyUsePolicy :=
  if tag =? 1 then Ok NoPin
  else if tag =? 2 then Ok TpmPin
  else Err InvalidRecord.

Definition encode (key : StoredKey) : result StoreError bytes :=
  let output := MAGIC in
  output ← push_bytes output (as_str (id (summary key))) MAX_TEXT_LEN;
  output ← push_bytes output (name (summary key)) MAX_TEXT_LEN;
  let output := output ++ [b8 (algorithm_tag (algorithm (summary key)))] in
  let output := output ++ [b8 (policy_tag (use_policy (summary key)))] in
  output ← push_bytes output (public_key (summary key)) MAX_BLOB_LEN;
  output ← push_bytes output (public (object key)) MAX_BLOB_LEN;
  output ← push_bytes output (wrapped_private (object key)) MAX_BLOB_LEN;
  output ← push_bytes output (parent_name (object key)) MAX_BLOB_LEN;
  Ok output.

(** The readers take the cursor and return it advanced. *)
Definition take (input : bytes) (length : Z) : result StoreError (bytes * bytes) :=
  if len input <? length then Err InvalidRecord
  else split_at input length.

Definition take_byte (input : bytes) : result StoreError (Z * bytes) :=
  '(value, input) ← take input 1;
  byte ← index value 0;
  Ok (u8 byte, input).

Definition read_bytes (input : bytes) (limit : Z) : result StoreError (bytes * bytes) :=
  '(value, input) ← take input 4;
  length_bytes ← ok_or (array_of 4 value) InvalidRecord;
  length ← ok_or (usize_try_from (from_be length_bytes)) RecordTooLarge;
  if limit <? length then Err RecordTooLarge
  else take input length.

Definition read_text (input : bytes) : result StoreError (bytes * bytes) :=
  '(value, input) ← read_bytes input MAX_TEXT_LEN;
  text ← from_utf8 InvalidRecord value;
  Ok (text, input).

Definition decode (bytes : bytes) : result StoreError StoredKey :=
  let input := bytes in
  '(magic, input) ← take input (len MAGIC);
  if negb (bool_decide (magic = MAGIC)) then Err InvalidRecord
  else
    '(id, input) ← read_text input;
    '(name, input) ← read_text input;
    '(tag, input) ← take_byte input;
    algorithm ← (if tag =? 1 then Ok EcdsaNistP256
                 else if tag =? 2 then Ok EcdsaNistP384
                 else Err InvalidRecord);
    '(tag, input) ← take_byte input;
    use_policy ← read_policy tag;
    '(public_key, input) ← read_bytes input MAX_BLOB_LEN;
    '(public, input) ← read_bytes input MAX_BLOB_LEN;
    '(wrapped_private, input) ← read_bytes input MAX_BLOB_LEN;
    '(parent_name, input) ← read_bytes input MAX_BLOB_LEN;
    if negb (is_empty input) then Err InvalidRecord
    else
      let key := mkStoredKey
        (mkKeySummary (KeyId_new id) name algorithm use_policy public_key)
        (mkTpmObject public wrapped_private parent_name use_policy) in
      _ ← validate_record key;
      Ok key.

(** ** File names *)

Definition file_stem (id : KeyId) : bytes := as_str id ≫= hex_byte HEX.

Record KeyStore := mkKeyStore { directory : path }.

(** [KeyStore::new]. *)
Definition KeyStore_new (directory : path) : KeyStore := mkKeyStore directory.

Definition path_for (self : KeyStore) (id : KeyId) : path :=
  join (directory self) (file_stem id ++ str ".key").

(** ** Operations *)

Definition ensure_private_directory : path -> prog fsE (io_result unit) :=
  ensure_private_directory_or (str "key store path is not a directory").

(** The candidate temporary name of an attempt; [pid] is the process identifier. *)
Definition temporary_name (pid : Z) (id : KeyId) (attempt : Z) : bytes :=
  str "." ++ file_stem id ++ str "." ++ print_dec pid ++ str "." ++ print_dec attempt
    ++ str ".tmp".

Definition KeyStore_save (self : KeyStore) (pid : Z) (key : StoredKey) :
    prog fsE (result StoreError unit) :=
  _ ←? Ret (validate_record key);
  bytes ←? Ret (encode key);
  _ ←? map_err_prog Io (ensure_private_directory (directory self));
  let destination := path_for self (id (summary key)) in
  temporary ←? map_err_prog Io
    (first_free (fun attempt => join (directory self) (temporary_name pid (id (summary key)) attempt))
       100 0);
  '(temporary_path, file) ←? Ret (ok_or temporary
    (Io (mk_io_error AlreadyExists (str "could not allocate a temporary key record"))));
  map_err_prog Io (commit temporary_path file [bytes] destination (directory self)).

Definition KeyStore_load (self : KeyStore) (id : KeyId) : prog fsE (result StoreError StoredKey) :=
  bytes ←? map_err_prog Io (trigger (ReadFile (path_for self id)));
  Ret (decode bytes).

(** [str::cmp]: lexicographic on bytes. *)
Fixpoint bytes_le (a b : bytes) : bool :=
  match a, b with
  | [], _ => true
  | _ :: _, [] => false
  | x :: a, y :: b => if u8 x =? u8 y then bytes_le a b else u8 x <? u8 y
  end.

(** [sort_by], a stable sort. *)
Definition key_le (x y : StoredKey) : bool :=
  bytes_le (as_str (id (summary x))) (as_str (id (summary y))).
Fixpoint insert_key (x : StoredKey) (l : list StoredKey) : list StoredKey :=
  match l with
  | [] => [x]
  | y :: l => if key_le x y then x :: y :: l else y :: insert_key x l
  end.
Definition sort_keys (l : list StoredKey) : list StoredKey := foldr insert_key [] l.

(** The loop over directory entries. *)
Fixpoint list_entries (directory : path) (entries : list (io_result bytes))
    (keys : list StoredKey) : prog fsE (result StoreError (list StoredKey)) :=
  match entries with
  | [] => Ret (Ok keys)
  | entry :: entries =>
      entry ←? Ret (map_err Io entry);
      if negb (bool_decide (extension entry = Some (str "key"))) then
        list_entries directory entries keys
      else
        let path := join directory entry in
        metadata ←? map_err_prog Io (trigger (SymlinkMetadata path));
        if negb (is_file (md_type metadata)) then Ret (Err InvalidRecord)
        else
          bytes ←? map_err_prog Io (trigger (ReadFile path));
          key ←? Ret (decode bytes);
          list_entries directory entries (keys ++ [key])
  end.

Definition KeyStore_list (self : KeyStore) : prog fsE (result StoreError (list StoredKey)) :=
  r ← trigger (ReadDir (directory self));
  match r with
  | Ok entries =>
      keys ←? list_entries (directory self) entries [];
      Ret (Ok (sort_keys keys))
  | Err error =>
      if decide (kind error = NotFound) then Ret (Ok [])
      else Ret (Err (Io error))
  | Panic => Ret Panic
  end.

Definition KeyStore_delete (self : KeyStore) (id : KeyId) : prog fsE (result StoreError unit) :=
  if is_empty (as_str id) || (MAX_TEXT_LEN <? len (as_str id)) then Ret (Err InvalidRecord)
  else
    let path := path_for self id in
    metadata ←? map_err_prog Io (trigger (SymlinkMetadata path));
    if negb (is_file (md_type metadata)) then Ret (Err InvalidRecord)
    else
      _ ←? map_err_prog Io (trigger (RemoveFile path));
      _ ←? map_err_prog Io (sync_directory (directory self));
      Ret (Ok tt).

(** ** The record format, declaratively *)

(** The bounds of the fields. *)
Definition text_ok (s : bytes) : Prop := 1 <= len s <= MAX_TEXT_LEN.
Definition blob_ok (s : bytes) : Prop := 1 <= len s <= MAX_BLOB_LEN.

Record record_valid (key : StoredKey) : Prop := {
  rv_id : text_ok (as_str (id (summary key)));
  rv_name : text_ok (name (summary key));
  rv_public_key : blob_ok (public_key (summary key));
  rv_public : blob_ok (public (object key));
  rv_wrapped : blob_ok (wrapped_private (object key));
  rv_parent : blob_ok (parent_name (object key));
  rv_policy : use_policy (summary key) = object_use_policy (object key);
}.

(** The invariant of the Rust type: its strings are UTF-8. *)
Definition StoredKey_wf (key : StoredKey) : Prop := KeySummary_wf (summary key) = true.

(** The bytes of a record. *)
Definition layout (key : StoredKey) : bytes :=
  MAGIC ++ prefixed (as_str (id (summary key))) ++ prefixed (name (summary key)) ++
  [b8 (algorithm_tag (algorithm (summary key)))] ++
  [b8 (policy_tag (use_policy (summary key)))] ++
  prefixed (public_key (summary key)) ++ prefixed (public (object key)) ++
  prefixed (wrapped_private (object key)) ++ prefixed (parent_name (object key)).

(** ** Validation *)

Lemma validate_record_valid key : validate_record key = Ok tt <-> record_valid key.
Proof.
  unfold validate_record. rewrite !is_empty_len. split.
  - destruct (_ || _)%bool eqn:E; [done|]. intros _. bool_to_prop. case_bool_decide; [|done].
    split; unfold text_ok, blob_ok; try done; lia.
  - intros []. unfold text_ok, blob_ok in *.
    destruct (_ || _)%bool eqn:E; [|done]. exfalso.
    rewrite bool_decide_true in E by done. simpl in E. rewrite orb_false_r in E.
    rewrite !orb_true_iff, !Z.ltb_lt in E. lia.
Qed.

Lemma validate_record_cases key :
  validate_record key = Ok tt \/ validate_record key = Err InvalidRecord.
Proof. unfold validate_record. destruct (_ || _)%bool; auto. Qed.

(** ** Encoding *)

Lemma push_bytes_spec output value limit :
  limit <= u32_max ->
  push_bytes output value limit =
    if limit <? len value then Err RecordTooLarge else Ok (output ++ prefixed value).
Proof.
  intros Hl. unfold push_bytes. destruct (_ <? _) eqn:E; [done|].
  rewrite u32_try_from_small by bool_lia. cbn. unfold prefixed. by rewrite app_assoc.
Qed.

Lemma MAX_TEXT_LEN_u32 : MAX_TEXT_LEN <= u32_max.
Proof. done. Qed.
Lemma MAX_BLOB_LEN_u32 : MAX_BLOB_LEN <= u32_max.
Proof. done. Qed.
Create HintDb limits discriminated.
#[export] Hint Resolve MAX_TEXT_LEN_u32 MAX_BLOB_LEN_u32 : limits.

Lemma encode_Ok key b : encode key = Ok b -> b = layout key.
Proof.
  unfold encode, layout. intros H.
  repeat (apply bind_Ok_inv in H as (? & H1 & H);
    rewrite push_bytes_spec in H1 by auto with limits;
    destruct (_ <? len _); [discriminate H1|injection H1 as <-]).
  injection H as <-. by rewrite <- !app_assoc.
Qed.

Lemma encode_valid key : record_valid key -> encode key = Ok (layout key).
Proof.
  intros []. unfold encode, layout, text_ok, blob_ok in *.
  repeat (rewrite push_bytes_spec, (proj2 (Z.ltb_ge _ _)) by (auto with limits || lia);
    cbn [mbind result_bind]).
  by rewrite <- !app_assoc.
Qed.

(** ** Decoding *)

Lemma read_bytes_eq input limit :
  limit <= u32_max ->
  read_bytes input limit = prefixed_or InvalidRecord RecordTooLarge input limit.
Proof.
  intros Hl. unfold read_bytes, prefixed_or, u32_or.
  change (take input 4) with (take_or InvalidRecord input 4).
  destruct (take_or_cases InvalidRecord input 4) as [(v & i & E)|[E _]]; [lia|..]; rewrite E; [|done].
  apply take_or_Ok in E as [_ Hv]; [|lia]. cbn [mbind result_bind].
  unfold array_of. rewrite Hv. cbn.
  by rewrite usize_of_u32 by (by apply from_be_u32).
Qed.

Lemma read_bytes_app s k limit :
  len s <= limit -> limit <= u32_max -> read_bytes (prefixed s ++ k) limit = Ok (s, k).
Proof. intros. rewrite read_bytes_eq by done. by apply prefixed_or_app. Qed.

Lemma read_bytes_Ok input limit s rest :
  limit <= u32_max -> read_bytes input limit = Ok (s, rest) ->
  input = prefixed s ++ rest /\ len s <= limit.
Proof. intros ?. rewrite read_bytes_eq by done. apply prefixed_or_Ok. Qed.

(** The errors of the decoder. *)
Definition format_error (e : StoreError) : Prop := e = InvalidRecord \/ e = RecordTooLarge.

Lemma format_error_invalid : format_error InvalidRecord.
Proof. by left. Qed.
Lemma format_error_large : format_error RecordTooLarge.
Proof. by right. Qed.
#[local] Hint Resolve format_error_invalid format_error_large : fails.

Lemma read_bytes_fails input limit : limit <= u32_max -> fails_with format_error (read_bytes input limit).
Proof. intros. rewrite read_bytes_eq by done. apply prefixed_or_fails; auto with fails. Qed.

Lemma read_text_app s k :
  utf8_valid s = true -> len s <= MAX_TEXT_LEN -> read_text (prefixed s ++ k) = Ok (s, k).
Proof.
  intros Hu Hl. unfold read_text. rewrite read_bytes_app by auto with limits.
  cbn. unfold from_utf8. by rewrite Hu.
Qed.

Lemma read_text_Ok input s rest :
  read_text input = Ok (s, rest) ->
  input = prefixed s ++ rest /\ len s <= MAX_TEXT_LEN /\ utf8_valid s = true.
Proof.
  unfold read_text, from_utf8. intros ([v i] & Hr & H)%bind_Ok_inv.
  destruct (utf8_valid v) eqn:E; [|done]. injection H as <- <-.
  apply read_bytes_Ok in Hr as [-> ?]; auto with limits.
Qed.

Lemma read_text_fails input : fails_with format_error (read_text input).
Proof.
  apply fails_with_bind; [by apply read_bytes_fails; auto with limits|].
  intros [v i] _. unfold from_utf8. destruct (utf8_valid v); cbn; auto with fails.
Qed.

Lemma take_byte_cons b k : take_byte (b :: k) = Ok (u8 b, k).
Proof. unfold take_byte. by rewrite (take_or_app InvalidRecord [b] k : take (b :: k) 1 = _). Qed.

Lemma take_byte_Ok input z rest : take_byte input = Ok (z, rest) -> input = b8 z :: rest.
Proof.
  unfold take_byte. intros ([v i] & [-> Hv]%take_or_Ok & H)%bind_Ok_inv; [|lia].
  destruct v as [|b [|]]; [done| |unfold len in Hv; simpl in Hv; lia].
  cbn in H. injection H as <- <-. by rewrite b8_u8.
Qed.

Lemma take_byte_fails input : fails_with format_error (take_byte input).
Proof.
  destruct input as [|b k]; [by left|]. by rewrite take_byte_cons.
Qed.

Lemma read_policy_fails tag : fails_with format_error (read_policy tag).
Proof. unfold read_policy. auto with fails. Qed.

Lemma validate_record_fails key : fails_with format_error (validate_record key).
Proof. destruct (validate_record_cases key) as [-> | ->]; cbn; auto with fails. Qed.

#[local] Hint Resolve read_bytes_fails read_text_fails take_byte_fails read_policy_fails
  validate_record_fails MAX_TEXT_LEN_u32 MAX_BLOB_LEN_u32 : fails.

Lemma decode_layout key : record_valid key -> StoredKey_wf key -> decode (layout key) = Ok key.
Proof.
  intros Hv Hwf. pose proof Hv as [Hid Hn Hpk Hp Hw Hpa Hpol].
  unfold StoredKey_wf, KeySummary_wf, KeyId_wf in Hwf. apply andb_true_iff in Hwf as [Hu1 Hu2].
  unfold text_ok, blob_ok in *. unfold decode, layout.
  rewrite (take_or_app InvalidRecord MAGIC _ : take _ (len MAGIC) = _). cbn [mbind result_bind].
  rewrite bool_decide_true by done. cbn [negb].
  rewrite read_text_app by (done || lia). cbn [mbind result_bind].
  rewrite read_text_app by (done || lia). cbn [mbind result_bind].
  cbn [app]. rewrite take_byte_cons. cbn [mbind result_bind].
  assert ((if u8 (b8 (algorithm_tag (algorithm (summary key)))) =? 1 then Ok EcdsaNistP256
    else if u8 (b8 (algorithm_tag (algorithm (summary key)))) =? 2 then Ok EcdsaNistP384
    else Err InvalidRecord) = Ok (algorithm (summary key))) as -> by (by destruct (algorithm _)).
  cbn [mbind result_bind]. rewrite take_byte_cons. cbn [mbind result_bind].
  assert (read_policy (u8 (b8 (policy_tag (use_policy (summary key))))) =
    Ok (use_policy (summary key))) as -> by (by destruct (use_policy _)).
  cbn [mbind result_bind].
  do 3 (rewrite read_bytes_app by (auto with limits || lia); cbn [mbind result_bind]).
  rewrite <- (app_nil_r (prefixed (parent_name _))).
  rewrite read_bytes_app by (auto with limits || lia). cbn [mbind result_bind is_empty negb].
  assert (mkStoredKey (mkKeySummary (KeyId_new (as_str (id (summary key)))) (name (summary key))
    (algorithm (summary key)) (use_policy (summary key)) (public_key (summary key)))
    (mkTpmObject (public (object key)) (wrapped_private (object key)) (parent_name (object key))
      (use_policy (summary key))) = key) as ->.
  { clear -Hpol. destruct key as [[[] ? ? ? ?] []]. simpl in *. by subst. }
  by rewrite (proj2 (validate_record_valid key) Hv).
Qed.

Lemma algorithm_tag_read tag alg :
  (if tag =? 1 then Ok EcdsaNistP256
   else if tag =? 2 then Ok EcdsaNistP384
   else Err InvalidRecord) = Ok alg -> algorithm_tag alg = tag.
Proof.
  destruct (tag =? 1) eqn:E1; [|destruct (tag =? 2) eqn:E2; [|done]];
    intros [= <-]; bool_to_prop; by subst.
Qed.

Lemma policy_tag_read tag pol : read_policy tag = Ok pol -> policy_tag pol = tag.
Proof.
  unfold read_policy. destruct (tag =? 1) eqn:E1; [|destruct (tag =? 2) eqn:E2; [|done]];
    intros [= <-]; bool_to_prop; by subst.
Qed.

Lemma decode_Ok b key :
  decode b = Ok key -> b = layout key /\ record_valid key /\ StoredKey_wf key.
Proof.
  unfold decode.
  intros ([magic i0] & [-> _]%take_or_Ok & H)%bind_Ok_inv; [|apply len_nonneg].
  destruct (bool_decide _) eqn:Hm; [|done]. apply bool_decide_eq_true in Hm as ->. cbn [negb] in H.
  apply bind_Ok_inv in H as ([id' i1] & (-> & Hid & Hidu)%read_text_Ok & H).
  apply bind_Ok_inv in H as ([name' i2] & (-> & Hn & Hnu)%read_text_Ok & H).
  apply bind_Ok_inv in H as ([tag i3] & ->%take_byte_Ok & H).
  apply bind_Ok_inv in H as (alg & Halg & H).
  apply bind_Ok_inv in H as ([ptag i4] & ->%take_byte_Ok & H).
  apply bind_Ok_inv in H as (pol & Hpol & H).
  apply bind_Ok_inv in H as ([pk i5] & [-> Hpk]%read_bytes_Ok & H); [|auto with limits].
  apply bind_Ok_inv in H as ([pu i6] & [-> Hpu]%read_bytes_Ok & H); [|auto with limits].
  apply bind_Ok_inv in H as ([wr i7] & [-> Hwr]%read_bytes_Ok & H); [|auto with limits].
  apply bind_Ok_inv in H as ([pa i8] & [-> Hpa]%read_bytes_Ok & H); [|auto with limits].
  destruct i8; [|done]. cbn [is_empty negb] in H.
  apply bind_Ok_inv in H as ([] & Hval%validate_record_valid & H). injection H as <-.
  split_and!; [|done|by apply andb_true_iff].
  unfold layout; cbn. rewrite !app_nil_r. by rewrite (algorithm_tag_read _ _ Halg), (policy_tag_read _ _ Hpol).
Qed.

(** [C34] The record format is a bijection between the valid records and their encodings:
    a byte string decodes to [key] exactly when [key] passes validation, its strings are
    UTF-8, and [encode] produces that byte string.  So every saved record is read back
    unchanged, and nothing else is ever accepted as a record. *)
Theorem decode_iff_encode b key :
  decode b = Ok key <->
  validate_record key = Ok tt /\ StoredKey_wf key /\ encode key = Ok b.
Proof.
  rewrite validate_record_valid. split.
  - intros (-> & Hv & Hwf)%decode_Ok. by rewrite encode_valid.
  - intros (Hv & Hwf & E%encode_Ok). subst b. by apply decode_layout.
Qed.

Lemma decode_fails b : fails_with format_error (decode b).
Proof.
  unfold decode. apply fails_with_bind;
    [apply take_or_fails; [auto with fails|apply len_nonneg]|intros [magic i] _]; solve_fails.
Qed.

(** [C40] Decoding is total on host-controlled bytes: no input makes it panic or report an
    I/O error, and each failure is one of the two format errors. *)
Theorem decode_total b :
  match decode b with
  | Ok key => record_valid key
  | Err e => e = InvalidRecord \/ e = RecordTooLarge
  | Panic => False
  end.
Proof.
  pose proof (decode_fails b) as H.
  destruct (decode b) as [key|e|] eqn:E; [by apply decode_Ok in E as (_ & ? & _)|exact H..].
Qed.

(** ** The path of a record *)

Definition record_name (id : KeyId) : bytes := file_stem id ++ str ".key".

Lemma file_stem_hex id : file_stem id = hex_encode (as_str id).
Proof. done. Qed.

Lemma record_name_ok id : name_ok (record_name id).
Proof.
  unfold record_name. rewrite file_stem_hex. split_and!.
  - rewrite not_elem_of_app. split; [by apply hex_encode_not_elem|].
    by apply (bool_decide_unpack _).
  - by destruct (hex_encode _).
  - intros H%(f_equal last). by rewrite last_app in H.
Qed.

Lemma path_for_eq store id : path_for store id = directory store ++ [record_name id].
Proof. apply join_name, record_name_ok. Qed.

Lemma record_name_inj id id' : record_name id = record_name id' -> id = id'.
Proof.
  unfold record_name. rewrite !file_stem_hex. intros [H _]%app_inj_2; [|done].
  apply hex_encode_inj in H. destruct id, id'; simpl in *. by subst.
Qed.

Lemma record_name_extension id :
  as_str id <> [] -> extension (record_name id) = Some (str "key").
Proof.
  intros H. unfold record_name. rewrite file_stem_hex. apply (extension_app _ (str "key")); [|by apply (bool_decide_unpack _)|done].
  intros E. apply H, hex_encode_inj. by rewrite E.
Qed.

Lemma temporary_name_ok pid id a : name_ok (temporary_name pid id a).
Proof.
  unfold temporary_name. split_and!.
  - rewrite file_stem_hex, !not_elem_of_app. split_and!;
      try (by apply (bool_decide_unpack _)); first [by apply hex_encode_not_elem|by apply print_dec_not_elem].
  - done.
  - intros H%(f_equal last). rewrite !last_app in H. by simpl in H.
Qed.

Lemma temporary_name_not_record pid id a id' : temporary_name pid id a <> record_name id'.
Proof.
  intros H%(f_equal last). unfold temporary_name, record_name in H.
  rewrite !last_app in H. by simpl in H.
Qed.

Lemma temporary_name_extension pid id a : extension (temporary_name pid id a) <> Some (str "key").
Proof.
  unfold temporary_name. change (str ".tmp") with (dot :: str "tmp"). rewrite !app_assoc.
  by rewrite extension_app; [vm_compute; intros [=]|intros ?%(f_equal head)|apply (bool_decide_unpack _)|].
Qed.

Lemma temporary_path store pid id a :
  join (directory store) (temporary_name pid id a) = directory store ++ [temporary_name pid id a].
Proof. apply join_name, temporary_name_ok. Qed.

(** Whatever the identifier (it comes from the host, and can hold slashes or dots),
    its record is a direct child of the store's directory, with a plain file name, which
    [list] recognizes; and two identifiers never share a record. *)
Theorem path_for_confined store id :
  exists name, path_for store id = directory store ++ [name] /\ name_ok name /\
    (as_str id <> [] -> extension name = Some (str "key")) /\
    forall id', path_for store id' = path_for store id -> id' = id.
Proof.
  exists (record_name id). split_and!.
  - apply path_for_eq.
  - apply record_name_ok.
  - apply record_name_extension.
  - intros id'. rewrite !path_for_eq. intros [_ [= H]]%app_inj_2; [|done]. by apply record_name_inj.
Qed.

(** ** Saving *)

Section Save.
Context (store : KeyStore) (pid : Z) (key : StoredKey) (s0 : fs) (old : option bytes).

Let kid : KeyId := id (summary key).
Let dir : path := directory store.
Let fname : bytes := record_name kid.
Let tname : Z -> bytes := temporary_name pid kid.

Hypothesis dir_ne : dir <> [].
Hypothesis s0_wf : fs_wf s0.
Hypothesis dest_durable : durable_file s0 dir fname old.

Lemma temp_ne a : tname a <> fname.
Proof. apply temporary_name_not_record. Qed.

Lemma KeyStore_save_safe :
  record_valid key ->
  safe (replacing dir fname tname s0 (layout key)) (KeyStore_save store pid key)
    (saved dir fname tname s0 (layout key)) s0.
Proof.
  intros Hv. unfold KeyStore_save. rewrite (proj2 (validate_record_valid key) Hv).
  rewrite (encode_valid key Hv). cbn [try_bind mbind prog_bind].
  apply safe_try, safe_map_err.
  eapply safe_mono; [done| |by apply (ensure_private_directory_safe dir fname tname s0 old), idle_refl].
  intros r s1 [Hr Hs1]. split; [by apply idle_replacing|]. pose proof (idle_replacing _ _ _ _ (layout key) _ Hs1) as Hi.
  destruct r as [[]|e|]; cbn [map_err]; [|split; [exact Hi|]; cbn; exact Hi|done].
  apply safe_try, safe_map_err.
  eapply safe_mono; [done| |apply (first_free_safe dir fname tname s0 old);
    [apply temp_ne|done..|intros; apply temporary_path|done]].
  intros r s2 Hr2. clear s1 Hs1 Hi Hr.
  destruct r as [[[t h]|]|e|]; cbn [map_err ok_or try_bind mbind prog_bind]; [|..|done].
  - destruct Hr2 as (-> & a & -> & Hw). pose proof (writing_replacing _ _ _ _ (layout key) _ _ _ Hw) as Hi.
    split; [done|]. rewrite path_for_eq. apply safe_map_err.
    eapply safe_mono; [done| |apply (commit_safe dir fname tname s0 old); [exact dir_ne|apply temp_ne|exact s0_wf|exact dest_durable| |]].
    + intros r s. apply replaced_saved.
    + cbn. by rewrite app_nil_r.
    + exact Hw.
  - pose proof (idle_replacing _ _ _ _ (layout key) _ Hr2). split; [done|]. by apply safe_ret.
  - pose proof (idle_replacing _ _ _ _ (layout key) _ Hr2). by split.
Qed.

(** Nothing happens before validation. *)
Lemma KeyStore_save_invalid :
  ~ record_valid key -> KeyStore_save store pid key = Ret (Err InvalidRecord).
Proof.
  intros Hv. unfold KeyStore_save. destruct (validate_record_cases key) as [E|E]; rewrite E; [|done].
  by apply validate_record_valid in E.
Qed.
End Save.

(** ** The abstract store

    What a store directory means: a finite map from identifiers to records.  [save],
    [load], [list] and [delete] implement insertion, lookup, enumeration and deletion. *)

Definition well_keyed (m : gmap KeyId StoredKey) : Prop :=
  map_Forall (fun kid key => id (summary key) = kid /\ record_valid key /\ StoredKey_wf key) m.

(** The directory [dir] holds the map: now, or whatever happens to the machine. *)
Definition holds (s : fs) (dir : path) (m : gmap KeyId StoredKey) : Prop :=
  forall kid, contents s (dir ++ [record_name kid]) = layout <$> m !! kid.
Definition holds_durably (s : fs) (dir : path) (m : gmap KeyId StoredKey) : Prop :=
  forall kid, durable_file s dir (record_name kid) (layout <$> m !! kid).

Lemma holds_crash s s' dir m : fs_wf s -> holds_durably s dir m -> crash s s' -> holds s' dir m.
Proof. intros Hwf Hm Hc kid. eapply durable_contents; eauto. Qed.

Lemma holds_insert s dir m kid key :
  (forall kid', kid' <> kid -> contents s (dir ++ [record_name kid']) = layout <$> m !! kid') ->
  contents s (dir ++ [record_name kid]) = Some (layout key) ->
  holds s dir (<[kid := key]> m).
Proof.
  intros Ho Hk kid'. destruct (decide (kid' = kid)) as [->|Hne].
  - by rewrite lookup_insert_eq.
  - rewrite lookup_insert_ne by done. auto.
Qed.

Lemma KeyStore_save_atomic store pid key s0 old :
  record_valid key -> directory store <> [] -> fs_wf s0 ->
  durable_file s0 (directory store) (record_name (id (summary key))) old ->
  atomic_update (directory store) (record_name (id (summary key)))
    (temporary_name pid (id (summary key))) s0 old (layout key) (KeyStore_save store pid key).
Proof. intros. apply saved_atomic; auto. by apply (KeyStore_save_safe store pid key s0 old). Qed.

(** [save] as an operation on maps. *)
Lemma KeyStore_save_refines store pid key m s0 p s s' :
  directory store <> [] -> fs_wf s0 -> holds_durably s0 (directory store) m ->
  reach (KeyStore_save store pid key) s0 p s -> crash s s' ->
  (holds s' (directory store) m \/
   validate_record key = Ok tt /\ holds s' (directory store) (<[id (summary key) := key]> m)) /\
  (p = Ret (Ok tt) -> holds s' (directory store) (<[id (summary key) := key]> m)) /\
  p <> Ret Panic.
Proof.
  intros Hdir Hwf Hm Hr Hc. destruct (validate_record_cases key) as [Ev|Ev].
  - pose proof Ev as Hv%validate_record_valid.
    destruct (KeyStore_save_atomic store pid key s0 _ Hv Hdir Hwf (Hm _) p s s' Hr Hc)
      as (Hdest & Hother & Hok & Hp).
    assert (forall kid', kid' <> id (summary key) ->
      contents s' (directory store ++ [record_name kid']) = layout <$> m !! kid') as Ho.
    { intros kid' Hne. apply Hother; [apply Hm| |].
      - by intros ?%record_name_inj.
      - intros a E. by eapply temporary_name_not_record. }
    split_and!; [|intros E; eapply holds_insert; eauto; by eapply private_contents, Hok|done].
    destruct Hdest as [Hd|Hd]; [left|right; split; [done|eapply holds_insert; eauto]].
    intros kid'. destruct (decide (kid' = id (summary key))) as [->|]; auto.
  - assert (~ record_valid key) as Hv by (by intros E%validate_record_valid; congruence).
    rewrite (KeyStore_save_invalid store pid key Hv) in Hr.
    apply reach_ret_inv in Hr as [-> ->]. split_and!; [left; by eapply holds_crash|done..].
Qed.

(** [C15] [save] implements insertion, atomically and durably.  Whatever faults occur and
    wherever the execution stops, a crash leaves the directory holding either the old map
    or the map with the record inserted; when [save] has returned success it is the
    latter; and [save] never panics. *)
Theorem save_refines_insert store pid key m s0 p s s' :
  directory store <> [] -> fs_wf s0 -> holds_durably s0 (directory store) m ->
  reach (KeyStore_save store pid key) s0 p s -> crash s s' ->
  (holds s' (directory store) m \/
   validate_record key = Ok tt /\ holds s' (directory store) (<[id (summary key) := key]> m)) /\
  (p = Ret (Ok tt) -> holds s' (directory store) (<[id (summary key) := key]> m)) /\
  p <> Ret Panic.
Proof. apply KeyStore_save_refines. Qed.

(** ** Loading *)

Lemma load_contents store kid b s :
  contents s (path_for store kid) = Some b ->
  run calm (KeyStore_load store kid) [] s = (decode b, s).
Proof.
  intros (i & n & Hf & Ht & Hd)%contents_Some. unfold KeyStore_load.
  rewrite (run_try calm _ _ s b s); [done|]. apply run_map_err.
  rewrite run_trigger, <- Hd. exact (exec_read calm s _ i n Hf Ht).
Qed.

(** [load] implements lookup: a record of the map is returned whole, and an
    identifier that has no entry is reported as not found. *)
Theorem load_refines_lookup store kid m s :
  holds s (directory store) m -> well_keyed m ->
  match m !! kid with
  | Some key => run calm (KeyStore_load store kid) [] s = (Ok key, s)
  | None => find s (path_for store kid) = None ->
      run calm (KeyStore_load store kid) [] s = (Err (Io not_found), s)
  end.
Proof.
  intros Hm Hwk. pose proof (Hm kid) as Hk. rewrite <- path_for_eq in Hk.
  destruct (m !! kid) as [key|] eqn:E.
  - destruct (Hwk kid key E) as (_ & Hv & Hu). rewrite (load_contents _ _ (layout key)) by done.
    by rewrite decode_layout.
  - intros Hf. unfold KeyStore_load, try_bind, map_err_prog.
    rewrite (run_bind calm _ _ s (Err (Io not_found)) s); [done|].
    rewrite (run_bind calm _ _ s (Err not_found) s); [done|].
    rewrite run_trigger. exact (exec_read_absent calm s _ Hf).
Qed.

(** *** A store that is left alone saves *)

Section SaveSucceeds.
Context (store : KeyStore) (pid : Z) (key : StoredKey) (s0 : fs) (old : option bytes).

Let kid : KeyId := id (summary key).
Let dir : path := directory store.
Let fname : bytes := record_name kid.
Let tname : Z -> bytes := temporary_name pid kid.

Hypothesis dir_ne : dir <> [].
Hypothesis s0_wf : fs_wf s0.
Hypothesis dest_durable : durable_file s0 dir fname old.

Lemma KeyStore_save_calm k :
  record_valid key -> (k < 100)%nat -> entries s0 !! (dir ++ [tname (Z.of_nat k)]) = None ->
  exists s', run calm (KeyStore_save store pid key) [] s0 = (Ok tt, s').
Proof.
  intros Hv Hk Hfree. unfold KeyStore_save. rewrite (proj2 (validate_record_valid key) Hv).
  rewrite (encode_valid key Hv). cbn [try_bind mbind prog_bind].
  destruct (ensure_private_directory_calm dir fname tname s0 old dir_ne s0_wf dest_durable
    (str "key store path is not a directory") s0) as (s1 & E1 & Hs1 & He1); [by apply idle_refl|].
  rewrite (run_try calm _ _ s0 tt s1) by (by apply run_map_err).
  destruct (first_free_calm dir fname tname s0 old (temp_ne pid key) s0_wf dest_durable
    (fun attempt => join (directory store) (temporary_name pid (id (summary key)) attempt)) 100 0 k s1)
    as (b & s2 & E2 & Hw); [intros; apply temporary_path|done|by rewrite He1|done|].
  rewrite (run_try calm _ _ s1 (Some (dir ++ [tname b], HFile (next_ino s0))) s2)
    by (by apply run_map_err).
  cbn [ok_or try_bind mbind prog_bind].
  destruct (commit_calm dir fname tname s0 old (layout key) dir_ne (temp_ne pid key) s0_wf
    dest_durable b [layout key] s2) as (s3 & E3 & _); [cbn; by rewrite app_nil_r|done|].
  exists s3. apply run_map_err. by rewrite path_for_eq.
Qed.
End SaveSucceeds.

(** Saving succeeds and is read back.  When no operation fails and one of the
    hundred temporary names is free, [save] returns success for every valid record; and
    after every successful [save], whatever faults it went through and after a crash at
    that point, [load] returns the very record that was saved. *)
Theorem save_load_roundtrip store pid key m s0 :
  directory store <> [] -> fs_wf s0 -> holds_durably s0 (directory store) m ->
  validate_record key = Ok tt -> StoredKey_wf key ->
  (forall k, (k < 100)%nat ->
     entries s0 !! (directory store ++ [temporary_name pid (id (summary key)) (Z.of_nat k)]) = None ->
     exists s, run calm (KeyStore_save store pid key) [] s0 = (Ok tt, s)) /\
  (forall s s', reach (KeyStore_save store pid key) s0 (Ret (Ok tt)) s -> crash s s' ->
     run calm (KeyStore_load store (id (summary key))) [] s' = (Ok key, s')).
Proof.
  intros Hdir Hwf Hm Hv%validate_record_valid Hu. split.
  - intros k Hk Hfree. by eapply KeyStore_save_calm.
  - intros s s' Hr Hc.
    destruct (KeyStore_save_atomic store pid key s0 _ Hv Hdir Hwf (Hm _) _ s s' Hr Hc)
      as (_ & _ & Hok & _).
    rewrite (load_contents _ _ (layout key)); [by rewrite decode_layout|].
    rewrite path_for_eq. by eapply private_contents, Hok.
Qed.

(** ** Listing *)

Lemma bytes_le_total a b : bytes_le a b = true \/ bytes_le b a = true.
Proof.
  revert b; induction a as [|x a IH]; intros [|y b]; simpl; auto.
  rewrite (Z.eqb_sym (u8 y)). destruct (u8 x =? u8 y) eqn:E; [auto|].
  bool_to_prop. rewrite !Z.ltb_lt. lia.
Qed.

Lemma bytes_le_trans a b c : bytes_le a b = true -> bytes_le b c = true -> bytes_le a c = true.
Proof.
  revert b c; induction a as [|x a IH]; intros [|y b] [|z c]; simpl; try done.
  destruct (u8 x =? u8 y) eqn:E1, (u8 y =? u8 z) eqn:E2, (u8 x =? u8 z) eqn:E3;
    intros H1 H2; bool_to_prop; try (apply Z.ltb_lt); try lia. by eapply IH.
Qed.

#[local] Instance key_le_trans : Transitive (fun x y => key_le x y = true).
Proof. intros x y z. apply bytes_le_trans. Qed.

Definition sorted_keys : list StoredKey -> Prop := StronglySorted (fun x y => key_le x y = true).

Lemma insert_key_perm x l : insert_key x l ≡ₚ x :: l.
Proof.
  induction l as [|y l IH]; [done|]. simpl. destruct (key_le x y); [done|].
  rewrite IH. constructor.
Qed.

Lemma insert_key_sorted x l : sorted_keys l -> sorted_keys (insert_key x l).
Proof.
  induction 1 as [|y l Hl IH Hy]; simpl; [repeat constructor|].
  destruct (key_le x y) eqn:E.
  - repeat constructor; [done..|]. eapply Forall_impl; [exact Hy|]. intros z Hz. exact (bytes_le_trans _ _ _ E Hz).
  - constructor; [done|]. rewrite insert_key_perm. constructor; [|done].
    by destruct (bytes_le_total (as_str (id (summary x))) (as_str (id (summary y)))) as [H|H];
      [unfold key_le in E; congruence|].
Qed.

Lemma sort_keys_perm l : sort_keys l ≡ₚ l.
Proof. induction l as [|x l IH]; [done|]. simpl. by rewrite insert_key_perm, IH. Qed.

Lemma sort_keys_sorted l : sorted_keys (sort_keys l).
Proof. induction l; [constructor|]. by apply insert_key_sorted. Qed.

(** The record at a path. *)
Definition record_at (s : fs) (p : path) (key : StoredKey) : Prop :=
  exists b, contents s p = Some b /\ decode b = Ok key.

(** The entries that count as records. *)
Definition record_names (s : fs) (dir : path) : list bytes :=
  filter (fun name => extension name = Some (str "key")) (names_in s dir).

Definition names_ok (s : fs) (dir : path) : Prop := Forall name_ok (names_in s dir).

(** What a loop over [entries] reports, having accumulated [keys]. *)
Definition listed (s : fs) (dir : path) (entries : list (io_result bytes)) (keys : list StoredKey)
    (r : result StoreError (list StoredKey)) : Prop :=
  match r with
  | Ok ks => exists names found, entries = Ok <$> names /\ ks = keys ++ found /\
      Forall2 (fun name key => record_at s (dir ++ [name]) key)
        (filter (fun name => extension name = Some (str "key")) names) found
  | Err (Io _) => True
  | Err _ => exists name, Ok name ∈ entries /\ extension name = Some (str "key") /\
      forall key, ~ record_at s (dir ++ [name]) key
  | Panic => False
  end.

Lemma listed_skip s dir name entries keys r :
  extension name <> Some (str "key") -> listed s dir entries keys r ->
  listed s dir (Ok name :: entries) keys r.
Proof.
  intros Hn. destruct r as [ks|[]|]; cbn; try done.
  - intros (names & found & -> & -> & H). exists (name :: names), found.
    split_and!; [done..|]. by rewrite filter_cons_False.
  - intros (n & ? & ?). exists n. split; [by right|done].
  - intros (n & ? & ?). exists n. split; [by right|done].
Qed.

Lemma listed_record s dir name entries keys key r :
  extension name = Some (str "key") -> record_at s (dir ++ [name]) key ->
  listed s dir entries (keys ++ [key]) r -> listed s dir (Ok name :: entries) keys r.
Proof.
  intros Hn Hk. destruct r as [ks|[]|]; cbn; try done.
  - intros (names & found & -> & -> & H). exists (name :: names), (key :: found).
    split_and!; [done|by rewrite <- app_assoc|]. rewrite filter_cons_True by done. by constructor.
  - intros (n & ? & ?). exists n. split; [by right|done].
  - intros (n & ? & ?). exists n. split; [by right|done].
Qed.

Lemma listed_bad s dir name entries keys e :
  extension name = Some (str "key") -> (forall key, ~ record_at s (dir ++ [name]) key) ->
  listed s dir (Ok name :: entries) keys (Err e).
Proof. intros Hn Hb. destruct e; [done|exists name; split; [left|done]..]. Qed.

Lemma list_entries_safe dir entries keys s :
  Forall (fun e => match e with Ok n => name_ok n | Err _ => True | Panic => False end) entries ->
  safe (fun s' => s' = s) (list_entries dir entries keys)
    (fun r s' => s' = s /\ listed s dir entries keys r) s.
Proof.
  intros H. revert keys. induction H as [|e entries He _ IH]; intros keys; cbn [list_entries].
  { apply safe_ret; [done|]. split; [done|]. exists [], []. split_and!; [done| |constructor]. by rewrite app_nil_r. }
  destruct e as [name|e|]; cbn [map_err try_bind mbind prog_bind]; [|by apply safe_ret|done].
  case_bool_decide as Hn; cbn [negb]; cycle 1.
  { eapply safe_mono; [| |apply IH]; [done|]. intros r s' [-> Hr]. split; [done|]. by apply listed_skip. }
  rewrite join_name by done.
  apply safe_try, safe_map_err, safe_op; [done|intros v m; cbn; by split_and!|]. intros v.
  cbn [fs_exec]. destruct (find s (dir ++ [name])) as [[i n]|] eqn:Hf; [|by split_and!].
  cbn [fst snd map_err md_type]. split; [done|]. split; [done|].
  destruct (is_file (file_type n)) eqn:Ht; cbn [negb]; cycle 1.
  { apply safe_ret; [done|]. split; [done|]. apply listed_bad; [done|].
    intros key (b & Hb & _). unfold contents in Hb. by rewrite Hf, Ht in Hb. }
  assert (file_type n = Regular) as Hreg by (by destruct (file_type n)).
  apply safe_try, safe_map_err, safe_op; [done|intros w m; cbn; by split_and!|]. intros w.
  rewrite (exec_read w s _ i n) by done. cbn [fst snd map_err]. split; [done|]. split; [done|].
  assert (contents s (dir ++ [name]) = Some (data n)) as Hc by (apply contents_Some; eauto).
  pose proof (decode_fails (data n)) as Hd.
  destruct (decode (data n)) as [key|e|] eqn:E; cbn [try_bind mbind prog_bind]; [|..|done].
  - eapply safe_mono; [| |apply IH]; [done|]. intros r s' [-> Hr]. split; [done|].
    eapply listed_record; [done| |done]. by exists (data n).
  - apply safe_ret; [done|]. split; [done|]. apply listed_bad; [done|].
    intros key (b & Hb & Hk). congruence.
Qed.

Lemma KeyStore_list_safe store s :
  names_ok s (directory store) ->
  safe (fun s' => s' = s) (KeyStore_list store)
    (fun r s' => s' = s /\
       match r with
       | Ok keys => sorted_keys keys /\
           ((find s (directory store) = None /\ keys = []) \/
            exists names found, names ≡ₚ record_names s (directory store) /\ found ≡ₚ keys /\
              Forall2 (fun name key => record_at s (directory store ++ [name]) key) names found)
       | Err (Io _) => True
       | Err _ => exists name, name ∈ record_names s (directory store) /\
           forall key, ~ record_at s (directory store ++ [name]) key
       | Panic => False
       end) s.
Proof.
  intros Hok. set (dir := directory store) in *. apply safe_bind.
  assert (forall v, fs_exec v s (ReadDir dir) =
    (if dir_at s dir && parents_ok s dir then Ok (dir_listing v (names_in s dir))
     else match find s dir with None => Err not_found | Some _ => Err not_a_directory end, s)) as Hex.
  { intros v. cbn [fs_exec]. destruct (_ && _); [done|]. by destruct (find s dir). }
  apply safe_op; [done|intros v m; split; [done|]; apply safe_ret; [done|]; split; done|].
  intros v. rewrite Hex. cbn [fst snd]. split; [done|].
  destruct (dir_at s dir && parents_ok s dir); cycle 1.
  { destruct (find s dir); [by apply safe_ret|]. apply safe_ret; [done|]. split; [done|].
    split; [constructor|by left]. }
  apply safe_try.
  assert (exists order, order ≡ₚ names_in s dir /\
    exists k, dir_listing v (names_in s dir) = (Ok <$> order) \/
      exists m, dir_listing v (names_in s dir) = (Ok <$> firstn k order) ++ [Err (mk_io_error OtherKind m)])
    as (order & Hperm & k & Hl).
  { unfold dir_listing. exists (if decide (order v ≡ₚ names_in s dir) then order v else names_in s dir).
    split; [by case_decide|]. exists (partial v). destruct (fault v); [right; by eexists|by left]. }
  assert (Forall name_ok order) as Hok' by (by rewrite Hperm).
  assert (forall name, Ok name ∈ dir_listing v (names_in s dir) -> name ∈ names_in s dir) as Hnames.
  { intros name. rewrite <- Hperm at 2. destruct Hl as [->|[m ->]].
    - intros (? & [= <-] & ?)%list_elem_of_fmap. done.
    - intros [(? & [= <-] & ?)%list_elem_of_fmap|[=]%list_elem_of_singleton]%elem_of_app.
      by eapply subseteq_take. }
  eapply safe_mono; [| |apply list_entries_safe]; [done|..].
  - intros r s' [-> Hr]. destruct r as [ks|e|]; [|split; [done|]; split; [done|]..|done].
    + apply safe_ret; [done|]. split; [done|]. split; [apply sort_keys_sorted|]. right.
      destruct Hr as (names & found & He & -> & Hr).
      assert (names = order) as ->.
      { destruct Hl as [Hl|[m Hl]]; rewrite Hl in He.
        - symmetry. by apply (inj (fmap (Ok (E:=io_error)))) in He.
        - exfalso. assert (Err (mk_io_error OtherKind m) ∈ (Ok <$> names : list (io_result bytes))) as Hin.
          { rewrite <- He. apply elem_of_app. right. left. }
          apply list_elem_of_fmap in Hin as (? & [=] & _). }
      eexists _, _. split_and!; [|symmetry; apply sort_keys_perm|exact Hr].
      unfold record_names. by rewrite Hperm.
    + destruct e; [done|..]; destruct Hr as (name & Hin & Hn & Hb); exists name;
        (split; [|done]); apply list_elem_of_filter; auto.
  - destruct Hl as [Hl|[m Hl]]; rewrite Hl; [|apply Forall_app; split; [|by repeat constructor]];
      apply Forall_fmap; [done|]. by apply Forall_take.
Qed.

(** No state of the file system makes [list] panic. *)
Lemma total_list_entries dir entries keys :
  Forall (fun e => e <> Panic) entries -> total (list_entries dir entries keys).
Proof.
  intros H. revert keys. induction H as [|e entries He _ IH]; intros keys; cbn [list_entries]; [by apply total_ret|].
  apply total_try; [apply total_ret; by destruct e|]. intros name. case_bool_decide; cbn [negb]; [|apply IH].
  apply total_try; [auto with total|]. intros md. destruct (is_file _); cbn [negb]; [|by apply total_ret].
  apply total_try; [auto with total|]. intros b. apply total_try; [|intros key; apply IH].
  apply total_ret. pose proof (decode_fails b). by destruct (decode b).
Qed.

Lemma total_list store : total (KeyStore_list store).
Proof.
  apply (total_bind _ _ (answer_ok (ReadDir (directory store)))); [apply safe_answer_ok|].
  intros [l|e|] H; [|destruct (decide _); by apply total_ret|done].
  apply total_try; [by apply total_list_entries|]. intros keys. by apply total_ret.
Qed.

(** [list] fails closed.  Whatever order and faults the directory scan meets, it
    changes nothing, and its answer is either every record of the directory, decoded and
    in identifier order, or an error; it never skips an entry that claims to be a record.
    An error other than an I/O error names a real cause: such an entry is not a regular
    file or does not decode. *)
Theorem list_fail_closed store s r s' :
  names_ok s (directory store) ->
  reach (KeyStore_list store) s (Ret r) s' ->
  s' = s /\
  match r with
  | Ok keys => sorted_keys keys /\
      ((find s (directory store) = None /\ keys = []) \/
       exists names found, names ≡ₚ record_names s (directory store) /\ found ≡ₚ keys /\
         Forall2 (fun name key => record_at s (directory store ++ [name]) key) names found)
  | Err (Io _) => True
  | Err _ => exists name, name ∈ record_names s (directory store) /\
      forall key, ~ record_at s (directory store ++ [name]) key
  | Panic => False
  end.
Proof. intros Hok Hr. exact (safe_reach_ret _ _ _ _ _ _ (KeyStore_list_safe store s Hok) Hr). Qed.

Section ListRefines.
Context (store : KeyStore) (m : gmap KeyId StoredKey) (s : fs).

Let dir : path := directory store.

Hypothesis dir_exists : exists i n, find s dir = Some (i, n) /\ file_type n = Directory.
Hypothesis m_keyed : well_keyed m.
Hypothesis m_held : holds s dir m.
Hypothesis s_names : names_ok s dir.
Hypothesis only_records : forall name, name ∈ record_names s dir ->
  exists kid, is_Some (m !! kid) /\ name = record_name kid.

Lemma record_at_held name key :
  name ∈ record_names s dir -> record_at s (dir ++ [name]) key ->
  name = record_name (id (summary key)) /\ m !! id (summary key) = Some key.
Proof.
  intros (kid & [key' Hk] & ->)%only_records (b & Hb & Hd).
  rewrite (m_held kid), Hk in Hb. injection Hb as <-.
  destruct (m_keyed kid key' Hk) as (<- & Hv & Hu). rewrite decode_layout in Hd by done.
  by injection Hd as <-.
Qed.

Lemma held_record kid key :
  m !! kid = Some key ->
  record_name kid ∈ record_names s dir /\ record_at s (dir ++ [record_name kid]) key.
Proof.
  intros Hk. destruct (m_keyed kid key Hk) as (<- & Hv & Hu).
  pose proof (m_held (id (summary key))) as Hc. rewrite Hk in Hc. cbn in Hc. split.
  - apply list_elem_of_filter. split.
    + apply record_name_extension. intros E. pose proof (rv_id _ Hv) as [H _]. rewrite E in H. by apply H.
    + apply names_in_elem. apply contents_Some in Hc as (i & n & Hf & _).
      apply find_Some in Hf as (_ & -> & _). by eexists.
  - exists (layout key). split; [done|]. by apply decode_layout.
Qed.

Lemma listed_elements names found :
  names ≡ₚ record_names s dir ->
  Forall2 (fun name key => record_at s (dir ++ [name]) key) names found ->
  found ≡ₚ (map_to_list m).*2.
Proof.
  intros Hn Hf.
  assert (names = (fun key => record_name (id (summary key))) <$> found) as ->.
  { assert (Forall (fun name => name ∈ record_names s dir) names) as Hall
      by (apply Forall_forall; intros ?; by rewrite Hn).
    clear Hn. induction Hf as [|name key names found Hk Hf IH]; [done|].
    inversion Hall; subst. cbn. f_equal; [by apply record_at_held|by apply IH]. }
  apply NoDup_Permutation.
  - apply (NoDup_fmap_1 (fun key => record_name (id (summary key)))). rewrite Hn.
    apply NoDup_filter, names_in_NoDup.
  - apply (NoDup_fmap_1 (fun key => id (summary key))).
    rewrite <- list_fmap_compose. rewrite (list_fmap_ext _ fst); [apply NoDup_fst_map_to_list|].
    intros i [kid key] Hi%list_elem_of_lookup_2. cbn. apply elem_of_map_to_list in Hi.
    by destruct (m_keyed kid key Hi).
  - intros key. rewrite list_elem_of_fmap. split.
    + intros Hin. exists (id (summary key), key). split; [done|]. apply elem_of_map_to_list.
      apply list_elem_of_lookup in Hin as [i Hi].
      destruct (Forall2_lookup_r _ _ _ _ _ Hf Hi) as (name & Hl & Hk).
      apply (record_at_held name); [|done]. rewrite <- Hn. by eapply list_elem_of_lookup_2.
    + intros ([kid key'] & -> & Hin). apply elem_of_map_to_list in Hin. cbn.
      destruct (held_record kid key' Hin) as [Hr (b & Hb & Hd)]. rewrite <- Hn in Hr.
      apply list_elem_of_lookup in Hr as [i Hi].
      destruct (Forall2_lookup_l _ _ _ _ _ Hf Hi) as (key & Hl & (b' & Hb' & Hd')).
      assert (key' = key) as -> by congruence. by eapply list_elem_of_lookup_2.
Qed.

Lemma list_entries_calm names keys :
  Forall (fun name => name ∈ names_in s dir) names ->
  exists ks, run calm (list_entries dir (Ok <$> names) keys) [] s = (Ok ks, s).
Proof.
  intros H. revert keys. induction H as [|name names Hin _ IH]; intros keys; [by eexists|].
  cbn [fmap list_fmap list_entries map_err try_bind mbind prog_bind].
  case_bool_decide as Hn; cbn [negb]; [|apply IH].
  rewrite join_name by (by eapply Forall_forall in s_names).
  assert (name ∈ record_names s dir) as Hr by (by apply list_elem_of_filter).
  destruct (only_records name Hr) as (kid & [key Hk] & ->).
  destruct (held_record kid key Hk) as [_ (b & (i & n & Hf & Ht & Hd)%contents_Some & Hdec)].
  rewrite (run_try calm _ _ s (mk_metadata (file_type n) (mode n) (uid n) i) s);
    [|apply run_map_err; rewrite run_trigger; cbn; by rewrite Hf].
  cbn [md_type]. rewrite Ht. cbn [is_file negb].
  rewrite (run_try calm _ _ s b s);
    [|apply run_map_err; rewrite run_trigger, <- Hd; exact (exec_read calm s _ i n Hf Ht)].
  rewrite Hdec. cbn [try_bind mbind prog_bind]. apply IH.
Qed.

Lemma KeyStore_list_calm v :
  fault v = None -> exists keys, run calm (KeyStore_list store) [v] s = (Ok keys, s).
Proof.
  intros Hv. destruct dir_exists as (i & n & Hf & Ht).
  apply find_Some in Hf as (Hp & He & Hi).
  assert (dir_at s dir = true) as Hd.
  { unfold dir_at, inode_at. destruct dir; [done|]. rewrite He. cbn. by rewrite Hi, Ht. }
  assert (exec v s (ReadDir dir) = (Ok (Ok <$> if decide (order v ≡ₚ names_in s dir)
    then order v else names_in s dir), s)) as Hex.
  { unfold exec, fs_handler. rewrite Hv. cbn [fs_exec]. rewrite Hd, Hp.
    unfold dir_listing. by rewrite Hv. }
  unfold KeyStore_list. cbn [mbind prog_bind trigger run tail]. fold dir. rewrite Hex.
  destruct (list_entries_calm (if decide (order v ≡ₚ names_in s dir) then order v else names_in s dir) [])
    as [ks Hks].
  { case_decide as E; apply Forall_forall; intros name; [by rewrite E|done]. }
  exists (sort_keys ks). by rewrite (run_try calm _ _ s ks s).
Qed.
End ListRefines.

Lemma KeyStore_list_refines store m s :
  well_keyed m -> holds s (directory store) m -> names_ok s (directory store) ->
  (forall name, name ∈ record_names s (directory store) ->
     exists kid, is_Some (m !! kid) /\ name = record_name kid) ->
  safe (fun s' => s' = s) (KeyStore_list store)
    (fun r s' => s' = s /\
       match r with
       | Ok keys => sorted_keys keys /\ (keys = [] /\ find s (directory store) = None \/ keys ≡ₚ (map_to_list m).*2)
       | Err e => exists error, e = Io error
       | Panic => False
       end) s.
Proof.
  intros Hwk Hm Hn Honly. eapply safe_mono; [..|exact (KeyStore_list_safe store s Hn)]; [done|].
  intros r s' [-> H]. split; [done|].
  assert (~ exists name, name ∈ record_names s (directory store) /\
    forall key, ~ record_at s (directory store ++ [name]) key) as Hbad.
  { intros (name & Hin & Hbad). destruct (Honly name Hin) as (kid & [key Hk] & ->).
    destruct (held_record store m s Hwk Hm kid key Hk) as [_ H']. by apply (Hbad key). }
  destruct r as [keys|e|]; [|by destruct e; [eexists|..]|done].
  destruct H as [Hs [[Hf ->]|(names & found & Hnames & Hk & H2)]]; (split; [done|]); [by left|right].
  rewrite <- Hk. by eapply listed_elements.
Qed.

(** [C29] [list] implements enumeration: when the directory holds the map [m], and its
    [.key] entries are those of [m], every answer of [list] is exactly the records of [m]
    in identifier order (or an I/O error, under faults); without faults it answers, in
    whatever order the directory is scanned. *)
Theorem list_refines_elements store m s :
  (exists i n, find s (directory store) = Some (i, n) /\ file_type n = Directory) ->
  well_keyed m -> holds s (directory store) m -> names_ok s (directory store) ->
  (forall name, name ∈ record_names s (directory store) ->
     exists kid, is_Some (m !! kid) /\ name = record_name kid) ->
  (forall v, fault v = None -> exists keys, run calm (KeyStore_list store) [v] s = (Ok keys, s)) /\
  forall r s', reach (KeyStore_list store) s (Ret r) s' ->
    s' = s /\
    match r with
    | Ok keys => sorted_keys keys /\ keys ≡ₚ (map_to_list m).*2
    | Err e => exists error, e = Io error
    | Panic => False
    end.
Proof.
  intros Hdir Hwk Hm Hn Honly. split; [intros v Hv; by eapply KeyStore_list_calm|].
  intros r s' Hr. pose proof (safe_reach_ret _ _ _ _ _ _ (KeyStore_list_refines store m s Hwk Hm Hn Honly) Hr) as [-> H].
  split; [done|]. destruct r as [keys|e|]; [|done..]. destruct H as [Hs [[_ Hf]|H]]; [|done].
  destruct Hdir as (? & ? & ? & _). congruence.
Qed.

(** ** Deleting *)

Section Delete.
Context (store : KeyStore) (kid : KeyId) (s0 : fs) (old : option bytes).

Let dir : path := directory store.
Let fname : bytes := record_name kid.
Let tname : Z -> bytes := fun _ => fname.
Let dest : path := dir ++ [fname].

Hypothesis dir_ne : dir <> [].
Hypothesis s0_wf : fs_wf s0.
Hypothesis dest_durable : durable_file s0 dir fname old.

(** The entry is removed: from the running system, and from stable storage. *)
Definition unlinked (s : fs) : Prop :=
  frame dir fname tname s0 s /\ entries s !! dest = None /\
  (stable_entries s !! dest = entries s0 !! dest \/ stable_entries s !! dest = None).
Definition deleted (s : fs) : Prop :=
  frame dir fname tname s0 s /\ entries s !! dest = None /\ stable_entries s !! dest = None.
Definition deleting (s : fs) : Prop := s = s0 \/ unlinked s.

Lemma unlink_unlinked : unlinked (set_entries s0 (delete dest (entries s0))).
Proof.
  split_and!.
  - apply frame_set_entries; [by apply frame_refl|].
    intros q Hq _. by rewrite lookup_delete_ne by done.
  - cbn. apply lookup_delete_eq.
  - left. cbn. by destruct dest_durable as (_ & ? & _).
Qed.

Lemma unlinked_sync s : unlinked s -> deleted (sync_handle s (HDir dir)).
Proof.
  intros (Hf & He & _). split_and!; [by apply frame_sync_dir|done|].
  rewrite stable_sync_dir, decide_True; [done|]. apply parent_snoc.
Qed.

Lemma deleted_unlinked s : deleted s -> unlinked s.
Proof. intros (? & ? & ?). split_and!; auto. Qed.

Lemma deleting_dest s s' :
  deleting s -> crash s s' -> contents s' dest = old \/ contents s' dest = None.
Proof.
  intros [->|(Hf & He & Hs)] Hc; [left; by eapply durable_contents|].
  destruct (crash_entry _ _ Hc dest) as [E|E]; [right; apply contents_absent; congruence|].
  destruct Hs as [Hs|Hs]; [left|right; apply contents_absent; congruence].
  eapply (durable_crash dir fname tname s0 old); eauto. exact (eq_trans E Hs).
Qed.

Lemma deleted_dest s s' : deleted s -> crash s s' -> contents s' dest = None.
Proof.
  intros (_ & He & Hs) Hc. apply contents_absent. destruct (crash_entry _ _ Hc dest); congruence.
Qed.

Lemma deleting_other s s' c o :
  deleting s -> crash s s' -> durable_file s0 dir c o -> c <> fname -> contents s' (dir ++ [c]) = o.
Proof.
  intros Hd Hc Ho Hne. destruct Hd as [->|(Hf & _)]; [by eapply durable_contents|].
  assert (dir ++ [c] <> dir ++ [fname]) as H1 by (intros [_ [=]]%app_inj_2; done).
  assert (~ is_temp dir tname (dir ++ [c])) as H2 by (by intros [a ?]).
  eapply (frame_keeps dir fname tname s0 old); eauto using fr_entries, fr_stable.
Qed.

Lemma KeyStore_delete_safe :
  safe deleting (KeyStore_delete store kid)
    (fun r s => match r with
                | Ok _ => deleted s
                | Err _ => True
                | Panic => False
                end) s0.
Proof.
  unfold KeyStore_delete. destruct (_ || _)%bool; [by apply safe_ret; [left|]|].
  rewrite path_for_eq. fold dir fname dest.
  apply safe_try, safe_map_err, safe_op; [by left|intros v e; cbn; split_and!; by (left || done)|].
  intros v. cbn [fs_exec]. destruct (find s0 dest) as [[i n]|] eqn:Hf;
    [|cbn; split_and!; by (left || done)].
  cbn [fst snd map_err md_type]. split; [by left|]. split; [by left|].
  destruct (is_file (file_type n)) eqn:Ht; cbn [negb]; [|by apply safe_ret; [left|]].
  apply safe_try, safe_map_err, safe_op; [by left|intros w e; cbn; split_and!; by (left || done)|].
  intros w. cbn [fs_exec]. rewrite Hf.
  assert (is_dir (file_type n) = false) as -> by (by destruct (file_type n)). cbn [fst snd map_err].
  pose proof unlink_unlinked as Hu. revert Hu. generalize (set_entries s0 (delete dest (entries s0))).
  intros s1 Hu. assert (deleting s1) as Hd by (by right). do 2 (split; [done|]).
  apply safe_try, safe_map_err, safe_try, safe_op; [done|intros ? e; cbn; by split_and!|].
  intros ?. rewrite (open_dir_frame dir fname tname s0 old dir_ne s0_wf dest_durable) by apply Hu.
  cbn [fst snd]. split; [done|].
  apply safe_op; [done|intros ? e; cbn; by split_and!|]. intros ?. cbn [fs_exec fst snd map_err].
  pose proof (unlinked_sync s1 Hu) as Hx. assert (deleting (sync_handle s1 (HDir dir))) by
    (right; by apply deleted_unlinked). by split_and!.
Qed.

Lemma KeyStore_delete_calm b :
  old = Some b -> text_ok (as_str kid) ->
  exists s', run calm (KeyStore_delete store kid) [] s0 = (Ok tt, s').
Proof.
  intros Hb [Hl1 Hl2]. exists (sync_handle (set_entries s0 (delete dest (entries s0))) (HDir dir)).
  unfold KeyStore_delete. rewrite is_empty_len.
  rewrite (proj2 (Z.ltb_ge _ _)), (proj2 (Z.ltb_ge _ _)) by lia. cbn [orb].
  rewrite path_for_eq. fold dir fname dest.
  assert (contents s0 dest = Some b) as (i & n & Hf & Ht & _)%contents_Some.
  { rewrite <- Hb. eapply durable_contents; eauto. apply crash_refl. }
  rewrite (run_try calm _ _ s0 (mk_metadata (file_type n) (mode n) (uid n) i) s0);
    [|apply run_map_err; rewrite run_trigger; cbn; by rewrite Hf].
  cbn [md_type]. rewrite Ht. cbn [is_file negb].
  rewrite (run_try calm _ _ s0 tt (set_entries s0 (delete dest (entries s0))));
    [|apply run_map_err; rewrite run_trigger; cbn; by rewrite Hf, Ht].
  erewrite run_try; [done|]. apply run_map_err. unfold sync_directory.
  erewrite run_try_op; [by rewrite run_trigger|].
  exact (open_dir_frame dir fname tname s0 old dir_ne s0_wf dest_durable _ calm
    (proj1 unlink_unlinked)).
Qed.
End Delete.

(** [delete] as an operation on maps. *)
Lemma KeyStore_delete_refines store kid m s0 :
  directory store <> [] -> fs_wf s0 -> well_keyed m -> holds_durably s0 (directory store) m ->
  (forall p s s', reach (KeyStore_delete store kid) s0 p s -> crash s s' ->
     (holds s' (directory store) m \/ holds s' (directory store) (delete kid m)) /\
     (p = Ret (Ok tt) -> holds s' (directory store) (delete kid m)) /\
     p <> Ret Panic) /\
  (is_Some (m !! kid) -> exists s, run calm (KeyStore_delete store kid) [] s0 = (Ok tt, s)).
Proof.
  intros Hdir Hwf Hwk Hm. pose proof (Hm kid) as Hk. split.
  - intros p s s' Hr Hc.
    pose proof (KeyStore_delete_safe store kid s0 _ Hdir Hwf Hk) as Hsafe.
    pose proof (safe_reach_inv _ _ _ _ _ _ Hsafe Hr) as Hi.
    assert (forall kid', kid' <> kid -> contents s' (directory store ++ [record_name kid']) =
      layout <$> m !! kid') as Ho.
    { intros kid' Hne. eapply (deleting_other store kid s0 (layout <$> m !! kid)); eauto.
      by intros ?%record_name_inj. }
    assert (contents s' (directory store ++ [record_name kid]) = None ->
      holds s' (directory store) (delete kid m)) as Hgone.
    { intros Hn kid'. destruct (decide (kid' = kid)) as [->|Hne].
      - by rewrite lookup_delete_eq.
      - rewrite lookup_delete_ne by done. auto. }
    split_and!.
    + destruct (deleting_dest store kid s0 _ Hwf Hk s s' Hi Hc) as [H|H]; [left|auto].
      intros kid'. destruct (decide (kid' = kid)) as [->|]; auto.
    + intros ->. apply Hgone. eapply deleted_dest; [|exact Hc].
      exact (safe_reach_ret _ _ _ _ _ _ Hsafe Hr).
    + intros ->. exact (safe_reach_ret _ _ _ _ _ _ Hsafe Hr).
  - intros [key E]. rewrite E in Hk. eapply KeyStore_delete_calm; [done..|].
    destruct (Hwk kid key E) as (<- & Hv & _). apply Hv.
Qed.

(** [delete] implements deletion.  Under any faults and at any crash, every other
    record survives and the deleted one is either intact or gone; after a success it is
    gone durably; and without faults [delete] succeeds on every stored record. *)
Theorem delete_refines_delete store kid m s0 :
  directory store <> [] -> fs_wf s0 -> well_keyed m -> holds_durably s0 (directory store) m ->
  (forall p s s', reach (KeyStore_delete store kid) s0 p s -> crash s s' ->
     (holds s' (directory store) m \/ holds s' (directory store) (delete kid m)) /\
     (p = Ret (Ok tt) -> holds s' (directory store) (delete kid m)) /\
     p <> Ret Panic) /\
  (is_Some (m !! kid) -> exists s, run calm (KeyStore_delete store kid) [] s0 = (Ok tt, s)).
Proof. apply KeyStore_delete_refines. Qed.

(** *** A store that saved a key *)

(** The directory keeps [m], and no other record, whatever happens to the machine. *)
Record keeps (s : fs) (dir : path) (m : gmap KeyId StoredKey) : Prop := mk_keeps {
  kp_keyed : well_keyed m;
  kp_holds : holds_durably s dir m;
  kp_names : forall name, is_Some (entries s !! (dir ++ [name])) \/ is_Some (stable_entries s !! (dir ++ [name])) ->
    name_ok name /\ (extension name = Some (str "key") -> exists kid, is_Some (m !! kid) /\ name = record_name kid);
}.

(** What the directory is after a saved record and a crash: [list] can read it. *)
Lemma KeyStore_save_keeps store pid key m s0 s s' :
  let dir := directory store in
  let m' := <[id (summary key) := key]> m in
  dir <> [] -> fs_wf s0 -> keeps s0 dir m -> StoredKey_wf key ->
  reach (KeyStore_save store pid key) s0 (Ret (Ok tt)) s -> crash s s' ->
  (exists i n, find s' dir = Some (i, n) /\ file_type n = Directory) /\
  well_keyed m' /\ holds s' dir m' /\ names_ok s' dir /\
  (forall name, name ∈ record_names s' dir -> exists kid, is_Some (m' !! kid) /\ name = record_name kid).
Proof.
  intros dir m' Hne Hwf [Hk Hh Hn] Hu Hr Hc.
  destruct (KeyStore_save_refines store pid key m s0 _ s s' Hne Hwf Hh Hr Hc) as (_ & Hm & _).
  destruct (validate_record_cases key) as [Hv|Hv]; cycle 1.
  { assert (~ record_valid key) as Hb by (by intros E%validate_record_valid; congruence).
    rewrite (KeyStore_save_invalid store pid key Hb) in Hr. by apply reach_ret_inv in Hr as [? _]. }
  apply validate_record_valid in Hv.
  destruct (safe_reach_ret _ _ _ _ _ _ (KeyStore_save_safe store pid key s0 _ Hne Hwf (Hh _) Hv) Hr) as [Hf _].
  assert (forall name, is_Some (entries s' !! (dir ++ [name])) -> name <> record_name (id (summary key)) ->
    (forall a, name <> temporary_name pid (id (summary key)) a) ->
    name_ok name /\ (extension name = Some (str "key") -> exists kid, is_Some (m !! kid) /\ name = record_name kid)) as Hold.
  { intros name Hs H1 H2. apply Hn. by eapply frame_names. }
  split_and!; [| |by apply Hm|..].
  - apply dir_found; [done|]. intros q Hq. eapply frame_ancestor; [done..|]. by rewrite ancestors_snoc.
  - by apply map_Forall_insert_2.
  - apply Forall_forall. intros name Hin%names_in_elem. destruct (decide (name_ok name)) as [|Hb]; [done|exfalso].
    apply Hb, Hold; [done|..].
    + intros ->. apply Hb, record_name_ok.
    + intros a ->. apply Hb, temporary_name_ok.
  - intros name [He Hin%names_in_elem]%list_elem_of_filter.
    destruct (decide (name = record_name (id (summary key)))) as [->|H1].
    { exists (id (summary key)). unfold m'. by rewrite lookup_insert_eq. }
    destruct (Hold name Hin H1) as [_ Hkid].
    { intros a ->. by apply (temporary_name_extension pid (id (summary key)) a). }
    destruct (Hkid He) as (kid & [key' Hk'] & ->). exists kid. split; [|done].
    unfold m'. rewrite lookup_insert_ne; [by eexists|]. congruence.
Qed.

(** ** Concrete stores *)

Module Sample.
Definition store : KeyStore := KeyStore_new [str "k"].
Definition key : StoredKey := mkStoredKey
  (mkKeySummary (KeyId_new (str "a")) (str "n") EcdsaNistP256 NoPin (str "p"))
  (mkTpmObject (str "p") (str "w") (str "q") NoPin).
Definition record : path := path_for store (id (summary key)).

(** An empty directory, and one with the record. *)
Definition empty : fs := EmptyDir.state.
Definition one : fs :=
  mk_fs (<[record := 2]> {[ [str "k"] := 1 ]}) (<[record := 2]> {[ [str "k"] := 1 ]})
    (<[2 := mk_inode Regular MODE_0600 1000 (layout key) (layout key)]>
      {[ 1 := mk_inode Directory MODE_0700 1000 [] [] ]}) 3 0 1000.

Definition no_keys : gmap KeyId StoredKey := ∅.
Definition one_key : gmap KeyId StoredKey := {[ id (summary key) := key ]}.

Lemma empty_wf : fs_wf empty.
Proof. exact EmptyDir.state_wf. Qed.

Lemma empty_holds : holds_durably empty (directory store) no_keys.
Proof. intros kid. apply EmptyDir.absent. Qed.

Lemma one_wf : fs_wf one.
Proof.
  split; cbn.
  - intros p i [H|H]; apply lookup_insert_Some in H as [[_ <-]|[_ H]];
      try (apply lookup_singleton_Some in H as [_ <-]); by eexists.
  - intros i [n H]. apply lookup_insert_Some in H as [[<- _]|[_ H]]; [lia|].
    apply lookup_singleton_Some in H as [<- _]. lia.
Qed.

Lemma one_holds : holds_durably one (directory store) one_key.
Proof.
  intros kid. destruct (decide (kid = id (summary key))) as [->|Hne].
  - split_and!; [intros q [<-|[<-|[]]]; split; by vm_compute|done|].
    unfold one_key. rewrite lookup_singleton_eq. cbn [fmap option_fmap option_map].
    exists 2. by eexists.
  - split_and!; [intros q [<-|[<-|[]]]; split; by vm_compute|done|].
    unfold one_key. rewrite lookup_singleton_ne by congruence. cbn [fmap option_fmap option_map].
    cbn [entries one]. rewrite lookup_insert_ne, lookup_singleton_ne; [done..|].
    unfold record. rewrite path_for_eq. intros [_ [= H]]%app_inj_2; [|done].
    by apply Hne, record_name_inj.
Qed.

Lemma one_keyed : well_keyed one_key.
Proof.
  apply map_Forall_singleton. split_and!; [done| |by vm_compute].
  by apply validate_record_valid; vm_compute.
Qed.

Lemma save_refines_insert_witness :
  let s := snd (run calm (KeyStore_save store 7 key) [] empty) in
  holds s (directory store) (<[id (summary key) := key]> no_keys).
Proof.
  intros s. pose proof (run_reach calm (KeyStore_save store 7 key) [] empty) as Hr.
  replace (fst (run calm (KeyStore_save store 7 key) [] empty))
    with (Ok tt : result StoreError unit) in Hr by (vm_compute; reflexivity).
  refine (proj1 (proj2 (save_refines_insert store 7 key no_keys empty _ s s
    _ empty_wf empty_holds Hr (crash_refl s))) eq_refl).
  discriminate.
Defined.

Lemma load_refines_lookup_witness :
  run calm (KeyStore_load store (id (summary key))) [] one = (Ok key, one).
Proof.
  refine (load_refines_lookup store (id (summary key)) one_key one _ one_keyed).
  apply (holds_crash one one); [apply one_wf|apply one_holds|apply crash_refl].
Defined.

Lemma save_load_roundtrip_witness :
  let s := snd (run calm (KeyStore_save store 7 key) [] empty) in
  run calm (KeyStore_load store (id (summary key))) [] s = (Ok key, s).
Proof.
  intros s. pose proof (run_reach calm (KeyStore_save store 7 key) [] empty) as Hr.
  replace (fst (run calm (KeyStore_save store 7 key) [] empty))
    with (Ok tt : result StoreError unit) in Hr by (vm_compute; reflexivity).
  refine (proj2 (save_load_roundtrip store 7 key no_keys empty
    _ empty_wf empty_holds _ _) s s Hr (crash_refl s)).
  - discriminate.
  - vm_compute. reflexivity.
  - vm_compute. reflexivity.
Defined.

Lemma one_names : names_in one (directory store) = [record_name (id (summary key))].
Proof. vm_compute. reflexivity. Qed.

Lemma one_names_ok : names_ok one (directory store).
Proof. unfold names_ok. rewrite one_names. repeat constructor; apply record_name_ok. Qed.

Lemma list_fail_closed_witness :
  exists keys, reach (KeyStore_list store) one (Ret (Ok keys)) one /\ sorted_keys keys.
Proof.
  exists [key].
  assert (reach (KeyStore_list store) one (Ret (Ok [key])) one) as Hr.
  { pose proof (run_reach calm (KeyStore_list store) [] one) as Hr.
    replace (run calm (KeyStore_list store) [] one)
      with ((Ok [key] : result StoreError (list StoredKey)), one) in Hr
      by (vm_compute; reflexivity). exact Hr. }
  split; [exact Hr|]. exact (proj1 (proj2 (list_fail_closed store one (Ok [key]) one one_names_ok Hr))).
Defined.

Lemma list_refines_elements_witness :
  exists keys, run calm (KeyStore_list store) [calm] one = (Ok keys, one).
Proof.
  refine (proj1 (list_refines_elements store one_key one _ one_keyed _ one_names_ok _) calm eq_refl).
  - eexists _, _. split; vm_compute; reflexivity.
  - apply (holds_crash one one); [apply one_wf|apply one_holds|apply crash_refl].
  - intros name [_ Hin]%list_elem_of_filter. rewrite one_names in Hin.
    apply list_elem_of_singleton in Hin as ->. exists (id (summary key)). split; [|reflexivity].
    unfold one_key. rewrite lookup_singleton_eq. eexists. reflexivity.
Defined.

Lemma delete_refines_delete_witness :
  exists s, run calm (KeyStore_delete store (id (summary key))) [] one = (Ok tt, s).
Proof.
  refine (proj2 (delete_refines_delete store (id (summary key)) one_key one _ one_wf one_keyed one_holds) _).
  - discriminate.
  - unfold one_key. rewrite lookup_singleton_eq. eexists. reflexivity.
Defined.
End Sample.
