(* ===== verification/History.v ===== *)
(** The signing history: crates/keyvisor-agent/src/history.rs. *)

From S2P Require Import Prelude Bytes Text Core Effects FileSystem AtomicFile.

Definition MAGIC : bytes := str "KEYHST" ++ [b8 0; b8 1].
Definition MAX_ENTRIES : Z := 200.
Definition MAX_TEXT_LEN : Z := 4 * 1024.

(** ** Data *)

Inductive HistoryOutcome := Succeeded | Failed.

#[global] Instance HistoryOutcome_eq_dec : EqDecision HistoryOutcome.
Proof. solve_decision. Defined.

Record HistoryEntry := mkHistoryEntry {
  timestamp_seconds : Z;
  key_id : KeyId;
  key_name : bytes;
  entry_use_policy : KeyUsePolicy;
  outcome : HistoryOutcome;
}.

#[global] Instance HistoryEntry_eq_dec : EqDecision HistoryEntry.
Proof. solve_decision. Defined.

Inductive HistoryError :=
  | Io (error : io_error)
  | InvalidData.

#[global] Instance HistoryError_eq_dec : EqDecision HistoryError.
Proof. solve_decision. Defined.

(** [impl Display for HistoryError]. *)
Definition HistoryError_display (self : HistoryError) : bytes :=
  match self with
  | Io error => str "history I/O failed: " ++ message error
  | InvalidData => str "signing history is invalid"
  end.

(** ** The history format *)

Definition validate_entry (entry : HistoryEntry) : result HistoryError unit :=
  if is_empty (as_str (key_id entry))
     || (MAX_TEXT_LEN <? len (as_str (key_id entry)))
     || is_empty (key_name entry)
     || (MAX_TEXT_LEN <? len (key_name entry))
  then Err InvalidData
  else Ok tt.

Definition push_text (output value : bytes) : result HistoryError bytes :=
  if MAX_TEXT_LEN <? len value then Err InvalidData
  else
    length ← ok_or (u32_try_from (len value)) InvalidData;
    let output := output ++ to_be 4 length in
    Ok (output ++ value).

Definition policy_tag (policy : KeyUsePolicy) : Z :=
  match policy with NoPin => 1 | TpmPin => 2 end.
Definition outcome_tag (outcome : HistoryOutcome) : Z :=
  match outcome with Succeeded => 1 | Failed => 2 end.

(** The loop of [encode]. *)
Fixpoint encode_entries (output : bytes) (entries : list HistoryEntry) : result HistoryError bytes :=
  match entries with
  | [] => Ok output
  | entry :: entries =>
      _ ← validate_entry entry;
      let output := output ++ to_be 8 (timestamp_seconds entry) in
      output ← push_text output (as_str (key_id entry));
      output ← push_text output (key_name entry);
      let output := output ++ [b8 (policy_tag (entry_use_policy entry))] in
      let output := output ++ [b8 (outcome_tag (outcome entry))] in
      encode_entries output entries
  end.

Definition encode (entries : list HistoryEntry) : result HistoryError bytes :=
  if MAX_ENTRIES <? len entries then Err InvalidData
  else
    let output := MAGIC in
    count ← ok_or (u32_try_from (len entries)) InvalidData;
    let output := output ++ to_be 4 count in
    encode_entries output entries.

Definition take (input : bytes) (length : Z) : result HistoryError (bytes * bytes) :=
  if len input <? length then Err InvalidData
  else split_at input length.

Definition read_u32 (input : bytes) : result HistoryError (Z * bytes) :=
  '(bytes, input) ← take input 4;
  bytes ← ok_or (array_of 4 bytes) InvalidData;
  Ok (from_be bytes, input).

Definition read_text (input : bytes) : result HistoryError (bytes * bytes) :=
  '(length, input) ← read_u32 input;
  length ← ok_or (usize_try_from length) InvalidData;
  if MAX_TEXT_LEN <? length then Err InvalidData
  else
    '(value, input) ← take input length;
    text ← from_utf8 InvalidData value;
    Ok (text, input).

Definition read_policy (tag : byte) : result HistoryError KeyUsePolicy :=
  if u8 tag =? 1 then Ok NoPin
  else if u8 tag =? 2 then Ok TpmPin
  else Err InvalidData.
Definition read_outcome (tag : byte) : result HistoryError HistoryOutcome :=
  if u8 tag =? 1 then Ok Succeeded
  else if u8 tag =? 2 then Ok Failed
  else Err InvalidData.

(** The body of the loop of [decode]: one entry. *)
Definition decode_entry (input : bytes) : result HistoryError (HistoryEntry * bytes) :=
  '(timestamp_bytes, input) ← take input 8;
  timestamp_bytes ← ok_or (array_of 8 timestamp_bytes) InvalidData;
  '(text, input) ← read_text input;
  let key_id := KeyId_new text in
  '(key_name, input) ← read_text input;
  '(tag, input) ← take input 1;
  tag ← index tag 0;
  use_policy ← read_policy tag;
  '(tag, input) ← take input 1;
  tag ← index tag 0;
  outcome ← read_outcome tag;
  let entry := mkHistoryEntry (from_be timestamp_bytes) key_id key_name use_policy outcome in
  _ ← validate_entry entry;
  Ok (entry, input).

Fixpoint decode_entries (count : nat) (input : bytes) (entries : list HistoryEntry) :
    result HistoryError (list HistoryEntry * bytes) :=
  match count with
  | O => Ok (entries, input)
  | S count =>
      '(entry, input) ← decode_entry input;
      decode_entries count input (entries ++ [entry])
  end.

Definition decode (bytes : bytes) : result HistoryError (list HistoryEntry) :=
  let input := bytes in
  '(magic, input) ← take input (len MAGIC);
  if negb (bool_decide (magic = MAGIC)) then Err InvalidData
  else
    '(count, input) ← read_u32 input;
    count ← ok_or (usize_try_from count) InvalidData;
    if MAX_ENTRIES <? count then Err InvalidData
    else
      '(entries, input) ← decode_entries (Z.to_nat count) input [];
      if negb (is_empty input) then Err InvalidData
      else Ok entries.

(** ** Operations *)

Record HistoryStore := mkHistoryStore { store_path : path }.

(** [HistoryStore::new]. *)
Definition HistoryStore_new (path : path) : HistoryStore := mkHistoryStore path.

Definition ensure_private_directory : path -> prog fsE (io_result unit) :=
  ensure_private_directory_or (str "history directory is not a directory").

(** The candidate name of an attempt; [pid] is the process identifier. *)
Definition temporary_name (pid attempt : Z) : bytes :=
  str ".history." ++ print_dec pid ++ str "." ++ print_dec attempt ++ str ".tmp".

Definition create_temporary_file (pid : Z) (parent : path) : prog fsE (io_result (path * handle)) :=
  file ←? first_free (fun attempt => join parent (temporary_name pid attempt)) 100 0;
  Ret (ok_or file
    (mk_io_error AlreadyExists (str "cannot allocate a unique history temporary file"))).

Definition HistoryStore_save (self : HistoryStore) (pid : Z) (entries : list HistoryEntry) :
    prog fsE (result HistoryError unit) :=
  parent ←? Ret (ok_or (parent (store_path self)) InvalidData);
  _ ←? map_err_prog Io (ensure_private_directory parent);
  bytes ←? Ret (encode entries);
  '(temporary, file) ←? map_err_prog Io (create_temporary_file pid parent);
  map_err_prog Io (commit temporary file [bytes] (store_path self) parent).

Definition HistoryStore_list (self : HistoryStore) :
    prog fsE (result HistoryError (list HistoryEntry)) :=
  r ← trigger (SymlinkMetadata (store_path self));
  match r with
  | Ok metadata =>
      if negb (is_file (md_type metadata)) then Ret (Err InvalidData)
      else if negb (Z.land (md_mode metadata) MODE_0077 =? 0) then Ret (Err InvalidData)
      else
        bytes ←? map_err_prog Io (trigger (ReadFile (store_path self)));
        Ret (decode bytes)
  | Err error =>
      if decide (kind error = NotFound) then Ret (Ok [])
      else Ret (Err (Io error))
  | Panic => Ret Panic
  end.

(** [entries.push(entry)], then [drain] of all but the newest. *)
Definition push_entry (entries : list HistoryEntry) (entry : HistoryEntry) : list HistoryEntry :=
  let entries := entries ++ [entry] in
  if MAX_ENTRIES <? len entries
  then skipn (Z.to_nat (len entries - MAX_ENTRIES)) entries
  else entries.

Definition HistoryStore_append (self : HistoryStore) (pid : Z) (entry : HistoryEntry) :
    prog fsE (result HistoryError unit) :=
  _ ←? Ret (validate_entry entry);
  entries ←? HistoryStore_list self;
  HistoryStore_save self pid (push_entry entries entry).

(** ** The format, declaratively *)

Definition text_ok (s : bytes) : Prop := 1 <= len s <= MAX_TEXT_LEN.

(** What [validate_entry] checks, and the invariants of the Rust type: a 64-bit time and
    UTF-8 strings. *)
Definition entry_valid (entry : HistoryEntry) : Prop :=
  text_ok (as_str (key_id entry)) /\ text_ok (key_name entry).
Definition entry_wf (entry : HistoryEntry) : Prop :=
  0 <= timestamp_seconds entry <= u64_max /\
  utf8_valid (as_str (key_id entry)) = true /\ utf8_valid (key_name entry) = true.

Definition entry_layout (entry : HistoryEntry) : bytes :=
  to_be 8 (timestamp_seconds entry) ++ prefixed (as_str (key_id entry)) ++
  prefixed (key_name entry) ++
  [b8 (policy_tag (entry_use_policy entry))] ++ [b8 (outcome_tag (outcome entry))].
Definition layout (entries : list HistoryEntry) : bytes :=
  MAGIC ++ to_be 4 (len entries) ++ concat (entry_layout <$> entries).

(** A history that can be stored. *)
Record history_ok (entries : list HistoryEntry) : Prop := {
  ho_length : len entries <= MAX_ENTRIES;
  ho_valid : Forall entry_valid entries;
  ho_wf : Forall entry_wf entries;
}.

Lemma validate_entry_valid entry : validate_entry entry = Ok tt <-> entry_valid entry.
Proof.
  unfold validate_entry, entry_valid, text_ok. rewrite !is_empty_len.
  destruct (_ || _)%bool eqn:E; split; try done.
  - rewrite !orb_true_iff, !Z.ltb_lt in E. lia.
  - intros _. bool_to_prop. lia.
Qed.

Lemma validate_entry_cases entry :
  validate_entry entry = Ok tt \/ validate_entry entry = Err InvalidData.
Proof. unfold validate_entry. destruct (_ || _)%bool; auto. Qed.

Lemma HISTORY_TEXT_LEN_u32 : MAX_TEXT_LEN <= u32_max.
Proof. done. Qed.

(** ** Encoding *)

Lemma push_text_valid output value :
  text_ok value -> push_text output value = Ok (output ++ prefixed value).
Proof.
  intros [_ Hl]. unfold push_text. rewrite (proj2 (Z.ltb_ge _ _)) by done.
  pose proof HISTORY_TEXT_LEN_u32. rewrite u32_try_from_small by lia. cbn.
  unfold prefixed. by rewrite app_assoc.
Qed.

Lemma encode_entries_valid output entries :
  Forall entry_valid entries ->
  encode_entries output entries = Ok (output ++ concat (entry_layout <$> entries)).
Proof.
  intros H. revert output. induction H as [|e es He _ IH]; intros output; cbn [encode_entries].
  { by rewrite app_nil_r. }
  rewrite (proj2 (validate_entry_valid e) He). destruct He as [Hid Hn]. cbn [mbind result_bind].
  rewrite push_text_valid by done. cbn [mbind result_bind].
  rewrite push_text_valid by done. cbn [mbind result_bind]. rewrite IH.
  cbn [fmap list_fmap concat]. unfold entry_layout. by rewrite <- !app_assoc.
Qed.

Lemma encode_entries_Ok output entries b :
  encode_entries output entries = Ok b -> Forall entry_valid entries.
Proof.
  revert output. induction entries as [|e es IH]; intros output; cbn [encode_entries]; [constructor|].
  destruct (validate_entry_cases e) as [E|E]; rewrite E; [|done]. cbn [mbind result_bind].
  intros (o1 & _ & (o2 & _ & H)%bind_Ok_inv)%bind_Ok_inv.
  constructor; [by apply validate_entry_valid|by eapply IH].
Qed.

Lemma encode_eq entries :
  len entries <= MAX_ENTRIES -> encode entries = encode_entries (MAGIC ++ to_be 4 (len entries)) entries.
Proof.
  intros Hl. unfold encode. rewrite (proj2 (Z.ltb_ge _ _)) by done.
  rewrite u32_try_from_small; [done|]. unfold MAX_ENTRIES, u32_max in *. lia.
Qed.

Lemma entry_encode_valid entries :
  len entries <= MAX_ENTRIES -> Forall entry_valid entries -> encode entries = Ok (layout entries).
Proof.
  intros Hl Hv. rewrite encode_eq, encode_entries_valid by done.
  unfold layout. by rewrite app_assoc.
Qed.

Lemma entry_encode_Ok entries b :
  encode entries = Ok b ->
  len entries <= MAX_ENTRIES /\ Forall entry_valid entries /\ b = layout entries.
Proof.
  intros H. assert (len entries <= MAX_ENTRIES) as Hl.
  { unfold encode in H. destruct (_ <? _) eqn:E in H; [done|bool_lia]. }
  assert (Forall entry_valid entries) as Hv by (rewrite encode_eq in H by done; by eapply encode_entries_Ok).
  split_and!; [done..|]. rewrite entry_encode_valid in H by done. by injection H.
Qed.

(** ** Decoding *)

Lemma read_u32_eq input : read_u32 input = u32_or InvalidData input.
Proof. done. Qed.

Lemma entry_read_text_app s k :
  utf8_valid s = true -> text_ok s -> read_text (prefixed s ++ k) = Ok (s, k).
Proof.
  intros Hu [_ Hl]. pose proof HISTORY_TEXT_LEN_u32. pose proof (len_nonneg s).
  unfold read_text, prefixed. rewrite read_u32_eq, <- app_assoc, u32_or_app by lia.
  cbn [mbind result_bind]. rewrite usize_of_u32 by lia. cbn [ok_or mbind result_bind].
  rewrite (proj2 (Z.ltb_ge _ _)) by done.
  rewrite (take_or_app InvalidData s k : take _ _ = _). cbn [mbind result_bind].
  unfold from_utf8. by rewrite Hu.
Qed.

Lemma entry_read_text_Ok input s rest :
  read_text input = Ok (s, rest) ->
  input = prefixed s ++ rest /\ len s <= MAX_TEXT_LEN /\ utf8_valid s = true.
Proof.
  unfold read_text. rewrite read_u32_eq. intros ([z i] & [-> Hz]%u32_or_Ok & H)%bind_Ok_inv.
  rewrite usize_of_u32 in H by lia. cbn [ok_or mbind result_bind] in H.
  destruct (MAX_TEXT_LEN <? z) eqn:E; [done|].
  apply bind_Ok_inv in H as ([v i'] & [-> Hv]%take_or_Ok & H); [|lia].
  unfold from_utf8 in H. destruct (utf8_valid v) eqn:Eu; [|done]. injection H as <- <-.
  unfold prefixed. rewrite <- app_assoc, Hv. split_and!; [done|bool_lia|done].
Qed.

Lemma one_byte input b rest : take input 1 = Ok (b, rest) ->
  exists c, b = [c] /\ input = c :: rest.
Proof.
  intros [-> Hl]%take_or_Ok; [|lia]. destruct b as [|c [|]]; [done| |unfold len in Hl; simpl in Hl; lia].
  by exists c.
Qed.

Lemma take_one c k : take (c :: k) 1 = Ok ([c], k).
Proof. exact (take_or_app InvalidData [c] k). Qed.

Lemma read_policy_Ok tag pol : read_policy tag = Ok pol <-> tag = b8 (policy_tag pol).
Proof.
  unfold read_policy. split.
  - rewrite <- (b8_u8 tag) at 3. destruct (u8 tag =? 1) eqn:E1; [|destruct (u8 tag =? 2) eqn:E2; [|done]];
      intros [= <-]; bool_to_prop; simpl; congruence.
  - intros ->. by destruct pol.
Qed.

Lemma read_outcome_Ok tag o : read_outcome tag = Ok o <-> tag = b8 (outcome_tag o).
Proof.
  unfold read_outcome. split.
  - rewrite <- (b8_u8 tag) at 3. destruct (u8 tag =? 1) eqn:E1; [|destruct (u8 tag =? 2) eqn:E2; [|done]];
      intros [= <-]; bool_to_prop; simpl; congruence.
  - intros ->. by destruct o.
Qed.

Lemma decode_entry_app e k :
  entry_valid e -> entry_wf e -> decode_entry (entry_layout e ++ k) = Ok (e, k).
Proof.
  intros Hv (Ht & Hu1 & Hu2). pose proof Hv as [Hid Hn]. unfold decode_entry, entry_layout.
  rewrite <- !app_assoc.
  rewrite (take_or_app InvalidData (to_be 8 (timestamp_seconds e)) _ : take _ 8 = _).
  cbn [mbind result_bind]. unfold array_of. rewrite len_to_be. change (Z.of_nat 8 =? 8) with true. cbn [ok_or mbind result_bind].
  rewrite from_be_to_be_small by (unfold u64_max in Ht; lia). cbn [mbind result_bind].
  rewrite entry_read_text_app by done. cbn [mbind result_bind].
  rewrite entry_read_text_app by done. cbn [mbind result_bind app].
  rewrite take_one. cbn [mbind result_bind]. change (index [?c] 0) with (Ok (E:=HistoryError) c).
  cbn [mbind result_bind]. rewrite (proj2 (read_policy_Ok _ (entry_use_policy e)) eq_refl).
  cbn [mbind result_bind]. rewrite take_one. cbn [mbind result_bind].
  change (index [?c] 0) with (Ok (E:=HistoryError) c). cbn [mbind result_bind].
  rewrite (proj2 (read_outcome_Ok _ (outcome e)) eq_refl). cbn [mbind result_bind].
  assert (mkHistoryEntry (timestamp_seconds e) (KeyId_new (as_str (key_id e))) (key_name e)
    (entry_use_policy e) (outcome e) = e) as -> by (by destruct e as [? [] ? ? ?]).
  by rewrite (proj2 (validate_entry_valid e) Hv).
Qed.

Lemma decode_entry_Ok input e rest :
  decode_entry input = Ok (e, rest) ->
  input = entry_layout e ++ rest /\ entry_valid e /\ entry_wf e.
Proof.
  unfold decode_entry.
  intros ([t i] & [-> Ht]%take_or_Ok & H)%bind_Ok_inv; [|lia].
  unfold array_of in H. rewrite Ht in H. change (8 =? 8) with true in H. cbn [ok_or mbind result_bind] in H.
  apply bind_Ok_inv in H as ([kid i1] & (-> & Hid & Hidu)%entry_read_text_Ok & H).
  apply bind_Ok_inv in H as ([name i2] & (-> & Hn & Hnu)%entry_read_text_Ok & H).
  apply bind_Ok_inv in H as ([p i3] & (c & -> & ->)%one_byte & H).
  change (index [c] 0) with (Ok (E:=HistoryError) c) in H. cbn [mbind result_bind] in H.
  apply bind_Ok_inv in H as (pol & ->%read_policy_Ok & H).
  apply bind_Ok_inv in H as ([o i4] & (c & -> & ->)%one_byte & H).
  change (index [c] 0) with (Ok (E:=HistoryError) c) in H. cbn [mbind result_bind] in H.
  apply bind_Ok_inv in H as (out & ->%read_outcome_Ok & H).
  apply bind_Ok_inv in H as ([] & Hv%validate_entry_valid & H). injection H as <- <-.
  split_and!; [|done|split_and!; [..|done|done]]; cbn [timestamp_seconds].
  - unfold entry_layout. cbn [timestamp_seconds key_id key_name entry_use_policy outcome as_str KeyId_new].
    rewrite to_be_from_be' by (unfold len in Ht; lia). by rewrite <- !app_assoc.
  - apply from_be_bound.
  - pose proof (from_be_bound t) as [_ Hb]. rewrite Ht in Hb. unfold u64_max. lia.
Qed.

Lemma decode_entries_app es acc k :
  Forall entry_valid es -> Forall entry_wf es ->
  decode_entries (length es) (concat (entry_layout <$> es) ++ k) acc = Ok (acc ++ es, k).
Proof.
  intros Hv. revert acc. induction Hv as [|e es He _ IH]; intros acc Hw; cbn [length decode_entries].
  { by rewrite app_nil_r. }
  inversion Hw; subst. cbn [fmap list_fmap concat]. rewrite <- app_assoc, decode_entry_app by done.
  cbn [mbind result_bind]. rewrite IH by done. by rewrite <- app_assoc.
Qed.

Lemma decode_entries_Ok n input acc es rest :
  decode_entries n input acc = Ok (es, rest) ->
  exists new, es = acc ++ new /\ length new = n /\
    input = concat (entry_layout <$> new) ++ rest /\ Forall entry_valid new /\ Forall entry_wf new.
Proof.
  revert input acc; induction n as [|n IH]; intros input acc; cbn [decode_entries].
  { intros [= <- <-]. exists []. split_and!; [by rewrite app_nil_r|done..]. }
  intros ([e i] & (-> & Hv & Hw)%decode_entry_Ok & (new & -> & <- & -> & Hvs & Hws)%IH)%bind_Ok_inv.
  exists (e :: new). split_and!; [by rewrite <- app_assoc|done| |by constructor..].
  cbn [fmap list_fmap concat]. by rewrite <- app_assoc.
Qed.

Lemma entry_decode_layout es : history_ok es -> decode (layout es) = Ok es.
Proof.
  intros [Hl Hv Hw]. unfold decode, layout. pose proof (len_nonneg es).
  rewrite (take_or_app InvalidData MAGIC _ : take _ (len MAGIC) = _). cbn [mbind result_bind].
  rewrite bool_decide_true by done. cbn [negb].
  rewrite read_u32_eq, u32_or_app by (unfold MAX_ENTRIES, u32_max in *; lia). cbn [mbind result_bind].
  rewrite usize_of_u32 by (unfold MAX_ENTRIES, u32_max in *; lia). cbn [ok_or mbind result_bind].
  rewrite (proj2 (Z.ltb_ge _ _)) by done.
  replace (Z.to_nat (len es)) with (length es) by (unfold len; lia).
  rewrite <- (app_nil_r (concat _)), decode_entries_app by done. done.
Qed.

Lemma entry_decode_Ok b es : decode b = Ok es -> b = layout es /\ history_ok es.
Proof.
  unfold decode. intros ([magic i] & [-> _]%take_or_Ok & H)%bind_Ok_inv; [|apply len_nonneg].
  destruct (bool_decide _) eqn:Hm; [|done]. apply bool_decide_eq_true in Hm as ->. cbn [negb] in H.
  rewrite read_u32_eq in H. apply bind_Ok_inv in H as ([n i1] & [-> Hn]%u32_or_Ok & H).
  rewrite usize_of_u32 in H by lia. cbn [ok_or mbind result_bind] in H.
  destruct (MAX_ENTRIES <? n) eqn:E; [done|].
  apply bind_Ok_inv in H as ([es' i2] & (new & -> & Hlen & -> & Hv & Hw)%decode_entries_Ok & H).
  destruct i2; [|done]. cbn in H. injection H as <-. rewrite app_nil_r.
  assert (n = len new) as -> by (unfold len; lia).
  split; [done|]. split; [bool_lia|done..].
Qed.

(** ** Panic-freedom *)

Definition format_error (e : HistoryError) : Prop := e = InvalidData.

Lemma history_format_error_invalid : format_error InvalidData.
Proof. done. Qed.
#[local] Hint Resolve history_format_error_invalid : fails.

Lemma entry_read_text_fails input : fails_with format_error (read_text input).
Proof.
  unfold read_text. rewrite read_u32_eq. apply fails_with_bind; [by apply u32_or_fails|].
  intros [z i] [_ Hz]%u32_or_Ok. rewrite usize_of_u32 by lia. cbn [ok_or mbind result_bind].
  destruct (_ <? z); [done|]. apply fails_with_bind; [apply take_or_fails; [done|lia]|].
  intros [v i'] _. unfold from_utf8. by destruct (utf8_valid v).
Qed.

Lemma validate_entry_fails e : fails_with format_error (validate_entry e).
Proof. by destruct (validate_entry_cases e) as [-> | ->]. Qed.

Lemma entry_read_policy_fails tag : fails_with format_error (read_policy tag).
Proof. unfold read_policy. auto with fails. Qed.

Lemma read_outcome_fails tag : fails_with format_error (read_outcome tag).
Proof. unfold read_outcome. auto with fails. Qed.

(** Indexing the byte that [take(1)] returned is in range. *)
Lemma tag_fails {A} input (f : byte -> bytes -> result HistoryError A) :
  (forall c i, fails_with format_error (f c i)) ->
  fails_with format_error ('(tag, input) ← take input 1; tag ← index tag 0; f tag input).
Proof.
  intros Hf. apply fails_with_bind; [by apply take_or_fails|].
  intros [b i] (c & -> & _)%one_byte. apply Hf.
Qed.

Lemma decode_entry_fails input : fails_with format_error (decode_entry input).
Proof.
  unfold decode_entry. apply fails_with_bind; [by apply take_or_fails|].
  intros [t i] _. apply fails_with_bind; [by apply fails_with_ok_or|]. intros t' _.
  apply fails_with_bind; [apply entry_read_text_fails|]. intros [kid i1] _.
  apply fails_with_bind; [apply entry_read_text_fails|]. intros [name i2] _.
  apply tag_fails. intros c i3. apply fails_with_bind; [apply entry_read_policy_fails|]. intros pol _.
  apply tag_fails. intros c' i4. apply fails_with_bind; [apply read_outcome_fails|]. intros o _.
  apply fails_with_bind; [apply validate_entry_fails|done].
Qed.

Lemma entry_decode_fails b : fails_with format_error (decode b).
Proof.
  unfold decode. apply fails_with_bind; [apply take_or_fails; [done|apply len_nonneg]|].
  intros [magic i] _. apply fails_with_if; [done|]. rewrite read_u32_eq.
  apply fails_with_bind; [by apply u32_or_fails|]. intros [n i1] _.
  apply fails_with_bind; [by apply fails_with_ok_or|]. intros n' _.
  apply fails_with_if; [done|].
  apply fails_with_bind; [|intros [es i2] _; by apply fails_with_if].
  generalize (Z.to_nat n') as k, (@nil HistoryEntry) as acc, i1 as input. clear.
  induction k as [|k IH]; intros acc input; cbn [decode_entries]; [done|].
  apply fails_with_bind; [apply decode_entry_fails|]. intros [e i] _. apply IH.
Qed.

(** ** Retention *)

Lemma push_entry_len entries entry : len (push_entry entries entry) <= MAX_ENTRIES.
Proof. unfold push_entry, MAX_ENTRIES. destruct (_ <? _) eqn:E; bool_lia. Qed.

Lemma push_entry_suffix entries entry :
  push_entry entries entry `suffix_of` entries ++ [entry].
Proof. unfold push_entry. destruct (_ <? _); [|done]. eexists. symmetry. apply take_drop. Qed.

Lemma push_entry_ok entries entry :
  history_ok entries -> entry_valid entry -> entry_wf entry -> history_ok (push_entry entries entry).
Proof.
  intros [Hl Hv Hw] ? ?. pose proof (push_entry_suffix entries entry) as [k Hk].
  assert (Forall entry_valid (entries ++ [entry])) as Hv' by (apply Forall_app; auto).
  assert (Forall entry_wf (entries ++ [entry])) as Hw' by (apply Forall_app; auto).
  rewrite Hk, Forall_app in Hv', Hw'. destruct Hv', Hw'. split; [apply push_entry_len|done..].
Qed.

(** ** The store *)

Section Store.
Context (store : HistoryStore) (pid : Z) (dir : path) (fname : bytes) (s0 : fs).
Context (old : option bytes) (hist : list HistoryEntry).

Let tname : Z -> bytes := temporary_name pid.
Let dest : path := dir ++ [fname].

Hypothesis path_eq : store_path store = dir ++ [fname].
Hypothesis dir_ne : dir <> [].
Hypothesis temp_ne : forall a, temporary_name pid a <> fname.
Hypothesis s0_wf : fs_wf s0.
Hypothesis dest_durable : durable_file s0 dir fname old.

Lemma history_temporary_name_ok a : name_ok (tname a).
Proof.
  unfold tname, temporary_name. split_and!; [|done|].
  - rewrite !not_elem_of_app. split_and!;
      try (by apply (bool_decide_unpack _)); by apply print_dec_not_elem.
  - intros H%(f_equal last). rewrite !last_app in H. by simpl in H.
Qed.

Lemma history_temporary_path a : join dir (temporary_name pid a) = dir ++ [tname a].
Proof. apply join_name, history_temporary_name_ok. Qed.

Lemma history_parent_eq : ok_or (parent (store_path store)) InvalidData = Ok dir.
Proof. by rewrite path_eq, parent_snoc. Qed.

Section Save.
Context (entries : list HistoryEntry).

Hypothesis entries_len : len entries <= MAX_ENTRIES.
Hypothesis entries_valid : Forall entry_valid entries.

Lemma HistoryStore_save_safe :
  safe (replacing dir fname tname s0 (layout entries)) (HistoryStore_save store pid entries)
    (saved dir fname tname s0 (layout entries)) s0.
Proof.
  unfold HistoryStore_save. rewrite history_parent_eq, entry_encode_valid by done. cbn [try_bind mbind prog_bind].
  apply safe_try, safe_map_err.
  eapply safe_mono; [done| |by apply (ensure_private_directory_safe dir fname tname s0 old), idle_refl].
  intros r s1 [Hr Hs1]. pose proof (idle_replacing _ _ _ _ (layout entries) _ Hs1) as Hi.
  split; [done|]. destruct r as [[]|e|]; cbn [map_err]; [|by split|done].
  apply safe_try, safe_map_err, safe_try.
  eapply safe_mono; [done| |apply (first_free_safe dir fname tname s0 old);
    [done..|apply history_temporary_path|done]].
  intros r s2 Hr2. clear s1 Hs1 Hi Hr.
  destruct r as [[[t h]|]|e|]; cbn [map_err ok_or]; [| | |done].
  - destruct Hr2 as (-> & a & -> & Hw). pose proof (writing_replacing _ _ _ _ (layout entries) _ _ _ Hw).
    apply safe_ret; [done|]. split; [done|]. cbn [map_err]. rewrite path_eq. apply safe_map_err.
    eapply safe_mono; [done| |apply (commit_safe dir fname tname s0 old); [done..| |exact Hw]].
    + intros r s. apply replaced_saved.
    + cbn. by rewrite app_nil_r.
  - pose proof (idle_replacing _ _ _ _ (layout entries) _ Hr2). apply safe_ret; [done|]. by split_and!.
  - pose proof (idle_replacing _ _ _ _ (layout entries) _ Hr2). by split_and!.
Qed.

Lemma HistoryStore_save_calm k :
  (k < 100)%nat -> FileSystem.entries s0 !! (dir ++ [tname (Z.of_nat k)]) = None ->
  exists s', run calm (HistoryStore_save store pid entries) [] s0 = (Ok tt, s').
Proof.
  intros Hk Hfree. unfold HistoryStore_save.
  rewrite history_parent_eq, entry_encode_valid by done. cbn [try_bind mbind prog_bind].
  destruct (ensure_private_directory_calm dir fname tname s0 old dir_ne s0_wf dest_durable
    (str "history directory is not a directory") s0) as (s1 & E1 & Hs1 & He1); [by apply idle_refl|].
  rewrite (run_try calm _ _ s0 tt s1) by (by apply run_map_err).
  destruct (first_free_calm dir fname tname s0 old temp_ne s0_wf dest_durable
    (fun attempt => join dir (temporary_name pid attempt)) 100 0 k s1)
    as (b & s2 & E2 & Hw); [apply history_temporary_path|done|by rewrite He1|done|].
  rewrite (run_try calm _ _ s1 (dir ++ [tname b], HFile (next_ino s0)) s2);
    [|by apply run_map_err; unfold create_temporary_file; rewrite (run_try calm _ _ _ _ _ E2)].
  destruct (commit_calm dir fname tname s0 old (layout entries) dir_ne temp_ne s0_wf
    dest_durable b [layout entries] s2) as (s3 & E3 & _); [cbn; by rewrite app_nil_r|done|].
  exists s3. apply run_map_err. by rewrite path_eq.
Qed.
End Save.

(** *** Reading *)

(** The history that a file system holds at the store's path. *)
Definition history_at (s : fs) : Prop :=
  (find s dest = None /\ hist = []) \/
  exists b, private_file s dest b /\ decode b = Ok hist.

Lemma HistoryStore_list_safe s :
  history_at s ->
  safe (fun s' => s' = s) (HistoryStore_list store)
    (fun r s' => s' = s /\ match r with
                           | Ok es => es = hist
                           | Err e => exists error, e = Io error
                           | Panic => False
                           end) s.
Proof.
  intros Hh. unfold HistoryStore_list. rewrite path_eq. fold dest.
  apply safe_bind, safe_op; [done| |].
  { intros v m. split; [done|]. apply safe_ret; [done|]. split; [done|]. by eexists. }
  intros v. cbn [fs_exec].
  destruct Hh as [[Hf ->]|(b & (i & n & Hf & Ht & Hd & Hm) & Hdec)]; rewrite Hf; cbn [fst snd].
  - split; [done|]. by apply safe_ret.
  - split; [done|]. cbn [md_type md_mode]. rewrite Ht, Hm. cbn [is_file negb Z.eqb].
    apply safe_try, safe_map_err, safe_op; [done|intros w m; cbn; by eauto 6|]. intros w.
    rewrite (exec_read w s _ i n) by done. cbn [fst snd map_err]. split; [done|]. split; [done|].
    apply safe_ret; [done|]. by rewrite Hd, Hdec.
Qed.

Lemma HistoryStore_list_calm s :
  history_at s -> run calm (HistoryStore_list store) [] s = (Ok hist, s).
Proof.
  intros Hh. unfold HistoryStore_list. rewrite path_eq. fold dest.
  destruct Hh as [[Hf ->]|(b & (i & n & Hf & Ht & Hd & Hm) & Hdec)].
  - rewrite (run_bind calm _ _ s (Err not_found) s); [done|].
    rewrite run_trigger. cbn. by rewrite Hf.
  - rewrite (run_bind calm _ _ s (Ok (mk_metadata (file_type n) (mode n) (uid n) i)) s);
      [|rewrite run_trigger; cbn; by rewrite Hf].
    cbn [md_type md_mode]. rewrite Ht, Hm. cbn [is_file negb Z.eqb].
    rewrite (run_try calm _ _ s b s);
      [|apply run_map_err; rewrite run_trigger, <- Hd; exact (exec_read calm s _ i n Hf Ht)].
    by rewrite Hdec.
Qed.

(** *** Appending *)

Section Append.
Context (entry : HistoryEntry).

Hypothesis hist_ok : history_ok hist.
Hypothesis hist_at : history_at s0.
Hypothesis entry_good : entry_valid entry.
Hypothesis entry_safe : entry_wf entry.

Lemma HistoryStore_append_safe :
  safe (replacing dir fname tname s0 (layout (push_entry hist entry)))
    (HistoryStore_append store pid entry)
    (saved dir fname tname s0 (layout (push_entry hist entry))) s0.
Proof.
  assert (replacing dir fname tname s0 (layout (push_entry hist entry)) s0) as Hr
    by (apply idle_replacing; by apply idle_refl).
  unfold HistoryStore_append. rewrite (proj2 (validate_entry_valid entry) entry_good).
  cbn [try_bind mbind prog_bind]. apply safe_try.
  eapply safe_mono; [| |by apply HistoryStore_list_safe]; [by intros s ->|].
  intros r s [-> H]. destruct r as [es|e|]; [|by split|done]. subst es.
  destruct (push_entry_ok hist entry) as [Hl Hv _]; [done..|]. by apply HistoryStore_save_safe.
Qed.

Lemma HistoryStore_append_calm k :
  (k < 100)%nat -> FileSystem.entries s0 !! (dir ++ [tname (Z.of_nat k)]) = None ->
  exists s', run calm (HistoryStore_append store pid entry) [] s0 = (Ok tt, s').
Proof.
  intros Hk Hfree. unfold HistoryStore_append.
  rewrite (proj2 (validate_entry_valid entry) entry_good). cbn [try_bind mbind prog_bind].
  rewrite (run_try calm _ _ s0 hist s0) by (by apply HistoryStore_list_calm).
  destruct (push_entry_ok hist entry) as [Hl Hv _]; [done..|].
  by apply (HistoryStore_save_calm _ Hl Hv k).
Qed.
End Append.
End Store.

(** No state of the file system makes [append] panic. *)
Lemma push_text_fails output value : fails_with format_error (push_text output value).
Proof. unfold push_text. solve_fails. Qed.

Lemma encode_fails es : fails_with format_error (encode es).
Proof.
  unfold encode. apply fails_with_if; [done|]. apply fails_with_bind; [by apply fails_with_ok_or|].
  intros n _. generalize (MAGIC ++ to_be 4 n) as output. clear.
  induction es as [|e es IH]; intros output; cbn [encode_entries]; [done|].
  apply fails_with_bind; [apply validate_entry_fails|]. intros _ _.
  apply fails_with_bind; [apply push_text_fails|]. intros o1 _.
  apply fails_with_bind; [apply push_text_fails|]. intros o2 _. apply IH.
Qed.

Lemma total_history_list store : total (HistoryStore_list store).
Proof.
  apply (total_bind _ _ (fun r => r <> Panic)); [apply (total_metadata (store_path store))|].
  intros [md|e|] H; [|destruct (decide _); by apply total_ret|done].
  destruct (negb _); [by apply total_ret|]. destruct (negb _); [by apply total_ret|].
  apply total_try; [auto with total|]. intros b. apply total_ret.
  eapply fails_with_no_panic, entry_decode_fails.
Qed.

Lemma total_append store pid entry : total (HistoryStore_append store pid entry).
Proof.
  apply total_try; [apply total_ret; eapply fails_with_no_panic, validate_entry_fails|]. intros _.
  apply total_try; [apply total_history_list|]. intros es. unfold HistoryStore_save.
  apply total_try; [apply total_ret; by destruct (parent _)|]. intros par.
  apply total_try; [unfold ensure_private_directory; auto with total|]. intros _.
  apply total_try; [apply total_ret; eapply fails_with_no_panic, encode_fails|]. intros b.
  apply total_try; [|intros [t f]; auto with total].
  apply total_map_err. unfold create_temporary_file. apply total_try; [auto with total|].
  intros f. apply total_ret. by destruct f.
Qed.

(** The history format is a bijection between the histories of at most 200 valid
    entries and their encodings: a byte string decodes to [entries] exactly when it is
    what [encode] writes for them. *)
Theorem history_decode_iff_encode b entries :
  decode b = Ok entries <-> encode entries = Ok b /\ Forall entry_wf entries.
Proof.
  split.
  - intros [-> [Hl Hv Hw]]%entry_decode_Ok. by rewrite entry_encode_valid.
  - intros [(Hl & Hv & ->)%entry_encode_Ok Hw]. by apply entry_decode_layout.
Qed.

(** Decoding never panics, whatever the file holds: every input that is not a
    history is reported as invalid. *)
Theorem history_decode_total b : is_ok (decode b) = true \/ decode b = Err InvalidData.
Proof.
  pose proof (entry_decode_fails b) as H. destruct (decode b) as [es|e|]; [by left|right|done].
  by rewrite H.
Qed.

(** Retention: appending keeps the newest entries in order, the new one last; never
    more than 200 of them, and an entry is dropped only when 200 newer ones are kept. *)
Theorem push_entry_retention entries entry :
  exists dropped,
    entries ++ [entry] = dropped ++ push_entry entries entry /\
    len (push_entry entries entry) = Z.min MAX_ENTRIES (len entries + 1) /\
    last (push_entry entries entry) = Some entry.
Proof.
  destruct (push_entry_suffix entries entry) as [k Hk]. exists k.
  assert (len (push_entry entries entry) = Z.min MAX_ENTRIES (len entries + 1)) as Hl.
  { unfold push_entry, MAX_ENTRIES. destruct (_ <? _) eqn:E; bool_lia. }
  split_and!; [done..|].
  assert (last (entries ++ [entry]) = Some entry) as H by apply last_snoc.
  rewrite Hk, last_app in H. destruct (push_entry entries entry) as [|x l] eqn:E; [|].
  - exfalso. pose proof (len_nonneg entries). unfold len at 1, MAX_ENTRIES in Hl. simpl in Hl. lia.
  - rewrite <- E in *. by destruct (last (push_entry entries entry)) eqn:E2; [|apply last_None in E2; congruence].
Qed.

(** [C35] [append] implements [push_entry] on the stored history, atomically and durably.
    Under any faults and at any crash the file holds the old history or the new one, no
    other durable file of the directory changes, and [append] does not panic; when it
    returned success, [list] reads back the new history, from a file only its owner can
    access; and without faults it succeeds. *)
Theorem append_refines_push store pid dir fname s0 old hist entry :
  store_path store = dir ++ [fname] -> dir <> [] -> (forall a, temporary_name pid a <> fname) ->
  fs_wf s0 -> durable_file s0 dir fname old ->
  history_at dir fname hist s0 -> history_ok hist -> entry_valid entry -> entry_wf entry ->
  (forall p s s', reach (HistoryStore_append store pid entry) s0 p s -> crash s s' ->
     (contents s' (dir ++ [fname]) = old \/
      exists b, contents s' (dir ++ [fname]) = Some b /\ decode b = Ok (push_entry hist entry)) /\
     (forall c o, durable_file s0 dir c o -> c <> fname -> (forall a, c <> temporary_name pid a) ->
        contents s' (dir ++ [c]) = o) /\
     (p = Ret (Ok tt) ->
        run calm (HistoryStore_list store) [] s' = (Ok (push_entry hist entry), s')) /\
     p <> Ret Panic) /\
  (forall k, (k < 100)%nat -> FileSystem.entries s0 !! (dir ++ [temporary_name pid (Z.of_nat k)]) = None ->
     exists s, run calm (HistoryStore_append store pid entry) [] s0 = (Ok tt, s)).
Proof.
  intros Hpath Hdir Htemp Hwf Hd Hat Hok Hv Hw. split.
  - intros p s s' Hr Hc.
    pose proof (saved_atomic dir fname (temporary_name pid) s0 old _ _ Hwf Hd
      (HistoryStore_append_safe store pid dir fname s0 old hist Hpath Hdir Htemp Hwf Hd entry Hok Hat Hv Hw)
      p s s' Hr Hc) as (Hdest & Hother & Hdone & Hp).
    pose proof (push_entry_ok hist entry Hok Hv Hw) as Hnew.
    split_and!; [|done| |done].
    + destruct Hdest as [?|?]; [by left|right]. eexists. split; [done|]. by apply entry_decode_layout.
    + intros E. eapply HistoryStore_list_calm; [done|]. right. eexists. split; [by eapply Hdone|].
      by apply entry_decode_layout.
  - intros k Hk Hfree. eapply HistoryStore_append_calm; eauto.
Qed.

(** [list] fails closed: what is not a regular file, or can be read or written by
    the group or by others, is refused without being read. *)
Theorem list_refuses_unsafe store s i n :
  find s (store_path store) = Some (i, n) ->
  is_file (file_type n) = false \/ Z.land (mode n) MODE_0077 <> 0 ->
  run calm (HistoryStore_list store) [] s = (Err InvalidData, s).
Proof.
  intros Hf H. unfold HistoryStore_list.
  rewrite (run_bind calm _ _ s (Ok (mk_metadata (file_type n) (mode n) (uid n) i)) s);
    [|rewrite run_trigger; cbn; by rewrite Hf].
  cbn [md_type md_mode]. destruct (is_file (file_type n)); cbn [negb]; [|done].
  destruct H as [|H]; [done|]. apply Z.eqb_neq in H. by rewrite H.
Qed.

(** ** A concrete history *)

Module Sample.
Definition store : HistoryStore := HistoryStore_new [str "k"; str "h"].
Definition entry : HistoryEntry := mkHistoryEntry 5 (KeyId_new (str "a")) (str "n") NoPin Succeeded.

Lemma entry_valid_now : entry_valid entry.
Proof. by apply validate_entry_valid; vm_compute. Qed.

Lemma entry_wf_now : entry_wf entry.
Proof. by vm_compute. Qed.

Lemma history_temporary_ne a : temporary_name 7 a <> str "h".
Proof. by intros [=]. Qed.

Lemma no_entries_ok : history_ok [].
Proof. split; [vm_compute; discriminate|constructor|constructor]. Qed.

Lemma append_refines_push_witness :
  let s := snd (run calm (HistoryStore_append store 7 entry) [] EmptyDir.state) in
  run calm (HistoryStore_list store) [] s = (Ok [entry], s).
Proof.
  intros s. pose proof (run_reach calm (HistoryStore_append store 7 entry) [] EmptyDir.state) as Hr.
  replace (fst (run calm (HistoryStore_append store 7 entry) [] EmptyDir.state))
    with (Ok tt : result HistoryError unit) in Hr by (vm_compute; reflexivity).
  refine (proj1 (proj2 (proj2 (proj1 (append_refines_push store 7 EmptyDir.dir (str "h") EmptyDir.state
    None [] entry eq_refl _ history_temporary_ne EmptyDir.state_wf (EmptyDir.absent _) _ _
    entry_valid_now entry_wf_now) _ s s Hr (crash_refl s)))) eq_refl).
  - discriminate.
  - left. split; vm_compute; reflexivity.
  - exact no_entries_ok.
Defined.

(** The directory itself, in place of the history. *)
Lemma list_refuses_unsafe_witness :
  run calm (HistoryStore_list (HistoryStore_new EmptyDir.dir)) [] EmptyDir.state =
    (Err InvalidData, EmptyDir.state).
Proof.
  refine (list_refuses_unsafe (HistoryStore_new EmptyDir.dir) EmptyDir.state 1
    (mk_inode Directory MODE_0700 1000 [] []) _ (or_introl _)); vm_compute; reflexivity.
Defined.
End Sample.
