(* ===== verification/Config.v ===== *)
(** The configuration: crates/keyvisor-agent/src/config.rs. *)

From S2P Require Import Prelude Bytes Text Effects FileSystem AtomicFile.

Definition MAGIC : bytes := str "KEYVISOR-CONFIG-1".
Definition DEFAULT_AUTHORIZATION_TIMEOUT_SECONDS : Z := 120.
Definition MIN_AUTHORIZATION_TIMEOUT_SECONDS : Z := 10.
Definition MAX_AUTHORIZATION_TIMEOUT_SECONDS : Z := 120.

(** ** Data *)

Record Config := mkConfig {
  authorization_timeout_seconds : Z;
  history_enabled : bool;
}.

#[global] Instance Config_eq_dec : EqDecision Config.
Proof. solve_decision. Defined.

(** [Config::default]. *)
Definition Config_default : Config := mkConfig DEFAULT_AUTHORIZATION_TIMEOUT_SECONDS true.

Inductive ConfigError :=
  | Io (error : io_error)
  | InvalidData
  | InvalidValue.

#[global] Instance ConfigError_eq_dec : EqDecision ConfigError.
Proof. solve_decision. Defined.

(** [impl Display for ConfigError]. *)
Definition ConfigError_display (self : ConfigError) : bytes :=
  match self with
  | Io error => str "configuration I/O failed: " ++ message error
  | InvalidData => str "configuration data is invalid"
  | InvalidValue => str "configuration setting or value is invalid"
  end.

(** ** Settings *)

Definition TIMEOUT : bytes := str "authorization-timeout-seconds".
Definition HISTORY : bytes := str "history-enabled".

(** [bool::to_string]. *)
Definition bool_to_string (b : bool) : bytes := if b then str "true" else str "false".

Definition Config_get (self : Config) (name : bytes) : option bytes :=
  if decide (name = TIMEOUT) then Some (print_dec (authorization_timeout_seconds self))
  else if decide (name = HISTORY) then Some (bool_to_string (history_enabled self))
  else None.

(** [set] on a copy; the caller keeps the updated configuration. *)
Definition Config_set (self : Config) (name value : bytes) : result ConfigError Config :=
  if decide (name = TIMEOUT) then
    seconds ← ok_or (parse_u64 value) InvalidValue;
    if negb ((MIN_AUTHORIZATION_TIMEOUT_SECONDS <=? seconds)
             && (seconds <=? MAX_AUTHORIZATION_TIMEOUT_SECONDS))
    then Err InvalidValue
    else Ok (mkConfig seconds (history_enabled self))
  else if decide (name = HISTORY) then
    if decide (value = str "true") then Ok (mkConfig (authorization_timeout_seconds self) true)
    else if decide (value = str "false") then Ok (mkConfig (authorization_timeout_seconds self) false)
    else Err InvalidValue
  else Err InvalidValue.

(** ** The file format *)

(** The loop over the lines after the first. *)
Fixpoint parse_lines (lines : list bytes) (config : Config) (timeout_seen history_seen : bool) :
    result ConfigError Config :=
  match lines with
  | [] =>
      if negb timeout_seen || negb history_seen then Err InvalidData
      else Ok config
  | line :: lines =>
      '(name, value) ← ok_or (split_once (b8 61) line) InvalidData;
      '(timeout_seen, history_seen) ←
        (if decide (name = TIMEOUT) then
           if negb timeout_seen then Ok (true, history_seen) else Err InvalidData
         else if decide (name = HISTORY) then
           if negb history_seen then Ok (timeout_seen, true) else Err InvalidData
         else Err InvalidData);
      config ← map_err (fun _ => InvalidData) (Config_set config name value);
      parse_lines lines config timeout_seen history_seen
  end.

Definition parse (contents : bytes) : result ConfigError Config :=
  match lines contents with
  | line :: lines =>
      if decide (line = MAGIC) then parse_lines lines Config_default false false
      else Err InvalidData
  | [] => Err InvalidData
  end.

(** The three [writeln!] of [save]. *)
Definition config_lines (config : Config) : list bytes :=
  [ MAGIC ++ [newline];
    str "authorization-timeout-seconds=" ++ print_dec (authorization_timeout_seconds config) ++ [newline];
    str "history-enabled=" ++ bool_to_string (history_enabled config) ++ [newline] ].

(** ** Operations *)

Record ConfigStore := mkConfigStore { store_path : path }.

(** [ConfigStore::new]. *)
Definition ConfigStore_new (path : path) : ConfigStore := mkConfigStore path.

Definition ensure_private_directory (path : path) : prog fsE (result ConfigError unit) :=
  r ← trigger (SymlinkMetadata path);
  match r with
  | Ok metadata =>
      if negb (is_dir (md_type metadata)) || negb (Z.land (md_mode metadata) MODE_0077 =? 0)
      then Ret (Err InvalidData)
      else Ret (Ok tt)
  | Err error =>
      if decide (kind error = NotFound) then
        _ ←? map_err_prog Io (trigger (CreateDirAll path MODE_0777));
        _ ←? map_err_prog Io (trigger (SetPermissions path MODE_0700));
        Ret (Ok tt)
      else Ret (Err (Io error))
  | Panic => Ret Panic
  end.

Definition temporary_name (pid attempt : Z) : bytes :=
  str ".config." ++ print_dec pid ++ str "." ++ print_dec attempt ++ str ".tmp".

Definition create_temporary_file (pid : Z) (parent : path) :
    prog fsE (result ConfigError (path * handle)) :=
  file ←? map_err_prog Io
    (first_free (fun attempt => join parent (temporary_name pid attempt)) 100 0);
  Ret (ok_or file (Io
    (mk_io_error AlreadyExists (str "cannot allocate a unique configuration temporary file")))).

Definition ConfigStore_save (self : ConfigStore) (pid : Z) (config : Config) :
    prog fsE (result ConfigError unit) :=
  parent ←? Ret (ok_or (parent (store_path self)) InvalidData);
  _ ←? ensure_private_directory parent;
  '(temporary, file) ←? create_temporary_file pid parent;
  map_err_prog Io (commit temporary file (config_lines config) (store_path self) parent).

(** [fs::read_to_string]. *)
Definition read_to_string (p : path) : prog fsE (io_result bytes) :=
  bytes ←? trigger (ReadFile p);
  Ret (from_utf8 (mk_io_error InvalidDataKind (str "stream did not contain valid UTF-8")) bytes).

Definition ConfigStore_load (self : ConfigStore) : prog fsE (result ConfigError Config) :=
  r ← trigger (SymlinkMetadata (store_path self));
  match r with
  | Ok metadata =>
      if negb (is_file (md_type metadata)) || negb (Z.land (md_mode metadata) MODE_0077 =? 0)
      then Ret (Err InvalidData)
      else
        contents ←? map_err_prog Io (read_to_string (store_path self));
        Ret (parse contents)
  | Err error =>
      if decide (kind error = NotFound) then Ret (Ok Config_default)
      else Ret (Err (Io error))
  | Panic => Ret Panic
  end.

(** ** Settings *)

(** The accepted configurations. *)
Definition Config_wf (config : Config) : Prop :=
  MIN_AUTHORIZATION_TIMEOUT_SECONDS <= authorization_timeout_seconds config
    <= MAX_AUTHORIZATION_TIMEOUT_SECONDS.

Lemma Config_default_wf : Config_wf Config_default.
Proof. done. Qed.

Lemma TIMEOUT_HISTORY : HISTORY <> TIMEOUT.
Proof. done. Qed.

Lemma bool_to_string_inj b c : bool_to_string b = bool_to_string c -> b = c.
Proof. by destruct b, c. Qed.

(** The two ways to succeed. *)
Inductive setting (config : Config) : bytes -> bytes -> Config -> Prop :=
  | set_timeout value seconds :
      parse_u64 value = Some seconds ->
      MIN_AUTHORIZATION_TIMEOUT_SECONDS <= seconds <= MAX_AUTHORIZATION_TIMEOUT_SECONDS ->
      setting config TIMEOUT value (mkConfig seconds (history_enabled config))
  | set_history b :
      setting config HISTORY (bool_to_string b)
        (mkConfig (authorization_timeout_seconds config) b).

Lemma Config_set_Ok config name value config' :
  Config_set config name value = Ok config' <-> setting config name value config'.
Proof.
  unfold Config_set. split.
  - destruct (decide (name = TIMEOUT)) as [->|].
    { destruct (parse_u64 value) as [t|] eqn:E; [|done]. cbn [ok_or mbind result_bind].
      destruct (_ && _) eqn:Eb; cbn [negb]; [|done]. intros [= <-]. bool_to_prop.
      by constructor. }
    destruct (decide (name = HISTORY)) as [->|]; [|done].
    destruct (decide (value = str "true")) as [->|]; [intros [= <-]; apply (set_history config true)|].
    destruct (decide (value = str "false")) as [->|]; [intros [= <-]; apply (set_history config false)|done].
  - intros [v t E Ht|b].
    + rewrite decide_True, E by done. cbn [ok_or mbind result_bind].
      destruct (_ && _) eqn:Eb; [done|]. rewrite andb_false_iff, !Z.leb_gt in Eb. lia.
    + rewrite decide_False, decide_True by done. by destruct b.
Qed.

Lemma Config_set_cases config name value :
  Config_set config name value = Err InvalidValue \/
  exists config', Config_set config name value = Ok config'.
Proof.
  unfold Config_set.
  repeat case_decide; eauto. destruct (parse_u64 value); cbn; [|eauto]. destruct (negb _); eauto.
Qed.

Lemma setting_wf config name value config' :
  setting config name value config' -> Config_wf config -> Config_wf config'.
Proof. by intros []. Qed.

(** ** Parsing *)

Definition setting_line (name value : bytes) : bytes := name ++ b8 61 :: value.

(** A line is taken when its setting has not been seen. *)
Lemma parse_lines_cons line lines config ts hs c :
  parse_lines (line :: lines) config ts hs = Ok c <->
  exists name value config', line = setting_line name value /\ (b8 61 ∉ name) /\
    setting config name value config' /\
    (name = TIMEOUT /\ ts = false /\ parse_lines lines config' true hs = Ok c \/
     name = HISTORY /\ hs = false /\ parse_lines lines config' ts true = Ok c).
Proof.
  cbn [parse_lines]. split.
  - intros ([name value] & [-> Hn]%ok_or_Ok_inv%split_once_Some & H)%bind_Ok_inv.
    apply bind_Ok_inv in H as ([ts' hs'] & Hseen & H).
    apply bind_Ok_inv in H as (config' & Hset%map_err_Ok_inv%Config_set_Ok & H).
    exists name, value, config'. split_and!; [done..|].
    repeat case_decide; [| |done].
    + destruct ts; [done|]. injection Hseen as <- <-. auto.
    + destruct hs; [done|]. injection Hseen as <- <-. auto.
  - intros (name & value & config' & -> & Hn & Hset & H). unfold setting_line.
    rewrite split_once_app by done. cbn [ok_or mbind result_bind].
    apply Config_set_Ok in Hset.
    destruct H as [(-> & -> & H)|(-> & -> & H)].
    + rewrite decide_True by done. cbn [negb mbind result_bind]. by rewrite Hset.
    + rewrite decide_False, decide_True by done. cbn [negb mbind result_bind]. by rewrite Hset.
Qed.

Lemma parse_lines_nil config ts hs c :
  parse_lines [] config ts hs = Ok c <-> ts = true /\ hs = true /\ c = config.
Proof. destruct ts, hs; cbn; split; intros; destruct_and?; simplify_eq; auto. Qed.

Lemma parse_lines_done lines config c : parse_lines lines config true true = Ok c -> lines = [] /\ c = config.
Proof.
  destruct lines; [by intros (_ & _ & ?)%parse_lines_nil|].
  intros (? & ? & ? & _ & _ & _ & [(_ & [=] & _)|(_ & [=] & _)])%parse_lines_cons.
Qed.

(** The two settings, each once, in either order. *)
Definition settings_of (c : Config) (v1 v2 : bytes) : Prop :=
  parse_u64 v1 = Some (authorization_timeout_seconds c) /\ Config_wf c /\
  v2 = bool_to_string (history_enabled c).

Lemma setting_TIMEOUT config value c :
  setting config TIMEOUT value c -> exists seconds, parse_u64 value = Some seconds /\
    MIN_AUTHORIZATION_TIMEOUT_SECONDS <= seconds <= MAX_AUTHORIZATION_TIMEOUT_SECONDS /\
    c = mkConfig seconds (history_enabled config).
Proof. intros H. inversion H; subst; eauto. Qed.

Lemma setting_HISTORY config value c :
  setting config HISTORY value c -> exists b, value = bool_to_string b /\
    c = mkConfig (authorization_timeout_seconds config) b.
Proof. intros H. inversion H; subst; eauto. Qed.

Lemma parse_timeout lines config hs v t c :
  parse_u64 v = Some t ->
  MIN_AUTHORIZATION_TIMEOUT_SECONDS <= t <= MAX_AUTHORIZATION_TIMEOUT_SECONDS ->
  parse_lines lines (mkConfig t (history_enabled config)) true hs = Ok c ->
  parse_lines (setting_line TIMEOUT v :: lines) config false hs = Ok c.
Proof.
  intros Hp Ht H. apply parse_lines_cons. exists TIMEOUT, v, (mkConfig t (history_enabled config)).
  split_and!; [done|by apply (bool_decide_unpack _)|by constructor|auto].
Qed.

Lemma parse_history lines config ts b c :
  parse_lines lines (mkConfig (authorization_timeout_seconds config) b) ts true = Ok c ->
  parse_lines (setting_line HISTORY (bool_to_string b) :: lines) config ts false = Ok c.
Proof.
  intros H. apply parse_lines_cons.
  exists HISTORY, (bool_to_string b), (mkConfig (authorization_timeout_seconds config) b).
  split_and!; [done|by apply (bool_decide_unpack _)|constructor|auto].
Qed.

Lemma parse_lines_Ok lines config c :
  parse_lines lines config false false = Ok c <->
  exists v1 v2, settings_of c v1 v2 /\
    (lines = [setting_line TIMEOUT v1; setting_line HISTORY v2] \/
     lines = [setting_line HISTORY v2; setting_line TIMEOUT v1]).
Proof.
  split.
  - destruct lines as [|l1 [|l2 lines]].
    + by intros (? & _)%parse_lines_nil.
    + intros (? & ? & ? & _ & _ & _ & [(_ & _ & (_ & ? & _)%parse_lines_nil)|
        (_ & _ & (? & _)%parse_lines_nil)])%parse_lines_cons; done.
    + intros (n1 & w1 & c1 & -> & _ & Hs1 & [(-> & _ & H)|(-> & _ & H)])%parse_lines_cons;
        apply parse_lines_cons in H as (n2 & w2 & c2 & -> & _ & Hs2 & [(-> & ? & H)|(-> & ? & H)]);
        try done; apply parse_lines_done in H as [-> ->].
      * apply setting_TIMEOUT in Hs1 as (t & Ht & Hb & ->). apply setting_HISTORY in Hs2 as (b & -> & ->).
        exists w1, (bool_to_string b). split; [by split_and!|by left].
      * apply setting_HISTORY in Hs1 as (b & -> & ->). apply setting_TIMEOUT in Hs2 as (t & Ht & Hb & ->).
        exists w2, (bool_to_string b). split; [by split_and!|by right].
  - destruct c as [t h]. intros (v1 & v2 & (Hp & Hwf & ->) & H). cbn in Hp.
    destruct H as [-> | ->].
    + apply (parse_timeout _ _ _ _ t); [done..|]. apply parse_history. by apply parse_lines_nil.
    + apply parse_history. apply (parse_timeout _ _ _ _ t); [done..|]. by apply parse_lines_nil.
Qed.

Lemma parse_lines_fails lines config ts hs :
  fails_with (fun e => e = InvalidData) (parse_lines lines config ts hs).
Proof.
  revert config ts hs. induction lines as [|x lines IH]; intros config ts hs; cbn [parse_lines];
    [by apply fails_with_if|].
  apply fails_with_bind; [by apply fails_with_ok_or|]. intros [n v] _.
  apply fails_with_bind; [repeat case_decide; try apply fails_with_if; done|]. intros [ts' hs'] _.
  apply fails_with_bind; [|done].
  by destruct (Config_set_cases config n v) as [-> |[c' ->]].
Qed.

Lemma parse_fails contents : fails_with (fun e => e = InvalidData) (parse contents).
Proof.
  unfold parse. destruct (lines contents) as [|l ls]; [done|]. case_decide; [|done].
  apply parse_lines_fails.
Qed.

Lemma parse_wf contents config : parse contents = Ok config -> Config_wf config.
Proof.
  unfold parse. destruct (lines contents) as [|l ls]; [done|]. case_decide; [|done].
  by intros (v1 & v2 & (_ & ? & _) & _)%parse_lines_Ok.
Qed.

(** ** Printing *)

Definition config_contents (config : Config) : bytes := concat (config_lines config).

Lemma newline_not_in_bool b : newline ∉ bool_to_string b.
Proof. destruct b; by apply (bool_decide_unpack _). Qed.

Lemma last_print_dec n : exists b, last (print_dec n) = Some b /\ is_digit b = true.
Proof.
  unfold print_dec. pose proof (print_digits_is_digit 20 (Z.max 0 n) ltac:(lia)) as H.
  destruct (print_digits_cons 19 (Z.max 0 n) ltac:(lia)) as (b & l & E & _). rewrite E in *.
  destruct (last (b :: l)) as [c|] eqn:El; [|by apply last_None in El]. exists c. split; [done|].
  rewrite Forall_forall in H. apply H. apply last_Some in El as [l' ->].
  apply elem_of_app. right. left.
Qed.

Lemma lines_config_contents c :
  lines (config_contents c) =
    [MAGIC; setting_line TIMEOUT (print_dec (authorization_timeout_seconds c));
     setting_line HISTORY (bool_to_string (history_enabled c))].
Proof.
  unfold config_contents, config_lines. cbn [concat]. rewrite app_nil_r.
  rewrite <- (app_assoc MAGIC). cbn [app]. rewrite lines_line by (done || by apply (bool_decide_unpack _)). f_equal.
  change (str "authorization-timeout-seconds=") with (TIMEOUT ++ [b8 61]).
  change (str "history-enabled=") with (HISTORY ++ [b8 61]).
  rewrite <- !app_assoc. cbn [app].
  rewrite (app_assoc TIMEOUT (_ :: _) (newline :: _) : TIMEOUT ++ b8 61 :: _ = _).
  rewrite lines_line; [f_equal| |].
  - rewrite (app_assoc HISTORY (_ :: _) [newline] : HISTORY ++ b8 61 :: _ = _).
    rewrite lines_line; [done| |].
    + rewrite not_elem_of_app, not_elem_of_cons. split_and!; [by apply (bool_decide_unpack _)|done|].
      apply newline_not_in_bool.
    + by destruct (history_enabled c).
  - rewrite not_elem_of_app, not_elem_of_cons. split_and!; [by apply (bool_decide_unpack _)|done|].
    by apply print_dec_not_elem.
  - destruct (last_print_dec (authorization_timeout_seconds c)) as (b & Hb & Hd).
    rewrite last_app, last_cons, Hb. intros [= ->]. done.
Qed.

Lemma parse_config_contents c : Config_wf c -> parse (config_contents c) = Ok c.
Proof.
  intros Hwf. unfold parse. rewrite lines_config_contents, decide_True by done.
  apply parse_lines_Ok. eexists _, _. split; [split_and!|by left]; [|done..].
  apply parse_print_dec. unfold Config_wf, MIN_AUTHORIZATION_TIMEOUT_SECONDS,
    MAX_AUTHORIZATION_TIMEOUT_SECONDS in Hwf. unfold u64_max. lia.
Qed.

(** What is written is ASCII text. *)
Lemma config_contents_utf8 c : utf8_valid (config_contents c) = true.
Proof.
  apply utf8_ascii. unfold config_contents, config_lines. cbn [concat].
  rewrite !forallb_app. unfold print_dec.
  assert (forallb is_ascii (print_digits 20 (Z.max 0 (authorization_timeout_seconds c))) = true) as ->.
  { apply forallb_forall. intros b Hb%list_elem_of_In.
    pose proof (print_digits_is_digit 20 (Z.max 0 (authorization_timeout_seconds c)) ltac:(lia)) as H.
    rewrite Forall_forall in H. apply H in Hb. unfold is_digit, in_range in Hb. unfold is_ascii. lia. }
  by destruct (history_enabled c).
Qed.

(** [set] and [get]: a successful [set] stores a value that [get] prints back in
    canonical form, leaves the other setting alone and keeps the timeout between 10 and
    120 seconds; what [get] prints, [set] accepts without any change; and every other
    name or value is rejected as an invalid value. *)
Theorem config_set_get config name value :
  Config_wf config ->
  (forall printed, Config_get config name = Some printed -> Config_set config name printed = Ok config) /\
  match Config_set config name value with
  | Ok config' => Config_wf config' /\
      (name = TIMEOUT /\ Config_get config' name = print_dec <$> parse_u64 value \/
       name = HISTORY /\ Config_get config' name = Some value) /\
      forall other, other <> name -> Config_get config' other = Config_get config other
  | Err e => e = InvalidValue /\ ~ exists config', setting config name value config'
  | Panic => False
  end.
Proof.
  intros Hwf. split.
  - intros printed. unfold Config_get. intros H. apply Config_set_Ok. destruct config as [t h].
    repeat case_decide; subst; simplify_eq; cbn in *.
    + apply (set_timeout (mkConfig t h)); [|done]. apply parse_print_dec.
      unfold Config_wf, MIN_AUTHORIZATION_TIMEOUT_SECONDS, MAX_AUTHORIZATION_TIMEOUT_SECONDS in Hwf.
      cbn in Hwf. unfold u64_max. lia.
    + apply (set_history (mkConfig t h)).
  - destruct (Config_set_cases config name value) as [E|[config' E]]; rewrite E.
    + split; [done|]. intros [config' H%Config_set_Ok]. congruence.
    + apply Config_set_Ok in E. split; [by eapply setting_wf|].
      destruct E as [v t Hp Ht|b]; unfold Config_get; cbn.
      * split; [left; split; [done|]; by rewrite Hp|]. intros other Ho. by rewrite !(decide_False (P := other = TIMEOUT)).
      * split; [right; by split|]. intros other Ho. by rewrite !(decide_False (P := other = HISTORY)).
Qed.

(** [C37] The parser accepts exactly the files whose lines are the magic line and the two
    settings, each once, in either order, with a timeout from 10 to 120 seconds and a
    history flag of [true] or [false]; it reports every other file as invalid data; and
    it reads back what [save] writes. *)
Theorem config_parse_spec contents :
  (forall config, Config_wf config -> parse (config_contents config) = Ok config) /\
  match parse contents with
  | Ok config => exists v1 v2, settings_of config v1 v2 /\
      (lines contents = [MAGIC; setting_line TIMEOUT v1; setting_line HISTORY v2] \/
       lines contents = [MAGIC; setting_line HISTORY v2; setting_line TIMEOUT v1])
  | Err e => e = InvalidData /\ ~ exists config v1 v2, settings_of config v1 v2 /\
      (lines contents = [MAGIC; setting_line TIMEOUT v1; setting_line HISTORY v2] \/
       lines contents = [MAGIC; setting_line HISTORY v2; setting_line TIMEOUT v1])
  | Panic => False
  end.
Proof.
  split; [apply parse_config_contents|].
  assert (forall config, parse contents = Ok config <->
    exists v1 v2, settings_of config v1 v2 /\
      (lines contents = [MAGIC; setting_line TIMEOUT v1; setting_line HISTORY v2] \/
       lines contents = [MAGIC; setting_line HISTORY v2; setting_line TIMEOUT v1])) as Hiff.
  { intros config. unfold parse. destruct (lines contents) as [|l ls];
      [split; [done|by intros (? & ? & _ & [?|?])]|].
    case_decide as Hm; [subst l|split; [done|]; intros (? & ? & _ & [[= E _]|[= E _]]); by destruct Hm].
    rewrite parse_lines_Ok. split; intros (v1 & v2 & Hs & H); exists v1, v2; (split; [done|]);
      destruct H as [H|H]; [left|right|left|right]; congruence. }
  pose proof (parse_fails contents) as Hf.
  destruct (parse contents) as [c|e|] eqn:E; [by apply Hiff|split; [done|]|done].
  intros (c & H%Hiff). congruence.
Qed.

(** ** The store *)

Section Store.
Context (store : ConfigStore) (pid : Z) (dir : path) (fname : bytes) (s0 : fs).
Context (old : option bytes).

Let tname : Z -> bytes := temporary_name pid.
Let dest : path := dir ++ [fname].

Hypothesis path_eq : store_path store = dir ++ [fname].
Hypothesis dir_ne : dir <> [].
Hypothesis temp_ne : forall a, temporary_name pid a <> fname.
Hypothesis s0_wf : fs_wf s0.
Hypothesis dest_durable : durable_file s0 dir fname old.

Lemma config_temporary_name_ok a : name_ok (tname a).
Proof.
  unfold tname, temporary_name. split_and!; [|done|].
  - rewrite !not_elem_of_app. split_and!;
      try (by apply (bool_decide_unpack _)); by apply print_dec_not_elem.
  - intros H%(f_equal last). rewrite !last_app in H. by simpl in H.
Qed.

Lemma config_temporary_path a : join dir (temporary_name pid a) = dir ++ [tname a].
Proof. apply join_name, config_temporary_name_ok. Qed.

Lemma config_parent_eq : ok_or (parent (store_path store)) InvalidData = Ok dir.
Proof. by rewrite path_eq, parent_snoc. Qed.

Section Save.
Context (config : Config).

Let new : bytes := config_contents config.

(** An existing directory is checked, and never changed. *)
Lemma config_directory_safe s :
  idle dir fname tname s0 s ->
  safe (replacing dir fname tname s0 new) (ensure_private_directory dir)
    (fun r s => r <> Panic /\ idle dir fname tname s0 s) s.
Proof.
  intros Hs. apply safe_bind.
  eapply safe_mono; [done| |by apply (symlink_metadata_safe _ _ _ _ old)].
  intros [m|e|] s1 [Hs1 Hr]; [| |done]; pose proof (idle_replacing _ _ _ _ new _ Hs1).
  - destruct (_ || _); by apply safe_ret.
  - rewrite decide_False by congruence. by apply safe_ret.
Qed.

Lemma ConfigStore_save_safe :
  safe (replacing dir fname tname s0 new) (ConfigStore_save store pid config)
    (saved dir fname tname s0 new) s0.
Proof.
  unfold ConfigStore_save. rewrite config_parent_eq. cbn [try_bind mbind prog_bind].
  apply safe_try.
  eapply safe_mono; [done| |by apply config_directory_safe, idle_refl].
  intros r s1 [Hr Hs1]. pose proof (idle_replacing _ _ _ _ new _ Hs1) as Hi.
  destruct r as [[]|e|]; [|by split|done].
  apply safe_try, safe_try, safe_map_err.
  eapply safe_mono; [done| |apply (first_free_safe dir fname tname s0 old);
    [done..|apply config_temporary_path|done]].
  intros r s2 Hr2. clear s1 Hs1 Hi Hr.
  destruct r as [[[t h]|]|e|]; cbn [map_err ok_or]; [| | |done].
  - destruct Hr2 as (-> & a & -> & Hw). pose proof (writing_replacing _ _ _ _ new _ _ _ Hw).
    split; [done|]. apply safe_ret; [done|]. rewrite path_eq. apply safe_map_err.
    eapply safe_mono; [done| |apply (commit_safe dir fname tname s0 old); [done..|exact Hw]].
    intros r s. apply replaced_saved.
  - pose proof (idle_replacing _ _ _ _ new _ Hr2). split; [done|]. by apply safe_ret.
  - pose proof (idle_replacing _ _ _ _ new _ Hr2). by split_and!.
Qed.

Lemma ConfigStore_save_calm k i n :
  find s0 dir = Some (i, n) -> Z.land (mode n) MODE_0077 = 0 ->
  (k < 100)%nat -> FileSystem.entries s0 !! (dir ++ [tname (Z.of_nat k)]) = None ->
  exists s', run calm (ConfigStore_save store pid config) [] s0 = (Ok tt, s').
Proof.
  intros Hf Hm Hk Hfree. unfold ConfigStore_save. rewrite config_parent_eq. cbn [try_bind mbind prog_bind].
  destruct (frame_dir dir fname tname s0 old dir_ne s0_wf dest_durable s0)
    as (i' & n' & Hf' & Ht & _); [by apply frame_refl|].
  rewrite Hf in Hf'. injection Hf' as <- <-.
  rewrite (run_try calm _ _ s0 tt s0); cycle 1.
  { unfold ensure_private_directory.
    rewrite (run_bind calm _ _ s0 (Ok (mk_metadata (file_type n) (mode n) (uid n) i)) s0);
      [|rewrite run_trigger; cbn; by rewrite Hf].
    cbn [md_type md_mode]. by rewrite Ht, Hm. }
  destruct (first_free_calm dir fname tname s0 old temp_ne s0_wf dest_durable
    (fun attempt => join dir (temporary_name pid attempt)) 100 0 k s0)
    as (b & s2 & E2 & Hw); [apply config_temporary_path|by apply idle_refl|done|done|].
  rewrite (run_try calm _ _ s0 (dir ++ [tname b], HFile (next_ino s0)) s2); cycle 1.
  { unfold create_temporary_file. by rewrite (run_try calm _ _ _ _ _ (run_map_err calm Io _ _ _ _ E2)). }
  destruct (commit_calm dir fname tname s0 old new dir_ne temp_ne s0_wf
    dest_durable b (config_lines config) s2) as (s3 & E3 & _); [done..|].
  exists s3. apply run_map_err. by rewrite path_eq.
Qed.
End Save.

(** *** Reading *)

Lemma ConfigStore_load_calm s b :
  private_file s dest b -> utf8_valid b = true ->
  run calm (ConfigStore_load store) [] s = (parse b, s).
Proof.
  intros (i & n & Hf & Ht & Hd & Hm) Hu. unfold ConfigStore_load. rewrite path_eq. fold dest.
  rewrite (run_bind calm _ _ s (Ok (mk_metadata (file_type n) (mode n) (uid n) i)) s);
    [|rewrite run_trigger; cbn; by rewrite Hf].
  cbn [md_type md_mode]. rewrite Ht, Hm. cbn [is_file negb Z.eqb orb].
  rewrite (run_try calm _ _ s b s); [done|]. apply run_map_err. unfold read_to_string.
  rewrite (run_try_op calm _ _ s b s);
    [|rewrite <- Hd; exact (exec_read calm s _ i n Hf Ht)].
  unfold from_utf8. by rewrite Hu.
Qed.
End Store.

(** [C36] [save] replaces the configuration atomically and durably, and [load] reads it
    back.  Under any faults and at any crash the file has the old contents or those of the
    new configuration, no other durable file of the directory changes, and [save] does not
    panic; after a success [load] returns the saved configuration; and without faults, in
    a directory that is the owner's alone, [save] succeeds. *)
Theorem config_save_load store pid dir fname s0 old config :
  store_path store = dir ++ [fname] -> dir <> [] -> (forall a, temporary_name pid a <> fname) ->
  fs_wf s0 -> durable_file s0 dir fname old -> Config_wf config ->
  (forall p s s', reach (ConfigStore_save store pid config) s0 p s -> crash s s' ->
     (contents s' (dir ++ [fname]) = old \/
      contents s' (dir ++ [fname]) = Some (config_contents config)) /\
     (forall c o, durable_file s0 dir c o -> c <> fname -> (forall a, c <> temporary_name pid a) ->
        contents s' (dir ++ [c]) = o) /\
     (p = Ret (Ok tt) -> run calm (ConfigStore_load store) [] s' = (Ok config, s')) /\
     p <> Ret Panic) /\
  (forall k i n, find s0 dir = Some (i, n) -> Z.land (mode n) MODE_0077 = 0 ->
     (k < 100)%nat -> FileSystem.entries s0 !! (dir ++ [temporary_name pid (Z.of_nat k)]) = None ->
     exists s, run calm (ConfigStore_save store pid config) [] s0 = (Ok tt, s)).
Proof.
  intros Hpath Hdir Htemp Hwf Hd Hc. split.
  - intros p s s' Hr Hcr.
    pose proof (saved_atomic dir fname (temporary_name pid) s0 old _ _ Hwf Hd
      (ConfigStore_save_safe store pid dir fname s0 old Hpath Hdir Htemp Hwf Hd config)
      p s s' Hr Hcr) as (Hdest & Hother & Hdone & Hp).
    split_and!; [done|done| |done]. intros E.
    rewrite (ConfigStore_load_calm store dir fname Hpath s' (config_contents config)).
    + by rewrite parse_config_contents.
    + by eapply Hdone.
    + apply config_contents_utf8.
  - intros. by eapply ConfigStore_save_calm.
Qed.

(** What [load] can answer. *)
Definition loaded (store : ConfigStore) (s : fs) (r : result ConfigError Config) : Prop :=
  match r with
  | Ok config => Config_wf config /\
      (find s (store_path store) = None /\ config = Config_default \/
       exists b, private_file s (store_path store) b /\ utf8_valid b = true /\ parse b = Ok config)
  | Err e => e <> InvalidValue
  | Panic => False
  end.

Lemma ConfigStore_load_safe store s :
  safe (fun s' => s' = s) (ConfigStore_load store) (fun r s' => s' = s /\ loaded store s r) s.
Proof.
  unfold ConfigStore_load. apply safe_bind, safe_op; [done| |].
  { intros v m. split; [done|]. by apply safe_ret. }
  intros v. cbn [fs_exec]. destruct (find s (store_path store)) as [[i n]|] eqn:Hf; cbn [fst snd].
  - split; [done|]. cbn [md_type md_mode]. destruct (_ || _) eqn:E; [by apply safe_ret|].
    apply orb_false_iff in E as [Ht%negb_false_iff Hm%negb_false_iff%Z.eqb_eq].
    assert (file_type n = Regular) as Hreg by (by destruct (file_type n)).
    apply safe_try, safe_map_err, safe_try, safe_op; [done|intros w m; by cbn|].
    intros w. rewrite (exec_read w s _ i n) by done. cbn [fst snd]. split; [done|].
    unfold from_utf8. destruct (utf8_valid (data n)) eqn:Hu; apply safe_ret; try done.
    split; [done|]. cbn [map_err]. apply safe_ret; [done|]. split; [done|].
    pose proof (parse_fails (data n)) as Hp.
    destruct (parse (data n)) as [c|e|] eqn:Ep; [|by rewrite Hp|done].
    split; [by eapply parse_wf|]. right. exists (data n). split_and!; [|done..].
    by exists i, n.
  - split; [done|]. apply safe_ret; [done|]. split; [done|]. split; [apply Config_default_wf|by left].
Qed.

(** [load] fails closed, and defaults only when there is no configuration.  Every
    configuration it ever returns has a timeout from 10 to 120 seconds; a file that is not
    regular or not the owner's alone is refused without being read. *)
Theorem config_load_closed store s r s' :
  reach (ConfigStore_load store) s (Ret r) s' ->
  s' = s /\
  match r with
  | Ok config => Config_wf config /\
      (find s (store_path store) = None /\ config = Config_default \/
       exists b, private_file s (store_path store) b /\ utf8_valid b = true /\ parse b = Ok config)
  | Err e => e <> InvalidValue
  | Panic => False
  end.
Proof. intros Hr. exact (safe_reach_ret _ _ _ _ _ _ (ConfigStore_load_safe store s) Hr). Qed.

(** ** A concrete configuration *)

Module Sample.
Definition store : ConfigStore := ConfigStore_new [str "k"; str "c"].
Definition config : Config := mkConfig 30 false.

Lemma config_wf_now : Config_wf config.
Proof. by vm_compute. Qed.

Lemma config_set_get_witness :
  exists config', Config_set config TIMEOUT (str "+60") = Ok config' /\
    Config_get config' TIMEOUT = print_dec <$> parse_u64 (str "+60").
Proof.
  exists (mkConfig 60 false). split; [vm_compute; reflexivity|].
  pose proof (proj2 (config_set_get config TIMEOUT (str "+60") config_wf_now)) as H.
  replace (Config_set config TIMEOUT (str "+60")) with (Ok (E:=ConfigError) (mkConfig 60 false)) in H
    by (vm_compute; reflexivity).
  destruct H as (_ & [[_ H]|[H _]] & _); [exact H|discriminate H].
Defined.

Lemma config_temporary_ne a : temporary_name 7 a <> str "c".
Proof. by intros [=]. Qed.

Lemma config_save_load_witness :
  let s := snd (run calm (ConfigStore_save store 7 config) [] EmptyDir.state) in
  run calm (ConfigStore_load store) [] s = (Ok config, s).
Proof.
  intros s. pose proof (run_reach calm (ConfigStore_save store 7 config) [] EmptyDir.state) as Hr.
  replace (fst (run calm (ConfigStore_save store 7 config) [] EmptyDir.state))
    with (Ok tt : result ConfigError unit) in Hr by (vm_compute; reflexivity).
  refine (proj1 (proj2 (proj2 (proj1 (config_save_load store 7 EmptyDir.dir (str "c") EmptyDir.state
    None config eq_refl _ config_temporary_ne EmptyDir.state_wf (EmptyDir.absent _) config_wf_now)
    _ s s Hr (crash_refl s)))) eq_refl).
  discriminate.
Defined.

(** Without a configuration file the defaults are in force. *)
Lemma config_load_closed_witness :
  reach (ConfigStore_load store) EmptyDir.state (Ret (Ok Config_default)) EmptyDir.state /\
  Config_wf Config_default.
Proof.
  assert (reach (ConfigStore_load store) EmptyDir.state (Ret (Ok Config_default)) EmptyDir.state) as Hr.
  { pose proof (run_reach calm (ConfigStore_load store) [] EmptyDir.state) as Hr.
    replace (run calm (ConfigStore_load store) [] EmptyDir.state)
      with ((Ok Config_default : result ConfigError Config), EmptyDir.state) in Hr
      by (vm_compute; reflexivity). exact Hr. }
  split; [exact Hr|].
  exact (proj1 (proj2 (config_load_closed store EmptyDir.state _ EmptyDir.state Hr))).
Defined.
End Sample.
