(* ===== verification/Broker.v ===== *)
(** The PIN broker of the agent: [request_pin] and the [AUTHORIZE] command of
    crates/keyvisor-agent/src/main.rs.

    A request waits in its own thread for a PIN; a control thread that authorizes it takes
    its entry out of [authorizations] and then sends the PIN over the entry's channel.
    The two statements are separate critical sections, so the threads interleave: the
    state below is shared by all of them and an [event] is one atomic step of one. *)

From S2P Require Import Prelude Bytes Text.

(** ** Identifiers *)

(** [{:x}] of a [u32]: no leading zeros. *)
Fixpoint strip_zeros (l : bytes) : bytes :=
  match l with
  | [] => []
  | [b] => [b]
  | b :: l' => if decide (b = b8 48) then strip_zeros l' else l
  end.
Definition lower_hex_u32 (z : Z) : bytes := strip_zeros (hex_encode (to_be 4 z)).
(** [{:016x}] of a [u64]. *)
Definition lower_hex_u64 (z : Z) : bytes := hex_encode (to_be 8 z).

Definition request_id (pid sequence : Z) : bytes :=
  lower_hex_u32 pid ++ str "-" ++ lower_hex_u64 sequence.

(** ** State *)

(** A channel is named by the number of the request that made it; holding the number in
    [pa_sender] is holding its only sender. *)
Record PendingAuthorization := mkPending {
  pa_key_name : bytes;
  pa_sender : Z;
}.

(** How far the channel of a call of [request_pin] is: nothing was received yet; [try_recv]
    gave the PIN, or found that the sender is gone; the loop has ended and the entry is
    removed; the call has returned, and the receiver is dropped. *)
Inductive phase :=
  | Waiting
  | Stopping (outcome : result bytes bytes)
  | Leaving (outcome : result bytes bytes)
  | Returned (outcome : result bytes bytes).

Record request := mkRequest {
  rq_id : bytes;
  rq_key_name : bytes;
  rq_phase : phase;
  rq_channel : option bytes;
}.

(** [held] are the senders taken by control connections that have not sent yet, with the
    PIN they will send; [lock_poisoned] is whether a thread panicked under the mutex of
    [authorizations].  Times are in milliseconds. *)
Record broker := mkBroker {
  process_id : Z;
  started : Z;
  authorizations : gmap bytes PendingAuthorization;
  requests : gmap Z request;
  held : gmap Z (Z * bytes);
  clock : Z;
  lock_poisoned : bool;
}.

(** [static NEXT_REQUEST_ID: AtomicU64 = AtomicU64::new(1)], which wraps around. *)
Definition NEXT_REQUEST_ID (s : broker) : Z := (1 + started s) mod 2 ^ 64.

Definition broker_init (pid : Z) : broker := mkBroker pid 0 ∅ ∅ ∅ 0 false.

(** ** Channel operations *)

Inductive try_recv_result := Received (pin : bytes) | Empty | Disconnected.

Definition sender_alive (s : broker) (ch : Z) : bool :=
  bool_decide (map_Exists (fun _ p => pa_sender p = ch) (authorizations s)) ||
  bool_decide (map_Exists (fun _ h => fst h = ch) (held s)).

Definition try_recv (s : broker) (ch : Z) (r : request) : try_recv_result :=
  match rq_channel r with
  | Some pin => Received pin
  | None => if sender_alive s ch then Empty else Disconnected
  end.

Definition receiver_dropped (r : request) : bool :=
  match rq_phase r with Returned _ => true | _ => false end.

(** ** Steps *)

Definition CANCELLED : bytes := str "authorization request was cancelled".
Definition TIMED_OUT : bytes := str "TPM PIN entry timed out".
Definition CLIENT_GONE : bytes := str "TPM PIN entry cancelled because the SSH client disconnected".
Definition UNAVAILABLE : bytes := str "authorization state is unavailable".
Definition NOT_PENDING : bytes := str "authorization request is not pending".
Definition NOT_ACTIVE : bytes := str "authorization request is no longer active".

Definition set_authorizations (s : broker) (m : gmap bytes PendingAuthorization) : broker :=
  mkBroker (process_id s) (started s) m (requests s) (held s) (clock s) (lock_poisoned s).
Definition set_request (s : broker) (ch : Z) (r : request) : broker :=
  mkBroker (process_id s) (started s) (authorizations s) (<[ch := r]> (requests s)) (held s) (clock s)
    (lock_poisoned s).
Definition set_held (s : broker) (h : gmap Z (Z * bytes)) : broker :=
  mkBroker (process_id s) (started s) (authorizations s) (requests s) h (clock s) (lock_poisoned s).
Definition set_phase (r : request) (p : phase) : request :=
  mkRequest (rq_id r) (rq_key_name r) p (rq_channel r).
Definition set_channel (r : request) (c : option bytes) : request :=
  mkRequest (rq_id r) (rq_key_name r) (rq_phase r) c.

(** The start of [request_pin]: a fresh identifier and channel, and the table entry.  The
    counter's increment and the insertion are one step, as nothing else reads the counter. *)
Definition begin_request (s : broker) (key_name : bytes) : broker :=
  let sequence := NEXT_REQUEST_ID s in
  let id := request_id (process_id s) sequence in
  let ch := started s in
  if lock_poisoned s then
    mkBroker (process_id s) (started s + 1) (authorizations s) (requests s) (held s) (clock s) true
  else
    mkBroker (process_id s) (started s + 1)
      (<[id := mkPending key_name ch]> (authorizations s))
      (<[ch := mkRequest id key_name Waiting None]> (requests s))
      (held s) (clock s) false.

(** [receiver.try_recv()]. *)
Definition receive (s : broker) (ch : Z) (r : request) : broker :=
  match try_recv s ch r with
  | Received pin => set_request s ch (set_channel (set_phase r (Stopping (Ok pin))) None)
  | Disconnected => set_request s ch (set_phase r (Stopping (Err CANCELLED)))
  | Empty => s
  end.

(** After the loop: [if let Ok(mut pending) = self.authorizations.lock()], the entry is
    removed. *)
Definition remove_request (s : broker) (ch : Z) (r : request) (outcome : result bytes bytes) : broker :=
  set_request
    (if lock_poisoned s then s else set_authorizations s (delete (rq_id r) (authorizations s))) ch
    (set_phase r (Leaving outcome)).

(** The function returns and drops the receiver. *)
Definition finish_request (s : broker) (ch : Z) (r : request) (outcome : result bytes bytes) : broker :=
  set_request s ch (set_phase r (Returned outcome)).

(** What the loop may end with: what was received, or giving up. *)
Definition may_leave (r : request) (outcome : result bytes bytes) : bool :=
  match rq_phase r with
  | Waiting => negb (is_ok outcome)
  | Stopping received => bool_decide (outcome = received)
  | Leaving _ | Returned _ => false
  end.

(** [authorizations.lock()?.remove(id)] of the control connection [conn]. *)
Definition take_request (s : broker) (conn : Z) (id pin : bytes) : result bytes broker :=
  if lock_poisoned s then Err UNAVAILABLE
  else
    match authorizations s !! id with
    | Some p => Ok (set_held (set_authorizations s (delete id (authorizations s)))
                      (<[conn := (pa_sender p, pin)]> (held s)))
    | None => Err NOT_PENDING
    end.

(** [request.sender.send(pin)]: [None] is a send that blocks on a full channel. *)
Definition send_pin (s : broker) (conn : Z) (ch : Z) (pin : bytes) : option (result bytes broker) :=
  match requests s !! ch with
  | Some r =>
      if receiver_dropped r then Some (Err NOT_ACTIVE)
      else match rq_channel r with
           | None => Some (Ok (set_held (set_request s ch (set_channel r (Some pin)))
                                 (delete conn (held s))))
           | Some _ => None
           end
  | None => Some (Err NOT_ACTIVE)
  end.

(** The [LIST] command. *)
Definition list_pending (s : broker) : list (bytes * bytes) :=
  (fun '(id, p) => (id, pa_key_name p)) <$> map_to_list (authorizations s).

(** ** The whole agent: one step of one of its threads *)

Inductive event :=
  | Begin (key_name : bytes)
  | Recv (ch : Z)
  | Remove (ch : Z) (outcome : result bytes bytes)
  | Finish (ch : Z)
  | Take (conn : Z) (id pin : bytes)
  | Deliver (conn : Z)
  | Tick (ms : Z).

(** [None] when the thread is not at that step. *)
Definition step (s : broker) (e : event) : option broker :=
  match e with
  | Begin key_name => Some (begin_request s key_name)
  | Recv ch =>
      r ← requests s !! ch;
      match rq_phase r with
      | Waiting => Some (receive s ch r)
      | _ => None
      end
  | Remove ch outcome =>
      r ← requests s !! ch;
      if may_leave r outcome then Some (remove_request s ch r outcome) else None
  | Finish ch =>
      r ← requests s !! ch;
      match rq_phase r with
      | Leaving outcome => Some (finish_request s ch r outcome)
      | _ => None
      end
  | Take conn id pin =>
      match held s !! conn with
      | Some _ => None
      | None =>
          match take_request s conn id pin with
          | Ok s => Some s
          | _ => Some s
          end
      end
  | Deliver conn =>
      '(ch, pin) ← held s !! conn;
      match send_pin s conn ch pin with
      | Some (Ok s) => Some s
      | Some _ => Some (set_held s (delete conn (held s)))
      | None => None
      end
  | Tick ms => if 0 <=? ms then Some (mkBroker (process_id s) (started s) (authorizations s)
                                       (requests s) (held s) (clock s + ms) (lock_poisoned s))
               else None
  end.

Fixpoint steps (s : broker) (es : list event) : option broker :=
  match es with
  | [] => Some s
  | e :: es => s ← step s e; steps s es
  end.

Lemma started_begin s name : started (begin_request s name) = started s + 1.
Proof. unfold begin_request. by destruct (lock_poisoned s). Qed.

(** ** Identifiers are unique *)

Lemma to_be_inj n x y :
  0 <= x < 256 ^ Z.of_nat n -> 0 <= y < 256 ^ Z.of_nat n -> to_be n x = to_be n y -> x = y.
Proof. intros Hx Hy H%(f_equal from_be). by rewrite !from_be_to_be_small in H. Qed.

Lemma request_id_inj pid x y :
  0 <= x < 2 ^ 64 -> 0 <= y < 2 ^ 64 -> request_id pid x = request_id pid y -> x = y.
Proof.
  intros Hx Hy H. unfold request_id in H.
  do 2 apply app_inv_head in H. apply hex_encode_inj, to_be_inj in H; lia.
Qed.

(** The identifier of the request numbered [ch]. *)
Definition id_of (pid ch : Z) : bytes := request_id pid ((1 + ch) mod 2 ^ 64).

Lemma id_of_inj pid x y :
  0 <= x < 2 ^ 64 -> 0 <= y < 2 ^ 64 -> id_of pid x = id_of pid y -> x = y.
Proof.
  intros Hx Hy H%request_id_inj; [|apply Z.mod_pos_bound; lia..].
  rewrite !Z.mod_eq in H by lia.
  assert (1 + x < 2 ^ 64 \/ 1 + x = 2 ^ 64) as [Ex|Ex] by lia;
    assert (1 + y < 2 ^ 64 \/ 1 + y = 2 ^ 64) as [Ey|Ey] by lia;
    rewrite ?Ex, ?Ey, ?Z_div_same_full in H by lia;
    rewrite ?(Z.div_small (1 + x)), ?(Z.div_small (1 + y)) in H by lia; lia.
Qed.

(** ** The invariant *)

(** No PIN has been sent to the request, nor received by it. *)
Definition no_pin (r : request) : Prop :=
  rq_channel r = None /\
  match rq_phase r with Stopping (Ok _) | Leaving (Ok _) | Returned (Ok _) => False | _ => True end.

(** Its entry is removed. *)
Definition leaves (r : request) : bool :=
  match rq_phase r with Leaving _ | Returned _ => true | _ => false end.
Lemma dropped_leaves r : receiver_dropped r = true -> leaves r = true.
Proof. unfold receiver_dropped, leaves. by destruct (rq_phase r). Qed.

Definition alive (s : broker) (ch : Z) : Prop :=
  (exists id p, authorizations s !! id = Some p /\ pa_sender p = ch) \/
  (exists conn pin, held s !! conn = Some (ch, pin)).

Lemma sender_alive_spec s ch : sender_alive s ch = true <-> alive s ch.
Proof.
  unfold sender_alive, alive, map_Exists. rewrite orb_true_iff, !bool_decide_eq_true.
  split; intros [H|H]; [left|right|left|right]; try exact H.
  - destruct H as (conn & [c pin] & H & E). simpl in E. subst. eauto.
  - destruct H as (conn & pin & H). exists conn, (ch, pin). done.
Qed.

Record inv (s : broker) : Prop := {
  inv_lock : lock_poisoned s = false;
  inv_started : 0 <= started s;
  inv_request : forall ch r, requests s !! ch = Some r ->
    0 <= ch < started s /\ rq_id r = id_of (process_id s) ch;
  inv_table : forall id p, authorizations s !! id = Some p ->
    exists r, requests s !! pa_sender p = Some r /\ rq_id r = id /\
      pa_key_name p = rq_key_name r /\ no_pin r /\ receiver_dropped r = false;
  inv_held : forall conn ch pin, held s !! conn = Some (ch, pin) ->
    exists r, requests s !! ch = Some r /\ authorizations s !! rq_id r = None /\ no_pin r;
  inv_unique : forall c1 c2 ch p1 p2,
    held s !! c1 = Some (ch, p1) -> held s !! c2 = Some (ch, p2) -> c1 = c2;
  inv_waiting : forall ch r, requests s !! ch = Some r -> rq_phase r = Waiting ->
    rq_channel r = None -> alive s ch;
  inv_leaving : forall ch r o, requests s !! ch = Some r -> rq_phase r = Leaving o ->
    authorizations s !! rq_id r = None;
}.

Lemma inv_init pid : inv (broker_init pid).
Proof. by split. Qed.

(** A request that is not in the table has no entry under its number either. *)
Lemma inv_entry s id p ch r :
  inv s -> authorizations s !! id = Some p -> pa_sender p = ch -> requests s !! ch = Some r ->
  id = rq_id r.
Proof. intros Hi Hp Hc Hr. destruct (inv_table s Hi id p Hp) as (r' & Hr' & <- & _). congruence. Qed.

(** Changing one request in a way that respects the table, [held] and its own waiting. *)
Lemma inv_set_request s ch r r' :
  inv s -> requests s !! ch = Some r -> rq_id r' = rq_id r -> rq_key_name r' = rq_key_name r ->
  (alive s ch -> no_pin r') ->
  (leaves r' = true -> authorizations s !! rq_id r = None) ->
  (rq_phase r' = Waiting -> rq_channel r' = None -> alive s ch) ->
  inv (set_request s ch r').
Proof.
  intros Hi Hr Hid Hname Hpin Hdrop Hwait. split; cbn.
  - apply Hi.
  - apply Hi.
  - intros c x [[<- <-]|[_ Hx]]%lookup_insert_Some; [rewrite Hid|]; by apply (inv_request s Hi).
  - intros id p Hp. destruct (inv_table s Hi id p Hp) as (x & Hx & H1 & H2 & H3 & H4).
    destruct (decide (pa_sender p = ch)) as [E|E].
    + rewrite E in *. assert (x = r) as -> by congruence. exists r'. rewrite lookup_insert_eq.
      split_and!; [done|congruence|congruence| |].
      * apply Hpin. left. eauto.
      * destruct (receiver_dropped r') eqn:Ed; [|done]. apply dropped_leaves in Ed. rewrite <- H1 in Hp. by rewrite Hdrop in Hp.
    + exists x. rewrite lookup_insert_ne by done. auto.
  - intros conn c pin Hh. destruct (inv_held s Hi conn c pin Hh) as (x & Hx & H1 & H2).
    destruct (decide (c = ch)) as [->|E].
    + assert (x = r) as -> by congruence. exists r'. rewrite lookup_insert_eq, Hid.
      split_and!; [done..|]. apply Hpin. right. eauto.
    + exists x. rewrite lookup_insert_ne by done. auto.
  - apply Hi.
  - intros c x [[<- <-]|[_ Hx]]%lookup_insert_Some Hp Hc; [by apply Hwait|].
    exact (inv_waiting s Hi c x Hx Hp Hc).
  - intros c x o [[<- <-]|[_ Hx]]%lookup_insert_Some Hp; [|by eapply (inv_leaving s Hi)].
    rewrite Hid. apply Hdrop. unfold leaves. by rewrite Hp.
Qed.

Lemma inv_begin s name : started s < 2 ^ 64 -> inv s -> inv (begin_request s name).
Proof.
  intros Hb Hi. pose proof (inv_started s Hi) as H0. unfold begin_request, NEXT_REQUEST_ID. rewrite (inv_lock s Hi).
  fold (id_of (process_id s) (started s)). set (id := id_of _ _).
  assert (requests s !! started s = None) as Hnew.
  { destruct (requests s !! started s) eqn:E; [|done]. apply (inv_request s Hi) in E. lia. }
  assert (forall ch r, requests s !! ch = Some r -> rq_id r <> id) as Hfresh.
  { intros ch r Hr. destruct (inv_request s Hi ch r Hr) as [Hc ->].
    intros E%id_of_inj; lia. }
  split; cbn.
  - done.
  - lia.
  - intros ch r [[<- <-]|[_ Hr]]%lookup_insert_Some; cbn; [split; [lia|done]|].
    destruct (inv_request s Hi ch r Hr). split; [lia|done].
  - intros id' p [[<- <-]|[Hne Hp]]%lookup_insert_Some; cbn.
    + eexists. rewrite lookup_insert_eq. split_and!; done.
    + destruct (inv_table s Hi id' p Hp) as (r & Hr & ?). exists r.
      rewrite lookup_insert_ne by congruence. auto.
  - intros conn ch pin Hh. destruct (inv_held s Hi conn ch pin Hh) as (r & Hr & H1 & H2).
    exists r. rewrite !lookup_insert_ne by (congruence || (intros E; by apply (Hfresh ch r))). auto.
  - apply Hi.
  - intros ch r [[<- <-]|[Hne Hr]]%lookup_insert_Some Hp Hc.
    + left. eexists _, _. cbn. rewrite lookup_insert_eq. done.
    + destruct (inv_waiting s Hi ch r Hr Hp Hc) as [(id' & p & Ha & Es)|?]; [left|by right].
      exists id', p. cbn. rewrite lookup_insert_ne; [done|]. intros <-.
      destruct (inv_table s Hi _ p Ha) as (x & Hx & Ex & _). by apply (Hfresh _ x Hx).
  - intros ch r o [[<- <-]|[Hne Hr]]%lookup_insert_Some Hp; [done|].
    rewrite lookup_insert_ne by (intros E; by apply (Hfresh ch r)). by eapply (inv_leaving s Hi).
Qed.

Lemma alive_no_pin s ch r : inv s -> requests s !! ch = Some r -> alive s ch -> no_pin r.
Proof.
  intros Hi Hr [(id & p & Hp & <-)|(conn & pin & Hh)].
  - destruct (inv_table s Hi id p Hp) as (x & Hx & _ & _ & ? & _). congruence.
  - destruct (inv_held s Hi conn ch pin Hh) as (x & Hx & _ & ?). congruence.
Qed.

Lemma inv_receive s ch r :
  inv s -> requests s !! ch = Some r -> rq_phase r = Waiting -> inv (receive s ch r).
Proof.
  intros Hi Hr Hp. unfold receive, try_recv.
  destruct (rq_channel r) as [pin|] eqn:Ec.
  - apply (inv_set_request s ch r); try done. intros Ha.
    destruct (alive_no_pin s ch r Hi Hr Ha) as [H _]. congruence.
  - destruct (sender_alive s ch); [done|]. by apply (inv_set_request s ch r).
Qed.

Lemma inv_delete s id :
  inv s -> (forall r ch, requests s !! ch = Some r -> rq_phase r = Waiting -> rq_id r <> id) ->
  inv (set_authorizations s (delete id (authorizations s))).
Proof.
  intros Hi Hn. split; cbn; try apply Hi.
  - intros id' p [_ Hp]%lookup_delete_Some. by apply (inv_table s Hi).
  - intros conn ch pin Hh. destruct (inv_held s Hi conn ch pin Hh) as (r & Hr & H1 & H2).
    exists r. split_and!; [done| |done]. rewrite lookup_delete_None. by right.
  - intros ch r Hr Hp Hc. destruct (inv_waiting s Hi ch r Hr Hp Hc) as [(id' & p & Ha & Es)|?]; [left|by right].
    exists id', p. split; [|done]. apply lookup_delete_Some. split; [|done]. intros <-.
    apply (Hn r ch Hr Hp). symmetry. by eapply inv_entry.
  - intros ch r o Hr Hp. apply lookup_delete_None. right. by eapply (inv_leaving s Hi).
Qed.

Lemma requests_id_inj s c1 c2 r1 r2 :
  inv s -> started s <= 2 ^ 64 -> requests s !! c1 = Some r1 -> requests s !! c2 = Some r2 ->
  rq_id r1 = rq_id r2 -> c1 = c2.
Proof.
  intros Hi Hb H1 H2 E. destruct (inv_request s Hi _ _ H1) as [? E1], (inv_request s Hi _ _ H2) as [? E2].
  rewrite E1, E2 in E. apply id_of_inj in E; lia.
Qed.

Lemma inv_remove_stopping s ch r o :
  inv s -> started s <= 2 ^ 64 -> requests s !! ch = Some r -> rq_phase r = Stopping o ->
  inv (remove_request s ch r o).
Proof.
  intros Hi Hb Hr Hp. unfold remove_request. rewrite (inv_lock s Hi).
  set (s1 := set_authorizations s _).
  assert (inv s1) as Hi1.
  { apply inv_delete; [done|]. intros x c Hx Hw E.
    assert (c = ch) as -> by (eapply requests_id_inj; eauto). congruence. }
  apply (inv_set_request s1 ch r); try done.
  - intros Ha. destruct (alive_no_pin s1 ch r Hi1 Hr Ha) as [H1 H2]. split; [done|]. cbn.
    rewrite Hp in H2. done.
  - intros _. cbn. apply lookup_delete_eq.
Qed.

(** Giving up is like stopping with the error first. *)
Lemma inv_remove s ch r o :
  inv s -> started s <= 2 ^ 64 -> requests s !! ch = Some r -> may_leave r o = true ->
  inv (remove_request s ch r o).
Proof.
  intros Hi Hb Hr. unfold may_leave. destruct (rq_phase r) as [|o'| |] eqn:Hp; [|intros ->%bool_decide_eq_true|done..].
  2: { by apply inv_remove_stopping. }
  intros Ho. set (r1 := set_phase r (Stopping o)).
  assert (inv (set_request s ch r1)) as Hi1.
  { apply (inv_set_request s ch r); try done. intros Ha. destruct (alive_no_pin s ch r Hi Hr Ha) as [H1 H2].
    split; [done|]. by destruct o. }
  assert (remove_request s ch r o = remove_request (set_request s ch r1) ch r1 o) as ->.
  { unfold remove_request. cbn [lock_poisoned set_request]. rewrite (inv_lock s Hi).
    unfold set_request, set_authorizations. cbn. by rewrite insert_insert_eq. }
  apply inv_remove_stopping; [done|done|cbn; apply lookup_insert_eq|done].
Qed.

Lemma inv_finish s ch r o :
  inv s -> requests s !! ch = Some r -> rq_phase r = Leaving o -> inv (finish_request s ch r o).
Proof.
  intros Hi Hr Hp. apply (inv_set_request s ch r); try done.
  - intros Ha. destruct (alive_no_pin s ch r Hi Hr Ha) as [H1 H2]. split; [done|]. cbn. by rewrite Hp in H2.
  - intros _. by eapply (inv_leaving s Hi).
Qed.

Lemma inv_take s conn id pin s' :
  inv s -> held s !! conn = None -> take_request s conn id pin = Ok s' -> inv s'.
Proof.
  intros Hi Hh. unfold take_request. rewrite (inv_lock s Hi). destruct (authorizations s !! id) as [p|] eqn:Hp; [|done].
  intros [= <-]. destruct (inv_table s Hi id p Hp) as (r & Hr & Hid & Hn & Hpin & Hd).
  split; cbn; try apply Hi.
  - intros id' p' [_ Hp']%lookup_delete_Some. by apply (inv_table s Hi).
  - intros c ch pin' [[<- [= <- <-]]|[_ Hc]]%lookup_insert_Some.
    + exists r. split_and!; [done| |done]. rewrite Hid. apply lookup_delete_eq.
    + destruct (inv_held s Hi c ch pin' Hc) as (x & Hx & H1 & H2). exists x.
      split_and!; [done| |done]. rewrite lookup_delete_None. by right.
  - intros c1 c2 ch p1 p2 [[<- E1]|[Hn1 Hc1]]%lookup_insert_Some [[<- E2]|[Hn2 Hc2]]%lookup_insert_Some;
      simplify_eq; try done.
    + destruct (inv_held s Hi _ _ _ Hc2) as (x & Hx & H1 & _). congruence.
    + destruct (inv_held s Hi _ _ _ Hc1) as (x & Hx & H1 & _). congruence.
    + by eapply (inv_unique s Hi).
  - intros ch x Hx Hp' Hc. destruct (inv_waiting s Hi ch x Hx Hp' Hc) as [(id' & p' & Ha & Es)|(c & pin' & Hc')].
    + destruct (decide (id' = id)) as [->|Hne].
      * assert (p' = p) as -> by congruence. right. exists conn, pin. cbn. rewrite lookup_insert_eq. congruence.
      * left. exists id', p'. cbn. by rewrite lookup_delete_ne by done.
    + right. exists c, pin'. cbn. rewrite lookup_insert_ne by congruence. done.
  - intros ch x o Hx Hp'. cbn. apply lookup_delete_None. right. by eapply (inv_leaving s Hi).
Qed.

(** What sending can do, from a state that satisfies the invariant: it never blocks. *)
Lemma send_cases s conn ch pin :
  inv s -> held s !! conn = Some (ch, pin) ->
  exists r, requests s !! ch = Some r /\ no_pin r /\ authorizations s !! rq_id r = None /\
    ((receiver_dropped r = true /\ send_pin s conn ch pin = Some (Err NOT_ACTIVE)) \/
     (receiver_dropped r = false /\
      send_pin s conn ch pin = Some (Ok (set_held (set_request s ch (set_channel r (Some pin)))
        (delete conn (held s)))))).
Proof.
  intros Hi Hh. destruct (inv_held s Hi conn ch pin Hh) as (r & Hr & Ha & Hn). exists r.
  split_and!; [done..|]. unfold send_pin. rewrite Hr. destruct (receiver_dropped r); [auto|right].
  by destruct Hn as [-> _].
Qed.

Lemma inv_release s conn ch pin r :
  inv s -> held s !! conn = Some (ch, pin) -> requests s !! ch = Some r ->
  (rq_phase r = Waiting -> rq_channel r <> None) -> inv (set_held s (delete conn (held s))).
Proof.
  intros Hi Hh Hr Hn. split; cbn; try apply Hi.
  - intros c x p [_ Hc]%lookup_delete_Some. by eapply (inv_held s Hi).
  - intros c1 c2 x p1 p2 [_ H1]%lookup_delete_Some [_ H2]%lookup_delete_Some. by eapply (inv_unique s Hi).
  - intros x y Hy Hp Hc. destruct (inv_waiting s Hi x y Hy Hp Hc) as [?|(c & p & Hc')]; [by left|right].
    exists c, p. cbn. apply lookup_delete_Some. split; [|done]. intros <-.
    assert (x = ch) as -> by congruence. assert (y = r) as -> by congruence. by apply Hn.
Qed.

Lemma inv_deliver s conn ch pin r :
  inv s -> held s !! conn = Some (ch, pin) -> requests s !! ch = Some r -> receiver_dropped r = false ->
  inv (set_held (set_request s ch (set_channel r (Some pin))) (delete conn (held s))).
Proof.
  intros Hi Hh Hr Hd. destruct (inv_held s Hi conn ch pin Hh) as (x & Hx & Ha & Hn).
  assert (x = r) as -> by congruence.
  split; cbn.
  - apply Hi.
  - apply Hi.
  - intros c y [[<- <-]|[_ Hy]]%lookup_insert_Some; [exact (inv_request s Hi ch r Hr)|].
    by apply (inv_request s Hi).
  - intros id p Hp. destruct (inv_table s Hi id p Hp) as (y & Hy & H1 & ?). exists y.
    rewrite lookup_insert_ne; [auto|]. intros E. rewrite <- E in Hy. congruence.
  - intros c y p [Hne Hc]%lookup_delete_Some. destruct (inv_held s Hi c y p Hc) as (z & Hz & ?). exists z.
    rewrite lookup_insert_ne; [auto|]. intros <-. by apply Hne, (inv_unique s Hi conn c ch pin p).
  - intros c1 c2 y p1 p2 [_ H1]%lookup_delete_Some [_ H2]%lookup_delete_Some. by eapply (inv_unique s Hi).
  - intros c y [[<- <-]|[Hne Hy]]%lookup_insert_Some Hp Hc; [done|].
    destruct (inv_waiting s Hi c y Hy Hp Hc) as [?|(c' & p & Hc')]; [by left|right].
    exists c', p. cbn. apply lookup_delete_Some. split; [|done]. intros <-. congruence.
  - intros c y o [[<- <-]|[Hne Hy]]%lookup_insert_Some Hp; [done|by eapply (inv_leaving s Hi)].
Qed.

Lemma inv_step s e s' : inv s -> started s' <= 2 ^ 64 -> step s e = Some s' -> inv s'.
Proof.
  intros Hi Hb. destruct e as [name|ch|ch o|ch|conn id pin|conn|ms]; cbn [step].
  - intros [= <-]. rewrite started_begin in Hb. apply inv_begin; [lia|done].
  - destruct (requests s !! ch) as [r|] eqn:Hr; [|done]. cbn.
    destruct (rq_phase r) eqn:Hp; intros [= <-]. by apply inv_receive.
  - destruct (requests s !! ch) as [r|] eqn:Hr; [|done]. cbn.
    destruct (may_leave r o) eqn:Hp; [|done]. intros [= <-].
    apply inv_remove; [done| |done..]. unfold remove_request in Hb. by rewrite (inv_lock s Hi) in Hb.
  - destruct (requests s !! ch) as [r|] eqn:Hr; [|done]. cbn.
    destruct (rq_phase r) eqn:Hp; intros [= <-]. by apply inv_finish.
  - destruct (held s !! conn) eqn:Hh; [done|].
    destruct (take_request s conn id pin) as [s1|e|] eqn:E; intros [= <-]; [|done..]. by eapply inv_take.
  - destruct (held s !! conn) as [[ch pin]|] eqn:Hh; [|done]. cbn.
    destruct (send_cases s conn ch pin Hi Hh) as (r & Hr & Hn & Ha & [[Hd E]|[Hd E]]); rewrite E; intros [= <-].
    + apply (inv_release s conn ch pin r); try done. intros Hw. unfold receiver_dropped in Hd. by rewrite Hw in Hd.
    + by apply inv_deliver.
  - destruct (0 <=? ms); [|done]. intros [= <-]. destruct Hi. by split.
Qed.

(** ** Executions *)

Lemma step_started s e s' : step s e = Some s' -> started s <= started s'.
Proof.
  destruct e as [name|ch|ch o|ch|conn id pin|conn|ms]; cbn [step].
  - intros [= <-]. unfold begin_request. destruct (lock_poisoned s); cbn; lia.
  - destruct (requests s !! ch) as [r|]; [|done]. cbn. destruct (rq_phase r); intros [= <-].
    unfold receive. by destruct (try_recv s ch r).
  - destruct (requests s !! ch) as [r|]; [|done]. cbn. destruct (may_leave r o); [|done]. intros [= <-].
    unfold remove_request. by destruct (lock_poisoned s).
  - destruct (requests s !! ch) as [r|]; [|done]. cbn. by destruct (rq_phase r); intros [= <-].
  - destruct (held s !! conn); [done|]. unfold take_request.
    destruct (lock_poisoned s), (authorizations s !! id); intros [= <-]; cbn; lia.
  - destruct (held s !! conn) as [[ch pin]|]; [|done]. cbn. unfold send_pin.
    destruct (requests s !! ch) as [r|]; [|intros [= <-]; cbn; lia].
    destruct (receiver_dropped r); [intros [= <-]; cbn; lia|].
    destruct (rq_channel r); [done|]. intros [= <-]. cbn. lia.
  - destruct (0 <=? ms); [|done]. intros [= <-]. cbn. lia.
Qed.

Lemma steps_started s es s' : steps s es = Some s' -> started s <= started s'.
Proof.
  revert s; induction es as [|e es IH]; intros s; cbn [steps]; [intros [= ->]; lia|].
  destruct (step s e) as [s1|] eqn:E; [|done]. cbn. intros H%IH. apply step_started in E. lia.
Qed.

Lemma steps_app s es1 es2 : steps s (es1 ++ es2) = s1 ← steps s es1; steps s1 es2.
Proof.
  revert s; induction es1 as [|e es IH]; intros s; [done|]. cbn [app steps].
  destruct (step s e); [|done]. apply IH.
Qed.

Lemma inv_steps s es s' : inv s -> started s' <= 2 ^ 64 -> steps s es = Some s' -> inv s'.
Proof.
  intros Hi Hb. revert s Hi; induction es as [|e es IH]; intros s Hi; cbn [steps]; [by intros [= <-]|].
  destruct (step s e) as [s1|] eqn:E; [|done]. cbn. intros H. pose proof (steps_started _ _ _ H).
  apply (IH s1); [|done]. eapply inv_step; [done| |done]. lia.
Qed.

(** States that a freshly started agent can reach, before its 64-bit counter wraps. *)
Definition reachable (es : list event) (s : broker) : Prop :=
  exists pid, steps (broker_init pid) es = Some s /\ started s <= 2 ^ 64.

Lemma reachable_inv es s : reachable es s -> inv s.
Proof. intros (pid & H & Hb). eapply inv_steps; eauto. apply inv_init. Qed.

Lemma reachable_snoc es e s :
  reachable (es ++ [e]) s -> exists s1, reachable es s1 /\ step s1 e = Some s.
Proof.
  intros (pid & H & Hb). rewrite steps_app in H. destruct (steps (broker_init pid) es) as [s1|] eqn:E; [|done].
  cbn in H. destruct (step s1 e) as [s2|] eqn:E2; [|done]. injection H as <-.
  exists s1. split; [|done]. exists pid. split; [done|]. apply step_started in E2. lia.
Qed.

(** *** A request and the other threads *)

(** The steps that only the thread of request [ch] takes. *)
Definition owned (ch : Z) (e : event) : bool :=
  match e with
  | Recv c | Remove c _ | Finish c => c =? ch
  | _ => false
  end.

(** The request [ch] of a thread, once it has begun. *)
Definition begun (s : broker) (ch : Z) (r : request) : Prop :=
  requests s !! ch = Some r /\ ch < started s.

(** What no step changes of a request; other threads do not change its phase either. *)
Definition same_request (r r' : request) : Prop :=
  rq_id r' = rq_id r /\ rq_key_name r' = rq_key_name r.

Lemma begun_set s ch0 r0 r0' ch r own :
  begun s ch r -> requests s !! ch0 = Some r0 -> same_request r0 r0' ->
  (own = false -> ch0 = ch -> rq_phase r0' = rq_phase r0) ->
  exists r', <[ch0 := r0']> (requests s) !! ch = Some r' /\ same_request r r' /\
    (own = false -> rq_phase r' = rq_phase r).
Proof.
  intros [Hr Hc] Hr0 Hs Hp. destruct (decide (ch0 = ch)) as [->|Hne].
  - assert (r0 = r) as -> by congruence. exists r0'. rewrite lookup_insert_eq. auto.
  - exists r. by rewrite lookup_insert_ne by done.
Qed.

Lemma begun_step s e s' ch r :
  step s e = Some s' -> begun s ch r ->
  exists r', begun s' ch r' /\ same_request r r' /\ (owned ch e = false -> rq_phase r' = rq_phase r).
Proof.
  intros Hs Hr. pose proof (step_started s e s' Hs) as Hmono.
  assert (exists r', requests s' !! ch = Some r' /\ same_request r r' /\
    (owned ch e = false -> rq_phase r' = rq_phase r)) as (r' & ? & ?);
    [|exists r'; split; [|done]; split; [done|destruct Hr; lia]].
  assert (forall q : gmap Z request, q = requests s -> exists r', q !! ch = Some r' /\ same_request r r' /\
    (owned ch e = false -> rq_phase r' = rq_phase r)) as Hid.
  { intros q ->. exists r. by destruct Hr. }
  destruct e as [name|c|c o|c|conn id pin|conn|ms]; cbn [step] in Hs.
  - injection Hs as <-. unfold begin_request. destruct (lock_poisoned s); [by apply Hid|]. cbn.
    exists r. destruct Hr. rewrite lookup_insert_ne by lia. done.
  - destruct (requests s !! c) as [x|] eqn:Hx; [|done]. cbn in Hs. destruct (rq_phase x); simplify_eq.
    unfold receive. destruct (try_recv s c x); [|by apply Hid|];
      cbn [set_request requests]; eapply begun_set; try done; cbn [owned]; intros ?%Z.eqb_neq; lia.
  - destruct (requests s !! c) as [x|] eqn:Hx; [|done]. cbn in Hs. destruct (may_leave x o); simplify_eq.
    assert (requests (remove_request s c x o) = <[c := set_phase x (Leaving o)]> (requests s)) as ->
      by (unfold remove_request; by destruct (lock_poisoned s)).
    eapply begun_set; try done; cbn [owned]; intros ?%Z.eqb_neq; lia.
  - destruct (requests s !! c) as [x|] eqn:Hx; [|done]. cbn in Hs. destruct (rq_phase x); simplify_eq.
    cbn [finish_request set_request requests]. eapply begun_set; try done; cbn [owned]; intros ?%Z.eqb_neq; lia.
  - destruct (held s !! conn); [done|]. unfold take_request in Hs.
    destruct (lock_poisoned s), (authorizations s !! id); simplify_eq; by apply Hid.
  - destruct (held s !! conn) as [[c pin]|]; [|done]. cbn in Hs. unfold send_pin in Hs.
    destruct (requests s !! c) as [x|] eqn:Hx; [|simplify_eq; by apply Hid].
    destruct (receiver_dropped x); [simplify_eq; by apply Hid|].
    destruct (rq_channel x); simplify_eq. cbn [set_request set_held requests]. by eapply begun_set.
  - destruct (0 <=? ms); simplify_eq. by apply Hid.
Qed.

(** A request that no longer waits does not wait again. *)
Lemma left_step s e s' ch r :
  step s e = Some s' -> begun s ch r -> rq_phase r <> Waiting ->
  exists r', begun s' ch r' /\ rq_phase r' <> Waiting.
Proof.
  intros Hs Hr Hp. destruct (begun_step s e s' ch r Hs Hr) as (r' & Hr' & _ & Hp').
  exists r'. split; [done|]. destruct (owned ch e) eqn:Ho; [|by rewrite Hp'].
  destruct Hr as [Hr _], Hr' as [Hr' _]. destruct e; try done; apply Z.eqb_eq in Ho as ->; cbn [step] in Hs; rewrite Hr in Hs; cbn in Hs.
  - by destruct (rq_phase r).
  - destruct (may_leave r outcome); [|done]. injection Hs as <-. unfold remove_request in Hr'.
    destruct (lock_poisoned s); cbn in Hr'; rewrite lookup_insert_eq in Hr'; by injection Hr' as <-.
  - destruct (rq_phase r); simplify_eq. cbn in Hr'. rewrite lookup_insert_eq in Hr'. by injection Hr' as <-.
Qed.

Lemma same_request_trans r1 r2 r3 : same_request r1 r2 -> same_request r2 r3 -> same_request r1 r3.
Proof. unfold same_request. intros (? & ?) (? & ?). split_and!; congruence. Qed.

Lemma begun_steps s es s' ch r :
  steps s es = Some s' -> begun s ch r ->
  exists r', begun s' ch r' /\ same_request r r' /\
    (Forall (fun e => owned ch e = false) es -> rq_phase r' = rq_phase r).
Proof.
  revert s r. induction es as [|e es IH]; intros s r; cbn [steps].
  { intros [= ->] Hr. by exists r. }
  destruct (step s e) as [s1|] eqn:E; [|done]. cbn. intros Hs Hr.
  destruct (begun_step s e s1 ch r E Hr) as (r1 & Hr1 & Hs1 & Hp1).
  destruct (IH s1 r1 Hs Hr1) as (r2 & Hr2 & Hs2 & Hp2). exists r2. split; [done|].
  split; [by eapply same_request_trans|]. intros [He Hes]%Forall_cons. rewrite Hp2, Hp1; auto.
Qed.

(** Time does not go back. *)
Lemma step_clock s e s' : step s e = Some s' -> clock s <= clock s'.
Proof.
  destruct e as [name|c|c o|c|conn id pin|conn|ms]; cbn [step].
  - intros [= <-]. unfold begin_request. by destruct (lock_poisoned s).
  - destruct (requests s !! c) as [x|]; [|done]. cbn. destruct (rq_phase x); intros [= <-].
    unfold receive. by destruct (try_recv s c x).
  - destruct (requests s !! c) as [x|]; [|done]. cbn. destruct (may_leave x o); [|done]. intros [= <-].
    unfold remove_request. by destruct (lock_poisoned s).
  - destruct (requests s !! c) as [x|]; [|done]. cbn. by destruct (rq_phase x); intros [= <-].
  - destruct (held s !! conn); [done|]. unfold take_request.
    destruct (lock_poisoned s), (authorizations s !! id); intros [= <-]; cbn; lia.
  - destruct (held s !! conn) as [[c pin]|]; [|done]. cbn. unfold send_pin.
    destruct (requests s !! c) as [x|]; [|intros [= <-]; cbn; lia].
    destruct (receiver_dropped x); [intros [= <-]; cbn; lia|].
    destruct (rq_channel x); [done|]. intros [= <-]. cbn. lia.
  - destruct (0 <=? ms) eqn:E; [|done]. intros [= <-]. cbn. bool_lia.
Qed.

Lemma steps_clock s es s' : steps s es = Some s' -> clock s <= clock s'.
Proof.
  revert s; induction es as [|e es IH]; intros s; cbn [steps]; [intros [= ->]; lia|].
  destruct (step s e) as [s1|] eqn:E; [|done]. cbn. intros H%IH. apply step_clock in E. lia.
Qed.

(** *** Where PINs come from *)

(** The PIN a request holds, in its channel or as its outcome. *)
Definition holds_pin (r : request) (pin : bytes) : Prop :=
  rq_channel r = Some pin \/ rq_phase r = Stopping (Ok pin) \/ rq_phase r = Leaving (Ok pin) \/
  rq_phase r = Returned (Ok pin).

Definition authorized (es : list event) (id pin : bytes) : Prop := exists conn, Take conn id pin ∈ es.

Lemma authorized_snoc es e id pin : authorized es id pin -> authorized (es ++ [e]) id pin.
Proof. intros [c Hc]. exists c. apply elem_of_app. by left. Qed.

Record sourced (es : list event) (s : broker) : Prop := {
  src_request : forall ch r pin, requests s !! ch = Some r -> holds_pin r pin -> authorized es (rq_id r) pin;
  src_held : forall conn ch pin, held s !! conn = Some (ch, pin) ->
    exists r, requests s !! ch = Some r /\ authorized es (rq_id r) pin;
}.

Lemma sourced_snoc es e s : sourced es s -> sourced (es ++ [e]) s.
Proof.
  intros [H1 H2]. split.
  - intros. eapply authorized_snoc, H1; eauto.
  - intros conn ch pin (r & Hr & ?)%H2. exists r. split; [done|]. by apply authorized_snoc.
Qed.

(** Changing one request keeps [sourced] when its PINs have a source. *)
Lemma sourced_set_request es s ch r r' :
  sourced es s -> requests s !! ch = Some r -> rq_id r' = rq_id r ->
  (forall pin, holds_pin r' pin -> authorized es (rq_id r) pin) -> sourced es (set_request s ch r').
Proof.
  intros [H1 H2] Hr Hid Hp. split; cbn.
  - intros c x pin [[<- <-]|[_ Hx]]%lookup_insert_Some Hh; [rewrite Hid; auto|eauto].
  - intros conn c pin (x & Hx & Ha)%H2. destruct (decide (c = ch)) as [->|].
    + exists r'. rewrite lookup_insert_eq, Hid. assert (x = r) as -> by congruence. auto.
    + exists x. by rewrite lookup_insert_ne by done.
Qed.

Lemma sourced_step es s e s' :
  inv s -> started s' <= 2 ^ 64 -> sourced es s -> step s e = Some s' -> sourced (es ++ [e]) s'.
Proof.
  intros Hi Hb Hs Hstep. pose proof (sourced_snoc es e s Hs) as Hs1.
  destruct e as [name|ch|ch o|ch|conn id pin|conn|ms]; cbn [step] in Hstep.
  - injection Hstep as <-. unfold begin_request. rewrite (inv_lock s Hi). destruct Hs1 as [H1 H2]. split; cbn.
    + intros ch r pin [[<- <-]|[_ Hr]]%lookup_insert_Some Hp; [|eauto]. by destruct Hp as [?|[?|[?|?]]].
    + intros conn ch pin (r & Hr & Ha)%H2. exists r. split; [|done].
      rewrite lookup_insert_ne; [done|]. intros <-. destruct (inv_request s Hi _ _ Hr). lia.
  - destruct (requests s !! ch) as [r|] eqn:Hr; [|done]. cbn in Hstep.
    destruct (rq_phase r) eqn:Hp; simplify_eq. unfold receive, try_recv.
    destruct (rq_channel r) as [pin|] eqn:Hc.
    + apply (sourced_set_request _ s ch r); try done. intros pin' [?|[[= <-]|[?|?]]]; try done.
      apply (src_request _ _ Hs1 ch r pin Hr). by left.
    + destruct (sender_alive s ch); [done|]. apply (sourced_set_request _ s ch r); try done.
      intros pin [?|[?|[?|?]]]; cbn in *; congruence.
  - destruct (requests s !! ch) as [r|] eqn:Hr; [|done]. cbn in Hstep.
    destruct (may_leave r o) eqn:Hp; simplify_eq. unfold remove_request. rewrite (inv_lock s Hi).
    apply (sourced_set_request _ _ ch r); [|done..|].
    + destruct Hs1 as [H1 H2]. by split.
    + unfold may_leave in Hp. intros pin [?|[?|[[= ->]|?]]]; try done; apply (src_request _ _ Hs1 ch r pin Hr); unfold holds_pin; auto.
      destruct (rq_phase r) as [|o'| |]; [done| |done..]. apply bool_decide_eq_true in Hp as ->. auto.
  - destruct (requests s !! ch) as [r|] eqn:Hr; [|done]. cbn in Hstep.
    destruct (rq_phase r) eqn:Hp; simplify_eq. apply (sourced_set_request _ s ch r); try done.
    intros pin [?|[?|[?|[= ->]]]]; try done; apply (src_request _ _ Hs1 ch r pin Hr); unfold holds_pin; auto.
  - destruct (held s !! conn) eqn:Hh; [done|]. unfold take_request in Hstep. rewrite (inv_lock s Hi) in Hstep.
    destruct (authorizations s !! id) as [p|] eqn:Ha; simplify_eq; [|done].
    destruct (inv_table s Hi id p Ha) as (r & Hr & Hid & _). destruct Hs1 as [H1 H2]. split; cbn; [done|].
    intros c ch pin' [[<- [= <- <-]]|[_ Hc]]%lookup_insert_Some; [|eauto].
    exists r. split; [done|]. exists conn. rewrite Hid. apply elem_of_app. right. left.
  - destruct (held s !! conn) as [[ch pin]|] eqn:Hh; [|done]. cbn in Hstep.
    destruct (send_cases s conn ch pin Hi Hh) as (r & Hr & Hn & Ha & [[Hd E]|[Hd E]]); rewrite E in Hstep;
      simplify_eq.
    + destruct Hs1 as [H1 H2]. split; cbn; [done|]. intros c x p [_ Hc]%lookup_delete_Some. eauto.
    + destruct (src_held _ _ Hs1 conn ch pin Hh) as (x & Hx & Hauth). assert (x = r) as -> by congruence.
      assert (sourced (es ++ [Deliver conn]) (set_request s ch (set_channel r (Some pin)))) as [H1 H2].
      { apply (sourced_set_request _ s ch r); [done..|]. destruct Hn as [_ Hn].
        intros pin' [[= <-]|[Hp|[Hp|Hp]]]; [done|..]; cbn in Hp; by rewrite Hp in Hn. }
      split; cbn; [done|]. intros c y p [_ Hc]%lookup_delete_Some. by apply (H2 c y p).
  - destruct (0 <=? ms); simplify_eq. destruct Hs1. by split.
Qed.

Lemma reachable_sourced es s : reachable es s -> sourced es s.
Proof.
  revert s. induction es as [|e es IH] using rev_ind; intros s H.
  - destruct H as (pid & [= <-] & _). by split.
  - pose proof H as (pid & _ & Hb). apply reachable_snoc in H as (s1 & H1 & Hs).
    eapply sourced_step; eauto using reachable_inv.
Qed.

(** *** Identifiers are spent once *)

Definition spent (id : bytes) (s : broker) : Prop :=
  authorizations s !! id = None /\ exists ch r, requests s !! ch = Some r /\ rq_id r = id.

Lemma spent_step id s e s' : inv s -> started s' <= 2 ^ 64 -> spent id s -> step s e = Some s' -> spent id s'.
Proof.
  intros Hi Hb [Ha (ch0 & r0 & Hr0 & Hid0)] Hs.
  assert (forall ch r r', requests s !! ch = Some r -> rq_id r' = rq_id r ->
    exists ch1 r1, <[ch := r']> (requests s) !! ch1 = Some r1 /\ rq_id r1 = id) as Hset.
  { intros ch r r' Hr Hid. destruct (decide (ch0 = ch)) as [->|Hne].
    - exists ch, r'. rewrite lookup_insert_eq. split; [done|]. congruence.
    - exists ch0, r0. by rewrite lookup_insert_ne by done. }
  destruct e as [name|ch|ch o|ch|conn id' pin|conn|ms]; cbn [step] in Hs.
  - injection Hs as <-. rewrite started_begin in Hb. destruct (inv_request s Hi ch0 r0 Hr0) as [Hc Hi0].
    unfold spent, begin_request, NEXT_REQUEST_ID. rewrite (inv_lock s Hi). cbn. fold (id_of (process_id s) (started s)). split.
    + rewrite lookup_insert_ne; [done|]. rewrite <- Hid0, Hi0. intros E%id_of_inj; lia.
    + exists ch0, r0. rewrite lookup_insert_ne by lia. done.
  - destruct (requests s !! ch) as [r|] eqn:Hr; [|done]. cbn in Hs. destruct (rq_phase r); simplify_eq.
    unfold receive. destruct (try_recv s ch r); (split; [done|]); cbn; eauto.
  - destruct (requests s !! ch) as [r|] eqn:Hr; [|done]. cbn in Hs. destruct (may_leave r o); simplify_eq.
    unfold remove_request. rewrite (inv_lock s Hi).
    split; cbn; [|by eapply Hset]. apply lookup_delete_None. by right.
  - destruct (requests s !! ch) as [r|] eqn:Hr; [|done]. cbn in Hs. destruct (rq_phase r); simplify_eq. split; cbn; eauto.
  - destruct (held s !! conn); [done|]. unfold take_request in Hs. rewrite (inv_lock s Hi) in Hs.
    destruct (authorizations s !! id') eqn:E; simplify_eq; [|by split; eauto].
    split; cbn; [|eauto]. apply lookup_delete_None. by right.
  - destruct (held s !! conn) as [[ch pin]|]; [|done]. cbn in Hs. unfold send_pin in Hs.
    destruct (requests s !! ch) as [r|] eqn:Hr; [|simplify_eq; by split; eauto].
    destruct (receiver_dropped r); [simplify_eq; by split; eauto|].
    destruct (rq_channel r); simplify_eq. split; cbn; [done|by eapply Hset].
  - destruct (0 <=? ms); simplify_eq. by split; eauto.
Qed.

Lemma spent_steps id s es s' : inv s -> started s' <= 2 ^ 64 -> spent id s -> steps s es = Some s' -> spent id s'.
Proof.
  intros Hi Hb. revert s Hi; induction es as [|e es IH]; intros s Hi Hsp; cbn [steps]; [by intros [= <-]|].
  destruct (step s e) as [s1|] eqn:E; [|done]. cbn. intros H. pose proof (steps_started _ _ _ H).
  assert (started s1 <= 2 ^ 64) by lia. eapply (IH s1); [eapply inv_step|eapply spent_step|]; eauto.
Qed.

(** ** Properties *)

(** [C3] A PIN reaches only the request it was entered for.  In every interleaving of
    requests, control connections and time, the PIN that a call of [request_pin] returns
    is one that a control connection submitted under that very request's identifier, and
    no two requests share an identifier. *)
Theorem pin_confinement es s ch r pin :
  reachable es s -> requests s !! ch = Some r -> rq_phase r = Returned (Ok pin) ->
  (exists conn, Take conn (rq_id r) pin ∈ es) /\
  forall ch' r', requests s !! ch' = Some r' -> rq_id r' = rq_id r -> ch' = ch.
Proof.
  intros Hre Hr Hp. split.
  - apply (src_request es s (reachable_sourced es s Hre) ch r pin Hr). unfold holds_pin. auto.
  - intros ch' r' Hr' E. pose proof Hre as (pid & _ & Hb).
    by eapply (requests_id_inj s); eauto using reachable_inv.
Qed.

(** [C13] An authorization is used once.  After a control connection has taken a request's
    entry its identifier is never pending again: whatever the threads do next, every later
    authorization of it is refused. *)
Theorem authorization_single_use es s conn id pin s1 es' s' :
  reachable es s -> held s !! conn = None -> take_request s conn id pin = Ok s1 ->
  steps s1 es' = Some s' -> started s' <= 2 ^ 64 ->
  forall conn' pin', take_request s' conn' id pin' = Err NOT_PENDING.
Proof.
  intros Hre Hh Ht Hs Hb conn' pin'. pose proof (reachable_inv es s Hre) as Hi.
  assert (inv s1) as Hi1 by (by eapply inv_take).
  assert (spent id s1) as Hsp.
  { unfold take_request in Ht. rewrite (inv_lock s Hi) in Ht. destruct (authorizations s !! id) as [p|] eqn:E; simplify_eq.
    destruct (inv_table s Hi id p E) as (r & Hr & Hid & _).
    split; [cbn; apply lookup_delete_eq|]. exists (pa_sender p), r. done. }
  destruct (spent_steps id s1 es' s' Hi1 Hb Hsp Hs) as [H _]. unfold take_request.
  by rewrite (inv_lock s' (inv_steps _ _ _ Hi1 Hb Hs)), H.
Qed.

(** No request outlives its call.  Once [request_pin] has returned, with a PIN or
    because it timed out or was cancelled, its entry is gone for good and every later
    authorization of it is refused; and the list of pending requests shows exactly the
    identifiers and key names of the requests nobody has authorized yet, each once. *)
Theorem pending_is_open es s :
  reachable es s ->
  (forall ch r o es' s' conn pin, requests s !! ch = Some r -> rq_phase r = Returned o ->
     steps s es' = Some s' -> started s' <= 2 ^ 64 ->
     take_request s' conn (rq_id r) pin = Err NOT_PENDING) /\
  NoDup (list_pending s).*1 /\
  (forall id name, (id, name) ∈ list_pending s ->
     exists ch r, requests s !! ch = Some r /\ rq_id r = id /\ rq_key_name r = name /\
       no_pin r /\ receiver_dropped r = false) /\
  (forall ch r, requests s !! ch = Some r -> rq_phase r = Waiting -> rq_channel r = None ->
     (rq_id r, rq_key_name r) ∈ list_pending s \/ exists conn pin, held s !! conn = Some (ch, pin)).
Proof.
  intros Hre. pose proof (reachable_inv es s Hre) as Hi. pose proof Hre as (pid & _ & Hb0).
  split_and!.
  - intros ch r o es' s' conn pin Hr Hp Hs Hb.
    assert (spent (rq_id r) s) as Hsp.
    { split; [|eauto]. destruct (authorizations s !! rq_id r) as [p|] eqn:E; [|done]. exfalso.
      destruct (inv_table s Hi _ p E) as (x & Hx & Hid & _ & _ & Hd).
      assert (pa_sender p = ch) by (eapply requests_id_inj; eauto).
      assert (x = r) as -> by congruence. unfold receiver_dropped in Hd. by rewrite Hp in Hd. }
    destruct (spent_steps _ s es' s' Hi Hb Hsp Hs) as [H _]. unfold take_request.
    by rewrite (inv_lock s' (inv_steps _ _ _ Hi Hb Hs)), H.
  - unfold list_pending. rewrite <- list_fmap_compose.
    rewrite (list_fmap_ext _ fst); [apply NoDup_fst_map_to_list|]. intros i [id p] _. done.
  - intros id name ([id' p] & [= -> ->] & Hp%elem_of_map_to_list)%list_elem_of_fmap.
    destruct (inv_table s Hi id' p Hp) as (r & Hr & Hid & Hn & ? & ?). exists (pa_sender p), r. auto.
  - intros ch r Hr Hp Hc. destruct (inv_waiting s Hi ch r Hr Hp Hc) as [(id & p & Ha & Es)|?]; [left|by right].
    apply list_elem_of_fmap. exists (id, p). split; [|by apply elem_of_map_to_list].
    destruct (inv_table s Hi id p Ha) as (x & Hx & Hid & Hn & _). congruence.
Qed.

(** [C27] Nobody waits for ever.  The channel of a request is never full when its PIN is
    sent, so a control connection that has taken a request always completes; a request can
    always look at its channel, finds the PIN there as soon as it was sent, and never finds
    that its sender vanished before; it can always end, with what it received or giving up,
    and then nothing of it is pending; and the mutex of the table is never poisoned, so that
    none of its users reports that the state is unavailable. *)
Theorem request_progress es s :
  reachable es s ->
  (forall conn ch pin, held s !! conn = Some (ch, pin) ->
     exists s', step s (Deliver conn) = Some s' /\ held s' !! conn = None) /\
  (forall ch r, requests s !! ch = Some r -> rq_phase r = Waiting ->
     exists s' r', step s (Recv ch) = Some s' /\ requests s' !! ch = Some r' /\
       rq_phase r' = match rq_channel r with Some pin => Stopping (Ok pin) | None => Waiting end) /\
  (forall ch r o, requests s !! ch = Some r -> may_leave r o = true ->
     exists s' r', steps s [Remove ch o; Finish ch] = Some s' /\ requests s' !! ch = Some r' /\
       rq_phase r' = Returned o /\ authorizations s' !! rq_id r = None) /\
  lock_poisoned s = false.
Proof.
  intros Hre. pose proof (reachable_inv es s Hre) as Hi. split_and!; [..|apply Hi].
  - intros conn ch pin Hh. cbn [step]. rewrite Hh. cbn.
    destruct (send_cases s conn ch pin Hi Hh) as (r & Hr & _ & _ & [[_ ->]|[_ ->]]);
      eexists; (split; [done|]); cbn; apply lookup_delete_eq.
  - intros ch r Hr Hp. cbn [step]. rewrite Hr. cbn. rewrite Hp.
    unfold receive, try_recv. destruct (rq_channel r) as [pin|] eqn:Hc.
    { do 2 eexists. split; [done|]. cbn. by rewrite lookup_insert_eq. }
    rewrite (proj2 (sender_alive_spec s ch)) by (by eapply inv_waiting). by exists s, r.
  - intros ch r o Hr Hp. cbn [steps step]. rewrite Hr. cbn. rewrite Hp. unfold remove_request. rewrite (inv_lock s Hi).
    cbn. rewrite lookup_insert_eq. cbn. eexists _, _. split; [done|]. cbn.
    rewrite lookup_insert_eq. split_and!; [done..|]. apply lookup_delete_eq.
Qed.

(** ** A concrete execution *)

Module Sample.
Definition id : bytes := request_id 255 1.
(** A request for a key; the owner authorizes it; the request picks the PIN up. *)
Definition trace : list event :=
  [Begin (str "n"); Recv 0; Tick 50; Take 4 id (str "123456"); Recv 0; Deliver 4; Recv 0;
   Remove 0 (Ok (str "123456")); Finish 0].
Definition before : list event := firstn 3 trace.

(** After the first three events, and after the owner's PIN was taken. *)
Definition waiting : broker := default (broker_init 255) (steps (broker_init 255) before).
Definition taken : broker :=
  match take_request waiting 4 id (str "123456") with Ok s => s | _ => waiting end.

Lemma waiting_reachable : reachable before waiting.
Proof. exists 255. split; vm_compute; [reflexivity|discriminate]. Qed.

Lemma pin_confinement_witness :
  exists s r, reachable trace s /\ requests s !! 0 = Some r /\
    (exists conn, Take conn (rq_id r) (str "123456") ∈ trace).
Proof.
  destruct (steps (broker_init 255) trace) as [s|] eqn:E; [|exfalso; vm_compute in E; discriminate E].
  exists s, (mkRequest id (str "n") (Returned (Ok (str "123456"))) None).
  assert (reachable trace s) as Hre.
  { exists 255. split; [exact E|]. vm_compute in E. injection E as <-. vm_compute. discriminate. }
  assert (requests s !! 0 = Some (mkRequest id (str "n") (Returned (Ok (str "123456"))) None)) as Hr.
  { vm_compute in E. injection E as <-. vm_compute. reflexivity. }
  split; [exact Hre|]. split; [exact Hr|].
  exact (proj1 (pin_confinement trace s 0 _ (str "123456") Hre Hr eq_refl)).
Defined.

Lemma authorization_single_use_witness :
  take_request taken 5 id (str "654321") = Err NOT_PENDING.
Proof.
  refine (authorization_single_use before waiting 4 id (str "123456") taken [] taken
    waiting_reachable _ _ eq_refl _ 5 (str "654321")).
  - vm_compute. reflexivity.
  - vm_compute. reflexivity.
  - vm_compute. discriminate.
Defined.

Lemma pending_is_open_witness : NoDup (list_pending waiting).*1 /\ len (list_pending waiting) = 1.
Proof.
  split; [exact (proj1 (proj2 (pending_is_open before waiting waiting_reachable)))|].
  vm_compute. reflexivity.
Defined.

Lemma request_progress_witness :
  (exists s' r', step waiting (Recv 0) = Some s' /\ requests s' !! 0 = Some r' /\ rq_phase r' = Waiting) /\
  exists s' r', steps waiting [Remove 0 (Err TIMED_OUT); Finish 0] = Some s' /\ requests s' !! 0 = Some r' /\
    rq_phase r' = Returned (Err TIMED_OUT) /\ authorizations s' !! id = None.
Proof.
  destruct (request_progress before waiting waiting_reachable) as (_ & Hr & Hf & _).
  assert (requests waiting !! 0 = Some (mkRequest id (str "n") Waiting None)) as H by (vm_compute; reflexivity).
  split; [exact (Hr 0 _ H eq_refl)|exact (Hf 0 _ (Err TIMED_OUT) H eq_refl)].
Defined.
End Sample.
