(* ===== verification/Control.v ===== *)
(** The control protocol, both ends: [serve_control_connection] of
    crates/keyvisor-agent/src/main.rs and the control client of
    crates/keyvisor-cli/src/main.rs. *)

From S2P Require Import Prelude Bytes Text Effects FileSystem Broker.

Definition MAX_PIN_BYTES : Z := 64.
Definition MAX_CONTROL_LINE_BYTES : Z := 16 * 1024.
Definition MAX_PENDING_AUTHORIZATIONS : Z := 16.

(** ** Byte streams

    What a peer sends until it closes its side ([None]) or an error such as a timeout
    ends the reading. *)
Record source := mkSource {
  avail : bytes;
  ending : option io_error;
}.

(** [reader.take(limit).read_until(b'\n', ..)]. *)
Definition read_until (limit : Z) (s : source) : io_result (bytes * source) :=
  let window := firstn (Z.to_nat limit) (avail s) in
  match position (fun b => bool_decide (b = newline)) window with
  | Some n => Ok (firstn (S n) window, mkSource (skipn (S n) (avail s)) (ending s))
  | None =>
      if limit <=? len (avail s) then Ok (window, mkSource (skipn (Z.to_nat limit) (avail s)) (ending s))
      else match ending s with
           | None => Ok (window, mkSource [] None)
           | Some e => Err e
           end
  end.

Definition unexpected_eof : io_error := mk_io_error UnexpectedEof (str "failed to fill whole buffer").

(** [read_exact]. *)
Definition read_exact (n : Z) (s : source) : io_result (bytes * source) :=
  match split_at_checked (avail s) n with
  | Some (value, rest) => Ok (value, mkSource rest (ending s))
  | None => Err (match ending s with None => unexpected_eof | Some e => e end)
  end.

(** ** The agent's side *)

Definition control_io (error : io_error) : bytes :=
  str "control protocol I/O failed: " ++ message error.

Inductive ctlE : Type -> Type :=
  | PeerUid : ctlE (io_result Z)
  | Geteuid : ctlE Z
  | SetTimeout : ctlE (io_result unit)
  | ReadUntil (limit : Z) : ctlE (io_result bytes)
  | ReadExact (n : Z) : ctlE (io_result bytes)
  | LockPending : ctlE (result unit (list (bytes * bytes)))
  | LockRemove (id pin : bytes) : ctlE (result unit (option unit))
  | SendPin : ctlE (result unit unit)
  | WriteLine (line : bytes) : ctlE (io_result unit).

(** [read_control_line] of the agent. *)
Definition read_control_line : prog ctlE (result bytes bytes) :=
  bytes ←? map_err_prog control_io (trigger (ReadUntil (MAX_CONTROL_LINE_BYTES + 1)));
  if negb (bool_decide (last bytes = Some newline)) || (MAX_CONTROL_LINE_BYTES <? len bytes)
  then Ret (Err (str "invalid control command"))
  else
    let bytes := removelast bytes in
    Ret (from_utf8 (str "control command is not UTF-8") bytes).

(** The fields of an [AUTHORIZE] command: the identifier and the length of the PIN. *)
Definition authorize_fields (command : bytes) : result bytes (bytes * Z) :=
  let fields := split_ascii_whitespace command in
  if negb (bool_decide (head fields = Some (str "AUTHORIZE")))
  then Err (str "invalid authorization command")
  else
    let fields := tail fields in
    id ← ok_or (head fields) (str "missing request identifier");
    let fields := tail fields in
    length ← ok_or (head fields) (str "missing PIN length");
    length ← ok_or (parse_u64 length) (str "invalid PIN length");
    let fields := tail fields in
    if negb (bool_decide (head fields = None)) || negb ((6 <=? length) && (length <=? MAX_PIN_BYTES))
    then Err (str "invalid authorization command")
    else Ok (id, length).

Fixpoint write_pending (pending : list (bytes * bytes)) : prog ctlE (result bytes unit) :=
  match pending with
  | [] => Ret (Ok tt)
  | (id, key_name) :: pending =>
      _ ←? map_err_prog control_io (trigger (WriteLine (id ++ [tab] ++ hex_encode key_name)));
      write_pending pending
  end.

Definition unavailable : unit -> bytes := fun _ => str "authorization state is unavailable".

Definition serve_control_connection : prog ctlE (result bytes unit) :=
  uid ←? map_err_prog (fun error => str "cannot authenticate control peer: " ++ message error)
    (trigger PeerUid);
  euid ← trigger Geteuid;
  if negb (uid =? euid) then Ret (Err (str "control peer is not the agent owner"))
  else
    _ ←? map_err_prog control_io (trigger SetTimeout);
    _ ←? map_err_prog control_io (trigger SetTimeout);
    command ←? read_control_line;
    if decide (command = str "STATUS") then
      map_err_prog control_io (trigger (WriteLine (str "OK running")))
    else if decide (command = str "LIST") then
      pending ←? map_err_prog unavailable (trigger LockPending);
      _ ←? map_err_prog control_io
        (trigger (WriteLine (str "OK KEYVISOR-PENDING-1 " ++ print_dec (len pending))));
      write_pending pending
    else if starts_with (str "AUTHORIZE ") command then
      '(id, length) ←? Ret (authorize_fields command);
      pin ←? map_err_prog (fun error => str "cannot read authorization value: " ++ message error)
        (trigger (ReadExact length));
      request ←? map_err_prog unavailable (trigger (LockRemove id pin));
      _ ←? Ret (ok_or request NOT_PENDING);
      _ ←? map_err_prog (fun _ => NOT_ACTIVE) (trigger SendPin);
      map_err_prog control_io (trigger (WriteLine (str "OK authorized")))
    else Ret (Err (str "unknown control command")).

(** The worker of [spawn_control_service]: errors are reported to the peer. *)
Definition control_worker : prog ctlE unit :=
  r ← serve_control_connection;
  match r with
  | Err error => _ ← trigger (WriteLine (str "ERR " ++ error)); Ret tt
  | _ => Ret tt
  end.

(** *** Its environment *)

(** The connection [conn] of a peer, in an agent whose other threads share [broker]. *)
Record connection := mkConnection {
  shared : broker;
  input : source;
  output : bytes;
  trace : list event;
}.

(** The constants of a connection. *)
Record setting := mkSetting {
  conn : Z;
  peer_uid : Z;
  owner_uid : Z;
}.

(** Before an operation the other threads run for a while; then it may fail. *)
Record interference := mkInterference {
  others : list event;
  io_fault : option io_error;
}.
Definition alone : interference := mkInterference [] None.

(** The events of other threads: none of this connection's. *)
Definition foreign (c : Z) (e : event) : bool :=
  match e with Take c' _ _ | Deliver c' => negb (c' =? c) | _ => true end.

Definition set_shared (w : connection) (s : broker) (es : list event) : connection :=
  mkConnection s (input w) (output w) (trace w ++ es).
Definition set_input (w : connection) (i : source) : connection :=
  mkConnection (shared w) i (output w) (trace w).
Definition set_output (w : connection) (o : bytes) : connection :=
  mkConnection (shared w) (input w) o (trace w).

Definition interfere (st : setting) (v : interference) (w : connection) : connection :=
  let es := filter (fun e => foreign (conn st) e = true) (others v) in
  match steps (shared w) es with
  | Some s => set_shared w s es
  | None => w
  end.

Definition from_source {A} (r : io_result (A * source)) (w : connection) : io_result A * connection :=
  match r with
  | Ok (a, i) => (Ok a, set_input w i)
  | Err e => (Err e, w)
  | Panic => (Panic, w)
  end.

(** One step of this connection on the shared state. *)
Definition own_step (w : connection) (e : event) : option connection :=
  s ← step (shared w) e; Some (set_shared w s [e]).

Definition ctl_exec (st : setting) {X} (v : interference) (w : connection) (e : ctlE X) : X * connection :=
  match e in ctlE X return X * connection with
  | PeerUid =>
      match io_fault v with Some e => (Err e, w) | None => (Ok (peer_uid st), w) end
  | Geteuid => (owner_uid st, w)
  | SetTimeout =>
      match io_fault v with Some e => (Err e, w) | None => (Ok tt, w) end
  | ReadUntil limit =>
      match io_fault v with Some e => (Err e, w) | None => from_source (read_until limit (input w)) w end
  | ReadExact n =>
      match io_fault v with Some e => (Err e, w) | None => from_source (read_exact n (input w)) w end
  | LockPending =>
      if lock_poisoned (shared w) then (Err tt, w) else (Ok (list_pending (shared w)), w)
  | LockRemove id pin =>
      if lock_poisoned (shared w) then (Err tt, w)
      else match own_step w (Take (conn st) id pin) with
           | Some w' => (Ok (const tt <$> authorizations (shared w) !! id), w')
           | None => (Ok None, w)
           end
  | SendPin =>
      match own_step w (Deliver (conn st)) with
      | Some w' => (match held (shared w) !! conn st ≫= (fun h => requests (shared w) !! fst h) with
                    | Some r => if receiver_dropped r then Err tt else Ok tt
                    | None => Err tt
                    end, w')
      | None => (Err tt, w)
      end
  | WriteLine line =>
      match io_fault v with
      | Some e => (Err e, w)
      | None => (Ok tt, set_output w (output w ++ line ++ [newline]))
      end
  end.

Definition ctl_handler (st : setting) : Handler ctlE connection interference :=
  fun X v w e => ctl_exec st v (interfere st v w) e.

(** ** The client's side *)

(** [read_control_line] of the client, byte by byte. *)
Fixpoint read_line_loop (fuel : nat) (acc : bytes) (s : source) : result bytes (bytes * source) :=
  match fuel with
  | O => Err (str "agent returned an invalid control response")
  | S fuel =>
      '(byte, s) ← map_err control_io (read_exact 1 s);
      byte ← index byte 0;
      if decide (byte = newline) then
        text ← from_utf8 (str "agent returned non-UTF-8 control data") acc;
        Ok (text, s)
      else read_line_loop fuel (acc ++ [byte]) s
  end.
Definition read_control_response (s : source) : result bytes (bytes * source) :=
  read_line_loop (Z.to_nat (MAX_CONTROL_LINE_BYTES + 1)) [] s.

Definition control_error (line : bytes) : bytes :=
  match strip_prefix (str "ERR ") line with
  | Some message => message
  | None => str "invalid response from agent"
  end.

Definition hex_digit (byte : byte) : result bytes Z :=
  match hex_value byte with
  | Some d => Ok d
  | None => Err (str "invalid hexadecimal encoding")
  end.

Fixpoint decode_pairs (value : bytes) : result bytes bytes :=
  match value with
  | high :: low :: value =>
      high ← hex_digit high;
      low ← hex_digit low;
      bytes ← decode_pairs value;
      Ok (b8 (Z.lor (Z.shiftl high 4) low) :: bytes)
  | _ => Ok []
  end.

Definition decode_hex_text (value : bytes) : result bytes bytes :=
  if negb (len value mod 2 =? 0) then Err (str "agent returned invalid key-name encoding")
  else
    bytes ← decode_pairs value;
    from_utf8 (str "agent returned an invalid key name") bytes.

Fixpoint fetch_requests (count : nat) (s : source) : result bytes (list (bytes * bytes)) :=
  match count with
  | O => Ok []
  | S count =>
      '(line, s) ← read_control_response s;
      '(id, name) ← ok_or (split_once tab line) (str "agent returned an invalid authorization request");
      name ← decode_hex_text name;
      requests ← fetch_requests count s;
      Ok ((id, name) :: requests)
  end.

(** [fetch_authorization_requests], on the agent's answer to [LIST]. *)
Definition fetch_authorization_requests (s : source) : result bytes (list (bytes * bytes)) :=
  '(header, s) ← read_control_response s;
  count ← ok_or (strip_prefix (str "OK KEYVISOR-PENDING-1 ") header) (control_error header);
  count ← ok_or (parse_u64 count) (str "agent returned an invalid request count");
  if MAX_PENDING_AUTHORIZATIONS <? count then Err (str "agent returned too many authorization requests")
  else fetch_requests (Z.to_nat count) s.

(** What [authorize_request] sends, and what it makes of the answer. *)
Definition authorize_message (id pin : bytes) : bytes :=
  str "AUTHORIZE " ++ id ++ str " " ++ print_dec (len pin) ++ [newline] ++ pin.
Definition authorize_response (s : source) : result bytes unit :=
  '(line, s) ← read_control_response s;
  if decide (line = str "OK authorized") then Ok tt
  else Err (control_error line).

(** [agent status]. *)
Definition status_message : bytes := str "STATUS" ++ [newline].
Definition list_message : bytes := str "LIST" ++ [newline].
Definition status_response (s : source) : result bytes unit :=
  '(line, s) ← read_control_response s;
  if decide (line = str "OK running") then Ok tt
  else Err (control_error line).

(** Reading an answer fails with a message, never with a panic. *)
Section Answers.
Let any : bytes -> Prop := fun _ => True.

Lemma read_line_loop_fails fuel acc s : fails_with any (read_line_loop fuel acc s).
Proof.
  revert acc s; induction fuel as [|fuel IH]; intros acc s; [done|]. cbn [read_line_loop]. unfold read_exact.
  unfold split_at_checked. destruct (len (avail s) <? 1) eqn:E; [done|].
  destruct (avail s) as [|b l]; [done|].
  cbn [map_err mbind result_bind]. change (index (take (Z.to_nat 1) (b :: l)) 0) with (Ok (E:=bytes) b).
  cbn [mbind result_bind]. destruct (decide _); [|apply IH].
  unfold from_utf8. by destruct (utf8_valid acc).
Qed.

Lemma read_control_response_fails s : fails_with any (read_control_response s).
Proof. apply read_line_loop_fails. Qed.

Lemma decode_pairs_fails value : fails_with any (decode_pairs value).
Proof.
  cut (forall n value, (length value <= n)%nat -> fails_with any (decode_pairs value)); [eauto|].
  induction n as [|n IH]; intros [|high [|low v]] Hn; try done; cbn in Hn; [lia|]. cbn [decode_pairs].
  unfold hex_digit. destruct (hex_value high); [|done]. destruct (hex_value low); [|done].
  cbn [mbind result_bind]. apply fails_with_bind; [apply IH; lia|done].
Qed.

Lemma fetch_requests_fails count s : fails_with any (fetch_requests count s).
Proof.
  revert s; induction count as [|count IH]; intros s; [done|]. cbn [fetch_requests].
  apply fails_with_bind; [apply read_control_response_fails|intros [line s'] _].
  destruct (split_once tab line) as [[id name]|]; [|done]. cbn [ok_or mbind result_bind].
  apply fails_with_bind; [|intros name' _; by apply fails_with_bind].
  unfold decode_hex_text. destruct (negb _); [done|].
  apply fails_with_bind; [apply decode_pairs_fails|]. intros b _. unfold from_utf8. by destruct (utf8_valid b).
Qed.

Lemma fetch_authorization_requests_fails s : fails_with any (fetch_authorization_requests s).
Proof.
  apply fails_with_bind; [apply read_control_response_fails|intros [header s'] _].
  destruct (strip_prefix _ header); [|done]. cbn [ok_or mbind result_bind].
  destruct (parse_u64 _); [|done]. cbn [ok_or mbind result_bind]. destruct (_ <? _); [done|apply fetch_requests_fails].
Qed.

Lemma authorize_response_fails s : fails_with any (authorize_response s).
Proof.
  apply fails_with_bind; [apply read_control_response_fails|intros [line s'] _]. by destruct (decide _).
Qed.

Lemma status_response_fails s : fails_with any (status_response s).
Proof.
  apply fails_with_bind; [apply read_control_response_fails|intros [line s'] _]. by destruct (decide _).
Qed.
End Answers.

(** ** The agent's side implements the broker *)

Definition own (c : Z) (es : list event) : list event := filter (fun e => foreign c e = false) es.

Lemma own_app c es es' : own c (es ++ es') = own c es ++ own c es'.
Proof. apply filter_app. Qed.

Lemma own_foreign c es : own c (filter (fun e => foreign c e = true) es) = [].
Proof.
  unfold own. induction es as [|e es IH]; [done|]. rewrite filter_cons.
  case_decide as E; [|done]. by rewrite filter_cons_False by congruence.
Qed.

(** Other threads do not touch what a connection holds. *)
Lemma foreign_held c s e s' :
  foreign c e = true -> step s e = Some s' -> held s' !! c = held s !! c.
Proof.
  intros Hf. destruct e as [name|ch|ch o|ch|c' id pin|c'|ms]; cbn [step foreign] in *.
  - intros [= <-]. unfold begin_request. by destruct (lock_poisoned s).
  - destruct (requests s !! ch) as [r|]; [|done]. cbn. destruct (rq_phase r); intros [= <-].
    unfold receive. by destruct (try_recv s ch r).
  - destruct (requests s !! ch) as [r|]; [|done]. cbn. destruct (may_leave r o); [|done]. intros [= <-].
    unfold remove_request. by destruct (lock_poisoned s).
  - destruct (requests s !! ch) as [r|]; [|done]. cbn. by destruct (rq_phase r); intros [= <-].
  - destruct (held s !! c'); [done|]. unfold take_request. bool_to_prop.
    destruct (lock_poisoned s); [by intros [= <-]|].
    destruct (authorizations s !! id); intros [= <-]; cbn; [by rewrite lookup_insert_ne|done].
  - destruct (held s !! c') as [[ch pin]|]; [|done]. cbn. unfold send_pin. bool_to_prop.
    destruct (requests s !! ch) as [r|]; [|intros [= <-]; cbn; by rewrite lookup_delete_ne].
    destruct (receiver_dropped r); [intros [= <-]; cbn; by rewrite lookup_delete_ne|].
    destruct (rq_channel r); [done|]. intros [= <-]. cbn. by rewrite lookup_delete_ne.
  - destruct (0 <=? ms); [|done]. by intros [= <-].
Qed.

Lemma foreign_steps_held c s es s' :
  steps s (filter (fun e => foreign c e = true) es) = Some s' -> held s' !! c = held s !! c.
Proof.
  revert s; induction es as [|e es IH]; intros s; [by intros [= ->]|].
  rewrite filter_cons. case_decide as Hf; cbn [steps]; [|apply IH].
  destruct (step s e) as [s1|] eqn:E; [|done]. cbn. intros H%IH.
  by rewrite H, (foreign_held c s e s1).
Qed.

(** *** What the peer said *)

Lemma position_newline l k :
  newline ∉ l -> position (fun b => bool_decide (b = newline)) (l ++ newline :: k) = Some (length l).
Proof.
  induction l as [|b l IH]; [done|]. rewrite not_elem_of_cons. intros [H1 H2]. cbn.
  rewrite bool_decide_false by congruence. by rewrite IH.
Qed.

Lemma read_until_line limit l k e :
  newline ∉ l -> len l + 1 <= limit ->
  read_until limit (mkSource (l ++ newline :: k) e) = Ok (l ++ [newline], mkSource k e).
Proof.
  intros Hn Hl. unfold read_until. cbn [avail ending].
  assert (firstn (Z.to_nat limit) (l ++ newline :: k) =
    l ++ newline :: firstn (Z.to_nat limit - S (length l)) k) as ->.
  { unfold len in Hl. rewrite take_app_ge by lia. f_equal.
    replace (Z.to_nat limit - length l)%nat with (S (Z.to_nat limit - S (length l))) by lia. done. }
  rewrite position_newline by done.
  f_equal. f_equal; [|f_equal].
  - rewrite take_app_ge by lia. replace (S (length l) - length l)%nat with 1%nat by lia. done.
  - rewrite drop_app_ge by lia. replace (S (length l) - length l)%nat with 1%nat by lia. done.
Qed.

(** The first line that the peer sent, and what came after it. *)
Definition heard (s : source) (command rest : bytes) : Prop :=
  avail s = command ++ newline :: rest /\ newline ∉ command.

(** A line that fits is read; what is read as a line is one. *)
Lemma read_until_heard limit s b s' :
  read_until limit s = Ok (b, s') -> last b = Some newline ->
  heard s (removelast b) (avail s') /\ ending s' = ending s.
Proof.
  unfold read_until. set (window := firstn _ _). intros Hr Hl.
  destruct (position _ window) as [n|] eqn:Ep.
  - injection Hr as <- <-. cbn [avail ending]. split; [|done].
    apply position_Some in Ep as (Hn & x & k & Hk & Hx). apply bool_decide_eq_true in Hx as ->.
    assert (window = firstn n window ++ newline :: k) as Ew by (rewrite <- Hk; symmetry; apply take_drop).
    assert (length (firstn n window) = n) as Hlen.
    { rewrite length_take. apply (f_equal length) in Hk. rewrite length_drop in Hk. cbn in Hk. lia. }
    assert (avail s = firstn n window ++ newline :: (k ++ skipn (Z.to_nat limit) (avail s))) as Ea.
    { rewrite <- (take_drop (Z.to_nat limit) (avail s)) at 1. fold window. rewrite Ew at 1. by rewrite <- app_assoc. }
    assert (firstn (S n) window = firstn n window ++ [newline]) as ->.
    { rewrite Ew at 1. rewrite take_app_ge by lia. by replace (S n - length (firstn n window))%nat with 1%nat by lia. }
    rewrite removelast_last. split.
    + rewrite Ea at 1. f_equal. f_equal. rewrite Ea at 2. rewrite drop_app_ge by lia.
      by replace (S n - length (firstn n window))%nat with 1%nat by lia.
    + intros Hin. rewrite Forall_forall in Hn. apply Hn in Hin. by rewrite bool_decide_true in Hin.
  - exfalso. apply position_None in Ep. assert (b = window) as ->.
    { destruct (limit <=? _); [by injection Hr|]. destruct (ending s); [done|by injection Hr]. }
    apply last_Some in Hl as [l' Hl]. rewrite Hl in Ep. apply Forall_app in Ep as [_ Ep]. by apply Forall_cons in Ep as [? _].
Qed.

(** The same environment, in which input and output do not fail when it is [steady]. *)
Definition ctl_handler_in (st : setting) (steady : bool) : Handler ctlE connection interference :=
  fun X v w e => ctl_exec st (if steady then alone else v) (interfere st v w) e.

Lemma ctl_handler_faulty st : ctl_handler_in st false = ctl_handler st.
Proof. done. Qed.

Section Agent.
Context (st : setting) (steady : bool) (w0 : connection).

Let c : Z := conn st.
#[local] Instance ctl_handler_st : Handler ctlE connection interference := ctl_handler_in st steady.

Definition permitted (v : interference) : Prop := steady = true -> io_fault v = None.

Lemma permitted_choice v : permitted (if steady then alone else v).
Proof. unfold permitted. by destruct steady. Qed.

Lemma permitted_fault v e : permitted v -> io_fault v = Some e -> steady = false.
Proof. unfold permitted. destruct steady; [|done]. intros H E. by rewrite H in E. Qed.

(** The shared state evolves by the events of the trace, of which [mine] are this
    connection's own. *)
Record conforms (mine : list event) (w : connection) : Prop := {
  cf_steps : steps (shared w0) (trace w) = Some (shared w);
  cf_own : own c (trace w) = mine;
}.

Lemma conforms_interfere mine v w : conforms mine w -> conforms mine (interfere st v w).
Proof.
  intros [Hs Ho]. unfold interfere. destruct (steps (shared w) _) as [s|] eqn:E; [|done].
  split; cbn [set_shared shared trace].
  - rewrite steps_app, Hs. exact E.
  - rewrite own_app, Ho, own_foreign, app_nil_r. done.
Qed.

Lemma interfere_held v w : held (shared (interfere st v w)) !! c = held (shared w) !! c.
Proof.
  unfold interfere. destruct (steps (shared w) _) as [s|] eqn:E; [|done]. cbn.
  by eapply foreign_steps_held.
Qed.

Lemma interfere_steps v w : exists es, trace (interfere st v w) = trace w ++ es /\ steps (shared w) es = Some (shared (interfere st v w)).
Proof.
  unfold interfere. destruct (steps (shared w) _) as [s|] eqn:E; [|exists []; by rewrite app_nil_r]. by eexists.
Qed.

(** Fewer than 2^64 requests have been numbered: the code's counter has not come round. *)
Definition small (w : connection) : Prop := started (shared w) <= 2 ^ 64.

(** *** Moments of the shared state *)

(** The state was so at some moment of this connection. *)
Definition was (P : broker -> Prop) (w : connection) : Prop :=
  exists es es' s, trace w = es ++ es' /\ steps (shared w0) es = Some s /\ P s.

Lemma was_now (P : broker -> Prop) mine w : conforms mine w -> P (shared w) -> was P w.
Proof. intros [Hs _] HP. exists (trace w), [], (shared w). by rewrite app_nil_r. Qed.

Lemma was_later P w w' es : trace w' = trace w ++ es -> was P w -> was P w'.
Proof. intros Ht (es1 & es2 & s & E & Hs & HP). exists es1, (es2 ++ es), s. by rewrite Ht, E, app_assoc. Qed.

(** *** How a connection ends *)

(** The first line authorizes the request [id], and [pin] are the bytes after it, as many
    as it announces: at least 6 and at most 64. *)
Definition authorizes (id pin : bytes) : Prop :=
  exists command rest length, heard (input w0) command (pin ++ rest) /\
    split_ascii_whitespace command = [str "AUTHORIZE"; id; length] /\ parse_u64 length = Some (len pin) /\
    6 <= len pin <= MAX_PIN_BYTES.

(** The PIN is in the channel of the request [id]. *)
Definition received (id pin : bytes) (s : broker) : Prop :=
  exists ch q, requests s !! ch = Some q /\ rq_id q = id /\ rq_channel q = Some pin.

Definition pending_line (p : bytes * bytes) : bytes := p.1 ++ [tab] ++ hex_encode p.2 ++ [newline].
(** The answer to [LIST], line by line. *)
Definition list_answer (pending : list (bytes * bytes)) : bytes :=
  str "OK KEYVISOR-PENDING-1 " ++ print_dec (len pending) ++ [newline] ++ concat (pending_line <$> pending).

(** What is wrong with what the peer said, or with the connection. *)
Inductive complaint : bytes -> Prop :=
  | no_io error : steady = false -> complaint (control_io error)
  | no_stream error :
      newline ∉ avail (input w0) -> ending (input w0) = Some error -> complaint (control_io error)
  | no_line :
      (forall command rest, heard (input w0) command rest -> MAX_CONTROL_LINE_BYTES < len command + 1) ->
      complaint (str "invalid control command")
  | no_text command rest :
      heard (input w0) command rest -> utf8_valid command = false -> complaint (str "control command is not UTF-8")
  | no_command command rest :
      heard (input w0) command rest -> command <> str "STATUS" -> command <> str "LIST" ->
      ~ (str "AUTHORIZE " `prefix_of` command) -> complaint (str "unknown control command")
  | no_fields command rest error :
      heard (input w0) command rest -> str "AUTHORIZE " `prefix_of` command ->
      (forall id length n, split_ascii_whitespace command = [str "AUTHORIZE"; id; length] ->
         parse_u64 length = Some n -> ~ 6 <= n <= MAX_PIN_BYTES) ->
      error ∈ [str "invalid authorization command"; str "missing request identifier"; str "missing PIN length";
               str "invalid PIN length"] ->
      complaint error
  | no_pin_read error : steady = false -> complaint (str "cannot read authorization value: " ++ message error)
  | short_pin command rest id length n :
      heard (input w0) command rest -> split_ascii_whitespace command = [str "AUTHORIZE"; id; length] ->
      parse_u64 length = Some n -> len rest < n ->
      complaint (str "cannot read authorization value: " ++
        message (match ending (input w0) with None => unexpected_eof | Some error => error end)).

(** Why nothing was done for the peer, which is not listened to unless it is the owner. *)
Inductive refusal : bytes -> Prop :=
  | unknown_peer error : steady = false -> refusal (str "cannot authenticate control peer: " ++ message error)
  | other_peer : peer_uid st <> owner_uid st -> refusal (str "control peer is not the agent owner")
  | own_peer error : peer_uid st = owner_uid st -> complaint error -> refusal error.

(** The result of a connection, what it did to the broker, and what it said: a refusal
    says nothing and does nothing; a status; the pending requests of some moment; and an
    authorization, of the request that the line names, with the bytes after the line, which is
    reported as one only when the PIN is in the channel of that request. *)
Inductive replied (w : connection) : result bytes unit -> Prop :=
  | replied_refused error :
      refusal error -> own c (trace w) = [] -> output w = [] -> replied w (Err error)
  | replied_status rest :
      peer_uid st = owner_uid st -> heard (input w0) (str "STATUS") rest ->
      own c (trace w) = [] -> output w = str "OK running" ++ [newline] -> replied w (Ok tt)
  | replied_list rest pending :
      peer_uid st = owner_uid st -> heard (input w0) (str "LIST") rest -> own c (trace w) = [] ->
      was (fun s => list_pending s = pending) w -> output w = list_answer pending -> replied w (Ok tt)
  | replied_part rest pending error :
      steady = false -> peer_uid st = owner_uid st -> heard (input w0) (str "LIST") rest -> own c (trace w) = [] ->
      was (fun s => list_pending s = pending) w -> output w `prefix_of` list_answer pending ->
      replied w (Err (control_io error))
  | replied_missing id pin :
      peer_uid st = owner_uid st -> authorizes id pin -> own c (trace w) = [Take c id pin] ->
      was (fun s => authorizations s !! id = None) w -> output w = [] -> replied w (Err NOT_PENDING)
  | replied_inactive id pin :
      peer_uid st = owner_uid st -> authorizes id pin -> own c (trace w) = [Take c id pin; Deliver c] ->
      was (fun s => exists ch q, requests s !! ch = Some q /\ rq_id q = id /\ receiver_dropped q = true) w ->
      output w = [] -> replied w (Err NOT_ACTIVE)
  | replied_authorized id pin :
      peer_uid st = owner_uid st -> authorizes id pin -> own c (trace w) = [Take c id pin; Deliver c] ->
      was (received id pin) w -> output w = str "OK authorized" ++ [newline] -> replied w (Ok tt)
  | replied_unheard id pin error :
      steady = false -> peer_uid st = owner_uid st -> authorizes id pin -> own c (trace w) = [Take c id pin; Deliver c] ->
      was (received id pin) w -> output w = [] -> replied w (Err (control_io error)).

Definition finished (r : result bytes unit) (w : connection) : Prop :=
  steps (shared w0) (trace w) = Some (shared w) /\ (small w -> held (shared w) !! c = None /\ replied w r).

(** *** Stages of a connection *)

(** Between two operations: the connection's own events, what it holds, what it has not read
    yet, and what it has said. *)
Record stage (mine : list event) (h : option (Z * bytes)) (i : source) (o : bytes) (w : connection) : Prop := mk_stage {
  sg_conforms : conforms mine w;
  sg_inv : inv (shared w);
  sg_small : small w;
  sg_held : held (shared w) !! c = h;
  sg_input : input w = i;
  sg_output : output w = o;
}.

Lemma interfere_rest v w : input (interfere st v w) = input w /\ output (interfere st v w) = output w.
Proof. unfold interfere. by destruct (steps _ _). Qed.

Lemma stage_interfere mine h i o v w :
  stage mine h i o w -> small (interfere st v w) -> stage mine h i o (interfere st v w).
Proof.
  intros [Hc Hi _ Hh Hin Ho] Hs. destruct (interfere_rest v w) as [E1 E2]. destruct (interfere_steps v w) as (es & _ & Hes).
  split; [by apply conforms_interfere|by eapply inv_steps|done|by rewrite interfere_held|by rewrite E1|by rewrite E2].
Qed.

(** Events only accumulate, and the counter does not go back. *)
Lemma exec_steps {X} v w (e : ctlE X) :
  exists es, trace (snd (ctl_exec st v w e)) = trace w ++ es /\ steps (shared w) es = Some (shared (snd (ctl_exec st v w e))).
Proof.
  assert (exists es, trace w = trace w ++ es /\ steps (shared w) es = Some (shared w)) as H0 by (exists []; by rewrite app_nil_r).
  assert (forall e w', own_step w e = Some w' -> exists es, trace w' = trace w ++ es /\ steps (shared w) es = Some (shared w')) as Hown.
  { intros e' w' H. unfold own_step in H. destruct (step (shared w) e') as [s|] eqn:E; [|done]. injection H as <-.
    exists [e']. cbn. by rewrite E. }
  destruct e; cbn [ctl_exec]; try (destruct (io_fault v); [done|]); try done.
  - by destruct (read_until limit (input w)) as [[]| |].
  - by destruct (read_exact n (input w)) as [[]| |].
  - by destruct (lock_poisoned _).
  - destruct (lock_poisoned _); [done|]. destruct (own_step w _) eqn:E; [by eapply Hown|done].
  - destruct (own_step w _) eqn:E; [by eapply Hown|done].
Qed.

Lemma exec_conforms {X} mine v w (e : ctlE X) :
  conforms mine w -> steps (shared w0) (trace (snd (ctl_exec st v w e))) = Some (shared (snd (ctl_exec st v w e))).
Proof. intros [Hs _]. destruct (exec_steps v w e) as (es & -> & He). by rewrite steps_app, Hs. Qed.

(** Once the counter has come round nothing more is claimed. *)
Lemma overrun {A} (p : prog ctlE A) (Q : A -> connection -> Prop) w :
  steps (shared w0) (trace w) = Some (shared w) -> ~ small w ->
  (forall r w', steps (shared w0) (trace w') = Some (shared w') -> ~ small w' -> Q r w') ->
  safe (fun _ => True) p Q w.
Proof.
  intros Hs Hn HQ. revert w Hs Hn. induction p as [r|X e k IH]; intros w Hs Hn; [by apply safe_ret; [|apply HQ]|].
  apply safe_vis; [done|]. intros v. destruct (interfere_steps v w) as (es & Et & Hes).
  destruct (exec_steps (if steady then alone else v) (interfere st v w) e) as (es' & Et' & Hes').
  change (exec v w e) with (ctl_exec st (if steady then alone else v) (interfere st v w) e). apply IH.
  - by rewrite Et', steps_app, Et, steps_app, Hs; cbn; rewrite Hes.
  - apply steps_started in Hes, Hes'. unfold small in *. lia.
Qed.

Lemma overrun_finished (p : prog ctlE (result bytes unit)) w :
  steps (shared w0) (trace w) = Some (shared w) -> ~ small w -> safe (fun _ => True) p finished w.
Proof. intros Hs Hn. apply overrun; [done..|]. intros r w' Hs' Hn'. by split. Qed.

Lemma op_safe {X} (e : ctlE X) (Q : X -> connection -> Prop) mine h i o w :
  stage mine h i o w ->
  (forall v w' es, permitted v -> trace w' = trace w ++ es -> stage mine h i o w' -> Q (fst (ctl_exec st v w' e)) (snd (ctl_exec st v w' e))) ->
  (forall x w', steps (shared w0) (trace w') = Some (shared w') -> ~ small w' -> Q x w') ->
  safe (fun _ => True) (trigger e) Q w.
Proof.
  intros Hw HQ Hn. apply safe_vis; [done|]. intros v. apply safe_ret; [done|].
  change (exec v w e) with (ctl_exec st (if steady then alone else v) (interfere st v w) e).
  destruct (interfere_steps v w) as (es & Et & _). destruct (decide (small (interfere st v w))) as [Hs|Hs].
  - apply (HQ _ _ es); [apply permitted_choice|done|by apply stage_interfere].
  - apply Hn; [by eapply exec_conforms, conforms_interfere, Hw|].
    destruct (exec_steps (if steady then alone else v) (interfere st v w) e) as (es' & _ & Hes%steps_started). unfold small in *. lia.
Qed.

(** A step that fails ends the connection; one that succeeds goes on. *)
Lemma try_op {Er X} (e : ctlE (result Er X)) (g : Er -> bytes) (f : X -> prog ctlE (result bytes unit)) mine h i o w :
  stage mine h i o w ->
  (forall v w' es, permitted v -> trace w' = trace w ++ es -> stage mine h i o w' ->
     match fst (ctl_exec st v w' e) with
     | Ok x => safe (fun _ => True) (f x) finished (snd (ctl_exec st v w' e))
     | Err error => finished (Err (g error)) (snd (ctl_exec st v w' e))
     | Panic => False
     end) ->
  safe (fun _ => True) (try_bind f (map_err_prog g (trigger e))) finished w.
Proof.
  intros Hw Hf. apply safe_try, safe_map_err, (op_safe _ _ mine h i o); [done| |].
  - intros v w' es Hv Et Hw'. split; [done|]. specialize (Hf v w' es Hv Et Hw').
    by destruct (fst (ctl_exec st v w' e)); cbn [map_err].
  - intros x w' Hs Hn. split; [done|]. destruct x as [x|error|]; cbn [map_err]; [by apply overrun_finished|by split..].
Qed.

Lemma last_op {Er} (e : ctlE (result Er unit)) (g : Er -> bytes) mine h i o w :
  stage mine h i o w ->
  (forall v w' es, permitted v -> trace w' = trace w ++ es -> stage mine h i o w' ->
     finished (map_err g (fst (ctl_exec st v w' e))) (snd (ctl_exec st v w' e))) ->
  safe (fun _ => True) (map_err_prog g (trigger e)) finished w.
Proof.
  intros Hw Hf. apply safe_map_err, (op_safe _ _ mine h i o); [done| |].
  - intros v w' es Hv Et Hw'. split; [done|]. by eapply Hf.
  - intros x w' Hs Hn. by split.
Qed.

Lemma refused e i w : stage [] None i [] w -> refusal e -> finished (Err e) w.
Proof. intros [[Hs Ho] Hi _ Hh Hin Hout] He. split; [done|]. intros _. split; [done|]. by apply replied_refused. Qed.

Lemma complain e i w : peer_uid st = owner_uid st -> stage [] None i [] w -> complaint e -> finished (Err e) w.
Proof. intros Hu Hw He. eapply refused; [exact Hw|by apply own_peer]. Qed.

(** *** The commands *)

Lemma authorize_fields_spec command id n :
  authorize_fields command = Ok (id, n) <->
  exists length, split_ascii_whitespace command = [str "AUTHORIZE"; id; length] /\ parse_u64 length = Some n /\
    6 <= n <= MAX_PIN_BYTES.
Proof.
  unfold authorize_fields. split.
  - destruct (negb _) eqn:E0; [done|]. apply negb_false_iff, bool_decide_eq_true in E0. intros H.
    apply bind_Ok_inv in H as (id' & E1 & H). apply bind_Ok_inv in H as (length & E2 & H).
    apply bind_Ok_inv in H as (n' & E3 & H). destruct (negb _ || _) eqn:E4; [done|]. injection H as -> ->.
    apply orb_false_iff in E4 as [E4 E5]. apply negb_false_iff, bool_decide_eq_true in E4. apply negb_false_iff in E5.
    destruct (split_ascii_whitespace command) as [|a [|b [|d [|]]]]; cbn in *; simplify_eq.
    exists length. destruct (parse_u64 length) as [m|]; [|done]. injection E3 as ->. split_and!; [done..| |]; bool_lia.
  - intros (length & -> & Hn & Hb). cbn [head tail]. rewrite bool_decide_true by done. cbn [negb ok_or mbind result_bind].
    rewrite Hn. cbn [ok_or mbind result_bind]. rewrite bool_decide_true by done.
    by rewrite (proj2 (Z.leb_le _ _)), (proj2 (Z.leb_le _ _)) by lia.
Qed.

Lemma write_safe (f : unit -> prog ctlE (result bytes unit)) line mine h i o w (J : connection -> Prop) :
  stage mine h i o w -> J w -> (forall w w' es, trace w' = trace w ++ es -> J w -> J w') ->
  (forall error w', steady = false -> stage mine h i o w' -> J w' -> finished (Err (control_io error)) w') ->
  (forall w', stage mine h i (o ++ line ++ [newline]) w' -> J w' -> safe (fun _ => True) (f tt) finished w') ->
  safe (fun _ => True) (try_bind f (map_err_prog control_io (trigger (WriteLine line)))) finished w.
Proof.
  intros Hw HJ HJl He Hf. apply (try_op _ _ _ mine h i o); [done|]. intros v w' es Hv Et Hw'.
  pose proof (HJl w w' es Et HJ) as HJ'. cbn [ctl_exec]. destruct (io_fault v) as [error|] eqn:Ev; cbn [fst snd];
    [apply He; [by eapply permitted_fault|done..]|].
  apply Hf; [|by apply (HJl w' _ []); [rewrite app_nil_r|]]. destruct Hw' as [[Hs Hm] Hi Hsm Hh Hin Ho]. split; [by split|done..|].
  cbn. by rewrite Ho.
Qed.

(** An event of this connection. *)
Lemma own_stage mine h i o w e s :
  stage mine h i o w -> step (shared w) e = Some s -> foreign c e = false -> started s = started (shared w) ->
  own_step w e = Some (set_shared w s [e]) /\ stage (mine ++ [e]) (held s !! c) i o (set_shared w s [e]).
Proof.
  intros [[Hs Ho] Hi Hsm Hh Hin Hout] Hst Hf Hb. unfold small in Hsm. split; [unfold own_step; by rewrite Hst|].
  split; cbn [set_shared shared input output]; [|eapply inv_step; [done|lia|done]|unfold small; cbn; lia|done..].
  split; cbn [set_shared shared trace].
  - rewrite steps_app, Hs. cbn. by rewrite Hst.
  - rewrite own_app, Ho. unfold own. by rewrite filter_cons_True.
Qed.

Lemma own_take id pin : foreign c (Take c id pin) = false.
Proof. cbn. by rewrite Z.eqb_refl. Qed.
Lemma own_deliver : foreign c (Deliver c) = false.
Proof. cbn. by rewrite Z.eqb_refl. Qed.

Lemma stage_finished mine i o w r : stage mine None i o w -> replied w r -> finished r w.
Proof. intros Hw Hr. split; [apply Hw|]. intros _. split; [apply Hw|done]. Qed.

(** The shared state of two moments. *)
Lemma stage_between m1 m2 h1 h2 i1 i2 o1 o2 w w' es :
  stage m1 h1 i1 o1 w -> stage m2 h2 i2 o2 w' -> trace w' = trace w ++ es -> steps (shared w) es = Some (shared w').
Proof.
  intros [[Hs _] _ _ _ _ _] [[Hs' _] _ _ _ _ _] Ht. rewrite Ht, steps_app, Hs in Hs'. exact Hs'.
Qed.

(** The PIN is sent to the request that was taken. *)
Lemma deliver_safe id pin ch q i w :
  peer_uid st = owner_uid st -> authorizes id pin ->
  stage [Take c id pin] (Some (ch, pin)) i [] w -> begun (shared w) ch q -> rq_id q = id ->
  safe (fun _ => True)
    (_ ←? map_err_prog (fun _ => NOT_ACTIVE) (trigger SendPin);
     map_err_prog control_io (trigger (WriteLine (str "OK authorized")))) finished w.
Proof.
  intros Hu Ha Hw Hq Hid. apply (try_op _ _ _ _ _ _ _ _ Hw). intros v w' es _ Et Hw'.
  pose proof (stage_between _ _ _ _ _ _ _ _ _ _ _ Hw Hw' Et) as Hes.
  destruct (begun_steps _ _ _ _ _ Hes Hq) as (q' & [Hq' _] & [Hid' _] & _).
  destruct (send_cases (shared w') c ch pin (sg_inv _ _ _ _ _ Hw') (sg_held _ _ _ _ _ Hw'))
    as (r & Hr & _ & _ & Hsend). assert (r = q') as -> by congruence.
  assert (forall s, step (shared w') (Deliver c) = Some s -> started s = started (shared w') ->
    ctl_exec st v w' SendPin = (if receiver_dropped q' then Err tt else Ok tt, set_shared w' s [Deliver c]) /\
    stage [Take c id pin; Deliver c] (held s !! c) i [] (set_shared w' s [Deliver c])) as Hstep.
  { intros s Hs Hb. destruct (own_stage _ _ _ _ _ _ _ Hw' Hs own_deliver Hb) as [Ho Hw2]. split; [|done].
    cbn [ctl_exec]. fold c. rewrite Ho, (sg_held _ _ _ _ _ Hw'). cbn. by rewrite Hr. }
  destruct Hsend as [[Hd Es]|[Hd Es]]; rewrite Hd in Hstep.
  - destruct (Hstep (set_held (shared w') (delete c (held (shared w'))))) as [-> Hw2]; [|done|].
    { cbn [step]. rewrite (sg_held _ _ _ _ _ Hw'). cbn. by rewrite Es. }
    cbn [set_held held] in Hw2. rewrite lookup_delete_eq in Hw2. eapply stage_finished; [exact Hw2|].
    apply (replied_inactive _ id pin); [done..|apply Hw2| |apply Hw2].
    eapply was_later; [done|]. eapply was_now; [apply Hw'|]. exists ch, q'. split_and!; [done|congruence|done].
  - destruct (Hstep (set_held (set_request (shared w') ch (set_channel q' (Some pin))) (delete c (held (shared w')))))
      as [-> Hw2]; [|done|].
    { cbn [step]. rewrite (sg_held _ _ _ _ _ Hw'). cbn. by rewrite Es. }
    cbn [set_held held] in Hw2. rewrite lookup_delete_eq in Hw2. cbn [fst snd].
    set (w2 := set_shared _ _ _) in *.
    assert (was (received id pin) w2) as Hrec.
    { eapply was_now; [apply Hw2|]. exists ch, (set_channel q' (Some pin)). cbn. rewrite lookup_insert_eq. split_and!; [done|congruence|done]. }
    apply (last_op _ _ _ _ _ _ _ Hw2). intros v3 w3 es3 Hv3 Et3 Hw3. apply (was_later _ _ _ _ Et3) in Hrec.
    cbn [ctl_exec]. destruct (io_fault v3) as [error|] eqn:Ev; cbn [fst snd map_err].
    + eapply stage_finished; [exact Hw3|]. by apply (replied_unheard _ id pin); [by eapply permitted_fault|..|apply Hw3| |apply Hw3].
    + destruct Hw3 as [Hc Hi Hsm Hh Hin Ho]. split; [apply Hc|]. intros _. split; [done|].
      apply (replied_authorized _ id pin); [done..|apply Hc| |cbn; by rewrite Ho].
      exact (was_later _ w3 (set_output w3 _) [] ltac:(by rewrite app_nil_r) Hrec).
Qed.

(** Taking a request and sending its PIN. *)
Lemma authorize_safe id pin i w :
  peer_uid st = owner_uid st -> authorizes id pin -> stage [] None i [] w ->
  safe (fun _ => True)
    (request ←? map_err_prog unavailable (trigger (LockRemove id pin));
     _ ←? Ret (ok_or request NOT_PENDING);
     _ ←? map_err_prog (fun _ => NOT_ACTIVE) (trigger SendPin);
     map_err_prog control_io (trigger (WriteLine (str "OK authorized")))) finished w.
Proof.
  intros Hu Ha Hw. apply (try_op _ _ _ _ _ _ _ _ Hw). intros v w' es _ Et Hw'.
  pose proof (inv_lock _ (sg_inv _ _ _ _ _ Hw')) as Hl.
  assert (forall s, step (shared w') (Take c id pin) = Some s -> started s = started (shared w') ->
    ctl_exec st v w' (LockRemove id pin) =
      (Ok (const tt <$> authorizations (shared w') !! id), set_shared w' s [Take c id pin]) /\
    stage [Take c id pin] (held s !! c) i [] (set_shared w' s [Take c id pin])) as Hstep.
  { intros s Hs Hb. destruct (own_stage _ _ _ _ _ _ _ Hw' Hs (own_take id pin) Hb) as [Ho Hw2]. split; [|done].
    cbn [ctl_exec]. fold c. by rewrite Hl, Ho. }
  cbn [step] in Hstep. rewrite (sg_held _ _ _ _ _ Hw') in Hstep. unfold take_request in Hstep. rewrite Hl in Hstep.
  destruct (authorizations (shared w') !! id) as [p|] eqn:Ep; edestruct Hstep as [-> Hw2]; [done|done| |done|done|].
  - cbn [fst snd fmap option_fmap option_map ok_or]. change (try_bind ?f (Ret (Ok ?x))) with (f x). cbn beta.
    destruct (inv_table _ (sg_inv _ _ _ _ _ Hw') id p Ep) as (q & Hq & Hid & _).
    cbn [set_held held] in Hw2. rewrite lookup_insert_eq in Hw2.
    apply (deliver_safe id pin (pa_sender p) q i); [done..| |done]. split; [done|].
    cbn. by apply (inv_request _ (sg_inv _ _ _ _ _ Hw')) in Hq as [[_ ?] _].
  - cbn [fst snd fmap option_fmap option_map ok_or]. change (try_bind ?f (Ret (Err ?x))) with (Ret (E:=ctlE) (A:=result bytes unit) (Err x)).
    rewrite (sg_held _ _ _ _ _ Hw') in Hw2. apply safe_ret; [done|]. eapply stage_finished; [exact Hw2|].
    apply (replied_missing _ id pin); [done..|apply Hw2| |apply Hw2].
    eapply was_later; [done|]. eapply was_now; [apply Hw'|done].
Qed.

Lemma authorize_fields_fails command :
  fails_with (fun error => error ∈ [str "invalid authorization command"; str "missing request identifier";
    str "missing PIN length"; str "invalid PIN length"]) (authorize_fields command).
Proof.
  unfold authorize_fields. destruct (negb _); [by set_solver|].
  destruct (split_ascii_whitespace command) as [|a [|id [|length k]]]; cbn [tail head ok_or mbind result_bind];
    [by set_solver..|].
  destruct (parse_u64 length); cbn [ok_or mbind result_bind]; [|by set_solver].
  destruct (negb _ || _); [by set_solver|done].
Qed.

Lemma starts_with_prefix l k : starts_with l k = true <-> l `prefix_of` k.
Proof.
  unfold starts_with. rewrite bool_decide_eq_true. split.
  - intros [x Hx%strip_prefix_Some]. by exists x.
  - intros [x ->]. rewrite strip_prefix_app. by eexists.
Qed.

(** The pending requests, line by line. *)
Lemma write_pending_safe rest sent pending i w :
  peer_uid st = owner_uid st -> heard (input w0) (str "LIST") rest ->
  stage [] None i (str "OK KEYVISOR-PENDING-1 " ++ print_dec (len (sent ++ pending)) ++ [newline] ++
    concat (pending_line <$> sent)) w ->
  was (fun s => list_pending s = sent ++ pending) w ->
  safe (fun _ => True) (write_pending pending) finished w.
Proof.
  intros Hu Hh. revert sent w. induction pending as [|[id name] pending IH]; intros sent w Hw Hj; cbn [write_pending].
  { rewrite app_nil_r in *. apply safe_ret; [done|]. eapply stage_finished; [exact Hw|].
    eapply replied_list; [done|exact Hh|apply Hw|exact Hj|apply Hw]. }
  apply (write_safe _ _ _ _ _ _ _ _ Hw Hj); [intros ? ? ?; apply was_later| |].
  - intros error w' Hv Hw' Hj'. eapply stage_finished; [exact Hw'|].
    eapply replied_part; [done..|exact Hh|apply Hw'|exact Hj'|]. rewrite (sg_output _ _ _ _ _ Hw').
    unfold list_answer. do 3 apply prefix_app. rewrite fmap_app, concat_app. by apply prefix_app_r.
  - intros w' Hw' Hj'. apply (IH (sent ++ [(id, name)])); [|by rewrite <- app_assoc].
    revert Hw'. rewrite fmap_app, concat_app. cbn [fmap list_fmap concat]. unfold pending_line at 3. cbn [fst snd].
    by rewrite app_nil_r, <- !app_assoc.
Qed.

Lemma stage_input mine h i i' o w : stage mine h i o w -> stage mine h i' o (set_input w i').
Proof. intros [[Hs Hm] Hi Hsm Hh Hin Ho]. split; [by split|done..]. Qed.

Lemma read_until_fails limit s e : read_until limit s = Err e -> newline ∉ avail s /\ ending s = Some e.
Proof.
  unfold read_until. set (window := firstn _ _). destruct (position _ window) as [n|] eqn:Ep; [done|].
  destruct (limit <=? _) eqn:El; [done|]. destruct (ending s) as [e'|]; [|done]. intros [= ->]. split; [|done].
  assert (window = avail s) as <- by (apply take_ge; unfold len in El; bool_lia).
  apply position_None in Ep. intros Hin. rewrite Forall_forall in Ep. apply Ep in Hin. by rewrite bool_decide_true in Hin.
Qed.

Lemma read_until_fine limit s : read_until limit s <> Panic.
Proof.
  unfold read_until. destruct (position (A:=byte) _ _); [done|]. destruct (limit <=? _); [done|]. by destruct (ending s).
Qed.

(** The first line. *)
Lemma read_line_safe w :
  peer_uid st = owner_uid st -> stage [] None (input w0) [] w ->
  safe (fun _ => True) read_control_line (fun r w' =>
    steps (shared w0) (trace w') = Some (shared w') /\
    (small w' -> match r with
     | Ok command => exists i, stage [] None i [] w' /\ heard (input w0) command (avail i) /\ ending i = ending (input w0)
     | Err error => finished (Err error) w'
     | Panic => False
     end)) w.
Proof.
  intros Hu Hw. unfold read_control_line. apply safe_try, safe_map_err, (op_safe _ _ _ _ _ _ _ Hw).
  2:{ intros x w' Hs Hn. split; [done|]. destruct x as [x|error|]; cbn [map_err]; [|by split..].
      destruct (negb _ || _); by apply safe_ret. }
  intros v w' es Hv _ Hw'. split; [done|]. cbn [ctl_exec].
  assert (forall e, complaint e -> steps (shared w0) (trace w') = Some (shared w') /\ (small w' -> finished (Err e) w')) as Hfail.
  { intros e He. split; [apply Hw'|]. intros _. by eapply complain. }
  destruct (io_fault v) as [e|] eqn:Ev; cbn [fst snd map_err]; [split; [done|]; by eapply Hfail, no_io, permitted_fault|].
  rewrite (sg_input _ _ _ _ _ Hw').
  destruct (read_until _ (input w0)) as [[b i]|e|] eqn:Er; cbn [from_source fst snd map_err];
    [|split; [done|]; apply Hfail; destruct (read_until_fails _ _ _ Er); by apply no_stream|].
  2:{ by destruct (read_until_fine _ _ Er). }
  pose proof (stage_input _ _ _ i _ _ Hw') as Hw2. revert Hw2. generalize (set_input w' i). clear Hfail Hw' w'. intros w' Hw'.
  assert (forall e, complaint e -> steps (shared w0) (trace w') = Some (shared w') /\ (small w' -> finished (Err e) w')) as Hfail.
  { intros e He. split; [apply Hw'|]. intros _. by eapply complain. }
  destruct (negb _ || _) eqn:Eb.
  - apply safe_ret; [done|]. apply Hfail, no_line. intros command rest [Ha Hn].
    destruct (decide (len command + 1 <= MAX_CONTROL_LINE_BYTES)) as [Hle|]; [|lia]. exfalso.
    destruct (input w0) as [a e]. cbn [avail] in Ha. subst a.
    rewrite read_until_line in Er by (done || lia). injection Er as <- _.
    rewrite last_snoc, bool_decide_true in Eb by done. cbn in Eb. bool_to_prop. rewrite len_app in Eb.
    change (len [newline]) with 1 in Eb. lia.
  - apply orb_false_iff in Eb as [Eb _]. apply negb_false_iff, bool_decide_eq_true in Eb.
    destruct (read_until_heard _ _ _ _ Er Eb) as [Hh He]. apply safe_ret; [done|].
    unfold from_utf8. destruct (utf8_valid (removelast b)) eqn:Eu; [|by eapply Hfail, no_text].
    split; [apply Hw'|]. intros _. by exists i.
Qed.

(** The PIN after the line. *)
Lemma authorize_command_safe command i w :
  peer_uid st = owner_uid st -> stage [] None i [] w -> heard (input w0) command (avail i) ->
  ending i = ending (input w0) ->
  str "AUTHORIZE " `prefix_of` command ->
  safe (fun _ => True)
    ('(id, length) ←? Ret (authorize_fields command);
     pin ←? map_err_prog (fun error => str "cannot read authorization value: " ++ message error)
       (trigger (ReadExact length));
     request ←? map_err_prog unavailable (trigger (LockRemove id pin));
     _ ←? Ret (ok_or request NOT_PENDING);
     _ ←? map_err_prog (fun _ => NOT_ACTIVE) (trigger SendPin);
     map_err_prog control_io (trigger (WriteLine (str "OK authorized")))) finished w.
Proof.
  intros Hu Hw Hh He Hp. pose proof (authorize_fields_spec command) as Hspec. pose proof (authorize_fields_fails command) as Hf.
  destruct (authorize_fields command) as [[id n]|error|]; [|..|done].
  2:{ apply safe_ret; [done|]. eapply complain; [done|exact Hw|]. eapply no_fields; [done..| |done].
      intros id l n Hs Hl Hb. discriminate (proj2 (Hspec id n) (ex_intro _ l (conj Hs (conj Hl Hb)))). }
  destruct (proj1 (Hspec id n) eq_refl) as (l & Hs & Hl & Hb).
  change (try_bind ?f (Ret (Ok (id, n)))) with (f (id, n)). cbn beta iota.
  apply (try_op _ _ _ _ _ _ _ _ Hw). intros v w' es Hv _ Hw'. cbn [ctl_exec].
  destruct (io_fault v) as [e|] eqn:Ev; [eapply complain; [done|exact Hw'|by eapply no_pin_read, permitted_fault]|].
  rewrite (sg_input _ _ _ _ _ Hw'). unfold read_exact, split_at_checked. destruct (_ <? _) eqn:El; cbn [from_source fst snd].
  { eapply complain; [done|exact Hw'|]. rewrite He. eapply short_pin; [done..|]. bool_lia. }
  apply (authorize_safe id _ (mkSource (skipn (Z.to_nat n) (avail i)) (ending i))); [done| |].
  - exists command, (skipn (Z.to_nat n) (avail i)), l. rewrite take_drop. assert (len (take (Z.to_nat n) (avail i)) = n) as -> by (unfold len in *; rewrite length_take; bool_lia). destruct Hb. by split_and!.
  - by eapply stage_input.
Qed.

Lemma command_safe command i w :
  peer_uid st = owner_uid st -> stage [] None i [] w -> heard (input w0) command (avail i) ->
  ending i = ending (input w0) ->
  safe (fun _ => True)
    (if decide (command = str "STATUS") then
       map_err_prog control_io (trigger (WriteLine (str "OK running")))
     else if decide (command = str "LIST") then
       pending ←? map_err_prog unavailable (trigger LockPending);
       _ ←? map_err_prog control_io
         (trigger (WriteLine (str "OK KEYVISOR-PENDING-1 " ++ print_dec (len pending))));
       write_pending pending
     else if starts_with (str "AUTHORIZE ") command then
       '(id, length) ←? Ret (authorize_fields command);
       pin ←? map_err_prog (fun error => str "cannot read authorization value: " ++ message error)
         (trigger (ReadExact length));
       request ←? map_err_prog unavailable (trigger (LockRemove id pin));
       _ ←? Ret (ok_or request NOT_PENDING);
       _ ←? map_err_prog (fun _ => NOT_ACTIVE) (trigger SendPin);
       map_err_prog control_io (trigger (WriteLine (str "OK authorized")))
     else Ret (Err (str "unknown control command"))) finished w.
Proof.
  intros Hu Hw Hh He. destruct (decide (command = str "STATUS")) as [->|Hns]; [|destruct (decide (command = str "LIST")) as [->|Hnl]].
  - apply (last_op _ _ _ _ _ _ _ Hw). intros v w' es Hv _ Hw'. cbn [ctl_exec].
    destruct (io_fault v) as [e|] eqn:Ev; cbn [fst snd map_err]; [eapply complain; [done|exact Hw'|by eapply no_io, permitted_fault]|].
    destruct Hw' as [Hc Hi Hsm Hl Hin Ho]. split; [apply Hc|]. intros _. split; [done|].
    eapply replied_status; [done|exact Hh|apply Hc|cbn; by rewrite Ho].
  - apply (try_op _ _ _ _ _ _ _ _ Hw). intros v w' es _ _ Hw'. cbn [ctl_exec].
    rewrite (inv_lock _ (sg_inv _ _ _ _ _ Hw')). cbn [fst snd]. set (pending := list_pending _).
    assert (was (fun s => list_pending s = [] ++ pending) w') as Hj by (eapply was_now; [apply Hw'|done]).
    apply (write_safe _ _ _ _ _ _ _ _ Hw' Hj); [intros ? ? ?; apply was_later| |].
    + intros error w2 Hv Hw2 Hj2. eapply stage_finished; [exact Hw2|].
      eapply replied_part; [done..|exact Hh|apply Hw2|exact Hj2|]. rewrite (sg_output _ _ _ _ _ Hw2). apply prefix_nil.
    + intros w2 Hw2 Hj2. apply (write_pending_safe (avail i) [] pending i); [done..| |done].
      cbn [app fmap list_fmap concat] in *. by rewrite <- app_assoc in Hw2.
  - destruct (starts_with _ command) eqn:Es; [apply starts_with_prefix in Es; by eapply authorize_command_safe|].
    apply safe_ret; [done|]. eapply complain; [done|exact Hw|]. eapply no_command; [done..|].
    rewrite <- starts_with_prefix. congruence.
Qed.

Lemma serve_control_safe :
  stage [] None (input w0) [] w0 -> safe (fun _ => True) serve_control_connection finished w0.
Proof.
  intros Hw. unfold serve_control_connection.
  apply (try_op _ _ _ _ _ _ _ _ Hw). intros v1 w1 es1 Hv1 _ Hw1. cbn [ctl_exec].
  destruct (io_fault v1) as [e|] eqn:Ev1; cbn [fst snd];
    [eapply refused; [exact Hw1|by eapply unknown_peer, permitted_fault]|].
  apply safe_bind, (op_safe _ _ _ _ _ _ _ Hw1);
    [|intros x w' Hs Hn; destruct (negb _); [by apply overrun_finished|by apply overrun_finished]].
  intros v2 w2 es2 _ _ Hw2. cbn [ctl_exec fst snd]. destruct (Z.eqb_spec (peer_uid st) (owner_uid st)) as [Hu|Hu]; cbn [negb];
    [|apply safe_ret; [done|]; eapply refused; [exact Hw2|by apply other_peer]].
  apply (try_op _ _ _ _ _ _ _ _ Hw2). intros v3 w3 es3 Hv3 _ Hw3. cbn [ctl_exec].
  destruct (io_fault v3) as [e|] eqn:Ev3; cbn [fst snd];
    [eapply complain; [done|exact Hw3|by eapply no_io, permitted_fault]|].
  apply (try_op _ _ _ _ _ _ _ _ Hw3). intros v4 w4 es4 Hv4 _ Hw4. cbn [ctl_exec].
  destruct (io_fault v4) as [e|] eqn:Ev4; cbn [fst snd];
    [eapply complain; [done|exact Hw4|by eapply no_io, permitted_fault]|].
  apply safe_try. eapply safe_mono; [..|exact (read_line_safe w4 Hu Hw4)]; [done|]. intros r w5 [Hs Hr].
  destruct (decide (small w5)) as [Hsm|Hsm].
  - destruct r as [command|error|]; [|split; [done|by apply Hr]|by destruct (Hr Hsm)].
    destruct (Hr Hsm) as (i & Hw5 & Hh & He). by eapply command_safe.
  - destruct r as [command|error|]; [by apply overrun_finished|by split..].
Qed.

End Agent.

(** ** The two ends together *)

(** *** Lines *)

Lemma read_exact_app value k e :
  read_exact (len value) (mkSource (value ++ k) e) = Ok (value, mkSource k e).
Proof.
  unfold read_exact, split_at_checked. cbn [avail ending]. pose proof (len_nonneg k).
  rewrite (proj2 (Z.ltb_ge _ _)) by (rewrite len_app; lia).
  unfold len. rewrite Nat2Z.id. by rewrite take_app_length, drop_app_length.
Qed.

Lemma read_exact_cons b k e : read_exact 1 (mkSource (b :: k) e) = Ok ([b], mkSource k e).
Proof. exact (read_exact_app [b] k e). Qed.

Lemma read_line_loop_line l k e fuel acc :
  newline ∉ l -> (length l < fuel)%nat -> utf8_valid (acc ++ l) = true ->
  read_line_loop fuel acc (mkSource (l ++ newline :: k) e) = Ok (acc ++ l, mkSource k e).
Proof.
  revert fuel acc; induction l as [|b l IH]; intros [|fuel] acc Hn Hf Hu; cbn [length] in Hf; try lia;
    cbn [read_line_loop app].
  - rewrite read_exact_cons. cbn [map_err mbind result_bind].
    change (index [newline] 0) with (Ok (E:=bytes) newline). cbn [mbind result_bind].
    rewrite decide_True by done. rewrite app_nil_r in *. unfold from_utf8. by rewrite Hu.
  - apply not_elem_of_cons in Hn as [H1 H2].
    rewrite read_exact_cons. cbn [map_err mbind result_bind].
    change (index [b] 0) with (Ok (E:=bytes) b). cbn [mbind result_bind].
    rewrite decide_False by congruence.
    rewrite IH; [by rewrite <- app_assoc|done|lia|by rewrite <- app_assoc].
Qed.

(** A line that fits is read by the client. *)
Lemma read_response_line l k e :
  newline ∉ l -> len l <= MAX_CONTROL_LINE_BYTES -> utf8_valid l = true ->
  read_control_response (mkSource (l ++ newline :: k) e) = Ok (l, mkSource k e).
Proof.
  intros Hn Hl Hu. unfold read_control_response.
  apply (read_line_loop_line l k e _ []); [done| |done]. unfold len in Hl. lia.
Qed.

(** *** Hexadecimal text *)

Lemma decode_pairs_encode l : decode_pairs (hex_encode l) = Ok l.
Proof.
  induction l as [|b l IH]; [done|]. rewrite hex_encode_cons. unfold hex_byte. cbn [app decode_pairs].
  unfold hex_digit. destruct (HEX_nibble _ (high_nibble b)) as [_ ->].
  destruct (HEX_nibble _ (low_nibble b)) as [_ ->]. cbn [mbind result_bind]. rewrite IH. cbn [mbind result_bind].
  by rewrite nibbles_lor, b8_u8.
Qed.

Lemma decode_hex_text_encode name : utf8_valid name = true -> decode_hex_text (hex_encode name) = Ok name.
Proof.
  intros Hu. unfold decode_hex_text. rewrite len_hex_encode, Z.mul_comm, Z_mod_mult. cbn [Z.eqb negb].
  rewrite decode_pairs_encode. cbn. unfold from_utf8. by rewrite Hu.
Qed.

(** *** Words *)

Definition word (w : bytes) : Prop := (w <> []) /\ Forall (fun b => is_ascii_whitespace b = false) w.

#[global] Instance word_dec w : Decision (word w).
Proof. apply and_dec; apply _. Defined.

Lemma split_word w k :
  word w -> (k = [] \/ exists b k', k = b :: k' /\ is_ascii_whitespace b = true) ->
  split_ascii_whitespace (w ++ k) = w :: split_ascii_whitespace k.
Proof.
  intros [Hne Hw] Hk. induction Hw as [|b w Hb Hw IH]; [done|]. cbn [app split_ascii_whitespace].
  rewrite Hb. destruct w as [|b' w].
  - cbn [app]. destruct Hk as [->|(b' & k' & -> & Hb')]; [done|]. by rewrite Hb'.
  - cbn [app] in *. inversion Hw; subst. rewrite H1. rewrite IH by done. done.
Qed.

Lemma split_word_end w : word w -> split_ascii_whitespace w = [w].
Proof. intros Hw. rewrite <- (app_nil_r w) at 1. rewrite split_word; [done..|by left]. Qed.

Lemma is_digit_word b : is_digit b = true -> is_ascii_whitespace b = false.
Proof. unfold is_digit, in_range, is_ascii_whitespace. lia. Qed.

Lemma print_dec_word n : word (print_dec n).
Proof.
  unfold print_dec. split.
  - by destruct (print_digits_cons 19 (Z.max 0 n) ltac:(lia)) as (b & l & -> & _).
  - eapply Forall_impl; [apply print_digits_is_digit; lia|]. intros b. apply is_digit_word.
Qed.

(** The identifiers of requests: short ASCII words. *)
Definition id_byte (b : byte) : bool := is_lower_hex b || bool_decide (b = b8 45).
Definition plain_id (id : bytes) : Prop :=
  id <> [] /\ len id <= 64 /\ Forall (fun b => id_byte b = true) id.

Lemma id_byte_facts b : id_byte b = true ->
  is_ascii b = true /\ is_ascii_whitespace b = false /\ b <> tab /\ b <> newline.
Proof. destruct b; vm_compute; intros H; try discriminate H; split_and!; done. Qed.

Lemma strip_zeros_suffix l : strip_zeros l `suffix_of` l.
Proof.
  induction l as [|b l IH]; [done|]. cbn. destruct l as [|c l]; [done|].
  case_decide; [|done]. by apply suffix_cons_r.
Qed.

Lemma request_id_plain pid n : plain_id (request_id pid n).
Proof.
  unfold request_id, lower_hex_u32, lower_hex_u64. split_and!.
  - intros [_ [=]]%app_nil.
  - destruct (strip_zeros_suffix (hex_encode (to_be 4 pid))) as [k Hk].
    apply (f_equal len) in Hk. rewrite len_hex_encode, len_to_be, len_app in Hk.
    rewrite !len_app, len_hex_encode, len_to_be. change (len (str "-")) with 1.
    pose proof (len_nonneg k). lia.
  - rewrite !Forall_app. split_and!.
    + destruct (strip_zeros_suffix (hex_encode (to_be 4 pid))) as [k Hk].
      assert (Forall (fun b => id_byte b = true) (hex_encode (to_be 4 pid))) as H.
      { apply Forall_forall. intros b Hb%list_elem_of_In. pose proof (hex_encode_lower (to_be 4 pid)) as H.
        rewrite forallb_forall in H. unfold id_byte. by rewrite (H b Hb). }
      rewrite Hk in H. by apply Forall_app in H as [_ H].
    + repeat constructor.
    + apply Forall_forall. intros b Hb%list_elem_of_In. pose proof (hex_encode_lower (to_be 8 n)) as H.
      rewrite forallb_forall in H. unfold id_byte. by rewrite (H b Hb).
Qed.

Lemma plain_word id : plain_id id -> word id.
Proof.
  intros (Hne & _ & H). split; [done|]. eapply Forall_impl; [exact H|]. intros b Hb. by apply id_byte_facts.
Qed.

Lemma plain_not_in id c : plain_id id -> id_byte c = false -> c ∉ id.
Proof. intros (_ & _ & H) Hc Hin. rewrite Forall_forall in H. rewrite (H c Hin) in Hc. done. Qed.

Lemma plain_ascii id : plain_id id -> forallb is_ascii id = true.
Proof.
  intros (_ & _ & H). apply forallb_forall. intros b Hb%list_elem_of_In.
  rewrite Forall_forall in H. by apply id_byte_facts, H.
Qed.

Lemma print_dec_ascii n : forallb is_ascii (print_dec n) = true.
Proof.
  unfold print_dec. apply forallb_forall. intros b Hb%list_elem_of_In.
  pose proof (print_digits_is_digit 20 (Z.max 0 n) ltac:(lia)) as H.
  rewrite Forall_forall in H. apply H in Hb. unfold is_digit, in_range in Hb. unfold is_ascii. lia.
Qed.

Lemma print_digits_len fuel n : len (print_digits fuel n) <= Z.of_nat fuel.
Proof.
  revert n; induction fuel as [|fuel IH]; intros n; cbn [print_digits]; [done|].
  destruct (n <? 10); [unfold len; simpl; lia|]. specialize (IH (n / 10)). len_lia.
Qed.

(** The commands of the client, as the agent parses them. *)
Lemma authorize_fields_message id n :
  plain_id id -> 6 <= n <= MAX_PIN_BYTES ->
  authorize_fields (str "AUTHORIZE " ++ id ++ str " " ++ print_dec n) = Ok (id, n).
Proof.
  intros Hid Hn. unfold authorize_fields.
  assert (split_ascii_whitespace (str "AUTHORIZE " ++ id ++ str " " ++ print_dec n) =
    [str "AUTHORIZE"; id; print_dec n]) as ->.
  { change (str "AUTHORIZE " ++ id ++ str " " ++ print_dec n)
      with (str "AUTHORIZE" ++ b8 32 :: id ++ b8 32 :: print_dec n).
    rewrite split_word; [|by apply (bool_decide_unpack _)|right; by eexists _, _].
    change (split_ascii_whitespace (b8 32 :: ?k)) with (split_ascii_whitespace k).
    rewrite split_word; [|by apply plain_word|right; by eexists _, _].
    change (split_ascii_whitespace (b8 32 :: ?k)) with (split_ascii_whitespace k).
    by rewrite (split_word_end _ (print_dec_word n)). }
  cbn [head tail]. rewrite bool_decide_true by done. cbn [negb ok_or mbind result_bind].
  rewrite parse_print_dec by (unfold MAX_PIN_BYTES, u64_max in *; lia). cbn [ok_or mbind result_bind].
  rewrite bool_decide_true by done.
  by rewrite (proj2 (Z.leb_le _ _)), (proj2 (Z.leb_le _ _)) by lia.
Qed.

(** *** Undisturbed conversations *)

Definition run_alone {A} (st : setting) (p : prog ctlE A) (w : connection) : A * connection :=
  @run ctlE connection interference (ctl_handler st) alone A p [] w.

Definition accept (s : broker) (received : bytes) : connection := mkConnection s (mkSource received None) [] [].

Lemma interfere_alone st w : interfere st alone w = w.
Proof. destruct w. unfold interfere, set_shared. cbn. by rewrite app_nil_r. Qed.

Section Alone.
Context (st : setting).
#[local] Instance ctl_handler_alone : Handler ctlE connection interference := ctl_handler st.

Lemma alone_exec {X} (e : ctlE X) w : exec alone w e = ctl_exec st alone w e.
Proof. unfold exec, ctl_handler_alone, ctl_handler. by rewrite interfere_alone. Qed.

Lemma alone_op {Er X B} (e : ctlE (result Er X)) (g : Er -> bytes) (f : X -> prog ctlE (result bytes B)) w x w' :
  ctl_exec st alone w e = (Ok x, w') ->
  run alone (try_bind f (map_err_prog g (trigger e))) [] w = run alone (f x) [] w'.
Proof.
  intros H. apply run_try, run_map_err. by rewrite run_trigger, alone_exec.
Qed.

(** The beginning of every conversation. *)
Lemma alone_command command k s (rest : bytes -> prog ctlE (result bytes unit)) :
  newline ∉ command -> len command + 1 <= MAX_CONTROL_LINE_BYTES -> utf8_valid command = true ->
  run alone (try_bind rest read_control_line) [] (accept s (command ++ newline :: k)) =
  run alone (rest command) [] (accept s k).
Proof.
  intros Hn Hl Hu. apply run_try. unfold read_control_line.
  rewrite (alone_op (ReadUntil _) _ _ _ (command ++ [newline]) (accept s k)).
  - rewrite bool_decide_true by apply last_snoc. rewrite (proj2 (Z.ltb_ge _ _)) by len_lia.
    cbn [negb orb]. rewrite removelast_last. unfold from_utf8. by rewrite Hu.
  - cbn [ctl_exec io_fault alone]. unfold accept. cbn [input].
    rewrite read_until_line; [done..|lia].
Qed.
End Alone.

(** What can be listed: a plain identifier, and the name of a stored key. *)
Definition listable (p : bytes * bytes) : Prop :=
  plain_id p.1 /\ utf8_valid p.2 = true /\ len p.2 <= 4 * 1024.

Section ListAnswer.
Context (st : setting).
#[local] Instance ctl_handler_list : Handler ctlE connection interference := ctl_handler st.

Lemma write_pending_alone pending w :
  run alone (write_pending pending) [] w =
  (Ok tt, set_output w (output w ++ concat (pending_line <$> pending))).
Proof.
  revert w; induction pending as [|[id name] pending IH]; intros w; cbn [write_pending].
  { cbn. rewrite app_nil_r. by destruct w. }
  rewrite (alone_op st (WriteLine _) _ _ w tt
    (set_output w (output w ++ (id ++ [tab] ++ hex_encode name) ++ [newline]))) by done.
  rewrite IH. f_equal. unfold set_output. cbn [shared input output trace fmap list_fmap concat].
  unfold pending_line at 2. cbn [fst snd]. by rewrite <- !app_assoc.
Qed.

Lemma serve_list s :
  peer_uid st = owner_uid st -> lock_poisoned s = false ->
  run alone serve_control_connection [] (accept s list_message) =
  (Ok tt, mkConnection s (mkSource [] None) (list_answer (list_pending s)) []).
Proof.
  intros Hu Hlock. unfold serve_control_connection.
  rewrite (alone_op st PeerUid _ _ _ (peer_uid st) (accept s list_message)) by done.
  rewrite (run_bind alone _ _ _ (owner_uid st) (accept s list_message))
    by (by rewrite run_trigger, alone_exec).
  rewrite Hu, Z.eqb_refl. cbn [negb].
  do 2 rewrite (alone_op st SetTimeout _ _ _ tt (accept s list_message)) by done.
  rewrite (alone_command st (str "LIST") [] s); [|by apply (bool_decide_unpack _)|done|done].
  rewrite decide_False, decide_True by done.
  rewrite (alone_op st LockPending _ _ _ (list_pending s) (accept s [])) by (cbn; by rewrite Hlock).
  rewrite (alone_op st (WriteLine _) _ _ (accept s []) tt
    (set_output (accept s []) (str "OK KEYVISOR-PENDING-1 " ++ print_dec (len (list_pending s)) ++ [newline])))
    by (cbn [ctl_exec io_fault alone accept output app]; by rewrite <- app_assoc).
  rewrite write_pending_alone. f_equal. unfold list_answer, set_output, accept. cbn [shared input output trace].
  by rewrite <- !app_assoc.
Qed.
End ListAnswer.

Lemma fetch_requests_lines pending e :
  Forall listable pending ->
  fetch_requests (length pending) (mkSource (concat (pending_line <$> pending)) e) = Ok pending.
Proof.
  induction 1 as [|[id name] pending (Hid & Hu & Hl) _ IH]; [done|]. cbn [fst snd] in *.
  cbn [length fmap list_fmap concat fetch_requests]. unfold pending_line at 1. cbn [fst snd].
  rewrite (app_assoc [tab]), (app_assoc id), <- (app_assoc _ [newline]). cbn [app].
  assert (newline ∉ id ++ [tab] ++ hex_encode name) as Hn.
  { rewrite !not_elem_of_app. split_and!; [by apply plain_not_in|by apply (bool_decide_unpack _)|].
    by apply hex_encode_not_elem. }
  assert (len (id ++ [tab] ++ hex_encode name) <= MAX_CONTROL_LINE_BYTES) as Hlen.
  { rewrite !len_app, len_hex_encode. destruct Hid as (_ & ? & _). unfold MAX_CONTROL_LINE_BYTES.
    change (len [tab]) with 1. lia. }
  rewrite read_response_line; [|exact Hn|exact Hlen|].
  2:{ apply utf8_ascii. cbn [app]. rewrite forallb_app, (plain_ascii id) by done. cbn.
      apply forallb_forall. intros b Hb%list_elem_of_In. apply is_lower_hex_ascii.
      pose proof (hex_encode_lower name) as H. rewrite forallb_forall in H. apply H. by apply list_elem_of_In. }
  cbn [mbind result_bind app]. rewrite split_once_app by (by apply plain_not_in). cbn [ok_or mbind result_bind].
  rewrite decode_hex_text_encode by done. cbn [mbind result_bind]. by rewrite IH.
Qed.

Lemma fetch_list_answer pending :
  len pending <= MAX_PENDING_AUTHORIZATIONS -> Forall listable pending ->
  fetch_authorization_requests (mkSource (list_answer pending) None) = Ok pending.
Proof.
  intros Hl Hp. unfold fetch_authorization_requests, list_answer.
  pose proof (len_nonneg pending) as H0. unfold MAX_PENDING_AUTHORIZATIONS in Hl.
  rewrite app_assoc. cbn [app]. rewrite read_response_line.
  - cbn [mbind result_bind]. rewrite strip_prefix_app. cbn [ok_or mbind result_bind].
    rewrite parse_print_dec by (unfold u64_max; lia). cbn [ok_or mbind result_bind].
    rewrite (proj2 (Z.ltb_ge _ _)) by (unfold MAX_PENDING_AUTHORIZATIONS; lia).
    unfold len. rewrite Nat2Z.id. by apply fetch_requests_lines.
  - rewrite not_elem_of_app. split; [by apply (bool_decide_unpack _)|by apply print_dec_not_elem].
  - rewrite len_app. pose proof (print_digits_len 20 (Z.max 0 (len pending))).
    change (len (str "OK KEYVISOR-PENDING-1 ")) with 22. unfold MAX_CONTROL_LINE_BYTES.
    change (print_digits 20 (Z.max 0 (len pending))) with (print_dec (len pending)) in *. lia.
  - apply utf8_ascii. rewrite forallb_app, print_dec_ascii. done.
Qed.

(** Whatever a reachable broker lists can be sent. *)
Lemma pending_listable es s :
  reachable es s ->
  (forall ch r, requests s !! ch = Some r ->
     utf8_valid (rq_key_name r) = true /\ len (rq_key_name r) <= 4 * 1024) ->
  Forall listable (list_pending s).
Proof.
  intros Hre Hn. pose proof (reachable_inv es s Hre) as Hi. apply Forall_forall.
  intros [id name] ([id' p] & [= -> ->] & Hp%elem_of_map_to_list)%list_elem_of_fmap.
  destruct (inv_table s Hi id' p Hp) as (r & Hr & Hid & Hname & _).
  destruct (inv_request s Hi _ r Hr) as [_ E]. destruct (Hn _ r Hr).
  split_and!; cbn [fst snd]; [|by rewrite Hname..].
  rewrite <- Hid, E. apply request_id_plain.
Qed.

(** *** Authorizing *)

Section AuthorizeAnswer.
Context (st : setting) (s : broker) (id pin : bytes).
#[local] Instance ctl_handler_authorize : Handler ctlE connection interference := ctl_handler st.

Hypothesis same_user : peer_uid st = owner_uid st.
Hypothesis s_inv : inv s.
Hypothesis not_holding : held s !! conn st = None.
Hypothesis id_plain : plain_id id.
Hypothesis pin_bound : 6 <= len pin <= MAX_PIN_BYTES.

(** The parsing of the message, up to the removal of the request. *)
Lemma serve_authorize :
  run alone serve_control_connection [] (accept s (authorize_message id pin)) =
  run alone
    (request ←? map_err_prog unavailable (trigger (LockRemove id pin));
     _ ←? Ret (ok_or request NOT_PENDING);
     _ ←? map_err_prog (fun _ => NOT_ACTIVE) (trigger SendPin);
     map_err_prog control_io (trigger (WriteLine (str "OK authorized")))) [] (accept s []).
Proof.
  unfold serve_control_connection. set (m := authorize_message id pin).
  rewrite (alone_op st PeerUid _ _ _ (peer_uid st) (accept s m)) by done.
  rewrite (run_bind alone _ _ _ (owner_uid st) (accept s m)) by (by rewrite run_trigger, alone_exec).
  rewrite same_user, Z.eqb_refl. cbn [negb].
  do 2 rewrite (alone_op st SetTimeout _ _ _ tt (accept s m)) by done.
  set (command := str "AUTHORIZE " ++ id ++ str " " ++ print_dec (len pin)).
  assert (m = command ++ newline :: pin) as ->.
  { unfold m, authorize_message, command. by rewrite <- !app_assoc. }
  assert (len (print_dec (len pin)) <= 20) by apply print_digits_len.
  assert (len command + 1 <= MAX_CONTROL_LINE_BYTES) as Hl.
  { unfold command. rewrite !len_app. destruct id_plain as (_ & ? & _).
    change (len (str "AUTHORIZE ")) with 10. change (len (str " ")) with 1.
    unfold MAX_CONTROL_LINE_BYTES. lia. }
  rewrite (alone_command st command pin s); [| |done|].
  - rewrite !decide_False by done.
    assert (starts_with (str "AUTHORIZE ") command = true) as ->.
    { unfold starts_with, command. rewrite strip_prefix_app. by apply bool_decide_true; eexists. }
    unfold command. rewrite authorize_fields_message by done. cbn [try_bind mbind prog_bind].
    rewrite (alone_op st (ReadExact (len pin)) _ _ (accept s pin) pin (accept s [])); [done|].
    cbn [ctl_exec io_fault alone]. unfold accept at 1. cbn [input].
    rewrite <- (app_nil_r pin) at 2. by rewrite read_exact_app.
  - unfold command. rewrite !not_elem_of_app. split_and!; try (by apply (bool_decide_unpack _));
      [by apply plain_not_in|by apply print_dec_not_elem].
  - unfold command. apply utf8_ascii. rewrite !forallb_app, (plain_ascii id), print_dec_ascii by done. done.
Qed.

Lemma serve_authorize_pending p :
  authorizations s !! id = Some p ->
  exists w r, run alone serve_control_connection [] (accept s (authorize_message id pin)) = (Ok tt, w) /\
    trace w = [Take (conn st) id pin; Deliver (conn st)] /\
    requests (shared w) !! pa_sender p = Some r /\ rq_id r = id /\ rq_channel r = Some pin /\
    output w = str "OK authorized" ++ [newline].
Proof.
  intros Hp. rewrite serve_authorize.
  destruct (inv_table s s_inv id p Hp) as (r & Hr & Hid & _ & [Hc _] & Hd).
  destruct (take_request s (conn st) id pin) as [s1| |] eqn:Ht;
    unfold take_request in Ht; rewrite (inv_lock s s_inv), Hp in Ht; [|done..].
  assert (step s (Take (conn st) id pin) = Some s1) as Hst.
  { cbn [step]. rewrite not_holding. unfold take_request. rewrite (inv_lock s s_inv), Hp. congruence. }
  injection Ht as Ht.
  set (w1 := mkConnection s1 (mkSource [] None) [] [Take (conn st) id pin]).
  rewrite (alone_op st (LockRemove id pin) _ _ (accept s []) (Some tt) w1); cycle 1.
  { cbn [ctl_exec accept shared]. rewrite (inv_lock s s_inv). unfold own_step. cbn [accept shared]. rewrite Hst. cbn. by rewrite Hp. }
  rewrite (run_try alone _ _ w1 tt w1) by done.
  assert (held s1 !! conn st = Some (pa_sender p, pin)) as Hh by (rewrite <- Ht; cbn; apply lookup_insert_eq).
  assert (requests s1 !! pa_sender p = Some r) as Hr1 by (by rewrite <- Ht).
  set (s2 := set_held (set_request s1 (pa_sender p) (set_channel r (Some pin))) (delete (conn st) (held s1))).
  set (w2 := mkConnection s2 (mkSource [] None) [] [Take (conn st) id pin; Deliver (conn st)]).
  assert (step s1 (Deliver (conn st)) = Some s2) as Hst2.
  { cbn [step]. rewrite Hh. cbn. unfold send_pin. by rewrite Hr1, Hd, Hc. }
  assert (ctl_exec st alone w1 SendPin = (Ok tt, w2)) as Hsend.
  { cbn [ctl_exec]. unfold own_step. cbn [w1 shared]. rewrite Hst2. cbn. rewrite Hh. cbn. by rewrite Hr1, Hd. }
  rewrite (run_try alone _ _ w1 tt w2); cycle 1.
  { apply run_map_err. by rewrite run_trigger, alone_exec. }
  exists (set_output w2 (str "OK authorized" ++ [newline])), (set_channel r (Some pin)).
  split_and!; [|done| |done..].
  - apply run_map_err. by rewrite run_trigger, alone_exec.
  - cbn. by rewrite lookup_insert_eq.
Qed.

Lemma serve_authorize_missing :
  authorizations s !! id = None ->
  exists w, run alone serve_control_connection [] (accept s (authorize_message id pin)) = (Err NOT_PENDING, w) /\
    shared w = s /\ output w = [].
Proof.
  intros Hp. rewrite serve_authorize.
  assert (step s (Take (conn st) id pin) = Some s) as Hst.
  { cbn [step]. rewrite not_holding. unfold take_request. by rewrite (inv_lock s s_inv), Hp. }
  exists (mkConnection s (mkSource [] None) [] [Take (conn st) id pin]).
  rewrite (alone_op st (LockRemove id pin) _ _ (accept s []) None
    (mkConnection s (mkSource [] None) [] [Take (conn st) id pin])); [done|].
  cbn [ctl_exec accept shared]. rewrite (inv_lock s s_inv). unfold own_step. cbn [accept shared]. rewrite Hst. cbn. by rewrite Hp.
Qed.
End AuthorizeAnswer.

Lemma authorize_response_line line :
  newline ∉ line -> len line <= MAX_CONTROL_LINE_BYTES -> utf8_valid line = true ->
  authorize_response (mkSource (line ++ [newline]) None) =
    if decide (line = str "OK authorized") then Ok tt else Err (control_error line).
Proof. intros Hn Hl Hu. unfold authorize_response. by rewrite (read_response_line line []) by done. Qed.

(** The worker, when the connection is served without an error. *)
Lemma control_worker_alone st x w :
  run_alone st serve_control_connection x = (Ok tt, w) -> run_alone st control_worker x = (tt, w).
Proof.
  unfold run_alone, control_worker. intros E.
  by rewrite (@run_bind ctlE connection interference (ctl_handler st) alone _ _ _ _ _ _ _ E).
Qed.

(** [C20] The control service implements the broker, and says what it did.  Whatever a peer
    sends, whatever fails and however the other threads interleave, serving a connection
    changes the shared state only by the events of the broker, ends without holding a request
    (until 2^64 requests have been numbered), and ends in one of these ways: a refusal with
    its reason, which neither did nor said anything, and which is all that a peer gets who is
    not the agent's owner; "OK running", for the line STATUS; for
    the line LIST, the pending requests of a moment of the connection; for a line AUTHORIZE
    with an identifier and a length of 6 to 64, the taking of exactly that request for
    exactly the bytes after the line: either nothing of that identifier is pending, or the
    taken request has ended, or its channel has received those bytes, and only then, and
    with no other command, the answer is "OK authorized".  Failures of input and output
    explain a refusal only where they occur. *)
Theorem control_refines_broker st steady w0 r w :
  inv (shared w0) -> trace w0 = [] -> output w0 = [] -> held (shared w0) !! conn st = None ->
  @reach ctlE connection interference (ctl_handler_in st steady) _ serve_control_connection w0 (Ret r) w ->
  steps (shared w0) (trace w) = Some (shared w) /\
  (started (shared w) <= 2 ^ 64 -> held (shared w) !! conn st = None /\ replied st steady w0 w r).
Proof.
  intros Hi Ht Ho Hh Hr. change (finished st steady w0 r w).
  refine (@safe_reach_ret ctlE connection interference (ctl_handler_in st steady) _ (fun _ => True) _ _ w0 r w _ Hr).
  assert (conforms st w0 [] w0) as Hc by (split; by rewrite Ht).
  destruct (decide (small w0)) as [Hs|Hs]; [by apply serve_control_safe|by apply overrun_finished; [apply Hc|]].
Qed.

(** The two ends agree on the list of pending requests.  What the agent answers to
    [LIST] is read back by the client as exactly the identifiers and key names of the
    agent's table: at most 16 requests (the agent serves no more clients), with the names
    of stored keys, which the line bound of the protocol always accommodates. *)
Theorem list_roundtrip st es s :
  reachable es s -> peer_uid st = owner_uid st ->
  len (list_pending s) <= MAX_PENDING_AUTHORIZATIONS ->
  (forall ch r, requests s !! ch = Some r ->
     utf8_valid (rq_key_name r) = true /\ len (rq_key_name r) <= 4 * 1024) ->
  forall r w, run_alone st serve_control_connection (accept s list_message) = (r, w) ->
  r = Ok tt /\ shared w = s /\
  fetch_authorization_requests (mkSource (output w) None) = Ok (list_pending s).
Proof.
  intros Hre Hu Hl Hn r w. unfold run_alone. rewrite serve_list by (done || by apply inv_lock, (reachable_inv es)). intros [= <- <-].
  split_and!; [done..|].
  apply fetch_list_answer; [done|]. by eapply pending_listable.
Qed.

(** The two ends agree on authorizations.  When the client authorizes a pending
    request with a PIN of 6 to 64 bytes, of any content, the agent takes that request,
    puts exactly that PIN into its channel, and answers so that the client reports
    success; for an identifier that is not pending the agent changes nothing and the
    client reports why. *)
Theorem authorize_roundtrip st es s id pin :
  reachable es s -> peer_uid st = owner_uid st -> held s !! conn st = None ->
  plain_id id -> 6 <= len pin <= MAX_PIN_BYTES ->
  forall u w, run_alone st control_worker (accept s (authorize_message id pin)) = (u, w) ->
  match authorizations s !! id with
  | Some p =>
      trace w = [Take (conn st) id pin; Deliver (conn st)] /\
      (exists r, requests (shared w) !! pa_sender p = Some r /\ rq_id r = id /\ rq_channel r = Some pin) /\
      authorize_response (mkSource (output w) None) = Ok tt
  | None =>
      shared w = s /\ authorize_response (mkSource (output w) None) = Err NOT_PENDING
  end.
Proof.
  intros Hre Hu Hh Hid Hpin u w0. pose proof (reachable_inv es s Hre) as Hi.
  unfold run_alone, control_worker. destruct (authorizations s !! id) as [p|] eqn:Hp.
  - destruct (serve_authorize_pending st s id pin Hu Hi Hh Hid Hpin p Hp)
      as (w & r & E & Ht & Hr & Hri & Hc & Ho).
    rewrite (@run_bind ctlE connection interference (ctl_handler st) alone _ _ _ _ _ _ _ E).
    cbn [run]. intros [= _ <-]. split_and!; [done|by exists r|]. rewrite Ho.
    rewrite authorize_response_line; [by rewrite decide_True|by apply (bool_decide_unpack _)|done|done].
  - destruct (serve_authorize_missing st s id pin Hu Hi Hh Hid Hpin Hp) as (w & E & Hs & Ho).
    rewrite (@run_bind ctlE connection interference (ctl_handler st) alone _ _ _ _ _ _ _ E).
    rewrite (@run_bind ctlE connection interference (ctl_handler st) alone _ _ _ _ w (Ok tt)
      (set_output w ((str "ERR " ++ NOT_PENDING) ++ [newline]))).
    + cbn [run]. intros E2.
      assert (w0 = set_output w ((str "ERR " ++ NOT_PENDING) ++ [newline])) as -> by congruence.
      split; [done|]. cbn [output set_output].
      rewrite authorize_response_line; [by rewrite decide_False|by apply (bool_decide_unpack _)|done|done].
    + rewrite run_trigger. rewrite alone_exec. cbn. by rewrite Ho.
Qed.

(** ** A concrete conversation *)

Module Sample.
Definition st : setting := mkSetting 4 1000 1000.
Definition s : broker := Broker.Sample.waiting.
Definition id : bytes := Broker.Sample.id.

Definition start : connection := accept s (authorize_message id (str "123456")).

Lemma control_refines_broker_witness :
  exists w, @reach ctlE connection interference (ctl_handler_in st false) _ serve_control_connection start (Ret (Ok tt)) w /\
    replied st false start w (Ok tt) /\ output w = str "OK authorized" ++ [newline].
Proof.
  pose proof (reachable_inv _ _ Broker.Sample.waiting_reachable) as Hi.
  destruct (serve_authorize_pending st s id (str "123456") eq_refl Hi eq_refl (request_id_plain _ _)
    ltac:(vm_compute; split; discriminate) (mkPending (str "n") 0) ltac:(vm_compute; reflexivity))
    as (w & q & E & Ht & _ & _ & _ & Ho).
  pose proof (@run_reach ctlE connection interference (ctl_handler st) _ alone serve_control_connection [] start) as Hr.
  change (run (Handler0 := ctl_handler st) alone serve_control_connection [] start = (Ok tt, w)) in E. rewrite E in Hr. exists w. split; [exact Hr|].
  destruct (control_refines_broker st false start (Ok tt) w Hi eq_refl eq_refl eq_refl Hr) as [Hs Hd].
  assert (started (shared w) <= 2 ^ 64) as Hb.
  { assert (started <$> steps (shared start) (trace w) = Some 1) as Hn by (rewrite Ht; vm_compute; reflexivity).
    rewrite Hs in Hn. injection Hn as ->. vm_compute. discriminate. }
  split; [exact (proj2 (Hd Hb))|exact Ho].
Defined.

Lemma list_roundtrip_witness :
  exists w, run_alone st serve_control_connection (accept s list_message) = (Ok tt, w) /\
    fetch_authorization_requests (mkSource (output w) None) = Ok [(id, str "n")].
Proof.
  destruct (run_alone st serve_control_connection (accept s list_message)) as [r w] eqn:E.
  assert (len (list_pending s) <= MAX_PENDING_AUTHORIZATIONS) as Hl by (vm_compute; discriminate).
  assert (forall ch r, requests s !! ch = Some r ->
    utf8_valid (rq_key_name r) = true /\ len (rq_key_name r) <= 4 * 1024) as Hn.
  { intros ch q Hq. assert (requests s = {[ 0 := mkRequest id (str "n") Waiting None ]}) as Es
      by (vm_compute; reflexivity).
    rewrite Es in Hq. apply lookup_singleton_Some in Hq as [_ <-]. vm_compute. split; [reflexivity|discriminate]. }
  destruct (list_roundtrip st Broker.Sample.before s Broker.Sample.waiting_reachable eq_refl Hl Hn r w E)
    as (-> & _ & Hf).
  exists w. split; [reflexivity|]. replace (list_pending s) with [(id, str "n")] in Hf by (vm_compute; reflexivity).
  exact Hf.
Defined.

Lemma authorize_roundtrip_witness :
  exists w, run_alone st control_worker start = (tt, w) /\
    authorize_response (mkSource (output w) None) = Ok tt.
Proof.
  destruct (run_alone st control_worker start) as [[] w] eqn:E.
  assert (6 <= len (str "123456") <= MAX_PIN_BYTES) as Hb by (vm_compute; split; discriminate).
  pose proof (authorize_roundtrip st Broker.Sample.before s id (str "123456")
    Broker.Sample.waiting_reachable eq_refl eq_refl (request_id_plain _ _) Hb tt w E) as H.
  replace (authorizations s !! id) with (Some (mkPending (str "n") 0)) in H by (vm_compute; reflexivity).
  exists w. split; [reflexivity|]. exact (proj2 (proj2 H)).
Defined.
End Sample.
