(* ===== verification/Esapi.v ===== *)
(** The TPM2-TSS implementation of the trait: crates/keyvisor-tpm/src/esapi.rs.

    The tss_esapi crate and the TPM behind it are not part of the repository.  Their data
    types and conversions are the class [Tss]; their commands are the operations [tssE],
    which the environment answers with any value or error.  The handler keeps what the
    module is responsible for: which sessions and transient objects are open, and under
    which session each command was sent. *)

From S2P Require Import Prelude Bytes Text Core Effects Tpm.
From S2P Require Protocol.

(** ** What the module uses of tss_esapi *)

(** The error kinds that [map_tss_error] tells apart. *)
Inductive Tss2ResponseCodeKind :=
  | AuthFail
  | BadAuth
  | Lockout
  | Policy
  | PolicyFail
  | OtherResponse (code : Z).
Inductive Error :=
  | Tss2Error (kind : option Tss2ResponseCodeKind)
  | WrapperError.

Inductive EccCurve := NistP256 | NistP384 | OtherCurve (id : Z).
Inductive HashingAlgorithm := Sha256 | Sha384.

#[global] Instance EccCurve_eq_dec : EqDecision EccCurve.
Proof. solve_decision. Defined.

Record ObjectAttributes := mkObjectAttributes {
  fixed_tpm : bool;
  fixed_parent : bool;
  sensitive_data_origin : bool;
  user_with_auth : bool;
  no_da : bool;
  restricted : bool;
  decrypt : bool;
  sign_encrypt : bool;
}.

Inductive CapabilityData := EccCurves (curves : list EccCurve) | OtherCapability.
Inductive Signature := EcDsaSignature (signature_r signature_s : bytes) | OtherSignature.
Inductive PropertyTag := LockoutCounter | MaxAuthFail | LockoutInterval | LockoutRecovery.

(** Types and conversions; a conversion answers an error or a value. *)
Class Tss := {
  EccScheme : Type;
  EccScheme_eq_dec : EqDecision EccScheme;
  EccParameters : Type;
  Public : Type;
  Private : Type;
  Auth : Type;
  Digest : Type;
  Tcti : Type;
  HashcheckTicket : Type;
  tcti_from_str : bytes -> option Tcti;
  restricted_decryption_rsa_public : Error + Public;
  attributes_build : ObjectAttributes -> Error + ObjectAttributes;
  ecdsa_scheme_create : HashingAlgorithm -> Error + EccScheme;
  signing_parameters_build : EccScheme -> EccCurve -> Error + EccParameters;
  public_build : ObjectAttributes -> EccParameters -> Error + Public;
  object_attributes : Public -> ObjectAttributes;
  ecc_public : Public -> option (EccParameters * bytes * bytes);
  parameters_curve : EccParameters -> EccCurve;
  parameters_scheme : EccParameters -> EccScheme;
  unmarshall : bytes -> option Public;
  marshall : Public -> Error + bytes;
  private_try_from : bytes -> option Private;
  private_value : Private -> bytes;
  auth_default : Auth;
  auth_try_from : bytes -> option Auth;
  digest_try_from : bytes -> Error + Digest;
  null_ticket : Error + HashcheckTicket;
}.
#[global] Existing Instance EccScheme_eq_dec.

(** Handles of transient objects and of sessions. *)
Abbreviation KeyHandle := Z (only parsing).
Abbreviation SessionHandle := Z (only parsing).

Section Esapi.
Context {TSS : Tss}.

Inductive tssE : Type -> Type :=
  | EnvVar (variable : bytes) : tssE (option bytes)
  | NewContext (tcti : Tcti) : tssE (Error + unit)
  | CreatePrimary (public : Public) : tssE (Error + KeyHandle)
  | TrGetName (h : KeyHandle) : tssE (Error + bytes)
  | GetCapability (curve : EccCurve) : tssE (Error + CapabilityData)
  | StartAuthSession (salt_key : KeyHandle) (bind : option KeyHandle) : tssE (Error + option SessionHandle)
  | TrSessSetAttributes (session : SessionHandle) (decrypt encrypt : bool) : tssE (Error + unit)
  | Create (session : SessionHandle) (parent : KeyHandle) (public : Public) (auth : Auth) :
      tssE (Error + (Public * Private))
  | Load (session : SessionHandle) (parent : KeyHandle) (private : Private) (public : Public) :
      tssE (Error + KeyHandle)
  | SignCommand (session : SessionHandle) (key : KeyHandle) (digest : Digest) (hash : HashingAlgorithm)
      (validation : HashcheckTicket) : tssE (Error + Signature)
  | FlushSession (session : SessionHandle) : tssE (Error + unit)
  | FlushObject (h : KeyHandle) : tssE (Error + unit)
  | TrSetAuth (h : KeyHandle) (auth : Auth) : tssE (Error + unit)
  | GetTpmProperty (property : PropertyTag) : tssE (Error + option Z).

(** ** Conversions *)

Definition map_tss_error (error : Error) : TpmError :=
  match error with
  | Tss2Error (Some AuthFail) | Tss2Error (Some BadAuth) => AuthorizationFailed
  | Tss2Error (Some Lockout) => DictionaryAttackLockout
  | Tss2Error (Some Policy) | Tss2Error (Some PolicyFail) => PolicyFailed
  | Tss2Error _ => Transport
  | WrapperError => Transport
  end.

Definition of_sum {A} (r : Error + A) : result Error A :=
  match r with inl e => Err e | inr a => Ok a end.

(** An operation that can fail with an error of tss_esapi. *)
Definition tss {A} (e : tssE (Error + A)) : prog tssE (result Error A) :=
  r ← trigger e; Ret (of_sum r).
Definition tpm {A} (e : tssE (Error + A)) : prog tssE (result TpmError A) :=
  map_err_prog map_tss_error (tss e).

Definition ecc_curve (algorithm : KeyAlgorithm) : EccCurve :=
  match algorithm with EcdsaNistP256 => NistP256 | EcdsaNistP384 => NistP384 end.

Definition hash_algorithm (algorithm : KeyAlgorithm) : HashingAlgorithm :=
  match algorithm with EcdsaNistP256 => Sha256 | EcdsaNistP384 => Sha384 end.

Definition authorization_value (authorization : TpmAuthorization) : result TpmError (Auth * KeyUsePolicy) :=
  match authorization with
  | AuthNone => Ok (auth_default, NoPin)
  | AuthPin [] => Err InvalidAuthorization
  | AuthPin pin => auth ← ok_or (auth_try_from pin) InvalidAuthorization; Ok (auth, TpmPin)
  end.

Definition append_ssh_string (output value : bytes) : result TpmError bytes :=
  length ← expect (u32_try_from (len value));
  Ok (output ++ to_be 4 length ++ value).

Definition append_padded (output value : bytes) (width : Z) : result TpmError bytes :=
  if width <? len value then Err InvalidObject
  else Ok (output ++ replicate (Z.to_nat (width - len value)) (b8 0) ++ value).

Definition ssh_public_key (public : Public) (algorithm : KeyAlgorithm) : result TpmError bytes :=
  '(_, x, y) ← ok_or (ecc_public public) InvalidObject;
  let point := [b8 4] in
  point ← append_padded point x (ecdsa_component_size algorithm);
  point ← append_padded point y (ecdsa_component_size algorithm);
  let blob := [] in
  blob ← append_ssh_string blob (ssh_key_type algorithm);
  blob ← append_ssh_string blob (ssh_curve_name algorithm);
  append_ssh_string blob point.

(** ** Templates *)

Definition requested_attributes (use_policy : KeyUsePolicy) : ObjectAttributes :=
  mkObjectAttributes true true true true (bool_decide (use_policy = NoPin)) false false true.

Definition create_public (algorithm : KeyAlgorithm) (use_policy : KeyUsePolicy) : result TpmError Public :=
  attributes ← map_err map_tss_error (of_sum (attributes_build (requested_attributes use_policy)));
  scheme ← map_err map_tss_error (of_sum (ecdsa_scheme_create (hash_algorithm algorithm)));
  parameters ← map_err map_tss_error (of_sum (signing_parameters_build scheme (ecc_curve algorithm)));
  map_err map_tss_error (of_sum (public_build attributes parameters)).

Definition validate_public (public : Public) (algorithm : KeyAlgorithm) (use_policy : KeyUsePolicy) :
    result TpmError unit :=
  let attributes := object_attributes public in
  if negb (fixed_tpm attributes) || negb (fixed_parent attributes) ||
     negb (sensitive_data_origin attributes) || negb (user_with_auth attributes) ||
     negb (sign_encrypt attributes) || decrypt attributes || restricted attributes ||
     negb (Bool.eqb (no_da attributes) (bool_decide (use_policy = NoPin)))
  then Err InvalidObject
  else
    match ecc_public public with
    | Some (parameters, _, _) =>
        if bool_decide (parameters_curve parameters = ecc_curve algorithm) then
          scheme ← map_err map_tss_error (of_sum (ecdsa_scheme_create (hash_algorithm algorithm)));
          if bool_decide (parameters_scheme parameters = scheme) then Ok tt else Err InvalidObject
        else Err InvalidObject
    | None => Err InvalidObject
    end.

(** ** Sessions *)

Definition with_encrypted_session {T} (salt_key : KeyHandle) (bind : option KeyHandle)
    (operation : SessionHandle -> prog tssE (result Error T)) : prog tssE (result Error T) :=
  session ←? tss (StartAuthSession salt_key bind);
  session ←? Ret (ok_or session WrapperError);
  _ ←? tss (TrSessSetAttributes session true true);
  result ← operation session;
  flush ← tss (FlushSession session);
  match result, flush with
  | Panic, _ | _, Panic => Ret Panic
  | Err error, _ => Ret (Err error)
  | Ok _, Err error => Ret (Err error)
  | Ok value, Ok _ => Ret (Ok value)
  end.

Definition required_property (property : PropertyTag) : prog tssE (result TpmError Z) :=
  value ←? tpm (GetTpmProperty property);
  Ret (ok_or value Transport).

(** ** The signer *)

(** The context is the TPM that the operations talk to. *)
Record EsapiTpm := mkEsapiTpm { parent : KeyHandle; esapi_parent_name : bytes }.

Definition connect (tcti : bytes) : prog tssE (result TpmError EsapiTpm) :=
  tcti ←? Ret (ok_or (tcti_from_str tcti) Unavailable);
  _ ←? tpm (NewContext tcti);
  parent_public ←? Ret (map_err map_tss_error (of_sum restricted_decryption_rsa_public));
  parent ←? tpm (CreatePrimary parent_public);
  parent_name ←? tpm (TrGetName parent);
  Ret (Ok (mkEsapiTpm parent parent_name)).

Definition DEFAULT_TCTI : bytes := str "device:/dev/tpmrm0".

Fixpoint first_variable (names : list bytes) (default : bytes) : prog tssE bytes :=
  match names with
  | [] => Ret default
  | variable :: names =>
      value ← trigger (EnvVar variable);
      match value with
      | Some value => Ret value
      | None => first_variable names default
      end
  end.

Definition connect_default : prog tssE (result TpmError EsapiTpm) :=
  tcti ← first_variable [str "TPM2TOOLS_TCTI"; str "TCTI"; str "TEST_TCTI"] DEFAULT_TCTI;
  connect tcti.

Definition load (self : EsapiTpm) (object : TpmObject) (algorithm : KeyAlgorithm) :
    prog tssE (result TpmError KeyHandle) :=
  if negb (bool_decide (parent_name object = esapi_parent_name self)) then Ret (Err InvalidObject)
  else
    public ←? Ret (ok_or (unmarshall (public object)) InvalidObject);
    _ ←? Ret (validate_public public algorithm (object_use_policy object));
    private ←? Ret (ok_or (private_try_from (wrapped_private object)) InvalidObject);
    map_err_prog map_tss_error
      (with_encrypted_session (parent self) None (fun session =>
         tss (Load session (parent self) private public))).

Definition generate (self : EsapiTpm) (name : bytes) (algorithm : KeyAlgorithm)
    (authorization : TpmAuthorization) : prog tssE (result TpmError (KeySummary * TpmObject)) :=
  capabilities ←? tpm (GetCapability (ecc_curve algorithm));
  _ ←? Ret (match capabilities with
            | EccCurves curves =>
                if bool_decide (ecc_curve algorithm ∈ curves) then Ok tt else Err UnsupportedAlgorithm
            | OtherCapability => Err Transport
            end);
  '(auth, use_policy) ←? Ret (authorization_value authorization);
  requested_public ←? Ret (create_public algorithm use_policy);
  '(out_public, out_private) ←? map_err_prog map_tss_error
    (with_encrypted_session (parent self) None (fun session =>
       tss (Create session (parent self) requested_public auth)));
  _ ←? Ret (validate_public out_public algorithm use_policy);
  ssh_public_key ←? Ret (ssh_public_key out_public algorithm);
  child ←? map_err_prog map_tss_error
    (with_encrypted_session (parent self) None (fun session =>
       tss (Load session (parent self) out_private out_public)));
  child_name ←? tpm (TrGetName child);
  _ ←? tpm (FlushObject child);
  public ←? Ret (map_err map_tss_error (of_sum (marshall out_public)));
  let object := mkTpmObject public (private_value out_private) (esapi_parent_name self) use_policy in
  let summary := mkKeySummary (KeyId_new (hex_encode child_name)) name algorithm use_policy ssh_public_key in
  Ret (Ok (summary, object)).

(** The end of [sign]: the two scalars, padded to the width of the algorithm. *)
Definition raw_signature (algorithm : KeyAlgorithm) (signature : Signature) : result TpmError bytes :=
  match signature with
  | EcDsaSignature r s =>
      let raw := [] in
      raw ← append_padded raw r (ecdsa_component_size algorithm);
      append_padded raw s (ecdsa_component_size algorithm)
  | OtherSignature => Err InvalidObject
  end.

Definition sign (self : EsapiTpm) (key : TpmObject) (algorithm : KeyAlgorithm) (digest : bytes)
    (authorization : TpmAuthorization) : prog tssE (result TpmError bytes) :=
  if negb (len digest =? digest_size algorithm) then Ret (Err InvalidObject)
  else
    '(auth, use_policy) ←? Ret (authorization_value authorization);
    if negb (bool_decide (use_policy = object_use_policy key)) then Ret (Err InvalidAuthorization)
    else
      child ←? load self key algorithm;
      _ ←? tpm (TrSetAuth child auth);
      digest ←? Ret (map_err map_tss_error (of_sum (digest_try_from digest)));
      validation ←? Ret (map_err map_tss_error (of_sum null_ticket));
      signature ← map_err_prog map_tss_error
        (with_encrypted_session (parent self) (Some child) (fun session =>
           tss (SignCommand session child digest (hash_algorithm algorithm) validation)));
      flush ← tpm (FlushObject child);
      signature ←? Ret (match signature, flush with
                        | Panic, _ | _, Panic => Panic
                        | Err error, _ => Err error
                        | Ok _, Err error => Err error
                        | Ok signature, Ok _ => Ok signature
                        end);
      Ret (raw_signature algorithm signature).

Definition dictionary_attack_state (self : EsapiTpm) : prog tssE (result TpmError DictionaryAttackState) :=
  failed_tries ←? required_property LockoutCounter;
  max_tries ←? required_property MaxAuthFail;
  recovery_time_seconds ←? required_property LockoutInterval;
  lockout_recovery_seconds ←? required_property LockoutRecovery;
  Ret (Ok (mkDictionaryAttackState failed_tries max_tries recovery_time_seconds lockout_recovery_seconds)).

(** [impl TpmSigner for EsapiTpm]. *)
#[global] Instance EsapiTpm_signer : TpmSigner tssE := {
  signer := EsapiTpm;
  tpm_connect := connect_default;
  tpm_generate := generate;
  tpm_sign := sign;
  tpm_dictionary_attack_state := dictionary_attack_state;
}.

(** ** The TPM *)

Record session := mkSession { salt : KeyHandle; bound_to : option KeyHandle; encrypted : bool }.

(** The commands the module is responsible for; a signature with the authorization value
    set for its key. *)
Inductive command :=
  | CmdCreate (parent : KeyHandle) (public : Public) (auth : Auth)
  | CmdLoad (parent : KeyHandle) (private : Private) (public : Public)
  | CmdSign (key : KeyHandle) (auth : option Auth) (digest : Digest) (hash : HashingAlgorithm)
  | CmdFlushSession (h : SessionHandle)
  | CmdFlushObject (h : KeyHandle).

(** The open sessions, the transient objects with their authorization values, and every
    command sent so far with the session that protected it. *)
Record tpm_world := mkTpmWorld {
  sessions : gmap SessionHandle session;
  objects : gmap KeyHandle (option Auth);
  commands : list (option session * command);
}.

(** An answer: an error, or the values the operation returns. *)
Record tss_choice := mkTssChoice {
  failure : option Error;
  new_handle : Z;
  new_session : bool;
  answer_bytes : bytes;
  answer_key : Public * Private;
  answer_curves : CapabilityData;
  answer_signature : Signature;
  answer_property : option Z;
  variable : option bytes;
}.

Definition set_sessions (w : tpm_world) (m : gmap SessionHandle session) : tpm_world :=
  mkTpmWorld m (objects w) (commands w).
Definition set_objects (w : tpm_world) (m : gmap KeyHandle (option Auth)) : tpm_world :=
  mkTpmWorld (sessions w) m (commands w).
Definition send (w : tpm_world) (s : option session) (c : command) : tpm_world :=
  mkTpmWorld (sessions w) (objects w) (commands w ++ [(s, c)]).

(** A handle that is not in use. *)
Definition unused {A} (m : gmap Z A) (h : Z) : Z :=
  match m !! h with None => h | Some _ => fresh (dom m) end.

Definition answer {A} (v : tss_choice) (a : A) (w w' : tpm_world) : (Error + A) * tpm_world :=
  match failure v with Some e => (inl e, w) | None => (inr a, w') end.

Definition tss_exec {X} (v : tss_choice) (w : tpm_world) (e : tssE X) : X * tpm_world :=
  match e in tssE X return X * tpm_world with
  | EnvVar _ => (variable v, w)
  | NewContext _ => answer v tt w w
  | CreatePrimary _ =>
      let h := unused (objects w) (new_handle v) in
      answer v h w (set_objects w (<[h := None]> (objects w)))
  | TrGetName _ => answer v (answer_bytes v) w w
  | GetCapability _ => answer v (answer_curves v) w w
  | StartAuthSession salt_key bind =>
      let h := unused (sessions w) (new_handle v) in
      if new_session v
      then answer v (Some h) w (set_sessions w (<[h := mkSession salt_key bind false]> (sessions w)))
      else answer v None w w
  | TrSessSetAttributes session d e =>
      answer v tt w (set_sessions w
        (alter (fun s => mkSession (salt s) (bound_to s) (d && e)) session (sessions w)))
  | Create session parent public auth =>
      let w := send w (sessions w !! session) (CmdCreate parent public auth) in
      answer v (answer_key v) w w
  | Load session parent private public =>
      let w := send w (sessions w !! session) (CmdLoad parent private public) in
      let h := unused (objects w) (new_handle v) in
      answer v h w (set_objects w (<[h := None]> (objects w)))
  | SignCommand session key digest hash _ =>
      let w := send w (sessions w !! session) (CmdSign key (mjoin (objects w !! key)) digest hash) in
      answer v (answer_signature v) w w
  | FlushSession session =>
      let w := send w None (CmdFlushSession session) in
      answer v tt w (set_sessions w (delete session (sessions w)))
  | FlushObject h =>
      let w := send w None (CmdFlushObject h) in
      answer v tt w (set_objects w (delete h (objects w)))
  | TrSetAuth h auth => answer v tt w (set_objects w (alter (fun _ => Some auth) h (objects w)))
  | GetTpmProperty _ => answer v (answer_property v) w w
  end.

#[global] Instance tss_handler : Handler tssE tpm_world tss_choice := fun X v w e => tss_exec v w e.

(** ** Lemmas *)

Lemma unused_free {A} (m : gmap Z A) h : m !! unused m h = None.
Proof.
  unfold unused. destruct (m !! h) eqn:E; [|done]. apply not_elem_of_dom, is_fresh.
Qed.

Lemma safe_tss {A} I (e : tssE (Error + A)) Q w :
  I w -> (forall v, I (snd (tss_exec v w e)) /\ Q (of_sum (fst (tss_exec v w e))) (snd (tss_exec v w e))) ->
  safe I (tss e) Q w.
Proof. intros HI H. apply safe_bind, safe_vis; [done|]. intros v. by repeat apply safe_ret; apply H. Qed.

Lemma safe_tpm {A} I (e : tssE (Error + A)) Q w :
  I w -> (forall v, I (snd (tss_exec v w e)) /\
    Q (map_err map_tss_error (of_sum (fst (tss_exec v w e)))) (snd (tss_exec v w e))) ->
  safe I (tpm e) Q w.
Proof.
  intros HI H. apply safe_map_err, safe_tss; [done|]. intros v. split; [apply H|]. split; apply H.
Qed.

(** A session around one operation: it is salted with the parent and encrypted, and
    closed again when the result is a value. *)
Lemma safe_session {T} (I : tpm_world -> Prop) salt_key bind
    (operation : SessionHandle -> prog tssE (result Error T)) (Q : T -> tpm_world -> Prop) w :
  (forall m w, I w -> I (set_sessions w m)) ->
  (forall h w, I w -> I (send w None (CmdFlushSession h))) ->
  I w ->
  (forall h w1, sessions w1 !! h = Some (mkSession salt_key bind true) ->
     objects w1 = objects w -> I w1 ->
     safe I (operation h)
       (fun r w2 => I w2 /\ sessions w2 = sessions w1 /\
          match r with Ok t => forall w3, objects w3 = objects w2 -> sessions w3 = sessions w -> I w3 -> Q t w3
          | Err _ => True | Panic => False end) w1) ->
  safe I (with_encrypted_session salt_key bind operation)
    (fun r w' => I w' /\ match r with Ok t => Q t w' | Err _ => True | Panic => False end) w.
Proof.
  intros Hset Hflush HI Hop. unfold with_encrypted_session.
  apply safe_try, safe_tss; [done|]. intros v. cbn [tss_exec]. destruct (new_session v); cycle 1.
  { unfold answer. destruct (failure v); by cbn [fst snd of_sum]; split. }
  set (h := unused (sessions w) (new_handle v)).
  pose proof (unused_free (sessions w) (new_handle v)) as Hfree. fold h in Hfree. clearbody h.
  unfold answer. destruct (failure v); cbn [fst snd of_sum]; [by split|].
  set (w1 := set_sessions w _). assert (I w1) as H1 by (by apply Hset). split; [done|].
  apply safe_try, safe_ret; [done|]. cbn [ok_or].
  apply safe_try, safe_tss; [done|]. intros v2. cbn [tss_exec]. unfold answer.
  destruct (failure v2); cbn [fst snd of_sum]; [by split|].
  set (w2 := set_sessions w1 _). assert (I w2) as H2 by (by apply Hset). split; [done|].
  assert (sessions w2 = <[h := mkSession salt_key bind true]> (sessions w)) as Hs2.
  { cbn. by rewrite alter_insert_eq. }
  apply safe_bind. eapply safe_mono; [done| |apply (Hop h w2)]; [|by rewrite Hs2, lookup_insert_eq|done|done].
  intros r w3 (H3 & Hs3 & Hr). apply safe_bind, safe_tss; [done|]. intros v3. cbn [tss_exec].
  set (w4 := send w3 None _). assert (I w4) as H4 by (by apply Hflush). unfold answer.
  destruct (failure v3); cbn [fst snd of_sum]; (split; [first [exact H4|by apply Hset]|]).
  - destruct r; [..|done]; (apply safe_ret; [exact H4|split; [exact H4|done]]).
  - assert (I (set_sessions w4 (delete h (sessions w4)))) as H5 by (by apply Hset).
    destruct r as [t|e|]; [|apply safe_ret; [exact H5|split; [exact H5|done]]|done].
    apply safe_ret; [exact H5|]. split; [exact H5|].
    apply Hr; [done| |exact H5]. cbn. rewrite Hs3, Hs2. by apply delete_insert_id.
Qed.

(** *** Pure parts *)

Lemma authorization_value_cases authorization :
  (exists auth, authorization_value authorization = Ok (auth, policy_of authorization)) \/
  authorization_value authorization = Err InvalidAuthorization.
Proof.
  destruct authorization as [|[|b pin]]; [by left; eexists|by right|].
  unfold authorization_value. destruct (auth_try_from (b :: pin)); [by left; eexists|by right].
Qed.

Lemma of_sum_no_panic {A} (r : Error + A) : map_err map_tss_error (of_sum r) <> Panic.
Proof. by destruct r. Qed.

Lemma validate_public_no_panic public algorithm use_policy :
  validate_public public algorithm use_policy <> Panic.
Proof.
  unfold validate_public. destruct (_ || _)%bool; [done|].
  destruct (ecc_public public) as [[[parameters x] y]|]; [|done].
  destruct (bool_decide _); [|done]. pose proof (of_sum_no_panic (ecdsa_scheme_create (hash_algorithm algorithm))).
  destruct (map_err _ _) as [scheme|e|]; [|done..]. cbn. by destruct (bool_decide _).
Qed.

Lemma append_padded_spec output value width :
  append_padded output value width =
    if width <? len value then Err InvalidObject
    else Ok (output ++ replicate (Z.to_nat (width - len value)) (b8 0) ++ value).
Proof. done. Qed.

(** The two scalars as fixed-width big-endian numbers. *)
Definition padded (value : bytes) (width : Z) : bytes :=
  replicate (Z.to_nat (width - len value)) (b8 0) ++ value.

Lemma len_padded value width : len value <= width -> len (padded value width) = width.
Proof. intros H. unfold padded. pose proof (len_nonneg value). len_lia. Qed.

Lemma from_be_padded value width : from_be (padded value width) = from_be value.
Proof.
  unfold padded. apply from_be_zeros, Forall_replicate. by rewrite u8_b8_small.
Qed.

Lemma raw_signature_Ok algorithm signature raw :
  raw_signature algorithm signature = Ok raw ->
  exists r s, signature = EcDsaSignature r s /\
    len r <= ecdsa_component_size algorithm /\ len s <= ecdsa_component_size algorithm /\
    raw = padded r (ecdsa_component_size algorithm) ++ padded s (ecdsa_component_size algorithm).
Proof.
  destruct signature as [r s|]; [|done]. cbn [raw_signature]. rewrite append_padded_spec.
  destruct (_ <? len r) eqn:Er; [done|]. cbn [mbind result_bind app]. rewrite append_padded_spec.
  destruct (_ <? len s) eqn:Es; [done|]. intros [= <-]. exists r, s. split_and!; [done|bool_lia..|done].
Qed.

Lemma raw_signature_no_panic algorithm signature : raw_signature algorithm signature <> Panic.
Proof.
  destruct signature as [r s|]; [|done]. cbn [raw_signature]. rewrite append_padded_spec.
  destruct (_ <? len r); [done|]. cbn [mbind result_bind]. rewrite append_padded_spec. by destruct (_ <? len s).
Qed.

Lemma raw_signature_len algorithm signature raw :
  raw_signature algorithm signature = Ok raw -> len raw = 2 * ecdsa_component_size algorithm.
Proof.
  intros (r & s & _ & Hr & Hs & ->)%raw_signature_Ok. rewrite len_app, !len_padded by done. lia.
Qed.

(** ** Signing *)

Section Log.
Context (before : list (option session * command)).

(** The commands sent since [before] satisfy [P]. *)
Definition logged (P : option session * command -> Prop) (w : tpm_world) : Prop :=
  exists cs, commands w = before ++ cs /\ Forall P cs.

Lemma logged_mono (P R : _ -> Prop) w : (forall x, P x -> R x) -> logged P w -> logged R w.
Proof. intros H (cs & Hc & Hp). exists cs. split; [done|]. by eapply Forall_impl. Qed.

Lemma logged_send (P : _ -> Prop) w s c : logged P w -> P (s, c) -> logged P (send w s c).
Proof.
  intros (cs & Hc & Hp) H. exists (cs ++ [(s, c)]). cbn. rewrite Hc, app_assoc. split; [done|].
  apply Forall_app. split; [done|by constructor].
Qed.

Lemma load_session_safe (P : _ -> Prop) par private0 public0 w :
  P (Some (mkSession par None true), CmdLoad par private0 public0) ->
  (forall h, P (None, CmdFlushSession h)) -> logged P w ->
  safe (logged P)
    (map_err_prog map_tss_error (with_encrypted_session par None (fun session =>
       tss (Load session par private0 public0))))
    (fun r w' => logged P w' /\
       match r with
       | Ok child => sessions w' = sessions w /\ objects w !! child = None /\
           objects w' = <[child := None]> (objects w)
       | Err _ => True
       | Panic => False
       end) w.
Proof.
  intros HP Hflush Hw. apply safe_map_err. eapply safe_mono; [done| |apply (safe_session (logged P) _ _ _
    (fun child w' => sessions w' = sessions w /\ objects w !! child = None /\
       objects w' = <[child := None]> (objects w)))].
  - intros r w' [H1 H2]. by destruct r.
  - done.
  - intros h w1 H1. by apply logged_send.
  - done.
  - intros h w1 Hs Ho H1. apply safe_tss; [done|]. intros v. cbn [tss_exec].
    set (w2 := send w1 _ _). assert (logged P w2) as H2 by (apply logged_send; [done|]; by rewrite Hs).
    change (objects w2) with (objects w1). rewrite Ho.
    pose proof (unused_free (objects w) (new_handle v)) as Hfree. set (child := unused _ _) in *.
    unfold answer. destruct (failure v); cbn [fst snd of_sum]; (split; [exact H2|]); (split_and!; [exact H2|done|]);
      [done|]. intros w3 Ho3 Hs3 _. cbn in Ho3. split_and!; done.
Qed.
End Log.

Section Sign.
Context (self : EsapiTpm) (key : TpmObject) (algorithm : KeyAlgorithm) (digest : bytes).
Context (authorization : TpmAuthorization) (before : list (option session * command)).

#[local] Abbreviation logged := (logged before).

(** Loading: under a session salted with the parent and encrypted, the validated public
    area and the private blob of the key. *)
Definition load_entry (x : option session * command) : Prop :=
  match x with
  | (s, CmdLoad p private0 public0) =>
      s = Some (mkSession (parent self) None true) /\ p = parent self /\
      parent_name key = esapi_parent_name self /\ unmarshall (public key) = Some public0 /\
      validate_public public0 algorithm (object_use_policy key) = Ok tt /\
      private_try_from (wrapped_private key) = Some private0
  | (_, CmdFlushSession _) | (_, CmdFlushObject _) => True
  | _ => False
  end.

(** Signing with the loaded [child]: under such a session bound to it, with the
    authorization value of the PIN. *)
Definition sign_entry (child : KeyHandle) (x : option session * command) : Prop :=
  match x with
  | (s, CmdSign c auth d hash) =>
      c = child /\ s = Some (mkSession (parent self) (Some child) true) /\
      digest_try_from digest = inr d /\ hash = hash_algorithm algorithm /\
      exists a, auth = Some a /\ authorization_value authorization = Ok (a, object_use_policy key)
  | _ => load_entry x
  end.

Definition guarded (w : tpm_world) : Prop := exists child, logged (sign_entry child) w.

Lemma load_guarded w : logged load_entry w -> guarded w.
Proof. exists 0. eapply logged_mono; [|done]. intros [s []]; cbn; tauto. Qed.

Lemma load_safe w :
  logged load_entry w ->
  safe (logged load_entry) (load self key algorithm)
    (fun r w' => logged load_entry w' /\
       match r with
       | Ok child => sessions w' = sessions w /\ objects w !! child = None /\
           objects w' = <[child := None]> (objects w)
       | Err _ => True
       | Panic => False
       end) w.
Proof.
  intros Hw. unfold load. case_bool_decide as Hn; cbn [negb]; [|by apply safe_ret].
  apply safe_try, safe_ret; [done|]. destruct (unmarshall (public key)) as [pub|] eqn:Hpub; [|done]. cbn [ok_or].
  apply safe_try, safe_ret; [done|].
  pose proof (validate_public_no_panic pub algorithm (object_use_policy key)) as Hv.
  destruct (validate_public _ _ _) as [[]|e|] eqn:Hval; [|done..].
  apply safe_try, safe_ret; [done|].
  destruct (private_try_from (wrapped_private key)) as [priv|] eqn:Hpriv; [|done]. cbn [ok_or].
  by apply load_session_safe.
Qed.

(** What [sign] leaves behind. *)
Definition sign_done (w : tpm_world) (r : result TpmError bytes) (w' : tpm_world) : Prop :=
  (logged load_entry w' \/
   exists child, logged (sign_entry child) w' /\ last (commands w') = Some (None, CmdFlushObject child)) /\
  match r with
  | Ok raw => len raw = 2 * ecdsa_component_size algorithm /\
      sessions w' = sessions w /\ objects w' = objects w
  | Err _ => True
  | Panic => False
  end.

Lemma sign_done_err w w' e : logged load_entry w' -> sign_done w (Err e) w'.
Proof. split; [by left|done]. Qed.

(** From the loaded key on: the signature command and the release of the key. *)
Lemma sign_command_safe child auth d validation w0 w :
  logged load_entry w -> authorization_value authorization = Ok (auth, object_use_policy key) ->
  digest_try_from digest = inr d ->
  objects w0 !! child = None -> sessions w = sessions w0 ->
  objects w = <[child := Some auth]> (objects w0) ->
  safe guarded
    (signature ← map_err_prog map_tss_error
       (with_encrypted_session (parent self) (Some child) (fun session =>
          tss (SignCommand session child d (hash_algorithm algorithm) validation)));
     flush ← tpm (FlushObject child);
     signature ←? Ret (match signature, flush with
                       | Panic, _ | _, Panic => Panic
                       | Err error, _ => Err error
                       | Ok _, Err error => Err error
                       | Ok signature, Ok _ => Ok signature
                       end);
     Ret (raw_signature algorithm signature))
    (sign_done w0) w.
Proof.
  intros Hw Hauth Hd Hfree Hs Ho.
  assert (forall w, logged (sign_entry child) w -> guarded w) as Hg by (intros w1 H1; by exists child).
  assert (logged (sign_entry child) w) as Hw'.
  { eapply logged_mono; [|exact Hw]. intros [s []]; cbn; tauto. }
  apply safe_bind, safe_map_err. eapply safe_mono; [exact Hg| |apply (safe_session (logged (sign_entry child)) _ _ _
    (fun _ w' => sessions w' = sessions w /\ objects w' = objects w))].
  - intros r w1 [H1 Hr]. split; [by apply Hg|].
    apply safe_bind, safe_tpm; [by apply Hg|]. intros v. cbn [tss_exec].
    assert (logged (sign_entry child) (send w1 None (CmdFlushObject child))) as H2 by (by apply logged_send).
    set (w2 := send w1 _ _) in *.
    assert (last (commands w2) = Some (None, CmdFlushObject child)) as Hl by (cbn; by rewrite last_snoc).
    assert (forall r' w3, commands w3 = commands w2 ->
      match r' with Ok raw => len raw = 2 * ecdsa_component_size algorithm /\
        sessions w3 = sessions w0 /\ objects w3 = objects w0 | Err _ => True | Panic => False end ->
      sign_done w0 r' w3) as Hdone.
    { intros r' w3 Hc H. split; [right|done]. exists child. split; [|by rewrite Hc].
      destruct H2 as (cs & Hcs & ?). exists cs. by rewrite Hc. }
    assert (forall w3, commands w3 = commands w2 -> guarded w3) as Hg3.
    { intros w3 Hc. apply Hg. destruct H2 as (cs & Hcs & ?). exists cs. by rewrite Hc. }
    unfold answer. destruct (failure v); cbn [fst snd of_sum map_err]; (split; [by apply Hg3|]).
    + apply safe_try, safe_ret; [by apply Hg3|]. destruct r as [sig|err|]; [..|done]; cbn [map_err];
        (split; [by apply Hg3|by apply Hdone]).
    + set (w3 := set_objects w2 _). assert (guarded w3) as H3 by (by apply Hg3).
      apply safe_try, safe_ret; [done|]. destruct r as [sig|err|]; [|split; [done|by apply Hdone]|done]. cbn [map_err].
      apply safe_ret; [done|]. apply Hdone; [done|]. destruct Hr as [Hs1 Ho1].
      pose proof (raw_signature_no_panic algorithm sig).
      destruct (raw_signature algorithm sig) as [raw|e|] eqn:Hraw; [|done..].
      apply raw_signature_len in Hraw. cbn. split_and!; [done|congruence|].
      rewrite Ho1, Ho. by apply delete_insert_id.
  - done.
  - intros h w1 H1. by apply logged_send.
  - done.
  - intros h w1 Hs1 Ho1 H1. apply safe_tss; [done|]. intros v. cbn [tss_exec].
    set (w2 := send w1 _ _). assert (logged (sign_entry child) w2) as H2.
    { apply logged_send; [done|]. cbn. rewrite Hs1, Ho1, Ho, lookup_insert_eq. split_and!; [done..|].
      by exists auth. }
    unfold answer. destruct (failure v); cbn [fst snd of_sum]; (split; [exact H2|]); (split_and!; [exact H2|done|]);
      [done|]. intros w3 Ho3 Hs3 _. split; [done|]. rewrite Ho3. exact Ho1.
Qed.

Lemma sign_safe w :
  commands w = before -> safe guarded (sign self key algorithm digest authorization) (sign_done w) w.
Proof.
  intros Hc. assert (logged load_entry w) as Hw by (exists []; by rewrite app_nil_r).
  pose proof (load_guarded w Hw) as Hg. unfold sign.
  destruct (len digest =? digest_size algorithm); cbn [negb]; [|by apply safe_ret; [|apply sign_done_err]].
  apply safe_try, safe_ret; [done|].
  destruct (authorization_value_cases authorization) as [[auth Hauth]|Hauth]; rewrite Hauth;
    [|by split; [|apply sign_done_err]].
  case_bool_decide as Hp; cbn [negb]; [|by apply safe_ret; [|apply sign_done_err]]. rewrite Hp in Hauth.
  apply safe_try. eapply safe_mono; [apply load_guarded| |by apply load_safe].
  intros r w1 [H1 Hr]. pose proof (load_guarded w1 H1).
  destruct r as [child|e|]; [|by split; [|apply sign_done_err]|done]. destruct Hr as (Hs1 & Hfree & Ho1).
  apply safe_try, safe_tpm; [done|]. intros v. cbn [tss_exec]. unfold answer.
  destruct (failure v); cbn [fst snd of_sum map_err]; [split; [done|]; by split; [|apply sign_done_err]|].
  set (w2 := set_objects w1 _). assert (logged load_entry w2) as H2 by exact H1.
  pose proof (load_guarded w2 H2). split; [done|].
  apply safe_try, safe_ret; [done|]. destruct (digest_try_from digest) as [e|d] eqn:Hd;
    cbn [of_sum map_err]; [by split; [|apply sign_done_err]|].
  apply safe_try, safe_ret; [done|]. destruct null_ticket as [e|validation];
    cbn [of_sum map_err]; [by split; [|apply sign_done_err]|].
  apply (sign_command_safe child auth d validation); try done.
  cbn. rewrite Ho1. by rewrite alter_insert_eq.
Qed.
End Sign.

(** ** Generating *)

Lemma append_ssh_string_small output value :
  len value <= u32_max -> append_ssh_string output value = Ok (output ++ prefixed value).
Proof. intros H. unfold append_ssh_string. by rewrite u32_try_from_small. Qed.

(** The OpenSSH public key blob of an uncompressed point. *)
Definition public_key_blob (algorithm : KeyAlgorithm) (x y : bytes) : bytes :=
  prefixed (ssh_key_type algorithm) ++ prefixed (ssh_curve_name algorithm) ++
  prefixed (b8 4 :: padded x (ecdsa_component_size algorithm) ++ padded y (ecdsa_component_size algorithm)).

Lemma ssh_public_key_eq public algorithm :
  ssh_public_key public algorithm =
    match ecc_public public with
    | Some (_, x, y) =>
        if (len x <=? ecdsa_component_size algorithm) && (len y <=? ecdsa_component_size algorithm)
        then Ok (public_key_blob algorithm x y) else Err InvalidObject
    | None => Err InvalidObject
    end.
Proof.
  unfold ssh_public_key. destruct (ecc_public public) as [[[parameters x] y]|]; [|done].
  cbn [ok_or mbind result_bind]. rewrite append_padded_spec.
  destruct (_ <? len x) eqn:Ex; cbn [mbind result_bind].
  { rewrite (proj2 (Z.leb_gt _ _)) by bool_lia. done. }
  rewrite append_padded_spec. destruct (_ <? len y) eqn:Ey; cbn [mbind result_bind].
  { rewrite (proj2 (Z.leb_gt (len y) _)) by bool_lia. by rewrite andb_false_r. }
  rewrite !(proj2 (Z.leb_le _ _)) by bool_lia. cbn [andb].
  rewrite append_ssh_string_small by (by destruct algorithm). cbn [mbind result_bind].
  rewrite append_ssh_string_small by (by destruct algorithm). cbn [mbind result_bind].
  fold (padded x (ecdsa_component_size algorithm)). fold (padded y (ecdsa_component_size algorithm)).
  rewrite append_ssh_string_small.
  - unfold public_key_blob. cbn [app]. by rewrite <- !app_assoc.
  - cbn [app]. rewrite len_cons, len_app, !len_padded by bool_lia. by destruct algorithm.
Qed.

Lemma ssh_public_key_no_panic public algorithm : ssh_public_key public algorithm <> Panic.
Proof.
  rewrite ssh_public_key_eq. destruct (ecc_public public) as [[[parameters x] y]|]; [|done]. by destruct (_ && _)%bool.
Qed.

Lemma create_public_no_panic algorithm use_policy : create_public algorithm use_policy <> Panic.
Proof.
  unfold create_public. apply bind_no_panic; [apply of_sum_no_panic|]. intros attributes _.
  apply bind_no_panic; [apply of_sum_no_panic|]. intros scheme _.
  apply bind_no_panic; [apply of_sum_no_panic|]. intros parameters _. apply of_sum_no_panic.
Qed.

Section Generate.
Context (self : EsapiTpm) (name0 : bytes) (algorithm : KeyAlgorithm).
Context (authorization : TpmAuthorization) (before : list (option session * command)).

(** Creating with the requested template and the PIN, and loading what was validated,
    both under a session salted with the parent and encrypted. *)
Definition generate_entry (x : option session * command) : Prop :=
  match x with
  | (s, CmdCreate p public0 auth) =>
      s = Some (mkSession (parent self) None true) /\ p = parent self /\
      create_public algorithm (policy_of authorization) = Ok public0 /\
      authorization_value authorization = Ok (auth, policy_of authorization)
  | (s, CmdLoad p _ public0) =>
      s = Some (mkSession (parent self) None true) /\ p = parent self /\
      validate_public public0 algorithm (policy_of authorization) = Ok tt
  | (_, CmdFlushSession _) | (_, CmdFlushObject _) => True
  | _ => False
  end.

Let guard : tpm_world -> Prop := logged before generate_entry.

(** A key that the agent can use: of the name, the algorithm and the policy that were
    requested, with the public key of the validated object, and nothing left open. *)
Definition generate_done (w : tpm_world) (r : result TpmError (KeySummary * TpmObject)) (w' : tpm_world) : Prop :=
  logged before generate_entry w' /\
  match r with
  | Ok (summary, object) =>
      name summary = name0 /\ Core.algorithm summary = algorithm /\
      use_policy summary = policy_of authorization /\
      object_use_policy object = policy_of authorization /\
      parent_name object = esapi_parent_name self /\
      (exists public0, validate_public public0 algorithm (policy_of authorization) = Ok tt /\
         marshall public0 = inr (Tpm.public object) /\
         ssh_public_key public0 algorithm = Ok (public_key summary)) /\
      (exists child_name, id summary = KeyId_new (hex_encode child_name)) /\
      sessions w' = sessions w /\ objects w' = objects w
  | Err _ => True
  | Panic => False
  end.

Lemma generate_fails w w' e : guard w' -> generate_done w (Err e) w'.
Proof. by split. Qed.

(** A pure step of [generate]. *)
Lemma safe_pure {A B} (r : result TpmError A) (f : A -> prog tssE (result TpmError B)) Q w :
  guard w -> r <> Panic -> (forall e, Q (Err e) w) -> (forall a, r = Ok a -> safe guard (f a) Q w) ->
  safe guard (try_bind f (Ret r)) Q w.
Proof.
  intros Hw Hr He Hf. apply safe_try, safe_ret; [done|]. destruct r; [by apply Hf|by split|done].
Qed.

(** An operation that leaves the world alone. *)
Lemma safe_query {A B} (e : tssE (Error + A)) (f : A -> prog tssE (result TpmError B)) Q w :
  guard w -> (forall v, exists a, tss_exec v w e = answer v a w w) ->
  (forall e, Q (Err e) w) -> (forall a, safe guard (f a) Q w) ->
  safe guard (try_bind f (tpm e)) Q w.
Proof.
  intros Hw He Herr Hf. apply safe_try, safe_tpm; [done|]. intros v. destruct (He v) as [x ->].
  unfold answer. destruct (failure v); cbn [fst snd of_sum map_err]; (split; [done|]); [by split|apply Hf].
Qed.

Lemma generate_create_safe public0 auth w :
  create_public algorithm (policy_of authorization) = Ok public0 ->
  authorization_value authorization = Ok (auth, policy_of authorization) -> guard w ->
  safe guard
    (map_err_prog map_tss_error (with_encrypted_session (parent self) None (fun session =>
       tss (Create session (parent self) public0 auth))))
    (fun r w' => guard w' /\
       match r with
       | Ok _ => sessions w' = sessions w /\ objects w' = objects w
       | Err _ => True
       | Panic => False
       end) w.
Proof.
  intros Hp Ha Hw. apply safe_map_err. eapply safe_mono; [done| |apply (safe_session guard _ _ _
    (fun _ w' => sessions w' = sessions w /\ objects w' = objects w))].
  - intros r w' [H1 H2]. by destruct r.
  - done.
  - intros h w1 H1. by apply logged_send.
  - done.
  - intros h w1 Hs Ho H1. apply safe_tss; [done|]. intros v. cbn [tss_exec].
    set (w2 := send w1 _ _). assert (guard w2) as H2 by (apply logged_send; [done|]; by rewrite Hs).
    unfold answer. destruct (failure v); cbn [fst snd of_sum]; (split; [exact H2|]); (split_and!; [exact H2|done|]);
      [done|]. intros w3 Ho3 Hs3 _. split; [done|]. by rewrite Ho3.
Qed.

Lemma generate_safe w :
  commands w = before -> safe guard (generate self name0 algorithm authorization) (generate_done w) w.
Proof.
  intros Hc. assert (guard w) as Hw by (exists []; by rewrite app_nil_r). unfold generate.
  apply safe_query; [done|by eexists|intros; by apply generate_fails|]. intros capabilities.
  apply safe_pure; [done|destruct capabilities; [by case_bool_decide|done]|intros; by apply generate_fails|].
  intros _ _.
  apply safe_pure; [done|by destruct (authorization_value_cases authorization) as [[? ->]| ->]|
    intros; by apply generate_fails|].
  intros [auth policy] Hauth.
  assert (policy = policy_of authorization) as ->.
  { destruct (authorization_value_cases authorization) as [[? H]|H]; rewrite H in Hauth; by simplify_eq. }
  apply safe_pure; [done|apply create_public_no_panic|intros; by apply generate_fails|]. intros public0 Hpub.
  apply safe_try. eapply safe_mono; [done| |by apply generate_create_safe].
  intros [[out_public out_private]|e|] w1 [H1 Hr]; [|by split; [|apply generate_fails]|done].
  destruct Hr as [Hs1 Ho1].
  apply safe_pure; [done|apply validate_public_no_panic|intros; by apply generate_fails|]. intros [] Hval.
  apply safe_pure; [done|apply ssh_public_key_no_panic|intros; by apply generate_fails|]. intros blob Hblob.
  apply safe_try. eapply safe_mono; [done| |by apply load_session_safe].
  intros [child|e|] w2 [H2 Hr]; [|by split; [|apply generate_fails]|done].
  destruct Hr as (Hs2 & Hfree & Ho2).
  apply safe_query; [done|by eexists|intros; by apply generate_fails|]. intros child_name.
  apply safe_try, safe_tpm; [done|]. intros v. cbn [tss_exec].
  assert (guard (send w2 None (CmdFlushObject child))) as H3 by (by apply logged_send).
  set (w3 := send w2 _ _) in *. unfold answer.
  destruct (failure v); cbn [fst snd of_sum map_err]; (split; [exact H3|]); [by split; [|apply generate_fails]|].
  set (w4 := set_objects w3 _). assert (guard w4) as H4 by exact H3.
  apply safe_pure; [done|apply of_sum_no_panic|intros; by apply generate_fails|]. intros public1 Hm.
  apply safe_ret; [done|]. split; [done|]. split_and!; try done.
  - exists out_public. split_and!; [done| |done]. by destruct (marshall out_public); simplify_eq/=.
  - by exists child_name.
  - cbn. by rewrite Hs2, Hs1.
  - cbn. rewrite Ho2, delete_insert_id by done. done.
Qed.
End Generate.

(** ** Properties *)

Lemma tss_total {A} (e : tssE (Error + A)) : total (tpm e).
Proof. intros w. apply safe_tpm; [done|]. intros v. split; [done|]. apply of_sum_no_panic. Qed.

Lemma connect_is_total tcti : total (connect tcti).
Proof.
  unfold connect. apply total_try; [apply total_ret; by destruct (tcti_from_str tcti)|]. intros t.
  apply total_try; [apply tss_total|]. intros _. apply total_try; [apply total_ret, of_sum_no_panic|].
  intros public0. apply total_try; [apply tss_total|]. intros par.
  apply total_try; [apply tss_total|]. intros n. by apply total_ret.
Qed.

Lemma total_connect_default : total connect_default.
Proof.
  intros w. apply safe_bind. apply (safe_mono (fun _ => True) _ _ (fun _ _ => True)); [done| |].
  - intros tcti w' _. apply connect_is_total.
  - generalize [str "TPM2TOOLS_TCTI"; str "TCTI"; str "TEST_TCTI"] as names. intros names. revert w.
    induction names as [|n names IH]; intros w; cbn [first_variable]; [done|].
    apply safe_bind, safe_vis; [done|]. intros v. apply safe_ret; [done|]. cbn. by destruct (variable v).
Qed.

(** The promises of the trait, whatever the TPM answers. *)
#[global] Instance EsapiTpm_laws calm : TpmSignerLaws tssE calm.
Proof.
  split.
  - intros vs w. apply total_run, total_connect_default.
  - intros self key algorithm digest authorization vs w.
    pose proof (safe_run _ calm _ _ vs w (sign_safe self key algorithm digest authorization (commands w) w eq_refl)) as [_ H].
    destruct (run calm _ vs w) as [r w']. cbn [fst snd] in *. destruct r; [apply H|done..].
  - intros self name0 algorithm0 authorization vs w.
    pose proof (safe_run _ calm _ _ vs w (generate_safe self name0 algorithm0 authorization (commands w) w eq_refl)) as [_ H].
    destruct (run calm _ vs w) as [r w']. cbn [fst snd] in *. destruct r as [[summary object]| |]; [|done..].
    tauto.
Qed.



(** [C32] From the TPM to the wire.  Scalars no wider than the curve become a raw
    signature of which the agent's response is exactly the SSH signature of the numbers
    the TPM returned; wider ones and other kinds of signature are refused. *)
Theorem signature_reaches_wire algorithm signature :
  match raw_signature algorithm signature with
  | Ok raw => exists r s, signature = EcDsaSignature r s /\
      from_be (firstn (Z.to_nat (ecdsa_component_size algorithm)) raw) = from_be r /\
      from_be (skipn (Z.to_nat (ecdsa_component_size algorithm)) raw) = from_be s /\
      Protocol.ecdsa_signature_response algorithm raw =
        Ok (prefixed (Protocol.signature_payload algorithm r s))
  | Err e => e = InvalidObject /\
      match signature with
      | EcDsaSignature r s => ecdsa_component_size algorithm < len r \/ ecdsa_component_size algorithm < len s
      | OtherSignature => True
      end
  | Panic => False
  end.
Proof.
  destruct (raw_signature algorithm signature) as [raw|e|] eqn:Hraw.
  - pose proof (raw_signature_len _ _ _ Hraw) as Hlen.
    apply raw_signature_Ok in Hraw as (r & s & -> & Hr & Hs & ->). exists r, s.
    set (w := ecdsa_component_size algorithm) in *.
    assert (length (padded r w) = Z.to_nat w) as Hl by (pose proof (len_padded r w Hr); unfold len in *; lia).
    rewrite !take_app_length', !drop_app_length' by done. rewrite !from_be_padded. split_and!; [done..|].
    rewrite Protocol.signature_response_eq. fold w. rewrite (proj2 (Z.eqb_eq _ _)) by done.
    cbn zeta. rewrite take_app_length', drop_app_length' by done.
    unfold Protocol.signature_payload. rewrite (Protocol.mpint_of_value (padded r w) r), (Protocol.mpint_of_value (padded s w) s)
      by apply from_be_padded. done.
  - destruct signature as [r s|]; [|by injection Hraw as <-]. cbn [raw_signature] in Hraw.
    rewrite append_padded_spec in Hraw. destruct (_ <? len r) eqn:Er; cbn [mbind result_bind] in Hraw.
    { injection Hraw as <-. split; [done|]. left. bool_lia. }
    rewrite append_padded_spec in Hraw. destruct (_ <? len s) eqn:Es; [|done].
    injection Hraw as <-. split; [done|]. right. bool_lia.
  - by apply raw_signature_no_panic in Hraw.
Qed.

(** *** The template *)

(** What tss_esapi documents of its builders: they build what they were given. *)
Class TssLaws := {
  attributes_built : forall a b, attributes_build a = inr b -> b = a;
  parameters_built : forall scheme curve p, signing_parameters_build scheme curve = inr p ->
    parameters_curve p = curve /\ parameters_scheme p = scheme;
  public_built : forall a p public, public_build a p = inr public ->
    object_attributes public = a /\ exists x y, ecc_public public = Some (p, x, y);
}.

Lemma of_sum_Ok {A} (r : Error + A) a : map_err map_tss_error (of_sum r) = Ok a -> r = inr a.
Proof. destruct r; intros H; by simplify_eq/=. Qed.

Lemma create_public_Ok {LAWS : TssLaws} algorithm use_policy public :
  create_public algorithm use_policy = Ok public ->
  object_attributes public = requested_attributes use_policy /\
  exists p x y scheme, ecc_public public = Some (p, x, y) /\ parameters_curve p = ecc_curve algorithm /\
    parameters_scheme p = scheme /\ ecdsa_scheme_create (hash_algorithm algorithm) = inr scheme.
Proof.
  unfold create_public. intros (a & <-%of_sum_Ok%attributes_built & H)%bind_Ok_inv.
  apply bind_Ok_inv in H as (scheme & Hs%of_sum_Ok & H). apply bind_Ok_inv in H as (p & Hp%of_sum_Ok & H).
  apply of_sum_Ok, public_built in H as (Ha & x & y & He).
  apply parameters_built in Hp as [Hc Hsch]. split; [done|]. by exists p, x, y, scheme.
Qed.

(** The extraction boundary holds together: the template that [generate] asks for
    passes the validation that guards every later load for the same algorithm and
    policy, and for no other algorithm or policy. *)
Theorem template_validates {LAWS : TssLaws} algorithm use_policy public :
  create_public algorithm use_policy = Ok public ->
  forall algorithm' use_policy',
    validate_public public algorithm' use_policy' = Ok tt <->
    algorithm' = algorithm /\ use_policy' = use_policy.
Proof.
  intros H algorithm' use_policy'.
  apply create_public_Ok in H as (Ha & p & x & y & scheme & He & Hc & Hs & Hcreate).
  unfold validate_public. rewrite Ha, He. cbn -[hash_algorithm ecc_curve]. split.
  - destruct (Bool.eqb _ _) eqn:Hb; cbn [negb orb]; [|discriminate]. apply eqb_prop in Hb.
    destruct (bool_decide (parameters_curve p = _)) eqn:Hcurve; [|by intros [=]]. intros _.
    apply bool_decide_eq_true in Hcurve. rewrite Hc in Hcurve. split.
    + by destruct algorithm, algorithm'.
    + by destruct use_policy, use_policy'.
  - intros [-> ->]. rewrite eqb_reflx. cbn [negb orb]. rewrite bool_decide_true by done.
    rewrite Hcreate. cbn. by rewrite bool_decide_true.
Qed.
End Esapi.

(** ** A concrete TPM *)

Module Sample.
(** Structures that hold what they were built from; values of up to 64 bytes. *)
#[local] Instance tss : Tss := {
  EccScheme := HashingAlgorithm;
  EccScheme_eq_dec := ltac:(intros [] []; (left; reflexivity) || (right; discriminate));
  EccParameters := EccCurve * HashingAlgorithm;
  Public := ObjectAttributes * (EccCurve * HashingAlgorithm);
  Private := bytes;
  Auth := bytes;
  Digest := bytes;
  Tcti := bytes;
  HashcheckTicket := unit;
  tcti_from_str := Some;
  restricted_decryption_rsa_public := inl WrapperError;
  attributes_build a := inr a;
  ecdsa_scheme_create h := inr h;
  signing_parameters_build s c := inr (c, s);
  public_build a p := inr (a, p);
  object_attributes p := fst p;
  ecc_public p := Some (snd p, [b8 1], [b8 2]);
  parameters_curve p := fst p;
  parameters_scheme p := snd p;
  unmarshall b := Some (requested_attributes TpmPin, (NistP256, Sha256));
  marshall p := inr (str "pub");
  private_try_from := Some;
  private_value p := p;
  auth_default := [];
  auth_try_from b := if len b <=? 64 then Some b else None;
  digest_try_from b := if len b <=? 64 then inr b else inl WrapperError;
  null_ticket := inr tt;
}.
#[local] Instance tss_laws : TssLaws.
Proof.
  split.
  - by intros a b [= ->].
  - by intros s c p [= <-].
  - intros a p pub [= <-]. split; [done|]. by eexists _, _.
Qed.

Definition self : EsapiTpm := mkEsapiTpm 1 (str "q").
Definition key : TpmObject := mkTpmObject (str "pub") (str "w") (str "q") TpmPin.
Definition digest : bytes := replicate 32 (b8 7).
Definition pin : TpmAuthorization := AuthPin (str "123456").
Definition start : tpm_world := mkTpmWorld ∅ ∅ [].
(** Every command succeeds. *)
Definition fine : tss_choice :=
  mkTssChoice None 2 true (str "name") ((requested_attributes TpmPin, (NistP256, Sha256)), str "w")
    (EccCurves [NistP256]) (EcDsaSignature [b8 128] [b8 3]) (Some 0) None.



Lemma template_validates_witness :
  exists public, create_public EcdsaNistP384 NoPin = Ok public /\
    validate_public public EcdsaNistP384 NoPin = Ok tt.
Proof.
  exists (requested_attributes NoPin, (NistP384, Sha384)). split; [reflexivity|].
  apply (template_validates EcdsaNistP384 NoPin); [reflexivity|split; reflexivity].
Defined.

(** A PIN that cannot be set leaves the loaded key behind: the errors between the load
    and the signature command return before the key is released. *)
Definition refused : tss_choice :=
  mkTssChoice (Some WrapperError) 2 true [] ((requested_attributes TpmPin, (NistP256, Sha256)), [])
    OtherCapability OtherSignature None None.
Example key_left_loaded :
  let '(r, w) := run fine (sign self key EcdsaNistP256 digest pin) [fine; fine; fine; fine; refused] start in
  r = Err Transport /\ objects w !! 2 = Some None.
Proof. vm_compute. split; reflexivity. Qed.
End Sample.
