(* ===== verification/Paths.v ===== *)
(** Where things are: the functions of crates/keyvisor-agent/src/main.rs and
    crates/keyvisor-cli/src/main.rs that locate the sockets, the key store, the history and
    the configuration from the environment variables, and the two programs' agreement. *)

From S2P Require Import Prelude Bytes Text FileSystem.

(** [env::var_os]. *)
Abbreviation environment := (bytes -> option bytes).

(** [PathBuf::from], for a variable that holds an absolute path. *)
Definition PathBuf_from (value : bytes) : path := components value.

(** [Option::filter] with [|value| !value.is_empty()]. *)
Definition non_empty (value : option bytes) : option bytes :=
  value ≫= fun value => if is_empty value then None else Some value.

(** ** The agent *)

Section Agent.
Context (var_os : environment).

Definition default_data_directory : result bytes path :=
  match non_empty (var_os (str "XDG_DATA_HOME")) with
  | Some data_home => Ok (join (PathBuf_from data_home) (str "me.nexryai.keyvisor"))
  | None =>
      home ← ok_or (var_os (str "HOME"))
        (str "neither XDG_DATA_HOME nor HOME is set; cannot locate the key store");
      Ok (join (join (PathBuf_from home) (str ".local/share")) (str "me.nexryai.keyvisor"))
  end.

Definition default_store_directory : result bytes path :=
  (fun path => join path (str "keys")) <$> default_data_directory.

Definition default_history_path : result bytes path :=
  (fun path => join path (str "history.bin")) <$> default_data_directory.

Definition default_config_path : result bytes path :=
  match non_empty (var_os (str "XDG_CONFIG_HOME")) with
  | Some config_home => Ok (join (PathBuf_from config_home) (str "me.nexryai.keyvisor/config"))
  | None =>
      home ← ok_or (var_os (str "HOME")) (str "HOME is not set; cannot locate configuration");
      Ok (join (PathBuf_from home) (str ".config/me.nexryai.keyvisor/config"))
  end.

Definition default_socket_path : result bytes path :=
  match non_empty (var_os (str "KEYVISOR_AGENT_SOCKET")) with
  | Some path => Ok (PathBuf_from path)
  | None =>
      runtime_directory ← ok_or (var_os (str "XDG_RUNTIME_DIR"))
        (str "XDG_RUNTIME_DIR is not set; cannot locate the agent socket");
      Ok (join (join (PathBuf_from runtime_directory) (str "keyvisor")) (str "agent.sock"))
  end.

Definition default_control_socket_path : result bytes path :=
  match non_empty (var_os (str "KEYVISOR_CONTROL_SOCKET")) with
  | Some path => Ok (PathBuf_from path)
  | None =>
      runtime_directory ← ok_or (var_os (str "XDG_RUNTIME_DIR"))
        (str "XDG_RUNTIME_DIR is not set; cannot locate the control socket");
      Ok (join (join (PathBuf_from runtime_directory) (str "keyvisor")) (str "control.sock"))
  end.
End Agent.

(** ** The command line *)

Section Client.
Context (var_os : environment).

Definition home_directory : result bytes path :=
  ok_or (PathBuf_from <$> var_os (str "HOME")) (str "HOME is not set; cannot locate Keyvisor data").

Definition data_directory : result bytes path :=
  match non_empty (var_os (str "XDG_DATA_HOME")) with
  | Some data_home => Ok (join (PathBuf_from data_home) (str "me.nexryai.keyvisor"))
  | None => (fun home => join home (str ".local/share/me.nexryai.keyvisor")) <$> home_directory
  end.

Definition config_path : result bytes path :=
  match non_empty (var_os (str "XDG_CONFIG_HOME")) with
  | Some config_home => Ok (join (PathBuf_from config_home) (str "me.nexryai.keyvisor/config"))
  | None => (fun home => join home (str ".config/me.nexryai.keyvisor/config")) <$> home_directory
  end.

Definition store_directory : result bytes path :=
  (fun path => join path (str "keys")) <$> data_directory.

Definition history_path : result bytes path :=
  (fun path => join path (str "history.bin")) <$> data_directory.

Definition control_socket_path : result bytes path :=
  match non_empty (var_os (str "KEYVISOR_CONTROL_SOCKET")) with
  | Some path => Ok (PathBuf_from path)
  | None =>
      runtime ← ok_or (var_os (str "XDG_RUNTIME_DIR")) (str "XDG_RUNTIME_DIR is not set");
      Ok (join (PathBuf_from runtime) (str "keyvisor/control.sock"))
  end.
End Client.

(** ** Agreement *)

(** Joining a relative path. *)
Lemma join_relative p s : head s <> Some slash -> join p s = p ++ components s.
Proof.
  destruct s as [|b s]; cbn; [by rewrite app_nil_r|]. intros Hb. by rewrite decide_False by congruence.
Qed.

(** Joining components one by one, or all at once. *)
Lemma join_join p a b c :
  head a <> Some slash -> head b <> Some slash -> head c <> Some slash ->
  components c = components a ++ components b -> join (join p a) b = join p c.
Proof. intros Ha Hb Hc E. by rewrite !join_relative, E, app_assoc by done. Qed.

(** What the two programs make of the same environment: the same path, or an error each. *)
Definition agree (agent client : result bytes path) : Prop :=
  match agent, client with
  | Ok p, Ok q => p = q
  | Err _, Err _ => True
  | _, _ => False
  end.

Lemma agree_fmap (f : path -> path) agent client : agree agent client -> agree (f <$> agent) (f <$> client).
Proof. destruct agent, client; cbn; congruence. Qed.

Lemma agree_data_directory var_os : agree (default_data_directory var_os) (data_directory var_os).
Proof.
  unfold default_data_directory, data_directory, home_directory. destruct (non_empty _); [done|].
  destruct (var_os (str "HOME")) as [home|]; [|done]. cbn [agree fmap result_fmap ok_or mbind result_bind option_fmap option_map].
  by apply join_join.
Qed.

(** The agent and the command line find each other: whatever the environment, they
    compute the same location of the key store, the history, the configuration and the
    control socket, or both report that it cannot be located; and the control socket is
    never the agent's socket unless a variable was set to it. *)
Theorem locations_agree var_os :
  agree (default_store_directory var_os) (store_directory var_os) /\
  agree (default_history_path var_os) (history_path var_os) /\
  agree (default_config_path var_os) (config_path var_os) /\
  agree (default_control_socket_path var_os) (control_socket_path var_os) /\
  (non_empty (var_os (str "KEYVISOR_AGENT_SOCKET")) = None ->
   non_empty (var_os (str "KEYVISOR_CONTROL_SOCKET")) = None ->
   forall p q, default_socket_path var_os = Ok p -> default_control_socket_path var_os = Ok q ->
   p <> q /\ parent p = parent q).
Proof.
  split_and!.
  - apply agree_fmap, agree_data_directory.
  - apply agree_fmap, agree_data_directory.
  - unfold default_config_path, config_path, home_directory. destruct (non_empty _); [done|].
    by destruct (var_os (str "HOME")).
  - unfold default_control_socket_path, control_socket_path. destruct (non_empty _); [done|].
    destruct (var_os (str "XDG_RUNTIME_DIR")) as [d|]; [|done]. cbn [agree mbind result_bind ok_or].
    by apply join_join.
  - unfold default_socket_path, default_control_socket_path. intros -> ->.
    destruct (var_os (str "XDG_RUNTIME_DIR")) as [d|]; [|done]. cbn [mbind result_bind ok_or].
    rewrite !join_relative by done. intros p q [= <-] [= <-]. split.
    + intros H%(f_equal last). by rewrite !last_app in H.
    + change (components (str "agent.sock")) with [str "agent.sock"].
      change (components (str "control.sock")) with [str "control.sock"]. by rewrite !parent_snoc.
Qed.

(** In a session whose variables are [HOME] and [XDG_RUNTIME_DIR]. *)
Definition session : environment := fun name =>
  if decide (name = str "HOME") then Some (str "/home/u")
  else if decide (name = str "XDG_RUNTIME_DIR") then Some (str "/run/user/1000")
  else None.

Lemma locations_agree_witness :
  default_store_directory session = Ok [str "home"; str "u"; str ".local"; str "share"; str "me.nexryai.keyvisor"; str "keys"] /\
  store_directory session = default_store_directory session /\
  exists p q, default_socket_path session = Ok p /\ default_control_socket_path session = Ok q /\ p <> q.
Proof.
  destruct (locations_agree session) as (H & _ & _ & _ & Hs).
  split_and!; [reflexivity| |].
  - vm_compute in H |- *. congruence.
  - eexists _, _. split_and!; [reflexivity..|]. eapply Hs; reflexivity.
Defined.
