(* ===== verification/Graphical.v ===== *)
(** The dialog process of a signing request: [graphical_session_available],
    [start_graphical_authorizer] and [stop_graphical_authorizer] of
    crates/keyvisor-agent/src/main.rs, which Runtime's [request_pin] calls. *)

From S2P Require Import Prelude Bytes Text Effects FileSystem Paths.

(** ** Operations *)

(** The child process of a request is unique. *)
Inductive dialogE : Type -> Type :=
  | CurrentExe : dialogE (io_result path)
  | Spawn (executable : path) (arguments : list bytes) : dialogE (io_result unit)
  | TryWait : dialogE (io_result (option Z))
  | Kill : dialogE (io_result unit)
  | Wait : dialogE (io_result Z).

(** ** The process *)

Section Authorizer.
Context (var_os : environment).

Definition graphical_session_available : bool :=
  match var_os (str "WAYLAND_DISPLAY") with Some value => negb (is_empty value) | None => false end ||
  match var_os (str "DISPLAY") with Some value => negb (is_empty value) | None => false end.

(** [Path::with_file_name]. *)
Definition with_file_name (p : path) (name : bytes) : path := join (default p (parent p)) name.

(** Whether there is a child. *)
Definition start_graphical_authorizer (id : bytes) : prog dialogE bool :=
  if negb graphical_session_available then Ret false
  else
    executable ← trigger CurrentExe;
    match executable with
    | Ok executable =>
        child ← trigger (Spawn (with_file_name executable (str "keyvisor")) [str "authorize"; id; str "--pinentry"]);
        Ret (is_ok child)
    | _ => Ret false
    end.

(** [child.try_wait().ok().flatten().is_some()]. *)
Definition has_ended : prog dialogE bool :=
  status ← trigger TryWait;
  Ret (match status with Ok (Some _) => true | _ => false end).

Definition stop_graphical_authorizer (child : bool) : prog dialogE unit :=
  if (child : bool) then
    ended ← has_ended;
    _ ← (if (ended : bool) then Ret tt else _ ← trigger Kill; Ret tt);
    _ ← trigger Wait;
    Ret tt
  else Ret tt.
End Authorizer.

(** ** The agent's side of the process *)

Inductive process_state := Running | Exited (status : Z) | Reaped (status : Z).

(** The child; the commands that were started; for each [SIGKILL], whether its process had
    been waited for; whether waiting failed. *)
Record desktop := mkDesktop {
  process : option process_state;
  commands : list (path * list bytes);
  kills : list bool;
  wait_failed : bool;
}.
Definition no_dialog : desktop := mkDesktop None [] [] false.

(** Before an operation the child may end; then the operation fails or not. *)
Record circumstance := mkCircumstance {
  exits : option Z;
  fault : option io_error;
  executable : path;
}.
Definition undisturbed : circumstance := mkCircumstance None None [str "keyvisor-agent"].

Definition set_process (w : desktop) (s : process_state) : desktop :=
  mkDesktop (Some s) (commands w) (kills w) (wait_failed w).

Definition happen (v : circumstance) (w : desktop) : desktop :=
  match process w, exits v with
  | Some Running, Some status => set_process w (Exited status)
  | _, _ => w
  end.

Definition reaped (w : desktop) : bool := match process w with Some (Reaped _) => true | _ => false end.
Definition add_kill (w : desktop) : desktop :=
  mkDesktop (process w) (commands w) (kills w ++ [reaped w]) (wait_failed w).

(** [wait] and [try_wait] give the status of a process that was waited for; [SIGKILL] ends a
    process in the end, so [wait] comes back. *)
Definition dialog_exec {X} (v : circumstance) (w : desktop) (e : dialogE X) : X * desktop :=
  let w := happen v w in
  match e in dialogE X return X * desktop with
  | CurrentExe => (match fault v with Some error => Err error | None => Ok (executable v) end, w)
  | Spawn exe arguments =>
      match fault v with
      | Some error => (Err error, w)
      | None => (Ok tt, mkDesktop (Some Running) (commands w ++ [(exe, arguments)]) (kills w) (wait_failed w))
      end
  | TryWait =>
      match fault v, process w with
      | None, Some (Exited status) => (Ok (Some status), set_process w (Reaped status))
      | None, Some (Reaped status) => (Ok (Some status), w)
      | None, _ => (Ok None, w)
      | Some error, _ => (Err error, w)
      end
  | Kill => match fault v with Some error => (Err error, add_kill w) | None => (Ok tt, add_kill w) end
  | Wait =>
      match fault v, process w with
      | None, Some (Reaped status) => (Ok status, w)
      | None, Some (Exited status) => (Ok status, set_process w (Reaped status))
      | None, _ => (Ok 9, set_process w (Reaped 9))
      | Some error, Some (Reaped status) => (Ok status, w)
      | Some error, _ => (Err error, mkDesktop (process w) (commands w) (kills w) true)
      end
  end.

#[global] Instance dialog_handler : Handler dialogE desktop circumstance := fun X v w e => dialog_exec v w e.

(** ** The child is followed *)

Section Tidy.
Context (var_os : environment) (id : bytes).

(** The command of the dialog, next to the agent's own program. *)
Definition dialog_command (exe : path) : path * list bytes :=
  (with_file_name exe (str "keyvisor"), [str "authorize"; id; str "--pinentry"]).

(** At most one process, in a graphical session, and no signal to a process that was waited
    for. *)
Record tidy (w : desktop) : Prop := mk_tidy {
  ti_commands : commands w = [] /\ process w = None \/
    graphical_session_available var_os = true /\ process w <> None /\ exists exe, commands w = [dialog_command exe];
  ti_kills : Forall (fun r => r = false) (kills w);
}.

(** There is a child to be waited for, or none. *)
Definition alive (w : desktop) : Prop := process w = Some Running \/ exists status, process w = Some (Exited status).
Definition gone (w : desktop) : Prop := process w = None \/ exists status, process w = Some (Reaped status).
Definition held (child : bool) (w : desktop) : Prop := tidy w /\ if child then alive w else gone w.

Lemma child_op {X} (e : dialogE X) (Q : X -> desktop -> Prop) w :
  tidy w -> (forall v, let '(x, w') := dialog_exec v w e in tidy w' /\ Q x w') -> safe tidy (trigger e) Q w.
Proof. exact (safe_trigger tidy e Q w). Qed.

(** The child may end meanwhile. *)
Lemma happen_held child v w : held child w -> held child (happen v w).
Proof.
  intros Hw. unfold happen. destruct (process w) as [[|s|s]|] eqn:E; destruct (exits v) as [status|]; try exact Hw.
  destruct Hw as [[Hc Hk] Hp].
  split; [split; cbn; [|done]|].
  - destruct Hc as [[_ ?]|Hc]; [congruence|]. right. destruct Hc as (H1 & _ & H2). by split_and!.
  - destruct child; [by right; eexists|]. destruct Hp as [Hp|[? Hp]]; congruence.
Qed.

Lemma happen_process v w : process w <> None -> process (happen v w) <> None.
Proof. unfold happen. by destruct (process w) as [[]|] eqn:E; destruct (exits v); cbn; rewrite ?E. Qed.

Lemma happen_commands v w : commands (happen v w) = commands w.
Proof. unfold happen. by destruct (process w) as [[]|]; destruct (exits v). Qed.

(** [try_wait]: a child that ended is one that was waited for. *)
Lemma has_ended_safe w :
  held true w -> safe tidy has_ended (fun ended w' => held (negb ended) w' /\ process w' <> None) w.
Proof.
  intros Hw. apply safe_bind, child_op; [apply Hw|]. intros v. unfold dialog_exec.
  pose proof (happen_held true v w Hw) as Hh. revert Hh. generalize (happen v w). intros w1 Hh.
  assert (forall b w2, held b w2 -> process w2 <> None -> tidy w2 /\
    safe tidy (Ret (negb b)) (fun ended w' => held (negb ended) w' /\ process w' <> None) w2) as Hret.
  { intros b w2 Hb Hp. split; [apply Hb|]. apply safe_ret; [apply Hb|]. by rewrite negb_involutive. }
  pose proof Hh as [[Hcm Hk] [Hp|[s Hp]]]; (destruct (fault v); [apply (Hret true); [done|by rewrite Hp]|]); rewrite Hp.
  - apply (Hret true); [done|by rewrite Hp].
  - apply (Hret false); [|done]. split; [split; cbn; [|done]|by right; eexists].
    right. destruct Hcm as [[_ ?]|(? & _ & ?)]; [congruence|by split_and!].
Qed.

(** The end of a request: the process is gone, unless waiting for it failed. *)
Definition settled (w : desktop) : Prop := tidy w /\ (gone w \/ wait_failed w = true).

Lemma wait_safe child w :
  held child w -> process w <> None -> safe tidy (trigger Wait) (fun _ w' => settled w') w.
Proof.
  intros Hw Hn. apply child_op; [apply Hw|]. intros v. unfold dialog_exec.
  pose proof (happen_held child v w Hw) as Hh. pose proof (happen_process v w Hn) as Hn1.
  revert Hh Hn1. generalize (happen v w). intros w1 [[Hc Hk] Hp] Hn1.
  destruct (fault v); destruct (process w1) as [[|s|s]|] eqn:E;
    (match goal with |- tidy ?w2 /\ _ => enough (settled w2) as H by (split; [apply H|done]) end);
    (split; [split; cbn; [rewrite ?E|done]|]); try done; try (by right); try (by left; right; eexists).
  all: destruct Hc as [[_ ?]|(? & _ & ?)]; [congruence|right; by split_and!].
Qed.

Lemma kill_held child w : held child w -> reaped w = false -> held child (add_kill w).
Proof.
  intros [[Hc Hk] Hp] Hr. split; [split; [done|]|done]. cbn. rewrite Hr. apply Forall_app. split; [done|]. by apply Forall_singleton.
Qed.

Lemma stop_authorizer_safe child w :
  held child w -> safe tidy (stop_graphical_authorizer child) (fun _ w' => settled w') w.
Proof.
  intros Hw. unfold stop_graphical_authorizer. destruct child; [|apply safe_ret; [apply Hw|split; [apply Hw|left; apply Hw]]].
  apply safe_bind. eapply safe_mono; [..|by apply has_ended_safe]; [done|].
  assert (forall b w', held b w' -> process w' <> None -> safe tidy (_ ← trigger Wait; Ret tt) (fun _ w' => settled w') w') as Hwait.
  { intros b w' Hb Hn. apply safe_bind. eapply safe_mono; [..|by eapply wait_safe]; [done|]. intros u w2 H2. by apply safe_ret; [apply H2|]. }
  intros [] w1 (H1 & Hn); [by apply (Hwait false)|]. apply safe_bind, safe_bind, child_op; [apply H1|]. intros v. unfold dialog_exec.
  pose proof (happen_held true v w1 H1) as Hh. pose proof (happen_process v w1 Hn) as Hn1. revert Hh Hn1.
  generalize (happen v w1). intros w2 H2 Hn2.
  assert (held true (add_kill w2)) as Hk.
  { apply kill_held; [done|]. unfold reaped. by destruct H2 as [_ [-> |[s ->]]]. }
  destruct (fault v); (split; [apply Hk|]); (apply safe_ret; [apply Hk|]); by apply (Hwait true).
Qed.

Lemma start_safe w :
  tidy w -> commands w = [] -> process w = None ->
  safe tidy (start_graphical_authorizer var_os id) held w.
Proof.
  intros Hw Hc Hp. unfold start_graphical_authorizer.
  assert (held false w) as Hf by by (split; [|left]).
  destruct (graphical_session_available var_os) eqn:Hg; [|by apply safe_ret]. cbn [negb].
  apply safe_bind, child_op; [apply Hf|]. intros v. unfold dialog_exec.
  pose proof (happen_held false v w Hf) as Hw1.
  assert (forall (b : bool) w', held b w' -> safe tidy (Ret b) held w') as Hret by (intros b w' Hb; by apply safe_ret; [apply Hb|]).
  destruct (fault v); (split; [apply Hw1|]); [by apply Hret|].
  apply safe_bind, child_op; [apply Hw1|]. intros v2. unfold dialog_exec.
  pose proof (happen_held false v2 _ Hw1) as Hw2.
  assert (commands (happen v2 (happen v w)) = []) as Hc2 by by rewrite !happen_commands.
  revert Hw2 Hc2. generalize (happen v2 (happen v w)). intros w2 Hw2 Hc2.
  destruct (fault v2); [split; [apply Hw2|by apply Hret]|]. cbn [fst snd is_ok].
  enough (held true (mkDesktop (Some Running) (commands w2 ++ [dialog_command (executable v)]) (kills w2) (wait_failed w2)))
    as H by (split; [apply H|by apply Hret]).
  split; [split; cbn; [|apply Hw2]|by left]. right. rewrite Hc2. split_and!; [done..|by eexists].
Qed.
End Tidy.
