(* ===== verification/Runtime.v ===== *)
(** The agent's handling of one request: [AgentRuntime] of
    crates/keyvisor-agent/src/main.rs.

    The TPM is known only through the interface [TpmSigner]; the PIN broker, the key store,
    the history and the dialog process are the ones of their own files.  The request thread
    shares the broker, the file system and the TPM with the other threads, which run between
    any two of its operations. *)

From S2P Require Import Prelude Bytes Text Core Protocol Effects Tpm FileSystem AtomicFile Paths.
From S2P Require KeyStore History Graphical.
From S2P Require Import Broker.

(** What [serve] makes of the configuration, the process identifier and the environment
    variables; times are in milliseconds. *)
Record agent := mkAgent {
  store : KeyStore.KeyStore;
  history : History.HistoryStore;
  history_enabled : bool;
  authorization_timeout : Z;
  agent_pid : Z;
  var_os : environment;
}.

(** How the loop of [request_pin] ends: its result, and whether there still is a dialog. *)
Abbreviation loop_result := (option (result bytes bytes * bool)).

Section Runtime.
(** The implementation of the trait, the two digests of the sha2 crate, and the agent. *)
Context {E : Type -> Type} {TS TV : Type} `{!Handler E TS TV} `{!TpmSigner E} (tpm_calm : TV).
Context (Sha256 Sha384 : bytes -> bytes) (a : agent).

(** ** Operations of a request thread *)

(** A channel is known by its number; [RemoveRequest] removes the entry, after the loop
    ended with [outcome], and [DropReceiver] is the end of [request_pin]. *)
Inductive agentE : Type -> Type :=
  | Check : agentE bool
  | StoreList : agentE (result KeyStore.StoreError (list KeyStore.StoredKey))
  | BeginRequest (key_name : bytes) : agentE (result unit (bytes * Z))
  | TryRecv (ch : Z) : agentE try_recv_result
  | RemoveRequest (ch : Z) (outcome : result bytes bytes) : agentE unit
  | DropReceiver (ch : Z) : agentE unit
  | Dialog {X} (e : Graphical.dialogE X) : agentE X
  | InstantNow : agentE Z
  | Sleep (ms : Z) : agentE unit
  | LockTpm : agentE (result unit (option signer))
  | TpmConnect : agentE (result TpmError signer)
  | TpmSign (self : signer) (key : TpmObject) (algorithm : KeyAlgorithm) (digest : bytes)
      (authorization : TpmAuthorization) : agentE (result TpmError bytes)
  | SystemTime : agentE (option Z)
  | HistoryAppend (entry : History.HistoryEntry) : agentE (result bytes unit)
  | Eprintln (line : bytes) : agentE unit.

Definition on_dialog {A} : prog Graphical.dialogE A -> prog agentE A := lift (fun X => Dialog).

(** [RequestCancellation::check]. *)
Definition DISCONNECTED : bytes := str "SSH client disconnected".
Definition check : prog agentE (result bytes unit) :=
  cancelled ← trigger Check;
  if (cancelled : bool) then Ret (Err DISCONNECTED) else Ret (Ok tt).

(** The loop of [request_pin], in the parts of its body; [again] is the rest of the loop. *)
Definition give_up_or (deadline : Z) (graphical_authorizer : bool) (again : prog agentE loop_result) :
    prog agentE loop_result :=
  now ← trigger InstantNow;
  if deadline <=? now then Ret (Some (Err TIMED_OUT, graphical_authorizer))
  else
    cancelled ← check;
    match cancelled with
    | Err _ => Ret (Some (Err CLIENT_GONE, graphical_authorizer))
    | _ => _ ← trigger (Sleep 50); again
    end.

(** [graphical_authorizer] after [try_wait], if there is a child. *)
Definition still_there (graphical_authorizer : bool) : prog agentE bool :=
  if (graphical_authorizer : bool) then ended ← on_dialog Graphical.has_ended; Ret (negb ended) else Ret false.

(** [None] is running out of [fuel]. *)
Fixpoint wait_for_pin (fuel : nat) (ch deadline : Z) (graphical_authorizer : bool) : prog agentE loop_result :=
  match fuel with
  | O => Ret None
  | S fuel =>
      received ← trigger (TryRecv ch);
      match received with
      | Received pin => Ret (Some (Ok pin, graphical_authorizer))
      | Disconnected => Ret (Some (Err CANCELLED, graphical_authorizer))
      | Empty =>
          graphical_authorizer ← still_there graphical_authorizer;
          give_up_or deadline graphical_authorizer (wait_for_pin fuel ch deadline graphical_authorizer)
      end
  end.

Definition request_pin (fuel : nat) (key_name : bytes) : prog agentE (option (result bytes bytes)) :=
  inserted ← trigger (BeginRequest key_name);
  match inserted with
  | Ok (id, receiver) =>
      graphical_authorizer ← on_dialog (Graphical.start_graphical_authorizer (var_os a) id);
      now ← trigger InstantNow;
      result ← wait_for_pin fuel receiver (now + authorization_timeout a) graphical_authorizer;
      match result with
      | Some (result, graphical_authorizer) =>
          _ ← trigger (RemoveRequest receiver result);
          _ ← on_dialog (Graphical.stop_graphical_authorizer graphical_authorizer);
          _ ← trigger (DropReceiver receiver);
          Ret (Some result)
      | None => Ret None
      end
  | _ => Ret (Some (Err UNAVAILABLE))
  end.

Definition digest_of (algorithm : KeyAlgorithm) (data : bytes) : bytes :=
  match algorithm with
  | EcdsaNistP256 => Sha256 data
  | EcdsaNistP384 => Sha384 data
  end.

(** The PIN of a signature, and the authorization made of it. *)
Definition obtain_pin (fuel : nat) (key : KeyStore.StoredKey) : prog agentE (option (result bytes bytes)) :=
  match use_policy (KeyStore.summary key) with
  | NoPin => Ret (Some (Ok []))
  | TpmPin => request_pin fuel (name (KeyStore.summary key))
  end.
Definition authorization_of (key : KeyStore.StoredKey) (pin : bytes) : TpmAuthorization :=
  match use_policy (KeyStore.summary key) with
  | NoPin => AuthNone
  | TpmPin => AuthPin pin
  end.

(** [sign_with_key] after the PIN has been obtained. *)
Definition sign_authorized (key : KeyStore.StoredKey) (digest pin : bytes) :
    prog agentE (result bytes bytes) :=
  _ ←? check;
  let authorization := authorization_of key pin in
  tpm ←? map_err_prog (fun _ => str "TPM signer state is unavailable") (trigger LockTpm);
  self ←? match tpm with
          | None => map_err_prog (fun error => str "cannot open the TPM: " ++ TpmError_display error)
                      (trigger TpmConnect)
          | Some self => Ret (Ok self)
          end;
  signature ←? map_err_prog (fun error => str "TPM signing failed: " ++ TpmError_display error)
    (trigger (TpmSign self (KeyStore.object key) (algorithm (KeyStore.summary key)) digest authorization));
  _ ←? check;
  Ret (map_err ProtocolError_display
    (ecdsa_signature_response (algorithm (KeyStore.summary key)) signature)).

Definition sign_with_key (fuel : nat) (key : KeyStore.StoredKey) (data : bytes) :
    prog agentE (option (result bytes bytes)) :=
  let digest := digest_of (algorithm (KeyStore.summary key)) data in
  pin ← obtain_pin fuel key;
  match pin with
  | Some (Ok pin) => r ← sign_authorized key digest pin; Ret (Some r)
  | Some (Err error) => Ret (Some (Err error))
  | Some Panic => Ret (Some Panic)
  | None => Ret None
  end.

Definition history_entry (key : KeyStore.StoredKey) (timestamp_seconds : Z)
    (outcome : History.HistoryOutcome) : History.HistoryEntry :=
  History.mkHistoryEntry timestamp_seconds (id (KeyStore.summary key)) (name (KeyStore.summary key))
    (use_policy (KeyStore.summary key)) outcome.

(** A failure to record is only reported. *)
Definition record_history (key : KeyStore.StoredKey) (outcome : History.HistoryOutcome) :
    prog agentE (result bytes unit) :=
  if negb (history_enabled a) then Ret (Ok tt)
  else
    now ← trigger SystemTime;
    let timestamp_seconds := match now with Some seconds => seconds | None => 0 end in
    r ← trigger (HistoryAppend (history_entry key timestamp_seconds outcome));
    match r with
    | Ok _ => Ret (Ok tt)
    | Err error =>
        _ ← trigger (Eprintln (str "keyvisor-agent: could not record signing history: " ++ error));
        Ret (Ok tt)
    | Panic => Ret Panic
    end.

Definition find_key (public_key0 : bytes) (keys : list KeyStore.StoredKey) : option KeyStore.StoredKey :=
  head (filter (fun key => public_key (KeyStore.summary key) = public_key0) keys).

Definition handle (fuel : nat) (packet : bytes) : prog agentE (option (result bytes bytes)) :=
  c ← check;
  match c with
  | Ok _ =>
      match map_err ProtocolError_display (parse_request packet) with
      | Ok RequestIdentities =>
          keys ← map_err_prog KeyStore.StoreError_display (trigger StoreList);
          match keys with
          | Ok keys => Ret (Some (map_err ProtocolError_display
                         (identities_response (KeyStore.summary <$> keys))))
          | Err error => Ret (Some (Err error))
          | Panic => Ret (Some Panic)
          end
      | Ok (Sign public_key data flags) =>
          if negb (flags =? 0) then Ret (Some (Err (str "unsupported SSH signature flags")))
          else
            keys ← map_err_prog KeyStore.StoreError_display (trigger StoreList);
            match keys with
            | Ok keys =>
                match find_key public_key keys with
                | Some key =>
                    result ← sign_with_key fuel key data;
                    match result with
                    | Some Panic => Ret (Some Panic)
                    | Some result =>
                        recorded ← record_history key
                          (if is_ok result then History.Succeeded else History.Failed);
                        match recorded with
                        | Panic => Ret (Some Panic)
                        | _ => Ret (Some result)
                        end
                    | None => Ret None
                    end
                | None => Ret (Some (Err (str "requested identity is unknown")))
                end
            | Err error => Ret (Some (Err error))
            | Panic => Ret (Some Panic)
            end
      | Err error => Ret (Some (Err error))
      | Panic => Ret (Some Panic)
      end
  | Err error => Ret (Some (Err error))
  | Panic => Ret (Some Panic)
  end.

(** The body of the loop of [serve_connection]: any error is the failure response. *)
Definition respond (outcome : result bytes bytes) : result ProtocolError bytes :=
  match outcome with Ok response => Ok response | _ => failure_response end.

(** ** The environment of a request thread *)

(** An append to the history: the entry, the files before, the answer, the files after. *)
Record append_call := mkAppend {
  ap_entry : History.HistoryEntry;
  ap_before : fs;
  ap_result : result bytes unit;
  ap_after : fs;
}.

(** What the threads share, the cancellation flag of this request, and what it has done
    so far: its broker channel, its TPM commands and their answers, the answers of the
    key store, its appends to the history, the broker's events, its dialog, and what it
    printed. *)
Record world := mkWorld {
  files : fs;
  shared : broker;
  tpm_state : TS;
  tpm_slot : option signer;
  cancelled : bool;
  channel : option Z;
  calls : list (TpmObject * KeyAlgorithm * bytes * TpmAuthorization);
  signatures : list (result TpmError bytes);
  answers : list (list KeyStore.StoredKey);
  recorded : list append_call;
  events : list event;
  desktop : Graphical.desktop;
  std_err : list bytes;
}.

(** Before an operation the other threads and processes run: they move the broker, change
    the files, use the TPM, and the client may leave.  The rest are the faults of the operation. *)
Record interference := mkInterference {
  others : list event;
  new_files : option fs;
  new_tpm : option (TS * option signer);
  disconnected : bool;
  fs_choices : list choice;
  tpm_choices : list TV;
  poisoned : bool;
  wall_clock : option Z;
  dialog : Graphical.circumstance;
}.
Definition alone : interference := mkInterference [] None None false [] [] false (Some 0) Graphical.undisturbed.

Definition set_shared (w : world) (s : broker) (es : list event) : world :=
  mkWorld (files w) s (tpm_state w) (tpm_slot w) (cancelled w) (channel w) (calls w) (signatures w)
    (answers w) (recorded w) (events w ++ es) (desktop w) (std_err w).
Definition set_files (w : world) (f : fs) : world :=
  mkWorld f (shared w) (tpm_state w) (tpm_slot w) (cancelled w) (channel w) (calls w) (signatures w)
    (answers w) (recorded w) (events w) (desktop w) (std_err w).
Definition set_tpm (w : world) (t : TS) (slot : option signer) : world :=
  mkWorld (files w) (shared w) t slot (cancelled w) (channel w) (calls w) (signatures w)
    (answers w) (recorded w) (events w) (desktop w) (std_err w).
Definition set_cancelled (w : world) (b : bool) : world :=
  mkWorld (files w) (shared w) (tpm_state w) (tpm_slot w) b (channel w) (calls w) (signatures w)
    (answers w) (recorded w) (events w) (desktop w) (std_err w).
Definition set_channel (w : world) (ch : Z) : world :=
  mkWorld (files w) (shared w) (tpm_state w) (tpm_slot w) (cancelled w) (Some ch) (calls w) (signatures w)
    (answers w) (recorded w) (events w) (desktop w) (std_err w).
Definition add_call (w : world) (call : TpmObject * KeyAlgorithm * bytes * TpmAuthorization)
    (r : result TpmError bytes) : world :=
  mkWorld (files w) (shared w) (tpm_state w) (tpm_slot w) (cancelled w) (channel w) (calls w ++ [call])
    (signatures w ++ [r]) (answers w) (recorded w) (events w) (desktop w) (std_err w).
Definition add_answer (w : world) (keys : list KeyStore.StoredKey) : world :=
  mkWorld (files w) (shared w) (tpm_state w) (tpm_slot w) (cancelled w) (channel w) (calls w) (signatures w)
    (answers w ++ [keys]) (recorded w) (events w) (desktop w) (std_err w).
Definition set_desktop (w : world) (d : Graphical.desktop) : world :=
  mkWorld (files w) (shared w) (tpm_state w) (tpm_slot w) (cancelled w) (channel w) (calls w) (signatures w)
    (answers w) (recorded w) (events w) d (std_err w).
Definition add_record (w : world) (c : append_call) : world :=
  mkWorld (files w) (shared w) (tpm_state w) (tpm_slot w) (cancelled w) (channel w) (calls w) (signatures w)
    (answers w) (recorded w ++ [c]) (events w) (desktop w) (std_err w).
Definition print_err (w : world) (line : bytes) : world :=
  mkWorld (files w) (shared w) (tpm_state w) (tpm_slot w) (cancelled w) (channel w) (calls w) (signatures w)
    (answers w) (recorded w) (events w) (desktop w) (std_err w ++ [line]).

(** The events of other threads: only this one polls and finishes its request. *)
Definition foreign (ch : option Z) (e : event) : bool :=
  match ch with Some ch => negb (owned ch e) | None => true end.

Definition interfere (v : interference) (w : world) : world :=
  let w := match steps (shared w) (filter (fun e => foreign (channel w) e = true) (others v)) with
           | Some s => set_shared w s (filter (fun e => foreign (channel w) e = true) (others v))
           | None => w
           end in
  let w := match new_files v with Some f => set_files w f | None => w end in
  let w := match new_tpm v with Some (t, slot) => set_tpm w t slot | None => w end in
  if disconnected v then set_cancelled w true else w.

Definition own_step (w : world) (e : event) : world :=
  match step (shared w) e with
  | Some s => set_shared w s [e]
  | None => w
  end.

Definition agent_exec {X} (v : interference) (w : world) (e : agentE X) : X * world :=
  match e in agentE X return X * world with
  | Check => (cancelled w, w)
  | StoreList =>
      let '(r, f) := run FileSystem.calm (KeyStore.KeyStore_list (store a)) (fs_choices v) (files w) in
      (r, let w := set_files w f in match r with Ok keys => add_answer w keys | _ => w end)
  | BeginRequest key_name =>
      let w' := own_step w (Begin key_name) in
      if lock_poisoned (shared w) then (Err tt, w')
      else (Ok (request_id (process_id (shared w)) (NEXT_REQUEST_ID (shared w)), started (shared w)),
            set_channel w' (started (shared w)))
  | TryRecv ch =>
      (match requests (shared w) !! ch with Some r => try_recv (shared w) ch r | None => Disconnected end,
       own_step w (Recv ch))
  | RemoveRequest ch outcome => (tt, own_step w (Remove ch outcome))
  | DropReceiver ch => (tt, own_step w (Finish ch))
  | Dialog e => let '(x, d) := Graphical.dialog_exec (dialog v) (desktop w) e in (x, set_desktop w d)
  | InstantNow => (clock (shared w), w)
  | Sleep ms => (tt, own_step w (Tick ms))
  | LockTpm => if poisoned v then (Err tt, w) else (Ok (tpm_slot w), w)
  | TpmConnect =>
      let '(r, t) := run tpm_calm tpm_connect (tpm_choices v) (tpm_state w) in
      (r, set_tpm w t (match r with Ok self => Some self | _ => tpm_slot w end))
  | TpmSign self key algorithm digest authorization =>
      let '(r, t) := run tpm_calm (tpm_sign self key algorithm digest authorization) (tpm_choices v) (tpm_state w) in
      (r, add_call (set_tpm w t (tpm_slot w)) (key, algorithm, digest, authorization) r)
  | SystemTime => (wall_clock v, w)
  | HistoryAppend entry =>
      if poisoned v then
        let r := Err (str "signing history state is unavailable") in (r, add_record w (mkAppend entry (files w) r (files w)))
      else
        let '(r, f) := run FileSystem.calm (History.HistoryStore_append (history a) (agent_pid a) entry)
          (fs_choices v) (files w) in
        let r := map_err History.HistoryError_display r in
        (r, add_record (set_files w f) (mkAppend entry (files w) r f))
  | Eprintln line => (tt, print_err w line)
  end.

Definition agent_handler : Handler agentE world interference := fun X v w e => agent_exec v (interfere v w) e.

(** ** What a request does to the world *)

(** [w'] comes after [w] by broker events that satisfy [P], and nothing else is logged. *)
Record extends (P : event -> Prop) (w w' : world) : Prop := {
  ext_channel : channel w' = channel w;
  ext_calls : calls w' = calls w;
  ext_signatures : signatures w' = signatures w;
  ext_answers : answers w' = answers w;
  ext_recorded : recorded w' = recorded w;
  ext_std_err : std_err w' = std_err w;
  ext_events : exists es, events w' = events w ++ es /\ steps (shared w) es = Some (shared w') /\ Forall P es;
}.

Lemma extends_refl P w : extends P w w.
Proof. split; try done. exists []. rewrite app_nil_r. by split_and!. Qed.

Lemma extends_trans P w1 w2 w3 : extends P w1 w2 -> extends P w2 w3 -> extends P w1 w3.
Proof.
  intros [? ? ? ? ? ? (es & He & Hs & Hp)] [? ? ? ? ? ? (es' & He' & Hs' & Hp')].
  split; try congruence. exists (es ++ es'). split_and!.
  - by rewrite He', He, app_assoc.
  - by rewrite steps_app, Hs.
  - by apply Forall_app.
Qed.

Lemma extends_mono (P P' : event -> Prop) w w' : (forall e, P e -> P' e) -> extends P w w' -> extends P' w w'.
Proof.
  intros HP [? ? ? ? ? ? (es & ? & ? & ?)]. split; try done. exists es. split_and!; [done..|].
  by eapply Forall_impl.
Qed.

(** Anything that leaves the broker and the logs alone. *)
Lemma extends_same P w w' :
  shared w' = shared w -> events w' = events w -> channel w' = channel w -> calls w' = calls w ->
  signatures w' = signatures w -> answers w' = answers w -> recorded w' = recorded w -> std_err w' = std_err w -> extends P w w'.
Proof. intros Hs He. split; try done. exists []. rewrite app_nil_r, He, Hs. by split_and!. Qed.

Lemma extends_shared (P : event -> Prop) w s es :
  steps (shared w) es = Some s -> Forall P es -> extends P w (set_shared w s es).
Proof. intros Hs Hp. split; try done. by exists es. Qed.

Lemma extends_own (P : event -> Prop) w e : P e -> extends P w (own_step w e).
Proof.
  intros HP. unfold own_step. destruct (step (shared w) e) as [s|] eqn:Hs; [|apply extends_refl].
  apply extends_shared; [cbn; by rewrite Hs|by constructor].
Qed.

Lemma interfere_extends v w : extends (fun e => foreign (channel w) e = true) w (interfere v w).
Proof.
  unfold interfere. set (es := filter _ _).
  eapply (extends_trans _ _ (match steps (shared w) es with Some s => set_shared w s es | None => w end)).
  - destruct (steps (shared w) es) as [s|] eqn:Hs; [|apply extends_refl].
    apply extends_shared; [done|]. apply Forall_forall. intros e [He _]%list_elem_of_filter. done.
  - set (w1 := match steps _ _ with Some s => _ | None => _ end).
    destruct (new_files v), (new_tpm v) as [[? ?]|], (disconnected v); by apply extends_same.
Qed.

(** The operations of a request that has its PIN, or needs none. *)
Definition after_pin X (e : agentE X) : Prop :=
  match e with
  | Check | LockTpm | TpmConnect | TpmSign _ _ _ _ _ | SystemTime | HistoryAppend _ | Eprintln _ => True
  | _ => False
  end.

Lemma check_after : every after_pin check.
Proof. split; [done|]. by intros []. Qed.

Lemma sign_after key digest pin : every after_pin (sign_authorized key digest pin).
Proof.
  unfold sign_authorized. apply every_try; [exact check_after|]. intros _.
  apply every_try; [by apply every_map_err|]. intros tpm.
  apply every_try; [destruct tpm; [done|by apply every_map_err]|]. intros self.
  apply every_try; [by apply every_map_err|]. intros signature. by apply every_try; [exact check_after|].
Qed.

Lemma record_after key outcome : every after_pin (record_history key outcome).
Proof.
  unfold record_history. destruct (negb _); [done|]. split; [done|]. intros now. split; [done|]. by intros [].
Qed.

Section Executions.
#[local] Instance the_handler : Handler agentE world interference := agent_handler.

Lemma safe_op_bind {X A} (I : world -> Prop) (e : agentE X) (f : X -> prog agentE A) Q w :
  I w ->
  (forall v, safe I (f (fst (agent_exec v (interfere v w) e))) Q (snd (agent_exec v (interfere v w) e))) ->
  safe I (trigger e ≫= f) Q w.
Proof. intros HI H. apply safe_bind, safe_vis; [done|]. intros v. apply safe_ret; [|apply H].
  specialize (H v). by apply safe_here in H. Qed.

(** Operations that log nothing and move the broker at most. *)
Definition plain {X} (e : agentE X) : bool :=
  match e with StoreList | BeginRequest _ | TpmSign _ _ _ _ _ | HistoryAppend _ | Eprintln _ => false | _ => true end.

Lemma exec_plain {X} v w (e : agentE X) :
  plain e = true -> extends (fun _ => True) w (snd (agent_exec v (interfere v w) e)).
Proof.
  intros He. eapply extends_trans; [eapply extends_mono, (interfere_extends v w); done|].
  set (w1 := interfere v w). destruct e; try done; cbn [agent_exec snd];
    try apply extends_refl; try by apply extends_own.
  - destruct (Graphical.dialog_exec _ _ _). by apply extends_same.
  - destruct (poisoned v); apply extends_refl.
  - destruct (run tpm_calm tpm_connect (tpm_choices v) (tpm_state w1)) as [r t]. by apply extends_same.
Qed.

(** *** The audit of a signature request *)

(** The broker events before the request. *)
Context (es0 : list event) (packet : bytes).

Definition traced (w : world) : Prop :=
  exists pid, steps (broker_init pid) (es0 ++ events w) = Some (shared w).

(** The key and the data of a signature request, given what the store answered. *)
Definition requested (w : world) : option (KeyStore.StoredKey * bytes) :=
  match parse_request packet, answers w with
  | Ok (Sign public_key data flags), [keys] =>
      if flags =? 0 then key ← find_key public_key keys; Some (key, data) else None
  | _, _ => None
  end.

(** The request's own channel, made for [key_name]. *)
Definition asked (w : world) (key_name : bytes) : Prop :=
  exists ch r, channel w = Some ch /\ begun (shared w) ch r /\ rq_key_name r = key_name.

(** The PIN was submitted by a control connection under the identifier of the broker
    request that this very signature request made for [key_name]. *)
Definition pin_entered (w : world) (key_name pin : bytes) : Prop :=
  exists ch r, channel w = Some ch /\ begun (shared w) ch r /\ rq_key_name r = key_name /\
    (started (shared w) <= 2 ^ 64 -> authorized (es0 ++ events w) (rq_id r) pin).

(** The TPM has not been asked to sign, or exactly once: for the requested key, the
    digest of the requested data, and the authorization the key's policy demands. *)
Definition audited (w : world) : Prop :=
  traced w /\
  ((calls w = [] /\ signatures w = []) \/
   exists key data authorization signature,
     requested w = Some (key, data) /\
     calls w = [(KeyStore.object key, algorithm (KeyStore.summary key),
                 match algorithm (KeyStore.summary key) with
                 | EcdsaNistP256 => Sha256 data
                 | EcdsaNistP384 => Sha384 data
                 end, authorization)] /\
     signatures w = [signature] /\
     match use_policy (KeyStore.summary key) with
     | NoPin => authorization = AuthNone
     | TpmPin => exists pin, authorization = AuthPin pin /\
         pin_entered w (name (KeyStore.summary key)) pin
     end).

(** Before any signature, with the store's answers so far. *)
Record unsigned (answers0 : list (list KeyStore.StoredKey)) (w : world) : Prop := {
  un_traced : traced w;
  un_calls : calls w = [];
  un_signatures : signatures w = [];
  un_recorded : recorded w = [];
  un_std_err : std_err w = [];
  un_answers : answers w = answers0;
}.

Lemma traced_steps w w' es :
  traced w -> events w' = events w ++ es -> steps (shared w) es = Some (shared w') -> traced w'.
Proof.
  intros [pid H] He Hs. exists pid. by rewrite He, app_assoc, steps_app, H.
Qed.

Lemma traced_extends P w w' : extends P w w' -> traced w -> traced w'.
Proof. intros [_ _ _ _ _ _ (es & He & Hs & _)] Ht. by eapply traced_steps. Qed.

Lemma asked_extends P w w' n : extends P w w' -> asked w n -> asked w' n.
Proof.
  intros [Hc _ _ _ _ _ (es & He & Hs & _)] (ch & r & Hch & Hr & <-).
  destruct (begun_steps _ _ _ _ _ Hs Hr) as (r' & Hr' & (_ & Hn) & _).
  exists ch, r'. split_and!; [congruence|done|done].
Qed.

Lemma pin_entered_extends P w w' n pin : extends P w w' -> pin_entered w n pin -> pin_entered w' n pin.
Proof.
  intros [Hc _ _ _ _ _ (es & He & Hs & _)] (ch & r & Hch & Hr & <- & Ha).
  destruct (begun_steps _ _ _ _ _ Hs Hr) as (r' & Hr' & (Hid & Hn) & _).
  exists ch, r'. split_and!; [congruence|done..|]. intros Hb. pose proof (steps_started _ _ _ Hs).
  destruct Ha as [conn Ha]; [lia|]. exists conn. rewrite He, Hid, app_assoc. apply elem_of_app. by left.
Qed.

Lemma audited_extends P w w' : extends P w w' -> audited w -> audited w'.
Proof.
  intros H [Ht Hl]. split; [by eapply traced_extends|]. pose proof H as [_ Hc Hs Ha _ _ _].
  rewrite Hc, Hs. destruct Hl as [?|(key & data & auth & sig & Hr & ? & ? & Hp)]; [by left|right].
  exists key, data, auth, sig. unfold requested. rewrite Ha. split_and!; [done..|].
  destruct (use_policy _); [done|]. destruct Hp as (pin & Hpin & He). exists pin. split; [done|].
  by eapply pin_entered_extends.
Qed.

Lemma unsigned_extends P l w w' : extends P w w' -> unsigned l w -> unsigned l w'.
Proof.
  intros H [Ht ? ? ? ? ?]. pose proof H as [? ? ? ? ? ? _]. split; try congruence. by eapply traced_extends.
Qed.

Lemma unsigned_audited l w : unsigned l w -> audited w.
Proof. intros [? ? ? ? ? ?]. split; auto. Qed.

(** A plain operation keeps whatever [extends] keeps. *)
Lemma safe_plain {X A} (J : world -> Prop) (e : agentE X) (f : X -> prog agentE A) Q w :
  plain e = true -> (forall P w w', extends P w w' -> J w -> J w') -> (forall w, J w -> audited w) ->
  J w -> (forall x w', J w' -> safe audited (f x) Q w') ->
  safe audited (trigger e ≫= f) Q w.
Proof.
  intros He Hx Ha HJ H. apply safe_op_bind; [auto|]. intros v. apply H.
  eapply Hx, HJ. by apply exec_plain.
Qed.

Lemma safe_dialog {A B} (J : world -> Prop) (p : prog Graphical.dialogE A) (f : A -> prog agentE B) Q w :
  (forall P w w', extends P w w' -> J w -> J w') -> (forall w, J w -> audited w) ->
  J w -> (forall x w', J w' -> safe audited (f x) Q w') ->
  safe audited (on_dialog p ≫= f) Q w.
Proof.
  intros Hx Ha HJ H. revert w HJ. induction p as [x|X e k IH]; intros w HJ; [by apply H|].
  by apply (safe_plain J (Dialog e)).
Qed.

(** What [try_recv] gives was submitted for the request. *)
Lemma received_pin w ch r pin :
  traced w -> channel w = Some ch -> begun (shared w) ch r -> try_recv (shared w) ch r = Received pin ->
  pin_entered w (rq_key_name r) pin.
Proof.
  intros [pid Ht] Hc Hr Hp. exists ch, r. split_and!; [done..|]. intros Hb.
  assert (reachable (es0 ++ events w) (shared w)) as Hre%reachable_sourced by (by exists pid).
  destruct Hr as [Hr _]. apply (src_request _ _ Hre ch r pin Hr). left. unfold try_recv in Hp.
  destruct (rq_channel r); [congruence|]. by destruct (sender_alive _ _).
Qed.

(** The loop of the request for [n] on the channel [ch]. *)
Definition looping l ch n w : Prop := unsigned l w /\ channel w = Some ch /\ asked w n.

Lemma looping_extends P l ch n w w' : extends P w w' -> looping l ch n w -> looping l ch n w'.
Proof.
  intros H (? & Hc & ?). split_and!; [by eapply unsigned_extends| |by eapply asked_extends].
  by rewrite (ext_channel _ _ _ H).
Qed.

Lemma looping_audited l ch n w : looping l ch n w -> audited w.
Proof. intros (? & _). by eapply unsigned_audited. Qed.

Definition waited l n (x : loop_result) w : Prop :=
  unsigned l w /\ match x with Some (Ok pin, _) => pin_entered w n pin | _ => True end.

Lemma give_up_audited l ch n deadline child (again : prog agentE loop_result) w :
  looping l ch n w -> (forall w, looping l ch n w -> safe audited again (waited l n) w) ->
  safe audited (give_up_or deadline child again) (waited l n) w.
Proof.
  intros Hw Hagain.
  assert (forall e w, looping l ch n w -> safe audited (Ret (Some (Err e, child))) (waited l n) w) as Hret.
  { intros e w1 H. apply safe_ret; [by eapply looping_audited|]. by split; [apply H|]. }
  apply (safe_plain (looping l ch n)); [done|by intros; eapply looping_extends|apply looping_audited|done|].
  intros now w1 H1. destruct (deadline <=? now); [by apply Hret|]. apply safe_bind.
  apply (safe_plain (looping l ch n)); [done|by intros; eapply looping_extends|apply looping_audited|done|].
  intros [] w2 H2; (apply safe_ret; [by eapply looping_audited|]); [by apply Hret|].
  apply (safe_plain (looping l ch n)); [done|by intros; eapply looping_extends|apply looping_audited|done|].
  intros _ w3 H3. by apply Hagain.
Qed.

Lemma wait_audited l fuel ch deadline child n w :
  looping l ch n w -> safe audited (wait_for_pin fuel ch deadline child) (waited l n) w.
Proof.
  revert child w. induction fuel as [|fuel IH]; intros child w Hw; cbn [wait_for_pin].
  { apply safe_ret; [by eapply looping_audited|]. by split; [apply Hw|]. }
  apply safe_op_bind; [by eapply looping_audited|]. intros v.
  pose proof (looping_extends _ _ _ _ _ _ (interfere_extends v w) Hw) as H1.
  cbn [agent_exec fst snd]. set (w1 := interfere v w) in *.
  pose proof H1 as (Hu & Hc & (ch' & r & Hc' & Hr & Hn)). assert (ch' = ch) as -> by congruence.
  pose proof (extends_own (fun _ => True) w1 (Recv ch) I) as Hx.
  pose proof (looping_extends _ _ _ _ _ _ Hx H1) as H2. rewrite (proj1 Hr).
  destruct (try_recv (shared w1) ch r) as [pin| |] eqn:Er.
  - apply safe_ret; [by eapply looping_audited|]. split; [apply H2|]. rewrite <- Hn.
    eapply pin_entered_extends; [exact Hx|]. apply (received_pin w1 ch); [apply Hu|done..].
  - unfold still_there. destruct child; [|by apply (give_up_audited l ch); [|intros; apply IH]].
    apply safe_bind, (safe_dialog (looping l ch n)); [by intros; eapply looping_extends|apply looping_audited|done|].
    intros ended w3 H3. apply safe_ret; [by eapply looping_audited|]. by apply (give_up_audited l ch); [|intros; apply IH].
  - apply safe_ret; [by eapply looping_audited|]. by split; [apply H2|].
Qed.

Lemma begin_audited l n w v :
  unsigned l w ->
  let '(r, w') := agent_exec v (interfere v w) (BeginRequest n) in
  unsigned l w' /\ match r with Ok (_, ch) => looping l ch n w' | _ => True end.
Proof.
  intros Hu. pose proof (unsigned_extends _ l _ _ (interfere_extends v w) Hu) as H1.
  set (w1 := interfere v w) in *. cbn [agent_exec].
  pose proof (unsigned_extends _ l _ _ (extends_own (fun _ => True) w1 (Begin n) I) H1) as H2.
  destruct (lock_poisoned (shared w1)) eqn:El; [by split|].
  assert (unsigned l (set_channel (own_step w1 (Begin n)) (started (shared w1)))) as H3 by by destruct H2.
  split; [done|]. split_and!; [done|done|]. eexists (started (shared w1)), _. split_and!; [done| |].
  - unfold begun, own_step, begin_request. cbn [step]. unfold begin_request. rewrite El. cbn.
    split; [by rewrite lookup_insert_eq|lia].
  - done.
Qed.

Lemma obtain_audited l fuel key w :
  unsigned l w ->
  safe audited (obtain_pin fuel key)
    (fun x w' => unsigned l w' /\
       match x with
       | Some (Ok pin) => use_policy (KeyStore.summary key) = TpmPin ->
           pin_entered w' (name (KeyStore.summary key)) pin
       | _ => True
       end) w.
Proof.
  intros Hu. unfold obtain_pin. destruct (use_policy (KeyStore.summary key)) eqn:Ep.
  { apply safe_ret; [by eapply unsigned_audited|]. by split. }
  apply safe_op_bind; [by eapply unsigned_audited|]. intros v.
  pose proof (begin_audited l (name (KeyStore.summary key)) w v Hu) as H.
  destruct (agent_exec v (interfere v w) (BeginRequest _)) as [r w1]. cbn [fst snd]. destruct H as [H1 Hl].
  destruct r as [[id ch]|[]|]; [|by apply safe_ret; [eapply unsigned_audited|]..].
  set (n := name (KeyStore.summary key)) in *.
  apply (safe_dialog (looping l ch n)); [by intros; eapply looping_extends|apply looping_audited|done|].
  intros child w2 H2. apply (safe_plain (looping l ch n)); [done|by intros; eapply looping_extends|apply looping_audited|done|].
  intros now w3 H3. apply safe_bind. eapply safe_mono; [done| |by apply wait_audited].
  intros [[result child']|] w4 H4; [|by apply safe_ret; [eapply unsigned_audited|]; apply H4].
  assert (forall P w w', extends P w w' -> waited l n (Some (result, child')) w -> waited l n (Some (result, child')) w') as Hx.
  { intros P w5 w6 H56 [? ?]. split; [by eapply unsigned_extends|]. destruct result; [by eapply pin_entered_extends|done..]. }
  assert (forall w, waited l n (Some (result, child')) w -> audited w) as Ha by (intros w5 [? _]; by eapply unsigned_audited).
  apply (safe_plain (waited l n (Some (result, child')))); [done..|]. intros _ w5 H5.
  apply (safe_dialog (waited l n (Some (result, child')))); [done..|]. intros _ w6 H6.
  apply (safe_plain (waited l n (Some (result, child')))); [done..|]. intros _ w7 [H7 Hp7].
  apply safe_ret; [by eapply unsigned_audited|]. split; [done|]. by destruct result.
Qed.

(** Failing in a state that satisfies [J]. *)
Lemma check_audited (J : world -> Prop) w :
  (forall P w w', extends P w w' -> J w -> J w') -> (forall w, J w -> audited w) -> J w ->
  safe audited check (fun _ w' => J w') w.
Proof.
  intros Hx Ha HJ. apply (safe_plain J); [done..|]. intros [] w' ?; (apply safe_ret; [by apply Ha|done]).
Qed.

(** What [sign_with_key] leaves: at most one signature, and a response only from it. *)
Definition signed (l : list (list KeyStore.StoredKey)) (key : KeyStore.StoredKey)
    (r : result bytes bytes) (w : world) : Prop :=
  audited w /\ recorded w = [] /\ std_err w = [] /\ answers w = l /\
  match r with
  | Ok response => exists signature, signatures w = [Ok signature] /\
      ecdsa_signature_response (algorithm (KeyStore.summary key)) signature = Ok response
  | _ => True
  end.

Lemma unsigned_signed l key r w : unsigned l w -> (forall x, r <> Ok x) -> signed l key r w.
Proof.
  intros Hu Hr. split; [by eapply unsigned_audited|]. destruct Hu. split_and!; [done..|].
  destruct r; [by destruct (Hr a0)|done..].
Qed.

Lemma sign_audited l key data pin w :
  requested w = Some (key, data) -> unsigned l w ->
  (use_policy (KeyStore.summary key) = TpmPin -> pin_entered w (name (KeyStore.summary key)) pin) ->
  safe audited
    (sign_authorized key (digest_of (algorithm (KeyStore.summary key)) data) pin)
    (signed l key) w.
Proof.
  intros Hreq Hu Hp. unfold sign_authorized.
  set (J := fun w => requested w = Some (key, data) /\ unsigned l w /\
    (use_policy (KeyStore.summary key) = TpmPin -> pin_entered w (name (KeyStore.summary key)) pin)).
  assert (forall P w w', extends P w w' -> J w -> J w') as HJx.
  { intros P w1 w2 Hx (H1 & H2 & H3). split_and!.
    - unfold requested. by rewrite (ext_answers _ _ _ Hx).
    - by eapply unsigned_extends.
    - intros ?. eapply pin_entered_extends, H3; done. }
  assert (forall w, J w -> audited w) as HJa by (intros w1 (_ & ? & _); by eapply unsigned_audited).
  assert (forall w (r : result bytes bytes), J w -> (forall x, r <> Ok x) -> audited w /\ signed l key r w) as HJf.
  { intros w1 r H Hr. split; [by apply HJa|]. apply unsigned_signed; [apply H|done]. }
  assert (J w) as HJ by done.
  assert (forall w t o sig, J w ->
    let w' := add_call (set_tpm w t o) (KeyStore.object key, algorithm (KeyStore.summary key),
      digest_of (algorithm (KeyStore.summary key)) data, authorization_of key pin) sig in
    audited w' /\ recorded w' = [] /\ std_err w' = [] /\ answers w' = l /\ signatures w' = [sig]) as HJc.
  { intros w1 t o sig (H1 & [Ht Hc Hs Hr He Ha] & H3). cbn. split_and!; [|done|done|done|by rewrite Hs].
    split; [done|]. right. exists key, data, (authorization_of key pin), sig. cbn. rewrite Hc, Hs.
    split_and!; [done..|]. unfold authorization_of. destruct (use_policy (KeyStore.summary key)); [done|].
    exists pin. split; [done|]. by apply H3. }
  clearbody J.
  apply safe_try. eapply safe_mono; [| |by apply (check_audited J)]; [done|].
  intros [_|e|] w1 H1; [|by apply HJf..].
  apply safe_try, safe_map_err. apply (safe_plain J); [done..|].
  intros [tpm|e|] w2 H2; cbn [map_err]; (apply safe_ret; [by apply HJa|]); (split; [by apply HJa|]); [|by apply HJf..].
  apply safe_try. eapply (safe_mono audited _ _ (fun _ w => J w)); [done| |].
  2: { destruct tpm; [by apply safe_ret; [apply HJa|]|]. apply safe_map_err, (safe_plain J); [done..|].
       intros r w3 H3. apply safe_ret; [by apply HJa|]. split; [by apply HJa|done]. }
  intros [self|e|] w3 H3; [|by apply HJf..].
  apply safe_try, safe_map_err, safe_op_bind; [by apply HJa|]. intros v.
  assert (J (interfere v w3)) as H4 by (eapply HJx, H3; apply interfere_extends).
  set (w4 := interfere v w3) in *. cbn [agent_exec].
  destruct (run tpm_calm _ (tpm_choices v) (tpm_state w4)) as [sig t]. cbn [fst snd].
  destruct (HJc w4 t (tpm_slot w4) sig H4) as (H5 & Hr5 & He5 & Ha5 & Hs5). set (w5 := add_call _ _ _) in *.
  apply safe_ret; [done|]. split; [done|].
  destruct sig as [sig|e|]; cbn [map_err]; [|by split_and!..].
  apply safe_try. eapply safe_mono; [| |apply (check_audited (fun w =>
    audited w /\ recorded w = [] /\ std_err w = [] /\ answers w = l /\ signatures w = [Ok sig]))]; [done| |..].
  - intros r w6 (H6 & Hr6 & He6 & Ha6 & Hs6). destruct r as [u|e|]; [|split; [done|]; by split_and!..].
    apply safe_ret; [done|]. split_and!; [done..|].
    destruct (ecdsa_signature_response _ sig) as [resp|e|] eqn:He; cbn [map_err]; [|done..]. by exists sig.
  - intros P w6 w7 Hx (H6 & Hr6 & He6 & Ha6 & Hs6). destruct Hx as [? ? Hsx Hax Hrx Hex ?] eqn:Ex.
    split_and!; [by eapply audited_extends|congruence..].
  - tauto.
  - done.
Qed.

Lemma sign_with_key_audited l fuel key data w :
  requested w = Some (key, data) -> unsigned l w ->
  safe audited (sign_with_key fuel key data)
    (fun x w' => match x with Some r => signed l key r w' | None => audited w' end) w.
Proof.
  intros Hreq Hu. apply safe_bind. eapply safe_mono; [done| |apply (obtain_audited l), Hu].
  intros x w1 [H1 Hp]. pose proof (unsigned_audited _ _ H1).
  destruct x as [[pin|e|]|]; [|by apply safe_ret; [|apply (unsigned_signed l)]..|by apply safe_ret].
  apply safe_bind. eapply safe_mono; [done| |apply (sign_audited l)]; [| |done..].
  - intros r w2 Hr. apply safe_ret; [apply Hr|done].
  - unfold requested in *. rewrite (un_answers _ _ H1). by rewrite (un_answers _ _ Hu) in Hreq.
Qed.

(** The history file of [s] is well-formed and durable, in a directory with room for its
    temporary files, and [entry] is one that can be stored. *)
Record history_ready (s : fs) (entry : History.HistoryEntry) (dir : path) (fname : bytes) (old : option bytes)
    (hist : list History.HistoryEntry) : Prop := mk_ready {
  hr_path : History.store_path (history a) = dir ++ [fname];
  hr_dir : dir <> [];
  hr_temporary : forall attempt, History.temporary_name (agent_pid a) attempt <> fname;
  hr_wf : fs_wf s;
  hr_durable : durable_file s dir fname old;
  hr_at : History.history_at dir fname hist s;
  hr_hist : History.history_ok hist;
  hr_valid : History.entry_valid entry;
  hr_entry : History.entry_wf entry;
}.

(** What an append does to such a history: when it returned
    success, the history that is read back afterwards, even if the machine stopped at that
    moment, is the old one with the new entry; and otherwise it is this one or the old one. *)
Definition appended (c : append_call) : Prop :=
  forall dir fname old hist,
    history_ready (ap_before c) (ap_entry c) dir fname old hist ->
    forall s, crash (ap_after c) s ->
      match ap_result c with
      | Ok _ =>
          run FileSystem.calm (History.HistoryStore_list (history a)) [] s = (Ok (History.push_entry hist (ap_entry c)), s)
      | _ =>
          contents s (dir ++ [fname]) = old \/
          exists b, contents s (dir ++ [fname]) = Some b /\ History.decode b = Ok (History.push_entry hist (ap_entry c))
      end.

Lemma append_undisturbed s entry dir fname old hist k :
  history_ready s entry dir fname old hist -> (k < 100)%nat ->
  FileSystem.entries s !! (dir ++ [History.temporary_name (agent_pid a) (Z.of_nat k)]) = None ->
  fst (run FileSystem.calm (History.HistoryStore_append (history a) (agent_pid a) entry) [] s) = Ok tt.
Proof.
  intros [Hpath Hdir Htemp Hwf Hd Hat Hok Hv Hw] Hk Hfree.
  destruct (History.HistoryStore_append_calm (history a) (agent_pid a) dir fname s old hist Hpath Hdir Htemp Hwf Hd
    entry Hok Hat Hv Hw k Hk Hfree) as [s' ->]. done.
Qed.

Lemma appended_outcome entry before r after :
  reach (History.HistoryStore_append (history a) (agent_pid a) entry) before (Ret r) after ->
  appended (mkAppend entry before (map_err History.HistoryError_display r) after).
Proof.
  intros Hr dir fname old hist [Hpath Hdir Htemp Hwf Hd Hat Hok Hv Hw] s Hc. cbn [ap_entry ap_before ap_result ap_after] in *.
  pose proof (saved_atomic dir fname (History.temporary_name (agent_pid a)) before old _ _ Hwf Hd
    (History.HistoryStore_append_safe (history a) (agent_pid a) dir fname before old hist Hpath Hdir Htemp Hwf Hd entry Hok Hat Hv Hw)
    _ after s Hr Hc) as (Hdest & _ & Hdone & _).
  pose proof (History.push_entry_ok hist entry Hok Hv Hw) as Hnew.
  destruct r as [[]|e|]; cbn [map_err]; [|destruct Hdest as [?|?]; [by left|right]; eexists; (split; [done|]);
    by apply History.entry_decode_layout..].
  eapply History.HistoryStore_list_calm; [done|]. right. eexists. split; [by eapply Hdone|]. by apply History.entry_decode_layout.
Qed.

(** An append that was not even tried. *)
Lemma appended_not_tried entry s e : appended (mkAppend entry s (Err e) s).
Proof.
  intros dir fname old hist [_ _ _ Hwf Hd _ _ _ _] s' Hc. left. cbn [ap_after ap_before] in *.
  by eapply durable_contents.
Qed.

(** The operation logs what it did. *)
Lemma append_logged v w entry :
  let '(r, w') := agent_exec v w (HistoryAppend entry) in
  let c := mkAppend entry (files w) r (files w') in
  recorded w' = recorded w ++ [c] /\ appended c.
Proof.
  cbn [agent_exec]. destruct (poisoned v); [split; [done|apply appended_not_tried]|].
  pose proof (run_reach FileSystem.calm (History.HistoryStore_append (history a) (agent_pid a) entry) (fs_choices v) (files w)) as Hr.
  destruct (run _ _ _ _) as [r f]. split; [done|]. by apply appended_outcome.
Qed.

(** What a request that ended with [o] did to the history. *)
Definition not_recorded : bytes := str "keyvisor-agent: could not record signing history: ".
Definition recorded_as (o : result bytes bytes) (w : world) : Prop :=
  match requested w with
  | Some (key, _) =>
      if history_enabled a
      then exists seconds c, recorded w = [c] /\ appended c /\
        ap_entry c = history_entry key seconds (if is_ok o then History.Succeeded else History.Failed) /\
        std_err w = match ap_result c with Err error => [not_recorded ++ error] | _ => [] end
      else recorded w = [] /\ std_err w = []
  | None => recorded w = [] /\ std_err w = []
  end.

(** Where a response comes from. *)
Definition responded (o : result bytes bytes) (w : world) : Prop :=
  match o with
  | Ok response =>
      match parse_request packet with
      | Ok RequestIdentities => exists keys, answers w = [keys] /\
          identities_response (KeyStore.summary <$> keys) = Ok response
      | _ => exists key data signature, requested w = Some (key, data) /\
          signatures w = [Ok signature] /\
          ecdsa_signature_response (algorithm (KeyStore.summary key)) signature = Ok response
      end
  | _ => True
  end.

Lemma record_audited l key data o w :
  requested w = Some (key, data) -> parse_request packet <> Ok RequestIdentities ->
  signed l key o w ->
  safe audited (record_history key (if is_ok o then History.Succeeded else History.Failed))
    (fun r w' => audited w' /\ (r <> Panic -> recorded_as o w') /\ responded o w') w.
Proof.
  intros Hreq Hpk Hs. set (J := fun w => signed l key o w /\ requested w = Some (key, data)).
  assert (forall w, J w -> responded o w) as Hresp.
  { intros w1 [(_ & _ & _ & _ & H) H1]. unfold responded. destruct o as [resp| |]; [|done..].
    destruct H as (sig & Hsig & Hr).
    assert (exists key data signature, requested w1 = Some (key, data) /\
      signatures w1 = [Ok signature] /\
      ecdsa_signature_response (algorithm (KeyStore.summary key)) signature = Ok resp) by eauto 6.
    by destruct (parse_request packet) as [[]| |]; [destruct Hpk|..]. }
  assert (J w) as HJ by done. unfold record_history. destruct (history_enabled a) eqn:Een; cbn [negb]; cycle 1.
  { apply safe_ret; [apply Hs|]. split_and!; [apply Hs| |by apply (Hresp w)].
    intros _. unfold recorded_as. rewrite Hreq, Een. destruct Hs as (_ & ? & ? & _). done. }
  assert (forall P w w', extends P w w' -> J w -> J w') as HJx.
  { intros P w1 w2 Hx [(H1 & H2 & H3 & H4 & H5) H6]. pose proof Hx as [? ? Hsx Hax Hrx Hex _].
    split; [split_and!; [by eapply audited_extends|congruence..|]|unfold requested; by rewrite Hax].
    by rewrite Hsx. }
  assert (forall w, J w -> audited w) as HJa by (intros w1 [[? _] _]; done).
  apply (safe_plain J); [done..|]. intros now w1 H1.
  set (entry := history_entry _ _ _).
  apply safe_op_bind; [by apply HJa|]. intros v.
  assert (J (interfere v w1)) as H2 by (eapply HJx, H1; apply interfere_extends).
  set (w2 := interfere v w1) in *. pose proof (append_logged v w2 entry) as Hlog.
  assert (forall r f c, recorded w2 ++ [c] = recorded w2 ++ [mkAppend entry (files w2) r f] -> appended c ->
    let w' := add_record (set_files w2 f) c in audited w' /\ responded o w' /\
    forall w3, requested w3 = Some (key, data) -> recorded w3 = recorded w' ->
      std_err w3 = match r with Err error => [not_recorded ++ error] | _ => [] end -> recorded_as o w3) as Hf.
  { intros r f c [_ ->]%app_inj_tail Hap. destruct H2 as [(Ha & Hr & He & Hl & Ho) Hq]. cbn zeta. split_and!; [apply Ha|by apply (Hresp w2)|].
    intros w3 Hq3 Hr3 He3. unfold recorded_as. rewrite Hq3, Een. cbn in Hr3. rewrite Hr in Hr3. do 2 eexists. by split_and!. }
  assert (requested w2 = Some (key, data) /\ std_err w2 = []) as [Hq2 He2] by (split; apply H2).
  assert (forall error w3, audited w3 -> responded o w3 -> std_err w3 = [] ->
    (forall w4, requested w4 = requested w3 -> recorded w4 = recorded w3 -> std_err w4 = [not_recorded ++ error] -> recorded_as o w4) ->
    safe audited (_ ← trigger (Eprintln (not_recorded ++ error)); Ret (Ok tt) : prog agentE (result bytes unit))
      (fun r w' => audited w' /\ (r <> Panic -> recorded_as o w') /\ responded o w') w3) as Hprint.
  { intros error w3 Ha3 Hr3 He3 Hrec. apply safe_op_bind; [done|]. intros v3. cbn [agent_exec fst snd].
    pose proof (interfere_extends v3 w3) as Hx. assert (audited (interfere v3 w3)) as Ha4 by by eapply audited_extends.
    pose proof Hx as [_ _ Hsx Hax Hrx Hex _]. apply safe_ret; [exact Ha4|]. split_and!; [exact Ha4| |].
    - intros _. apply Hrec; [unfold requested; cbn; by rewrite Hax|exact Hrx|cbn; by rewrite Hex, He3].
    - unfold responded, requested in *. cbn. by rewrite Hsx, Hax. }
  cbn [agent_exec] in Hlog |- *. destruct (poisoned v).
  - destruct Hlog as [Hrec Hap]. destruct (Hf _ (files w2) _ Hrec Hap) as (H3 & H4 & H5). cbn [fst snd].
    apply Hprint; [exact H3|exact H4|exact He2|]. intros w4 E1 E2 E3. by apply H5; [rewrite E1|rewrite E2|].
  - destruct (run _ _ _ _) as [r f]. destruct Hlog as [Hrec Hap]. destruct (Hf _ f _ Hrec Hap) as (H3 & H4 & H5). cbn [fst snd].
    destruct r as [u|e|]; cbn [map_err] in *.
    + apply safe_ret; [done|]. split_and!; [done| |done]. intros _. by apply H5.
    + apply Hprint; [exact H3|exact H4|exact He2|]. intros w4 E1 E2 E3. by apply H5; [rewrite E1|rewrite E2|].
    + by apply safe_ret.
Qed.

(** The end of a request, when it has not panicked. *)
Definition accounted (x : option (result bytes bytes)) (w : world) : Prop :=
  match x with
  | Some Panic | None => True
  | Some o => recorded_as o w /\ responded o w
  end.

Lemma refused_accounted w e l :
  unsigned l w -> requested w = None -> accounted (Some (Err e)) w.
Proof. intros Hu Hr. split; [|done]. unfold recorded_as. rewrite Hr. split; apply Hu. Qed.

Lemma list_audited w v :
  unsigned [] w ->
  let '(r, w') := agent_exec v (interfere v w) StoreList in
  unsigned (match r with Ok keys => [keys] | _ => [] end) w'.
Proof.
  intros Hu. pose proof (unsigned_extends _ [] _ _ (interfere_extends v w) Hu) as [H1 H2 H3 H4 H5 H6].
  cbn [agent_exec]. destruct (run _ _ _ _) as [r f]. destruct r; split; try done.
  cbn. by rewrite H6.
Qed.

Lemma identities_audited w :
  parse_request packet = Ok RequestIdentities -> unsigned [] w ->
  safe audited
    (keys ← map_err_prog KeyStore.StoreError_display (trigger StoreList);
     match keys with
     | Ok keys => Ret (Some (map_err ProtocolError_display
                    (identities_response (KeyStore.summary <$> keys))))
     | Err error => Ret (Some (Err error))
     | Panic => Ret (Some Panic)
     end) (accounted) w.
Proof.
  intros Hp Hu. apply safe_bind, safe_op_bind; [by eapply unsigned_audited|]. intros v.
  pose proof (list_audited w v Hu) as H. destruct (agent_exec _ _ _) as [r w1]. cbn [fst snd].
  pose proof (unsigned_audited _ _ H) as Ha.
  assert (requested w1 = None) as Hreq by (unfold requested; by rewrite Hp).
  destruct r as [keys|e|]; cbn [map_err]; (apply safe_ret; [done|]); (apply safe_ret; [done|]);
    [|by eapply refused_accounted|done].
  destruct (identities_response _) as [resp|e|] eqn:Er; cbn [map_err];
    [|by eapply refused_accounted|done].
  split; [unfold recorded_as; rewrite Hreq; split; apply H|]. cbn. rewrite Hp. exists keys.
  split; [apply H|done].
Qed.

Lemma handle_audited fuel w :
  unsigned [] w -> safe audited (handle fuel packet) (accounted) w.
Proof.
  intros Hu. unfold handle. apply safe_bind.
  eapply safe_mono; [done| |apply (check_audited (unsigned []))];
    [|intros; by eapply unsigned_extends|intros; by eapply unsigned_audited|done].
  intros c w1 H1. pose proof (unsigned_audited _ _ H1) as Ha1.
  assert (requested w1 = None) as Hn.
  { unfold requested. rewrite (un_answers _ _ H1). by destruct (parse_request packet) as [[]| |]. }
  assert (forall e, safe audited (Ret (Some (Err e))) (accounted) w1) as Hfail.
  { intros e. apply safe_ret; [done|]. by apply (refused_accounted w1 e []). }
  destruct c as [u|e|]; [|done|by apply safe_ret].
  destruct (parse_request packet) as [[|pk data flags]|e|] eqn:Hp; cbn [map_err];
    [by apply identities_audited| |done|by apply safe_ret].
  destruct (flags =? 0) eqn:Hf; cbn [negb]; [|done].
  apply safe_bind, safe_op_bind; [done|]. intros v.
  pose proof (list_audited w1 v H1) as H2. destruct (agent_exec _ _ _) as [r w2]. cbn [fst snd].
  pose proof (unsigned_audited _ _ H2) as Ha2.
  assert (requested w2 = match r with
    Ok keys => key ← find_key pk keys; Some (key, data) | _ => None end) as Hreq.
  { unfold requested. rewrite Hp, (un_answers _ _ H2). destruct r; [by rewrite Hf|done..]. }
  destruct r as [keys|e|]; cbn [map_err]; (apply safe_ret; [done|]);
    [|(apply safe_ret; [done|]); by apply (refused_accounted w2 _ [])|by apply safe_ret].
  destruct (find_key pk keys) as [key|] eqn:Hk; cbn in Hreq;
    [|apply safe_ret; [done|]; by apply (refused_accounted w2 _ [keys])].
  apply safe_bind. eapply safe_mono; [done| |by apply (sign_with_key_audited [keys])].
  intros x w3 Hx. destruct x as [r|]; [|by apply safe_ret].
  assert (requested w3 = Some (key, data)) as Hreq3.
  { rewrite <- Hreq. unfold requested. destruct Hx as (_ & _ & _ & -> & _). by rewrite (un_answers _ _ H2). }
  destruct r as [resp|e|]; [..|apply safe_ret; [apply Hx|done]];
    (apply safe_bind; eapply safe_mono; [done| |eapply record_audited, Hx; [done|by rewrite Hp]]);
    intros rec w4 (Ha4 & H4 & H5); destruct rec; (apply safe_ret; [done|]); try done; (split; [by apply H4|done]).
Qed.

(** *** Termination and panic-freedom *)

Definition concluded (x : option (result bytes bytes)) : Prop := exists o, x = Some o /\ o <> Panic.

(** Time does not go back. *)
Lemma clock_extends P w w' : extends P w w' -> clock (shared w) <= clock (shared w').
Proof. intros [_ _ _ _ _ _ (es & _ & Hs & _)]. by eapply steps_clock. Qed.

Lemma clock_exec {X} v w (e : agentE X) :
  plain e = true -> clock (shared w) <= clock (shared (snd (agent_exec v (interfere v w) e))).
Proof. intros He. eapply clock_extends, exec_plain, He. Qed.

Lemma sleep_clock v w ms : 0 <= ms -> clock (shared w) + ms <= clock (shared (snd (agent_exec v (interfere v w) (Sleep ms)))).
Proof.
  intros Hms. pose proof (clock_extends _ _ _ (interfere_extends v w)). cbn [agent_exec snd]. unfold own_step. cbn [step].
  rewrite (proj2 (Z.leb_le _ _) Hms). cbn. lia.
Qed.

Lemma dialog_concludes {A B} (p : prog Graphical.dialogE A) (f : A -> prog agentE B) Q t w :
  t <= clock (shared w) -> (forall x w', t <= clock (shared w') -> safe (fun _ => True) (f x) Q w') ->
  safe (fun _ => True) (on_dialog p ≫= f) Q w.
Proof.
  intros Ht H. revert w Ht. induction p as [x|X e k IH]; intros w Ht; [by apply H|].
  apply safe_vis; [done|]. intros v. apply IH. pose proof (clock_exec v w (Dialog e) eq_refl).
  unfold exec, the_handler, agent_handler. lia.
Qed.

Definition loop_concluded (x : loop_result) : Prop := exists o child, x = Some (o, child) /\ o <> Panic.

(** The loop goes on before its deadline only, 50 milliseconds later. *)
Lemma give_up_concludes deadline child (again : prog agentE loop_result) w :
  (forall w', clock (shared w) + 50 <= clock (shared w') -> clock (shared w) < deadline ->
     safe (fun _ => True) again (fun x _ => loop_concluded x) w') ->
  safe (fun _ => True) (give_up_or deadline child again) (fun x _ => loop_concluded x) w.
Proof.
  intros Hagain. apply safe_op_bind; [done|]. intros v. cbn [agent_exec fst snd].
  pose proof (clock_extends _ _ _ (interfere_extends v w)) as Hc. set (w1 := interfere v w) in *.
  assert (forall e w, safe (fun _ => True) (Ret (Some (Err e, child)) : prog agentE loop_result)
    (fun x _ => loop_concluded x) w) as Hret by (intros; apply safe_ret; [done|]; by do 2 eexists).
  destruct (deadline <=? clock (shared w1)) eqn:El; [apply Hret|]. apply Z.leb_gt in El.
  apply safe_bind, safe_op_bind; [done|]. intros v2. pose proof (clock_exec v2 w1 Check eq_refl) as Hc2.
  cbn [agent_exec fst snd] in *. set (w2 := interfere v2 w1) in *.
  destruct (cancelled w2); (apply safe_ret; [done|]); [apply Hret|].
  apply safe_op_bind; [done|]. intros v3. pose proof (sleep_clock v3 w2 50 ltac:(lia)). apply Hagain; lia.
Qed.

Lemma wait_round fuel ch deadline child w :
  (forall child w', clock (shared w) + 50 <= clock (shared w') -> clock (shared w) < deadline ->
     safe (fun _ => True) (wait_for_pin fuel ch deadline child) (fun x _ => loop_concluded x) w') ->
  safe (fun _ => True) (wait_for_pin (S fuel) ch deadline child) (fun x _ => loop_concluded x) w.
Proof.
  intros Hagain. cbn [wait_for_pin]. apply safe_op_bind; [done|]. intros v.
  pose proof (clock_exec v w (TryRecv ch) eq_refl) as Hc.
  destruct (agent_exec v (interfere v w) (TryRecv ch)) as [r w1]. cbn [fst snd] in *.
  destruct r; [apply safe_ret; [done|]; by do 2 eexists| |apply safe_ret; [done|]; by do 2 eexists].
  assert (forall child w2, clock (shared w1) <= clock (shared w2) -> safe (fun _ => True)
    (give_up_or deadline child (wait_for_pin fuel ch deadline child)) (fun x _ => loop_concluded x) w2) as Hrest.
  { intros child2 w2 H2. apply give_up_concludes. intros w3 H3 Hlt. apply Hagain; lia. }
  unfold still_there. destruct child; [|apply (Hrest false w1); lia].
  apply safe_bind, (dialog_concludes _ _ _ (clock (shared w1))); [lia|]. intros ended w2 H2.
  apply safe_ret; [done|]. by apply Hrest.
Qed.

Lemma wait_concludes fuel ch deadline child w :
  deadline - clock (shared w) <= 50 * Z.of_nat fuel ->
  safe (fun _ => True) (wait_for_pin (S fuel) ch deadline child) (fun x _ => loop_concluded x) w.
Proof.
  revert child w. induction fuel as [|fuel IH]; intros child w Hd; apply wait_round; intros child' w' Hc Hlt; [lia|].
  apply IH. lia.
Qed.

Lemma obtain_concludes fuel key w :
  authorization_timeout a <= 50 * Z.of_nat fuel ->
  safe (fun _ => True) (obtain_pin (S fuel) key) (fun x _ => concluded x) w.
Proof.
  intros Ht. unfold obtain_pin. destruct (use_policy _).
  { apply safe_ret; [done|]. eexists. split; done. }
  apply safe_op_bind; [done|]. intros v. destruct (agent_exec v (interfere v w) (BeginRequest _)) as [r w1]. cbn [fst snd].
  destruct r as [[id ch]|[]|]; [|apply safe_ret; [done|]; by eexists..].
  apply (dialog_concludes _ _ _ (clock (shared w1))); [lia|]. intros child w2 _.
  apply safe_op_bind; [done|]. intros v2. cbn [agent_exec fst snd]. apply safe_bind.
  eapply safe_mono; [done| |apply wait_concludes; lia].
  intros x w3 (o & child' & -> & Ho). apply safe_op_bind; [done|]. intros v3.
  apply (dialog_concludes _ _ _ (clock (shared (snd (agent_exec v3 (interfere v3 w3) (RemoveRequest ch o)))))); [lia|].
  intros _ w4 _. apply safe_op_bind; [done|]. intros v4. apply safe_ret; [done|]. by exists o.
Qed.

Lemma total_agent_op {Er X} (e : agentE (result Er X)) :
  (forall v w, fst (agent_exec v w e) <> Panic) -> total (trigger e).
Proof. intros H w. apply safe_vis; [done|]. intros v. apply safe_ret; [done|]. apply H. Qed.

Lemma total_check : total check.
Proof. intros w. apply safe_op_bind; [done|]. intros v. destruct (fst _); by apply safe_ret. Qed.

Lemma total_store_list : total (trigger StoreList).
Proof.
  apply total_agent_op. intros v w. cbn [agent_exec].
  pose proof (total_run FileSystem.calm _ (fs_choices v) (files w) (KeyStore.total_list (store a))) as H.
  by destruct (run _ _ _ _).
Qed.

Lemma total_history_append entry : total (trigger (HistoryAppend entry)).
Proof.
  apply total_agent_op. intros v w. cbn [agent_exec]. destruct (poisoned v); [done|].
  pose proof (total_run FileSystem.calm _ (fs_choices v) (files w)
    (History.total_append (history a) (agent_pid a) entry)) as H.
  destruct (run _ _ _ _) as [r f]. by destruct r.
Qed.

Lemma total_lock : total (trigger LockTpm).
Proof. apply total_agent_op. intros v w. cbn [agent_exec]. by destruct (poisoned v). Qed.

Lemma total_record key outcome : total (record_history key outcome).
Proof.
  unfold record_history. destruct (history_enabled a); [|by apply total_ret]. cbn [negb]. intros w.
  apply safe_op_bind; [done|]. intros v. apply safe_bind.
  eapply safe_mono; [done| |apply total_history_append]. intros r w' Hr.
  destruct r; [by apply safe_ret| |done]. apply safe_op_bind; [done|]. intros v'. by apply safe_ret.
Qed.

Context `{!TpmSignerLaws E tpm_calm}.

Lemma total_connect : total (trigger TpmConnect).
Proof.
  apply total_agent_op. intros v w. cbn [agent_exec].
  pose proof (connect_total (tpm_choices v) (tpm_state w)) as H. by destruct (run _ _ _ _).
Qed.

Lemma total_tpm_sign self key alg digest auth : total (trigger (TpmSign self key alg digest auth)).
Proof.
  apply total_agent_op. intros v w. cbn [agent_exec].
  pose proof (sign_width self key alg digest auth (tpm_choices v) (tpm_state w)) as H.
  destruct (run _ _ _ _) as [r t]. by destruct r.
Qed.

Lemma total_sign_authorized key digest pin : total (sign_authorized key digest pin).
Proof.
  apply total_try; [apply total_check|]. intros _.
  apply total_try; [apply total_map_err, total_lock|]. intros tpm.
  apply total_try; [destruct tpm; [by apply total_ret|apply total_map_err, total_connect]|]. intros self.
  apply total_try; [apply total_map_err, total_tpm_sign|]. intros signature.
  apply total_try; [apply total_check|]. intros _. apply total_ret.
  pose proof (signature_response_no_panic (algorithm (KeyStore.summary key)) signature).
  by destruct (ecdsa_signature_response _ _).
Qed.

Lemma handle_concludes fuel w :
  authorization_timeout a <= 50 * Z.of_nat fuel ->
  safe (fun _ => True) (handle (S fuel) packet) (fun x _ => concluded x) w.
Proof.
  intros Ht.
  assert (forall o w, o <> Panic -> safe (fun _ => True)
    (Ret (Some o) : prog agentE (option (result bytes bytes))) (fun x _ => concluded x) w) as Hret.
  { intros o w0 Ho. apply safe_ret; [done|]. by exists o. }
  unfold handle. apply safe_bind. eapply safe_mono; [done| |apply total_check].
  intros c w1 Hc. destruct c; [|by apply Hret|done].
  pose proof (parse_request_no_panic packet) as Hp.
  destruct (parse_request packet) as [[|pk data flags]|e|]; cbn [map_err]; [..|by apply Hret|done].
  - apply safe_bind. eapply safe_mono; [done| |apply total_map_err, total_store_list].
    intros keys w2 Hk. destruct keys as [keys|e|]; [|by apply Hret|done]. apply Hret.
    pose proof (identities_response_no_panic (KeyStore.summary <$> keys)). by destruct (identities_response _).
  - destruct (negb _); [by apply Hret|]. apply safe_bind.
    eapply safe_mono; [done| |apply total_map_err, total_store_list].
    intros keys w2 Hk. destruct keys as [keys|e|]; [|by apply Hret|done].
    destruct (find_key pk keys) as [key|]; [|by apply Hret]. apply safe_bind.
    unfold sign_with_key. apply safe_bind.
    eapply safe_mono; [done| |by apply obtain_concludes]. intros x w3 (o & -> & Ho).
    apply (safe_mono (fun _ => True) _ _ (fun x _ => concluded x)); [done| |].
    + intros x w4 (r & -> & Hr). destruct r as [resp|e|]; [..|done];
        (apply safe_bind; eapply safe_mono; [done| |apply total_record];
         intros rec w5 Hrec; destruct rec; by apply Hret).
    + destruct o as [pin|e|]; [|by apply Hret|done]. apply safe_bind.
      eapply safe_mono; [done| |apply total_sign_authorized]. intros r w4 Hr. by apply Hret.
Qed.

(** *** What is sent *)

(** Whatever the operations of [m] answer. *)
Lemma anyhow {A B} (m : prog agentE A) (f : A -> prog agentE B) Q w :
  (forall x w, safe (fun _ => True) (f x) Q w) -> safe (fun _ => True) (m ≫= f) Q w.
Proof.
  intros H. revert w. induction m as [x|X e k IH]; intros w; [apply H|]. apply safe_vis; [done|]. intros v. apply IH.
Qed.

Definition framed_if_ok (r : result bytes bytes) : Prop := match r with Ok response => framed response | _ => True end.

Lemma anyhow_try {A} (m : prog agentE (result bytes A)) (f : A -> prog agentE (result bytes bytes)) w :
  (forall x w, safe (fun _ => True) (f x) (fun r _ => framed_if_ok r) w) ->
  safe (fun _ => True) (try_bind f m) (fun r _ => framed_if_ok r) w.
Proof. intros H. apply anyhow. intros [x|e|] w'; [apply H|by apply safe_ret..]. Qed.

Lemma sign_framed key digest pin w :
  safe (fun _ => True) (sign_authorized key digest pin) (fun r _ => framed_if_ok r) w.
Proof.
  do 5 (apply anyhow_try; intros ? ?). apply safe_ret; [done|].
  destruct (ecdsa_signature_response _ _) eqn:Er; [by eapply signature_framed|done..].
Qed.

Lemma handle_framed fuel w :
  safe (fun _ => True) (handle fuel packet) (fun x _ => match x with Some r => framed_if_ok r | None => True end) w.
Proof.
  unfold handle. apply anyhow. intros [[]|e|] w1; [|by apply safe_ret..].
  destruct (map_err _ (parse_request packet)) as [[|pk data flags]|e|]; [| |by apply safe_ret..].
  - apply anyhow. intros [keys|e|] w2; [|by apply safe_ret..]. apply safe_ret; [done|].
    destruct (identities_response _) eqn:Er; [by eapply identities_framed|done..].
  - destruct (negb _); [by apply safe_ret|]. apply anyhow. intros [keys|e|] w2; [|by apply safe_ret..].
    destruct (find_key pk keys) as [key|]; [|by apply safe_ret]. apply safe_bind.
    eapply (safe_mono _ _ _ (fun x _ => match x with Some r => framed_if_ok r | None => True end)); [done| |].
    + intros [[response|e|]|] w3 H3; [| |by apply safe_ret..]; apply anyhow; intros [] w4; by apply safe_ret.
    + apply anyhow. intros [[pin|e|]|] w3; [|by apply safe_ret..]. apply safe_bind.
      eapply safe_mono; [done| |apply sign_framed]. intros r w4 H4. by apply safe_ret.
Qed.

(** *** Properties *)

(** A request that has not begun, in an agent whose broker has the history [es0]. *)
Record fresh (w : world) : Prop := {
  fr_events : events w = [];
  fr_channel : channel w = None;
  fr_calls : calls w = [];
  fr_signatures : signatures w = [];
  fr_answers : answers w = [];
  fr_recorded : recorded w = [];
  fr_std_err : std_err w = [];
  fr_broker : exists pid, steps (broker_init pid) es0 = Some (shared w);
}.

Lemma fresh_unsigned w : fresh w -> unsigned [] w.
Proof. intros [He ? ? ? ? ? ? [pid H]]. split; try done. exists pid. by rewrite He, app_nil_r. Qed.

(** [C2] Every signature is authorized.  However the threads, the clients, the disk
    and the TPM behave, while a request is handled the TPM is asked to sign at most
    once, and only the digest of the data of a well-formed sign request with no flags,
    with the first stored key that has the requested public key, and with the
    authorization its policy demands: none for a key without PIN, and otherwise a PIN
    that a control connection submitted for this very request under its key's name.
    A response is that signature, or the list of the stored keys. *)
Theorem sign_is_authorized fuel w p w' :
  fresh w -> reach (handle fuel packet) w p w' ->
  audited w' /\ forall o, p = Ret (Some o) -> responded o w'.
Proof.
  intros Hf Hr. pose proof (handle_audited fuel w (fresh_unsigned w Hf)) as Hs. split.
  - by eapply safe_reach_inv.
  - intros o ->. pose proof (safe_reach_ret _ _ _ _ _ _ Hs Hr) as H. destruct o; [by apply H|done..].
Qed.


(** [C5] Every request is answered.  Whatever packet arrives and whatever the other
    threads do, with a TPM that keeps its promises the handler terminates without a
    panic: the PIN prompt is polled every 50 milliseconds and gives up at the deadline,
    so one poll more than the timeout has periods is enough fuel.  The connection is then
    given a message of the protocol, its length and at least one byte: the answer of a
    request that succeeded, and for every other one the failure message, byte for byte. *)
Theorem request_is_answered fuel w vs :
  authorization_timeout a <= 50 * Z.of_nat fuel ->
  exists o response, fst (run alone (handle (S fuel) packet) vs w) = Some o /\ o <> Panic /\
    respond o = Ok response /\ framed response /\
    match o with
    | Ok answer => response = answer
    | _ => response = b8 <$> [0; 0; 0; 1; 5]
    end.
Proof.
  intros Ht. destruct (safe_run _ alone _ _ vs w (handle_concludes fuel w Ht)) as (o & Ho & Hn).
  pose proof (safe_run _ alone _ _ vs w (handle_framed (S fuel) w)) as Hf. rewrite Ho in Hf.
  destruct o as [response|e|]; [..|done]; do 2 eexists; (split; [exact Ho|]); (split; [done|]); (split; [reflexivity|]).
  - done.
  - split; [|reflexivity]. exists [b8 5]. split; [reflexivity|]. by vm_compute.
Qed.
End Executions.
End Runtime.

(** ** A concrete agent *)

Module Sample.
Import Toy.

(** A key that needs a PIN, in the only record of the store. *)
Definition key : KeyStore.StoredKey := KeyStore.mkStoredKey
  (mkKeySummary (KeyId_new (str "a")) (str "n") EcdsaNistP256 TpmPin (str "p"))
  (mkTpmObject (str "p") (str "w") (str "q") TpmPin).
Definition disk : fs :=
  let record := KeyStore.path_for (KeyStore.KeyStore_new EmptyDir.dir) (id (KeyStore.summary key)) in
  mk_fs (<[record := 2]> {[ EmptyDir.dir := 1 ]}) (<[record := 2]> {[ EmptyDir.dir := 1 ]})
    (<[2 := mk_inode Regular MODE_0600 1000 (KeyStore.layout key) (KeyStore.layout key)]>
      {[ 1 := mk_inode Directory MODE_0700 1000 [] [] ]}) 3 0 1000.

(** A digest. *)
Definition sha (b : bytes) : bytes := firstn 32 b.
Definition an_agent : agent :=
  mkAgent (KeyStore.KeyStore_new EmptyDir.dir) (History.HistoryStore_new (EmptyDir.dir ++ [str "h"])) true 120000 7
    (fun _ => None).
Definition start : @world toyE unit _ :=
  mkWorld disk (broker_init 255) tt None false None [] [] [] [] [] Graphical.no_dialog [].
Definition sign_packet : bytes := encode_request (Sign (str "p") (str "data") 0).

(** The owner authorizes the request before the second [try_recv]. *)
Definition pin : bytes := str "123456".
Definition owner : @interference toyE unit unit _ :=
  mkInterference [Take 4 (request_id 255 1) pin; Deliver 4] None None false [] [] false (Some 0)
    Graphical.undisturbed.
Definition choices : list (@interference toyE unit unit _) := replicate 8 alone ++ [owner].
#[local] Instance sample_handler : Handler agentE (@world toyE unit _) (@interference toyE unit unit _) :=
  agent_handler tt an_agent.
Definition outcome : option (result bytes bytes) * @world toyE unit _ :=
  run alone (handle sha sha an_agent 3 sign_packet) choices start.

Lemma start_fresh : fresh [] start.
Proof. split; try done. by exists 255. Qed.

Lemma outcome_reach :
  reach (handle sha sha an_agent 3 sign_packet) start (Ret (fst outcome)) (snd outcome).
Proof. apply run_reach. Qed.

Definition response : bytes :=
  match fst outcome with Some (Ok response) => response | _ => [] end.
Lemma outcome_ok : fst outcome = Some (Ok response).
Proof. vm_compute. reflexivity. Qed.

Lemma sign_is_authorized_witness :
  audited sha sha [] sign_packet (snd outcome) /\ responded sign_packet (Ok response) (snd outcome) /\
  calls (snd outcome) = [(KeyStore.object key, EcdsaNistP256, str "data", AuthPin pin)] /\
  signatures (snd outcome) = [Ok (replicate 64 (b8 1))].
Proof.
  pose proof outcome_reach as Hr. rewrite outcome_ok in Hr.
  destruct (sign_is_authorized tt sha sha an_agent [] sign_packet 3 start _ _ start_fresh Hr) as [Ha Ho].
  split; [exact Ha|]. split; [exact (Ho _ eq_refl)|]. split; vm_compute; reflexivity.
Defined.

(** The append of this request: to a directory in which there is no history yet. *)
Definition the_append : append_call :=
  match recorded (snd outcome) with [c] => c | _ => mkAppend (history_entry key 0 History.Failed) disk (Err []) disk end.

Lemma outcome_requested : requested sign_packet (snd outcome) = Some (key, str "data").
Proof. vm_compute. reflexivity. Qed.

Lemma before_append : ap_before the_append = disk.
Proof. vm_compute. reflexivity. Qed.

Lemma appended_entry : ap_entry the_append = history_entry key 0 History.Succeeded.
Proof. vm_compute. reflexivity. Qed.

Lemma appended_wf : History.entry_wf (history_entry key 0 History.Succeeded).
Proof. by vm_compute. Qed.

Lemma append_succeeded : ap_result the_append = Ok tt.
Proof. vm_compute. reflexivity. Qed.

Lemma disk_wf : fs_wf (ap_before the_append).
Proof. rewrite before_append. apply fs_wf_decide. vm_compute. reflexivity. Qed.

Lemma disk_durable : durable_file (ap_before the_append) EmptyDir.dir (str "h") None.
Proof.
  rewrite before_append. split_and!; [|reflexivity|vm_compute; reflexivity].
  intros q [<-|[<-|[]]]; split; by vm_compute.
Qed.

Lemma temporary_ne n : History.temporary_name (agent_pid an_agent) n <> str "h".
Proof. by intros [=]. Qed.


(** Nobody authorizes: the request is refused at its deadline. *)
Lemma request_is_answered_witness :
  exists o response, fst (run alone (handle sha sha an_agent 2401 sign_packet) [] start) = Some o /\
    o <> Panic /\ respond o = Ok response /\ framed response /\
    match o with Ok answer => response = answer | _ => response = b8 <$> [0; 0; 0; 1; 5] end.
Proof.
  refine (request_is_answered tt sha sha an_agent sign_packet 2400 start [] _).
  vm_compute. discriminate.
Defined.
End Sample.
