(* ===== verification/Monitor.v ===== *)
(** Watching a client while its request is handled: [RequestMonitor] and
    [RequestCancellation] of crates/keyvisor-agent/src/main.rs.

    The monitor's thread looks at the connection with [poll], for the terminal events only;
    the request's thread and the client act between any two of its operations.  What it
    sets is the flag that Runtime's [check] reads. *)

From S2P Require Import Prelude Bytes Text Effects FileSystem.

(** ** Events of [poll] *)

Definition IN : Z := 0x1.
Definition ERR : Z := 0x8.
Definition HUP : Z := 0x10.
Definition RDHUP : Z := 0x2000.

(** [PollFlags::intersects]. *)
Definition intersects (a b : Z) : bool := negb (Z.land a b =? 0).

(** ** The thread *)

(** [Poll] takes the events that are watched for and the timeout in milliseconds. *)
Inductive monitorE : Type -> Type :=
  | LoadStopped : monitorE bool
  | Poll (events timeout : Z) : monitorE (io_result Z)
  | Revents : monitorE Z
  | ClearRevents : monitorE unit
  | StoreCancelled : monitorE unit.

(** A round, after [stopped] was found not to be set; [again] is the rest of the loop. *)
Definition watch_round (again : prog monitorE (option unit)) : prog monitorE (option unit) :=
  ready ← trigger (Poll (Z.lor HUP ERR) 50);
  match ready with
  | Ok ready =>
      if ready =? 0 then again
      else
        events ← trigger Revents;
        if intersects events (Z.lor HUP ERR) then _ ← trigger StoreCancelled; Ret (Some tt)
        else _ ← trigger ClearRevents; again
  | _ => _ ← trigger StoreCancelled; Ret (Some tt)
  end.

(** The thread's loop: [None] is running out of [fuel]. *)
Fixpoint monitor_loop (fuel : nat) : prog monitorE (option unit) :=
  match fuel with
  | O => Ret None
  | S fuel =>
      stopped ← trigger LoadStopped;
      if (stopped : bool) then Ret (Some tt) else watch_round (monitor_loop fuel)
  end.

(** ** The request's side *)

(** The thread is spawned with its two flags, [cancelled] and [stopped]; joining it waits
    for its end. *)
Inductive guardE : Type -> Type :=
  | TryClone : guardE (io_result unit)
  | SpawnMonitor (cancelled stopped : bool) : guardE (io_result unit)
  | StoreStopped : guardE unit
  | JoinMonitor : guardE unit.

(** The flag of a [RequestCancellation]. *)
Definition RequestCancellation_new : bool := false.

Definition RequestMonitor_start : prog guardE (result bytes unit) :=
  _ ←? map_err_prog (fun error => str "cannot monitor the SSH client: " ++ message error) (trigger TryClone);
  map_err_prog (fun error => str "cannot start the SSH client monitor: " ++ message error)
    (trigger (SpawnMonitor RequestCancellation_new false)).

Definition RequestMonitor_drop : prog guardE unit :=
  _ ← trigger StoreStopped;
  trigger JoinMonitor.

(** ** The connection it watches *)

(** What the client did: sent bytes that nobody has read yet, closed its sending side,
    left; and whether the connection is broken. *)
Record client := mkClient {
  unread : bytes;
  half_closed : bool;
  gone : bool;
  broken : bool;
}.

(** The two flags, the client, the events the last [poll] reported, the time in
    milliseconds, whether a [poll] failed, and since when there is nothing left to wait for. *)
Record watch := mkWatch {
  stopped : bool;
  cancelled : bool;
  peer : client;
  revents : Z;
  clock : Z;
  poll_failed : bool;
  since : option Z;
}.
(** The request ended, the client left, or the connection broke. *)
Definition over (w : watch) : bool := stopped w || gone (peer w) || broken (peer w).

(** What is true of a connection, as [poll] events, and what [poll] reports of it: the events
    asked for, and the terminal ones always. *)
Definition condition (c : client) : Z :=
  Z.lor (Z.lor (if is_empty (unread c) then 0 else IN) (if half_closed c || gone c then RDHUP else 0))
    (Z.lor (if gone c then HUP else 0) (if broken c then ERR else 0)).
Definition reported (events : Z) (c : client) : Z := Z.land (Z.lor events (Z.lor HUP ERR)) (condition c).

(** Before an operation, and while [poll] waits, the client sends, closes and leaves, the
    connection breaks, and the request ends; a client that left stays away. *)
Record happening := mkHappening {
  arrives : bytes;
  closes : bool;
  leaves : bool;
  breaks : bool;
  finishes : bool;
  waits : Z;
  fault : option io_error;
}.
Definition nothing : happening := mkHappening [] false false false false 50 None.

Definition set_since (w : watch) : watch :=
  mkWatch (stopped w) (cancelled w) (peer w) (revents w) (clock w) (poll_failed w)
    (match since w with Some t => Some t | None => if over w then Some (clock w) else None end).
Definition happen (v : happening) (w : watch) : watch :=
  set_since (mkWatch (stopped w || finishes v) (cancelled w)
    (mkClient (unread (peer w) ++ arrives v) (half_closed (peer w) || closes v) (gone (peer w) || leaves v)
       (broken (peer w) || breaks v))
    (revents w) (clock w) (poll_failed w) (since w)).

Definition set_cancelled (w : watch) : watch :=
  mkWatch (stopped w) true (peer w) (revents w) (clock w) (poll_failed w) (since w).
Definition set_polled (w : watch) (events ms : Z) (failed : bool) : watch :=
  mkWatch (stopped w) (cancelled w) (peer w) events (clock w + ms) (poll_failed w || failed) (since w).

(** How long [poll] waited: all of the timeout when nothing happened. *)
Definition waited (v : happening) (timeout : Z) : Z := Z.max 0 (Z.min (waits v) timeout).

Definition monitor_exec {X} (v : happening) (w : watch) (e : monitorE X) : X * watch :=
  let w := happen v w in
  match e in monitorE X return X * watch with
  | LoadStopped => (stopped w, w)
  | Poll events timeout =>
      match fault v with
      | Some error => (Err error, set_polled w (revents w) (waited v timeout) true)
      | None =>
          if reported events (peer w) =? 0 then (Ok 0, set_polled w 0 timeout false)
          else (Ok 1, set_polled w (reported events (peer w)) (waited v timeout) false)
      end
  | Revents => (revents w, w)
  | ClearRevents => (tt, set_polled w 0 0 false)
  | StoreCancelled => (tt, set_cancelled w)
  end.

#[global] Instance monitor_handler : Handler monitorE watch happening := fun X v w e => monitor_exec v w e.

(** ** What it reports *)

Lemma reported_terminal c : Z.land (reported (Z.lor HUP ERR) c) (Z.lor HUP ERR) = reported (Z.lor HUP ERR) c.
Proof. destruct c as [[|b u] [] [] []]; by vm_compute. Qed.

Lemma reported_zero c : reported (Z.lor HUP ERR) c = 0 <-> gone c = false /\ broken c = false.
Proof.
  assert (reported (Z.lor HUP ERR) c = Z.lor (if gone c then HUP else 0) (if broken c then ERR else 0)) as ->
    by by destruct c as [[|b u] [] [] []].
  by destruct (gone c), (broken c); vm_compute; naive_solver.
Qed.

(** A reason to give up a request. *)
Definition reason (w : watch) : Prop := gone (peer w) = true \/ broken (peer w) = true \/ poll_failed w = true.

(** Later states: nothing of what the client sent is taken away, and a reason stays one. *)
Record later (w w' : watch) : Prop := mk_later {
  la_unread : exists more, unread (peer w') = unread (peer w) ++ more;
  la_reason : reason w -> reason w';
  la_clock : clock w <= clock w';
}.

#[global] Instance later_preorder : PreOrder later.
Proof.
  split; [intros w; split; [exists []; by rewrite app_nil_r|done|done]|].
  intros w1 w2 w3 [[m1 H1] ? ?] [[m2 H2] ? ?]. split; [|auto|lia]. exists (m1 ++ m2). by rewrite H2, H1, <- app_assoc.
Qed.

Lemma later_happen v w : later w (happen v w).
Proof. split; [by exists (arrives v)| |done]. unfold reason. cbn. intros [->| [->| ->]]; auto. Qed.

Lemma later_polled w es ms b : 0 <= ms -> later w (set_polled w es ms b).
Proof. intros H. split; [exists []; by rewrite app_nil_r| |cbn; lia]. unfold reason. cbn. intros [->| [->| ->]]; auto. Qed.

Lemma waited_bounds v timeout : 0 <= timeout -> 0 <= waited v timeout <= timeout.
Proof. unfold waited. lia. Qed.

(** ** The loop *)

Section Watching.
Context (w0 : watch).

(** The thread disturbs nothing, gives up for a reason only, and looks often enough. *)
Record wary (w : watch) : Prop := mk_wary {
  wa_later : later w0 w;
  wa_reason : cancelled w = true -> reason w;
  wa_over : since w = None <-> over w = false;
  wa_prompt : forall t, since w = Some t -> clock w <= t + 50;
}.

(** When it reads [stopped], and when it polls. *)
Definition at_head (w : watch) : Prop := wary w /\ forall t, since w = Some t -> stopped w = true \/ clock w = t.
Definition at_poll (w : watch) : Prop := wary w /\ forall t, since w = Some t -> clock w = t.

Definition watched (fuel : nat) (w : watch) (r : option unit) (w' : watch) : Prop :=
  match r with Some _ => cancelled w' = true \/ stopped w' = true | None => at_head w' /\ clock w' = clock w + 50 * Z.of_nat fuel end.

Lemma since_happen v w : since (happen v w) =
  match since w with Some t => Some t | None => if over (happen v w) then Some (clock w) else None end.
Proof. done. Qed.

Lemma wary_happen v w : wary w -> wary (happen v w).
Proof.
  intros [Hl Hr Ho Hp]. split.
  - etransitivity; [done|]. apply later_happen.
  - intros Hc. by apply (la_reason _ _ (later_happen v w)), Hr.
  - assert (over w = true -> over (happen v w) = true) as Hm.
    { unfold over. cbn. rewrite !orb_true_iff. tauto. }
    rewrite since_happen. destruct (since w) as [t|].
    + split; [done|]. intros H. rewrite Hm in H; [done|]. destruct (over w); [done|]. discriminate (proj2 Ho eq_refl).
    + destruct (over (happen v w)) eqn:E; split; intros H; try done.
  - rewrite since_happen. destruct (since w) as [t|]; [auto|]. destruct (over (happen v w)); [|by intros]. intros t [= <-]. cbn. lia.
Qed.

Lemma at_poll_happen v w : at_poll w -> at_poll (happen v w).
Proof.
  intros [Hw Hs]. split; [by apply wary_happen|]. intros t. rewrite since_happen.
  destruct (since w); [apply Hs|]. destruct (over (happen v w)); [|by intros]. by intros [= <-].
Qed.

Lemma at_head_happen v w : at_head w -> at_head (happen v w).
Proof.
  intros [Hw Hs]. split; [by apply wary_happen|]. intros t. rewrite since_happen.
  destruct (since w) as [t'|].
  - intros [= ->]. cbn. destruct (Hs t eq_refl) as [->| ->]; auto.
  - destruct (over (happen v w)); [|by intros]. intros [= <-]. by right.
Qed.

(** A [poll] that waited at most its timeout. *)
Lemma polled_wary w es ms b : at_poll w -> 0 <= ms <= 50 -> wary (set_polled w es ms b).
Proof.
  intros [[Hl Hr Ho Hp] Hs] Hms. split; cbn; [etransitivity; [done|apply later_polled; lia]| |done|].
  - intros Hc. by apply (la_reason _ _ (later_polled w es ms b ltac:(lia))), Hr.
  - intros t Ht. rewrite (Hs t Ht). lia.
Qed.

Lemma cancelled_wary w : wary w -> reason w -> wary (set_cancelled w).
Proof.
  intros [Hl Hr Ho Hp] Hre. split; [|done..]. etransitivity; [done|]. split; [exists []; by rewrite app_nil_r|done|done].
Qed.

(** After an uneventful [poll] the client is still there. *)
Lemma quiet_head w :
  at_poll w -> reported (Z.lor HUP ERR) (peer w) = 0 -> at_head (set_polled w 0 50 false).
Proof.
  intros Hw Hz. split; [by apply polled_wary|]. intros t Ht. left. cbn in *. destruct Hw as [[_ _ Ho _] _].
  apply reported_zero in Hz as [Hg Hb]. unfold over in Ho. rewrite Hg, Hb, !orb_false_r in Ho.
  destruct (stopped w); [done|]. by rewrite (proj2 Ho eq_refl) in Ht.
Qed.

(** What [poll] reports when it reports something is a reason, to be found in [revents]. *)
Lemma reported_reason c : reported (Z.lor HUP ERR) c <> 0 ->
  (gone c = true \/ broken c = true) /\ intersects (reported (Z.lor HUP ERR) c) (Z.lor HUP ERR) = true.
Proof.
  intros H. split.
  - destruct (gone c) eqn:Hg; [auto|]. destruct (broken c) eqn:Hb; [auto|]. by destruct H; apply reported_zero.
  - unfold intersects. rewrite reported_terminal. by apply negb_true_iff, Z.eqb_neq.
Qed.

Lemma give_up_safe fuel w w1 :
  wary w1 -> reason w1 -> safe wary (_ ← trigger StoreCancelled; Ret (Some tt)) (watched fuel w) w1.
Proof.
  intros Hw Hr. apply safe_vis; [done|]. intros v. apply safe_ret; [|by left].
  apply cancelled_wary; [by apply wary_happen|]. by apply (la_reason _ _ (later_happen v w1)).
Qed.

Lemma watch_round_safe fuel (again : prog monitorE (option unit)) w w1 :
  at_poll w1 -> clock w1 = clock w ->
  (forall w2, at_head w2 -> clock w2 = clock w + 50 -> safe wary again (watched fuel w) w2) ->
  safe wary (watch_round again) (watched fuel w) w1.
Proof.
  intros Hw Hc Hagain. apply safe_vis; [apply Hw|]. intros v. unfold exec, monitor_handler, monitor_exec.
  assert (clock (happen v w1) = clock w) as Hc' by done.
  revert Hc'; generalize (at_poll_happen v w1 Hw); generalize (happen v w1); intros w2 Hw2 Hc2.
  pose proof (waited_bounds v 50 ltac:(lia)) as Hms. destruct (fault v) as [error|]; cbn [fst snd].
  { apply give_up_safe; [by apply polled_wary|]. right. right. cbn. by rewrite orb_true_r. }
  destruct (reported _ _ =? 0) eqn:Ez; [apply Z.eqb_eq in Ez|apply Z.eqb_neq in Ez]; cbn [fst snd].
  - apply Hagain; [by apply quiet_head|]. cbn. lia.
  - destruct (reported_reason _ Ez) as [Hre Hi].
    pose proof (polled_wary w2 (reported (Z.lor HUP ERR) (peer w2)) _ false Hw2 Hms) as Hw3.
    apply safe_vis; [done|]. intros v2. cbn [fst snd exec monitor_handler monitor_exec].
    rewrite (ltac:(done) : revents (happen v2 (set_polled w2 (reported (Z.lor HUP ERR) (peer w2)) (waited v 50) false))
      = reported (Z.lor HUP ERR) (peer w2)), Hi.
    apply give_up_safe; [by apply wary_happen|]. unfold reason. cbn. destruct Hre as [->| ->]; auto.
Qed.

Lemma monitor_loop_safe fuel w : at_head w -> safe wary (monitor_loop fuel) (watched fuel w) w.
Proof.
  revert w; induction fuel as [|fuel IH]; intros w Hw; [apply safe_ret; [apply Hw|split; [done|lia]]|].
  apply safe_vis; [apply Hw|]. intros v. cbn [fst snd exec monitor_handler monitor_exec].
  pose proof (at_head_happen v w Hw) as Hw1. assert (clock (happen v w) = clock w) as Hc by done.
  revert Hw1 Hc; generalize (happen v w); intros w1 [Hw1 Hs1] Hc.
  destruct (stopped w1) eqn:Es; [apply safe_ret; [done|by right]|].
  apply watch_round_safe; [|done|].
  - split; [done|]. intros t Ht. by destruct (Hs1 t Ht).
  - intros w2 Hw2 Hc2. eapply safe_mono; [..|exact (IH w2 Hw2)]; [done|].
    intros [[]|] w3; cbn; [done|]. rewrite Hc2. intros [? ?]. split; [done|lia].
Qed.
End Watching.

(** The connection when the handling of a request starts. *)
Definition fresh (w : watch) : Prop :=
  cancelled w = false /\ since w = if over w then Some (clock w) else None.

Lemma fresh_head w : fresh w -> at_head w w.
Proof.
  intros (Hc & Hs). split; [split|]; [done|by rewrite Hc| | |].
  - rewrite Hs. by destruct (over w).
  - intros t. rewrite Hs. destruct (over w); [intros [= <-]; lia|done].
  - intros t. rewrite Hs. destruct (over w); [intros [= <-]; by right|done].
Qed.

(** ** What the monitor promises *)

(** Whatever the client does during a request, and in any order: the monitor takes none
    of the bytes the client sends; it cancels the request only when the client left, the
    connection broke or the poll itself failed, so that neither a pipelined request nor a
    half-closed connection cancels anything; and it is still running at most 50 ms after the
    request ended or the client left. *)
Theorem monitor_is_discriminating fuel w p w' :
  fresh w -> reach (monitor_loop fuel) w p w' ->
  (exists more, unread (peer w') = unread (peer w) ++ more) /\
  (cancelled w' = true -> reason w') /\
  (forall t, since w' = Some t -> clock w' <= t + 50).
Proof.
  intros Hw Hr. destruct (safe_reach_inv _ _ _ _ _ _ (monitor_loop_safe w fuel w (fresh_head w Hw)) Hr) as [[Hu _ _] Hre _ Hp].
  done.
Qed.

(** The monitor's thread ends, by cancelling the request or because the request is over:
    the only execution in which [fuel] polls do not see its end is one that takes all their
    timeouts, 50 ms each, and in which the request ended and the client left in the last of
    them, if at all. *)
Theorem monitor_ends fuel w r w' :
  fresh w -> reach (monitor_loop fuel) w (Ret r) w' ->
  match r with
  | Some _ => cancelled w' = true \/ stopped w' = true
  | None => clock w' = clock w + 50 * Z.of_nat fuel /\ (forall t, since w' = Some t -> clock w + 50 * (Z.of_nat fuel - 1) <= t)
  end.
Proof.
  intros Hw Hr. pose proof (monitor_loop_safe w fuel w (fresh_head w Hw)) as Hs.
  pose proof (wa_prompt _ _ (safe_reach_inv _ _ _ _ _ _ Hs Hr)) as Hp.
  pose proof (safe_reach_ret _ _ _ _ _ _ Hs Hr) as H. destruct r as [[]|]; [done|]. destruct H as [_ H]. split; [done|].
  intros t Ht. specialize (Hp t Ht). lia.
Qed.

(** ** A client that pipelines, closes its sending side and leaves *)

Module Sample.
Definition w0 : watch := mkWatch false false (mkClient [] false false false) 0 0 false None.
Definition sends : happening := mkHappening [Byte.x0a] false false false false 50 None.
Definition closing : happening := mkHappening [] true false false false 50 None.
Definition leaving : happening := mkHappening [] false true false false 7 None.

Definition left_alone := run nothing (monitor_loop 4) [nothing; sends; nothing; closing; nothing; nothing] w0.
Definition abandoned := run nothing (monitor_loop 4) [nothing; sends; nothing; closing; nothing; leaving] w0.

(** Two polls see nothing of the client's bytes and of its half-closed connection. *)
Example left_alone_result : (fst left_alone, cancelled (snd left_alone), clock (snd left_alone)) = (None, false, 200).
Proof. vm_compute. reflexivity. Qed.
Example abandoned_result : (fst abandoned, cancelled (snd abandoned), clock (snd abandoned)) = (Some tt, true, 107).
Proof. vm_compute. reflexivity. Qed.

Lemma monitor_is_discriminating_witness :
  cancelled (snd abandoned) = true /\ reason (snd abandoned).
Proof.
  split; [vm_compute; reflexivity|].
  apply (monitor_is_discriminating 4 w0 (Ret (fst abandoned)) (snd abandoned)); [done|apply run_reach|vm_compute; reflexivity].
Defined.

Lemma monitor_ends_witness : fst left_alone = None /\ clock (snd left_alone) = 200.
Proof.
  split; [vm_compute; reflexivity|].
  assert (reach (monitor_loop 4) w0 (Ret None) (snd left_alone)) as Hr by exact (run_reach nothing (monitor_loop 4) [nothing; sends; nothing; closing; nothing; nothing] w0).
  exact (proj1 (monitor_ends 4 w0 None (snd left_alone) (conj eq_refl eq_refl) Hr)).
Defined.
End Sample.
