(* ===== verification/Connection.v ===== *)
(** The SSH agent connection: [read_packet_length] and [serve_connection] of
    crates/keyvisor-agent/src/main.rs.

    A connection reads frames and answers each before it reads the next.  The handling of a
    packet is the operation [Handle], which Runtime.v shows always to end with an answer; the
    monitor around it is Monitor's, and Watched has the two threads between its start and end. *)

From S2P Require Import Prelude Bytes Text Effects FileSystem Protocol Control.
From S2P Require Runtime Monitor.

(** ** The program *)

Inductive linkE : Type -> Type :=
  | SetReadTimeout : linkE (io_result unit)
  | SetWriteTimeout : linkE (io_result unit)
  | ReadByte : linkE (io_result (option byte))
  | ReadRest (n : Z) : linkE (io_result bytes)
  | Guard {X} (e : Monitor.guardE X) : linkE X
  | Handle (packet : bytes) : linkE (result bytes bytes)
  | WriteAll (b : bytes) : linkE (io_result unit).

Definition fails_as {A} (prefix : bytes) (e : linkE (io_result A)) : prog linkE (result bytes A) :=
  map_err_prog (fun error => prefix ++ message error) (trigger e).

(** [stream.read] of one byte, then the other three. *)
Definition read_packet_length : prog linkE (result bytes (option Z)) :=
  first ←? fails_as (str "cannot read SSH agent packet length: ") ReadByte;
  match first with
  | None => Ret (Ok None)
  | Some b =>
      rest ←? fails_as (str "cannot read SSH agent packet length: ") (ReadRest 3);
      Ret (length ← ok_or (usize_try_from (from_be (b :: rest)))
             (str "SSH agent packet length does not fit this platform");
           Ok (Some length))
  end.

Definition on_guard {A} : prog Monitor.guardE A -> prog linkE A := lift (fun X => Guard).

(** The loop: [None] is running out of [fuel]. *)
Fixpoint serve_packets (fuel : nat) : prog linkE (option (result bytes unit)) :=
  match fuel with
  | O => Ret None
  | S fuel =>
      length ← read_packet_length;
      match length with
      | Ok None => Ret (Some (Ok tt))
      | Ok (Some length) =>
          if (length =? 0) || (MAX_PACKET_LENGTH <? length) then
            match failure_response with
            | Ok response =>
                _ ← trigger (WriteAll response);
                Ret (Some (Err (str "invalid SSH agent packet length")))
            | _ => Ret (Some Panic)
            end
          else
            packet ← fails_as (str "cannot read SSH agent packet: ") (ReadRest length);
            match packet with
            | Ok packet =>
                monitor ← on_guard Monitor.RequestMonitor_start;
                match monitor with
                | Ok _ =>
                    outcome ← trigger (Handle packet);
                    match outcome with
                    | Panic => _ ← on_guard Monitor.RequestMonitor_drop; Ret (Some Panic)
                    | _ =>
                        match Runtime.respond outcome with
                        | Ok response =>
                            _ ← on_guard Monitor.RequestMonitor_drop;
                            written ← fails_as (str "cannot write SSH agent response: ") (WriteAll response);
                            match written with
                            | Ok _ => serve_packets fuel
                            | Err error => Ret (Some (Err error))
                            | Panic => Ret (Some Panic)
                            end
                        | _ => Ret (Some Panic)
                        end
                    end
                | Err error => Ret (Some (Err error))
                | Panic => Ret (Some Panic)
                end
            | Err error => Ret (Some (Err error))
            | Panic => Ret (Some Panic)
            end
      | Err error => Ret (Some (Err error))
      | Panic => Ret (Some Panic)
      end
  end.

Definition serve_connection (fuel : nat) : prog linkE (option (result bytes unit)) :=
  r ← fails_as (str "cannot set read timeout: ") SetReadTimeout;
  match r with
  | Ok _ =>
      w ← fails_as (str "cannot set write timeout: ") SetWriteTimeout;
      match w with
      | Ok _ => serve_packets fuel
      | Err error => Ret (Some (Err error))
      | Panic => Ret (Some Panic)
      end
  | Err error => Ret (Some (Err error))
  | Panic => Ret (Some Panic)
  end.

(** ** The environment *)

(** The client's bytes, what has been written to it, the packets handled so far with
    their outcomes, and whether a monitor thread is running. *)
Record link := mkLink {
  input : source;
  written : bytes;
  handled : list (bytes * result bytes bytes);
  monitored : bool;
}.

(** The environment's part: an error of an operation, after [partial] bytes of a write,
    and the outcome of the agent. *)
Record link_choice := mkLinkChoice {
  io_fault : option io_error;
  partial : nat;
  outcome : result bytes bytes;
}.

Definition set_input (w : link) (s : source) : link :=
  mkLink s (written w) (handled w) (monitored w).
Definition add_written (w : link) (b : bytes) : link :=
  mkLink (input w) (written w ++ b) (handled w) (monitored w).
Definition add_handled (w : link) (packet : bytes) (r : result bytes bytes) : link :=
  mkLink (input w) (written w) (handled w ++ [(packet, r)]) (monitored w).
Definition set_monitored (w : link) (b : bool) : link :=
  mkLink (input w) (written w) (handled w) b.

Definition read_byte (s : source) : io_result (option byte * source) :=
  match avail s, ending s with
  | b :: l, e => Ok (Some b, mkSource l e)
  | [], None => Ok (None, s)
  | [], Some e => Err e
  end.

Definition answered {A} (r : io_result (A * source)) (w : link) : io_result A * link :=
  match r with
  | Ok (a, s) => (Ok a, set_input w s)
  | Err e => (Err e, w)
  | Panic => (Panic, w)
  end.

Definition faulty {A} (v : link_choice) (w : link) (k : io_result A * link) : io_result A * link :=
  match io_fault v with Some e => (Err e, w) | None => k end.

Definition guard_exec {X} (v : link_choice) (w : link) (e : Monitor.guardE X) : X * link :=
  match e in Monitor.guardE X return X * link with
  | Monitor.TryClone => faulty v w (Ok tt, w)
  | Monitor.SpawnMonitor _ _ => faulty v w (Ok tt, set_monitored w true)
  | Monitor.StoreStopped => (tt, w)
  | Monitor.JoinMonitor => (tt, set_monitored w false)
  end.

#[global] Instance link_handler : Handler linkE link link_choice := fun X v w e =>
  match e in linkE X return X * link with
  | SetReadTimeout => faulty v w (Ok tt, w)
  | SetWriteTimeout => faulty v w (Ok tt, w)
  | ReadByte => faulty v w (answered (read_byte (input w)) w)
  | ReadRest n => faulty v w (answered (read_exact n (input w)) w)
  | Guard e => guard_exec v w e
  | Handle packet => (outcome v, add_handled w packet (outcome v))
  | WriteAll b => faulty v (add_written w (firstn (partial v) b)) (Ok tt, add_written w b)
  end.

(** ** The specification *)

(** A packet the loop accepts. *)
Definition acceptable (packet : bytes) : Prop := 1 <= len packet <= MAX_PACKET_LENGTH.

Definition replies (h : list (bytes * result bytes bytes)) : bytes :=
  concat ((fun x => match Runtime.respond (snd x) with Ok response => response | _ => [] end) <$> h).
Definition requests (h : list (bytes * result bytes bytes)) : bytes :=
  concat ((fun x => prefixed (fst x)) <$> h).

Definition start (s : source) : link := mkLink s [] [] false.
Definition failure_frame : bytes := prefixed [b8 SSH_AGENT_FAILURE].

(** Every packet handled was a complete acceptable frame of the client's bytes, in their
    order, and what was written are the replies in the same order, cut short only at the
    end, where the answer to a bad length may follow. *)
Definition in_order (s0 : source) (w : link) : Prop :=
  Forall (fun x => acceptable (fst x)) (handled w) /\
  (exists rest, avail s0 = requests (handled w) ++ rest) /\
  written w `prefix_of` replies (handled w) ++ failure_frame.

(** Between two packets. *)
Record between (s0 : source) (w : link) : Prop := {
  bt_acceptable : Forall (fun x => acceptable (fst x)) (handled w);
  bt_input : avail s0 = requests (handled w) ++ avail (input w);
  bt_ending : ending (input w) = ending s0;
  bt_written : written w = replies (handled w);
  bt_monitored : monitored w = false;
}.

Definition served (s0 : source) (x : option (result bytes unit)) (w : link) : Prop :=
  match x with
  | Some (Ok _) => avail s0 = requests (handled w) /\ ending s0 = None /\
      written w = replies (handled w) /\ monitored w = false
  | _ => True
  end.

Lemma failure_response_eq : failure_response = Ok failure_frame.
Proof. by vm_compute. Qed.

Lemma replies_snoc h p r response :
  Runtime.respond r = Ok response -> replies (h ++ [(p, r)]) = replies h ++ response.
Proof.
  intros H. unfold replies. rewrite fmap_app, concat_app. cbn. rewrite H. by rewrite app_nil_r.
Qed.

Lemma requests_snoc h p r : requests (h ++ [(p, r)]) = requests h ++ prefixed p.
Proof. unfold requests. rewrite fmap_app, concat_app. cbn. by rewrite app_nil_r. Qed.

Lemma between_in_order s0 w : between s0 w -> in_order s0 w.
Proof.
  intros [H1 H2 _ H4 _]. split_and!; [done|eauto|]. rewrite H4. by eexists.
Qed.

(** Reading moves the input and nothing else. *)
Lemma in_order_input s0 w s : in_order s0 w -> in_order s0 (set_input w s).
Proof. done. Qed.

Lemma read_exact_Ok n s b s' :
  0 <= n -> read_exact n s = Ok (b, s') -> avail s = b ++ avail s' /\ len b = n /\ ending s' = ending s.
Proof.
  intros Hn. unfold read_exact, split_at_checked. destruct (len (avail s) <? n) eqn:E; [done|].
  intros [= <- <-]. cbn. rewrite take_drop. split_and!; [done| |done]. bool_lia.
Qed.

Lemma read_exact_no_panic n s : read_exact n s <> Panic.
Proof. unfold read_exact. by destruct (split_at_checked _ _) as [[? ?]|]. Qed.

Section Serve.
Context (s0 : source).

(** An operation that may fail without a trace, or moves the input. *)
Lemma safe_read {A} (prefix0 : bytes) (e : linkE (io_result A)) (r : source -> io_result (A * source)) Q w :
  (forall v, exec v w e = faulty v w (answered (r (input w)) w)) ->
  r (input w) <> Panic -> in_order s0 w ->
  (forall error, Q (Err error) w) -> (forall a s, r (input w) = Ok (a, s) -> Q (Ok a) (set_input w s)) ->
  safe (in_order s0) (fails_as prefix0 e) Q w.
Proof.
  intros He Hr Hw Herr Hok. apply safe_map_err, safe_vis; [done|]. intros v. rewrite He. unfold faulty.
  destruct (io_fault v); [apply safe_ret; [done|]; split; [done|]; apply Herr|].
  destruct (r (input w)) as [[a s]|err|] eqn:E; [..|done]; (apply safe_ret; [done|]; split; [done|]).
  - by apply Hok.
  - apply Herr.
Qed.

Lemma read_packet_length_safe w :
  between s0 w ->
  safe (in_order s0) read_packet_length
    (fun r w' => in_order s0 w' /\
       match r with
       | Ok None => w' = w /\ avail (input w) = [] /\ ending (input w) = None
       | Ok (Some n) => exists b s, w' = set_input w s /\ avail (input w) = b ++ avail s /\
           ending s = ending (input w) /\ len b = 4 /\ from_be b = n
       | Err _ => True
       | Panic => False
       end) w.
Proof.
  intros Hw. pose proof (between_in_order _ _ Hw) as Ho. unfold read_packet_length.
  apply safe_try, (safe_read _ _ read_byte); [done| |done|intros; split; [done|by split]|].
  { unfold read_byte. destruct (avail (input w)), (ending (input w)); done. }
  intros first s Hr. unfold read_byte in Hr. destruct (avail (input w)) as [|b l] eqn:El.
  - destruct (ending (input w)) eqn:Ee; [done|]. injection Hr as <- <-.
    apply safe_ret; [done|]. split; [done|]. split; [by destruct w|done].
  - assert (first = Some b /\ s = mkSource l (ending (input w))) as [-> ->].
    { destruct (ending (input w)); by injection Hr as <- <-. }
    apply safe_try, (safe_read _ _ (read_exact 3)); [done|apply read_exact_no_panic|done|intros; split; [done|by split]|].
    intros rest s (Hs & Hl & He)%read_exact_Ok; [|lia]. cbn in Hs, He.
    assert (len (b :: rest) = 4) as H4 by (rewrite len_cons; lia).
    pose proof (from_be_u32 _ H4) as Hn. rewrite usize_of_u32 by lia. cbn [ok_or mbind result_bind].
    apply safe_ret; [done|]. split; [done|]. exists (b :: rest), s.
    split_and!; [done|by rewrite Hs|done|done|done].
Qed.

(** The end of the loop; running out of fuel implies [P]. *)
Definition ended (P : Prop) (x : option (result bytes unit)) (w : link) : Prop :=
  in_order s0 w /\ served s0 x w /\ (x = None -> P).

Lemma stop_safe P w r : in_order s0 w -> (forall u, r <> Ok u) ->
  safe (in_order s0) (Ret (Some r)) (ended P) w.
Proof.
  intros Hw Hr. apply safe_ret; [done|]. split; [done|]. split; [|done].
  destruct r as [u| |]; [by destruct (Hr u)|done..].
Qed.

(** The monitor around the handling of a packet. *)
Lemma start_guarded w :
  in_order s0 w ->
  safe (in_order s0) (on_guard Monitor.RequestMonitor_start)
    (fun r w' => match r with Ok _ => w' = set_monitored w true | Err _ => w' = w | Panic => False end) w.
Proof.
  intros Hw. split; [done|]. intros v. unfold exec, link_handler, guard_exec, faulty.
  destruct (io_fault v); [by split|]. split; [done|]. intros v2. cbn. unfold faulty. by destruct (io_fault v2).
Qed.

Lemma drop_guarded w :
  in_order s0 w -> safe (in_order s0) (on_guard Monitor.RequestMonitor_drop) (fun _ w' => w' = set_monitored w false) w.
Proof. intros Hw. split; [done|]. intros v. split; [done|]. by intros v2. Qed.

Lemma answer_safe fuel w packet s (IH : forall w, between s0 w ->
    safe (in_order s0) (serve_packets fuel) (ended (5 * Z.of_nat fuel <= len (avail (input w)))) w) :
  between s0 w -> acceptable packet -> avail (input w) = prefixed packet ++ avail s ->
  ending s = ending (input w) ->
  safe (in_order s0)
    (monitor ← on_guard Monitor.RequestMonitor_start;
     match monitor with
     | Ok _ =>
         outcome ← trigger (Handle packet);
         match outcome with
         | Panic => _ ← on_guard Monitor.RequestMonitor_drop; Ret (Some Panic)
         | _ =>
             match Runtime.respond outcome with
             | Ok response =>
                 _ ← on_guard Monitor.RequestMonitor_drop;
                 written ← fails_as (str "cannot write SSH agent response: ") (WriteAll response);
                 match written with
                 | Ok _ => serve_packets fuel
                 | Err error => Ret (Some (Err error))
                 | Panic => Ret (Some Panic)
                 end
             | _ => Ret (Some Panic)
             end
         end
     | Err error => Ret (Some (Err error))
     | Panic => Ret (Some Panic)
     end)
    (ended (5 * Z.of_nat fuel <= len (avail s))) (set_input w s).
Proof.
  intros [H1 H2 H3 H4 H5] Hp Hin Hend.
  assert (forall b r, in_order s0 (set_monitored (add_handled (set_input w s) packet r) b)) as Hh.
  { intros b r. split_and!; cbn [handled set_monitored add_handled set_input written].
    - apply Forall_app. split; [done|by constructor].
    - exists (avail s). rewrite requests_snoc, H2, Hin. by rewrite app_assoc.
    - rewrite H4. unfold replies. rewrite fmap_app, concat_app, <- app_assoc. by eexists. }
  assert (in_order s0 (set_input w s)) as Hw by (apply in_order_input, between_in_order; by split).
  assert (in_order s0 (set_monitored (set_input w s) true)) as Hm by exact Hw.
  apply safe_bind. eapply safe_mono; [done| |by apply start_guarded].
  intros [u|e|] w0; [intros ->|intros ->; by apply stop_safe|done].
  apply safe_bind, safe_vis; [done|]. intros v3. unfold exec, link_handler. cbn [fst snd].
  set (w1 := add_handled _ packet (outcome v3)).
  assert (in_order s0 w1) as Hw1 by apply (Hh true). apply safe_ret; [done|].
  assert (forall response, Runtime.respond (outcome v3) = Ok response ->
    safe (in_order s0)
      (_ ← on_guard Monitor.RequestMonitor_drop;
       written ← fails_as (str "cannot write SSH agent response: ") (WriteAll response);
       match written with
       | Ok _ => serve_packets fuel
       | Err error => Ret (Some (Err error))
       | Panic => Ret (Some Panic)
       end) (ended (5 * Z.of_nat fuel <= len (avail s))) w1) as Hwrite.
  { intros response Hresp. apply safe_bind. eapply safe_mono; [done| |by apply drop_guarded]. intros _ w0 ->.
    apply safe_bind, safe_map_err, safe_vis; [by apply (Hh false)|]. intros v5.
    set (w2 := set_monitored w1 false). assert (written w2 = replies (handled w)) as Hwr by (cbn; exact H4).
    assert (replies (handled w2) = replies (handled w) ++ response) as Hrep by (by apply replies_snoc).
    assert (forall n, in_order s0 (add_written w2 (firstn n response))) as Hpart.
    { intros n. destruct (Hh false (outcome v3)) as (Ha & Hb & _). split_and!; [done|done|].
      change (handled (add_written w2 _)) with (handled w2). cbn [written add_written]. rewrite Hwr, Hrep.
      exists (skipn n response ++ failure_frame). rewrite <- !app_assoc. f_equal.
      by rewrite app_assoc, take_drop. }
    change (exec v5 w2 (WriteAll response)) with
      (faulty v5 (add_written w2 (firstn (partial v5) response)) (Ok tt, add_written w2 response)).
    unfold faulty. destruct (io_fault v5); cbn [fst snd].
    - apply safe_ret; [apply Hpart|]. split; [apply Hpart|]. cbn [map_err]. apply safe_ret; [apply Hpart|].
      split; [apply Hpart|done].
    - pose proof (Hpart (length response)) as Hall. rewrite firstn_all in Hall.
      apply safe_ret; [done|]. split; [done|]. cbn [map_err]. apply (IH (add_written w2 response)). split; cbn [add_written written].
      + apply Hall.
      + change (handled (add_written w2 response)) with (handled w ++ [(packet, outcome v3)]).
        rewrite requests_snoc, H2, Hin. by rewrite <- app_assoc.
      + by rewrite <- H3.
      + change (handled (add_written w2 response)) with (handled w2). by rewrite Hwr, Hrep.
      + done. }
  destruct (outcome v3) as [response|e|] eqn:Eo.
  - by apply Hwrite.
  - apply Hwrite. done.
  - apply safe_bind. eapply safe_mono; [done| |by apply drop_guarded]. intros _ w0 ->.
    apply stop_safe; [apply (Hh false)|done].
Qed.

Lemma serve_safe fuel w :
  between s0 w ->
  safe (in_order s0) (serve_packets fuel) (ended (5 * Z.of_nat fuel <= len (avail (input w)))) w.
Proof.
  revert w. induction fuel as [|fuel IH]; intros w Hw; cbn [serve_packets]; pose proof (between_in_order _ _ Hw) as Ho.
  { apply safe_ret; [done|]. split_and!; [done|done|]. intros _. pose proof (len_nonneg (avail (input w))). lia. }
  apply safe_bind. eapply safe_mono; [done| |by apply read_packet_length_safe].
  intros r w1 [H1 Hr]. destruct r as [[n|]|e|]; [..|by apply stop_safe|done].
  2: { destruct Hr as (-> & Ha & He). apply safe_ret; [done|]. split; [done|]. split; [|done]. destruct Hw. split_and!; [|congruence|done..].
       by rewrite bt_input0, Ha, app_nil_r. }
  destruct Hr as (b & s & -> & Hb & He & Hlb & Hn).
  destruct ((n =? 0) || (MAX_PACKET_LENGTH <? n)) eqn:Hbad.
  { rewrite failure_response_eq. apply safe_bind, safe_vis; [done|]. intros v.
    assert (forall k, in_order s0 (add_written (set_input w s) (firstn k failure_frame))) as Hfail.
    { intros k. destruct Ho as (Ha & Hb' & _). split_and!; [done|done|]. cbn [written add_written set_input handled].
      rewrite (bt_written _ _ Hw). exists (skipn k failure_frame). rewrite <- app_assoc. f_equal. by rewrite take_drop. }
    change (exec v (set_input w s) (WriteAll failure_frame)) with
      (faulty v (add_written (set_input w s) (firstn (partial v) failure_frame)) (Ok tt, add_written (set_input w s) failure_frame)).
    pose proof (Hfail (length failure_frame)) as Hall. rewrite firstn_all in Hall.
    unfold faulty. destruct (io_fault v); cbn [fst snd];
      (apply safe_ret; [first [exact Hall|apply Hfail]|]); apply stop_safe; first [exact Hall|apply Hfail|done]. }
  assert (acceptable (replicate (Z.to_nat n) (b8 0)) /\ 1 <= n) as [_ Hn1].
  { pose proof (from_be_u32 b Hlb). unfold acceptable. split; [|bool_lia]. rewrite len_replicate. bool_lia. }
  apply safe_bind. apply (safe_read _ _ (read_exact n)); [done|apply read_exact_no_panic|done|intros; by apply stop_safe|].
  intros packet s' (Hs & Hl & He')%read_exact_Ok; [|lia]. cbn [input set_input] in Hs, He'.
  assert (b ++ packet = prefixed packet) as Hframe.
  { unfold prefixed. rewrite Hl, <- Hn. f_equal. symmetry. apply to_be_from_be'. unfold len in Hlb. lia. }
  change (set_input (set_input w s) s') with (set_input w s').
  eapply safe_mono; [done| |apply (answer_safe fuel w packet s' IH Hw)].
  - intros x w2 (? & ? & Hx). split_and!; [done..|]. intros ->. specialize (Hx eq_refl).
    rewrite Hb, Hs, !len_app, Hlb, Hl. lia.
  - unfold acceptable. rewrite Hl. bool_lia.
  - by rewrite Hb, Hs, <- Hframe, app_assoc.
  - congruence.
Qed.

Lemma serve_connection_safe fuel :
  safe (in_order s0) (serve_connection fuel) (ended (5 * Z.of_nat fuel <= len (avail s0))) (start s0).
Proof.
  assert (between s0 (start s0)) as Hb by (by split). pose proof (between_in_order _ _ Hb) as Ho.
  unfold serve_connection. apply safe_bind, safe_map_err, safe_vis; [done|]. intros v.
  change (exec v (start s0) SetReadTimeout) with (faulty v (start s0) (Ok tt, start s0)).
  unfold faulty. destruct (io_fault v); cbn [fst snd].
  { apply safe_ret; [done|]. split; [done|]. by apply stop_safe. }
  apply safe_ret; [done|]. split; [done|]. cbn [map_err].
  apply safe_bind, safe_map_err, safe_vis; [done|]. intros v2.
  change (exec v2 (start s0) SetWriteTimeout) with (faulty v2 (start s0) (Ok tt, start s0)).
  unfold faulty. destruct (io_fault v2); cbn [fst snd].
  { apply safe_ret; [done|]. split; [done|]. by apply stop_safe. }
  apply safe_ret; [done|]. split; [done|]. cbn [map_err]. exact (serve_safe fuel (start s0) Hb).
Qed.
End Serve.

(** ** A client that is served *)

Section Run.
Context (calm : link_choice).

(** No operation fails and the agent answers. *)
Definition good (v : link_choice) : Prop := io_fault v = None /\ outcome v <> Panic.
Hypothesis calm_good : good calm.

Lemma run_vis {A X} (e : linkE X) (k : X -> prog linkE A) vs w (P : A * link -> Prop) :
  Forall good vs ->
  (forall v vs', good v -> Forall good vs' -> P (run calm (k (fst (exec v w e))) vs' (snd (exec v w e)))) ->
  P (run calm (Vis e k) vs w).
Proof.
  intros Hvs H. cbn [run]. set (v := match vs with v :: _ => v | [] => calm end).
  assert (good v /\ Forall good (tail vs)) as [Hv Ht] by (by destruct Hvs).
  specialize (H v (tail vs) Hv Ht). by destruct (exec v w e).
Qed.

(** One step of an execution: [P] is what is claimed of its end. *)
Ltac run_step P :=
  apply (run_vis _ _ _ _ P); [done|];
  let v := fresh "v" in let Hv := fresh "Hv" in let Ho := fresh "Ho" in
  intros v ?vs [Hv Ho] ?Hvs; unfold exec, link_handler, guard_exec, faulty; try rewrite Hv.

(** The rest of the loop after a frame has been read. *)
Lemma serve_packets_run packets vs w fuel :
  Forall good vs -> Forall acceptable packets -> (length packets < fuel)%nat ->
  input w = mkSource (concat (prefixed <$> packets)) None ->
  fst (run calm (serve_packets fuel) vs w) = Some (Ok tt) /\
  (handled (snd (run calm (serve_packets fuel) vs w))).*1 = (handled w).*1 ++ packets.
Proof.
  intros Hvs Hp. revert vs w fuel Hvs. induction Hp as [|p ps Hp _ IH]; intros vs w fuel Hvs Hf Hin;
    (destruct fuel as [|fuel]; [cbn in Hf; lia|]);
    cbn [serve_packets read_packet_length fails_as map_err_prog try_bind trigger mbind prog_bind];
    match goal with |- fst (run ?c ?q ?l ?x) = _ /\ _ = ?h =>
      set (P := fun r : option (result bytes unit) * link => fst r = Some (Ok tt) /\ (handled (snd r)).*1 = h);
      change (P (run c q l x))
    end.
  - run_step P. rewrite Hin. subst P. cbn. by rewrite app_nil_r.
  - destruct (to_be 4 (len p)) as [|b l] eqn:Eb; [by apply (f_equal len) in Eb; rewrite len_to_be in Eb|].
    assert (len l = 3) as Hl by (apply (f_equal len) in Eb; rewrite len_to_be, len_cons in Eb; lia).
    unfold acceptable, MAX_PACKET_LENGTH in Hp.
    assert (from_be (b :: l) = len p) as Hn by (rewrite <- Eb; apply from_be_to_be_small; cbn; lia).
    assert (input w = mkSource (b :: l ++ p ++ concat (prefixed <$> ps)) None) as Hin'.
    { rewrite Hin. f_equal. cbn [fmap list_fmap concat]. unfold prefixed at 1. rewrite Eb. cbn. by rewrite <- app_assoc. }
    run_step P. rewrite Hin'. cbn [read_byte avail ending answered fst snd map_err mbind prog_bind try_bind].
    run_step P. cbn [input set_input]. rewrite <- Hl, read_exact_app.
    cbn [answered fst snd map_err mbind prog_bind try_bind].
    rewrite Hn, usize_of_u32 by (unfold u32_max; lia). cbn [ok_or mbind result_bind].
    rewrite (proj2 (Z.eqb_neq _ _)) by lia. rewrite (proj2 (Z.ltb_ge _ _)) by (unfold MAX_PACKET_LENGTH; lia).
    cbn [orb fails_as map_err_prog mbind prog_bind trigger].
    run_step P. cbn [input set_input]. rewrite read_exact_app.
    cbn [answered fst snd map_err mbind prog_bind Monitor.RequestMonitor_start Monitor.RequestMonitor_drop on_guard lift fails_as map_err_prog try_bind trigger].
    run_step P. cbn [fst snd map_err mbind prog_bind]. run_step P. cbn [fst snd map_err mbind prog_bind].
    run_step P. cbn [fst snd].
    set (w1 := add_handled _ _ _).
    assert (forall response vs', Forall good vs' -> P (run calm
      (_ ← on_guard Monitor.RequestMonitor_drop;
       written ← fails_as (str "cannot write SSH agent response: ") (WriteAll response);
       match written with
       | Ok _ => serve_packets fuel
       | Err error => Ret (Some (Err error))
       | Panic => Ret (Some Panic)
       end) vs' w1)) as Hwrite.
    { intros response vs' Hvs'. cbn [fails_as map_err_prog mbind prog_bind trigger].
      do 3 (run_step P; cbn [fst snd map_err mbind prog_bind]).
      specialize (IH _ (add_written (set_monitored w1 false) response) fuel Hvs8).
      assert (length ps < fuel)%nat as Hfp by (cbn in Hf; lia). specialize (IH Hfp eq_refl).
      destruct IH as [IH1 IH2]. split; [exact IH1|].
      etrans; [exact IH2|]. cbn. rewrite fmap_app, <- app_assoc. done. }
    destruct (outcome v4) as [response|e|]; [by apply Hwrite..|done].
Qed.

(** The two timeouts that [serve_connection] sets first. *)
Lemma serve_connection_run packets vs fuel :
  Forall good vs -> Forall acceptable packets -> (length packets < fuel)%nat ->
  let r := run calm (serve_connection fuel) vs (start (mkSource (concat (prefixed <$> packets)) None)) in
  fst r = Some (Ok tt) /\ (handled (snd r)).*1 = packets.
Proof.
  intros Hvs Hp Hf r. subst r. set (w := start _).
  set (P := fun r : option (result bytes unit) * link => fst r = Some (Ok tt) /\ (handled (snd r)).*1 = packets).
  change (P (run calm (serve_connection fuel) vs w)).
  cbn [serve_connection fails_as map_err_prog mbind prog_bind trigger].
  run_step P. cbn [fst snd map_err mbind prog_bind]. run_step P. cbn [fst snd map_err mbind prog_bind].
  exact (serve_packets_run packets vs1 w fuel Hvs1 Hp Hf eq_refl).
Qed.
End Run.

(** ** Property *)

(** [C16] Requests are answered one at a time and in order.  Whatever bytes a client sends,
    in whatever execution: the packets handled are complete frames of acceptable length,
    exactly those the client sent up to that point, and what it has been sent is their
    replies in the same order, cut short only by a failing write; a bad length is answered
    by the failure frame.  The connection ends, after at most one round per five bytes of
    input.  It ends normally only when the client closed after its last frame with every
    reply written and no monitor left running, and it does end so, with every packet
    handled, for every client that sends acceptable packets and closes, unless an
    operation fails or the handler panics. *)
Theorem connection_serves_in_order s0 fuel :
  (forall p w, reach (serve_connection fuel) (start s0) p w ->
     in_order s0 w /\ forall x, p = Ret x -> served s0 x w) /\
  (len (avail s0) < 5 * Z.of_nat fuel ->
     forall calm vs, fst (run calm (serve_connection fuel) vs (start s0)) <> None) /\
  (forall packets calm vs, s0 = mkSource (concat (prefixed <$> packets)) None ->
     Forall acceptable packets -> (length packets < fuel)%nat -> good calm -> Forall good vs ->
     let r := run calm (serve_connection fuel) vs (start s0) in
     fst r = Some (Ok tt) /\ (handled (snd r)).*1 = packets /\ written (snd r) = replies (handled (snd r))).
Proof.
  pose proof (serve_connection_safe s0 fuel) as Hs. split_and!.
  - intros p w Hr. split; [by eapply safe_reach_inv|]. intros x ->.
    by destruct (safe_reach_ret _ _ _ _ _ _ Hs Hr) as (_ & ? & _).
  - intros Hf calm vs E. destruct (safe_run _ calm _ _ vs _ Hs) as (_ & _ & H). specialize (H E). lia.
  - intros packets calm vs -> Hp Hf Hc Hvs r.
    destruct (serve_connection_run calm Hc packets vs fuel Hvs Hp Hf) as [H1 H2]. split_and!; [done..|].
    destruct (safe_run _ calm _ _ vs _ Hs) as (_ & H & _). fold r in H1, H. rewrite H1 in H. apply H.
Qed.
