(* ===== verification/Limiter.v ===== *)
(** [ConnectionLimiter] of crates/keyvisor-agent/src/main.rs: a counting semaphore made of a
    mutex and a condition variable.

    A thread that finds the limit reached sleeps on the condition variable; a dropped permit
    wakes one sleeper, which looks at the counter again when it gets the mutex.  Wake-ups can
    be spurious.  Each event below is one critical section. *)

From S2P Require Import Prelude.

(** ** State *)

(** Threads are numbered; [sleeping] wait on the condition variable, [woken] have been
    notified but not yet run, [holders] have a [ConnectionPermit]. *)
Record limiter := mkLimiter {
  maximum : Z;
  active : Z;
  sleeping : gset Z;
  woken : gset Z;
  holders : gset Z;
}.

Definition limiter_new (maximum : Z) : limiter := mkLimiter maximum 0 ∅ ∅ ∅.

Definition saturating_sub (a b : Z) : Z := Z.max 0 (a - b).

(** The loop test of [acquire] by a thread that holds the mutex: it takes a permit or goes
    to sleep, which releases the mutex in the same step. *)
Definition try_acquire (s : limiter) (t : Z) : limiter :=
  if maximum s <=? active s
  then mkLimiter (maximum s) (active s) ({[t]} ∪ sleeping s) (woken s) (holders s)
  else mkLimiter (maximum s) (active s + 1) (sleeping s) (woken s) ({[t]} ∪ holders s).

(** [notify_one] wakes one sleeper when there is any; [t] is the one the system picks. *)
Definition notify_one (s : limiter) (t : Z) : limiter :=
  if bool_decide (t ∈ sleeping s)
  then mkLimiter (maximum s) (active s) (sleeping s ∖ {[t]}) ({[t]} ∪ woken s) (holders s)
  else s.

(** [ConnectionPermit::drop]. *)
Definition release (s : limiter) (t picked : Z) : limiter :=
  notify_one (mkLimiter (maximum s) (saturating_sub (active s) 1) (sleeping s) (woken s) (holders s ∖ {[t]}))
    picked.

(** ** Steps *)

Inductive event :=
  | Acquire (t : Z)
  | Resume (t : Z)
  | Spurious (t : Z)
  | Drop (t picked : Z).

(** [None] when the thread is not there; a drop must pick a sleeper when there is one. *)
Definition step (s : limiter) (e : event) : option limiter :=
  match e with
  | Acquire t =>
      if bool_decide (t ∈ sleeping s ∪ woken s ∪ holders s) then None else Some (try_acquire s t)
  | Resume t =>
      if bool_decide (t ∈ woken s)
      then Some (try_acquire (mkLimiter (maximum s) (active s) (sleeping s) (woken s ∖ {[t]}) (holders s)) t)
      else None
  | Spurious t =>
      if bool_decide (t ∈ sleeping s) then Some (notify_one s t) else None
  | Drop t picked =>
      if bool_decide (t ∈ holders s) && bool_decide (picked ∈ sleeping s \/ sleeping s = ∅)
      then Some (release s t picked) else None
  end.

Fixpoint steps (s : limiter) (es : list event) : option limiter :=
  match es with
  | [] => Some s
  | e :: es => s ← step s e; steps s es
  end.

(** ** The invariant *)

Record inv (m : Z) (s : limiter) : Prop := {
  inv_maximum : maximum s = m;
  inv_active : active s = Z.of_nat (size (holders s));
  inv_limit : active s <= m;
  inv_disjoint : sleeping s ## woken s /\ sleeping s ## holders s /\ woken s ## holders s;
  (** The free permits all have a thread on its way. *)
  inv_wakeups : sleeping s <> ∅ -> m - active s <= Z.of_nat (size (woken s));
}.

Lemma size_add (X : gset Z) t : t ∉ X -> Z.of_nat (size ({[t]} ∪ X)) = Z.of_nat (size X) + 1.
Proof. intros H. rewrite size_union, size_singleton by set_solver. lia. Qed.

Lemma size_remove (X : gset Z) t : t ∈ X -> Z.of_nat (size (X ∖ {[t]})) = Z.of_nat (size X) - 1.
Proof.
  intros H. pose proof (size_add (X ∖ {[t]}) t ltac:(set_solver)) as E.
  replace ({[t]} ∪ X ∖ {[t]}) with X in E; [lia|]. apply leibniz_equiv.
  rewrite <- union_difference; set_solver.
Qed.

Lemma inv_new m : 0 <= m -> inv m (limiter_new m).
Proof. intros H. split; cbn; [done|by rewrite size_empty|lia|set_solver|done]. Qed.

(** A thread that is nowhere takes a permit or goes to sleep; it may leave its wake-up
    behind. *)
Lemma inv_try_acquire m s t extra :
  t ∉ sleeping s -> t ∉ woken s -> t ∉ holders s ->
  maximum s = m -> active s = Z.of_nat (size (holders s)) -> active s <= m ->
  sleeping s ## woken s /\ sleeping s ## holders s /\ woken s ## holders s ->
  0 <= extra <= 1 -> (sleeping s <> ∅ -> m - active s <= Z.of_nat (size (woken s)) + extra) ->
  inv m (try_acquire s t).
Proof.
  intros H1 H2 H3 Hm Ha Hl Hd He Hw. unfold try_acquire. rewrite Hm. destruct (m <=? active s) eqn:E.
  - split; cbn; [done..|set_solver|]. intros _. bool_lia.
  - split; cbn; [done|rewrite size_add by done; lia|bool_lia|set_solver|]. intros Hs. specialize (Hw Hs). lia.
Qed.

Lemma limiter_inv_step m s e s' : inv m s -> step s e = Some s' -> inv m s'.
Proof.
  intros [Hm Ha Hl Hd Hw] Hs. destruct e as [t|t|t|t picked]; cbn [step] in Hs.
  - case_bool_decide as Ht; [done|]. injection Hs as <-.
    apply not_elem_of_union in Ht as [[Ht1 Ht2]%not_elem_of_union Ht3].
    apply (inv_try_acquire m s t 0); [done..|lia|]. intros Hn. specialize (Hw Hn). lia.
  - case_bool_decide as Ht; [|done]. injection Hs as <-.
    destruct Hd as (Hd1 & Hd2 & Hd3).
    apply (inv_try_acquire m _ t 1); cbn; [clear - Hd1 Ht; set_solver|set_solver|clear - Hd3 Ht; set_solver|done..|clear - Hd1 Hd2 Hd3; set_solver|lia|].
    intros Hn. specialize (Hw Hn). rewrite size_remove by done. lia.
  - case_bool_decide as Ht; [|done]. injection Hs as <-. unfold notify_one. rewrite bool_decide_true by done.
    split; cbn; [done|done|done|set_solver|]. intros Hn. rewrite size_add by set_solver.
    assert (sleeping s <> ∅) as Hs by set_solver. specialize (Hw Hs). lia.
  - case_bool_decide as Ht; [|done]. case_bool_decide as Hp; [|done]. injection Hs as <-.
    assert (1 <= active s) as H1.
    { rewrite Ha. assert (size (holders s) <> 0%nat); [|lia]. apply size_non_empty_iff. set_solver. }
    unfold release, notify_one, saturating_sub. cbn [sleeping].
    destruct Hd as (Hd1 & Hd2 & Hd3).
    case_bool_decide as Hin; split; cbn [maximum active sleeping woken holders].
    + done.
    + rewrite size_remove by done. lia.
    + lia.
    + clear - Hd1 Hd2 Hd3 Hin. split_and!; set_solver.
    + intros _. rewrite size_add by (clear - Hd1 Hin; set_solver).
      assert (sleeping s <> ∅) as Hn by (intros E; rewrite E in Hin; by apply elem_of_empty in Hin).
      specialize (Hw Hn). lia.
    + done.
    + rewrite size_remove by done. lia.
    + lia.
    + clear - Hd1 Hd2 Hd3. split_and!; set_solver.
    + intros Hn. by destruct Hp.
Qed.

Lemma limiter_inv_steps m s es s' : inv m s -> steps s es = Some s' -> inv m s'.
Proof.
  revert s. induction es as [|e es IH]; intros s Hi; cbn [steps]; [by intros [= <-]|].
  destruct (step s e) as [s1|] eqn:E; [|done]. cbn. apply IH. by eapply limiter_inv_step.
Qed.

(** ** Property *)

(** The number of connections is bounded and no wake-up is lost.  In every
    interleaving of threads, with spurious wake-ups: the counter is the number of permits
    alive, which never exceeds the maximum; the saturating subtraction never saturates;
    and as long as a thread sleeps while permits are free, a woken thread is on its way and
    takes one as soon as it runs. *)
Theorem limiter_is_bounded m es s :
  0 <= m -> steps (limiter_new m) es = Some s ->
  active s = Z.of_nat (size (holders s)) /\ active s <= m /\
  (forall t picked s', step s (Drop t picked) = Some s' -> active s' = active s - 1) /\
  (sleeping s <> ∅ -> active s < m ->
     exists t, t ∈ woken s /\ exists s', step s (Resume t) = Some s' /\ t ∈ holders s').
Proof.
  intros Hm Hs. pose proof (limiter_inv_steps m _ es s (inv_new m Hm) Hs) as Hi. destruct Hi as [Hmax Ha Hl Hd Hw].
  split_and!; [done..| |].
  - intros t picked s' Hst. assert (inv m s') as Hi' by (eapply limiter_inv_step; [|exact Hst]; by split).
    cbn [step] in Hst. case_bool_decide as Ht; [|done]. case_bool_decide; [|done]. injection Hst as <-.
    rewrite (inv_active _ _ Hi'). unfold release, notify_one. cbn [sleeping].
    case_bool_decide; cbn; rewrite size_remove by done; lia.
  - intros Hn Hlt. specialize (Hw Hn).
    destruct (set_choose_or_empty (woken s)) as [[t Ht]|He].
    + exists t. split; [done|]. cbn [step]. rewrite bool_decide_true by done. eexists. split; [done|].
      unfold try_acquire. cbn. rewrite Hmax, (proj2 (Z.leb_gt _ _)) by lia. cbn. set_solver.
    + exfalso. apply leibniz_equiv in He. rewrite He, size_empty in Hw. lia.
Qed.

Module Sample.
(** Two permits, three threads: the third sleeps until the first leaves. *)
Definition trace : list event := [Acquire 1; Acquire 2; Acquire 3; Drop 1 3].

Lemma limiter_is_bounded_witness :
  exists s, steps (limiter_new 2) trace = Some s /\ active s = 1 /\ woken s = {[3]} /\
    active s = Z.of_nat (size (holders s)).
Proof.
  destruct (steps (limiter_new 2) trace) as [s|] eqn:E; [|exfalso; vm_compute in E; discriminate E].
  exists s. split; [reflexivity|].
  assert (0 <= 2) as H2 by lia. pose proof (proj1 (limiter_is_bounded 2 trace s H2 E)) as Ha.
  vm_compute in E. injection E as <-. split; [reflexivity|]. split; [reflexivity|exact Ha].
Defined.
End Sample.
