(* ===== verification/Accept.v ===== *)
(** The agent's two accept loops: the end of [serve] and [spawn_control_service] of
    crates/keyvisor-agent/src/main.rs.

    Each accepted connection waits for a permit of the [ConnectionLimiter], moves it into a
    worker thread, and the worker drops it when it ends; a worker that cannot be started
    drops it with its closure.  The workers end between any two operations of the loop. *)

From S2P Require Import Prelude Bytes Effects FileSystem Limiter.

(** ** The loops *)

Definition MAX_CONNECTIONS : Z := 16.

(** A connection is known by its number.  [TryAcquire] is the first look of
    [ConnectionLimiter::acquire] at the counter and [Awake] a look after a wake-up: whether
    the thread has its permit now.  [Spawn] moves the permit into the worker. *)
Inductive acceptE : Type -> Type :=
  | Accept : acceptE (io_result Z)
  | TryAcquire (connection : Z) : acceptE bool
  | Awake (connection : Z) : acceptE bool
  | Spawn (connection : Z) : acceptE (io_result unit)
  | Eprintln (line : bytes) : acceptE unit.

(** The loop of [acquire]: [None] is running out of [fuel], the looks at the counter. *)
Fixpoint await_permit (fuel : nat) (connection : Z) : prog acceptE (option unit) :=
  match fuel with
  | O => Ret None
  | S fuel =>
      acquired ← trigger (Awake connection);
      if (acquired : bool) then Ret (Some tt) else await_permit fuel connection
  end.

Definition acquire (fuel : nat) (connection : Z) : prog acceptE (option unit) :=
  acquired ← trigger (TryAcquire connection);
  if (acquired : bool) then Ret (Some tt) else await_permit fuel connection.

Section Loop.
(** The two messages of a loop. *)
Context (cannot_start cannot_accept : bytes).

(** The body of [for connection in listener.incoming()]. *)
Definition accept_one (fuel : nat) : prog acceptE (option unit) :=
  connection ← trigger Accept;
  match connection with
  | Ok stream =>
      permit ← acquire fuel stream;
      match permit with
      | Some _ =>
          spawn ← trigger (Spawn stream);
          match spawn with
          | Err error => _ ← trigger (Eprintln (cannot_start ++ message error)); Ret (Some tt)
          | _ => Ret (Some tt)
          end
      | None => Ret None
      end
  | Err error => _ ← trigger (Eprintln (cannot_accept ++ message error)); Ret (Some tt)
  | Panic => Ret None
  end.

(** [incoming] never ends; [rounds] of it. *)
Fixpoint accept_loop (rounds fuel : nat) : prog acceptE (option unit) :=
  match rounds with
  | O => Ret (Some tt)
  | S rounds =>
      r ← accept_one fuel;
      match r with Some _ => accept_loop rounds fuel | None => Ret None end
  end.
End Loop.

(** [serve], and the thread of [spawn_control_service]. *)
Definition serve_clients : nat -> nat -> prog acceptE (option unit) :=
  accept_loop (str "keyvisor-agent: cannot start a client worker: ") (str "keyvisor-agent: cannot accept a client: ").
Definition serve_control_clients : nat -> nat -> prog acceptE (option unit) :=
  accept_loop (str "keyvisor-agent: cannot start a control worker: ")
    (str "keyvisor-agent: cannot accept a control client: ").

(** ** The service *)

(** The limiter, whose threads are the connections; the number of connections accepted, the
    running workers, what became of the connections so far, in order ([true]: a worker was
    started), and what was reported. *)
Record service := mkService {
  limit : limiter;
  accepted : nat;
  workers : gset Z;
  fates : list (Z * bool);
  reports : list bytes;
}.

Definition service_new : service := mkService (limiter_new MAX_CONNECTIONS) 0 ∅ [] [].

Definition set_limit (w : service) (l : limiter) : service := mkService l (accepted w) (workers w) (fates w) (reports w).

(** Before an operation workers end, each waking the sleeper that the system picks, and
    spurious wake-ups happen; then the operation fails or not. *)
Inductive incident :=
  | Ends (connection picked : Z)
  | Wakes (connection : Z).

Record circumstance := mkCircumstance { incidents : list incident; fault : option io_error }.
Definition uneventful : circumstance := mkCircumstance [] None.

Definition happen (w : service) (i : incident) : service :=
  match i with
  | Ends c picked =>
      if bool_decide (c ∈ workers w) then
        match step (limit w) (Drop c picked) with
        | Some l => mkService l (accepted w) (workers w ∖ {[c]}) (fates w) (reports w)
        | None => w
        end
      else w
  | Wakes c => match step (limit w) (Spurious c) with Some l => set_limit w l | None => w end
  end.

Definition disturb (v : circumstance) (w : service) : service := foldl happen w (incidents v).

(** The system's pick of a sleeper, when there is one: with one accepting thread there is at
    most one. *)
Definition a_sleeper (l : limiter) : Z := default 0 (head (elements (sleeping l))).

Definition accept_exec {X} (v : circumstance) (w : service) (e : acceptE X) : X * service :=
  let w := disturb v w in
  match e in acceptE X return X * service with
  | Accept =>
      match fault v with
      | Some error => (Err error, w)
      | None => (Ok (Z.of_nat (accepted w)), mkService (limit w) (S (accepted w)) (workers w) (fates w) (reports w))
      end
  | TryAcquire c =>
      match step (limit w) (Acquire c) with
      | Some l => (bool_decide (c ∈ holders l), set_limit w l)
      | None => (false, w)
      end
  | Awake c =>
      match step (limit w) (Resume c) with
      | Some l => (bool_decide (c ∈ holders l), set_limit w l)
      | None => (false, w)
      end
  | Spawn c =>
      match fault v with
      | Some error =>
          (Err error, mkService (release (limit w) c (a_sleeper (limit w))) (accepted w) (workers w)
             (fates w ++ [(c, false)]) (reports w))
      | None => (Ok tt, mkService (limit w) (accepted w) ({[c]} ∪ workers w) (fates w ++ [(c, true)]) (reports w))
      end
  | Eprintln line => (tt, mkService (limit w) (accepted w) (workers w) (fates w) (reports w ++ [line]))
  end.

#[global] Instance accept_handler : Handler acceptE service circumstance := fun X v w e => accept_exec v w e.

(** ** The states of the loop *)

(** The permits are those of the workers and the one in [hand]; [waiting] is the connection
    whose permit is waited for; all connections but the last [pending] have their fate. *)
Record regular (hand waiting : gset Z) (pending : nat) (w : service) : Prop := mk_regular {
  re_inv : Limiter.inv MAX_CONNECTIONS (limit w);
  re_holders : holders (limit w) = workers w ∪ hand;
  re_disjoint : workers w ## hand;
  re_waiting : sleeping (limit w) ∪ woken (limit w) = waiting;
  re_pending : (length (fates w) + pending = accepted w)%nat;
  re_fates : fst <$> fates w = seqZ 0 (Z.of_nat (length (fates w)));
  re_workers : forall c, c ∈ workers w -> (c, true) ∈ fates w;
}.

Definition free (w : service) : Prop := regular ∅ ∅ 0 w.
(** The connection that is being dealt with is the next one. *)
Definition current (c : Z) (w : service) : Prop := c = Z.of_nat (length (fates w)).
Definition wants (c : Z) (w : service) : Prop := regular ∅ ∅ 1 w /\ current c w.
Definition asleep (c : Z) (w : service) : Prop := regular ∅ {[c]} 1 w /\ current c w.
Definition has (c : Z) (w : service) : Prop := regular {[c]} ∅ 1 w /\ current c w.

Definition in_loop (w : service) : Prop := free w \/ exists c, wants c w \/ asleep c w \/ has c w.

Lemma regular_new : free service_new.
Proof. split; cbn; [by apply inv_new| | |set_solver|done|done|]; set_solver. Qed.

(** A connection that has no fate yet has no worker. *)
Lemma current_fresh hand waiting pending w c : regular hand waiting pending w -> current c w -> c ∉ workers w.
Proof.
  intros [] Hc Hin. apply re_workers0, (list_elem_of_fmap_2 fst) in Hin. rewrite re_fates0 in Hin.
  apply elem_of_seqZ in Hin. unfold current in Hc. cbn in Hin. lia.
Qed.

(** *** What the workers do meanwhile *)

Lemma drop_step l c picked l' : step l (Drop c picked) = Some l' ->
  c ∈ holders l /\ holders l' = holders l ∖ {[c]} /\ sleeping l' ∪ woken l' = sleeping l ∪ woken l.
Proof.
  cbn [step]. case_bool_decide as Hc; [|done]. case_bool_decide as Hp; [|done]. intros [= <-].
  unfold release, notify_one. cbn [sleeping]. case_bool_decide as Hs; cbn; split_and!; try done.
  apply leibniz_equiv. intros x. destruct (decide (x = picked)); set_solver.
Qed.

Lemma spurious_step l c l' : step l (Spurious c) = Some l' ->
  holders l' = holders l /\ sleeping l' ∪ woken l' = sleeping l ∪ woken l.
Proof.
  cbn [step]. case_bool_decide as Hc; [|done]. intros [= <-]. unfold notify_one. rewrite bool_decide_true by done. cbn.
  split; [done|]. apply leibniz_equiv. intros x. destruct (decide (x = c)); set_solver.
Qed.

Lemma happen_regular hand waiting pending w i :
  regular hand waiting pending w -> regular hand waiting pending (happen w i) /\ length (fates (happen w i)) = length (fates w).
Proof.
  intros Hr. pose proof Hr as [Hi Hh Hd Hw Hp Hf Hk]. destruct i as [c picked|c]; cbn [happen].
  - case_bool_decide as Hc; [|done]. destruct (step (limit w) (Drop c picked)) as [l|] eqn:E; [|done].
    destruct (drop_step _ _ _ _ E) as (_ & E1 & E2). split; [|done].
    split; cbn; [by eapply limiter_inv_step| |set_solver|congruence|done|done|].
    + rewrite E1, Hh. apply leibniz_equiv. set_solver.
    + intros c' Hc'. apply Hk. set_solver.
  - destruct (step (limit w) (Spurious c)) as [l|] eqn:E; [|done].
    destruct (spurious_step _ _ _ E) as [E1 E2]. split; [|done].
    split; cbn; [by eapply limiter_inv_step|congruence|done|congruence|done..].
Qed.

Lemma disturb_regular hand waiting pending v w :
  regular hand waiting pending w ->
  regular hand waiting pending (disturb v w) /\ length (fates (disturb v w)) = length (fates w).
Proof.
  unfold disturb. revert w. induction (incidents v) as [|i rest IH]; intros w Hr; [done|]. cbn [foldl].
  destruct (happen_regular _ _ _ w i Hr) as [Hr1 E1]. destruct (IH _ Hr1) as [Hr2 E2]. split; [done|congruence].
Qed.

(** *** The operations *)

(** A thread's look at the counter gives it a permit or puts it to sleep. *)
Lemma look pending w l l' c :
  Limiter.inv MAX_CONNECTIONS l' ->
  holders l = workers w ∪ ∅ -> c ∉ workers w -> sleeping l ∪ woken l = ∅ -> l' = try_acquire l c ->
  regular ∅ ∅ pending w \/ regular ∅ {[c]} pending w ->
  if bool_decide (c ∈ holders l') then regular {[c]} ∅ pending (set_limit w l') else regular ∅ {[c]} pending (set_limit w l').
Proof.
  intros Hi Hh Hc Hs -> Hr.
  assert (fst <$> fates w = seqZ 0 (Z.of_nat (length (fates w))) /\ (length (fates w) + pending = accepted w)%nat /\
    forall c, c ∈ workers w -> (c, true) ∈ fates w) as (Hf & Hp & Hk) by (destruct Hr as [Hr|Hr]; by destruct Hr).
  clear Hr. rewrite union_empty_r_L in Hh. revert Hi. unfold try_acquire.
  destruct (_ <=? _); intros Hi.
  - rewrite bool_decide_false by (cbn; by rewrite Hh).
    split; cbn; [exact Hi|by rewrite union_empty_r_L|apply disjoint_empty_r| |done..].
    rewrite <- assoc_L by apply _. by rewrite Hs, union_empty_r_L.
  - rewrite bool_decide_true by (cbn; apply elem_of_union_l, elem_of_singleton_2, eq_refl).
    split; cbn; [exact Hi|by rewrite Hh, (comm_L union)| |done..]. by apply disjoint_singleton_r.
Qed.

Lemma try_acquire_exec c v w : wants c w ->
  let '(b, w') := accept_exec v w (TryAcquire c) in if (b : bool) then has c w' else asleep c w'.
Proof.
  intros [Hr Hc]. destruct (disturb_regular _ _ _ v w Hr) as [Hr' El]. unfold accept_exec.
  revert Hr' El. generalize (disturb v w). clear Hr. intros w' Hr El.
  assert (current c w') as Hc' by (unfold current; congruence). pose proof (current_fresh _ _ _ _ _ Hr Hc') as Hn.
  destruct (step (limit w') (Acquire c)) as [l|] eqn:E; [|exfalso]; pose proof Hr as [Hi Hh Hd Hw Hp Hf Hk]; cbn [step] in E.
  - pose proof (limiter_inv_step _ _ (Acquire c) l Hi E) as Hi'.
    case_bool_decide as Hin; [done|]. injection E as <-.
    pose proof (look 1 w' (limit w') _ c Hi' Hh Hn Hw eq_refl (or_introl Hr)) as Hl. by case_bool_decide.
  - case_bool_decide as Hin; [|done]. set_solver.
Qed.

Lemma awake_exec c v w : asleep c w ->
  let '(b, w') := accept_exec v w (Awake c) in if (b : bool) then has c w' else asleep c w'.
Proof.
  intros [Hr Hc]. destruct (disturb_regular _ _ _ v w Hr) as [Hr' El]. unfold accept_exec.
  revert Hr' El. generalize (disturb v w). clear Hr. intros w' Hr El.
  assert (current c w') as Hc' by (unfold current; congruence). pose proof (current_fresh _ _ _ _ _ Hr Hc') as Hn.
  destruct (step (limit w') (Resume c)) as [l|] eqn:E; [|done]. pose proof Hr as [Hi Hh Hd Hw Hp Hf Hk].
  pose proof (limiter_inv_step _ _ (Resume c) l Hi E) as Hi'. cbn [step] in E. case_bool_decide as Hin; [|done].
  assert (sleeping (limit w') = ∅ /\ woken (limit w') ∖ {[c]} = ∅) as [E1 E2].
  { destruct (inv_disjoint _ _ Hi) as (H1 & _ & _). clear - Hw Hin H1.
    split; apply elem_of_equiv_empty_L; intros x Hx; assert (x ∈ ({[c]} : gset Z)) by (rewrite <- Hw; set_solver); set_solver. }
  injection E as <-. set (l := mkLimiter _ _ _ _ _) in *.
  assert (sleeping l ∪ woken l = ∅) as Hs by (cbn; rewrite E1, E2; by apply leibniz_equiv; set_solver).
  pose proof (look 1 w' l _ c Hi' Hh Hn Hs eq_refl (or_intror Hr)) as Hl. by case_bool_decide.
Qed.

(** *** The loop *)

Section Bounded.
Context (cannot_start cannot_accept : bytes).

Lemma accept_op {X} (e : acceptE X) (Q : X -> service -> Prop) w :
  in_loop w -> (forall v, let '(x, w') := accept_exec v w e in in_loop w' /\ Q x w') -> safe in_loop (trigger e) Q w.
Proof. exact (safe_trigger in_loop e Q w). Qed.

Lemma loop_wants c w : wants c w -> in_loop w. Proof. intros H. right. exists c. auto. Qed.
Lemma loop_asleep c w : asleep c w -> in_loop w. Proof. intros H. right. exists c. auto. Qed.
Lemma loop_has c w : has c w -> in_loop w. Proof. intros H. right. exists c. auto. Qed.

(** [acquire] ends with a permit, or is still waiting. *)
Definition admitted (c : Z) (r : option unit) (w : service) : Prop :=
  match r with Some _ => has c w | None => asleep c w end.

Lemma await_permit_safe fuel c w : asleep c w -> safe in_loop (await_permit fuel c) (admitted c) w.
Proof.
  revert w; induction fuel as [|fuel IH]; intros w Hw; [apply safe_ret; [by eapply loop_asleep|done]|].
  apply safe_bind, accept_op; [by eapply loop_asleep|]. intros v. pose proof (awake_exec c v w Hw) as H.
  destruct (accept_exec v w (Awake c)) as [[] w'].
  - split; [by eapply loop_has|]. apply safe_ret; [by eapply loop_has|done].
  - split; [by eapply loop_asleep|]. by apply IH.
Qed.

Lemma acquire_safe fuel c w : wants c w -> safe in_loop (acquire fuel c) (admitted c) w.
Proof.
  intros Hw. apply safe_bind, accept_op; [by eapply loop_wants|]. intros v. pose proof (try_acquire_exec c v w Hw) as H.
  destruct (accept_exec v w (TryAcquire c)) as [[] w'].
  - split; [by eapply loop_has|]. apply safe_ret; [by eapply loop_has|done].
  - split; [by eapply loop_asleep|]. by apply await_permit_safe.
Qed.

Lemma eprintln_safe line w : free w -> safe in_loop (trigger (Eprintln line)) (fun _ => free) w.
Proof.
  intros Hw. apply accept_op; [by left|]. intros v. cbn. destruct (disturb_regular _ _ _ v w Hw) as [[] _].
  assert (forall w', free w' -> in_loop w' /\ free w') as Hf by (by intros w' H; split; [left|]). by apply Hf.
Qed.

Lemma fates_snoc (l : list (Z * bool)) c b :
  fst <$> l = seqZ 0 (Z.of_nat (length l)) -> c = Z.of_nat (length l) ->
  fst <$> (l ++ [(c, b)]) = seqZ 0 (Z.of_nat (length (l ++ [(c, b)]))).
Proof.
  intros Hl ->. rewrite fmap_app, Hl, length_app, Nat2Z.inj_add, seqZ_app by lia. f_equal.
Qed.

(** A worker is started, or its closure is dropped with its permit. *)
Lemma spawn_exec c v w : has c w ->
  let '(r, w') := accept_exec v w (Spawn c) in free w' /\ r <> Panic.
Proof.
  intros [Hr Hc]. destruct (disturb_regular _ _ _ v w Hr) as [Hr' El]. unfold accept_exec.
  revert Hr' El. generalize (disturb v w). clear Hr. intros w' Hr El.
  assert (c = Z.of_nat (length (fates w'))) as Hc' by (unfold current in Hc; congruence). destruct Hr as [Hi Hh Hd Hw Hp Hf Hk].
  pose proof (fun b => fates_snoc (fates w') c b Hf Hc') as Hn.
  assert (sleeping (limit w') = ∅) as Hs by set_solver.
  destruct (fault v) as [error|]; (split; [|done]).
  - assert (step (limit w') (Drop c (a_sleeper (limit w'))) = Some (release (limit w') c (a_sleeper (limit w')))) as E.
    { cbn [step]. rewrite (bool_decide_true (c ∈ _)) by (rewrite Hh; set_solver). by rewrite bool_decide_true by auto. }
    destruct (drop_step _ _ _ _ E) as (_ & E1 & E2).
    split; cbn; [by eapply limiter_inv_step| |set_solver|congruence|rewrite length_app; cbn; lia|done|].
    + rewrite E1, Hh. set_solver.
    + intros c' H'. apply elem_of_app. left. auto.
  - split; cbn; [done|set_solver|set_solver|done|rewrite length_app; cbn; lia|done|].
    intros c' [->%elem_of_singleton|H']%elem_of_union; apply elem_of_app; [right; by left|left; auto].
Qed.

Lemma accept_one_safe fuel w :
  free w -> safe in_loop (accept_one cannot_start cannot_accept fuel) (fun r w' => r = Some tt -> free w') w.
Proof.
  intros Hw. apply safe_bind, accept_op; [by left|]. intros v. unfold accept_exec.
  destruct (disturb_regular _ _ _ v w Hw) as [Hr _]. revert Hr. generalize (disturb v w). intros w1 Hr.
  destruct (fault v) as [error|].
  - split; [by left|]. apply safe_bind. eapply safe_mono; [..|by apply eprintln_safe]; [done|].
    intros u w2 H2. apply safe_ret; [by left|done].
  - assert (wants (Z.of_nat (accepted w1)) (mkService (limit w1) (S (accepted w1)) (workers w1) (fates w1) (reports w1))) as Hwants.
    { destruct Hr. split; [split; cbn; try done; lia|]. unfold current. cbn. lia. }
    split; [by eapply loop_wants|]. apply safe_bind. eapply safe_mono; [..|by apply acquire_safe]; [done|].
    intros [[]|] w2 H2; [|apply safe_ret; [by eapply loop_asleep|done]].
    apply safe_bind, accept_op; [by eapply loop_has|]. intros v2. pose proof (spawn_exec (Z.of_nat (accepted w1)) v2 w2 H2) as H3.
    destruct (accept_exec v2 w2 (Spawn (Z.of_nat (accepted w1)))) as [r w3]. destruct H3 as [H3 Hr3]. split; [by left|].
    destruct r as [u|error|]; [apply safe_ret; [by left|done]| |done].
    apply safe_bind. eapply safe_mono; [..|by apply eprintln_safe]; [done|].
    intros u w4 H4. apply safe_ret; [by left|done].
Qed.

Lemma accept_loop_safe rounds fuel w :
  free w -> safe in_loop (accept_loop cannot_start cannot_accept rounds fuel) (fun r w' => r = Some tt -> free w') w.
Proof.
  revert w; induction rounds as [|rounds IH]; intros w Hw; [apply safe_ret; [by left|done]|].
  apply safe_bind. eapply safe_mono; [..|exact (safe_end _ _ _ _ (accept_one_safe fuel w Hw))]; [done|].
  intros [[]|] w1 [H1 H2]; [by apply IH, H2|]. by apply safe_ret.
Qed.
End Bounded.

(** ** What the loops promise *)

Lemma in_loop_regular w : in_loop w -> exists hand waiting pending,
  regular hand waiting pending w /\ (pending <= 1)%nat /\ (waiting <> ∅ -> hand = ∅).
Proof.
  intros [H|(c & [[H _]|[[H _]|[H _]]])]; [exists ∅, ∅, 0%nat|exists ∅, ∅, 1%nat|exists ∅, {[c]}, 1%nat|exists {[c]}, ∅, 1%nat];
    split_and!; try done; lia.
Qed.

Lemma workers_bound w : in_loop w -> Z.of_nat (size (workers w)) <= active (limit w) <= MAX_CONNECTIONS.
Proof.
  intros (hand & waiting & pending & Hr & _ & _)%in_loop_regular. destruct Hr as [Hi Hh _ _ _ _ _].
  split; [|apply (inv_limit _ _ Hi)]. rewrite (inv_active _ _ Hi), Hh.
  apply inj_le, subseteq_size, union_subseteq_l.
Qed.

(** The loop sleeps only when there are as many workers as there may be: no wake-up is lost. *)
Lemma sleeping_full w : in_loop w -> sleeping (limit w) <> ∅ ->
  Z.of_nat (size (workers w)) = MAX_CONNECTIONS /\ holders (limit w) = workers w.
Proof.
  intros [H|(c & [[H _]|[[H _]|[H _]]])] Hs; destruct H as [Hi Hh Hd Hw _ _ _];
    try (exfalso; apply Hs; by apply empty_union_L in Hw as [? _]).
  rewrite union_empty_r_L in Hh. split; [|done].
  assert (woken (limit w) = ∅) as E.
  { apply set_choose_L in Hs as [x Hx]. destruct (inv_disjoint _ _ Hi) as (H1 & _ & _). clear - Hw Hx H1.
    apply elem_of_equiv_empty_L. intros y Hy.
    assert (x ∈ ({[c]} : gset Z) /\ y ∈ ({[c]} : gset Z)) as [->%elem_of_singleton ->%elem_of_singleton].
    { rewrite <- Hw. split; [by apply elem_of_union_l|by apply elem_of_union_r]. }
    by apply (H1 c). }
  pose proof (inv_wakeups _ _ Hi Hs) as Hwake. pose proof (inv_limit _ _ Hi). rewrite E, size_empty in Hwake.
  rewrite <- Hh, <- (inv_active _ _ Hi). lia.
Qed.

(** When a worker ends, the sleeper it wakes has its permit at its next look. *)
Lemma worker_wakes w c t :
  in_loop w -> c ∈ sleeping (limit w) -> t ∈ workers w ->
  fst (accept_exec (mkCircumstance [Ends t c] None) w (Awake c)) = true.
Proof.
  intros Hl Hc Ht. assert (sleeping (limit w) <> ∅) as Hs by (intros E; by rewrite E in Hc).
  destruct (sleeping_full w Hl Hs) as [_ Hh]. apply in_loop_regular in Hl as (hand & waiting & pending & [Hi _ _ _ _ _ _] & _).
  unfold accept_exec, disturb. cbn [incidents foldl happen]. rewrite bool_decide_true by done.
  cbn [step]. rewrite (bool_decide_true (t ∈ holders _)) by by rewrite Hh. rewrite (bool_decide_true (c ∈ sleeping (limit w) \/ _)) by by left. cbn [andb limit].
  assert (1 <= active (limit w)) as H1.
  { rewrite (inv_active _ _ Hi), Hh. assert (size (workers w) <> 0%nat); [|lia]. apply size_non_empty_iff. set_solver. }
  pose proof (inv_limit _ _ Hi). unfold release, notify_one. cbn [sleeping]. rewrite (bool_decide_true (c ∈ sleeping (limit w))) by done. cbn [woken].
  rewrite bool_decide_true by set_solver. unfold try_acquire. cbn [maximum active]. rewrite (inv_maximum _ _ Hi).
  unfold saturating_sub. rewrite (proj2 (Z.leb_gt _ _)) by lia. cbn. by apply bool_decide_true, elem_of_union_l, elem_of_singleton.
Qed.

(** [C18] Both accept loops keep within their limit and lose no connection and no permit.
    Whatever connections come, workers end and system calls fail, at every moment: there are
    at most 16 workers, each of its own connection; the connections accepted have been given
    a worker, or been refused when none could be started, in the order they came, up to the
    one at hand; the loop sleeps only while there are 16 workers, and when one of them ends,
    the connection at hand has its permit at the next look; and between two connections the
    permits in use are those of the workers. *)
Theorem accept_loop_is_bounded (loop : nat -> nat -> prog acceptE (option unit)) rounds fuel p w :
  loop = serve_clients \/ loop = serve_control_clients ->
  reach (loop rounds fuel) service_new p w ->
  Z.of_nat (size (workers w)) <= MAX_CONNECTIONS /\
  (forall c, c ∈ workers w -> (c, true) ∈ fates w) /\
  fst <$> fates w = seqZ 0 (Z.of_nat (length (fates w))) /\
  (length (fates w) <= accepted w <= S (length (fates w)))%nat /\
  (forall c, c ∈ sleeping (limit w) ->
     Z.of_nat (size (workers w)) = MAX_CONNECTIONS /\
     forall t, t ∈ workers w -> fst (accept_exec (mkCircumstance [Ends t c] None) w (Awake c)) = true) /\
  (p = Ret (Some tt) -> accepted w = length (fates w) /\ active (limit w) = Z.of_nat (size (workers w))).
Proof.
  intros Hloop Hr.
  assert (safe in_loop (loop rounds fuel) (fun r w' => r = Some tt -> free w') service_new) as Hs
    by (destruct Hloop as [-> | ->]; apply accept_loop_safe, regular_new).
  pose proof (safe_reach_inv _ _ _ _ _ _ Hs Hr) as Hl.
  destruct (in_loop_regular w Hl) as (hand & waiting & pending & [Hi Hh Hd Hw Hp Hf Hk] & Hpending & _).
  split_and!; [destruct (workers_bound w Hl); lia|done|done|lia|lia| |].
  - intros c Hc. split; [apply sleeping_full; [done|]; intros E; by rewrite E in Hc|]. intros t Ht. by apply worker_wakes.
  - intros ->. destruct (safe_reach_ret _ _ _ _ _ _ Hs Hr eq_refl) as [Hi' Hh' _ _ Hp' _ _].
    rewrite union_empty_r_L in Hh'. split; [lia|]. by rewrite (inv_active _ _ Hi'), Hh'.
Qed.

(** ** Seventeen clients *)

Module Sample.
(** The seventeenth waits until the first is done with. *)
Definition crowd : list circumstance :=
  replicate 50 uneventful ++ [uneventful; mkCircumstance [Ends 0 16] None].
Definition rush := run uneventful (serve_clients 17 3) crowd service_new.

Example rush_result :
  (fst rush, size (workers (snd rush)), length (fates (snd rush)), bool_decide (0 ∈ workers (snd rush))) = (Some tt, 16%nat, 17%nat, false).
Proof. vm_compute. reflexivity. Qed.

Lemma accept_loop_is_bounded_witness :
  accepted (snd rush) = 17%nat /\ active (limit (snd rush)) = 16.
Proof.
  assert (fst rush = Some tt) as Hr by (vm_compute; reflexivity).
  pose proof (run_reach uneventful (serve_clients 17 3) crowd service_new) as Hreach. fold rush in Hreach. rewrite Hr in Hreach.
  destruct (accept_loop_is_bounded serve_clients 17 3 _ _ (or_introl eq_refl) Hreach) as (_ & _ & _ & _ & _ & H).
  destruct (H eq_refl) as [-> ->]. split; vm_compute; reflexivity.
Defined.
End Sample.
