(* ===== verification/Sockets.v ===== *)
(** The agent's listening sockets and its start-up: [serve], [activated_or_bound_listener],
    [bind_socket], [bind_guarded_socket], [ensure_private_directory] and [SocketGuard] of
    crates/keyvisor-agent/src/main.rs.

    The operations are those of the file system and a few on sockets: a socket's name is an
    inode of the file system, and a connection to it is accepted while some process has a
    listener bound to it.  Every operation can fail. *)

From S2P Require Import Prelude Bytes Text Effects FileSystem Paths.
From S2P Require Import AtomicFile.
From S2P Require KeyStore History Config.

(** ** Operations *)

(** A listening descriptor: the inode it is bound to and the name it was bound with. *)
Record UnixListener := mkListener {
  bound_inode : Z;
  local_name : option path;
}.

Inductive sockE : Type -> Type :=
  | OnFiles (X : Type) (e : fsE X) : sockE X
  | Bind (p : path) : sockE (io_result UnixListener)
  | Connect (p : path) : sockE (io_result unit)
  | CloseListener (listener : UnixListener) : sockE unit
  | Geteuid : sockE Z
  | InheritedLen : sockE Z
  | TakeUnixListener (index : Z) : sockE (io_result (option UnixListener))
  | LocalAddr (listener : UnixListener) : sockE (io_result (option path))
  | SpawnControl : sockE (io_result unit).

Arguments OnFiles {X} e.

Definition on_files {X} (e : fsE X) : prog sockE X := trigger (OnFiles e).

(** An inode number of the file system counts the inodes of all devices: [dev()] and
    [ino()] of a file are its two halves. *)
Definition dev (m : metadata) : Z := md_ino m / 2 ^ 64.
Definition ino (m : metadata) : Z := md_ino m mod 2 ^ 64.

(** ** Binding *)

(** [ensure_private_directory] of the agent: an existing directory is not repaired. *)
Definition ensure_private_directory (p : path) : prog sockE (io_result unit) :=
  r ← on_files (SymlinkMetadata p);
  match r with
  | Ok metadata =>
      if negb (is_dir (md_type metadata)) || negb (Z.land (md_mode metadata) MODE_0077 =? 0)
      then Ret (Err (mk_io_error PermissionDenied (str "agent socket directory must already be private")))
      else Ret (Ok tt)
  | Err error =>
      if decide (kind error = NotFound) then
        _ ←? on_files (CreateDirAll p MODE_0777);
        on_files (SetPermissions p MODE_0700)
      else Ret (Err error)
  | Panic => Ret Panic
  end.

(** The listener is closed when the function returns an error. *)
Definition finish_socket_bind (p : path) (listener : UnixListener) : prog sockE (result bytes UnixListener) :=
  r ← on_files (SetPermissions p MODE_0600);
  match r with
  | Ok _ => Ret (Ok listener)
  | Err error =>
      _ ← trigger (CloseListener listener);
      Ret (Err (str "cannot protect the agent socket: " ++ message error))
  | Panic => Ret Panic
  end.

Definition bind_socket (p : path) : prog sockE (result bytes UnixListener) :=
  r ← trigger (Bind p);
  match r with
  | Ok listener => finish_socket_bind p listener
  | Err error =>
      if decide (kind error = AddrInUse) then
        metadata ←? map_err_prog (fun inspect => str "cannot inspect existing agent socket: " ++ message inspect)
          (on_files (SymlinkMetadata p));
        if negb (is_socket (md_type metadata)) then
          Ret (Err (str "agent socket path exists and is not a Unix socket"))
        else
          connected ← trigger (Connect p);
          if is_ok connected then Ret (Err (str "another Keyvisor agent is already running"))
          else
            _ ←? map_err_prog (fun remove => str "cannot remove stale agent socket: " ++ message remove)
              (on_files (RemoveFile p));
            listener ←? map_err_prog (fun bind => str "cannot bind the agent socket: " ++ message bind)
              (trigger (Bind p));
            finish_socket_bind p listener
      else Ret (Err (str "cannot bind the agent socket: " ++ message error))
  | Panic => Ret Panic
  end.

Record SocketGuard := mkSocketGuard {
  guard_path : path;
  device : Z;
  inode_number : Z;
}.

(** [Drop for SocketGuard]. *)
Definition SocketGuard_drop (self : SocketGuard) : prog sockE unit :=
  r ← on_files (SymlinkMetadata (guard_path self));
  match r with
  | Ok metadata =>
      if (dev metadata =? device self) && (ino metadata =? inode_number self)
      then _ ← on_files (RemoveFile (guard_path self)); Ret tt
      else Ret tt
  | _ => Ret tt
  end.

(** The [?] operator where a listener is in scope: it is closed before the error is
    returned. *)
Definition or_close {A} (listener : UnixListener) (m : prog sockE (result bytes A)) : prog sockE (result bytes A) :=
  r ← m;
  match r with
  | Ok _ => Ret r
  | _ => _ ← trigger (CloseListener listener); Ret r
  end.

Definition bind_guarded_socket (p : path) : prog sockE (result bytes (UnixListener * SocketGuard)) :=
  parent ←? Ret (ok_or (parent p) (str "control socket path has no parent directory"));
  _ ←? map_err_prog (fun error => str "cannot prepare the control socket directory: " ++ message error)
    (ensure_private_directory parent);
  listener ←? bind_socket p;
  metadata ←? or_close listener (map_err_prog (fun error => str "cannot inspect the control socket: " ++ message error)
    (on_files (SymlinkMetadata p)));
  Ret (Ok (listener, mkSocketGuard p (dev metadata) (ino metadata))).

(** The checks on an inherited listener. *)
Definition check_activated (p : path) (listener : UnixListener) : prog sockE (result bytes unit) :=
  address ←? map_err_prog (fun error => str "cannot inspect the activated Unix socket: " ++ message error)
    (trigger (LocalAddr listener));
  if negb (bool_decide (address = Some p)) then
    Ret (Err (str "activated Unix socket does not match KEYVISOR_AGENT_SOCKET"))
  else
    metadata ←? map_err_prog (fun error => str "cannot inspect the activated Unix socket: " ++ message error)
      (on_files (SymlinkMetadata p));
    euid ← trigger Geteuid;
    if negb (is_socket (md_type metadata))
       || negb (Z.land (md_mode metadata) MODE_0777 =? MODE_0600)
       || negb (md_uid metadata =? euid)
    then Ret (Err (str "activated Unix socket must be owner-owned with mode 0600"))
    else Ret (Ok tt).

Definition activated_or_bound_listener (p : path) :
    prog sockE (result bytes (UnixListener * option SocketGuard)) :=
  inherited ← trigger InheritedLen;
  if 1 <? inherited then
    Ret (Err (str "systemd passed more than one socket; refusing ambiguous activation"))
  else
    taken ←? map_err_prog (fun error => str "cannot accept the activated Unix socket: " ++ message error)
      (trigger (TakeUnixListener 0));
    match taken with
    | Some listener =>
        _ ←? or_close listener (check_activated p listener);
        Ret (Ok (listener, None))
    | None =>
        listener ←? bind_socket p;
        metadata ←? or_close listener (map_err_prog (fun error => str "cannot inspect the agent socket: " ++ message error)
          (on_files (SymlinkMetadata p)));
        Ret (Ok (listener, Some (mkSocketGuard p (dev metadata) (ino metadata))))
    end.

(** ** Start-up *)

(** What [serve] has when it starts accepting connections: [AgentRuntime] without its
    mutable parts, and the sockets. *)
Record service := mkService {
  listener : UnixListener;
  socket_guard : option SocketGuard;
  control_listener : UnixListener;
  control_guard : SocketGuard;
  store : KeyStore.KeyStore;
  history : History.HistoryStore;
  history_enabled : bool;
  authorization_timeout : Z;
}.

(** A socket in scope: an error drops its guard, then closes it. *)
Definition with_socket {A} (listener : UnixListener) (guard : option SocketGuard)
    (m : prog sockE (result bytes A)) : prog sockE (result bytes A) :=
  r ← m;
  match r with
  | Ok _ => Ret r
  | _ =>
      _ ← match guard with Some guard => SocketGuard_drop guard | None => Ret tt end;
      _ ← trigger (CloseListener listener);
      Ret r
  end.

(** The part of [serve] that has both sockets: the configuration, the runtime and the
    control service. *)
Definition start_service (var_os : environment) (listener : UnixListener) (socket_guard : option SocketGuard)
    (control_listener : UnixListener) (control_guard : SocketGuard) : prog sockE (result bytes service) :=
  config_path ←? Ret (default_config_path var_os);
  config ←? map_err_prog (fun error => str "cannot load configuration: " ++ Config.ConfigError_display error)
    (lift (fun X e => OnFiles e) (Config.ConfigStore_load (Config.ConfigStore_new config_path)));
  store_directory ←? Ret (default_store_directory var_os);
  history_path ←? Ret (default_history_path var_os);
  let runtime :=
    mkService listener socket_guard control_listener control_guard
      (KeyStore.KeyStore_new store_directory) (History.HistoryStore_new history_path)
      (Config.history_enabled config) (1000 * Config.authorization_timeout_seconds config) in
  _ ←? map_err_prog (fun error => str "cannot start the control service: " ++ message error)
    (trigger SpawnControl);
  Ret (Ok runtime).

(** [serve], up to its accept loop. *)
Definition serve (var_os : environment) (socket_path : path) : prog sockE (result bytes service) :=
  parent ←? Ret (ok_or (parent socket_path) (str "agent socket path has no parent directory"));
  _ ←? map_err_prog (fun error => str "cannot prepare the agent socket directory: " ++ message error)
    (ensure_private_directory parent);
  '(listener, socket_guard) ←? activated_or_bound_listener socket_path;
  with_socket listener socket_guard (
    control_path ←? Ret (default_control_socket_path var_os);
    '(control_listener, control_guard) ←? bind_guarded_socket control_path;
    with_socket control_listener (Some control_guard)
      (start_service var_os listener socket_guard control_listener control_guard)).

(** [run], for its two forms that start the agent. *)
Definition serve_default (var_os : environment) : prog sockE (result bytes service) :=
  socket_path ←? Ret (default_socket_path var_os);
  serve var_os socket_path.

(** ** The machine *)

(** [own] are the inodes this process has a listener on, [others] those another process
    listens on: among them the service manager, which keeps its copies of the descriptors
    of socket activation, [inherited], each taken at most once. *)
Record machine := mkMachine {
  files : fs;
  own : gset Z;
  others : gset Z;
  inherited : list (UnixListener * bool);
}.

Definition set_files (w : machine) (s : fs) : machine := mkMachine s (own w) (others w) (inherited w).
Definition set_own (w : machine) (l : gset Z) : machine := mkMachine (files w) l (others w) (inherited w).

Definition address_in_use : io_error := mk_io_error AddrInUse (str "Address already in use (os error 98)").
Definition connection_refused : io_error := mk_io_error OtherKind (str "Connection refused (os error 111)").

(** [bind] creates the socket's inode with the permissions the umask leaves.  When
    [listen] fails afterwards the inode stays ([partial] is not 0). *)
Definition bind_inode (w : machine) (p : path) : io_result Z * machine :=
  if parents_ok (files w) p then
    match entries (files w) !! p with
    | Some _ => (Err address_in_use, w)
    | None => (Ok (next_ino (files w)), set_files w (add_inode (files w) p SocketFile MODE_0777))
    end
  else (Err not_found, w).

Definition sock_exec {X} (v : choice) (w : machine) (e : sockE X) : X * machine :=
  match e in sockE X return X * machine with
  | OnFiles e => let '(x, s) := exec v (files w) e in (x, set_files w s)
  | Bind p =>
      match fault v, bind_inode w p with
      | None, (Ok i, w) => (Ok (mkListener i (Some p)), set_own w ({[ i ]} ∪ own w))
      | None, (Err e, w) => (Err e, w)
      | None, (Panic, w) => (Panic, w)
      | Some m, (_, w') =>
          (Err (mk_io_error OtherKind m), if (partial v =? 0)%nat then w else w')
      end
  | Connect p =>
      match fault v with
      | Some m => (Err (mk_io_error OtherKind m), w)
      | None =>
          match resolve MAX_LINKS (files w) p with
          | Ok (i, n) =>
              (if is_socket (file_type n) && bool_decide (i ∈ own w ∪ others w) then Ok tt else Err connection_refused, w)
          | Err e => (Err e, w)
          | Panic => (Panic, w)
          end
      end
  | CloseListener l =>
      (tt, set_own w (own w ∖ {[ bound_inode l ]}))
  | Geteuid => (euid (files w), w)
  | InheritedLen => (len (inherited w), w)
  | TakeUnixListener i =>
      match fault v with
      | Some m => (Err (mk_io_error OtherKind m), w)
      | None =>
          match inherited w !! Z.to_nat i with
          | Some (l, false) =>
              (Ok (Some l), mkMachine (files w) ({[ bound_inode l ]} ∪ own w) (others w)
                 (<[Z.to_nat i := (l, true)]> (inherited w)))
          | _ => (Ok None, w)
          end
      end
  | LocalAddr l =>
      match fault v with
      | Some m => (Err (mk_io_error OtherKind m), w)
      | None => (Ok (local_name l), w)
      end
  | SpawnControl =>
      match fault v with
      | Some m => (Err (mk_io_error OtherKind m), w)
      | None => (Ok tt, w)
      end
  end.

#[global] Instance sock_handler : Handler sockE machine choice := fun X v w e => sock_exec v w e.

(** ** What start-up may change *)

(** No permissions for the group and for others. *)
Definition private (n : inode) : Prop := Z.land (mode n) MODE_0077 = 0.

Definition private_dir (s : fs) (d : path) : Prop :=
  exists n, inode_at s d = Some n /\ file_type n = Directory /\ private n.

(** A later state of an inode: directories can become more private, and a socket named by
    one of [ps] can get the mode 0600; nothing else happens to an existing file. *)
Definition tightened (ps : path -> Prop) (w : machine) (j : Z) (n n' : inode) : Prop :=
  file_type n' = file_type n /\ (private n -> private n') /\
  (file_type n <> Directory ->
   n' = n \/ (exists q, ps q /\ entries (files w) !! q = Some j) /\ n' = set_mode n MODE_0600).

(** Inode numbers of sockets in use were handed out. *)
Definition machine_wf (w : machine) : Prop :=
  fs_wf (files w) /\ (forall i, i ∈ own w -> i < next_ino (files w)) /\
  forall l b, (l, b) ∈ inherited w -> bound_inode l < next_ino (files w).

(** What a program that manages the sockets [ps] does to the machine: it removes nothing
    but sockets at these names, alters no file, closes no listener that was there, and
    a socket it makes is never open to others, unless its directory is private. *)
Record evolves (ps : path -> Prop) (w w' : machine) : Prop := mk_evolves {
  ev_start : machine_wf w;
  ev_wf : machine_wf w';
  ev_next : next_ino (files w) <= next_ino (files w');
  ev_euid : euid (files w') = euid (files w);
  ev_entries : forall q i, entries (files w) !! q = Some i ->
    entries (files w') !! q = Some i \/
    ps q /\ exists n, inodes (files w) !! i = Some n /\ file_type n = SocketFile;
  ev_back : forall q i, entries (files w') !! q = Some i -> i < next_ino (files w) ->
    entries (files w) !! q = Some i;
  ev_inodes : forall j n, inodes (files w) !! j = Some n ->
    exists n', inodes (files w') !! j = Some n' /\ tightened ps w j n n';
  ev_new : forall q i n, entries (files w') !! q = Some i -> next_ino (files w) <= i ->
    inodes (files w') !! i = Some n -> file_type n = SocketFile ->
    ps q /\ (private n \/ exists d, parent q = Some d /\ private_dir (files w') d);
  ev_others : others w' = others w;
  ev_inherited : fst <$> inherited w' = fst <$> inherited w;
}.

Lemma wf_inode w q i :
  machine_wf w -> entries (files w) !! q = Some i ->
  exists n, inodes (files w) !! i = Some n /\ i < next_ino (files w).
Proof. intros [[H1 H2] _] E. destruct (H1 q i) as [n Hn]; [by left|]. exists n. split; [done|]. apply H2. by exists n. Qed.

Lemma evolves_dir ps w w' d : evolves ps w w' -> private_dir (files w) d -> private_dir (files w') d.
Proof.
  intros H (n & Hn & Ht & Hp). unfold inode_at in Hn.
  destruct (entries (files w) !! d) as [i|] eqn:E; [|done]. cbn in Hn.
  destruct (ev_inodes _ _ _ H _ _ Hn) as (n' & Hn' & Ht' & Hp' & _).
  destruct (ev_entries _ _ _ H _ _ E) as [E'|(_ & n2 & Hn2 & Ht2)]; [|congruence].
  exists n'. unfold inode_at. rewrite E'. split_and!; [done|congruence|auto].
Qed.

Lemma evolves_refl ps w : machine_wf w -> evolves ps w w.
Proof.
  intros Hwf. split; try done; [auto| |].
  - intros j n Hn. exists n. split_and!; [done|split_and!; auto].
  - intros q i n Hq Hi Hn _. destruct (wf_inode _ _ _ Hwf Hq) as (? & ? & ?). lia.
Qed.

Lemma tightened_trans ps w w' j n n' n'' :
  evolves ps w w' -> j < next_ino (files w) ->
  tightened ps w j n n' -> tightened ps w' j n' n'' -> tightened ps w j n n''.
Proof.
  intros H Hj (T1 & P1 & C1) (T2 & P2 & C2). split_and!; [congruence|auto|].
  intros Hd. specialize (C1 Hd). rewrite T1 in C2. specialize (C2 Hd).
  destruct C2 as [->|[(q & Hq & E) ->]]; [done|]. right. split.
  - exists q. split; [done|]. by apply (ev_back _ _ _ H).
  - by destruct C1 as [->|[_ ->]].
Qed.

Lemma evolves_trans ps w1 w2 w3 : evolves ps w1 w2 -> evolves ps w2 w3 -> evolves ps w1 w3.
Proof.
  intros H1 H2. pose proof (ev_next _ _ _ H1). pose proof (ev_next _ _ _ H2).
  split; [apply H1|apply H2|lia|by rewrite (ev_euid _ _ _ H2), (ev_euid _ _ _ H1)| | | | |
    by rewrite (ev_others _ _ _ H2), (ev_others _ _ _ H1)|by rewrite (ev_inherited _ _ _ H2), (ev_inherited _ _ _ H1)].
  - intros q i E. destruct (ev_entries _ _ _ H1 _ _ E) as [E2|?]; [|by right].
    destruct (ev_entries _ _ _ H2 _ _ E2) as [E3|(Hq & n & Hn & Ht)]; [by left|].
    right. split; [done|]. destruct (wf_inode _ _ _ (ev_start _ _ _ H1) E) as (n1 & Hn1 & _).
    destruct (ev_inodes _ _ _ H1 _ _ Hn1) as (n' & Hn' & Ht' & _). exists n1. split; congruence.
  - intros q i E Hi. apply (ev_back _ _ _ H1); [|done]. apply (ev_back _ _ _ H2); [done|lia].
  - intros j n Hn. destruct (ev_inodes _ _ _ H1 _ _ Hn) as (n' & Hn' & T1).
    destruct (ev_inodes _ _ _ H2 _ _ Hn') as (n'' & Hn'' & T2).
    exists n''. split; [done|]. eapply tightened_trans; [done| |done..].
    destruct (ev_start _ _ _ H1) as [[_ Hlt] _]. apply Hlt. by exists n.
  - intros q i n E Hi Hn Ht. destruct (Z.lt_ge_cases i (next_ino (files w2))) as [Hlt|Hge].
    + pose proof (ev_back _ _ _ H2 _ _ E Hlt) as E2.
      destruct (wf_inode _ _ _ (ev_wf _ _ _ H1) E2) as (n2 & Hn2 & _).
      destruct (ev_inodes _ _ _ H2 _ _ Hn2) as (n' & Hn' & Ht' & Hp & _).
      rewrite Hn' in Hn. injection Hn as ->.
      destruct (ev_new _ _ _ H1 _ _ _ E2 Hi Hn2) as (Hq & [?|(d & Hd & Hpd)]); [congruence|auto|].
      split; [done|]. right. exists d. split; [done|]. by eapply evolves_dir.
    + by apply (ev_new _ _ _ H2 q i n).
Qed.

Lemma evolves_mono (ps ps' : path -> Prop) w w' :
  (forall q, ps q -> ps' q) -> evolves ps w w' -> evolves ps' w w'.
Proof.
  intros Hps H. split; try apply H.
  - intros q i E. destruct (ev_entries _ _ _ H _ _ E) as [?|[??]]; auto.
  - intros j n Hn. destruct (ev_inodes _ _ _ H _ _ Hn) as (n' & Hn' & T & P & C).
    exists n'. split; [done|split_and!; [done..|]]. intros Hd.
    destruct (C Hd) as [->|[(q & ? & ?) ->]]; [by left|right; eauto].
  - intros q i n E Hi Hn Ht. destruct (ev_new _ _ _ H _ _ _ E Hi Hn Ht). auto.
Qed.

(** ** Programs that only do that *)

(** From a well-formed machine, every state of the program evolves from the first, and the
    result satisfies [Q], which speaks of the first state too. *)
Definition does {A} (ps : path -> Prop) (p : prog sockE A) (Q : A -> machine -> Prop) (w : machine) : Prop :=
  machine_wf w -> safe (evolves ps w) p (fun a w' => evolves ps w w' /\ Q a w') w.

Section Does.
Context (ps : path -> Prop).

Lemma does_ret {A} (a : A) (Q : A -> machine -> Prop) w : Q a w -> does ps (Ret a) Q w.
Proof. intros HQ Hwf. pose proof (evolves_refl ps w Hwf). by apply safe_ret. Qed.

Lemma does_mono {A} (p : prog sockE A) (Q R : A -> machine -> Prop) w :
  (forall a w', evolves ps w w' -> Q a w' -> R a w') -> does ps p Q w -> does ps p R w.
Proof.
  intros HQ H Hwf. eapply safe_mono; [done| |by apply H]. intros a w' [??]. auto.
Qed.

Lemma does_bind {A B} (m : prog sockE A) (f : A -> prog sockE B) (Q : B -> machine -> Prop) w :
  does ps m (fun a w' => does ps (f a) Q w') w -> does ps (m ≫= f) Q w.
Proof.
  intros H Hwf. apply safe_bind. eapply safe_mono; [done| |by apply H].
  intros a w' [He Hf]. specialize (Hf (ev_wf _ _ _ He)).
  eapply safe_mono; [..|exact Hf].
  - intros w'' ?. by eapply evolves_trans.
  - intros b w'' [??]. split; [by eapply evolves_trans|done].
Qed.

Lemma does_try {Er A B} (m : prog sockE (result Er A)) (f : A -> prog sockE (result Er B))
    (Q : result Er B -> machine -> Prop) w :
  does ps m (fun r w' =>
    match r with
    | Ok a => does ps (f a) Q w'
    | Err e => Q (Err e) w'
    | Panic => Q Panic w'
    end) w ->
  does ps (try_bind f m) Q w.
Proof. intros H. apply does_bind. eapply does_mono; [|exact H]. intros [a|e|] w' _; auto using does_ret. Qed.

Lemma does_map_err {Er F A} (g : Er -> F) (m : prog sockE (result Er A)) Q w :
  does ps m (fun r w' => Q (map_err g r) w') w -> does ps (map_err_prog g m) Q w.
Proof. intros H. apply does_bind. eapply does_mono; [|exact H]. intros r w' _ HQ. by apply does_ret. Qed.

Lemma does_op {X} (e : sockE X) (Q : X -> machine -> Prop) w :
  (forall v, machine_wf w -> evolves ps w (snd (sock_exec v w e)) /\ Q (fst (sock_exec v w e)) (snd (sock_exec v w e))) ->
  does ps (trigger e) Q w.
Proof.
  intros H Hwf. apply safe_vis; [by apply evolves_refl|]. intros v. destruct (H v Hwf). by apply safe_ret.
Qed.

(** *** The operations *)

Lemma does_metadata p w :
  does ps (on_files (SymlinkMetadata p)) (fun r w' => w' = w /\
    match r with
    | Ok m => exists n, find (files w) p = Some (md_ino m, n) /\ md_type m = file_type n /\
        md_mode m = mode n /\ md_uid m = uid n
    | Err e => kind e = NotFound -> find (files w) p = None
    | Panic => False
    end) w.
Proof.
  apply does_op. intros v Hwf. cbn [sock_exec]. assert (set_files w (files w) = w) as E by by destruct w.
  destruct (exec_cases v (files w) (SymlinkMetadata p)) as [[m ->]| ->]; cbn [fs_fault fs_exec fst snd].
  - rewrite E. by split; [apply evolves_refl|].
  - destruct (find (files w) p) as [[i n]|] eqn:Ef; cbn [fst snd]; rewrite E; (split; [by apply evolves_refl|]).
    + split; [done|]. by exists n.
    + done.
Qed.

Lemma does_euid w : does ps (trigger Geteuid) (fun r w' => w' = w /\ r = euid (files w)) w.
Proof. apply does_op. intros v Hwf. split; [by apply evolves_refl|done]. Qed.

Lemma does_inherited w : does ps (trigger InheritedLen) (fun _ w' => w' = w) w.
Proof. apply does_op. intros v Hwf. split; [by apply evolves_refl|done]. Qed.

Lemma does_address l w :
  does ps (trigger (LocalAddr l)) (fun r w' => w' = w /\ r <> Panic /\ forall a, r = Ok a -> a = local_name l) w.
Proof.
  apply does_op. intros v Hwf. cbn [sock_exec]. destruct (fault v); (split; [by apply evolves_refl|]); [done|].
  split_and!; [done..|]. by intros a [= ->].
Qed.

Lemma does_connect p w : does ps (trigger (Connect p)) (fun r w' => w' = w /\ r <> Panic) w.
Proof.
  apply does_op. intros v Hwf. cbn [sock_exec]. destruct (fault v); [by split; [apply evolves_refl|]|].
  pose proof (resolve_no_panic MAX_LINKS (files w) p) as Hp.
  destruct (resolve MAX_LINKS (files w) p) as [[i n]|e|]; [|by split; [apply evolves_refl|]|done].
  split; [by apply evolves_refl|]. split; [done|]. cbn. by destruct (_ && _)%bool.
Qed.

Lemma does_spawn w : does ps (trigger SpawnControl) (fun r w' => w' = w /\ r <> Panic) w.
Proof. apply does_op. intros v Hwf. cbn [sock_exec]. by destruct (fault v); split; [apply evolves_refl| |apply evolves_refl|]. Qed.

(** Taking an inherited descriptor. *)
Lemma does_take i w :
  does ps (trigger (TakeUnixListener i)) (fun r w' =>
    files w' = files w /\
    match r with
    | Ok (Some l) => l ∈ fst <$> inherited w /\ own w' = {[ bound_inode l ]} ∪ own w
    | Panic => False
    | _ => own w' = own w
    end) w.
Proof.
  apply does_op. intros v Hwf. cbn [sock_exec]. destruct (fault v) as [m|].
  { split; [by apply evolves_refl|]. by split_and!. }
  destruct (inherited w !! Z.to_nat i) as [[l [|]]|] eqn:E; cbn [fst snd];
    [by split; [apply evolves_refl|]| |by split; [apply evolves_refl|]].
  apply list_elem_of_lookup_2 in E as Hl. split.
  - pose proof (evolves_refl ps w Hwf) as []. split; try done.
    + destruct Hwf as (H1 & H2 & H3). split_and!; cbn [files own inherited]; [done| |].
      * intros j [->%elem_of_singleton|?]%elem_of_union; eauto.
      * intros l' b [k Hk]%list_elem_of_lookup_1.
        apply list_lookup_insert_Some in Hk as [(_ & [= -> _] & _)|[_ Hk]]; [by eauto|].
        apply list_elem_of_lookup_2 in Hk. eauto.
    + cbn [inherited]. rewrite list_fmap_insert. apply list_insert_id. by rewrite list_lookup_fmap, E.
  - split_and!; [done| |done]. apply list_elem_of_fmap. by exists (l, false).
Qed.

Lemma does_close l w :
  does ps (trigger (CloseListener l)) (fun _ w' =>
    files w' = files w /\ own w' = own w ∖ {[ bound_inode l ]}) w.
Proof.
  apply does_op. intros v Hwf. split; [|done]. pose proof (evolves_refl ps w Hwf) as [].
  split; try done. destruct Hwf as (H1 & H2 & H3). split_and!; [done|set_solver|done].
Qed.

(** A new inode of type [t] at [p]. *)
Lemma evolves_add p t m w :
  machine_wf w -> entries (files w) !! p = None ->
  (t = SocketFile -> ps p /\ exists d, parent p = Some d /\ private_dir (files w) d) ->
  evolves ps w (set_files w (add_inode (files w) p t m)).
Proof.
  intros Hwf Hp Ht. pose proof Hwf as ([H1 H2] & H3 & H4).
  assert (inodes (files w) !! next_ino (files w) = None) as Hno.
  { apply eq_None_not_Some. intros ?%H2. lia. }
  split; try done; cbn [set_files files add_inode entries inodes next_ino stable_entries own inherited].
  - split_and!; [split|intros i Hi%H3|intros l b Hl%H4]; cbn [set_files files add_inode entries inodes next_ino stable_entries]; [| |lia..].
    + intros q i Hq. destruct (decide (i = next_ino (files w))) as [->|Hi]; [rewrite lookup_insert_eq; by eexists|].
      rewrite lookup_insert_ne by congruence. apply (H1 q). destruct Hq as [Hq|Hq]; [|by right].
      apply lookup_insert_Some in Hq as [[_ ?]|[_ ?]]; [congruence|by left].
    + intros i. destruct (decide (i = next_ino (files w))) as [->|Hi]; [lia|].
      rewrite lookup_insert_ne by congruence. intros ?%H2. lia.
  - lia.
  - intros q i E. left. rewrite lookup_insert_ne; [done|congruence].
  - intros q i [[_ ?]|[_ ?]]%lookup_insert_Some; [lia|done].
  - intros j n Hn. exists n. split; [|by split_and!; auto]. rewrite lookup_insert_ne; [done|congruence].
  - intros q i n E Hi Hn Hs. apply lookup_insert_Some in E as [[<- <-]|[_ E]].
    + rewrite lookup_insert_eq in Hn. injection Hn as <-. destruct (Ht Hs) as (? & d & Hd & nd & Hnd & Htd & Hpd).
      split; [done|]. right. exists d. split; [done|]. exists nd. split_and!; [|done..].
      unfold inode_at in *. cbn [set_files files add_inode entries inodes]. rewrite lookup_insert_ne.
      * destruct (entries (files w) !! d) as [k|] eqn:Ek; [|done]. cbn in *. rewrite lookup_insert_ne; [done|congruence].
      * intros <-. by rewrite Hp in Hnd.
    + destruct (wf_inode _ _ _ Hwf E) as (? & ? & ?). lia.
Qed.

(** Giving an inode a mode without permissions for others. *)
Lemma evolves_mode i n m w :
  machine_wf w -> inodes (files w) !! i = Some n -> Z.land m MODE_0077 = 0 ->
  file_type n = Directory \/ m = MODE_0600 /\ (exists q, ps q /\ entries (files w) !! q = Some i) ->
  evolves ps w (set_files w (set_inode (files w) i (set_mode n m))).
Proof.
  intros Hwf Hi Hm Hn. pose proof Hwf as ([H1 H2] & H3 & H4).
  split; try done; cbn [set_files files set_inode entries inodes next_ino].
  - split_and!; [split|done|done]; cbn [set_files files set_inode entries inodes next_ino stable_entries].
    + intros q j Hq. destruct (decide (j = i)) as [->|?]; [rewrite lookup_insert_eq; by eexists|].
      rewrite lookup_insert_ne by done. by apply (H1 q).
    + intros j. destruct (decide (j = i)) as [->|?]; [intros _; apply H2; by eexists|].
      rewrite lookup_insert_ne by done. apply H2.
  - auto.
  - intros j n' Hn'. destruct (decide (j = i)) as [->|?].
    + rewrite lookup_insert_eq. exists (set_mode n m). split; [done|]. replace n' with n by congruence.
      split_and!; [done|done|]. intros Hd. right. destruct Hn as [?|[-> ?]]; done.
    + rewrite lookup_insert_ne by done. exists n'. split; [done|]. by split_and!; auto.
  - intros q j n' E Hj. destruct (wf_inode _ _ _ Hwf E) as (? & ? & ?). lia.
Qed.

Lemma does_bind_socket_op p w :
  ps p -> (exists d, parent p = Some d /\ private_dir (files w) d) ->
  does ps (trigger (Bind p)) (fun r w' =>
    match r with
    | Ok l => local_name l = Some p /\ entries (files w) !! p = None /\
        bound_inode l = next_ino (files w) /\ own w' = {[ bound_inode l ]} ∪ own w /\
        files w' = add_inode (files w) p SocketFile MODE_0777
    | Err _ => own w' = own w
    | Panic => False
    end) w.
Proof.
  intros Hp Hd. apply does_op. intros v Hwf. cbn [sock_exec]. unfold bind_inode.
  destruct (parents_ok (files w) p); [|destruct (fault v); [destruct (partial v =? 0)%nat|]; by split; [apply evolves_refl|]].
  destruct (entries (files w) !! p) as [i|] eqn:E;
    [destruct (fault v); [destruct (partial v =? 0)%nat|]; by split; [apply evolves_refl|]|].
  assert (evolves ps w (set_files w (add_inode (files w) p SocketFile MODE_0777))) as Hev
    by (by apply evolves_add).
  destruct (fault v) as [m|]; [destruct (partial v =? 0)%nat; split; by try apply evolves_refl|].
  cbn [fst snd]. split; [|by split_and!].
  pose proof Hev as [? [Hw1 [Hw2 Hw3]] ? ? ? ? ? ? ? ?]. split; try done. split_and!; [done| |done].
  intros i [->%elem_of_singleton|?%Hw2]%elem_of_union; [cbn; lia|done].
Qed.

Lemma set_files_same w : set_files w (files w) = w.
Proof. by destruct w. Qed.

(** An operation on the file system with a fault that changes nothing. *)
Lemma does_files {X} (e : fsE X) (Q : X -> machine -> Prop) w :
  (forall v m, snd (fs_fault v m (files w) e) = files w /\ Q (fst (fs_fault v m (files w) e)) w) ->
  (forall v, machine_wf w -> evolves ps w (set_files w (snd (fs_exec v (files w) e))) /\
     Q (fst (fs_exec v (files w) e)) (set_files w (snd (fs_exec v (files w) e)))) ->
  does ps (on_files e) Q w.
Proof.
  intros Hf He. apply does_op. intros v Hwf. cbn [sock_exec].
  destruct (exec_cases v (files w) e) as [[m E]|E]; rewrite E.
  - destruct (Hf v m) as [E1 E2]. destruct (fs_fault v m (files w) e) as [x s']. cbn in *. subst.
    rewrite set_files_same. split; [by apply evolves_refl|done].
  - specialize (He v Hwf). by destruct (fs_exec v (files w) e).
Qed.

(** Permissions of a file that is not a symbolic link. *)
Lemma does_permissions p m i n w :
  entries (files w) !! p = Some i -> inodes (files w) !! i = Some n -> Z.land m MODE_0077 = 0 ->
  file_type n = Directory \/ file_type n = SocketFile /\ ps p /\ m = MODE_0600 ->
  does ps (on_files (SetPermissions p m)) (fun r w' =>
    match r with
    | Ok _ => w' = set_files w (set_inode (files w) i (set_mode n m))
    | Err _ => w' = w
    | Panic => False
    end) w.
Proof.
  intros Hp Hi Hm Ht. apply does_files; [done|]. intros v Hwf. cbn [fs_exec].
  assert (resolve MAX_LINKS (files w) p = Ok (i, n) \/ resolve MAX_LINKS (files w) p = Err not_found) as [-> | ->].
  { unfold MAX_LINKS. cbn [resolve]. unfold find. rewrite Hp. cbn. rewrite Hi. destruct (parents_ok (files w) p); [|by right].
    left. cbn. destruct (file_type n); (done || by destruct Ht as [|[? _]]). }
  - cbn [fst snd]. split; [|done]. apply evolves_mode; [done..|].
    destruct Ht as [?|(? & ? & ->)]; [by left|right; eauto].
  - cbn [fst snd]. rewrite set_files_same. split; [by apply evolves_refl|done].
Qed.

Lemma does_remove_socket p i n w :
  entries (files w) !! p = Some i -> inodes (files w) !! i = Some n -> file_type n = SocketFile -> ps p ->
  does ps (on_files (RemoveFile p)) (fun r w' =>
    own w' = own w /\ r <> Panic /\ next_ino (files w') = next_ino (files w) /\
    inodes (files w') = inodes (files w) /\ forall q, q <> p -> entries (files w') !! q = entries (files w) !! q) w.
Proof.
  intros Hp Hi Ht Hps. apply does_files; [done|]. intros v Hwf. cbn [fs_exec].
  assert (find (files w) p = Some (i, n) \/ find (files w) p = None) as [-> | ->].
  { unfold find. rewrite Hp. cbn. rewrite Hi. destruct (parents_ok _ _); auto. }
  2: { cbn [fst snd]. rewrite set_files_same. split; [by apply evolves_refl|done]. }
  rewrite Ht. cbn [is_dir fst snd].
  split; [|split_and!; [done..|]; intros q Hq; by apply lookup_delete_ne].
  pose proof Hwf as ([H1 H2] & H3 & H4).
  split; try done; cbn [set_files files set_entries entries inodes next_ino].
  - split_and!; [split|done|done]; cbn [set_files files set_entries entries inodes next_ino stable_entries].
    + intros q j [[_ Hq]%lookup_delete_Some|Hq]; apply (H1 q); auto.
    + apply H2.
  - intros q j E. destruct (decide (q = p)) as [->|Hq]; [right|left; by rewrite lookup_delete_ne].
    split; [done|]. exists n. split; congruence.
  - by intros q j [_ ?]%lookup_delete_Some.
  - intros j n' Hn'. exists n'. split; [done|]. by split_and!; auto.
  - intros q j n' [_ E]%lookup_delete_Some Hj. destruct (wf_inode _ _ _ Hwf E) as (? & ? & ?). lia.
Qed.

Lemma make_dirs_evolves qs m w r s' :
  machine_wf w -> make_dirs (files w) qs m = (r, s') ->
  evolves ps w (set_files w s') /\ (r = Ok tt -> forall q, q ∈ qs -> dir_at s' q = true).
Proof.
  revert w. induction qs as [|q qs IH]; intros w Hwf; cbn [make_dirs].
  { intros [= <- <-]. rewrite set_files_same. split; [by apply evolves_refl|].
    intros _ q Hq. by apply not_elem_of_nil in Hq. }
  destruct q as [|c q].
  { intros H%IH; [|done]. destruct H as [? Hd]. split; [done|]. intros Hr q [->|?]%elem_of_cons; auto. }
  destruct (inode_at (files w) (c :: q)) as [n|] eqn:En.
  - destruct (is_dir (file_type n)) eqn:Ed.
    + intros H%IH; [|done]. destruct H as [He Hd]. split; [done|]. intros Hr q' [->|?]%elem_of_cons; [|by auto].
      unfold dir_at. unfold inode_at in En. destruct (entries (files w) !! (c :: q)) as [i|] eqn:E; [|done]. cbn in En.
      destruct (ev_inodes _ _ _ He _ _ En) as (n' & Hn' & Ht & _).
      destruct (ev_entries _ _ _ He _ _ E) as [E'|(_ & n2 & Hn2 & Ht2)].
      * unfold inode_at. cbn in E', Hn'. rewrite E'. cbn. rewrite Hn'. by rewrite Ht.
      * exfalso. assert (n2 = n) as -> by congruence. by rewrite Ht2 in Ed.
    + intros [= <- <-]. rewrite set_files_same. split; [by apply evolves_refl|done].
  - assert (entries (files w) !! (c :: q) = None) as Hno.
    { unfold inode_at in En. destruct (entries (files w) !! (c :: q)) as [i|] eqn:E; [|done].
      destruct (wf_inode _ _ _ Hwf E) as (? & ? & _). cbn in En. congruence. }
    pose proof (evolves_add (c :: q) Directory m w Hwf Hno ltac:(done)) as He1.
    intros H. apply (IH (set_files w (add_inode (files w) (c :: q) Directory m))) in H; [|apply He1].
    destruct H as [He Hd]. split; [by eapply evolves_trans|].
    intros Hr q' [->|?]%elem_of_cons; [|by auto].
    unfold dir_at, inode_at.
    destruct (ev_entries _ _ _ He (c :: q) (next_ino (files w))) as [E'|(_ & n2 & Hn2 & Ht2)].
    + cbn. by rewrite lookup_insert_eq.
    + destruct (ev_inodes _ _ _ He (next_ino (files w)) (mk_inode Directory (Z.land m (Z.lnot (umask (files w)))) (euid (files w)) [] []))
        as (n' & Hn' & Ht & _).
      { cbn. by rewrite lookup_insert_eq. }
      cbn in E', Hn'. rewrite E'. cbn. rewrite Hn'. by rewrite Ht.
    + cbn in Hn2. rewrite lookup_insert_eq in Hn2. by injection Hn2 as <-.
Qed.

Lemma does_create_dir p m w :
  does ps (on_files (CreateDirAll p m)) (fun r w' =>
    own w' = own w /\ (p = [] -> w' = w) /\
    match r with Ok _ => dir_at (files w') p = true | Err _ => True | Panic => False end) w.
Proof.
  apply does_files; [done|]. intros v Hwf. cbn [fs_exec].
  pose proof (make_dirs_no_panic (files w) (tail (ancestors p) ++ [p]) m) as Hnp.
  destruct (make_dirs (files w) _ m) as [r s'] eqn:E. cbn [fst snd] in *.
  pose proof E as [He Hd]%make_dirs_evolves; [|done]. split_and!; [done..| |].
  - intros ->. cbn in E. injection E as _ <-. apply set_files_same.
  - destruct r as [[]|e|]; [|done..]. apply Hd; [done|]. apply elem_of_app. right. by left.
Qed.

(** The root is not an entry: its permissions cannot be set. *)
Lemma does_permissions_root m w :
  find (files w) [] = None -> does ps (on_files (SetPermissions [] m)) (fun r w' => w' = w /\ exists e, r = Err e) w.
Proof.
  intros Hf. apply does_files; [eauto|]. intros v Hwf. cbn [fs_exec].
  unfold MAX_LINKS. cbn [resolve]. rewrite Hf. cbn [fst snd]. rewrite set_files_same.
  split; [by apply evolves_refl|eauto].
Qed.

(** The directory of a socket ends up private, or the start-up stops. *)
Lemma ensure_private_directory_does d w :
  does ps (ensure_private_directory d) (fun r w' =>
    own w' = own w /\ match r with Ok _ => private_dir (files w') d | Err _ => True | Panic => False end) w.
Proof.
  apply does_bind. eapply does_mono; [|apply does_metadata]. intros r w' _ [-> Hr].
  destruct r as [md|e|]; [| |done].
  - destruct (negb _ || negb _)%bool eqn:E; apply does_ret; [done|]. split; [done|].
    destruct Hr as (n & Hf & Ht & Hm & _). apply find_Some in Hf as (_ & E1 & E2).
    exists n. unfold inode_at. rewrite E1. rewrite Ht, Hm in E. bool_to_prop.
    split_and!; [done| |done]. by destruct (file_type n).
  - case_decide as Hk; [|by apply does_ret]. apply does_try.
    eapply does_mono; [|apply does_create_dir]. intros r w1 _ (Ho & Hroot & Hd).
    destruct r as [[]|e1|]; [|done..].
    destruct d as [|c d].
    { rewrite Hroot by done. eapply does_mono; [|by apply does_permissions_root; auto].
      by intros r w2 _ [-> [e' ->]]. }
    unfold dir_at, inode_at in Hd. destruct (entries (files w1) !! (c :: d)) as [i|] eqn:E; [|done]. cbn in Hd.
    destruct (inodes (files w1) !! i) as [n|] eqn:En; [|done].
    assert (file_type n = Directory) as Ht by by destruct (file_type n).
    eapply does_mono; [|apply (does_permissions _ _ i n); auto]. intros r w2 _ Hr2.
    destruct r as [[]|e2|]; [subst|by subst|done]. split; [done|].
    exists (set_mode n MODE_0700). unfold inode_at. cbn. rewrite E. cbn. by rewrite lookup_insert_eq.
Qed.

(** *** The programs *)

(** The listener [l] of this process is bound to [p], which only its owner can use. *)
Definition bound (w : machine) (p : path) (l : UnixListener) : Prop :=
  local_name l = Some p /\ entries (files w) !! p = Some (bound_inode l) /\ bound_inode l ∈ own w /\
  exists n, inodes (files w) !! bound_inode l = Some n /\ file_type n = SocketFile /\
    mode n = MODE_0600 /\ uid n = euid (files w).

(** The listener a program made, and the descriptors of this process afterwards. *)
Definition made (w : machine) (p : path) (r : result bytes UnixListener) (w' : machine) : Prop :=
  match r with
  | Ok l => bound w' p l /\ next_ino (files w) <= bound_inode l /\ own w' = {[ bound_inode l ]} ∪ own w
  | Err _ => own w' = own w
  | Panic => False
  end.

Lemma finish_socket_bind_does p w :
  ps p -> (exists d, parent p = Some d /\ private_dir (files w) d) ->
  does ps (trigger (Bind p)) (fun r w' =>
    match r with
    | Ok l => does ps (finish_socket_bind p l) (made w p) w'
    | Err _ => own w' = own w
    | Panic => False
    end) w.
Proof.
  intros Hp Hd. eapply does_mono; [|by apply does_bind_socket_op]. intros r w1 He Hr.
  destruct r as [l|e|]; [|done..]. destruct Hr as (Hl & Hno & Hi & Ho & Hf).
  assert (bound_inode l ∉ own w) as Hfresh by (intros ?%(proj1 (proj2 (ev_start _ _ _ He))); lia).
  apply does_bind. eapply does_mono.
  2: { apply (does_permissions p MODE_0600 (bound_inode l)
         (mk_inode SocketFile (Z.land MODE_0777 (Z.lnot (umask (files w)))) (euid (files w)) [] [])).
       - by rewrite Hf, Hi; cbn; rewrite lookup_insert_eq.
       - by rewrite Hf, Hi; cbn; rewrite lookup_insert_eq.
       - done.
       - right. done. }
  intros r w2 _ Hr. destruct r as [[]|e|]; [| |done].
  - apply does_ret. subst w2. split_and!; [|lia|done]. split_and!; [done| | |].
    + cbn. rewrite Hf, Hi. cbn. by rewrite lookup_insert_eq.
    + cbn. rewrite Ho. set_solver.
    + eexists. cbn. rewrite lookup_insert_eq. split_and!; [done..|]. by rewrite Hf.
  - subst w2. apply does_bind. eapply does_mono; [|apply does_close]. intros _ w2 _ [_ Ho2].
    apply does_ret. cbn. rewrite Ho2, Ho. set_solver.
Qed.

Lemma made_later w w1 p r w' : evolves ps w w1 -> own w1 = own w -> made w1 p r w' -> made w p r w'.
Proof.
  intros He Ho. pose proof (ev_next _ _ _ He). unfold made. rewrite Ho.
  destruct r as [l|e|]; [|done..]. intros (? & ? & ?). split_and!; [done|lia|done].
Qed.

Lemma bind_socket_does p d w :
  ps p -> parent p = Some d -> private_dir (files w) d -> does ps (bind_socket p) (made w p) w.
Proof.
  intros Hp Hd Hpd. apply does_bind. eapply does_mono; [|apply finish_socket_bind_does; eauto].
  intros r w1 He Hr. destruct r as [l|e|]; [done| |done].
  case_decide; [|by apply does_ret]. apply does_try, does_map_err.
  eapply does_mono; [|apply does_metadata]. intros r w2 _ [-> Hr2]. destruct r as [md|e2|]; [|done..]. cbn [map_err].
  destruct Hr2 as (n & (_ & E1 & E2)%find_Some & Ht & _). rewrite Ht.
  destruct (is_socket (file_type n)) eqn:Es; cbn [negb]; [|by apply does_ret].
  assert (file_type n = SocketFile) as Hs by by destruct (file_type n).
  apply does_bind. eapply does_mono; [|apply does_connect]. intros r w2 _ [-> Hnp].
  destruct (is_ok r); [by apply does_ret|].
  apply does_try, does_map_err. eapply does_mono; [|by apply (does_remove_socket p (md_ino md) n)].
  intros r3 w3 He3 (Ho3 & Hnp3 & _). destruct r3 as [[]|e3|]; cbn [map_err]; [|congruence|done].
  pose proof (evolves_trans _ _ _ _ He He3) as He'.
  apply does_try, does_map_err. eapply does_mono; [|apply finish_socket_bind_does; [done|]].
  - intros r4 w4 He4 Hr4. destruct r4 as [l|e4|]; cbn [map_err]; [|congruence|done].
    eapply does_mono; [|exact Hr4]. intros r5 w5 _. apply made_later; [done|congruence].
  - exists d. split; [done|]. by eapply evolves_dir.
Qed.

(** The guard that names the inode of a listener. *)
Definition guard_of (p : path) (l : UnixListener) : SocketGuard :=
  mkSocketGuard p (bound_inode l / 2 ^ 64) (bound_inode l mod 2 ^ 64).

(** A listener and its guard, made by a program that closes what it made when it fails. *)
Definition guarded (w : machine) (p : path) (r : result bytes (UnixListener * SocketGuard)) (w' : machine) : Prop :=
  match r with
  | Ok (l, g) => made w p (Ok l) w' /\ g = guard_of p l
  | Err _ => own w' = own w
  | Panic => False
  end.

(** The end of [bind_guarded_socket] and of [activated_or_bound_listener]: the guard of the
    socket that was bound. *)
Lemma guard_does {A} (f : UnixListener -> metadata -> A) (complaint : io_error -> bytes) p d w :
  ps p -> parent p = Some d -> private_dir (files w) d ->
  does ps (listener ←? bind_socket p;
    metadata ←? or_close listener (map_err_prog complaint (on_files (SymlinkMetadata p)));
    Ret (Ok (f listener metadata)))
  (fun r w' =>
     match r with
     | Ok a => exists l md, a = f l md /\ md_ino md = bound_inode l /\ made w p (Ok l) w'
     | Err _ => own w' = own w
     | Panic => False
     end) w.
Proof.
  intros Hp Hd Hpd. apply does_try. eapply does_mono; [|by apply (bind_socket_does p d)].
  intros r w1 He Hr. destruct r as [l|e|]; [|done..]. pose proof Hr as (Hb & Hge & Ho).
  assert (bound_inode l ∉ own w) as Hfresh by (intros ?%(proj1 (proj2 (ev_start _ _ _ He))); lia).
  apply does_try, does_bind, does_map_err. eapply does_mono; [|apply does_metadata].
  intros r w2 _ [-> Hr2]. destruct r as [md|e|]; cbn [map_err]; [| |done].
  - apply does_ret, does_ret. exists l, md. split_and!; [done| |done].
    destruct Hr2 as (n & (_ & E1 & _)%find_Some & _). destruct Hb as (_ & E2 & _). congruence.
  - apply does_bind. eapply does_mono; [|apply does_close]. intros _ w2 _ [_ Ho2].
    apply does_ret. rewrite Ho2, Ho. set_solver.
Qed.

Lemma bind_guarded_socket_does p w : ps p -> does ps (bind_guarded_socket p) (guarded w p) w.
Proof.
  intros Hp. apply does_try. destruct (parent p) as [d|] eqn:Hd; cbn [ok_or]; [|by apply does_ret].
  apply does_ret, does_try, does_map_err.
  eapply does_mono; [|apply ensure_private_directory_does]. intros r w1 He (Ho & Hr).
  destruct r as [[]|e|]; cbn [map_err]; [|done..].
  eapply does_mono; [|apply (guard_does (fun l md => (l, mkSocketGuard p (dev md) (ino md))) _ p d); done].
  intros r w2 _ Hr2. destruct r as [a|e2|]; cbn [guarded]; [|congruence|done].
  destruct Hr2 as (l & md & -> & Hi & Hm). split; [by eapply made_later|].
  unfold guard_of, dev, ino. by rewrite Hi.
Qed.

(** An inherited listener that passed the checks. *)
Definition activated (w : machine) (p : path) (l : UnixListener) : Prop :=
  local_name l = Some p /\ l ∈ fst <$> inherited w /\ bound_inode l ∈ own w /\
  exists i n, entries (files w) !! p = Some i /\ inodes (files w) !! i = Some n /\
    file_type n = SocketFile /\ Z.land (mode n) MODE_0777 = MODE_0600 /\ uid n = euid (files w).

Lemma check_activated_does p l w :
  l ∈ fst <$> inherited w -> bound_inode l ∈ own w ->
  does ps (check_activated p l) (fun r w' => w' = w /\
    match r with Ok _ => activated w p l | Err _ => True | Panic => False end) w.
Proof.
  intros Hl Ho. apply does_try, does_map_err. eapply does_mono; [|apply does_address].
  intros r w' _ (-> & Hnp & Ha). destruct r as [a|e|]; cbn [map_err]; [|done..]. specialize (Ha a eq_refl).
  case_bool_decide as Hname; cbn [negb]; [|by apply does_ret].
  apply does_try, does_map_err. eapply does_mono; [|apply does_metadata].
  intros r w' _ (-> & Hr). destruct r as [md|e|]; cbn [map_err]; [|done..].
  apply does_bind. eapply does_mono; [|apply does_euid]. intros u w' _ [-> ->].
  destruct (_ || _ || _)%bool eqn:E; apply does_ret; [done|]. split; [done|].
  destruct Hr as (n & (_ & E1 & E2)%find_Some & Ht & Hm & Hu). rewrite Ht, Hm, Hu in E. bool_to_prop.
  split_and!; [congruence|done..|]. exists (md_ino md), n. split_and!; try done.
  by destruct (file_type n).
Qed.

Lemma activated_or_bound_listener_does p d w :
  ps p -> parent p = Some d -> private_dir (files w) d -> own w = ∅ ->
  does ps (activated_or_bound_listener p) (fun r w' =>
    match r with
    | Ok (l, None) => activated w' p l /\ own w' = {[ bound_inode l ]}
    | Ok (l, Some g) => made w p (Ok l) w' /\ g = guard_of p l
    | Err _ => own w' = ∅
    | Panic => False
    end) w.
Proof.
  intros Hp Hd Hpd Hown. apply does_bind. eapply does_mono; [|apply does_inherited]. intros n w' _ ->.
  destruct (1 <? n); [by apply does_ret|].
  apply does_try, does_map_err. eapply does_mono; [|apply does_take].
  intros r w1 He (Hf & Hr). destruct r as [[l|]|e|]; cbn [map_err]; [| |congruence|done].
  - destruct Hr as [Hl Ho]. apply does_try, does_bind.
    eapply does_mono; [|apply check_activated_does].
    + intros r w2 _ [-> Hr]. destruct r as [[]|e|]; [| |done].
      * apply does_ret, does_ret. split; [done|]. rewrite Ho, Hown. set_solver.
      * apply does_bind. eapply does_mono; [|apply does_close]. intros _ w2 _ [_ Ho2]. apply does_ret.
        rewrite Ho2, Ho, Hown. set_solver.
    + by rewrite (ev_inherited _ _ _ He).
    + rewrite Ho. set_solver.
  - eapply does_mono; [|apply (guard_does (fun l md => (l, Some (mkSocketGuard p (dev md) (ino md)))) _ p d);
      [done..|by rewrite Hf]].
    intros r w2 _ Hr2. destruct r as [a|e2|]; [|congruence|done].
    destruct Hr2 as (l & md & -> & Hi & Hm). split; [by eapply made_later|].
    unfold guard_of, dev, ino. by rewrite Hi.
Qed.

(** Two halves determine an inode number. *)
Lemma halves i j : i / 2 ^ 64 = j / 2 ^ 64 -> i mod 2 ^ 64 = j mod 2 ^ 64 -> i = j.
Proof. intros H1 H2. rewrite (Z.div_mod i (2 ^ 64)), (Z.div_mod j (2 ^ 64)) by lia. by rewrite H1, H2. Qed.

Lemma guard_drop_does p l n w :
  ps p -> inodes (files w) !! bound_inode l = Some n -> file_type n = SocketFile ->
  does ps (SocketGuard_drop (guard_of p l)) (fun _ w' => own w' = own w) w.
Proof.
  intros Hp Hn Ht. apply does_bind. eapply does_mono; [|apply does_metadata]. intros r w' _ [-> Hr].
  destruct r as [md|e|]; [|by apply does_ret|done].
  destruct (_ && _)%bool eqn:E; [|by apply does_ret]. apply andb_true_iff in E as [E1%Z.eqb_eq E2%Z.eqb_eq].
  destruct Hr as (n' & (_ & F1 & F2)%find_Some & _). cbn in E1, E2.
  assert (md_ino md = bound_inode l) as Ei by (by apply halves). rewrite Ei in *.
  apply does_bind. eapply does_mono; [|by apply (does_remove_socket p (bound_inode l) n)].
  intros r w' _ (Ho & _). by apply does_ret.
Qed.

(** A scope that owns a socket: an error closes it. *)
Lemma with_socket_does {A} l g (m : prog sockE (result bytes A)) (Q : A -> machine -> Prop) (O : gset Z) w :
  (forall g', g = Some g' -> exists p n, ps p /\ g' = guard_of p l /\
     inodes (files w) !! bound_inode l = Some n /\ file_type n = SocketFile) ->
  bound_inode l ∉ O ->
  does ps m (fun r w' =>
    match r with
    | Ok a => Q a w'
    | Err _ => own w' = {[ bound_inode l ]} ∪ O
    | Panic => False
    end) w ->
  does ps (with_socket l g m) (fun r w' =>
    match r with Ok a => Q a w' | Err _ => own w' = O | Panic => False end) w.
Proof.
  intros Hg Hl Hm. apply does_bind. eapply does_mono; [|exact Hm]. intros r w1 He Hr.
  destruct r as [a|e|]; [by apply does_ret| |done].
  apply does_bind. eapply (does_mono _ (fun _ w' => own w' = {[ bound_inode l ]} ∪ O)).
  - intros [] w2 _ Ho. apply does_bind. eapply does_mono; [|apply does_close]. intros _ w3 _ [_ Ho3].
    apply does_ret. rewrite Ho3, Ho. set_solver.
  - destruct g as [g|]; [|by apply does_ret]. destruct (Hg g eq_refl) as (p & n & Hp & -> & Hn & Ht).
    destruct (ev_inodes _ _ _ He _ _ Hn) as (n' & Hn' & Ht' & _).
    eapply does_mono; [|apply (guard_drop_does p l n'); [done..|congruence]]. intros [] w2 _ ->. done.
Qed.

(** A program that only reads files. *)
Lemma does_read_only {A} (p : prog fsE A) (Q : A -> Prop) w :
  safe (fun s => s = files w) p (fun a _ => Q a) (files w) ->
  does ps (lift (fun X e => OnFiles e) p) (fun a w' => w' = w /\ Q a) w.
Proof.
  intros Hp Hwf.
  enough (safe (evolves ps w) (lift (fun X e => OnFiles e) p)
    (fun a w' => evolves ps w w' /\ w' = w /\ Q a) (set_files w (files w))) as H by by rewrite set_files_same in H.
  apply (safe_lift (fun X e => OnFiles e) (set_files w) id).
  - intros X e v s. cbn. by destruct (exec v s e).
  - eapply safe_mono; [..|apply safe_end, Hp]; cbn.
    + intros s ->. rewrite set_files_same. by apply evolves_refl.
    + intros a s [-> HQ]. rewrite set_files_same. split; [by apply evolves_refl|done].
Qed.
End Does.

(** A program for some sockets is one for more of them. *)
Lemma does_weaken (ps ps' : path -> Prop) {A} (p : prog sockE A) (Q : A -> machine -> Prop) w :
  (forall q, ps q -> ps' q) -> does ps p Q w ->
  does ps' p (fun a w' => evolves ps w w' /\ Q a w') w.
Proof.
  intros Hps H Hwf. eapply safe_mono; [..|by apply H].
  - intros w'. by apply evolves_mono.
  - intros a w' [??]. split; [by eapply evolves_mono|done].
Qed.

(** What another socket's program leaves of a socket. *)
Lemma bound_later (ps : path -> Prop) w w' p l :
  evolves ps w w' -> ~ ps p -> own w ⊆ own w' -> bound w p l -> bound w' p l.
Proof.
  intros He Hp Ho (Hl & E & Hi & n & Hn & Ht & Hm & Hu).
  destruct (ev_inodes _ _ _ He _ _ Hn) as (n' & Hn' & Ht' & _ & Hc).
  assert (n' = n) as ->.
  { destruct Hc as [->|[_ ->]]; [congruence|done|]. unfold set_mode. rewrite <- Hm. by destruct n. }
  split_and!; [done| |set_solver|].
  - destruct (ev_entries _ _ _ He _ _ E) as [?|[? _]]; done.
  - exists n. split_and!; [done..|]. by rewrite (ev_euid _ _ _ He).
Qed.

Lemma activated_later (ps : path -> Prop) w w' p l :
  evolves ps w w' -> ~ ps p -> own w ⊆ own w' -> activated w p l -> activated w' p l.
Proof.
  intros He Hp Ho (Hl & Hin & Hi & i & n & E & Hn & Ht & Hm & Hu).
  destruct (ev_inodes _ _ _ He _ _ Hn) as (n' & Hn' & Ht' & _ & Hc).
  split_and!; [done|by rewrite (ev_inherited _ _ _ He)|set_solver|]. exists i.
  destruct (ev_entries _ _ _ He _ _ E) as [E'|[? _]]; [|done].
  exists n'. split_and!; [done..|congruence| |].
  - destruct Hc as [->|[_ ->]]; [congruence|done|done].
  - rewrite (ev_euid _ _ _ He). destruct Hc as [->|[_ ->]]; [congruence|done|done].
Qed.

(** ** The start-up as a whole *)

(** The sockets of the agent. *)
Definition sockets_of (var_os : environment) (p : path) : path -> Prop :=
  fun q => q = p \/ default_control_socket_path var_os = Ok q.

(** What [serve] has at its end: both sockets are its own, at their names, for the owner
    alone, and their guards name them. *)
Definition serving (var_os : environment) (p : path) (w w' : machine) (svc : service) : Prop :=
  (exists c, default_control_socket_path var_os = Ok c /\ bound w' c (control_listener svc) /\
     control_guard svc = guard_of c (control_listener svc) /\
     next_ino (files w) <= bound_inode (control_listener svc)) /\
  own w' = {[ bound_inode (control_listener svc); bound_inode (listener svc) ]} /\
  (default_control_socket_path var_os <> Ok p ->
   match socket_guard svc with
   | Some g => bound w' p (listener svc) /\ g = guard_of p (listener svc) /\
       next_ino (files w) <= bound_inode (listener svc)
   | None => activated w' p (listener svc)
   end) /\
  10000 <= authorization_timeout svc <= 120000 /\
  default_store_directory var_os = Ok (KeyStore.directory (store svc)) /\
  default_history_path var_os = Ok (History.store_path (history svc)).

Lemma locations_no_panic var_os :
  default_config_path var_os <> Panic /\ default_control_socket_path var_os <> Panic /\
  default_store_directory var_os <> Panic /\ default_history_path var_os <> Panic.
Proof.
  unfold default_store_directory, default_history_path, default_data_directory, default_config_path,
    default_control_socket_path.
  split_and!; (destruct (non_empty _); [done|]; by destruct (var_os _)).
Qed.

(** Nothing changes once both sockets are there. *)
Lemma start_service_does ps var_os l g cl cg w :
  does ps (start_service var_os l g cl cg) (fun r w' => w' = w /\
    match r with
    | Ok svc => listener svc = l /\ socket_guard svc = g /\ control_listener svc = cl /\ control_guard svc = cg /\
        10000 <= authorization_timeout svc <= 120000 /\
        default_store_directory var_os = Ok (KeyStore.directory (store svc)) /\
        default_history_path var_os = Ok (History.store_path (history svc))
    | Err _ => True
    | Panic => False
    end) w.
Proof.
  destruct (locations_no_panic var_os) as (N1 & _ & N2 & N3). apply does_try.
  destruct (default_config_path var_os) as [cp|e|]; apply does_ret; [|done..].
  apply does_try, does_map_err. eapply does_mono.
  2: { apply (does_read_only ps _ (Config.loaded (Config.ConfigStore_new cp) (files w))).
       eapply safe_mono; [..|apply Config.ConfigStore_load_safe]; [done|]. by intros r s [_ ?]. }
  intros r w' _ [-> Hr]. destruct r as [config|e|]; cbn [map_err]; [|done..]. destruct Hr as [Hwf _].
  apply does_try. destruct (default_store_directory var_os) as [sd|e|]; apply does_ret; [|done..].
  apply does_try. destruct (default_history_path var_os) as [hp|e|]; apply does_ret; [|done..].
  apply does_try, does_map_err. eapply does_mono; [|apply does_spawn]. intros r w' _ [-> Hr].
  destruct r as [[]|e|]; cbn [map_err]; [|done..]. apply does_ret.
  unfold Config.Config_wf, Config.MIN_AUTHORIZATION_TIMEOUT_SECONDS, Config.MAX_AUTHORIZATION_TIMEOUT_SECONDS in Hwf.
  split_and!; cbn; (done || lia).
Qed.

Lemma serve_does var_os p w :
  own w = ∅ ->
  does (sockets_of var_os p) (serve var_os p)
    (fun r w' => match r with Ok svc => serving var_os p w w' svc | Err _ => own w' = ∅ | Panic => False end) w.
Proof.
  intros Hown. destruct (locations_no_panic var_os) as (_ & N & _).
  apply does_try. destruct (parent p) as [d|] eqn:Hd; cbn [ok_or]; apply does_ret; [|done].
  apply does_try, does_map_err. eapply does_mono; [|apply ensure_private_directory_does].
  intros r w1 He1 (Ho1 & Hr). destruct r as [[]|e|]; cbn [map_err]; [|congruence|done].
  apply does_try. eapply does_mono; [|apply (activated_or_bound_listener_does _ p d); [by left|done..|congruence]].
  intros r w2 He2 Hr2. destruct r as [[l g]|e|]; [|done..].
  assert (own w2 = {[ bound_inode l ]}) as Ho2.
  { destruct g; [|apply Hr2]. destruct Hr2 as [(_ & _ & ->) _]. rewrite Ho1, Hown. set_solver. }
  assert (next_ino (files w) <= next_ino (files w1)) as Hn1 by apply He1.
  apply (with_socket_does _ l g _ (fun svc w' => serving var_os p w w' svc) ∅); [|set_solver|].
  { intros g' ->. destruct Hr2 as ((( _ & _ & _ & n & Hn & Ht & _) & _) & ->). exists p, n. split_and!; [by left|done..]. }
  apply does_try. destruct (default_control_socket_path var_os) as [c|e|] eqn:Hc; apply does_ret; [|set_solver|done].
  apply does_try. assert (sockets_of var_os p c) as Hps by by right.
  eapply does_mono; [|apply (does_weaken (fun q => q = c)); [by intros q ->|by apply bind_guarded_socket_does]].
  intros r w3 He3 [Hec Hr3]. destruct r as [[cl cg]|e|]; cbn [guarded] in Hr3; [|set_solver|done].
  destruct Hr3 as [Hm ->]. pose proof Hm as (Hb & Hge & Ho3).
  assert (bound_inode cl ∉ own w2) as Hfresh by (intros ?%(proj1 (proj2 (ev_start _ _ _ Hec))); lia).
  apply (with_socket_does _ cl (Some (guard_of c cl)) _ (fun svc w' => serving var_os p w w' svc) ({[ bound_inode l ]} ∪ ∅));
    [|set_solver|].
  { intros g' [= <-]. destruct Hb as (_ & _ & _ & n & Hn & Ht & _). by exists c, n. }
  eapply does_mono; [|apply start_service_does]. intros r w4 _ [-> Hr4].
  destruct r as [svc|e|]; [|set_solver|done].
  destruct Hr4 as (El & Eg & Ecl & Ecg & Ht & Hs & Hh). unfold serving. rewrite El, Eg, Ecl, Ecg.
  pose proof (ev_next _ _ _ He2). split_and!; [|set_solver| |lia|lia|done..].
  - exists c. split_and!; [done..|lia].
  - intros Hne. assert (c <> p) as Hcp by (intros ->; congruence).
    assert (own w2 ⊆ own w3) by set_solver. destruct g as [g|].
    + destruct Hr2 as [(Hb2 & Hge2 & _) ->]. split_and!; [|done|lia]. by eapply bound_later.
    + destruct Hr2 as [Ha _]. by eapply activated_later.
Qed.

(** ** Binding, in the absence of faults *)

Lemma parents_ok_same_entries s s' p :
  (forall q, q <> p -> inode_at s' q = inode_at s q) -> parents_ok s' p = parents_ok s p.
Proof.
  intros H. apply parents_ok_same. intros q Hq. rewrite H.
  - unfold same_type. by destruct (inode_at s q); constructor.
  - intros ->. apply in_ancestors_length in Hq. lia.
Qed.

Lemma inode_at_add w p t m q :
  machine_wf w -> q <> p -> inode_at (add_inode (files w) p t m) q = inode_at (files w) q.
Proof.
  intros Hwf Hq. unfold inode_at. cbn. rewrite lookup_insert_ne by done.
  destruct (entries (files w) !! q) as [i|] eqn:E; [|done]. cbn.
  destruct (wf_inode _ _ _ Hwf E) as (_ & _ & Hi). rewrite lookup_insert_ne; [done|lia].
Qed.

(** A machine where this process has just bound [p]. *)
Definition with_bound (w : machine) (p : path) : machine :=
  mkMachine
    (mk_fs (<[p := next_ino (files w)]> (entries (files w))) (stable_entries (files w))
       (<[next_ino (files w) := mk_inode SocketFile MODE_0600 (euid (files w)) [] []]> (inodes (files w)))
       (next_ino (files w) + 1) (umask (files w)) (euid (files w)))
    ({[ next_ino (files w) ]} ∪ own w) (others w) (inherited w).

(** The listener on the next inode. *)
Definition next_listener (w : machine) (p : path) : UnixListener := mkListener (next_ino (files w)) (Some p).

(** Between [bind] and the setting of the permissions. *)
Definition half_bound (w : machine) (p : path) : machine :=
  set_own (set_files w (add_inode (files w) p SocketFile MODE_0777)) ({[ next_ino (files w) ]} ∪ own w).

Lemma run_bind_socket_op w p :
  parents_ok (files w) p = true -> entries (files w) !! p = None ->
  run calm (trigger (Bind p)) [] w = (Ok (next_listener w p), half_bound w p).
Proof.
  intros Hp He. rewrite run_trigger. cbn [exec sock_handler sock_exec fault calm]. unfold bind_inode.
  by rewrite Hp, He.
Qed.

Lemma run_bind_socket_in_use w p i :
  parents_ok (files w) p = true -> entries (files w) !! p = Some i ->
  run calm (trigger (Bind p)) [] w = (Err address_in_use, w).
Proof.
  intros Hp He. rewrite run_trigger. cbn [exec sock_handler sock_exec fault calm]. unfold bind_inode.
  by rewrite Hp, He.
Qed.

Lemma run_on_files {X} (e : fsE X) w :
  run calm (on_files e) [] w = (fst (fs_exec calm (files w) e), set_files w (snd (fs_exec calm (files w) e))).
Proof.
  unfold on_files. rewrite run_trigger. cbn [exec sock_handler sock_exec]. unfold exec, fs_handler.
  cbn [fault calm]. by destruct (fs_exec calm (files w) e).
Qed.

Lemma run_finish_bind w p :
  machine_wf w -> parents_ok (files w) p = true ->
  run calm (finish_socket_bind p (next_listener w p)) [] (half_bound w p) =
    (Ok (next_listener w p), with_bound w p).
Proof.
  intros Hwf Hp. unfold finish_socket_bind. erewrite run_bind; [|rewrite run_on_files; reflexivity].
  cbn [half_bound set_own set_files files fs_exec].
  assert (resolve MAX_LINKS (add_inode (files w) p SocketFile MODE_0777) p =
    Ok (next_ino (files w), mk_inode SocketFile (Z.land MODE_0777 (Z.lnot (umask (files w)))) (euid (files w)) [] [])) as ->.
  { unfold MAX_LINKS. cbn [resolve]. unfold find.
    rewrite (parents_ok_same_entries (files w)) by (intros q Hq; by apply inode_at_add).
    rewrite Hp. cbn. rewrite lookup_insert_eq. cbn. by rewrite lookup_insert_eq. }
  cbn. unfold with_bound. do 2 f_equal. f_equal. unfold set_inode. cbn. by rewrite insert_insert_eq.
Qed.

Lemma with_bound_wf w p : machine_wf w -> machine_wf (with_bound w p).
Proof.
  intros ([H1 H2] & H3 & H4). split_and!; [split|intros i Hi|intros l b Hl%H4]; cbn in *; [| | |lia].
  - intros q i Hq. destruct (decide (i = next_ino (files w))) as [->|Hi]; [rewrite lookup_insert_eq; by eexists|].
    rewrite lookup_insert_ne by congruence. apply (H1 q). destruct Hq as [Hq|Hq]; [|by right].
    apply lookup_insert_Some in Hq as [[_ ?]|[_ ?]]; [congruence|by left].
  - intros i [n Hn]. apply lookup_insert_Some in Hn as [[<- _]|[_ Hn]]; [lia|].
    assert (i < next_ino (files w)) by (apply H2; by exists n). lia.
  - apply elem_of_union in Hi as [->%elem_of_singleton|Hi%H3]; lia.
Qed.

(** The stale socket at [p] is removed. *)
Definition without (w : machine) (p : path) : machine :=
  set_files w (set_entries (files w) (delete p (entries (files w)))).

Lemma without_wf w p : machine_wf w -> machine_wf (without w p).
Proof.
  intros ([H1 H2] & H3 & H4). split_and!; [split|done|done]; cbn; [|done].
  intros q j [[_ Hq]%lookup_delete_Some|Hq]; apply (H1 q); auto.
Qed.

Lemma without_bound w p : with_bound (without w p) p = with_bound w p.
Proof. unfold with_bound, without. cbn. do 2 f_equal. apply insert_delete_eq. Qed.

(** [C25] The complete answer of [bind_socket] when no operation fails.  A free name is
    bound, with the mode 0600; a socket nobody listens on is replaced; but a socket of a
    running agent, or anything that is not a socket, is left alone and reported. *)
Theorem bind_socket_answers p w :
  machine_wf w -> parents_ok (files w) p = true ->
  run calm (bind_socket p) [] w =
    match find (files w) p with
    | None => (Ok (next_listener w p), with_bound w p)
    | Some (i, n) =>
        if negb (is_socket (file_type n)) then (Err (str "agent socket path exists and is not a Unix socket"), w)
        else if bool_decide (i ∈ own w ∪ others w) then (Err (str "another Keyvisor agent is already running"), w)
        else (Ok (next_listener w p), with_bound w p)
    end.
Proof.
  intros Hwf Hp. unfold bind_socket. destruct (find (files w) p) as [[i n]|] eqn:Ef.
  - pose proof Ef as (_ & E1 & E2)%find_Some. rewrite (run_bind _ _ _ _ _ _ (run_bind_socket_in_use w p i Hp E1)).
    rewrite decide_True by done. unfold map_err_prog.
    erewrite (run_try calm (on_files (SymlinkMetadata p) ≫= _)).
    2: { rewrite (run_bind _ _ _ _ _ _ (run_on_files _ _)). cbn [fs_exec]. rewrite Ef. reflexivity. }
    cbn [md_type fst snd]. rewrite set_files_same. destruct (is_socket (file_type n)) eqn:Es; cbn [negb]; [|done].
    assert (run calm (trigger (Connect p)) [] w =
      (if bool_decide (i ∈ own w ∪ others w) then Ok tt else Err connection_refused, w)) as Hc.
    { rewrite run_trigger. cbn [exec sock_handler sock_exec fault calm]. unfold MAX_LINKS. cbn [resolve]. rewrite Ef.
      destruct (file_type n) eqn:Et; try done. rewrite Et. cbn [is_socket andb]. by case_bool_decide. }
    rewrite (run_bind _ _ _ _ _ _ Hc). case_bool_decide; cbn [is_ok]; [done|].
    erewrite (run_try calm (on_files (RemoveFile p) ≫= _)).
    2: { rewrite (run_bind _ _ _ _ _ _ (run_on_files _ _)). cbn [fs_exec]. rewrite Ef.
         assert (is_dir (file_type n) = false) as -> by by destruct (file_type n). reflexivity. }
    cbn [fst snd]. change (set_files w _) with (without w p).
    assert (parents_ok (files (without w p)) p = true) as Hp'.
    { rewrite <- Hp. apply parents_ok_same_entries. intros q Hq. unfold inode_at. cbn. by rewrite lookup_delete_ne. }
    erewrite (run_try calm (trigger (Bind p) ≫= _)).
    2: { rewrite (run_bind _ _ _ _ _ _ (run_bind_socket_op _ _ Hp' (lookup_delete_eq _ _))). reflexivity. }
    rewrite run_finish_bind by (done || by apply without_wf). by rewrite without_bound.
  - assert (entries (files w) !! p = None) as E.
    { destruct (entries (files w) !! p) as [i|] eqn:E; [|done]. destruct (wf_inode _ _ _ Hwf E) as (n & Hn & _).
      by rewrite (proj2 (find_Some _ p i n)) in Ef. }
    rewrite (run_bind _ _ _ _ _ _ (run_bind_socket_op w p Hp E)). by apply run_finish_bind.
Qed.

(** [C31] Dropping the guard of a socket unlinks that socket and nothing else.  Whatever has
    happened to the file system since the bind, and whatever fails: either nothing changes,
    or the one name removed is the guard's path and it named the very inode the guard was
    made for; a file that replaced the socket stays.  If the socket is still in place and
    no operation fails, it is removed. *)
Theorem guard_removes_its_own g w :
  (forall p' w', reach (SocketGuard_drop g) w p' w' ->
     w' = w \/ w' = without w (guard_path g) /\ exists i n, find (files w) (guard_path g) = Some (i, n) /\
       i / 2 ^ 64 = device g /\ i mod 2 ^ 64 = inode_number g) /\
  (forall l n, g = guard_of (guard_path g) l -> find (files w) (guard_path g) = Some (bound_inode l, n) ->
     file_type n = SocketFile -> run calm (SocketGuard_drop g) [] w = (tt, without w (guard_path g))).
Proof.
  split.
  - intros p' w' Hr. revert Hr. apply (safe_reach_inv (fun w' => w' = w \/ w' = without w (guard_path g) /\ exists i n,
      find (files w) (guard_path g) = Some (i, n) /\ i / 2 ^ 64 = device g /\ i mod 2 ^ 64 = inode_number g) _ (fun _ _ => True)).
    apply safe_bind, safe_vis; [by left|]. intros v. cbn [exec sock_handler sock_exec].
    destruct (exec_cases v (files w) (SymlinkMetadata (guard_path g))) as [[m ->]| ->]; cbn [fs_fault fs_exec].
    { cbn [fst snd]. rewrite set_files_same. apply safe_ret; [by left|]. apply safe_ret; [by left|done]. }
    destruct (find (files w) (guard_path g)) as [[i n]|] eqn:Ef; cbn [fst snd]; rewrite set_files_same;
      (apply safe_ret; [by left|]); [|by apply safe_ret; [left|]].
    unfold dev, ino. cbn [md_ino]. destruct (_ && _)%bool eqn:E; [|by apply safe_ret; [left|]].
    apply andb_true_iff in E as [E1%Z.eqb_eq E2%Z.eqb_eq].
    apply safe_bind, safe_vis; [by left|]. intros v2. cbn [exec sock_handler sock_exec].
    destruct (exec_cases v2 (files w) (RemoveFile (guard_path g))) as [[m ->]| ->]; cbn [fs_fault fs_exec fst snd].
    { rewrite set_files_same. apply safe_ret; [by left|]. apply safe_ret; [by left|done]. }
    rewrite Ef. destruct (is_dir (file_type n)); cbn [fst snd].
    { rewrite set_files_same. apply safe_ret; [by left|]. apply safe_ret; [by left|done]. }
    assert (exists i n0, Some (i, n) = Some (i, n0) /\ i / 2 ^ 64 = device g /\ i mod 2 ^ 64 = inode_number g) by eauto 6.
    apply safe_ret; [right; split; [done|eauto 6]|]. apply safe_ret; [right; split; [done|eauto 6]|done].
  - intros l n Hg Hf Ht. unfold SocketGuard_drop. rewrite (run_bind _ _ _ _ _ _ (run_on_files _ _)).
    cbn [fs_exec]. rewrite Hf. cbn [fst snd]. rewrite set_files_same, Hg. unfold dev, ino, guard_of.
    cbn [md_ino device inode_number guard_path]. rewrite !Z.eqb_refl. cbn [andb].
    rewrite (run_bind _ _ _ _ _ _ (run_on_files _ _)). cbn [fs_exec]. rewrite Hf, Ht. done.
Qed.

(** [C8] Starting the agent never exposes its sockets and never harms anything else.
    Whatever operations fail and at every moment of [serve]: only sockets at the agent's
    two names are ever removed, no other file and no other process's listener is touched,
    and a socket that was made is reachable by its owner only, because of its own
    permissions or because its directory is private; a failure or a panic in the course
    of the start-up leaves no listener behind. *)
Theorem start_up_is_private var_os p w p' w' :
  machine_wf w -> own w = ∅ -> reach (serve var_os p) w p' w' ->
  evolves (sockets_of var_os p) w w' /\
  forall r, p' = Ret r ->
    match r with
    | Ok svc => serving var_os p w w' svc
    | Err _ => own w' = ∅
    | Panic => False
    end.
Proof.
  intros Hwf Ho Hr. pose proof (serve_does var_os p w Ho Hwf) as Hs. split.
  - exact (safe_reach_inv _ _ _ _ _ _ Hs Hr).
  - intros r ->. exact (proj2 (safe_reach_ret _ _ _ _ _ _ Hs Hr)).
Qed.

(** ** A first start in a private directory *)

Module Sample.
Definition session : environment := fun name =>
  if decide (name = str "KEYVISOR_CONTROL_SOCKET") then Some (str "/k/control.sock")
  else if decide (name = str "HOME") then Some (str "/k")
  else None.
Definition socket_path : path := EmptyDir.dir ++ [str "agent.sock"].
Definition host : machine := mkMachine EmptyDir.state ∅ ∅ [].

Lemma host_wf : machine_wf host.
Proof. split_and!; [apply EmptyDir.state_wf|set_solver|]. by intros l b ?%not_elem_of_nil. Qed.

Definition first_start : result bytes service * machine := run calm (serve session socket_path) [] host.
Definition guards_socket (r : result bytes service) : bool :=
  match r with Ok svc => match socket_guard svc with Some _ => true | None => false end | _ => false end.

Lemma start_up_is_private_witness :
  evolves (sockets_of session socket_path) host (snd first_start) /\
  exists svc, fst first_start = Ok svc /\ serving session socket_path host (snd first_start) svc /\
    bound (snd first_start) socket_path (listener svc).
Proof.
  assert (guards_socket (fst first_start) = true) as Hok by (vm_compute; reflexivity).
  destruct (start_up_is_private session socket_path host (Ret (fst first_start)) (snd first_start) host_wf eq_refl
    (run_reach calm (serve session socket_path) [] host)) as [He Hs].
  split; [exact He|]. specialize (Hs (fst first_start) eq_refl). revert Hok Hs.
  generalize (fst first_start) (snd first_start). intros r w' Hok Hs.
  destruct r as [svc|e|]; [|discriminate Hok..]. exists svc.
  unfold guards_socket in Hok. destruct (socket_guard svc) as [g|] eqn:Hg; [|discriminate Hok].
  split; [reflexivity|]. split; [exact Hs|]. destruct Hs as (_ & _ & Hs & _). rewrite Hg in Hs. apply Hs. by intros [=].
Defined.

(** The agent's socket after the start, and a second agent. *)
Lemma bind_socket_answers_witness :
  let w := with_bound host socket_path in
  run calm (bind_socket socket_path) [] w = (Err (str "another Keyvisor agent is already running"), w).
Proof.
  cbv zeta. rewrite (bind_socket_answers socket_path (with_bound host socket_path));
    [by vm_compute|by apply with_bound_wf, host_wf|by vm_compute].
Defined.

Lemma guard_removes_its_own_witness :
  let w := with_bound host socket_path in
  run calm (SocketGuard_drop (guard_of socket_path (next_listener host socket_path))) [] w =
    (tt, without w socket_path).
Proof.
  refine (proj2 (guard_removes_its_own (guard_of socket_path (next_listener host socket_path))
    (with_bound host socket_path)) (next_listener host socket_path)
    (mk_inode SocketFile MODE_0600 1000 [] []) eq_refl _ eq_refl).
  by vm_compute.
Defined.
End Sample.
