(* ===== verification/Pinentry.v ===== *)
(** Entering a PIN: [SecretInput] and the functions of crates/keyvisor-cli/src/main.rs that
    read a PIN from the GNOME PIN dialog, from the controlling terminal or from the standard
    input. *)

From S2P Require Import Prelude Bytes Text Effects FileSystem Paths Control.

Definition MAX_PINENTRY_LINE_BYTES : Z := 16 * 1024.

(** ** Which input *)

Inductive SecretInput := Auto | Terminal | Pinentry | Stdin.

#[global] Instance SecretInput_eq_dec : EqDecision SecretInput.
Proof. solve_decision. Defined.

(** The new value of [*current]. *)
Definition set_secret_input (current requested : SecretInput) : result bytes SecretInput :=
  if negb (bool_decide (current = Auto)) then Err (str "PIN input options are mutually exclusive")
  else Ok requested.

Definition graphical_session_available (var_os : environment) : bool :=
  bool_decide (is_Some (non_empty (var_os (str "WAYLAND_DISPLAY")))) ||
  bool_decide (is_Some (non_empty (var_os (str "DISPLAY")))).

Definition resolve_secret_input (var_os : environment) (input : SecretInput) : SecretInput :=
  if decide (input = Auto) then
    if graphical_session_available var_os then Pinentry else Terminal
  else input.

(** ** The Assuan protocol *)

Definition percent : byte := b8 37.
Definition HEX_UPPER : bytes := str "0123456789ABCDEF".

Definition is_ascii_alphanumeric (b : byte) : bool := in_range b 48 57 || in_range b 65 90 || in_range b 97 122.

Definition assuan_plain (b : byte) : bool :=
  is_ascii_alphanumeric b || bool_decide (b ∈ str " .,:-_").

Definition assuan_escape (value : bytes) : bytes :=
  value ≫= fun byte => if assuan_plain byte then [byte] else percent :: hex_byte HEX_UPPER byte.

(** The loop of [append_assuan_data]: one byte at a time, or three that stand for one. *)
Fixpoint append_assuan_data (input output : bytes) : result bytes bytes :=
  match input with
  | [] => Ok output
  | byte :: input =>
      if decide (byte = percent) then
        match input with
        | high :: low :: input =>
            high ← hex_digit high;
            low ← hex_digit low;
            if MAX_PIN_BYTES <=? len output then Err (str "GNOME PIN dialog returned an oversized value")
            else append_assuan_data input (output ++ [b8 (Z.lor (Z.shiftl high 4) low)])
        | _ => Err (str "GNOME PIN dialog returned invalid escaped data")
        end
      else if MAX_PIN_BYTES <=? len output then Err (str "GNOME PIN dialog returned an oversized value")
      else append_assuan_data input (output ++ [byte])
  end.

(** [Vec::pop] when the last byte is [b]. *)
Definition pop_if (b : byte) (line : bytes) : bytes :=
  if decide (last line = Some b) then removelast line else line.

(** The end of [read_bounded_line], on what [read_until] read. *)
Definition bounded_line (maximum : Z) (line : bytes) : result bytes bytes :=
  if negb (bool_decide (last line = Some newline)) || (maximum <? len line)
  then Err (str "GNOME PIN dialog response is too large")
  else Ok (pop_if carriage_return (removelast line)).

Definition pinentry_io (error : io_error) : bytes := str "cannot read the GNOME PIN dialog: " ++ message error.

Definition read_bounded_line (maximum : Z) (s : source) : result bytes (bytes * source) :=
  '(line, s) ← map_err pinentry_io (read_until (maximum + 1) s);
  line ← bounded_line maximum line;
  Ok (line, s).

(** The loop of [read_pinentry_response]. *)
Fixpoint response_loop (fuel : nat) (data : bytes) (s : source) : option (result bytes (bytes * source)) :=
  match fuel with
  | O => None
  | S fuel =>
      match read_bounded_line MAX_PINENTRY_LINE_BYTES s with
      | Ok (line, s) =>
          if starts_with (str "D ") line then
            match append_assuan_data (skipn 2 line) data with
            | Ok data => response_loop fuel data s
            | Err e => Some (Err e)
            | Panic => Some Panic
            end
          else if bool_decide (line = str "D") || starts_with (str "S ") line then response_loop fuel data s
          else if bool_decide (line = str "OK") || starts_with (str "OK ") line then Some (Ok (data, s))
          else if bool_decide (line = str "ERR") || starts_with (str "ERR ") line then
            Some (Err (str "GNOME PIN entry was cancelled"))
          else Some (Err (str "GNOME PIN dialog returned an invalid response"))
      | Err e => Some (Err e)
      | Panic => Some Panic
      end
  end.

(** Every line takes a byte of the stream: the length of the stream is fuel enough
    ([response_loop_enough]). *)
Definition read_pinentry_response (s : source) : result bytes (bytes * source) :=
  match response_loop (S (length (avail s))) [] s with
  | Some r => r
  | None => Err []
  end.

(** *** Escaping and decoding *)

(** What percent-escaped data stands for. *)
Fixpoint percent_decode (l : bytes) : option bytes :=
  match l with
  | [] => Some []
  | b :: l =>
      if decide (b = percent) then
        match l with
        | high :: low :: l =>
            high ← hex_value high;
            low ← hex_value low;
            cons (b8 (Z.lor (Z.shiftl high 4) low)) <$> percent_decode l
        | _ => None
        end
      else cons b <$> percent_decode l
  end.

(** Data fits when it is empty or leaves at most [MAX_PIN_BYTES]. *)
Definition fits (output v : bytes) : Prop := v = [] \/ len (output ++ v) <= MAX_PIN_BYTES.

Lemma fits_cons output b v :
  fits output (b :: v) <-> len output < MAX_PIN_BYTES /\ fits (output ++ [b]) v.
Proof.
  unfold fits. rewrite <- app_assoc. cbn [app]. split.
  - intros [|H]; [done|]. split; [len_lia|]. by right.
  - intros [H1 [->|H2]]; right; len_lia.
Qed.

Lemma hex_digit_Ok b d : hex_digit b = Ok d <-> hex_value b = Some d.
Proof. unfold hex_digit. destruct (hex_value b); split; congruence. Qed.

(** [append_assuan_data] decodes, within the bound. *)
Lemma append_assuan_data_Ok input output r :
  append_assuan_data input output = Ok r <->
  exists v, percent_decode input = Some v /\ r = output ++ v /\ fits output v.
Proof.
  revert output. induction input as [input IH] using (induction_ltof1 _ (@length byte)); unfold ltof in IH.
  intros output. destruct input as [|b input]; cbn [append_assuan_data percent_decode].
  { split; [intros [= <-]; exists []; rewrite app_nil_r; by split_and!; [| |left]|].
    intros (v & [= <-] & -> & _). by rewrite app_nil_r. }
  destruct (decide (b = percent)).
  - destruct input as [|h [|l input]]; [split; [done|intros (v & Hv & _); discriminate Hv]..|].
    unfold hex_digit. destruct (hex_value h) as [dh|]; cbn; [|split; [done|intros (v & Hv & _); discriminate Hv]].
    destruct (hex_value l) as [dl|]; cbn; [|split; [done|intros (v & Hv & _); discriminate Hv]].
    set (c := b8 _). destruct (MAX_PIN_BYTES <=? len output) eqn:E.
    + split; [done|]. intros (v & Hv & _ & Hf). destruct (percent_decode input); [|done].
      injection Hv as <-. apply fits_cons in Hf as [? _]. bool_lia.
    + rewrite IH by (cbn; lia). split.
      * intros (v & -> & -> & Hf). exists (c :: v). split_and!; [done|by rewrite <- app_assoc|].
        apply fits_cons. split; [bool_lia|done].
      * intros (v & Hv & -> & Hf). destruct (percent_decode input) as [v'|]; [|done].
        injection Hv as <-. exists v'. apply fits_cons in Hf as [_ Hf].
        split_and!; [done|by rewrite <- app_assoc|done].
  - destruct (MAX_PIN_BYTES <=? len output) eqn:E.
    + split; [done|]. intros (v & Hv & _ & Hf). destruct (percent_decode input); [|done].
      injection Hv as <-. apply fits_cons in Hf as [? _]. bool_lia.
    + rewrite IH by (cbn; lia). split.
      * intros (v & -> & -> & Hf). exists (b :: v). split_and!; [done|by rewrite <- app_assoc|].
        apply fits_cons. split; [bool_lia|done].
      * intros (v & Hv & -> & Hf). destruct (percent_decode input) as [v'|]; [|done].
        injection Hv as <-. exists v'. apply fits_cons in Hf as [_ Hf].
        split_and!; [done|by rewrite <- app_assoc|done].
Qed.

Lemma append_assuan_data_no_panic input output : append_assuan_data input output <> Panic.
Proof.
  revert output. induction input as [input IH] using (induction_ltof1 _ (@length byte)); unfold ltof in IH.
  intros output. destruct input as [|b input]; cbn [append_assuan_data]; [done|].
  destruct (decide (b = percent)).
  - destruct input as [|h [|l input]]; [done..|]. unfold hex_digit.
    destruct (hex_value h); [|done]. destruct (hex_value l); [|done]. cbn.
    destruct (_ <=? _); [done|]. apply IH. cbn. lia.
  - destruct (_ <=? _); [done|]. apply IH. cbn. lia.
Qed.

(** What the upper-case table holds at every nibble. *)
Lemma HEX_UPPER_nibble n :
  0 <= n < 16 ->
  is_ascii_alphanumeric (HEX_UPPER !!! Z.to_nat n) = true /\ hex_value (HEX_UPPER !!! Z.to_nat n) = Some n.
Proof.
  intros Hn. assert (forallb (fun n => is_ascii_alphanumeric (HEX_UPPER !!! n) &&
    bool_decide (hex_value (HEX_UPPER !!! n) = Some (Z.of_nat n)))%bool (seq 0 16) = true) as H
    by (vm_compute; reflexivity).
  rewrite forallb_forall in H. specialize (H (Z.to_nat n)).
  rewrite in_seq, Z2Nat.id in H by lia.
  apply andb_true_iff in H as [? ?%bool_decide_eq_true]; [auto|lia].
Qed.

Lemma percent_decode_escape v k :
  percent_decode (assuan_escape v ++ k) = (fun d => v ++ d) <$> percent_decode k.
Proof.
  induction v as [|b v IH]; [change (assuan_escape [] ++ k) with k; by destruct (percent_decode k)|].
  unfold assuan_escape. cbn [mbind list_bind]. fold (assuan_escape v).
  destruct (assuan_plain b) eqn:Hb.
  - cbn [app percent_decode]. rewrite decide_False by (by intros ->). rewrite IH. by destruct (percent_decode k).
  - unfold hex_byte. cbn [app percent_decode]. rewrite decide_True by done.
    rewrite (proj2 (HEX_UPPER_nibble _ (high_nibble b))), (proj2 (HEX_UPPER_nibble _ (low_nibble b))).
    cbn. rewrite nibbles_lor, b8_u8, IH. by destruct (percent_decode k).
Qed.

(** Every byte of an escaped text is plain or the percent sign: no line ends in it. *)
Lemma assuan_escape_plain v b : b ∈ assuan_escape v -> assuan_plain b = true \/ b = percent.
Proof.
  unfold assuan_escape. intros (x & Hb & _)%list_elem_of_bind. destruct (assuan_plain x) eqn:Hx.
  - apply list_elem_of_singleton in Hb as ->. by left.
  - apply elem_of_cons in Hb as [->|Hb]; [by right|]. left. unfold assuan_plain.
    unfold hex_byte in Hb. rewrite !elem_of_cons in Hb. destruct Hb as [->|[->|?%not_elem_of_nil]]; [| |done].
    + by rewrite (proj1 (HEX_UPPER_nibble _ (high_nibble x))).
    + by rewrite (proj1 (HEX_UPPER_nibble _ (low_nibble x))).
Qed.

Lemma assuan_escape_line v : newline ∉ assuan_escape v.
Proof. intros H. by apply assuan_escape_plain in H as [?|?]. Qed.

(** *** Responses *)

(** [raw] is a line of the dialog, [line] is what is left without its end. *)
Definition raw_line (raw line : bytes) : Prop :=
  exists body, raw = body ++ [newline] /\ newline ∉ body /\ len raw <= MAX_PINENTRY_LINE_BYTES /\
    line = pop_if carriage_return body.

Lemma read_until_Ok limit s line s' :
  read_until limit s = Ok (line, s') ->
  avail s = line ++ avail s' /\ (last line = Some newline -> ending s' = ending s) /\
  (last line = Some newline -> newline ∉ removelast line).
Proof.
  unfold read_until. destruct (position _ _) as [n|] eqn:E.
  - intros [= <- <-]. apply position_Some in E as [Hn (x & k & Hx & Hb)]. cbn [avail ending].
    apply bool_decide_eq_true in Hb as ->.
    assert (firstn (Z.to_nat limit) (avail s) = firstn n (firstn (Z.to_nat limit) (avail s)) ++ newline :: k) as Ew
      by (by rewrite <- Hx, take_drop).
    assert (length (firstn n (firstn (Z.to_nat limit) (avail s))) = n) as Hl.
    { rewrite length_take. apply (f_equal length) in Hx. rewrite length_drop in Hx. cbn in Hx. lia. }
    set (a := firstn n _) in *.
    assert (firstn (S n) (firstn (Z.to_nat limit) (avail s)) = a ++ [newline]) as ->.
    { rewrite Ew. rewrite take_app_ge by lia. rewrite Hl. by replace (S n - n)%nat with 1%nat by lia. }
    split_and!.
    + rewrite <- (take_drop (S n) (avail s)) at 1. f_equal.
      assert (S n <= Z.to_nat limit)%nat as Hle.
      { apply (f_equal length) in Ew. rewrite length_take, length_app in Ew. cbn in Ew. lia. }
      replace (take (S n) (avail s)) with (take (S n) (take (Z.to_nat limit) (avail s))) by (by rewrite take_take, Nat.min_l by lia). rewrite Ew.
      rewrite take_app_ge by lia. rewrite Hl. by replace (S n - n)%nat with 1%nat by lia.
    + done.
    + intros _. rewrite removelast_last. intros Hin. rewrite Forall_forall in Hn. apply Hn in Hin.
      by apply bool_decide_eq_false in Hin.
  - apply position_None in E. rewrite Forall_forall in E.
    assert (last (firstn (Z.to_nat limit) (avail s)) = Some newline -> False) as Hno.
    { intros Hlast%last_Some_elem_of. apply E in Hlast. by apply bool_decide_eq_false in Hlast. }
    destruct (limit <=? len (avail s)) eqn:El.
    + intros [= <- <-]. cbn [avail ending]. split_and!; [by rewrite take_drop|done..].
    + destruct (ending s); [done|]. intros [= <- <-]. cbn [avail ending].
      rewrite app_nil_r, firstn_all2; [|bool_to_prop; unfold len in *; lia].
      rewrite firstn_all2 in Hno by (bool_to_prop; unfold len in *; lia).
      split_and!; [done|by intros ?%Hno..].
Qed.

Lemma read_bounded_line_Ok s line s' :
  read_bounded_line MAX_PINENTRY_LINE_BYTES s = Ok (line, s') <->
  exists raw, raw_line raw line /\ avail s = raw ++ avail s' /\ ending s' = ending s.
Proof.
  unfold read_bounded_line, bounded_line. split.
  - destruct (read_until _ s) as [[l s1]|e|] eqn:E; [|done..]. apply read_until_Ok in E as (Ha & He & Hn).
    cbn [map_err mbind result_bind]. destruct (negb _ || _)%bool eqn:E; [done|]. intros [= <- <-].
    apply orb_false_iff in E as [E1%negb_false_iff%bool_decide_eq_true E2]. exists l. split_and!; [|done|auto].
    apply last_Some in E1 as [body ->]. rewrite removelast_last in *. exists body. split_and!; [done| |bool_lia|done].
    apply Hn. by rewrite last_snoc.
  - intros (raw & (body & -> & Hn & Hl & ->) & Ha & He).
    assert (len body + 1 <= MAX_PINENTRY_LINE_BYTES + 1) as Hb by len_lia.
    destruct s as [a e], s' as [a' e']. cbn [avail ending] in *. subst a e'. rewrite <- app_assoc. cbn [app].
    rewrite read_until_line by done. cbn [map_err mbind result_bind].
    rewrite last_snoc, bool_decide_true, removelast_last by done. cbn [negb orb].
    by rewrite (proj2 (Z.ltb_ge _ _) Hl).
Qed.

Lemma read_bounded_line_no_panic s : read_bounded_line MAX_PINENTRY_LINE_BYTES s <> Panic.
Proof.
  unfold read_bounded_line, bounded_line, read_until. destruct (position _ _); cbn; [by destruct (negb _ || _)%bool|].
  destruct (_ <=? _); cbn; [by destruct (negb _ || _)%bool|]. destruct (ending s); [done|]. cbn.
  by destruct (negb _ || _)%bool.
Qed.

(** The kinds of line of a response. *)
Definition is_status (line : bytes) : bool := bool_decide (line = str "D") || starts_with (str "S ") line.
Definition is_ok_line (line : bytes) : bool := bool_decide (line = str "OK") || starts_with (str "OK ") line.

(** [response raw d d']: the bytes [raw] are a complete response, with which the data [d]
    collected so far grows to [d']: status lines, data lines that fit, and a final [OK]. *)
Inductive response : bytes -> bytes -> bytes -> Prop :=
  | response_ok raw line d :
      raw_line raw line -> is_ok_line line = true -> response raw d d
  | response_status raw line rest d d' :
      raw_line raw line -> is_status line = true -> response rest d d' -> response (raw ++ rest) d d'
  | response_data raw e v rest d d' :
      raw_line raw (str "D " ++ e) -> percent_decode e = Some v -> fits d v ->
      response rest (d ++ v) d' -> response (raw ++ rest) d d'.

(** The tests of the loop exclude each other. *)
Lemma data_line line : starts_with (str "D ") line = true -> exists e, line = str "D " ++ e /\ skipn 2 line = e.
Proof.
  unfold starts_with. intros H%bool_decide_eq_true. destruct H as [e He%strip_prefix_Some].
  exists e. by subst.
Qed.

Lemma starts_with_first c p line : starts_with (c :: p) line = true -> head line = Some c.
Proof. unfold starts_with. intros [e ->%strip_prefix_Some]%bool_decide_eq_true. done. Qed.

Lemma status_not_data line : is_status line = true -> starts_with (str "D ") line = false.
Proof.
  unfold is_status. intros [H%bool_decide_eq_true|H]%orb_true_iff; [by subst|].
  apply starts_with_first in H. destruct (starts_with (str "D ") line) eqn:E; [|done].
  apply starts_with_first in E. rewrite H in E. discriminate E.
Qed.

Lemma ok_head line : is_ok_line line = true -> head line = Some (b8 79).
Proof.
  unfold is_ok_line. intros [->%bool_decide_eq_true|H]%orb_true_iff; [done|].
  by apply starts_with_first in H.
Qed.

Lemma ok_not_others line :
  is_ok_line line = true -> starts_with (str "D ") line = false /\ is_status line = false.
Proof.
  intros H%ok_head. assert (forall c p, c <> b8 79 -> starts_with (c :: p) line = false) as Hne.
  { intros c p Hc. destruct (starts_with (c :: p) line) eqn:E; [|done]. apply starts_with_first in E. congruence. }
  split; [by apply Hne|]. unfold is_status. apply orb_false_iff. split; [|by apply Hne].
  apply bool_decide_eq_false. by intros ->.
Qed.

Lemma raw_line_length raw line : raw_line raw line -> (1 <= length raw)%nat.
Proof. intros (body & -> & _). rewrite length_app. cbn. lia. Qed.

(** One round of the loop. *)
Lemma response_loop_S fuel d s :
  response_loop (S fuel) d s =
    match read_bounded_line MAX_PINENTRY_LINE_BYTES s with
    | Ok (line, s) =>
        if starts_with (str "D ") line then
          match append_assuan_data (skipn 2 line) d with
          | Ok d => response_loop fuel d s
          | Err e => Some (Err e)
          | Panic => Some Panic
          end
        else if is_status line then response_loop fuel d s
        else if is_ok_line line then Some (Ok (d, s))
        else if bool_decide (line = str "ERR") || starts_with (str "ERR ") line then
          Some (Err (str "GNOME PIN entry was cancelled"))
        else Some (Err (str "GNOME PIN dialog returned an invalid response"))
    | Err e => Some (Err e)
    | Panic => Some Panic
    end.
Proof. reflexivity. Qed.

(** The loop ends: each round takes a line off the stream. *)
Lemma response_loop_enough fuel d s :
  (length (avail s) < fuel)%nat -> exists r, response_loop fuel d s = Some r /\ r <> Panic.
Proof.
  revert d s. induction fuel as [|fuel IH]; intros d s Hf; [lia|]. rewrite response_loop_S.
  destruct (read_bounded_line _ s) as [[line s1]|e|] eqn:E; [|eauto|by apply read_bounded_line_no_panic in E].
  apply read_bounded_line_Ok in E as (raw & Hl%raw_line_length & Ha & _).
  assert (length (avail s1) < fuel)%nat by (rewrite Ha, length_app in Hf; lia).
  destruct (starts_with _ _).
  - pose proof (append_assuan_data_no_panic (drop 2 line) d).
    destruct (append_assuan_data (drop 2 line) d) as [d'|e|]; [by apply IH|eauto|done].
  - destruct (is_status line); [by apply IH|]. destruct (is_ok_line line); [by eauto|].
    destruct (_ || _)%bool; eauto.
Qed.

Lemma response_loop_Ok fuel d s d' s' :
  (length (avail s) < fuel)%nat ->
  response_loop fuel d s = Some (Ok (d', s')) <->
  exists raw, response raw d d' /\ avail s = raw ++ avail s' /\ ending s' = ending s.
Proof.
  intros Hf. split.
  - revert d s Hf. induction fuel as [|fuel IH]; intros d s Hf; [lia|]. rewrite response_loop_S.
    destruct (read_bounded_line _ s) as [[line s1]|e|] eqn:E; [|done..].
    apply read_bounded_line_Ok in E as (raw & Hl & Ha & He). pose proof (raw_line_length _ _ Hl).
    assert (length (avail s1) < fuel)%nat by (rewrite Ha, length_app in Hf; lia).
    destruct (starts_with (str "D ") line) eqn:Ed; [|destruct (is_status line) eqn:Es; [|destruct (is_ok_line line) eqn:Eo]].
    + apply data_line in Ed as (e & -> & ->). destruct (append_assuan_data e d) as [d1|e1|] eqn:E1; [|done..].
      apply append_assuan_data_Ok in E1 as (v & Hv & -> & Hfit). intros (rest & Hr & Ha' & He')%IH; [|done].
      exists (raw ++ rest). split_and!; [by eapply response_data|by rewrite <- app_assoc, <- Ha'|congruence].
    + intros (rest & Hr & Ha' & He')%IH; [|done].
      exists (raw ++ rest). split_and!; [by eapply response_status|by rewrite <- app_assoc, <- Ha'|congruence].
    + intros [= <- <-]. exists raw. split_and!; [by eapply response_ok|done..].
    + by destruct (_ || _)%bool.
  - intros (raw & Hr & Ha & He). revert s fuel Hf Ha He.
    induction Hr as [raw line d Hl Ho|raw line rest d d' Hl Hs Hr IH|raw e v rest d d' Hl Hv Hfit Hr IH];
      intros s fuel Hf Ha He; (destruct fuel as [|fuel]; [lia|]); rewrite response_loop_S.
    + rewrite (proj2 (read_bounded_line_Ok s line s')) by eauto.
      destruct (ok_not_others line Ho) as [-> ->]. by rewrite Ho.
    + pose proof (raw_line_length _ _ Hl). rewrite <- app_assoc in Ha.
      rewrite (proj2 (read_bounded_line_Ok s line (mkSource (rest ++ avail s') (ending s)))) by eauto.
      rewrite status_not_data, Hs by done. apply IH; [|done..]. rewrite Ha in Hf.
      rewrite !length_app in Hf. cbn [avail]. rewrite length_app. lia.
    + pose proof (raw_line_length _ _ Hl). rewrite <- app_assoc in Ha.
      rewrite (proj2 (read_bounded_line_Ok s (str "D " ++ e) (mkSource (rest ++ avail s') (ending s)))) by eauto.
      assert (starts_with (str "D ") (str "D " ++ e) = true) as ->.
      { unfold starts_with. rewrite strip_prefix_app. by apply bool_decide_eq_true. }
      change (drop 2 (str "D " ++ e)) with e.
      rewrite (proj2 (append_assuan_data_Ok e d (d ++ v))) by eauto. apply IH; [|done..]. rewrite Ha in Hf.
      rewrite !length_app in Hf. cbn [avail]. rewrite length_app. lia.
Qed.

Lemma read_pinentry_response_Ok s data s' :
  read_pinentry_response s = Ok (data, s') <->
  exists raw, response raw [] data /\ avail s = raw ++ avail s' /\ ending s' = ending s.
Proof.
  rewrite <- (response_loop_Ok (S (length (avail s)))) by lia. unfold read_pinentry_response.
  destruct (response_loop_enough (S (length (avail s))) [] s) as (r & -> & _); [lia|].
  split; congruence.
Qed.

Lemma response_fits raw d d' : response raw d d' -> len d <= MAX_PIN_BYTES -> len d' <= MAX_PIN_BYTES.
Proof.
  induction 1 as [| |raw e v rest d d' _ _ Hf _ IH]; [done|auto|].
  intros Hd. apply IH. destruct Hf as [->|?]; [by rewrite app_nil_r|done].
Qed.

(** [C26] The parser of the dialog's responses is correct.  It always returns, never panics,
    and succeeds exactly on streams that start with status lines, data lines that together
    decode to at most 64 bytes, and a final [OK], each line at most 16 KiB long; the result
    is what the data lines decode to, and the stream is left after the [OK]. *)
Theorem pinentry_response_correct s :
  read_pinentry_response s <> Panic /\
  (exists r, response_loop (S (length (avail s))) [] s = Some r) /\
  forall data s',
    read_pinentry_response s = Ok (data, s') <->
    exists raw, response raw [] data /\ len data <= MAX_PIN_BYTES /\
      avail s = raw ++ avail s' /\ ending s' = ending s.
Proof.
  destruct (response_loop_enough (S (length (avail s))) [] s) as (r & E & Hr); [lia|]. split_and!.
  - unfold read_pinentry_response. by rewrite E.
  - by exists r.
  - intros data s'. rewrite read_pinentry_response_Ok. split; intros (raw & H); exists raw; [|tauto].
    destruct H as (Hraw & Ha & He). split_and!; [done| |done..]. by eapply response_fits.
Qed.

(** A line of a response as it is written. *)
Lemma raw_line_plain line :
  newline ∉ line -> last line <> Some carriage_return -> len line < MAX_PINENTRY_LINE_BYTES ->
  raw_line (line ++ [newline]) line.
Proof.
  intros Hn Hc Hl. exists line. split_and!; [done|done|len_lia|]. unfold pop_if. by rewrite decide_False.
Qed.

Lemma len_assuan_escape v : len (assuan_escape v) <= 3 * len v.
Proof.
  induction v as [|b v IH]; [done|]. unfold assuan_escape. cbn [mbind list_bind]. fold (assuan_escape v).
  destruct (assuan_plain b); unfold hex_byte; len_lia.
Qed.

(** A dialog that sends the PIN as one data line. *)
Lemma response_of_pin pin :
  len pin <= MAX_PIN_BYTES ->
  response ((str "D " ++ assuan_escape pin ++ [newline]) ++ str "OK" ++ [newline]) [] pin.
Proof.
  intros Hp. pose proof (len_assuan_escape pin).
  assert (response ((((str "D " ++ assuan_escape pin)) ++ [newline]) ++ str "OK" ++ [newline]) [] ([] ++ pin)) as H'.
  - apply (response_data _ (assuan_escape pin) pin).
    + apply raw_line_plain.
      * intros [?|?]%elem_of_app; [by apply (bool_decide_unpack (newline ∉ str "D "))|by eapply assuan_escape_line].
      * rewrite last_app. destruct (last (assuan_escape pin)) as [b|] eqn:E; [|by vm_compute].
        apply last_Some_elem_of, assuan_escape_plain in E. intros [= ->]. by destruct E.
      * change (str "D ") with [b8 68; b8 32]. unfold MAX_PIN_BYTES, MAX_PINENTRY_LINE_BYTES in *. len_lia.
    + rewrite <- (app_nil_r (assuan_escape pin)), percent_decode_escape. cbn. by rewrite app_nil_r.
    + right. done.
    + cbn [app]. apply (response_ok _ (str "OK")); [|done]. apply raw_line_plain; [|by vm_compute..].
      by apply (bool_decide_unpack _).
  - exact H'.
Qed.
