(* ===== verification/Secrets.v ===== *)
(** Asking the user: [read_secret_from_pinentry], [read_secret_from_tty], [read_new_pin],
    [read_existing_pin] and [require_confirmation] of crates/keyvisor-cli/src/main.rs.

    The user types at the controlling terminal, in the GNOME PIN dialog or on the standard
    input; what the dialog and the user send is arbitrary, and every operation can fail. *)

From S2P Require Import Prelude Bytes Text Effects FileSystem Paths Control Pinentry.

(** ** Operations *)

(** The modes of a terminal; of the local modes only [ECHO] is looked at. *)
Record termios := mkTermios { local_modes : Z; other_modes : bytes }.

Definition ECHO : Z := 8.

(** [LocalModes::remove]. *)
Definition remove_modes (t : termios) (m : Z) : termios := mkTermios (Z.ldiff (local_modes t) m) (other_modes t).

(** [SpawnPinentry] answers whether the child has an input and an output pipe. *)
Inductive userE : Type -> Type :=
  | SpawnPinentry : userE (io_result (bool * bool))
  | SendLine (line : bytes) : userE (io_result unit)
  | ReadResponse : userE (result bytes bytes)
  | ClosePipes : userE unit
  | KillPinentry : userE unit
  | WaitPinentry : userE (io_result bool)
  | OpenTty : userE (io_result unit)
  | TtyWrite (text : bytes) : userE (io_result unit)
  | TcGetAttr : userE (io_result termios)
  | TcSetAttr (modes : termios) : userE (io_result unit)
  | TtyReadUntil (limit : Z) : userE (io_result bytes)
  | TtyReadLine : userE (io_result bytes)
  | StdinReadUntil (limit : Z) : userE (io_result bytes).

(** ** The PIN *)

Definition validate_pin (pin label : bytes) : result bytes bytes :=
  if (6 <=? len pin) && (len pin <=? MAX_PIN_BYTES) then Ok pin
  else Err (label ++ str " must be between 6 and " ++ print_dec MAX_PIN_BYTES ++ str " bytes").

(** [read_pin_line], on a reader given by its operation. *)
Definition read_pin_line (read : Z -> userE (io_result bytes)) (label : bytes) : prog userE (result bytes bytes) :=
  pin ←? map_err_prog (fun error => str "cannot read " ++ label ++ str ": " ++ message error)
    (trigger (read (MAX_PIN_BYTES + 2)));
  Ret (validate_pin (pop_if carriage_return (pop_if newline pin)) label).

(** ** The GNOME PIN dialog *)

Definition send_pinentry_command (command : bytes) : prog userE (result bytes unit) :=
  _ ←? map_err_prog (fun error => str "cannot configure the GNOME PIN dialog: " ++ message error)
    (trigger (SendLine command));
  data ←? trigger ReadResponse;
  if negb (is_empty data) then Ret (Err (str "GNOME PIN dialog returned unexpected data"))
  else Ret (Ok tt).

Definition expect_pinentry_ok : prog userE (result bytes unit) :=
  data ←? trigger ReadResponse;
  if is_empty data then Ret (Ok tt) else Ret (Err (str "GNOME PIN dialog returned an invalid greeting")).

Fixpoint send_pinentry_commands (commands : list bytes) : prog userE (result bytes unit) :=
  match commands with
  | [] => Ret (Ok tt)
  | command :: commands => _ ←? send_pinentry_command command; send_pinentry_commands commands
  end.

(** The commands that configure the dialog. *)
Definition configuration (description ok_label : bytes) : list bytes :=
  [ str "SETTIMEOUT 120";
    str "SETTITLE " ++ assuan_escape (str "Keyvisor TPM Authorization");
    str "SETDESC " ++ assuan_escape description;
    str "SETPROMPT " ++ assuan_escape (str "TPM PIN:");
    str "SETOK " ++ assuan_escape ok_label;
    str "SETCANCEL " ++ assuan_escape (str "Cancel") ].

(** The closure of [read_secret_from_pinentry]. *)
Definition pinentry_dialog (description ok_label : bytes) (repeat_prompt : option bytes) :
    prog userE (result bytes bytes) :=
  _ ←? expect_pinentry_ok;
  _ ←? send_pinentry_commands (configuration description ok_label);
  _ ←? match repeat_prompt with
       | Some repeat_prompt => send_pinentry_command (str "SETREPEAT " ++ assuan_escape repeat_prompt)
       | None => Ret (Ok tt)
       end;
  _ ←? map_err_prog (fun error => str "cannot request the GNOME PIN dialog: " ++ message error)
    (trigger (SendLine (str "GETPIN")));
  trigger ReadResponse.

Definition read_secret_from_pinentry (description : bytes) (repeat_prompt : option bytes) :
    prog userE (result bytes bytes) :=
  let ok_label := if bool_decide (is_Some repeat_prompt) then str "Create" else str "Authorize" in
  '(input, output) ←? map_err_prog (fun error => str "cannot start GNOME PIN dialog: " ++ message error)
    (trigger SpawnPinentry);
  if negb input then Ret (Err (str "GNOME PIN dialog has no command pipe"))
  else if negb output then Ret (Err (str "GNOME PIN dialog has no response pipe"))
  else
    result ← pinentry_dialog description ok_label repeat_prompt;
    _ ← trigger ClosePipes;
    _ ← (if is_ok result then Ret tt else trigger KillPinentry);
    success ←? map_err_prog (fun error => str "cannot wait for the GNOME PIN dialog: " ++ message error)
      (trigger WaitPinentry);
    pin ←? Ret result;
    if negb success then Ret (Err (str "GNOME PIN entry was cancelled"))
    else Ret (validate_pin pin (str "PIN")).

(** ** The terminal *)

Definition read_secret_from_tty (prompt : bytes) : prog userE (result bytes bytes) :=
  _ ←? map_err_prog (fun error => str "cannot open the controlling terminal: " ++ message error) (trigger OpenTty);
  _ ←? map_err_prog (fun error => str "cannot write PIN prompt: " ++ message error) (trigger (TtyWrite prompt));
  original ←? map_err_prog (fun error => str "cannot inspect terminal: " ++ message error) (trigger TcGetAttr);
  let hidden := remove_modes original ECHO in
  _ ←? map_err_prog (fun error => str "cannot disable terminal echo: " ++ message error) (trigger (TcSetAttr hidden));
  result ← read_pin_line TtyReadUntil (str "PIN");
  restore ← map_err_prog (fun error => str "cannot restore terminal echo: " ++ message error)
    (trigger (TcSetAttr original));
  newline ← map_err_prog message (trigger (TtyWrite [newline]));
  _ ←? Ret restore;
  _ ←? Ret newline;
  Ret result.

Definition require_confirmation (prompt : bytes) : prog userE (result bytes unit) :=
  _ ←? map_err_prog (fun error => str "confirmation requires a terminal: " ++ message error) (trigger OpenTty);
  _ ←? map_err_prog (fun error => str "cannot write confirmation prompt: " ++ message error)
    (trigger (TtyWrite prompt));
  answer ←? map_err_prog (fun error => str "cannot read confirmation: " ++ message error) (trigger TtyReadLine);
  if bool_decide (trim answer ∈ [str "y"; str "Y"; str "yes"; str "YES"]) then Ret (Ok tt)
  else Ret (Err (str "operation cancelled")).

(** ** Reading a PIN *)

Section ReadPin.
Context (var_os : environment).

Definition read_new_pin (key_name : bytes) (input : SecretInput) : prog userE (result bytes bytes) :=
  let input := resolve_secret_input var_os input in
  if decide (input = Pinentry) then
    read_secret_from_pinentry (str "Create TPM-protected key “" ++ key_name ++ str "”.") (Some (str "Confirm TPM PIN:"))
  else
    '(first, second) ←?
      (if decide (input = Stdin) then
         first ←? read_pin_line StdinReadUntil (str "PIN");
         second ←? read_pin_line StdinReadUntil (str "PIN confirmation");
         Ret (Ok (first, second))
       else
         first ←? read_secret_from_tty (str "TPM PIN: ");
         second ←? read_secret_from_tty (str "Confirm TPM PIN: ");
         Ret (Ok (first, second)));
    if negb (bool_decide (first = second)) then Ret (Err (str "PIN confirmation does not match"))
    else Ret (Ok first).

Definition read_existing_pin (context : bytes) (input : SecretInput) : prog userE (result bytes bytes) :=
  match resolve_secret_input var_os input with
  | Pinentry => read_secret_from_pinentry (str "Authorize TPM-protected " ++ context ++ str ".") None
  | Stdin => read_pin_line StdinReadUntil (str "PIN")
  | Terminal | Auto => read_secret_from_tty (str "TPM PIN: ")
  end.
End ReadPin.

(** ** The user *)

(** The PIN dialog: not started, running, told to die, or waited for. *)
Inductive dialog_state := NotStarted | Running | Killed | Reaped.

#[global] Instance dialog_state_eq_dec : EqDecision dialog_state.
Proof. solve_decision. Defined.

(** What the program wrote to the dialog and to the terminal, what the dialog and the user
    will send, the modes of the terminal; [echoed] are the lines the program read while the
    terminal showed what was typed. *)
Record user := mkUser {
  commands : bytes;
  dialog : source;
  dialog_state_of : dialog_state;
  modes : termios;
  typed : source;
  screen : bytes;
  echoed : bytes;
  std_in : source;
}.

(** The environment's part: a fault, how much was written before it, how much of what was
    typed a flush discards, the pipes of the dialog and its exit status. *)
Record reaction := mkReaction {
  user_fault : option io_error;
  written : nat;
  discarded : nat;
  pipes : bool * bool;
  exit_success : bool;
}.
Definition obliging : reaction := mkReaction None 0 0 (true, true) true.

Definition set_commands (u : user) (c : bytes) : user :=
  mkUser c (dialog u) (dialog_state_of u) (modes u) (typed u) (screen u) (echoed u) (std_in u).
Definition set_dialog (u : user) (s : source) : user :=
  mkUser (commands u) s (dialog_state_of u) (modes u) (typed u) (screen u) (echoed u) (std_in u).
Definition set_dialog_state (u : user) (d : dialog_state) : user :=
  mkUser (commands u) (dialog u) d (modes u) (typed u) (screen u) (echoed u) (std_in u).
Definition set_modes (u : user) (t : termios) : user :=
  mkUser (commands u) (dialog u) (dialog_state_of u) t (typed u) (screen u) (echoed u) (std_in u).
Definition set_typed (u : user) (s : source) : user :=
  mkUser (commands u) (dialog u) (dialog_state_of u) (modes u) s (screen u) (echoed u) (std_in u).
Definition set_screen (u : user) (b : bytes) : user :=
  mkUser (commands u) (dialog u) (dialog_state_of u) (modes u) (typed u) b (echoed u) (std_in u).
Definition set_echoed (u : user) (b : bytes) : user :=
  mkUser (commands u) (dialog u) (dialog_state_of u) (modes u) (typed u) (screen u) b (std_in u).
Definition set_std_in (u : user) (s : source) : user :=
  mkUser (commands u) (dialog u) (dialog_state_of u) (modes u) (typed u) (screen u) (echoed u) s.

Definition echo_on (u : user) : bool := negb (Z.land (local_modes (modes u)) ECHO =? 0).

(** A line from the terminal. *)
Definition read_tty (u : user) (r : io_result (bytes * source)) : io_result bytes * user :=
  match r with
  | Ok (line, s) =>
      let u := set_typed u s in
      (Ok line, if echo_on u then set_echoed u (echoed u ++ line) else u)
  | Err e => (Err e, u)
  | Panic => (Panic, u)
  end.

(** Operations when there is no fault. *)
Definition user_answer {X} (v : reaction) (u : user) (e : userE X) : X * user :=
  match e in userE X return X * user with
  | SpawnPinentry => (Ok (pipes v), set_dialog_state u Running)
  | SendLine line => (Ok tt, set_commands u (commands u ++ line ++ [newline]))
  | ReadResponse =>
      match read_pinentry_response (dialog u) with
      | Ok (data, s) => (Ok data, set_dialog u s)
      | Err e => (Err e, u)
      | Panic => (Panic, u)
      end
  | ClosePipes => (tt, u)
  | KillPinentry => (tt, set_dialog_state u Killed)
  | WaitPinentry => (Ok (exit_success v), set_dialog_state u Reaped)
  | OpenTty => (Ok tt, u)
  | TtyWrite text => (Ok tt, set_screen u (screen u ++ text))
  | TcGetAttr => (Ok (modes u), u)
  | TcSetAttr t =>
      (Ok tt, set_typed (set_modes u t) (mkSource (skipn (discarded v) (avail (typed u))) (ending (typed u))))
  | TtyReadUntil limit => read_tty u (read_until limit (typed u))
  | TtyReadLine =>
      read_tty u ('(line, s) ← read_until (len (avail (typed u)) + 1) (typed u);
                  line ← from_utf8 (mk_io_error InvalidDataKind (str "stream did not contain valid UTF-8")) line;
                  Ok (line, s))
  | StdinReadUntil limit =>
      match read_until limit (std_in u) with
      | Ok (line, s) => (Ok line, set_std_in u s)
      | Err e => (Err e, u)
      | Panic => (Panic, u)
      end
  end.

(** Operations that fail. *)
Definition user_fails {X} (v : reaction) (error : io_error) (u : user) (e : userE X) : X * user :=
  match e in userE X return X * user with
  | SpawnPinentry => (Err error, u)
  | SendLine line => (Err error, set_commands u (commands u ++ firstn (written v) (line ++ [newline])))
  | ReadResponse => (Err (pinentry_io error), u)
  | ClosePipes => (tt, u)
  | KillPinentry => (tt, u)
  | WaitPinentry => (Err error, u)
  | OpenTty => (Err error, u)
  | TtyWrite text => (Err error, set_screen u (screen u ++ firstn (written v) text))
  | TcGetAttr => (Err error, u)
  | TcSetAttr t => (Err error, u)
  | TtyReadUntil limit => (Err error, u)
  | TtyReadLine => (Err error, u)
  | StdinReadUntil limit => (Err error, u)
  end.

Definition user_exec {X} (v : reaction) (u : user) (e : userE X) : X * user :=
  match user_fault v with
  | Some error => user_fails v error u e
  | None => user_answer v u e
  end.

#[global] Instance user_handler : Handler userE user reaction := fun X v u e => user_exec v u e.

(** ** What an entry does to the terminal and to the dialog *)

Lemma user_op {X} (I : user -> Prop) (e : userE X) (Q : X -> user -> Prop) u :
  I u ->
  (forall v error, I (snd (user_fails v error u e)) /\ Q (fst (user_fails v error u e)) (snd (user_fails v error u e))) ->
  (forall v, I (snd (user_answer v u e)) /\ Q (fst (user_answer v u e)) (snd (user_answer v u e))) ->
  safe I (trigger e) Q u.
Proof.
  intros HI Hf Ha. apply safe_vis; [done|]. intros v. change (exec v u e) with (user_exec v u e). unfold user_exec.
  destruct (user_fault v) as [error|]; apply safe_ret; apply Hf || apply Ha.
Qed.

(** The usual step: an operation whose error is reported. *)
Lemma user_step {Er X B} (I : user -> Prop) (e : userE (result Er X)) {F} (g : Er -> F)
    (f : X -> prog userE (result F B)) (Q : result F B -> user -> Prop) u :
  I u ->
  (forall v error, let '(r, u') := user_fails v error u e in
     I u' /\ match r with Ok x => safe I (f x) Q u' | Err e => Q (Err (g e)) u' | Panic => False end) ->
  (forall v, let '(r, u') := user_answer v u e in
     I u' /\ match r with Ok x => safe I (f x) Q u' | Err e => Q (Err (g e)) u' | Panic => False end) ->
  safe I (x ←? map_err_prog g (trigger e); f x) Q u.
Proof.
  intros HI Hf Ha. apply safe_try, safe_map_err, user_op; [done|intros v error|intros v].
  - specialize (Hf v error). destruct (user_fails v error u e) as [[x|er|] u']; cbn; tauto.
  - specialize (Ha v). destruct (user_answer v u e) as [[x|er|] u']; cbn; tauto.
Qed.

(** A PIN of an acceptable length. *)
Definition pin_ok (pin : bytes) : Prop := 6 <= len pin <= MAX_PIN_BYTES.

Lemma validate_pin_Ok pin label r : validate_pin pin label = Ok r <-> r = pin /\ pin_ok pin.
Proof.
  unfold validate_pin, pin_ok. destruct (_ && _)%bool eqn:E.
  - split; [intros [= <-]; split; [done|bool_lia]|by intros [-> _]].
  - split; [done|]. intros [-> ?]. bool_to_prop. lia.
Qed.

Lemma validate_pin_cases pin label :
  (validate_pin pin label = Ok pin /\ pin_ok pin) \/ exists e, validate_pin pin label = Err e.
Proof.
  destruct (validate_pin pin label) as [r|e|] eqn:E; [|eauto|].
  - apply validate_pin_Ok in E as [-> ?]. auto.
  - unfold validate_pin in E. by destruct (_ && _)%bool.
Qed.

(** The result of reading a PIN. *)
Definition pin_result (r : result bytes bytes) : Prop :=
  match r with Ok pin => pin_ok pin | Err _ => True | Panic => False end.

Lemma validate_pin_result pin label : pin_result (validate_pin pin label).
Proof. destruct (validate_pin_cases pin label) as [[-> ?]|[e ->]]; done. Qed.

(** What reading does not touch: the dialog and, with the echo off, what is shown. *)
Record quietly (u u' : user) : Prop := mk_quietly {
  qu_commands : commands u' = commands u;
  qu_dialog : dialog_state_of u' = dialog_state_of u;
  qu_echoed : echoed u' = echoed u;
}.

#[global] Instance quietly_preorder : PreOrder quietly.
Proof.
  split; [by intros u|]. intros u1 u2 u3 [? ? ?] [? ? ?]. split; congruence.
Qed.

Lemma read_until_no_panic limit s : read_until limit s <> Panic.
Proof.
  unfold read_until. destruct (position _ _); [done|]. destruct (_ <=? _); [done|]. by destruct (ending s).
Qed.

(** Reading a line of the standard input, or of a terminal that does not echo. *)
Lemma read_pin_line_stdin label u :
  safe (quietly u) (read_pin_line StdinReadUntil label) (fun r u' => pin_result r /\ modes u' = modes u) u.
Proof.
  apply user_step; [done|intros v error; cbn [user_fails]; by split_and!|intros v]. cbn [user_answer].
  pose proof (read_until_no_panic (MAX_PIN_BYTES + 2) (std_in u)).
  destruct (read_until _ _) as [[line s]|e|]; [|by split_and!|done].
  assert (quietly u (set_std_in u s)) as Hq by done. split; [done|]. apply safe_ret; [done|].
  split; [apply validate_pin_result|done].
Qed.

Lemma read_pin_line_tty label u :
  echo_on u = false ->
  safe (quietly u) (read_pin_line TtyReadUntil label) (fun r u' => pin_result r /\ modes u' = modes u) u.
Proof.
  intros Hecho. apply user_step; [done|intros v error; cbn [user_fails]; by split_and!|intros v]. cbn [user_answer].
  pose proof (read_until_no_panic (MAX_PIN_BYTES + 2) (typed u)).
  destruct (read_until _ _) as [[line s]|e|]; cbn [read_tty]; [|by split_and!|done].
  change (echo_on (set_typed u s)) with (echo_on u). rewrite Hecho.
  assert (quietly u (set_typed u s)) as Hq by done. split; [done|]. apply safe_ret; [done|].
  split; [apply validate_pin_result|done].
Qed.

Lemma remove_echo u t : echo_on (set_modes u (remove_modes t ECHO)) = false.
Proof.
  unfold echo_on. cbn. rewrite (proj2 (Z.eqb_eq _ _)); [done|]. apply Z.bits_inj'. intros n Hn.
  rewrite Z.land_spec, Z.ldiff_spec, Z.bits_0. by destruct (Z.testbit _ n), (Z.testbit ECHO n).
Qed.

(** A specification from a state that differs quietly. *)
Lemma quietly_weaken {A} u u' (p : prog userE A) Q :
  quietly u u' -> safe (quietly u') p Q u' -> safe (quietly u) p Q u'.
Proof. intros Hq. apply safe_mono; [|done]. intros w ?. by transitivity u'. Qed.

(** What [read_secret_from_tty] leaves. *)
Definition RESTORE (error : io_error) : bytes := str "cannot restore terminal echo: " ++ message error.
Definition restored (u : user) {A} (r : result bytes A) (u' : user) : Prop :=
  modes u' = modes u \/ exists e, r = Err (RESTORE e).

Lemma read_secret_from_tty_safe prompt u :
  safe (quietly u) (read_secret_from_tty prompt) (fun r u' => pin_result r /\ restored u r u') u.
Proof.
  unfold restored. apply user_step; [done|by intros v error; cbn [user_fails]; split_and!; [..|left]|intros v; cbn [user_answer]].
  split; [done|]. apply user_step; [done|by intros v' error; cbn [user_fails]; split_and!; [..|left]|intros v'; cbn [user_answer]].
  split; [done|]. apply user_step; [done|by intros v'' error; cbn [user_fails]; split_and!; [..|left]|intros v''; cbn [user_answer]].
  split; [done|]. apply user_step; [done|by intros v3 error; cbn [user_fails]; split_and!; [..|left]|intros v3; cbn [user_answer]].
  set (u2 := set_screen u (screen u ++ prompt)). set (u3 := set_typed _ _).
  assert (quietly u u3) as Hq3 by done. split; [done|]. apply safe_bind.
  eapply safe_mono; [| |apply quietly_weaken, safe_end, read_pin_line_tty; [exact Hq3|exact (remove_echo u2 (modes u))]];
    [done|]. intros r u4 [Hq4 [Hr Hm4]]. cbn in Hm4. assert (quietly u u4) as Hq by by transitivity u3.
  apply safe_bind, safe_map_err, user_op; [done|intros v4 error|intros v4];
    cbn [user_fails user_answer fst snd map_err].
  all: split; [by destruct Hq; split|]; split; [by destruct Hq; split|].
  - apply safe_bind, safe_map_err, user_op; [by destruct Hq; split|intros v5 error'|intros v5];
      cbn [user_fails user_answer fst snd map_err]; split_and!; try (by destruct Hq; split);
      (apply safe_ret; [by destruct Hq; split|split; [done|right; by exists error]]).
  - apply safe_bind, safe_map_err, user_op; [by destruct Hq; split|intros v5 error'|intros v5];
      cbn [user_fails user_answer fst snd map_err]; split_and!; try (by destruct Hq; split);
      (apply safe_ret; [by destruct Hq; split|split; [done|by left]]).
Qed.

(** *** The dialog *)

Definition line_of (command : bytes) : bytes := command ++ [newline].

(** All the dialog is told, in order. *)
Definition dialog_script (description : bytes) (repeat_prompt : option bytes) : list bytes :=
  configuration description (if bool_decide (is_Some repeat_prompt) then str "Create" else str "Authorize") ++
  match repeat_prompt with Some p => [str "SETREPEAT " ++ assuan_escape p] | None => [] end ++
  [str "GETPIN"].

Definition script_bytes (script : list bytes) : bytes := concat (line_of <$> script).

(** While the program talks to the dialog. *)
Record talking (u u' : user) : Prop := mk_talking {
  ta_modes : modes u' = modes u;
  ta_echoed : echoed u' = echoed u;
  ta_state : dialog_state_of u' = dialog_state_of u;
  ta_heard : exists heard, avail (dialog u) = heard ++ avail (dialog u');
}.

#[global] Instance talking_preorder : PreOrder talking.
Proof.
  split; [by intros u; split; [..|exists []]|].
  intros u1 u2 u3 [? ? ? [h1 H1]] [? ? ? [h2 H2]]. split; [congruence..|].
  exists (h1 ++ h2). by rewrite <- app_assoc, <- H2.
Qed.

(** [says a m Q u]: what [m] writes to the dialog is a part of [a], and all of it when it
    succeeds, with [Q] on its result. *)
Definition says {A} (a : bytes) (m : prog userE (result bytes A)) (Q : A -> user -> Prop) (u : user) : Prop :=
  safe (fun u' => talking u u' /\ commands u' `prefix_of` commands u ++ a) m
    (fun r u' => talking u u' /\
       match r with
       | Ok x => commands u' = commands u ++ a /\ Q x u'
       | Err _ => True
       | Panic => False
       end) u.

Lemma prefix_app_self (c a : bytes) : c `prefix_of` c ++ a.
Proof. by exists a. Qed.

Lemma says_ret {A} (x : A) (Q : A -> user -> Prop) u : Q x u -> says [] (Ret (Ok x)) Q u.
Proof. intros HQ. apply safe_ret; rewrite app_nil_r; by split_and!. Qed.

Lemma says_err {A} a e (Q : A -> user -> Prop) u : says a (Ret (Err e)) Q u.
Proof. apply safe_ret; [split; [done|apply prefix_app_self]|done]. Qed.

Lemma says_try {A B} a b (m : prog userE (result bytes A)) (f : A -> prog userE (result bytes B)) Q u :
  says a m (fun x u' => says b (f x) Q u') u -> says (a ++ b) (x ←? m; f x) Q u.
Proof.
  intros Hm. apply safe_try. eapply safe_mono; [..|apply safe_end, Hm].
  - intros u' [? Hp]. split; [done|]. etrans; [exact Hp|]. rewrite (app_assoc (commands u)). apply prefix_app_self.
  - intros [x|e|] u' [[Ht Hp] [_ Hr]]; [| |done].
    + destruct Hr as [Hc Hf]. rewrite (app_assoc (commands u)). rewrite <- Hc. eapply safe_mono; [..|exact Hf].
      * intros u2 [? ?]. split; [by transitivity u'|done].
      * intros r u2 [? ?]. split; [by transitivity u'|]. destruct r; tauto.
    + split; [|done]. split; [done|]. etrans; [exact Hp|]. rewrite (app_assoc (commands u)). apply prefix_app_self.
Qed.

Lemma says_mono {A} a (m : prog userE (result bytes A)) (Q R : A -> user -> Prop) u :
  (forall x u', talking u u' -> Q x u' -> R x u') -> says a m Q u -> says a m R u.
Proof.
  intros HQ. apply safe_mono; [done|]. intros r u' [? Hr]. split; [done|]. destruct r; [|done..].
  destruct Hr. auto.
Qed.

Lemma says_line (g : io_error -> bytes) c u :
  says (line_of c) (map_err_prog g (trigger (SendLine c))) (fun _ _ => True) u.
Proof.
  apply safe_map_err, user_op; [split; [done|apply prefix_app_self]|intros v error|intros v];
    cbn [user_fails user_answer fst snd map_err].
  - assert (talking u (set_commands u (commands u ++ take (written v) (c ++ [newline])))) as Ht
      by (split; [done..|by exists []]).
    assert (commands u ++ take (written v) (c ++ [newline]) `prefix_of` commands u ++ line_of c) as Hp.
    { exists (drop (written v) (c ++ [newline])). by rewrite <- app_assoc, take_drop. }
    by split_and!.
  - assert (talking u (set_commands u (commands u ++ c ++ [newline]))) as Ht by (split; [done..|by exists []]).
    by split_and!.
Qed.

(** The data of a response that the dialog sent. *)
Definition answered (u : user) (data : bytes) : Prop :=
  exists before raw after, avail (dialog u) = before ++ raw ++ after /\ response raw [] data.

Lemma answered_later u u' data : talking u u' -> answered u' data -> answered u data.
Proof.
  intros [_ _ _ [h Hh]] (before & raw & after & Ha & Hr). exists (h ++ before), raw, after.
  by rewrite <- app_assoc, <- Ha.
Qed.

Lemma response_no_panic s : read_pinentry_response s <> Panic.
Proof.
  unfold read_pinentry_response.
  destruct (response_loop_enough (S (length (avail s))) [] s) as (r & -> & Hr); [lia|done].
Qed.

Lemma says_response u : says [] (trigger ReadResponse) (fun data _ => answered u data) u.
Proof.
  assert (commands u `prefix_of` commands u ++ []) as Hp by apply prefix_app_self.
  apply user_op; [done|done|intros v]. cbn [user_answer]. pose proof (response_no_panic (dialog u)).
  destruct (read_pinentry_response (dialog u)) as [[data s]|e|] eqn:E; [|by split_and!|done].
  apply read_pinentry_response_Ok in E as (raw & Hr & Ha & _). cbn [fst snd].
  assert (talking u (set_dialog u s)) as Ht by (split; [done..|by exists raw]).
  split; [done|]. split; [done|]. split; [by rewrite app_nil_r|]. by exists [], raw, (avail s).
Qed.

Lemma says_command c u : says (line_of c) (send_pinentry_command c) (fun _ _ => True) u.
Proof.
  rewrite <- (app_nil_r (line_of c)). apply says_try. eapply says_mono; [|apply says_line].
  intros _ u1 _ _. apply (says_try [] []). eapply says_mono; [|apply says_response].
  intros data u2 _ _. destruct (negb _); [apply says_err|by apply says_ret].
Qed.

Lemma says_commands cs u : says (script_bytes cs) (send_pinentry_commands cs) (fun _ _ => True) u.
Proof.
  revert u. induction cs as [|c cs IH]; intros u; cbn [send_pinentry_commands]; [by apply says_ret|].
  apply says_try. eapply says_mono; [|apply says_command]. intros _ u1 _ _. apply IH.
Qed.

Lemma script_bytes_app a b : script_bytes (a ++ b) = script_bytes a ++ script_bytes b.
Proof. unfold script_bytes. by rewrite fmap_app, concat_app. Qed.

Lemma says_greeting u : says [] expect_pinentry_ok (fun _ _ => True) u.
Proof.
  apply (says_try [] []). eapply says_mono; [|apply says_response].
  intros data u1 _ _. destruct (is_empty data); [by apply says_ret|apply says_err].
Qed.

Lemma says_dialog description repeat_prompt u :
  says (script_bytes (dialog_script description repeat_prompt))
    (pinentry_dialog description (if bool_decide (is_Some repeat_prompt) then str "Create" else str "Authorize") repeat_prompt)
    (fun data _ => answered u data) u.
Proof.
  unfold dialog_script. apply (says_try [] (script_bytes (_ ++ _ ++ _))). eapply says_mono; [|apply says_greeting].
  intros [] u1 Ht1 _. rewrite script_bytes_app. apply says_try. eapply says_mono; [|apply says_commands].
  intros [] u2 Ht2 _. rewrite script_bytes_app. apply says_try.
  eapply (says_mono _ _ (fun _ _ => True)).
  - intros [] u3 Ht3 _. unfold script_bytes. cbn [fmap list_fmap concat]. apply says_try.
    eapply says_mono; [|apply says_line]. intros [] u4 Ht4 _. eapply says_mono; [|apply says_response].
    intros data u5 _ Ha. assert (talking u u4) as Ht; [|by apply (answered_later u u4)].
    transitivity u1; [done|]. transitivity u2; [done|]. by transitivity u3.
  - destruct repeat_prompt as [p|]; [|by apply says_ret]. unfold script_bytes. cbn [fmap list_fmap concat].
    rewrite app_nil_r. apply says_command.
Qed.

(** How the dialog's process ends. *)
Definition WAIT (error : io_error) : bytes := str "cannot wait for the GNOME PIN dialog: " ++ message error.
Definition ended (u : user) (r : result bytes bytes) (u' : user) : Prop :=
  dialog_state_of u' = dialog_state_of u \/ dialog_state_of u' = Reaped \/
  r = Err (str "GNOME PIN dialog has no command pipe") \/
  r = Err (str "GNOME PIN dialog has no response pipe") \/
  exists e, r = Err (WAIT e).

(** The dialog as a whole: what it is told, what it leaves, and where the PIN comes from. *)
Record consulted (script : list bytes) (u u' : user) : Prop := mk_consulted {
  co_modes : modes u' = modes u;
  co_echoed : echoed u' = echoed u;
  co_commands : commands u' `prefix_of` commands u ++ script_bytes script;
}.

Lemma consulted_state script u u' d : consulted script u u' -> consulted script u (set_dialog_state u' d).
Proof. intros [? ? ?]. by split. Qed.

Lemma read_secret_from_pinentry_safe description repeat_prompt u :
  let script := dialog_script description repeat_prompt in
  safe (consulted script u) (read_secret_from_pinentry description repeat_prompt)
    (fun r u' => ended u r u' /\
       match r with
       | Ok pin => pin_ok pin /\ answered u pin /\ commands u' = commands u ++ script_bytes script /\
           dialog_state_of u' = Reaped
       | Err _ => True
       | Panic => False
       end) u.
Proof.
  intros script. assert (consulted script u u) as H0 by (split; [done..|apply prefix_app_self]).
  apply user_step; [done|intros v error|intros v]; cbn [user_fails user_answer].
  { split; [done|]. split; [by left|done]. }
  assert (consulted script u (set_dialog_state u Running)) as H1 by by apply consulted_state.
  split; [done|]. destruct (pipes v) as [input output].
  destruct input; cbn [negb].
  2: { apply safe_ret; [done|]. split; [|done]. unfold ended. auto. }
  destruct output; cbn [negb].
  2: { apply safe_ret; [done|]. split; [|done]. unfold ended. auto. }
  apply safe_bind. set (u1 := set_dialog_state u Running) in *.
  eapply safe_mono; [..|apply safe_end, (says_dialog description repeat_prompt u1)].
  { intros u' [[? ? ? ?] ?]. by split. }
  intros r u2 [[[Hm He Hs Hh] Hp] [Ht Hr]].
  assert (consulted script u u2) as H2 by by split.
  assert (forall u3, consulted script u u3 -> commands u3 = commands u2 -> safe (consulted script u)
    (success ←? map_err_prog WAIT (trigger WaitPinentry);
     pin ←? Ret r;
     if negb success then Ret (Err (str "GNOME PIN entry was cancelled")) else Ret (validate_pin pin (str "PIN")))
    (fun r u' => ended u r u' /\
       match r with
       | Ok pin => pin_ok pin /\ answered u pin /\ commands u' = commands u ++ script_bytes script /\
           dialog_state_of u' = Reaped
       | Err _ => True
       | Panic => False
       end) u3) as Hend.
  { intros u3 H3 Hc. apply user_step; [done|intros v3 error|intros v3]; cbn [user_fails user_answer].
    - split; [done|]. split; [|done]. unfold ended. eauto 6.
    - set (u4 := set_dialog_state u3 Reaped).
      assert (consulted script u u4) as H4 by by apply consulted_state. split; [done|].
      assert (forall r, ended u r u4) as Hend by (intros r'; right; by left).
      destruct r as [pin|e|]; [|by apply safe_ret|done]. destruct Hr as [Hcs Ha].
      destruct (exit_success v3); cbn [negb]; [|by apply safe_ret].
      destruct (validate_pin_cases pin (str "PIN")) as [[E Hok]|[e E]];
        (apply safe_ret; [done|]; rewrite E; split; [done|]); [|done].
      split_and!; [done|done| |done]. cbn. rewrite Hc. exact Hcs. }
  assert (consulted script u (set_dialog_state u2 Killed)) as H3 by by apply consulted_state.
  apply safe_bind, user_op; [done|intros v1 error|intros v1]; cbn [user_fails user_answer fst snd]; (split; [done|]);
    (apply safe_bind; destruct (is_ok r); [apply safe_ret; [done|by apply Hend]|]);
    (apply user_op; [done|intros v2 error2|intros v2]; cbn [user_fails user_answer fst snd]; (split; [done|]); by apply Hend).
Qed.

(** No command of the script contains the end of a line, whatever the description. *)
Lemma dialog_script_lines description repeat_prompt :
  Forall (fun c => newline ∉ c) (dialog_script description repeat_prompt).
Proof.
  assert (forall p v, newline ∉ p -> newline ∉ p ++ assuan_escape v) as H.
  { intros p v Hp [?|?]%elem_of_app; [done|by eapply assuan_escape_line]. }
  unfold dialog_script, configuration. cbn [app].
  repeat (apply Forall_cons; split; [by first [apply H; apply (bool_decide_unpack _)|apply (bool_decide_unpack _)]|]).
  apply Forall_app. split.
  - destruct repeat_prompt; [|done]. constructor; [|done]. apply H. by apply (bool_decide_unpack _).
  - constructor; [|done]. by apply (bool_decide_unpack _).
Qed.

(** [C24] The dialog is told what it was meant to be told.  Whatever the key's name is and
    however the dialog answers: what is written to it is at every moment a prefix of the
    fixed list of commands, one per line, in which the description takes one argument that
    decodes to it; a PIN comes from a well-formed response of the dialog, has 6 to 64
    bytes, and is returned only after all commands were given and the child process was
    waited for; and every other return also leaves no process behind, unless waiting fails
    or there never was a pipe to talk to it. *)
Theorem dialog_is_scripted description repeat_prompt u p' u' :
  reach (read_secret_from_pinentry description repeat_prompt) u p' u' ->
  let script := dialog_script description repeat_prompt in
  commands u' `prefix_of` commands u ++ script_bytes script /\
  Forall (fun c => newline ∉ c) script /\
  (exists argument, script !! 2%nat = Some (str "SETDESC " ++ argument) /\ percent_decode argument = Some description) /\
  forall r, p' = Ret r ->
    ended u r u' /\
    match r with
    | Ok pin => 6 <= len pin <= MAX_PIN_BYTES /\ answered u pin /\
        commands u' = commands u ++ script_bytes script /\ dialog_state_of u' = Reaped
    | Err _ => True
    | Panic => False
    end.
Proof.
  intros Hr script. pose proof (read_secret_from_pinentry_safe description repeat_prompt u) as Hs. split_and!.
  - exact (co_commands _ _ _ (safe_reach_inv _ _ _ _ _ _ Hs Hr)).
  - apply dialog_script_lines.
  - exists (assuan_escape description). split; [done|]. rewrite <- (app_nil_r (assuan_escape description)).
    rewrite percent_decode_escape. cbn. by rewrite app_nil_r.
  - intros r ->. exact (safe_reach_ret _ _ _ _ _ _ Hs Hr).
Qed.

(** *** Entering a PIN *)

(** The two functions of the commands. *)
Inductive entry (var_os : environment) : prog userE (result bytes bytes) -> Prop :=
  | entry_new key_name input : entry var_os (read_new_pin var_os key_name input)
  | entry_existing context input : entry var_os (read_existing_pin var_os context input).

Definition discreet (u u' : user) : Prop := echoed u' = echoed u.

Lemma pinentry_entry description repeat_prompt u :
  safe (discreet u) (read_secret_from_pinentry description repeat_prompt)
    (fun r u' => pin_result r /\ restored u r u') u.
Proof.
  eapply safe_mono; [..|apply safe_end, read_secret_from_pinentry_safe].
  - by intros u' [_ ? _].
  - intros r u' [[Hm _ _] [_ Hr]]. split; [|by left]. destruct r; [apply Hr|done..].
Qed.

Lemma tty_entry prompt u :
  safe (discreet u) (read_secret_from_tty prompt) (fun r u' => pin_result r /\ restored u r u') u.
Proof. eapply safe_mono; [..|apply read_secret_from_tty_safe]; [by intros u' [_ _ ?]|done]. Qed.

Lemma stdin_entry label u :
  safe (discreet u) (read_pin_line StdinReadUntil label) (fun r u' => pin_result r /\ restored u r u') u.
Proof.
  eapply safe_mono; [..|apply read_pin_line_stdin]; [by intros u' [_ _ ?]|].
  intros r u' [? ?]. split; [done|by left].
Qed.

(** Two entries, one after the other. *)
Lemma two_entries (m1 m2 : prog userE (result bytes bytes)) u :
  (forall u, safe (discreet u) m1 (fun r u' => pin_result r /\ restored u r u') u) ->
  (forall u, safe (discreet u) m2 (fun r u' => pin_result r /\ restored u r u') u) ->
  safe (discreet u) (first ←? m1; second ←? m2; Ret (Ok (first, second)))
    (fun r u' => restored u r u' /\ match r with Ok (first, _) => pin_ok first | Err _ => True | Panic => False end) u.
Proof.
  intros H1 H2. apply safe_try. eapply safe_mono; [..|apply safe_end, H1]; [done|].
  intros r u1 [Hd1 [Hr1 Hs1]]. destruct r as [pin1|e|]; [| |done].
  - destruct Hs1 as [Hm1|[? [=]]]. apply safe_try.
    eapply safe_mono; [..|apply safe_end, (H2 u1)]; [by intros u' Hd; unfold discreet in *; congruence|].
    intros r u2 [Hd2 [Hr2 Hs2]]. assert (discreet u u2) by (unfold discreet in *; congruence).
    destruct r as [pin2|e|]; [| |done].
    + destruct Hs2 as [Hm2|[? [=]]]. apply safe_ret; [done|]. split; [left; congruence|done].
    + split; [done|]. split; [|done]. destruct Hs2 as [Hm2|[e' [= ->]]]; [left; congruence|right; eauto].
  - split; [done|]. split; [|done]. destruct Hs1 as [Hm1|[e' [= ->]]]; [by left|right; eauto].
Qed.

Lemma entry_safe var_os p u :
  entry var_os p -> safe (discreet u) p (fun r u' => pin_result r /\ restored u r u') u.
Proof.
  intros [key_name input|context input].
  - unfold read_new_pin. destruct (decide _); [apply pinentry_entry|]. apply safe_try.
    eapply safe_mono; [..|destruct (decide _); apply safe_end, two_entries; intros u1;
      [apply stdin_entry|apply stdin_entry|apply tty_entry|apply tty_entry]]; [done|].
    intros r u1 [Hd [Hs Hres]]. destruct r as [[pin1 pin2]|e|]; [| |done].
    + destruct Hs as [Hm|[? [=]]]. destruct (negb _); (apply safe_ret; [done|]; split; [done|by left]).
    + split; [done|]. split; [done|]. destruct Hs as [Hm|[e' [= ->]]]; [by left|right; eauto].
  - unfold read_existing_pin. destruct (resolve_secret_input var_os input);
      [apply tty_entry|apply tty_entry|apply pinentry_entry|apply stdin_entry].
Qed.

(** [C9] Entering a PIN is discreet and leaves the terminal as it was.  Whichever input is
    used, whatever is typed and whatever fails: no line is ever read from the terminal
    while it echoes; a PIN that is returned has 6 to 64 bytes; the modes of the terminal
    are restored before the function returns, and the one exception is reported as such;
    and nothing panics. *)
Theorem pin_entry_is_discreet var_os p u p' u' :
  entry var_os p -> reach p u p' u' ->
  echoed u' = echoed u /\
  forall r, p' = Ret r ->
    match r with Ok pin => 6 <= len pin <= MAX_PIN_BYTES | Err _ => True | Panic => False end /\
    (modes u' = modes u \/ exists e, r = Err (RESTORE e)).
Proof.
  intros Hp Hr. pose proof (entry_safe var_os p u Hp) as Hs.
  split; [exact (safe_reach_inv _ _ _ _ _ _ Hs Hr)|]. intros r ->. exact (safe_reach_ret _ _ _ _ _ _ Hs Hr).
Qed.

(** *** Confirming *)

(** The first line the user types is a yes. *)
Definition says_yes (u : user) : Prop :=
  exists line s, read_until (len (avail (typed u)) + 1) (typed u) = Ok (line, s) /\
    trim line ∈ [str "y"; str "Y"; str "yes"; str "YES"].

Lemma require_confirmation_safe prompt u :
  safe (fun _ => True) (require_confirmation prompt)
    (fun r _ => match r with Ok _ => says_yes u | Err _ => True | Panic => False end) u.
Proof.
  apply user_step; [done|done|intros v; cbn [user_answer]]. split; [done|].
  apply user_step; [done|done|intros v'; cbn [user_answer]]. split; [done|].
  apply user_step; [done|done|intros v''; cbn [user_answer typed set_screen]].
  pose proof (read_until_no_panic (len (avail (typed u)) + 1) (typed u)).
  destruct (read_until _ _) as [[line s]|e|] eqn:E; [|done..].
  change (mbind (M:=result _) ?f (Ok ?x)) with (f x). cbv beta iota. unfold from_utf8.
  destruct (utf8_valid line); [|done].
  change (mbind (M:=result _) ?f (Ok ?x)) with (f x). cbv beta iota. cbn [read_tty]. split; [done|].
  case_bool_decide; apply safe_ret; [done| |done..]. by exists line, s.
Qed.

(** What is typed at a line input. *)
Lemma pop_if_snoc b l : pop_if b (l ++ [b]) = l.
Proof. unfold pop_if. by rewrite last_snoc, decide_True, removelast_last. Qed.

Lemma read_pin_line_typed pin label k e u :
  6 <= len pin <= MAX_PIN_BYTES -> newline ∉ pin -> last pin <> Some carriage_return ->
  std_in u = mkSource (pin ++ [newline] ++ k) e ->
  run obliging (read_pin_line StdinReadUntil label) [] u = (Ok pin, set_std_in u (mkSource k e)).
Proof.
  intros Hp Hn Hc Hu. unfold read_pin_line. erewrite run_try.
  2: { apply run_map_err. rewrite run_trigger. change (exec obliging u ?x) with (user_exec obliging u x).
       unfold user_exec. cbn [user_fault obliging user_answer]. rewrite Hu. cbn [app].
       rewrite read_until_line by (done || lia). reflexivity. }
  cbn [run]. f_equal. rewrite pop_if_snoc. unfold pop_if at 1. rewrite decide_False by done.
  by apply validate_pin_Ok.
Qed.

(** [C33] What the user enters is what the program gets: every PIN of 6 to 64 bytes arrives
    unchanged from a dialog that sends it as a data line, whatever its bytes are, and from
    a line input if it is typed on one line and does not end in a carriage return. *)
Theorem pin_roundtrip pin label k e u :
  6 <= len pin <= MAX_PIN_BYTES ->
  read_pinentry_response (mkSource ((str "D " ++ assuan_escape pin ++ [newline]) ++ (str "OK" ++ [newline]) ++ k) e) =
    Ok (pin, mkSource k e) /\
  (newline ∉ pin -> last pin <> Some carriage_return -> std_in u = mkSource (pin ++ [newline] ++ k) e ->
   run obliging (read_pin_line StdinReadUntil label) [] u = (Ok pin, set_std_in u (mkSource k e))).
Proof.
  intros Hp. split.
  - apply read_pinentry_response_Ok. eexists. split_and!; [apply response_of_pin; lia| |done].
    cbn [avail]. by rewrite <- !app_assoc.
  - intros Hn Hc Hu. by apply read_pin_line_typed.
Qed.

(** ** A user who creates and then uses a key *)

Module Sample.
Definition desktop : environment := fun name =>
  if decide (name = str "DISPLAY") then Some (str ":0") else None.

(** The dialog greets, accepts seven commands and sends the PIN. *)
Definition answers : bytes :=
  script_bytes (replicate 8 (str "OK") ++ [str "D 12%2534" ++ str "56"; str "OK"]).
Definition someone : user :=
  mkUser [] (mkSource answers None) NotStarted (mkTermios 0x3b []) (mkSource (script_bytes [str "123456"; str "123456"]) None)
    [] [] (mkSource (script_bytes [str "123456"]) None).

Lemma dialog_is_scripted_witness :
  let '(r, u') := run obliging (read_new_pin desktop (str "work") Auto) [] someone in
  r = Ok (str "12%3456") /\ commands u' = script_bytes (dialog_script (str "Create TPM-protected key “work”.") (Some (str "Confirm TPM PIN:"))) /\
  dialog_state_of u' = Reaped.
Proof.
  destruct (run obliging (read_new_pin desktop (str "work") Auto) [] someone) as [r u'] eqn:E.
  assert (r = Ok (str "12%3456")) as -> by (vm_compute in E; by injection E).
  split; [done|]. pose proof (run_reach obliging (read_new_pin desktop (str "work") Auto) [] someone) as Hr.
  rewrite E in Hr. change (read_new_pin desktop (str "work") Auto) with
    (read_secret_from_pinentry (str "Create TPM-protected key “work”.") (Some (str "Confirm TPM PIN:"))) in Hr.
  destruct (dialog_is_scripted (str "Create TPM-protected key “work”.") (Some (str "Confirm TPM PIN:")) someone _ _ Hr)
    as (_ & _ & _ & H). destruct (H _ eq_refl) as (_ & _ & _ & Hc & Hs). split; [exact Hc|exact Hs].
Defined.

Lemma pin_entry_is_discreet_witness :
  let '(r, u') := run obliging (read_new_pin (fun _ => None) (str "work") Auto) [] someone in
  r = Ok (str "123456") /\ echoed u' = [] /\ modes u' = mkTermios 0x3b [].
Proof.
  destruct (run obliging (read_new_pin (fun _ => None) (str "work") Auto) [] someone) as [r u'] eqn:E.
  assert (r = Ok (str "123456")) as -> by (vm_compute in E; by injection E).
  pose proof (run_reach obliging (read_new_pin (fun _ => None) (str "work") Auto) [] someone) as Hr.
  rewrite E in Hr. destruct (pin_entry_is_discreet _ _ someone _ _ (entry_new _ (str "work") Auto) Hr) as [He Hm].
  split; [done|]. split; [exact He|]. destruct (Hm _ eq_refl) as [_ [Hm'|[e He']]]; [exact Hm'|discriminate He'].
Defined.

Lemma pin_roundtrip_witness :
  run obliging (read_pin_line StdinReadUntil (str "PIN")) [] someone =
    (Ok (str "123456"), set_std_in someone (mkSource [] None)).
Proof.
  refine (proj2 (pin_roundtrip (str "123456") (str "PIN") [] None someone _) _ _ _).
  - vm_compute. split; discriminate.
  - by apply (bool_decide_unpack _).
  - by vm_compute.
  - by vm_compute.
Defined.
End Sample.
