(* ===== verification/Output.v ===== *)
(** What the command line prints and the options that choose it: the output formats and the
    small helpers of crates/keyvisor-cli/src/main.rs. *)

From S2P Require Import Prelude Bytes Text Core.
From S2P Require History KeyStore.

(** ** Arguments *)

Inductive OutputFormat := Human | Tsv.

#[global] Instance OutputFormat_eq_dec : EqDecision OutputFormat.
Proof. solve_decision. Defined.

Definition parse_format (arguments : list bytes) : result bytes OutputFormat :=
  match arguments with
  | [] => Ok Human
  | [flag; value] =>
      if decide (flag = str "--format" /\ value = str "human") then Ok Human
      else if decide (flag = str "--format" /\ value = str "tsv") then Ok Tsv
      else Err (str "format must be `human` or `tsv`")
  | _ => Err (str "format must be `human` or `tsv`")
  end.

(** [OsStr::to_str]. *)
Definition to_str (value : bytes) : option bytes := if utf8_valid value then Some value else None.

Definition os_text (value label : bytes) : result bytes bytes :=
  ok_or (to_str value) (label ++ str " is not valid UTF-8").

(** ** Names *)

Definition policy_name (policy : KeyUsePolicy) : bytes :=
  match policy with NoPin => str "none" | TpmPin => str "pin" end.

Definition outcome_name (outcome : History.HistoryOutcome) : bytes :=
  match outcome with History.Succeeded => str "succeeded" | History.Failed => str "failed" end.

(** ** Tab-separated values *)

Definition backslash : byte := b8 92.

(** [str::replace] of one ASCII character. *)
Definition replace (c : byte) (value with_ : bytes) : bytes :=
  value ≫= fun b => if decide (b = c) then with_ else [b].

Definition escape_tsv (value : bytes) : bytes :=
  let value := replace backslash value [backslash; backslash] in
  let value := replace tab value (backslash :: str "t") in
  let value := replace carriage_return value (backslash :: str "r") in
  replace newline value (backslash :: str "n").

Section Rows.
(** The digest of the sha2 crate and the unpadded encoding of the base64 crate. *)
Context (Sha256 STANDARD_NO_PAD_encode STANDARD_encode : bytes -> bytes).

Definition fingerprint (public_key : bytes) : bytes :=
  str "SHA256:" ++ STANDARD_NO_PAD_encode (Sha256 public_key).

(** The lines of [list_keys]. *)
Definition key_tsv_row (key : KeyStore.StoredKey) : bytes :=
  as_str (id (KeyStore.summary key)) ++ [tab] ++ escape_tsv (name (KeyStore.summary key)) ++ [tab] ++
  policy_name (use_policy (KeyStore.summary key)) ++ [tab] ++ fingerprint (public_key (KeyStore.summary key)).
Definition key_human_row (key : KeyStore.StoredKey) : bytes :=
  as_str (id (KeyStore.summary key)) ++ str "  " ++ name (KeyStore.summary key) ++ str "  " ++
  policy_name (use_policy (KeyStore.summary key)) ++ str "  " ++ fingerprint (public_key (KeyStore.summary key)).
Definition key_rows (format : OutputFormat) (keys : list KeyStore.StoredKey) : list bytes :=
  if decide (format = Tsv) then
    str "KEYVISOR-KEYS-1" :: (str "id" ++ [tab] ++ str "name" ++ [tab] ++ str "authorization" ++ [tab] ++ str "fingerprint")
      :: (key_tsv_row <$> keys)
  else if is_empty keys then [str "No keys."]
  else key_human_row <$> keys.

(** The lines of [show_key]. *)
Definition show_rows (key : KeyStore.StoredKey) : list bytes :=
  [ str "ID: " ++ as_str (id (KeyStore.summary key));
    str "Name: " ++ name (KeyStore.summary key);
    str "Algorithm: " ++ ssh_key_type (algorithm (KeyStore.summary key));
    str "Authorization: " ++ policy_name (use_policy (KeyStore.summary key));
    str "Fingerprint: " ++ fingerprint (public_key (KeyStore.summary key));
    str "Public key: " ++ ssh_key_type (algorithm (KeyStore.summary key)) ++ str " " ++
      STANDARD_encode (public_key (KeyStore.summary key)) ++ str " " ++ name (KeyStore.summary key) ].
End Rows.

(** The lines of [run_history]. *)
Definition history_tsv_row (entry : History.HistoryEntry) : bytes :=
  print_dec (History.timestamp_seconds entry) ++ [tab] ++ as_str (History.key_id entry) ++ [tab] ++
  escape_tsv (History.key_name entry) ++ [tab] ++ policy_name (History.entry_use_policy entry) ++ [tab] ++
  outcome_name (History.outcome entry).
Definition history_human_row (entry : History.HistoryEntry) : bytes :=
  print_dec (History.timestamp_seconds entry) ++ str "  " ++ as_str (History.key_id entry) ++ str "  " ++
  History.key_name entry ++ str "  " ++ policy_name (History.entry_use_policy entry) ++ str "  " ++
  outcome_name (History.outcome entry).
Definition history_rows (format : OutputFormat) (entries : list History.HistoryEntry) : list bytes :=
  if decide (format = Tsv) then
    str "KEYVISOR-HISTORY-1" :: (str "timestamp" ++ [tab] ++ str "key-id" ++ [tab] ++ str "key-name" ++ [tab] ++
      str "authorization" ++ [tab] ++ str "outcome") :: (history_tsv_row <$> entries)
  else if is_empty entries then [str "No signing history."]
  else history_human_row <$> entries.

(** ** What a reader of the rows gets back *)

(** Every byte's escape. *)
Definition escape_byte (b : byte) : bytes :=
  if decide (b = backslash) then [backslash; backslash]
  else if decide (b = tab) then backslash :: str "t"
  else if decide (b = carriage_return) then backslash :: str "r"
  else if decide (b = newline) then backslash :: str "n"
  else [b].

Lemma replace_app c a b w : replace c (a ++ b) w = replace c a w ++ replace c b w.
Proof. apply bind_app. Qed.

(** The four replacements, one after the other, are one pass. *)
Lemma escape_tsv_pass value : escape_tsv value = value ≫= escape_byte.
Proof.
  unfold escape_tsv. induction value as [|b value IH]; [done|].
  change (b :: value) with ([b] ++ value). rewrite !replace_app, bind_app, IH. f_equal.
  unfold escape_byte, replace. cbn [mbind list_bind app].
  repeat (case_decide; subst; [by vm_compute|cbn [mbind list_bind app]]).
  by repeat (rewrite decide_False by done; cbn [mbind list_bind app]).
Qed.

(** ** What the lines should be, field by field *)

Fixpoint joined (sep : bytes) (fields : list bytes) : bytes :=
  match fields with
  | [] => []
  | [field] => field
  | field :: fields => field ++ sep ++ joined sep fields
  end.

Inductive policy_word : KeyUsePolicy -> bytes -> Prop :=
  | no_pin_word : policy_word NoPin (str "none")
  | pin_word : policy_word TpmPin (str "pin").
Inductive algorithm_word : KeyAlgorithm -> bytes -> Prop :=
  | p256_word : algorithm_word EcdsaNistP256 (str "ecdsa-sha2-nistp256")
  | p384_word : algorithm_word EcdsaNistP384 (str "ecdsa-sha2-nistp384").

Section Expected.
Context (Sha256 STANDARD_NO_PAD_encode STANDARD_encode : bytes -> bytes).

(** One key: its identifier, its name, with escapes between tabs, its policy and its
    fingerprint. *)
Definition key_line (format : OutputFormat) (key : KeyStore.StoredKey) (line : bytes) : Prop :=
  let key := KeyStore.summary key in
  exists policy, policy_word (use_policy key) policy /\
    let print := str "SHA256:" ++ STANDARD_NO_PAD_encode (Sha256 (public_key key)) in
    match format with
    | Human => line = joined (str "  ") [as_str (id key); name key; policy; print]
    | Tsv => line = joined [tab] [as_str (id key); name key ≫= escape_byte; policy; print]
    end.

(** All keys: one line each, in their order, after two lines of headings between tabs; and
    a line that says so when there are none, for a human. *)
Definition key_listing (format : OutputFormat) (keys : list KeyStore.StoredKey) (lines : list bytes) : Prop :=
  match format with
  | Human => if decide (keys = []) then lines = [str "No keys."] else Forall2 (key_line Human) keys lines
  | Tsv => exists rows,
      lines = str "KEYVISOR-KEYS-1" :: joined [tab] [str "id"; str "name"; str "authorization"; str "fingerprint"] :: rows /\
      Forall2 (key_line Tsv) keys rows
  end.

(** What is shown of one key, of which the last line is its entry for [authorized_keys]. *)
Definition key_shown (key : KeyStore.StoredKey) (lines : list bytes) : Prop :=
  let key := KeyStore.summary key in
  exists policy algorithm, policy_word (use_policy key) policy /\ algorithm_word (Core.algorithm key) algorithm /\
    lines =
      [ str "ID: " ++ as_str (id key);
        str "Name: " ++ name key;
        str "Algorithm: " ++ algorithm;
        str "Authorization: " ++ policy;
        str "Fingerprint: SHA256:" ++ STANDARD_NO_PAD_encode (Sha256 (public_key key));
        str "Public key: " ++ joined (str " ") [algorithm; STANDARD_encode (public_key key); name key] ].

Lemma policy_name_word policy : policy_word policy (policy_name policy).
Proof. destruct policy; constructor. Qed.

Lemma ssh_key_type_word a : algorithm_word a (ssh_key_type a).
Proof. destruct a; constructor. Qed.

Lemma key_rows_listing format keys : key_listing format keys (key_rows Sha256 STANDARD_NO_PAD_encode format keys).
Proof.
  destruct format; unfold key_rows, key_listing.
  - destruct keys as [|key keys]; [reflexivity|]. rewrite !decide_False by done. cbn [is_empty].
    apply Forall2_fmap_r, Forall_Forall2_diag, Forall_forall. intros k _.
    exists (policy_name (use_policy (KeyStore.summary k))). split; [apply policy_name_word|done].
  - rewrite decide_True by done. eexists. split; [done|].
    apply Forall2_fmap_r, Forall_Forall2_diag, Forall_forall. intros k _.
    exists (policy_name (use_policy (KeyStore.summary k))). split; [apply policy_name_word|].
    cbv zeta. by rewrite <- escape_tsv_pass.
Qed.

Lemma show_rows_shown key : key_shown key (show_rows Sha256 STANDARD_NO_PAD_encode STANDARD_encode key).
Proof.
  eexists _, _. split_and!; [apply policy_name_word|apply ssh_key_type_word|done].
Qed.
End Expected.

Fixpoint unescape_tsv (l : bytes) : option bytes :=
  match l with
  | [] => Some []
  | b :: l =>
      if decide (b = backslash) then
        match l with
        | [] => None
        | c :: l =>
            c ← (if decide (c = backslash) then Some backslash
                 else if decide (c = b8 116) then Some tab
                 else if decide (c = b8 114) then Some carriage_return
                 else if decide (c = b8 110) then Some newline
                 else None);
            cons c <$> unescape_tsv l
        end
      else cons b <$> unescape_tsv l
  end.

Lemma unescape_byte b l : unescape_tsv (escape_byte b ++ l) = cons b <$> unescape_tsv l.
Proof.
  unfold escape_byte.
  destruct (decide (b = backslash)) as [->|H1]; [by vm_compute|].
  destruct (decide (b = tab)) as [->|H2]; [by vm_compute|].
  destruct (decide (b = carriage_return)) as [->|H3]; [by vm_compute|].
  destruct (decide (b = newline)) as [->|H4]; [by vm_compute|].
  cbn [app unescape_tsv]. by rewrite decide_False.
Qed.

Lemma unescape_escape value : unescape_tsv (escape_tsv value) = Some value.
Proof.
  rewrite escape_tsv_pass. induction value as [|b value IH]; [done|].
  change (b :: value) with ([b] ++ value). rewrite bind_app.
  replace ([b] ≫= escape_byte) with (escape_byte b) by (cbn; by rewrite app_nil_r).
  by rewrite unescape_byte, IH.
Qed.

(** The bytes that end a field or a line. *)
Definition separator (b : byte) : Prop := b = tab \/ b = newline \/ b = carriage_return.

Lemma escape_byte_plain b c : c ∈ escape_byte b -> ~ separator c.
Proof.
  assert (forallb (fun c => negb ((u8 c =? 9) || (u8 c =? 10) || (u8 c =? 13))) (escape_byte b) = true) as H
    by (by destruct b).
  intros Hc Hs. rewrite forallb_forall in H. specialize (H c (proj1 (list_elem_of_In _ _) Hc)).
  by destruct Hs as [-> | [-> | -> ]].
Qed.

Lemma escape_tsv_plain value c : c ∈ escape_tsv value -> ~ separator c.
Proof. rewrite escape_tsv_pass. intros (b & Hc & _)%list_elem_of_bind. by eapply escape_byte_plain. Qed.

(** Splitting a row into its fields. *)
Fixpoint split_on (sep : byte) (l : bytes) : list bytes :=
  match l with
  | [] => [[]]
  | b :: l =>
      if decide (b = sep) then [] :: split_on sep l
      else match split_on sep l with
           | [] => [[b]]
           | x :: xs => (b :: x) :: xs
           end
  end.

Lemma split_on_plain sep l : sep ∉ l -> split_on sep l = [l].
Proof.
  induction l as [|b l IH]; [done|]. rewrite not_elem_of_cons. intros [? ?]. cbn.
  rewrite decide_False by congruence. by rewrite IH.
Qed.

Lemma split_on_app sep l k : sep ∉ l -> split_on sep (l ++ [sep] ++ k) = l :: split_on sep k.
Proof.
  cbn [app]. induction l as [|b l IH]; cbn; intros Hl; [by rewrite decide_True|].
  apply not_elem_of_cons in Hl as [? ?]. rewrite decide_False by congruence. by rewrite IH.
Qed.

Definition read_policy_name (l : bytes) : option KeyUsePolicy :=
  if decide (l = str "none") then Some NoPin else if decide (l = str "pin") then Some TpmPin else None.
Definition read_outcome_name (l : bytes) : option History.HistoryOutcome :=
  if decide (l = str "succeeded") then Some History.Succeeded
  else if decide (l = str "failed") then Some History.Failed else None.

Definition read_key_row (row : bytes) : option (bytes * bytes * KeyUsePolicy * bytes) :=
  match split_on tab row with
  | [id; name; policy; fingerprint] =>
      name ← unescape_tsv name;
      policy ← read_policy_name policy;
      Some (id, name, policy, fingerprint)
  | _ => None
  end.
Definition read_history_row (row : bytes) : option History.HistoryEntry :=
  match split_on tab row with
  | [timestamp; id; name; policy; outcome] =>
      timestamp ← parse_u64 timestamp;
      name ← unescape_tsv name;
      policy ← read_policy_name policy;
      outcome ← read_outcome_name outcome;
      Some (History.mkHistoryEntry timestamp (KeyId_new id) name policy outcome)
  | _ => None
  end.

(** A field that is printed as it is. *)
Definition plain (l : bytes) : Prop := forall c, c ∈ l -> ~ separator c.

Lemma plain_app a b : plain a -> plain b -> plain (a ++ b).
Proof. intros Ha Hb c [?|?]%elem_of_app; auto. Qed.

Lemma plain_tab l : plain l -> tab ∉ l.
Proof. intros H Hin. apply (H tab Hin). by left. Qed.

Lemma plain_policy p : plain (policy_name p).
Proof.
  intros c Hc [-> | [-> | -> ]]; revert Hc; destruct p; by apply (bool_decide_unpack (_ ∉ _)).
Qed.

Lemma plain_outcome o : plain (outcome_name o).
Proof.
  intros c Hc [-> | [-> | -> ]]; revert Hc; destruct o; by apply (bool_decide_unpack (_ ∉ _)).
Qed.

Lemma plain_dec n : plain (print_dec n).
Proof. intros c Hc [-> | [-> | -> ]]; revert Hc; by apply print_dec_not_elem. Qed.

Lemma plain_escape v : plain (escape_tsv v).
Proof. intros c. apply escape_tsv_plain. Qed.

(** The rows of [key list --format tsv] can be read back.  Whatever the name of a key
    is, its row is one line of four fields that gives back the identifier, the name, the
    policy and the fingerprint, provided the identifier and the encoded digest, which are
    printed as they are, contain no separator. *)
Theorem key_row_roundtrip Sha256 STANDARD_NO_PAD_encode key :
  plain (as_str (id (KeyStore.summary key))) ->
  (forall digest, plain (STANDARD_NO_PAD_encode digest)) ->
  newline ∉ key_tsv_row Sha256 STANDARD_NO_PAD_encode key /\
  read_key_row (key_tsv_row Sha256 STANDARD_NO_PAD_encode key) =
    Some (as_str (id (KeyStore.summary key)), name (KeyStore.summary key), use_policy (KeyStore.summary key),
          fingerprint Sha256 STANDARD_NO_PAD_encode (public_key (KeyStore.summary key))).
Proof.
  intros Hid Hfp. assert (plain (fingerprint Sha256 STANDARD_NO_PAD_encode (public_key (KeyStore.summary key)))) as Hf.
  { apply plain_app; [|done]. intros c Hc [-> | [-> | -> ]]; revert Hc; by apply (bool_decide_unpack (_ ∉ _)). }
  pose proof (plain_escape (name (KeyStore.summary key))) as Hn. pose proof (plain_policy (use_policy (KeyStore.summary key))) as Hp.
  unfold key_tsv_row. split.
  - rewrite !not_elem_of_app. assert (newline ∉ [tab]) by by apply (bool_decide_unpack _).
    assert (forall l, plain l -> newline ∉ l) as Hpl by (intros l Hl Hin; apply (Hl newline Hin); right; by left).
    split_and!; auto.
  - unfold read_key_row. rewrite !split_on_app by by apply plain_tab. rewrite split_on_plain by by apply plain_tab.
    rewrite unescape_escape. cbn [mbind option_bind]. by destruct (use_policy (KeyStore.summary key)).
Qed.

(** The rows of [history --format tsv] can be read back to the entry. *)
Theorem history_row_roundtrip entry :
  plain (as_str (History.key_id entry)) -> 0 <= History.timestamp_seconds entry <= u64_max ->
  newline ∉ history_tsv_row entry /\ read_history_row (history_tsv_row entry) = Some entry.
Proof.
  intros Hid Ht. pose proof (plain_escape (History.key_name entry)) as Hn.
  pose proof (plain_policy (History.entry_use_policy entry)) as Hp. pose proof (plain_outcome (History.outcome entry)) as Ho.
  pose proof (plain_dec (History.timestamp_seconds entry)) as Hd. unfold history_tsv_row. split.
  - rewrite !not_elem_of_app. assert (newline ∉ [tab]) by by apply (bool_decide_unpack _).
    assert (forall l, plain l -> newline ∉ l) as Hpl by (intros l Hl Hin; apply (Hl newline Hin); right; by left).
    split_and!; auto.
  - unfold read_history_row. rewrite !split_on_app by by apply plain_tab. rewrite split_on_plain by by apply plain_tab.
    rewrite parse_print_dec by done. rewrite unescape_escape. cbn [mbind option_bind].
    destruct entry as [t [i] n p o]; cbn. by destruct p, o.
Qed.

(** An identifier with a tab makes a row of five fields: it is the record format, and not
    the output, that admits such an identifier. *)
Example tab_in_identifier :
  length (split_on tab (key_tsv_row (fun b => b) (fun b => b)
    (KeyStore.mkStoredKey (mkKeySummary (KeyId_new (str "a" ++ [tab] ++ str "b")) (str "n") EcdsaNistP256 NoPin [])
       (Tpm.mkTpmObject [] [] [] NoPin)))) = 5%nat.
Proof. by vm_compute. Qed.

Module Sample.
Definition key : KeyStore.StoredKey :=
  KeyStore.mkStoredKey (mkKeySummary (KeyId_new (str "00ff")) (str "my" ++ [tab] ++ str "key\") EcdsaNistP256 TpmPin (str "pk"))
    (Tpm.mkTpmObject [] [] [] TpmPin).
Definition entry : History.HistoryEntry :=
  History.mkHistoryEntry 1700000000 (KeyId_new (str "00ff")) ([newline] ++ str "n") NoPin History.Failed.

Lemma plain_id : plain (str "00ff").
Proof. intros c Hc [-> | [-> | -> ]]; revert Hc; by apply (bool_decide_unpack (_ ∉ _)). Qed.

Lemma key_row_roundtrip_witness :
  read_key_row (key_tsv_row (fun b => b) hex_encode key) =
    Some (str "00ff", str "my" ++ [tab] ++ str "key\", TpmPin, str "SHA256:" ++ hex_encode (str "pk")).
Proof.
  refine (proj2 (key_row_roundtrip (fun b => b) hex_encode key plain_id _)).
  intros d c Hc [-> | [-> | -> ]]; revert Hc; by apply hex_encode_not_elem.
Defined.

Lemma history_row_roundtrip_witness : read_history_row (history_tsv_row entry) = Some entry.
Proof.
  refine (proj2 (history_row_roundtrip entry plain_id _)). vm_compute. split; discriminate.
Defined.
End Sample.
