(* ===== verification/Commands.v ===== *)
(** The commands that manage keys, settings and history: [run_key], [create_key],
    [list_keys], [show_key], [delete_key], [run_config] and [run_history] of
    crates/keyvisor-cli/src/main.rs.

    A command reads its arguments, asks the user, talks to the TPM through the interface
    [TpmSigner], uses the store, the configuration or the history of their own files, and
    prints lines.  No other process changes the files while a command runs; the theorems
    speak of every moment of a command, and of a crash at that moment. *)

From S2P Require Import Prelude Bytes Text Core Effects Tpm FileSystem AtomicFile Paths Pinentry Secrets Output.
From S2P Require KeyStore History Config Control.

(** ** Arguments of [key create] *)

Record create_options := mkCreateOptions {
  o_name : option bytes;
  o_policy : option KeyUsePolicy;
  o_algorithm : KeyAlgorithm;
  o_confirmed : bool;
  o_secret_input : SecretInput;
}.

Definition create_defaults : create_options := mkCreateOptions None None EcdsaNistP256 false Auto.

Definition set_name (o : create_options) (name : bytes) : create_options :=
  mkCreateOptions (Some name) (o_policy o) (o_algorithm o) (o_confirmed o) (o_secret_input o).
Definition set_policy (o : create_options) (p : KeyUsePolicy) : create_options :=
  mkCreateOptions (o_name o) (Some p) (o_algorithm o) (o_confirmed o) (o_secret_input o).
Definition set_algorithm (o : create_options) (a : KeyAlgorithm) : create_options :=
  mkCreateOptions (o_name o) (o_policy o) a (o_confirmed o) (o_secret_input o).
Definition set_confirmed (o : create_options) : create_options :=
  mkCreateOptions (o_name o) (o_policy o) (o_algorithm o) true (o_secret_input o).
Definition set_input (o : create_options) (i : SecretInput) : create_options :=
  mkCreateOptions (o_name o) (o_policy o) (o_algorithm o) (o_confirmed o) i.

Definition algorithm_option (value : bytes) : result bytes KeyAlgorithm :=
  if decide (value = str "ecdsa-p256") then Ok EcdsaNistP256
  else if decide (value = str "ecdsa-p384") then Ok EcdsaNistP384
  else Err (str "algorithm must be `ecdsa-p256` or `ecdsa-p384`").

Definition policy_option (value : bytes) : result bytes KeyUsePolicy :=
  if decide (value = str "none") then Ok NoPin
  else if decide (value = str "pin") then Ok TpmPin
  else Err (str "authorization must be `none` or `pin`").

Definition INVALID_CREATE : bytes := str "invalid key create arguments".

(** The loop of [create_key] over its arguments. *)
Fixpoint parse_create (arguments : list bytes) (o : create_options) : result bytes create_options :=
  match arguments with
  | [] => Ok o
  | flag :: arguments =>
      if decide (flag = str "--name") then
        match arguments with
        | value :: arguments =>
            name ← os_text value (str "key name");
            parse_create arguments (set_name o (trim name))
        | [] => Err INVALID_CREATE
        end
      else if decide (flag = str "--algorithm") then
        match arguments with
        | value :: arguments => algorithm ← algorithm_option value; parse_create arguments (set_algorithm o algorithm)
        | [] => Err INVALID_CREATE
        end
      else if decide (flag = str "--authorization") then
        match arguments with
        | value :: arguments => policy ← policy_option value; parse_create arguments (set_policy o policy)
        | [] => Err INVALID_CREATE
        end
      else if decide (flag = str "--yes") then parse_create arguments (set_confirmed o)
      else if decide (flag = str "--pin-stdin") then
        input ← set_secret_input (o_secret_input o) Stdin; parse_create arguments (set_input o input)
      else if decide (flag = str "--pinentry") then
        input ← set_secret_input (o_secret_input o) Pinentry; parse_create arguments (set_input o input)
      else if decide (flag = str "--terminal") then
        input ← set_secret_input (o_secret_input o) Terminal; parse_create arguments (set_input o input)
      else Err INVALID_CREATE
  end.

(** The checks after the loop that need nobody: the name and the policy. *)
Definition create_request (o : create_options) : result bytes (bytes * KeyUsePolicy) :=
  name ← ok_or (o_name o) (str "--name is required");
  if is_empty name || (4 * 1024 <? len name) then Err (str "key name must be between 1 and 4096 bytes")
  else
    policy ← ok_or (o_policy o) (str "--authorization is required");
    Ok (name, policy).

Section Commands.
Context {E : Type -> Type} {TS TV : Type} `{!Handler E TS TV} `{!TpmSigner E} (tpm_calm : TV).
Context (Sha256 STANDARD_NO_PAD_encode STANDARD_encode : bytes -> bytes).

(** The environment variables and the process identifier of the command. *)
Context (var_os : environment) (process_id : Z).

(** ** Operations *)

(** [println!] and [eprintln!] panic when the stream is closed. *)
Inductive cmdE : Type -> Type :=
  | OnFiles (X : Type) (e : fsE X) : cmdE X
  | OnUser (X : Type) (e : userE X) : cmdE X
  | ConnectDefault : cmdE (result TpmError signer)
  | Generate (self : signer) (name : bytes) (algorithm : KeyAlgorithm) (authorization : TpmAuthorization) :
      cmdE (result TpmError (KeySummary * TpmObject))
  | Println (line : bytes) : cmdE (result bytes unit)
  | Eprintln (line : bytes) : cmdE (result bytes unit).

Definition on_files {A} (p : prog fsE A) : prog cmdE A := lift OnFiles p.
Definition on_user {A} (p : prog userE A) : prog cmdE A := lift OnUser p.

Fixpoint print_lines (lines : list bytes) : prog cmdE (result bytes unit) :=
  match lines with
  | [] => Ret (Ok tt)
  | line :: lines => _ ←? trigger (Println line); print_lines lines
  end.

(** ** Keys *)

Definition create_key (arguments : list bytes) : prog cmdE (result bytes unit) :=
  o ←? Ret (parse_create arguments create_defaults);
  '(name, policy) ←? Ret (create_request o);
  _ ←? (if bool_decide (policy = NoPin) && negb (o_confirmed o) then
          _ ←? trigger (Eprintln (str "No-PIN keys allow any process with access to SSH_AUTH_SOCK to request signatures."));
          on_user (require_confirmation (str "Create this no-PIN key? [y/N] "))
        else Ret (Ok tt));
  if bool_decide (policy = NoPin) && negb (bool_decide (o_secret_input o = Auto)) then
    Ret (Err (str "PIN input options are valid only for PIN-protected keys"))
  else
    pin ←? (if decide (policy = TpmPin) then on_user (read_new_pin var_os name (o_secret_input o)) else Ret (Ok []));
    let authorization := match policy with NoPin => AuthNone | TpmPin => AuthPin pin end in
    tpm ←? map_err_prog (fun error => str "cannot open the TPM: " ++ TpmError_display error) (trigger ConnectDefault);
    '(summary, object) ←? map_err_prog (fun error => str "cannot generate the TPM key: " ++ TpmError_display error)
      (trigger (Generate tpm name (o_algorithm o) authorization));
    directory ←? Ret (store_directory var_os);
    _ ←? map_err_prog (fun error => str "cannot persist the wrapped TPM key: " ++ KeyStore.StoreError_display error)
      (on_files (KeyStore.KeyStore_save (KeyStore.KeyStore_new directory) process_id (KeyStore.mkStoredKey summary object)));
    trigger (Println (as_str (id summary))).

(** The keys of the store. *)
Definition stored_keys : prog cmdE (result bytes (list KeyStore.StoredKey)) :=
  directory ←? Ret (store_directory var_os);
  map_err_prog (fun error => str "cannot list keys: " ++ KeyStore.StoreError_display error)
    (on_files (KeyStore.KeyStore_list (KeyStore.KeyStore_new directory))).

Definition list_keys (arguments : list bytes) : prog cmdE (result bytes unit) :=
  format ←? Ret (parse_format arguments);
  keys ←? stored_keys;
  print_lines (key_rows Sha256 STANDARD_NO_PAD_encode format keys).

Definition find_key (id0 : bytes) : prog cmdE (result bytes KeyStore.StoredKey) :=
  keys ←? stored_keys;
  Ret (ok_or (head (filter (fun key => as_str (id (KeyStore.summary key)) = id0) keys))
    (str "key `" ++ id0 ++ str "` was not found")).

Definition show_key (id0 : bytes) : prog cmdE (result bytes unit) :=
  id0 ←? Ret (os_text id0 (str "key identifier"));
  key ←? find_key id0;
  print_lines (show_rows Sha256 STANDARD_NO_PAD_encode STANDARD_encode key).

Definition delete_key (arguments : list bytes) : prog cmdE (result bytes unit) :=
  '(id0, confirmed) ←? Ret
    (match arguments with
     | [id0] => Ok (id0, false)
     | [id0; flag] => if decide (flag = str "--yes") then Ok (id0, true)
                      else Err (str "usage: keyvisor key delete ID [--yes]")
     | _ => Err (str "usage: keyvisor key delete ID [--yes]")
     end);
  id0 ←? Ret (os_text id0 (str "key identifier"));
  key ←? find_key id0;
  _ ←? (if negb confirmed then
          on_user (require_confirmation (str "Delete key “" ++ name (KeyStore.summary key) ++ str "”? [y/N] "))
        else Ret (Ok tt));
  directory ←? Ret (store_directory var_os);
  map_err_prog (fun error => str "cannot delete key: " ++ KeyStore.StoreError_display error)
    (on_files (KeyStore.KeyStore_delete (KeyStore.KeyStore_new directory) (id (KeyStore.summary key)))).

Definition run_key (arguments : list bytes) : prog cmdE (result bytes unit) :=
  match arguments with
  | command :: rest =>
      if decide (command = str "create") then create_key rest
      else if decide (command = str "list") then list_keys rest
      else match rest with
           | [id0] =>
               if decide (command = str "show") then show_key id0
               else if decide (command = str "delete") then delete_key rest
               else Ret (Err (str "invalid key command; run `keyvisor --help`"))
           | _ =>
               if decide (command = str "delete") then delete_key rest
               else Ret (Err (str "invalid key command; run `keyvisor --help`"))
           end
  | [] => Ret (Err (str "invalid key command; run `keyvisor --help`"))
  end.

(** ** Settings *)

Definition print_config (config : Config.Config) : prog cmdE (result bytes unit) :=
  print_lines
    [ str "authorization-timeout-seconds=" ++ print_dec (Config.authorization_timeout_seconds config);
      str "history-enabled=" ++ Config.bool_to_string (Config.history_enabled config) ].

Definition run_config (arguments : list bytes) : prog cmdE (result bytes unit) :=
  path ←? Ret (config_path var_os);
  let store := Config.ConfigStore_new path in
  let load := map_err_prog Config.ConfigError_display (on_files (Config.ConfigStore_load store)) in
  match arguments with
  | [command] =>
      if decide (command = str "list") then config ←? load; print_config config
      else Ret (Err (str "invalid config command; run `keyvisor --help`"))
  | [command; name] =>
      if decide (command = str "get") then
        name ←? Ret (os_text name (str "setting name"));
        config ←? load;
        value ←? Ret (ok_or (Config.Config_get config name) (str "unknown setting `" ++ name ++ str "`"));
        trigger (Println value)
      else Ret (Err (str "invalid config command; run `keyvisor --help`"))
  | [command; name; value] =>
      if decide (command = str "set") then
        name ←? Ret (os_text name (str "setting name"));
        value ←? Ret (os_text value (str "setting value"));
        config ←? load;
        config ←? Ret (map_err Config.ConfigError_display (Config.Config_set config name value));
        _ ←? map_err_prog Config.ConfigError_display (on_files (Config.ConfigStore_save store process_id config));
        trigger (Println (name ++ str "=" ++ value))
      else Ret (Err (str "invalid config command; run `keyvisor --help`"))
  | _ => Ret (Err (str "invalid config command; run `keyvisor --help`"))
  end.

(** ** History *)

Definition run_history (arguments : list bytes) : prog cmdE (result bytes unit) :=
  format ←? Ret (parse_format arguments);
  path ←? Ret (history_path var_os);
  entries ←? map_err_prog History.HistoryError_display
    (on_files (History.HistoryStore_list (History.HistoryStore_new path)));
  print_lines (history_rows format entries).
(** ** The desk a command is run at *)

(** [generated] are the keys the TPM made for this command, and their authorizations. *)
Record desk := mkDesk {
  tpm_state : TS;
  disk : fs;
  person : user;
  std_out : list bytes;
  std_err : list bytes;
  generated : list (TpmAuthorization * KeyStore.StoredKey);
}.

(** The environment's part in one operation. *)
Record turn := mkTurn {
  of_tpm : list TV;
  of_disk : choice;
  of_person : reaction;
  closed : bool;
}.
Definition smooth : turn := mkTurn [] calm obliging false.

Definition set_disk (w : desk) (s : fs) : desk :=
  mkDesk (tpm_state w) s (person w) (std_out w) (std_err w) (generated w).
Definition set_person (w : desk) (u : user) : desk :=
  mkDesk (tpm_state w) (disk w) u (std_out w) (std_err w) (generated w).
Definition set_tpm (w : desk) (t : TS) : desk :=
  mkDesk t (disk w) (person w) (std_out w) (std_err w) (generated w).
Definition print_out (w : desk) (line : bytes) : desk :=
  mkDesk (tpm_state w) (disk w) (person w) (std_out w ++ [line]) (std_err w) (generated w).
Definition print_err (w : desk) (line : bytes) : desk :=
  mkDesk (tpm_state w) (disk w) (person w) (std_out w) (std_err w ++ [line]) (generated w).
Definition add_key (w : desk) (authorization : TpmAuthorization) (key : KeyStore.StoredKey) : desk :=
  mkDesk (tpm_state w) (disk w) (person w) (std_out w) (std_err w) (generated w ++ [(authorization, key)]).

Definition desk_exec {X} (v : turn) (w : desk) (e : cmdE X) : X * desk :=
  match e in cmdE X return X * desk with
  | OnFiles _ e => let '(x, s) := exec (of_disk v) (disk w) e in (x, set_disk w s)
  | OnUser _ e => let '(x, u) := exec (of_person v) (person w) e in (x, set_person w u)
  | ConnectDefault =>
      let '(r, t) := run tpm_calm tpm_connect (of_tpm v) (tpm_state w) in (r, set_tpm w t)
  | Generate self name algorithm authorization =>
      let '(r, t) := run tpm_calm (tpm_generate self name algorithm authorization) (of_tpm v) (tpm_state w) in
      (r, match r with
          | Ok (summary, object) => add_key (set_tpm w t) authorization (KeyStore.mkStoredKey summary object)
          | _ => set_tpm w t
          end)
  | Println line => if closed v then (Panic, w) else (Ok tt, print_out w line)
  | Eprintln line => if closed v then (Panic, w) else (Ok tt, print_err w line)
  end.

#[global] Instance desk_handler : Handler cmdE desk turn := fun X v w e => desk_exec v w e.

Lemma set_disk_same w : set_disk w (disk w) = w.
Proof. by destruct w. Qed.

Lemma set_person_same w : set_person w (person w) = w.
Proof. by destruct w. Qed.

Lemma safe_on_files {A} (I : desk -> Prop) (p : prog fsE A) Q w :
  safe (fun s => I (set_disk w s)) p (fun a s => Q a (set_disk w s)) (disk w) -> safe I (on_files p) Q w.
Proof.
  intros Hp. rewrite <- (set_disk_same w) at 1. apply (safe_lift OnFiles (set_disk w) of_disk); [|exact Hp].
  intros X e v s. cbn. by destruct (exec (of_disk v) s e).
Qed.

Lemma safe_on_user {A} (I : desk -> Prop) (p : prog userE A) Q w :
  safe (fun u => I (set_person w u)) p (fun a u => Q a (set_person w u)) (person w) -> safe I (on_user p) Q w.
Proof.
  intros Hp. rewrite <- (set_person_same w) at 1. apply (safe_lift OnUser (set_person w) of_person); [|exact Hp].
  intros X e v s. cbn. by destruct (exec (of_person v) s e).
Qed.

Lemma desk_op {X} (I : desk -> Prop) (e : cmdE X) (Q : X -> desk -> Prop) w :
  I w -> (forall v, I (snd (desk_exec v w e)) /\ Q (fst (desk_exec v w e)) (snd (desk_exec v w e))) ->
  safe I (trigger e) Q w.
Proof. intros HI He. apply safe_vis; [done|]. intros v. apply safe_ret; apply He. Qed.

(** A command that has done nothing yet that lasts. *)
Definition idle (w w' : desk) : Prop :=
  disk w' = disk w /\ std_out w' = std_out w /\ generated w' = generated w.

(** ** [key create] *)

Section Create.
Context `{!TpmSignerLaws E tpm_calm}.
Context (arguments : list bytes) (w0 : desk).

(** The key [key], made with [authorization], is the one that was asked for: it has the
    name and the algorithm of the arguments and the policy of its authorization; a
    PIN has an acceptable length; and a key without a PIN was confirmed. *)
Record ordered (authorization : TpmAuthorization) (key : KeyStore.StoredKey) : Prop := mk_ordered {
  or_arguments : exists o policy, parse_create arguments create_defaults = Ok o /\
    create_request o = Ok (name (KeyStore.summary key), policy) /\
    algorithm (KeyStore.summary key) = o_algorithm o /\ policy_of authorization = policy /\
    use_policy (KeyStore.summary key) = policy /\ object_use_policy (KeyStore.object key) = policy /\
    (policy = NoPin -> o_confirmed o = true \/ says_yes (person w0));
  or_pin : forall pin, authorization = AuthPin pin -> pin_ok pin;
}.

Context (dir : path).
Let saving (key : KeyStore.StoredKey) := KeyStore.KeyStore_save (KeyStore.KeyStore_new dir) process_id key.

(** A key was made, and is being stored. *)
Definition storing (w' : desk) : Prop :=
  std_out w' = std_out w0 /\ exists authorization key q, generated w' = generated w0 ++ [(authorization, key)] /\
    ordered authorization key /\ reach (saving key) (disk w0) q (disk w').

(** It is stored, and its identifier is printed. *)
Definition stored (w' : desk) : Prop :=
  exists authorization key, std_out w' = std_out w0 ++ [as_str (id (KeyStore.summary key))] /\
    generated w' = generated w0 ++ [(authorization, key)] /\
    ordered authorization key /\ reach (saving key) (disk w0) (Ret (Ok tt)) (disk w').

Definition creating (w' : desk) : Prop := idle w0 w' \/ storing w' \/ stored w'.

(** The result of [create_key]. *)
Definition creation (r : result bytes unit) (w' : desk) : Prop := r = Ok tt -> stored w'.

Lemma confirm_safe o policy :
  safe creating (if bool_decide (policy = NoPin) && negb (o_confirmed o) then
      _ ←? trigger (Eprintln (str "No-PIN keys allow any process with access to SSH_AUTH_SOCK to request signatures."));
      on_user (require_confirmation (str "Create this no-PIN key? [y/N] "))
    else Ret (Ok tt))
    (fun r w' => idle w0 w' /\
       (r = Ok tt -> policy = NoPin -> o_confirmed o = true \/ says_yes (person w0))) w0.
Proof.
  assert (creating w0) as H0 by by left. destruct (_ && _)%bool eqn:Eq.
  - apply safe_try, desk_op; [done|]. intros v. cbn [desk_exec]. destruct (closed v); cbn [fst snd].
    + split; [done|]. split; [done|]. by split.
    + assert (creating (print_err w0 (str "No-PIN keys allow any process with access to SSH_AUTH_SOCK to request signatures.")))
        as H1 by by left.
      split; [done|]. apply safe_on_user. eapply safe_mono; [..|apply require_confirmation_safe].
      * intros u _. by left.
      * intros r u Hr. split; [done|]. intros -> _. by right.
  - apply safe_ret; [done|]. split; [done|]. intros _ ->. left. rewrite bool_decide_true in Eq by done.
    by destruct (o_confirmed o).
Qed.

Lemma pin_safe o policy name w :
  idle w0 w ->
  safe creating (if decide (policy = TpmPin) then on_user (read_new_pin var_os name (o_secret_input o)) else Ret (Ok []))
    (fun r w' => idle w0 w' /\ forall pin, r = Ok pin -> policy = TpmPin -> pin_ok pin) w.
Proof.
  intros Hw. destruct (decide _) as [->|Hp].
  - apply safe_on_user. eapply safe_mono; [..|apply (entry_safe var_os); constructor].
    + intros u _. left. exact Hw.
    + intros r u [Hr _]. split; [exact Hw|]. by intros pin -> _.
  - apply safe_ret; [by left|]. by split.
Qed.

Lemma storing_disk authorization key w s q :
  std_out w = std_out w0 -> generated w = generated w0 ++ [(authorization, key)] -> ordered authorization key ->
  reach (saving key) (disk w0) q s -> creating (set_disk w s).
Proof.
  intros Ho Hg Hord Hq. right; left. split; [exact Ho|]. exists authorization, key, q.
  exact (conj Hg (conj Hord Hq)).
Qed.

Lemma stored_disk authorization key w s :
  std_out w = std_out w0 -> generated w = generated w0 ++ [(authorization, key)] -> ordered authorization key ->
  reach (saving key) (disk w0) (Ret (Ok tt)) s -> stored (print_out (set_disk w s) (as_str (id (KeyStore.summary key)))).
Proof.
  intros Ho Hg Hord Hq. exists authorization, key.
  exact (conj (f_equal (fun l => l ++ [_]) Ho) (conj Hg (conj Hord Hq))).
Qed.

(** From the finished key on. *)
Lemma store_safe authorization key w :
  store_directory var_os = Ok dir -> idle w0 w -> ordered authorization key ->
  safe creating
    (directory ←? Ret (store_directory var_os);
     _ ←? map_err_prog (fun error => str "cannot persist the wrapped TPM key: " ++ KeyStore.StoreError_display error)
       (on_files (KeyStore.KeyStore_save (KeyStore.KeyStore_new directory) process_id key));
     trigger (Println (as_str (id (KeyStore.summary key)))))
    creation (add_key w authorization key).
Proof.
  intros Hdir (Hd & Ho & Hg) Hord. set (w1 := add_key w authorization key).
  assert (generated w1 = generated w0 ++ [(authorization, key)]) as Hg1 by exact (f_equal (fun l => l ++ [_]) Hg).
  assert (forall s q, reach (saving key) (disk w0) q s -> creating (set_disk w1 s)) as Hc
    by (intros s q; by apply (storing_disk authorization key)).
  assert (creating w1) as H1.
  { rewrite <- (set_disk_same w1). apply (Hc _ (saving key)). assert (disk w1 = disk w0) as -> by exact Hd. constructor. }
  apply safe_try. rewrite Hdir. apply safe_ret; [done|].
  apply safe_try, safe_map_err, safe_on_files.
  assert (disk w1 = disk w0) as -> by done. eapply safe_mono; [..|apply safe_reached].
  - intros s [q Hq]. exact (Hc s q Hq).
  - intros r s Hq. pose proof (Hc s _ Hq) as Hc2. split; [done|]. destruct r as [[]|e|]; cbn [map_err]; [|done..].
    apply desk_op; [done|]. intros v. cbn [desk_exec]. destruct (closed v); cbn [fst snd]; [done|].
    pose proof (stored_disk authorization key w1 s Ho Hg1 Hord Hq) as Hs.
    split; [exact (or_intror (or_intror Hs))|]. by intros _.
Qed.

(** What the interface promises of a generated key. *)
Lemma create_generate_safe tpm o n policy pin w (f : KeySummary * TpmObject -> prog cmdE (result bytes unit)) :
  idle w0 w -> parse_create arguments create_defaults = Ok o -> create_request o = Ok (n, policy) ->
  (policy = NoPin -> o_confirmed o = true \/ says_yes (person w0)) -> (policy = TpmPin -> pin_ok pin) ->
  let authorization := match policy with NoPin => AuthNone | TpmPin => AuthPin pin end in
  (forall summary object w', idle w0 w' -> ordered authorization (KeyStore.mkStoredKey summary object) ->
     safe creating (f (summary, object)) creation (add_key w' authorization (KeyStore.mkStoredKey summary object))) ->
  safe creating (generated ←? map_err_prog (fun error => str "cannot generate the TPM key: " ++ TpmError_display error)
      (trigger (Generate tpm n (o_algorithm o) authorization)); f generated) creation w.
Proof.
  intros Hw Eo Er Hyes Hpin authorization Hf.
  apply safe_try, safe_map_err, desk_op; [by left|]. intros v. cbn [desk_exec].
  pose proof (generate_summary tpm n (o_algorithm o) authorization (of_tpm v) (tpm_state w)) as Hg.
  destruct (run tpm_calm _ _ _) as [r t]. cbn [fst snd] in *. assert (idle w0 (set_tpm w t)) as Hw' by exact Hw.
  destruct r as [[summary object]|e|]; cbn [map_err]; [|assert (creating (set_tpm w t)) by (by left); by split_and!..].
  destruct Hg as (Hn & Ha & Hu & Ho).
  assert (policy_of authorization = policy) as Hpol by (by unfold authorization; destruct policy).
  pose proof (fun H => Hf summary object (set_tpm w t) Hw' H) as Hf'.
  assert (safe creating (f (summary, object)) creation
    (add_key (set_tpm w t) authorization (KeyStore.mkStoredKey summary object))) as Hsafe.
  { apply Hf'. split; [exists o, policy|].
    - cbn [KeyStore.summary KeyStore.object]. rewrite Hn, Ha, Hu, Ho. by split_and!.
    - intros pin' Hp. unfold authorization in Hp. destruct policy; [discriminate Hp|]. injection Hp as <-. by apply Hpin. }
  split; [by eapply safe_here|]. split; [by eapply safe_here|exact Hsafe].
Qed.

Lemma create_connect_safe w (f : signer -> prog cmdE (result bytes unit)) :
  idle w0 w -> (forall tpm w', idle w0 w' -> safe creating (f tpm) creation w') ->
  safe creating (tpm ←? map_err_prog (fun error => str "cannot open the TPM: " ++ TpmError_display error)
    (trigger ConnectDefault); f tpm) creation w.
Proof.
  intros Hw Hf. apply safe_try, safe_map_err, desk_op; [by left|]. intros v. cbn [desk_exec].
  destruct (run tpm_calm tpm_connect _ _) as [r t]. cbn [fst snd].
  assert (idle w0 (set_tpm w t)) as Hw' by exact Hw. assert (creating (set_tpm w t)) by (by left).
  split; [done|]. split; [done|]. destruct r as [tpm|e|]; cbn [map_err]; [by apply Hf|done..].
Qed.

Lemma create_safe : store_directory var_os = Ok dir -> safe creating (create_key arguments) creation w0.
Proof.
  intros Hdir. assert (creating w0) as H0 by by left. unfold create_key.
  apply safe_try, safe_ret; [done|]. destruct (parse_create arguments create_defaults) as [o|e|] eqn:Eo; [|done..].
  apply safe_try, safe_ret; [done|]. destruct (create_request o) as [[n policy]|e|] eqn:Er; [|done..].
  apply safe_try. eapply safe_mono; [..|apply (confirm_safe o policy)]; [done|].
  intros r w1 [H1 Hyes]. assert (creating w1) as Hc1 by by left. destruct r as [[]|e|]; [|done..].
  specialize (Hyes eq_refl). destruct (_ && _)%bool; [by apply safe_ret|].
  apply safe_try. eapply safe_mono; [..|apply (pin_safe o policy n w1 H1)]; [done|].
  intros r w2 [H2 Hpin]. assert (creating w2) as Hc2 by by left. destruct r as [pin|e|]; [|done..].
  specialize (Hpin pin eq_refl).
  apply create_connect_safe; [done|]. intros tpm w3 H3. apply (create_generate_safe tpm o n policy pin w3); [done..|].
  intros summary object w4 H4 Hord. exact (store_safe _ _ w4 Hdir H4 Hord).
Qed.
End Create.


(** ** [key list] and [key delete] *)

Lemma desk_run_files {A} (p : prog fsE A) w :
  run smooth (on_files p) [] w = (fst (run calm p [] (disk w)), set_disk w (snd (run calm p [] (disk w)))).
Proof.
  rewrite <- (set_disk_same w) at 1. apply (run_lift OnFiles (set_disk w) calm smooth).
  intros X e s. change (exec smooth (set_disk w s) (OnFiles X e)) with
    (let '(x, s') := exec calm s e in (x, set_disk w s')). by destruct (exec calm s e).
Qed.

Lemma run_print_lines lines w :
  exists w', run smooth (print_lines lines) [] w = (Ok tt, w') /\ disk w' = disk w /\ std_out w' = std_out w ++ lines.
Proof.
  revert w; induction lines as [|line lines IH]; intros w; [exists w; by rewrite app_nil_r|].
  destruct (IH (print_out w line)) as (w' & Hr & Hd & Ho). exists w'. split_and!.
  - cbn [print_lines]. erewrite run_try_op; [exact Hr|reflexivity].
  - done.
  - rewrite Ho. cbn. by rewrite <- app_assoc.
Qed.

Section Stored.
Context (dir : path) (m : gmap KeyId KeyStore.StoredKey) (w0 : desk).

(** The store holds [m], and nothing else. *)
Record store_of : Prop := mk_store_of {
  st_located : store_directory var_os = Ok dir;
  st_named : dir <> [];
  st_wf : fs_wf (disk w0);
  st_keyed : KeyStore.well_keyed m;
  st_holds : KeyStore.holds_durably (disk w0) dir m;
  st_names : KeyStore.names_ok (disk w0) dir;
  st_only : forall name, name ∈ KeyStore.record_names (disk w0) dir ->
    exists kid, is_Some (m !! kid) /\ name = KeyStore.record_name kid;
}.

Lemma store_holds : store_of -> KeyStore.holds (disk w0) dir m.
Proof. intros H. eapply KeyStore.holds_crash; [apply H..|apply crash_refl]. Qed.

Definition untouched (w' : desk) : Prop := idle w0 w' /\ person w' = person w0.

(** A stored key. *)
Definition member (key : KeyStore.StoredKey) : Prop := m !! id (KeyStore.summary key) = Some key.

Lemma member_list keys : store_of -> keys ≡ₚ (map_to_list m).*2 -> forall key, key ∈ keys <-> member key.
Proof.
  intros Hs Hk key. rewrite Hk, list_elem_of_fmap. split.
  - intros ([kid key'] & -> & Hin%elem_of_map_to_list). destruct (st_keyed Hs kid key' Hin) as (<- & _). done.
  - intros Hin. exists (id (KeyStore.summary key), key). split; [done|]. by apply elem_of_map_to_list.
Qed.

Lemma stored_keys_safe :
  store_of ->
  safe untouched stored_keys (fun r w' => untouched w' /\
    match r with Ok keys => forall key, key ∈ keys -> member key | Err _ => True | Panic => False end) w0.
Proof.
  intros Hs. assert (untouched w0) as H0 by done. unfold stored_keys. rewrite (st_located Hs).
  apply safe_try, safe_ret; [done|]. apply safe_map_err, safe_on_files.
  eapply safe_mono; [..|apply (KeyStore.KeyStore_list_refines (KeyStore.KeyStore_new dir) m);
    [apply Hs|by apply store_holds|apply Hs..]].
  - intros s ->. by rewrite set_disk_same.
  - intros r s [-> Hr]. rewrite set_disk_same. split_and!; [done..|].
    destruct r as [keys|e|]; [|done..]. intros key Hin. destruct Hr as [_ [[-> _]|Hk]]; [by apply not_elem_of_nil in Hin|].
    by apply (member_list keys).
Qed.

Lemma find_key_safe id0 :
  store_of ->
  safe untouched (find_key id0) (fun r w' => untouched w' /\
    match r with Ok key => member key /\ as_str (id (KeyStore.summary key)) = id0 | Err _ => True | Panic => False end) w0.
Proof.
  intros Hs. apply safe_try. eapply safe_mono; [..|by apply stored_keys_safe]; [done|].
  intros r w' [Hw Hr]. destruct r as [keys|e|]; [|done..]. apply safe_ret; [done|]. split; [done|].
  destruct (head _) as [key|] eqn:Eh; cbn [ok_or]; [|done].
  apply head_Some_elem_of, list_elem_of_filter in Eh as [He Hin]. auto.
Qed.

(** The user wants the key [kid] to be deleted. *)
Definition condemned (arguments : list bytes) (kid : KeyId) : Prop :=
  arguments = [as_str kid; str "--yes"] \/ arguments = [as_str kid] /\ says_yes (person w0).

(** Only a wanted deletion has started. *)
Definition deleting (arguments : list bytes) (w' : desk) : Prop :=
  std_out w' = std_out w0 /\ generated w' = generated w0 /\
  (disk w' = disk w0 \/ exists key q, member key /\ condemned arguments (id (KeyStore.summary key)) /\
     reach (KeyStore.KeyStore_delete (KeyStore.KeyStore_new dir) (id (KeyStore.summary key))) (disk w0) q (disk w')).
Definition deletion (arguments : list bytes) (r : result bytes unit) (w' : desk) : Prop :=
  match r with
  | Ok _ => exists key, member key /\ condemned arguments (id (KeyStore.summary key)) /\
      reach (KeyStore.KeyStore_delete (KeyStore.KeyStore_new dir) (id (KeyStore.summary key))) (disk w0) (Ret (Ok tt)) (disk w')
  | Err _ => True
  | Panic => False
  end.

Lemma delete_safe arguments : store_of -> safe (deleting arguments) (delete_key arguments) (deletion arguments) w0.
Proof.
  intros Hs. assert (forall w', idle w0 w' -> deleting arguments w') as Hi.
  { intros w' (? & ? & ?). split_and!; auto. }
  assert (deleting arguments w0) as H0 by by apply Hi. unfold delete_key.
  apply safe_try, safe_ret; [done|].
  match goal with |- match ?x with _ => _ end => destruct x as [[id0 confirmed]|e|] eqn:Ea end; [|done|].
  2: { destruct arguments as [|? [|? [|]]]; try done. by destruct (decide _). }
  apply safe_try, safe_ret; [done|]. destruct (os_text id0 _) as [id1|e|] eqn:Et; [|done|].
  2: { unfold os_text, to_str in Et. by destruct (utf8_valid id0). }
  assert (id1 = id0) as ->.
  { unfold os_text, to_str in Et. destruct (utf8_valid id0); cbn in Et; congruence. }
  apply safe_try. eapply safe_mono; [..|by apply (find_key_safe id0)]; [intros w' [H _]; by apply Hi|].
  intros r w1 [[H1 Hp] Hr]. destruct r as [key|e|]; [|by split; [apply Hi|]|done].
  destruct Hr as [Hm Hid]. apply safe_try.
  assert (safe (deleting arguments)
    (if negb confirmed then
       on_user (require_confirmation (str "Delete key “" ++ name (KeyStore.summary key) ++ str "”? [y/N] "))
     else Ret (Ok tt))
    (fun r w' => idle w0 w' /\ match r with Ok _ => condemned arguments (id (KeyStore.summary key)) | Err _ => True | Panic => False end) w1)
    as Hconf.
  { unfold condemned. rewrite Hid. destruct confirmed; cbn [negb].
    - apply safe_ret; [by apply Hi|]. split; [done|]. left.
      destruct arguments as [|? [|? [|]]]; try done. destruct (decide _); [|done]. by simplify_eq.
    - apply safe_on_user. eapply safe_mono; [..|apply require_confirmation_safe].
      + intros u _. apply Hi, H1.
      + intros r u Hr. split; [exact H1|]. destruct r; [|done..]. right. rewrite Hp in Hr. split; [|done].
        destruct arguments as [|? [|? [|]]]; try done; [by simplify_eq|]. by destruct (decide _). }
  eapply safe_mono; [..|exact Hconf]; [done|].
  intros r w2 [H2 Hc]. destruct r as [[]|e|]; [|by split; [apply Hi|]|done].
  apply safe_try, safe_ret; [by apply Hi|]. rewrite (st_located Hs). apply safe_map_err, safe_on_files.
  destruct H2 as (Hd & Ho & Hg). rewrite Hd.
  eapply safe_mono; [..|apply safe_reached].
  - intros s [q Hq]. split_and!; [done..|]. right. by exists key, q.
  - intros r s Hq. split; [split_and!; [done..|]; right; by exists key, (Ret r)|].
    destruct r as [[]|e|]; cbn [map_err deletion]; [by exists key|done|].
    destruct (KeyStore.KeyStore_delete_refines (KeyStore.KeyStore_new dir) (id (KeyStore.summary key)) m (disk w0)
      (st_named Hs) (st_wf Hs) (st_keyed Hs) (st_holds Hs)) as [H _].
    by destruct (H _ _ s Hq (crash_refl s)) as (_ & _ & []).
Qed.

(** Undisturbed, the commands find what is stored. *)
Lemma store_directory_found : store_of -> exists i n, find (disk w0) dir = Some (i, n) /\ file_type n = Directory.
Proof.
  intros Hs. destruct (st_holds Hs (KeyId_new [])) as (Hd & _). apply dir_found; [apply Hs|]. apply Hd.
Qed.

Lemma run_stored_keys :
  store_of -> exists keys, run smooth stored_keys [] w0 = (Ok keys, w0) /\
    KeyStore.sorted_keys keys /\ keys ≡ₚ (map_to_list m).*2.
Proof.
  intros Hs. destruct (KeyStore.KeyStore_list_calm (KeyStore.KeyStore_new dir) m (disk w0) (store_directory_found Hs)
    (st_keyed Hs) (store_holds Hs) (st_names Hs) (st_only Hs) calm eq_refl) as [keys Hk].
  rewrite run_calm_cons in Hk. exists keys. split.
  - unfold stored_keys. rewrite (st_located Hs), (run_try smooth (Ret _) _ w0 dir w0) by done.
    erewrite run_map_err; [reflexivity|]. by rewrite desk_run_files, Hk, set_disk_same.
  - pose proof (run_reach calm (KeyStore.KeyStore_list (KeyStore.KeyStore_new dir)) [] (disk w0)) as Hr. rewrite Hk in Hr.
    destruct (safe_reach_ret _ _ _ _ _ _ (KeyStore.KeyStore_list_refines (KeyStore.KeyStore_new dir) m (disk w0)
      (st_keyed Hs) (store_holds Hs) (st_names Hs) (st_only Hs)) Hr) as [_ [Hsort [[_ Hf]|Hp]]]; [|done].
    change (KeyStore.directory (KeyStore.KeyStore_new dir)) with dir in Hf.
    destruct (store_directory_found Hs) as (? & ? & ? & _). congruence.
Qed.

Lemma run_find_key kid key :
  store_of -> m !! kid = Some key -> run smooth (find_key (as_str kid)) [] w0 = (Ok key, w0) /\
    os_text (as_str kid) (str "key identifier") = Ok (as_str kid).
Proof.
  intros Hs Hk. destruct (run_stored_keys Hs) as (keys & Hr & _ & Hp). destruct (st_keyed Hs kid key Hk) as (Hid & _ & Hwf).
  split.
  - unfold find_key. erewrite run_try by exact Hr. cbn [run]. do 2 f_equal.
    assert (key ∈ filter (fun key => as_str (id (KeyStore.summary key)) = as_str kid) keys) as Hin.
    { apply list_elem_of_filter. split; [by rewrite Hid|]. apply (member_list keys Hs Hp). unfold member. by rewrite Hid. }
    destruct (filter _ keys) as [|key' rest] eqn:Ef; [by apply not_elem_of_nil in Hin|]. cbn.
    assert (key' ∈ key' :: rest) as Hin' by by left. rewrite <- Ef in Hin'.
    apply list_elem_of_filter in Hin' as [Hid' Hin']. apply (member_list keys Hs Hp) in Hin'. unfold member in Hin'.
    assert (id (KeyStore.summary key') = kid) as E0 by (by destruct (id (KeyStore.summary key')), kid; cbn in Hid'; subst).
    rewrite E0 in Hin'. congruence.
  - unfold os_text, to_str. unfold KeyStore.StoredKey_wf, KeySummary_wf in Hwf.
    apply andb_true_iff in Hwf as [Hu _]. unfold KeyId_wf in Hu. rewrite Hid in Hu. by rewrite Hu.
Qed.

(** An identifier that no stored key has is not found. *)
Lemma run_find_none kid :
  store_of -> utf8_valid (as_str kid) = true -> m !! kid = None ->
  run smooth (find_key (as_str kid)) [] w0 = (Err (str "key `" ++ as_str kid ++ str "` was not found"), w0) /\
  os_text (as_str kid) (str "key identifier") = Ok (as_str kid).
Proof.
  intros Hs Hu Hk. destruct (run_stored_keys Hs) as (keys & Hr & _ & Hp). split; [|by unfold os_text, to_str; rewrite Hu].
  unfold find_key. erewrite run_try by exact Hr. cbn [run]. do 2 f_equal.
  destruct (filter _ keys) as [|key rest] eqn:Ef; [done|]. exfalso.
  assert (key ∈ key :: rest) as Hin by by left. rewrite <- Ef in Hin.
  apply list_elem_of_filter in Hin as [Hid Hin]. apply (member_list keys Hs Hp) in Hin. unfold member in Hin.
  assert (id (KeyStore.summary key) = kid) as E0 by (by destruct (id (KeyStore.summary key)), kid; cbn in Hid; subst).
  congruence.
Qed.
End Stored.

(** The formats of [key list]. *)
Inductive in_format : OutputFormat -> list bytes -> Prop :=
  | by_default : in_format Human []
  | human_format : in_format Human [str "--format"; str "human"]
  | tsv_format : in_format Tsv [str "--format"; str "tsv"].

(** [C28] [key list] and [key show] print what is stored.  On a store that holds the keys of
    [m], undisturbed, [key list] prints one line for each of these keys, in the order of
    their identifiers and with no key left out: identifier, name, policy and SHA-256
    fingerprint, between spaces, or between tabs with the name escaped after two heading
    lines; "No keys." is printed for a human, exactly when there are none.  [key show]
    prints six lines of the key whose identifier it is given, and refuses an identifier
    that no key has, naming it and printing nothing.  Neither changes a file. *)
Theorem stored_keys_are_shown dir m w arguments format :
  store_of dir m w -> in_format format arguments ->
  (exists keys lines w', run smooth (list_keys arguments) [] w = (Ok tt, w') /\ disk w' = disk w /\
     std_out w' = std_out w ++ lines /\ key_listing Sha256 STANDARD_NO_PAD_encode format keys lines /\
     KeyStore.sorted_keys keys /\ keys ≡ₚ (map_to_list m).*2) /\
  (forall kid key, m !! kid = Some key ->
    exists lines w', run smooth (show_key (as_str kid)) [] w = (Ok tt, w') /\ disk w' = disk w /\
      std_out w' = std_out w ++ lines /\ key_shown Sha256 STANDARD_NO_PAD_encode STANDARD_encode key lines) /\
  forall kid, utf8_valid (as_str kid) = true -> m !! kid = None ->
    run smooth (show_key (as_str kid)) [] w = (Err (str "key `" ++ as_str kid ++ str "` was not found"), w).
Proof.
  intros Hs Hf. assert (parse_format arguments = Ok format) as Ef by by destruct Hf. split_and!.
  - destruct (run_stored_keys dir m w Hs) as (keys & Hr & Hsort & Hp).
    destruct (run_print_lines (key_rows Sha256 STANDARD_NO_PAD_encode format keys) w) as (w' & Hw & Hd & Ho).
    exists keys, (key_rows Sha256 STANDARD_NO_PAD_encode format keys), w'. split_and!; [|done|done|apply key_rows_listing|done|done].
    unfold list_keys. rewrite Ef, (run_try smooth (Ret _) _ w format w) by done. by erewrite run_try by exact Hr.
  - intros kid key Hk. destruct (run_find_key dir m w kid key Hs Hk) as [Hr Ht].
    destruct (run_print_lines (show_rows Sha256 STANDARD_NO_PAD_encode STANDARD_encode key) w) as (w' & Hw & Hd & Ho).
    eexists _, w'. split_and!; [|done|done|apply show_rows_shown].
    unfold show_key. rewrite Ht, (run_try smooth (Ret _) _ w (as_str kid) w) by done. by erewrite run_try by exact Hr.
  - intros kid Hu Hk. destruct (run_find_none dir m w kid Hs Hu Hk) as [Hr Ht].
    unfold show_key. rewrite Ht, (run_try smooth (Ret _) _ w (as_str kid) w) by done.
    unfold try_bind. by erewrite run_bind by exact Hr.
Qed.

(** [C23] [key delete] deletes the key it is told to, and nothing else.  Whatever the user
    and the files do, and at any crash: the store holds what it held, or what it held less
    one key whose identifier is the argument, and then the user gave [--yes] or confirmed;
    success means that it is gone durably, and nothing panics.  Undisturbed, with [--yes],
    every stored key can be deleted. *)
Theorem delete_key_refines dir m w :
  store_of dir m w ->
  (forall arguments p' w' s', reach (delete_key arguments) w p' w' -> crash (disk w') s' ->
     (KeyStore.holds s' dir m \/
      exists key, member m key /\ condemned w arguments (id (KeyStore.summary key)) /\
        KeyStore.holds s' dir (delete (id (KeyStore.summary key)) m)) /\
     forall r, p' = Ret r -> match r with
       | Ok _ => exists key, member m key /\ condemned w arguments (id (KeyStore.summary key)) /\
           KeyStore.holds s' dir (delete (id (KeyStore.summary key)) m)
       | Err _ => True
       | Panic => False
       end) /\
  forall kid, is_Some (m !! kid) -> exists w', run smooth (delete_key [as_str kid; str "--yes"]) [] w = (Ok tt, w').
Proof.
  intros Hs. pose proof (fun kid => KeyStore.KeyStore_delete_refines (KeyStore.KeyStore_new dir) kid m (disk w)
    (st_named _ _ _ Hs) (st_wf _ _ _ Hs) (st_keyed _ _ _ Hs) (st_holds _ _ _ Hs)) as Hdel. split.
  - intros arguments p' w' s' Hr Hc. pose proof (delete_safe dir m w arguments Hs) as Hsafe. split.
    + destruct (safe_reach_inv _ _ _ _ _ _ Hsafe Hr) as (_ & _ & [Hd|(key & q & Hm & Hcon & Hq)]).
      * left. rewrite Hd in Hc. eapply KeyStore.holds_crash; [apply Hs..|done].
      * destruct (proj1 (Hdel (id (KeyStore.summary key))) _ _ s' Hq Hc) as ([H|H] & _); [by left|right]. by exists key.
    + intros r ->. pose proof (safe_reach_ret _ _ _ _ _ _ Hsafe Hr) as Hd. destruct r as [[]|e|]; [|done..].
      destruct Hd as (key & Hm & Hcon & Hq). exists key. split_and!; [done..|].
      by apply (proj1 (Hdel (id (KeyStore.summary key))) _ _ s' Hq Hc).
  - intros kid Hk. destruct (proj2 (Hdel kid) Hk) as [s Hrun]. destruct Hk as [key Hk].
    destruct (run_find_key dir m w kid key Hs Hk) as [Hr Ht]. exists (set_disk w s). unfold delete_key.
    rewrite (run_try smooth (Ret _) _ w (as_str kid, true) w) by by rewrite decide_True.
    rewrite Ht, (run_try smooth (Ret _) _ w (as_str kid) w) by done. erewrite run_try by exact Hr. cbn [negb].
    rewrite (run_try smooth (Ret (Ok tt)) _ w tt w) by done.
    rewrite (st_located _ _ _ Hs), (run_try smooth (Ret _) _ w dir w) by done.
    apply run_map_err. rewrite desk_run_files. destruct (st_keyed _ _ _ Hs kid key Hk) as (-> & _). by rewrite Hrun.
Qed.
End Commands.

(** ** A user who makes, lists and deletes a key *)

Module Sample.
Import Toy.
Definition desktop : environment := fun name =>
  if decide (name = str "XDG_DATA_HOME") then Some (str "/d")
  else if decide (name = str "DISPLAY") then Some (str ":0") else None.
Definition dir : path := [str "d"; str "me.nexryai.keyvisor"; str "keys"].
Definition key : KeyStore.StoredKey := KeyStore.mkStoredKey
  (mkKeySummary (KeyId_new (str "a")) (str "work") EcdsaNistP256 NoPin (str "p"))
  (mkTpmObject (str "p") (str "w") (str "q") NoPin).
Definition record : path := dir ++ [KeyStore.record_name (id (KeyStore.summary key))].

Definition folder : inode := mk_inode Directory MODE_0700 1000 [] [].
Definition folders : gmap path Z := list_to_map [(firstn 1 dir, 1); (firstn 2 dir, 2); (dir, 3)].
Definition no_record : fs := mk_fs folders folders (list_to_map [(1, folder); (2, folder); (3, folder)]) 4 0 1000.
Definition one_record : fs :=
  mk_fs (<[record := 4]> folders) (<[record := 4]> folders)
    (list_to_map [(1, folder); (2, folder); (3, folder);
       (4, mk_inode Regular MODE_0600 1000 (KeyStore.layout key) (KeyStore.layout key))]) 5 0 1000.

Lemma no_record_wf : fs_wf no_record.
Proof. by apply fs_wf_decide; vm_compute. Qed.
Lemma one_record_wf : fs_wf one_record.
Proof. by apply fs_wf_decide; vm_compute. Qed.

Lemma dir_durable s c o :
  forallb (fun q => bool_decide (stable_entries s !! q = entries s !! q) && dir_at s q) (ancestors dir ++ [dir]) = true ->
  stable_entries s = entries s ->
  match o with
  | None => entries s !! (dir ++ [c]) = None
  | Some b => exists j n, entries s !! (dir ++ [c]) = Some j /\ inodes s !! j = Some n /\
      file_type n = Regular /\ data n = b /\ stable_data n = b
  end -> durable_file s dir c o.
Proof.
  intros Hd Hs Ho. split_and!; [|by rewrite Hs|done]. intros q Hq. rewrite Hs. split; [done|].
  apply forallb_forall with (x := q) in Hd; [|done]. by apply andb_true_iff in Hd as [_ ?].
Qed.

Definition no_keys : gmap KeyId KeyStore.StoredKey := ∅.
Definition one_key : gmap KeyId KeyStore.StoredKey := {[ id (KeyStore.summary key) := key ]}.

Lemma no_folder c : folders !! (dir ++ [c]) = None.
Proof.
  apply not_elem_of_list_to_map. cbn [fmap list_fmap fst]. intros Hin%(list_elem_of_fmap_2 length).
  rewrite length_app in Hin. revert Hin. by apply (bool_decide_unpack (_ ∉ _)).
Qed.

Lemma no_record_holds : KeyStore.holds_durably no_record dir no_keys.
Proof. intros kid. apply dir_durable; [by vm_compute|done|]. apply no_folder. Qed.

Lemma one_record_holds : KeyStore.holds_durably one_record dir one_key.
Proof.
  intros kid. apply dir_durable; [by vm_compute|done|]. unfold one_key. cbn [entries one_record].
  destruct (decide (kid = id (KeyStore.summary key))) as [->|Hne].
  - rewrite lookup_singleton_eq. cbn [fmap option_fmap option_map]. eexists 4, _.
    rewrite lookup_insert_eq. split_and!; [done|by vm_compute|done..].
  - rewrite lookup_singleton_ne by congruence. cbn [fmap option_fmap option_map].
    rewrite lookup_insert_ne; [apply no_folder|]. intros [_ [= H]]%app_inj_2; [|done].
    by apply Hne, eq_sym, KeyStore.record_name_inj.
Qed.

Lemma one_record_names : names_in one_record dir = [KeyStore.record_name (id (KeyStore.summary key))].
Proof. by vm_compute. Qed.

#[local] Instance toy_desk : Handler (@cmdE toyE _) (@desk unit) (@turn unit) := desk_handler tt.

(** The desk, and the input of its user. *)
Definition desk_with (s : fs) (line : bytes) : @desk unit :=
  mkDesk tt s (mkUser [] (Control.mkSource Secrets.Sample.answers None) NotStarted (mkTermios 0x3b [])
    (Control.mkSource (line_of line) None) [] [] (Control.mkSource [] None)) [] [] [].

Lemma one_record_store line : store_of desktop dir one_key (desk_with one_record line).
Proof.
  split; [by vm_compute|done|exact one_record_wf| |exact one_record_holds| |].
  - apply map_Forall_singleton. split_and!; [done| |by vm_compute].
    by apply KeyStore.validate_record_valid; vm_compute.
  - unfold KeyStore.names_ok. cbn [disk desk_with]. rewrite one_record_names. repeat constructor; apply KeyStore.record_name_ok.
  - intros name [_ Hin]%list_elem_of_filter. cbn [disk desk_with] in Hin. rewrite one_record_names in Hin.
    apply list_elem_of_singleton in Hin as ->. exists (id (KeyStore.summary key)). split; [|done].
    unfold one_key. rewrite lookup_singleton_eq. by eexists.
Qed.


Lemma stored_keys_are_shown_witness :
  (exists w', run smooth (@list_keys toyE _ (fun b => b) hex_encode desktop [str "--format"; str "tsv"]) []
     (desk_with one_record []) = (Ok tt, w') /\
   std_out w' = [ str "KEYVISOR-KEYS-1";
     str "id" ++ [tab] ++ str "name" ++ [tab] ++ str "authorization" ++ [tab] ++ str "fingerprint";
     str "a" ++ [tab] ++ str "work" ++ [tab] ++ str "none" ++ [tab] ++ str "SHA256:70" ]) /\
  run smooth (@show_key toyE _ (fun b => b) hex_encode hex_encode desktop (str "b")) [] (desk_with one_record []) =
    (Err (str "key `b` was not found"), desk_with one_record []).
Proof.
  destruct (stored_keys_are_shown tt (fun b => b) hex_encode hex_encode desktop dir one_key (desk_with one_record [])
    [str "--format"; str "tsv"] Tsv (one_record_store []) tsv_format) as ((keys & lines & w' & Hr & _ & Ho & Hl & _ & Hp) & _ & Hn).
  split; [|refine (Hn (KeyId_new (str "b")) _ _); [reflexivity|]; unfold one_key; by rewrite lookup_singleton_ne].
  exists w'. split; [exact Hr|]. rewrite Ho. unfold one_key in Hp. rewrite map_to_list_singleton in Hp.
  apply Permutation_singleton_r in Hp as ->. destruct Hl as (rows & -> & Hrows).
  apply Forall2_cons_inv_l in Hrows as (line & rest & Hline & Hrest & ->). apply Forall2_nil_inv_l in Hrest as ->.
  destruct Hline as (policy & Hpol & ->). cbn in Hpol. inversion Hpol; subst policy. vm_compute. reflexivity.
Defined.

(** Deleted after a confirmation. *)
Lemma delete_key_refines_witness :
  let '(r, w') := run smooth (@delete_key toyE _ desktop [str "a"]) [] (desk_with one_record (str "yes")) in
  r = Ok tt /\ KeyStore.holds (disk w') dir (delete (id (KeyStore.summary key)) one_key).
Proof.
  pose proof (run_reach smooth (@delete_key toyE _ desktop [str "a"]) [] (desk_with one_record (str "yes"))) as Hr.
  assert (fst (run smooth (@delete_key toyE _ desktop [str "a"]) [] (desk_with one_record (str "yes"))) = Ok tt) as E1
    by (vm_compute; reflexivity).
  destruct (run smooth (@delete_key toyE _ desktop [str "a"]) [] (desk_with one_record (str "yes"))) as [r w'].
  cbn [fst snd] in *. subst r. split; [reflexivity|].
  destruct (proj1 (delete_key_refines tt desktop dir one_key (desk_with one_record (str "yes")) (one_record_store _))
    [str "a"] _ _ (disk w') Hr (crash_refl _)) as [_ H].
  destruct (H _ eq_refl) as (k & Hm & Hc & Hh).
  assert (id (KeyStore.summary k) = id (KeyStore.summary key)) as <-; [|exact Hh].
  unfold member, one_key in Hm. apply lookup_singleton_Some in Hm as [-> _]. reflexivity.
Defined.
End Sample.
