(* ===== verification/Client.v ===== *)
(** The control client: [connect_control], [fetch_authorization_requests], [run_authorize],
    [authorize_request], [list_authorization_requests] and [run_agent] of
    crates/keyvisor-cli/src/main.rs, and the operations of [keyvisor exec].

    A connection to the control socket is a conversation: what the client says on it, and
    what it hears, which is arbitrary here; what an agent answers is the subject of Control.
    The agent, other processes and the user act between any two operations. *)

From S2P Require Import Prelude Bytes Text Effects FileSystem Paths Broker Control Pinentry Secrets Output.

(** ** Operations *)

Inductive Signal := HUP | INT | QUIT | TERM | KILL.

#[global] Instance Signal_eq_dec : EqDecision Signal.
Proof. solve_decision. Defined.

(** A stream is known by its number.  Reading is a function of what arrives on it.  [Spawn]
    answers the process identifier of the child, the only one; the status of an ended
    process is the one [wait] gives. *)
Inductive sessionE : Type -> Type :=
  | Metadata (p : path) : sessionE (io_result metadata)
  | OnUser (X : Type) (e : userE X) : sessionE X
  | Geteuid : sessionE Z
  | Connect (p : path) : sessionE (io_result nat)
  | SetTimeout (stream : nat) : sessionE (io_result unit)
  | WriteAll (stream : nat) (text : bytes) : sessionE (io_result unit)
  | Receive (A : Type) (stream : nat) (read : source -> result bytes A) : sessionE (result bytes A)
  | Println (line : bytes) : sessionE (result bytes unit)
  | Register (signal : Signal) : sessionE (io_result nat)
  | Unregister (registration : nat) : sessionE unit
  | SwapFlag (signal : Signal) : sessionE bool
  | Spawn (program : list bytes) : sessionE (io_result Z)
  | TryWait : sessionE (io_result (option Z))
  | KillProcess (process : Z) (signal : Signal) : sessionE (io_result unit)
  | ChildKill : sessionE (io_result unit)
  | ChildWait : sessionE (io_result Z)
  | InstantNow : sessionE Z
  | Sleep (ms : Z) : sessionE unit.

Arguments Receive {A} stream read.

Definition on_user {A} (p : prog userE A) : prog sessionE A := lift OnUser p.

(** ** The client *)

Section Client.
Context (var_os : environment).

Definition connect_control : prog sessionE (result bytes nat) :=
  path ←? Ret (control_socket_path var_os);
  metadata ←? map_err_prog (fun error => str "agent is not running: " ++ message error) (trigger (Metadata path));
  if negb (is_socket (md_type metadata)) then Ret (Err (str "control socket path is not a Unix socket"))
  else
    euid ← trigger Geteuid;
    if negb (Z.land (md_mode metadata) MODE_0777 =? MODE_0600) || negb (md_uid metadata =? euid)
    then Ret (Err (str "control socket must be owned by the current user with mode 0600"))
    else
      stream ←? map_err_prog (fun error => str "cannot connect to the agent control socket: " ++ message error)
        (trigger (Connect path));
      _ ←? map_err_prog control_io (trigger (SetTimeout stream));
      _ ←? map_err_prog control_io (trigger (SetTimeout stream));
      Ret (Ok stream).

Definition fetch_authorization_requests : prog sessionE (result bytes (list (bytes * bytes))) :=
  stream ←? connect_control;
  _ ←? map_err_prog control_io (trigger (WriteAll stream list_message));
  trigger (Receive stream Control.fetch_authorization_requests).

Fixpoint print_requests (requests : list (bytes * bytes)) : prog sessionE (result bytes unit) :=
  match requests with
  | [] => Ret (Ok tt)
  | (id, name) :: requests => _ ←? trigger (Println (id ++ str "  " ++ name)); print_requests requests
  end.

Definition list_authorization_requests : prog sessionE (result bytes unit) :=
  requests ←? fetch_authorization_requests;
  if is_empty requests then trigger (Println (str "No pending authorization requests."))
  else print_requests requests.

(** The first line of the message and the PIN are written separately. *)
Definition authorize_line (id pin : bytes) : bytes :=
  str "AUTHORIZE " ++ id ++ str " " ++ print_dec (len pin) ++ [newline].

Definition authorize_request (id key_name : bytes) (secret_input : SecretInput) (report_success : bool) :
    prog sessionE (result bytes unit) :=
  pin ←? on_user (read_existing_pin var_os (str "SSH signature with key “" ++ key_name ++ str "”") secret_input);
  stream ←? connect_control;
  _ ←? map_err_prog control_io (trigger (WriteAll stream (authorize_line id pin)));
  _ ←? map_err_prog control_io (trigger (WriteAll stream pin));
  _ ←? trigger (Receive stream authorize_response);
  if report_success then trigger (Println (str "authorized " ++ id)) else Ret (Ok tt).

(** The loop of [run_authorize] over its arguments. *)
Fixpoint parse_authorize (arguments : list bytes) (id : option bytes) (secret_input : SecretInput) :
    result bytes (option bytes * SecretInput) :=
  match arguments with
  | [] => Ok (id, secret_input)
  | argument :: arguments =>
      if decide (argument = str "--pin-stdin") then
        secret_input ← set_secret_input secret_input Stdin; parse_authorize arguments id secret_input
      else if decide (argument = str "--pinentry") then
        secret_input ← set_secret_input secret_input Pinentry; parse_authorize arguments id secret_input
      else if decide (argument = str "--terminal") then
        secret_input ← set_secret_input secret_input Terminal; parse_authorize arguments id secret_input
      else match id with
           | None => id ← os_text argument (str "request identifier"); parse_authorize arguments (Some id) secret_input
           | Some _ => Err (str "usage: keyvisor authorize [REQUEST_ID] [--terminal|--pinentry|--pin-stdin]")
           end
  end.

Definition run_authorize (arguments : list bytes) : prog sessionE (result bytes unit) :=
  '(id, secret_input) ←? Ret (parse_authorize arguments None Auto);
  match id with
  | None => list_authorization_requests
  | Some id =>
      requests ←? fetch_authorization_requests;
      key_name ←? Ret (ok_or (snd <$> head (filter (fun request => fst request = id) requests))
        (str "authorization request is not pending"));
      authorize_request id key_name secret_input true
  end.

Definition run_agent (arguments : list bytes) : prog sessionE (result bytes unit) :=
  if negb (bool_decide (arguments = [str "status"])) then Ret (Err (str "usage: keyvisor agent status"))
  else
    stream ←? connect_control;
    _ ←? map_err_prog control_io (trigger (WriteAll stream status_message));
    _ ←? trigger (Receive stream status_response);
    trigger (Println (str "running")).
End Client.

(** ** The session of a command *)

(** A conversation: the path that was connected to, what [symlink_metadata] said of this very
    path just before, what was said, and what was heard. *)
Record talk := mkTalk {
  place : path;
  vouched : option metadata;
  said : bytes;
  reply : source;
}.

(** The last [symlink_metadata]: of what, and its answer. *)
Definition inspection : Type := option (path * io_result metadata).

(** The child process: its status once it was waited for; and the conversations before it
    was started, and the last inspection; and the error, if waiting for it failed. *)
Record child_process := mkChild {
  pid : Z;
  status : option Z;
  spawned_after : list talk;
  spawned_seen : inspection;
  wait_failure : option io_error;
}.

(** A call of kill(2): for whom, whether the child had been waited for by then, and the
    error if it failed, when nothing was sent. *)
Record kill_call := mkKill {
  kl_process : Z;
  kl_signal : Signal;
  kl_reaped : bool;
  kl_failure : option io_error;
}.

(** [answers] are what the peers will say on the next connections; [handlers] the
    registered signals, [flags] those that arrived since they were last looked at, [kills]
    the calls of kill(2). *)
Record session := mkSession {
  disk : fs;
  person : user;
  seen : inspection;
  answers : list source;
  talks : list talk;
  std_out : list bytes;
  clock : Z;
  child : option child_process;
  handlers : list (nat * Signal);
  flags : list Signal;
  kills : list kill_call;
}.

(** The environment's part: what happened before an operation, and how it fares. *)
Record moment := mkMoment {
  other_disk : option fs;
  raised : list Signal;
  elapsed : nat;
  fault : option io_error;
  sent : nat;
  of_disk : choice;
  of_person : reaction;
  new_pid : Z;
  ended : option Z;
  closed : bool;
}.
Definition quiet_moment : moment := mkMoment None [] 0 None 0 calm obliging 1 None false.

Definition set_person (w : session) (u : user) : session :=
  mkSession (disk w) u (seen w) (answers w) (talks w) (std_out w) (clock w) (child w) (handlers w) (flags w) (kills w).
Definition set_seen (w : session) (m : inspection) : session :=
  mkSession (disk w) (person w) m (answers w) (talks w) (std_out w) (clock w) (child w) (handlers w) (flags w) (kills w).
Definition set_talks (w : session) (ts : list talk) : session :=
  mkSession (disk w) (person w) (seen w) (answers w) ts (std_out w) (clock w) (child w) (handlers w) (flags w) (kills w).
Definition set_answers (w : session) (a : list source) : session :=
  mkSession (disk w) (person w) (seen w) a (talks w) (std_out w) (clock w) (child w) (handlers w) (flags w) (kills w).
Definition print_out (w : session) (line : bytes) : session :=
  mkSession (disk w) (person w) (seen w) (answers w) (talks w) (std_out w ++ [line]) (clock w) (child w) (handlers w) (flags w) (kills w).
Definition set_child (w : session) (c : child_process) : session :=
  mkSession (disk w) (person w) (seen w) (answers w) (talks w) (std_out w) (clock w) (Some c) (handlers w) (flags w) (kills w).
Definition set_handlers (w : session) (hs : list (nat * Signal)) : session :=
  mkSession (disk w) (person w) (seen w) (answers w) (talks w) (std_out w) (clock w) (child w) hs (flags w) (kills w).
Definition set_flags (w : session) (fs : list Signal) : session :=
  mkSession (disk w) (person w) (seen w) (answers w) (talks w) (std_out w) (clock w) (child w) (handlers w) fs (kills w).
Definition set_kills (w : session) (ks : list kill_call) : session :=
  mkSession (disk w) (person w) (seen w) (answers w) (talks w) (std_out w) (clock w) (child w) (handlers w) (flags w) ks.
Definition add_kill (w : session) (k : kill_call) : session := set_kills w (kills w ++ [k]).
Definition set_clock (w : session) (t : Z) : session :=
  mkSession (disk w) (person w) (seen w) (answers w) (talks w) (std_out w) t (child w) (handlers w) (flags w) (kills w).

(** Others change the files, but not who the user is; a signal is noted when its handler is
    registered; and time passes. *)
Definition interfere (v : moment) (w : session) : session :=
  mkSession
    (match other_disk v with Some s => if euid s =? euid (disk w) then s else disk w | None => disk w end)
    (person w) (seen w) (answers w) (talks w) (std_out w) (clock w + Z.of_nat (elapsed v)) (child w) (handlers w)
    (flags w ++ filter (fun s => s ∈ snd <$> handlers w) (raised v)) (kills w).

(** What was found at [p], if that is what was looked at. *)
Definition inspected (w : session) (p : path) : option metadata :=
  match seen w with
  | Some (p', Ok m) => if decide (p' = p) then Some m else None
  | _ => None
  end.

(** A child that was waited for. *)
Definition reaped (w : session) : bool :=
  match child w with Some c => bool_decide (is_Some (status c)) | None => true end.

Definition session_answer {X} (v : moment) (w : session) (e : sessionE X) : X * session :=
  match e in sessionE X return X * session with
  | Metadata p =>
      let '(r, _) := exec (of_disk v) (disk w) (SymlinkMetadata p) in
      (r, set_seen w (Some (p, r)))
  | OnUser _ e => let '(x, u) := exec (of_person v) (person w) e in (x, set_person w u)
  | Geteuid => (euid (disk w), w)
  | Connect p =>
      (Ok (length (talks w)),
       set_talks (set_answers w (tail (answers w)))
         (talks w ++ [mkTalk p (inspected w p) [] (default (mkSource [] None) (head (answers w)))]))
  | SetTimeout stream => (Ok tt, w)
  | WriteAll stream text =>
      (Ok tt, set_talks w (alter (fun t => mkTalk (place t) (vouched t) (said t ++ text) (reply t)) stream (talks w)))
  | Receive stream read =>
      (match talks w !! stream with Some t => read (reply t) | None => Err (str "not connected") end, w)
  | Println line => if closed v then (Panic, w) else (Ok tt, print_out w line)
  | Register s => (Ok (length (handlers w)), set_handlers w (handlers w ++ [(length (handlers w), s)]))
  | Unregister r => (tt, set_handlers w (filter (fun h => fst h <> r) (handlers w)))
  | SwapFlag s => (bool_decide (s ∈ flags w), set_flags w (filter (fun s' => s' <> s) (flags w)))
  | Spawn program => (Ok (new_pid v), set_child w (mkChild (new_pid v) None (talks w) (seen w) None))
  | TryWait =>
      match child w with
      | Some c =>
          match status c with
          | Some st => (Ok (Some st), w)
          | None => (Ok (ended v), set_child w (mkChild (pid c) (ended v) (spawned_after c) (spawned_seen c) (wait_failure c)))
          end
      | None => (Ok None, w)
      end
  | KillProcess p s => (Ok tt, add_kill w (mkKill p s (reaped w) None))
  | ChildKill =>
      match child w with
      | Some c => (Ok tt, if reaped w then w else add_kill w (mkKill (pid c) KILL false None))
      | None => (Ok tt, w)
      end
  | ChildWait =>
      match child w with
      | Some c =>
          let st := default (default 0 (ended v)) (status c) in
          (Ok st, set_child w (mkChild (pid c) (Some st) (spawned_after c) (spawned_seen c) (wait_failure c)))
      | None => (Ok 0, w)
      end
  | InstantNow => (clock w, w)
  | Sleep ms => (tt, set_clock w (clock w + ms))
  end.

(** An operation that fails: what it may have done all the same. *)
Definition session_fails {X} (v : moment) (error : io_error) (w : session) (e : sessionE X) : X * session :=
  match e in sessionE X return X * session with
  | Metadata p => (Err error, set_seen w (Some (p, Err error)))
  | Connect p => (Err error, w)
  | SetTimeout stream => (Err error, w)
  | WriteAll stream text =>
      (Err error,
       set_talks w (alter (fun t => mkTalk (place t) (vouched t) (said t ++ firstn (sent v) text) (reply t)) stream (talks w)))
  | Register s => (Err error, w)
  | Spawn program => (Err error, w)
  | TryWait => if reaped w then session_answer v w TryWait else (Err error, w)
  | KillProcess p s => (Err error, add_kill w (mkKill p s (reaped w) (Some error)))
  | ChildKill =>
      match child w with
      | Some c => (Err error, if reaped w then w else add_kill w (mkKill (pid c) KILL false (Some error)))
      | None => (Err error, w)
      end
  | ChildWait =>
      match child w with
      | Some c =>
          match status c with
          | Some st => (Ok st, w)
          | None => (Err error, set_child w (mkChild (pid c) None (spawned_after c) (spawned_seen c) (Some error)))
          end
      | None => (Err error, w)
      end
  | e => session_answer v w e
  end.

Definition session_exec {X} (v : moment) (w : session) (e : sessionE X) : X * session :=
  let w := interfere v w in
  match fault v with
  | Some error => session_fails v error w e
  | None => session_answer v w e
  end.

#[global] Instance session_handler : Handler sessionE session moment := fun X v w e => session_exec v w e.

(** ** What a conversation consists of *)

(** The environment's part between two operations. *)
Record drift (w w' : session) : Prop := mk_drift {
  dr_person : person w' = person w;
  dr_seen : seen w' = seen w;
  dr_answers : answers w' = answers w;
  dr_talks : talks w' = talks w;
  dr_child : child w' = child w;
  dr_handlers : handlers w' = handlers w;
  dr_kills : kills w' = kills w;
  dr_euid : euid (disk w') = euid (disk w);
  dr_clock : clock w <= clock w';
}.

Lemma interfere_drift v w : drift w (interfere v w).
Proof.
  split; try done; cbn; [|lia]. destruct (other_disk v) as [s|]; [|done].
  by destruct (Z.eqb_spec (euid s) (euid (disk w))).
Qed.

Lemma session_op {X} (I : session -> Prop) (e : sessionE X) (Q : X -> session -> Prop) w :
  I w ->
  (forall v w', drift w w' -> let '(x, w'') := session_answer v w' e in I w'' /\ Q x w'') ->
  (forall v error w', drift w w' -> let '(x, w'') := session_fails v error w' e in I w'' /\ Q x w'') ->
  safe I (trigger e) Q w.
Proof.
  intros HI Ha Hf. apply safe_vis; [done|]. intros v. change (exec v w e) with (session_exec v w e). unfold session_exec.
  pose proof (interfere_drift v w) as Hd. destruct (fault v) as [error|].
  - specialize (Hf v error _ Hd). destruct (session_fails v error _ e). apply safe_ret; apply Hf.
  - specialize (Ha v _ Hd). destruct (session_answer v _ e). apply safe_ret; apply Ha.
Qed.

(** What conversations leave alone. *)
Definition keeps (w w' : session) : Prop :=
  child w' = child w /\ handlers w' = handlers w /\ kills w' = kills w /\
  euid (disk w') = euid (disk w) /\ clock w <= clock w'.

#[global] Instance keeps_preorder : PreOrder keeps.
Proof.
  split; [intros w; split_and!; done || lia|].
  intros w1 w2 w3 (? & ? & ? & ? & ?) (? & ? & ? & ? & ?). split_and!; congruence || lia.
Qed.

Lemma drift_keeps w w' : drift w w' -> keeps w w'.
Proof. by intros [? ? ? ? ? ? ? ? ?]. Qed.

Definition stays (w w' : session) : Prop := keeps w w' /\ talks w' = talks w.

#[global] Instance stays_preorder : PreOrder stays.
Proof.
  split; [by intros w|]. intros w1 w2 w3 [? ?] [? ?]. split; [by transitivity w2|congruence].
Qed.

Lemma drift_stays w w' : drift w w' -> stays w w'.
Proof. intros H. split; [by apply drift_keeps|apply H]. Qed.

(** A dialogue with the user. *)
Lemma on_user_stays {A} (p : prog userE A) (Q : A -> Prop) w :
  (forall u, safe (fun _ => True) p (fun a _ => Q a) u) ->
  safe (stays w) (on_user p) (fun a w' => stays w w' /\ Q a) w.
Proof.
  intros Hp. cut (forall w1, stays w w1 -> safe (fun _ => True) p (fun a _ => Q a) (person w1) ->
    safe (stays w) (on_user p) (fun a w' => stays w w' /\ Q a) w1); [intros H; by apply H|].
  clear Hp. unfold on_user. induction p as [a|X e k IH]; intros w1 Hw; cbn [lift safe].
  - intros (_ & HQ). by split_and!.
  - intros (_ & Hk). split; [done|]. intros v.
    assert (exec v w1 (OnUser X e) =
      let '(x, u) := exec (of_person v) (person w1) e in (x, set_person (interfere v w1) u)) as ->.
    { change (exec v w1 (OnUser X e)) with (session_exec v w1 (OnUser X e)). unfold session_exec. destruct (fault v); reflexivity. }
    specialize (Hk (of_person v)). destruct (exec (of_person v) (person w1) e) as [x u]. cbn [fst snd] in *.
    apply IH; [|exact Hk]. transitivity w1; [done|].
    exact (drift_stays _ _ (interfere_drift v w1)).
Qed.

(** *** Triples on conversations

    [dialogue P ts m Q]: when the conversations since [w0] are [ts], [P] holds of the
    conversations at every moment of [m], and [Q] of its result and of those at its end. *)

(** A conversation on the control socket of the environment, which was found to be the
    user's own just before. *)
Definition safe_socket (var_os : environment) (uid : Z) (t : talk) : Prop :=
  control_socket_path var_os = Ok (place t) /\
  exists m, vouched t = Some m /\ md_type m = SocketFile /\ Z.land (md_mode m) MODE_0777 = MODE_0600 /\ md_uid m = uid.

Definition say (t : talk) (text : bytes) : talk := mkTalk (place t) (vouched t) (said t ++ text) (reply t).

Section Dialogue.
Context (var_os : environment) (w0 : session).

Definition now (ts : list talk) (w : session) : Prop :=
  keeps w0 w /\ talks w = talks w0 ++ ts.

Definition dialogue {A} (P : list talk -> Prop) (ts : list talk) (m : prog sessionE A)
    (Q : A -> list talk -> Prop) : Prop :=
  forall w, now ts w ->
    safe (fun w' => exists ts', now ts' w' /\ P ts') m (fun r w' => exists ts', now ts' w' /\ P ts' /\ Q r ts') w.

Lemma now_stays ts w w' : now ts w -> stays w w' -> now ts w'.
Proof. intros [Hk Ht] [Hk' Ht']. split; [by transitivity w|congruence]. Qed.

Lemma dialogue_ret {A} (P : list talk -> Prop) ts (a : A) (Q : A -> list talk -> Prop) :
  P ts -> Q a ts -> dialogue P ts (Ret a) Q.
Proof. intros HP HQ w Hw. apply safe_ret; exists ts; by split_and!. Qed.

Lemma dialogue_bind {A B} P ts (m : prog sessionE A) (f : A -> prog sessionE B) Q :
  dialogue P ts m (fun a ts' => dialogue P ts' (f a) Q) -> dialogue P ts (m ≫= f) Q.
Proof.
  intros Hm w Hw. apply safe_bind. eapply safe_mono; [..|exact (Hm w Hw)]; [done|].
  intros a w' (ts' & Hw' & _ & Hf). by apply Hf.
Qed.

Lemma dialogue_try {A B} P ts (m : prog sessionE (result bytes A)) (f : A -> prog sessionE (result bytes B)) Q :
  dialogue P ts m (fun r ts' => match r with
    | Ok a => dialogue P ts' (f a) Q
    | Err e => P ts' -> Q (Err e) ts'
    | Panic => P ts' -> Q Panic ts'
    end) -> dialogue P ts (try_bind f m) Q.
Proof.
  intros Hm w Hw. apply safe_bind. eapply safe_mono; [..|exact (Hm w Hw)]; [done|].
  intros [a|e|] w' (ts' & Hw' & HP & Hf); [by apply Hf|apply safe_ret; exists ts'; auto..].
Qed.

Lemma dialogue_map_err {A E} P ts (g : E -> bytes) (m : prog sessionE (result E A)) Q :
  dialogue P ts m (fun r ts' => Q (map_err g r) ts') -> dialogue P ts (map_err_prog g m) Q.
Proof.
  intros Hm w Hw. apply safe_bind. eapply safe_mono; [..|exact (Hm w Hw)]; [done|].
  intros r w' (ts' & Hw' & HP & HQ). apply safe_ret; exists ts'; auto.
Qed.

Lemma dialogue_mono {A} (P P' : list talk -> Prop) ts (m : prog sessionE A) (Q Q' : A -> list talk -> Prop) :
  (forall ts, P ts -> P' ts) -> (forall a ts, P ts -> Q a ts -> Q' a ts) -> dialogue P ts m Q -> dialogue P' ts m Q'.
Proof.
  intros HP HQ Hm w Hw. eapply safe_mono; [..|exact (Hm w Hw)].
  - intros w' (ts' & ? & ?). eauto.
  - intros a w' (ts' & ? & ? & ?). exists ts'. auto.
Qed.

(** The user is asked. *)
Lemma dialogue_user {A} (P : list talk -> Prop) ts (p : prog userE A) (Q : A -> Prop) :
  (forall u, safe (fun _ => True) p (fun a _ => Q a) u) -> P ts -> dialogue P ts (on_user p) (fun a ts' => ts' = ts /\ Q a).
Proof.
  intros Hp HP w Hw. eapply safe_mono; [..|by apply on_user_stays].
  - intros w' Hs. exists ts. split; [by eapply now_stays|done].
  - intros a w' [Hs HQ]. exists ts. split_and!; [by eapply now_stays|done..].
Qed.

Lemma dialogue_println (P : list talk -> Prop) ts line :
  P ts -> dialogue P ts (trigger (Println line)) (fun r ts' => ts' = ts).
Proof.
  intros HP w Hw.
  assert (forall w', drift w w' -> now ts w' /\ now ts (print_out w' line)) as Hn.
  { intros w' Hd. assert (now ts w') as H by (eapply now_stays; eauto using drift_stays). by split. }
  apply session_op; [by exists ts|intros v w' Hd|intros v error w' Hd]; destruct (Hn w' Hd);
    cbn [session_fails session_answer]; destruct (closed v); split; exists ts; by split_and!.
Qed.

Lemma alter_last {A} (f : A -> A) (l : list A) x : alter f (length l) (l ++ [x]) = l ++ [f x].
Proof. induction l as [|y l IH]; [done|]. cbn. by f_equal. Qed.

(** Something is said on the last connection, or only a part of it. *)
Lemma dialogue_write (P : list talk -> Prop) ts t text :
  (forall k, k `prefix_of` text -> P (ts ++ [say t k])) ->
  dialogue P (ts ++ [t]) (map_err_prog control_io (trigger (WriteAll (length (talks w0 ++ ts)) text)))
    (fun r ts' => match r with Ok _ => ts' = ts ++ [say t text] | Err _ => True | Panic => False end).
Proof.
  intros HP. apply dialogue_map_err. intros w [Hk Ht].
  assert (P (ts ++ [t])) as H0.
  { specialize (HP [] (prefix_nil _)). unfold say in HP. rewrite app_nil_r in HP. by destruct t. }
  assert (forall w' k, drift w w' -> now (ts ++ [say t k])
    (set_talks w' (alter (fun t => say t k) (length (talks w0 ++ ts)) (talks w')))) as Hn.
  { intros w' k Hd. split; [transitivity w; [done|exact (drift_keeps _ _ Hd)]|].
    cbn. rewrite (dr_talks _ _ Hd), Ht, !(app_assoc (talks w0) ts). exact (alter_last _ _ _). }
  apply session_op; [by exists (ts ++ [t])|intros v w' Hd|intros v error w' Hd]; cbn [session_fails session_answer].
  - pose proof (Hn w' text Hd). pose proof (HP text (reflexivity _)). split; exists (ts ++ [say t text]); by split_and!.
  - pose proof (Hn w' (firstn (sent v) text) Hd). assert (firstn (sent v) text `prefix_of` text) as Hp.
    { exists (skipn (sent v) text). by rewrite take_drop. }
    pose proof (HP _ Hp). split; exists (ts ++ [say t (firstn (sent v) text)]); by split_and!.
Qed.

Lemma dialogue_receive {A} (P : list talk -> Prop) ts t (read : source -> result bytes A) :
  P (ts ++ [t]) ->
  dialogue P (ts ++ [t]) (trigger (Receive (length (talks w0 ++ ts)) read)) (fun r ts' => ts' = ts ++ [t] /\ r = read (reply t)).
Proof.
  intros HP w Hw.
  assert (forall w', drift w w' -> now (ts ++ [t]) w' /\ talks w' !! length (talks w0 ++ ts) = Some t) as Hn.
  { intros w' Hd. split; [by eapply now_stays; eauto using drift_stays|].
    destruct Hw as [_ Ht]. rewrite (dr_talks _ _ Hd), Ht, app_assoc. by rewrite lookup_app_r, Nat.sub_diag by done. }
  apply session_op; [by exists (ts ++ [t])|intros v w' Hd|intros v error w' Hd]; cbn [session_fails session_answer];
    destruct (Hn w' Hd) as [H1 ->]; split; exists (ts ++ [t]); by split_and!.
Qed.

(** An operation that concerns none of this. *)
Lemma dialogue_idle {X} (P : list talk -> Prop) ts (e : sessionE X) (R : X -> Prop) :
  P ts ->
  (forall v w', stays w' (snd (session_answer v w' e)) /\ R (fst (session_answer v w' e))) ->
  (forall v error w', stays w' (snd (session_fails v error w' e)) /\ R (fst (session_fails v error w' e))) ->
  dialogue P ts (trigger e) (fun x ts' => ts' = ts /\ R x).
Proof.
  intros HP Ha Hf w Hw. assert (forall w' w'', drift w w' -> stays w' w'' -> now ts w'') as Hn.
  { intros w' w'' Hd Hs. eapply now_stays; [exact Hw|]. transitivity w'; [by apply drift_stays|done]. }
  apply session_op; [by exists ts|intros v w' Hd|intros v error w' Hd].
  - destruct (Ha v w') as [Hs HR]. destruct (session_answer v w' e) as [x w'']. split; exists ts; eauto.
  - destruct (Hf v error w') as [Hs HR]. destruct (session_fails v error w' e) as [x w'']. split; exists ts; eauto.
Qed.

Lemma dialogue_timeout (P : list talk -> Prop) ts stream :
  P ts -> dialogue P ts (map_err_prog control_io (trigger (SetTimeout stream))) (fun r ts' => ts' = ts /\ r <> Panic).
Proof.
  intros HP. apply dialogue_map_err. eapply dialogue_mono; [..|apply (dialogue_idle P _ _ (fun r => r <> Panic)); [done|..]]; [done|..].
  - intros r ts' _ [-> Hr]. split; [done|]. by destruct r.
  - by intros v w'.
  - by intros v error w'.
Qed.

(** A connection is opened, to a socket that was inspected. *)
Definition opened (t : talk) : Prop := said t = [] /\ safe_socket var_os (euid (disk w0)) t.

Lemma open_safe (P : list talk -> Prop) ts path md w :
  control_socket_path var_os = Ok path ->
  now ts w -> seen w = Some (path, Ok md) -> P ts -> (forall t, opened t -> P (ts ++ [t])) ->
  md_type md = SocketFile -> Z.land (md_mode md) MODE_0777 = MODE_0600 -> md_uid md = euid (disk w0) ->
  safe (fun w' => exists ts', now ts' w' /\ P ts') (trigger (Connect path))
    (fun r w' => exists ts', now ts' w' /\ P ts' /\
       match r with
       | Ok stream => stream = length (talks w0 ++ ts) /\ exists t, ts' = ts ++ [t] /\ opened t
       | Err _ => ts' = ts
       | Panic => False
       end) w.
Proof.
  intros Hpath Hw Hseen HP Ho Ht Hm Hu.
  apply session_op; [by exists ts|intros v w' Hd|intros v error w' Hd]; cbn [session_answer session_fails].
  - set (t := mkTalk path (inspected w' path) [] (default (mkSource [] None) (head (answers w')))).
    assert (opened t) as Hopen.
    { split; [done|]. split; [exact Hpath|]. exists md. rewrite <- Hu. split_and!; [|done..]. cbn. unfold inspected.
      by rewrite (dr_seen _ _ Hd), Hseen, decide_True. }
    assert (now (ts ++ [t]) (set_talks (set_answers w' (tail (answers w'))) (talks w' ++ [t]))) as Hn.
    { destruct Hw as [Hk Hts]. split; [transitivity w; [done|exact (drift_keeps _ _ Hd)]|].
      cbn. by rewrite (dr_talks _ _ Hd), Hts, app_assoc. }
    pose proof (Ho t Hopen). split; exists (ts ++ [t]); split_and!; try done; [|by exists t].
    by rewrite (dr_talks _ _ Hd), (proj2 Hw).
  - assert (now ts w') by (eapply now_stays; eauto using drift_stays). split; exists ts; by split_and!.
Qed.

Definition connected (ts : list talk) (r : result bytes nat) (ts' : list talk) : Prop :=
  match r with
  | Ok stream => stream = length (talks w0 ++ ts) /\ exists t, ts' = ts ++ [t] /\ opened t
  | Err _ => True
  | Panic => False
  end.

(** [connect_control] from the answer of [symlink_metadata] on. *)
Lemma checked_safe (P : list talk -> Prop) ts path md w :
  control_socket_path var_os = Ok path ->
  now ts w -> seen w = Some (path, Ok md) -> P ts -> (forall t, opened t -> P (ts ++ [t])) ->
  safe (fun w' => exists ts', now ts' w' /\ P ts')
    (if negb (is_socket (md_type md)) then Ret (Err (str "control socket path is not a Unix socket"))
     else
       euid ← trigger Geteuid;
       if negb (Z.land (md_mode md) MODE_0777 =? MODE_0600) || negb (md_uid md =? euid)
       then Ret (Err (str "control socket must be owned by the current user with mode 0600"))
       else
         stream ←? map_err_prog (fun error => str "cannot connect to the agent control socket: " ++ message error)
           (trigger (Connect path));
         _ ←? map_err_prog control_io (trigger (SetTimeout stream));
         _ ←? map_err_prog control_io (trigger (SetTimeout stream));
         Ret (Ok stream))
    (fun r w' => exists ts', now ts' w' /\ P ts' /\ connected ts r ts') w.
Proof.
  intros Hpath Hw Hseen HP Ho. assert (exists ts', now ts' w /\ P ts') as H0 by by exists ts.
  assert (forall w' e, now ts w' -> exists ts', now ts' w' /\ P ts' /\ connected ts (Err e) ts') as Hfail by (by intros w' e; exists ts).
  destruct (is_socket (md_type md)) eqn:Es; cbn [negb]; [|apply safe_ret; [done|by apply Hfail]].
  match goal with |- safe ?I (trigger Geteuid ≫= ?f) ?Q _ =>
    assert (forall w1, now ts w1 -> seen w1 = Some (path, Ok md) -> safe I (f (euid (disk w0))) Q w1) as Hrest end; cycle 1.
  { apply safe_bind, session_op; [done|intros v w' Hd|intros v error w' Hd]; cbn [session_answer session_fails];
      (assert (now ts w') as Hn by (eapply now_stays; eauto using drift_stays));
      (split; [by exists ts|]); destruct Hn as [(Hk1 & Hk2 & Hk3 & Heu & Hk4) Htk]; rewrite Heu;
      (apply Hrest; [by split_and!|by rewrite (dr_seen _ _ Hd)]). }
  intros w1 Hn Hs. destruct (_ || _)%bool eqn:Ec; [apply safe_ret; [by exists ts|by apply Hfail]|].
  apply orb_false_iff in Ec as [Em%negb_false_iff%Z.eqb_eq Eu%negb_false_iff%Z.eqb_eq].
  apply safe_try, safe_map_err. eapply safe_mono; [..|apply (open_safe P ts path md w1); try done; by destruct (md_type md)]; [done|].
  intros r w2 (ts' & Hn2 & HP2 & Hr). split; [by exists ts'|]. destruct r as [stream|e|]; cbn [map_err]; [| |done].
  2: { split; [by exists ts'|]. by exists ts'. }
  eapply (dialogue_try P ts'); [|done]. eapply dialogue_mono; [..|by apply dialogue_timeout]; [done|].
  intros [[]|e|] ts2 HP3 [-> Hnp]; [|done..].
  apply dialogue_try. eapply dialogue_mono; [..|by apply dialogue_timeout]; [done|].
  intros [[]|e|] ts3 HP4 [-> Hnp']; [|done..]. apply dialogue_ret; [done|]. exact Hr.
Qed.

Lemma dialogue_connect (P : list talk -> Prop) ts :
  P ts -> (forall t, opened t -> P (ts ++ [t])) -> dialogue P ts (connect_control var_os) (connected ts).
Proof.
  intros HP Ho. unfold connect_control. apply dialogue_try, dialogue_ret; [done|].
  destruct (control_socket_path var_os) as [path|e|] eqn:Ep; [|done|].
  2: { unfold control_socket_path in Ep. destruct (non_empty _); [done|]. by destruct (var_os _). }
  intros w Hw.
  assert (forall w', stays w w' -> now ts w') as Hst by (intros w' Hs; by eapply now_stays).
  apply safe_try, safe_map_err, session_op; [by exists ts|intros v w1 Hd|intros v error w1 Hd]; pose proof (drift_stays _ _ Hd) as Hs.
  - cbn [session_answer].
    assert (exists r s, exec (of_disk v) (disk w1) (SymlinkMetadata path) = (r, s) /\ r <> Panic) as (r & s & -> & Hr).
    { destruct (exec_cases (of_disk v) (disk w1) (SymlinkMetadata path)) as [[m ->]| ->]; cbn [fs_fault fs_exec]; [eauto|].
      destruct (find (disk w1) path) as [[]|]; eauto. }
    assert (now ts (set_seen w1 (Some (path, r)))) as Hn by by apply Hst.
    split; [by exists ts|]. split; [by exists ts|]. destruct r as [md|e|]; cbn [map_err]; [|split; [by exists ts|]; by exists ts|done].
    by apply checked_safe.
  - assert (now ts (set_seen w1 (Some (path, Err error)))) as Hn by by apply Hst. cbn [session_fails].
    split; [by exists ts|]. split; [by exists ts|]. split; [by exists ts|]. by exists ts.
Qed.

(** *** The two kinds of conversations *)

Let uid : Z := euid (disk w0).

(** The client asks for the pending requests, or has been answered. *)
Definition listing (t : talk) : Prop := safe_socket var_os uid t /\ said t `prefix_of` list_message.
Definition answered (t : talk) (requests : list (bytes * bytes)) : Prop :=
  safe_socket var_os uid t /\ said t = list_message /\ Control.fetch_authorization_requests (reply t) = Ok requests.

(** The client authorizes the request [id], or has done so. *)
Definition authorizing (id : bytes) (t : talk) : Prop :=
  safe_socket var_os uid t /\ exists pin, pin_ok pin /\ said t `prefix_of` authorize_message id pin.
Definition authorized (id : bytes) (t : talk) : Prop :=
  safe_socket var_os uid t /\ exists pin, pin_ok pin /\ said t = authorize_message id pin /\ authorize_response (reply t) = Ok tt.

Lemma opened_say t k : opened t -> safe_socket var_os uid (say t k) /\ said (say t k) = k.
Proof. intros [Hs Hv]. split; [exact Hv|]. unfold say. cbn [said]. by rewrite Hs. Qed.

Lemma answered_listing t requests : answered t requests -> listing t.
Proof. intros (? & E & _). split; [done|]. by rewrite E. Qed.

Lemma dialogue_fetch (P : list talk -> Prop) ts :
  P ts -> (forall t, listing t -> P (ts ++ [t])) ->
  dialogue P ts (fetch_authorization_requests var_os)
    (fun r ts' => match r with
       | Ok requests => exists t, ts' = ts ++ [t] /\ answered t requests
       | Err _ => True
       | Panic => False
       end).
Proof.
  intros HP Hl. assert (forall t k, opened t -> k `prefix_of` list_message -> P (ts ++ [say t k])) as Hk.
  { intros t k Ht Hk. apply Hl. destruct (opened_say t k Ht) as [? E]. split; [done|by rewrite E]. }
  assert (forall t, opened t -> P (ts ++ [t])) as Ho.
  { intros t Ht. apply Hl. destruct Ht as [E ?]. split; [done|rewrite E; apply prefix_nil]. }
  apply dialogue_try. eapply dialogue_mono; [..|by apply (dialogue_connect P)]; [done|].
  intros [stream|e|] ts1 HP1 Hc; [|done..]. destruct Hc as (-> & t & -> & Ht).
  apply dialogue_try. eapply dialogue_mono; [..|apply dialogue_write; intros k Hpre; by apply Hk]; [done|].
  intros [[]|e|] ts2 HP2 Hw; [|done..]. subst ts2.
  eapply dialogue_mono; [..|by apply dialogue_receive]; [done|]. intros r ts3 _ [-> ->]. cbn [say reply].
  pose proof (fetch_authorization_requests_fails (reply t)) as Hf.
  destruct (Control.fetch_authorization_requests (reply t)) as [requests|e|] eqn:E; [|done|by destruct Hf].
  exists (say t list_message). split; [done|]. destruct (opened_say t list_message Ht). by split_and!.
Qed.

Lemma read_existing_pin_ok context input u :
  safe (fun _ => True) (read_existing_pin var_os context input) (fun r _ => pin_result r) u.
Proof.
  eapply safe_mono; [..|apply (entry_safe var_os); constructor]; [done|]. by intros r u' [? _].
Qed.

Lemma dialogue_authorize (P : list talk -> Prop) ts id name input report :
  P ts -> (forall t, authorizing id t -> P (ts ++ [t])) ->
  dialogue P ts (authorize_request var_os id name input report)
    (fun r ts' => match r with
       | Ok _ => exists t, ts' = ts ++ [t] /\ authorized id t
       | Err _ => True
       | Panic => report = true
       end).
Proof.
  intros HP Hl. apply dialogue_try. eapply dialogue_mono; [..|apply (dialogue_user P ts _ pin_result); [intros u; apply read_existing_pin_ok|done]]; [done|].
  intros [pin|e|] ts0 HP0 [-> Hpin]; [|done..]. cbn [pin_result] in Hpin.
  assert (forall t k, opened t -> k `prefix_of` authorize_message id pin -> P (ts ++ [say t k])) as Hk.
  { intros t k Ht Hk. apply Hl. destruct (opened_say t k Ht) as [? E]. split; [done|]. exists pin. by rewrite E. }
  assert (forall t, opened t -> P (ts ++ [t])) as Ho.
  { intros t Ht. apply Hl. destruct Ht as [E ?]. split; [done|]. exists pin. rewrite E. split; [done|apply prefix_nil]. }
  assert (authorize_message id pin = authorize_line id pin ++ pin) as Em.
  { unfold authorize_message, authorize_line. by rewrite <- !app_assoc. }
  apply dialogue_try. eapply dialogue_mono; [..|by apply (dialogue_connect P)]; [done|].
  intros [stream|e|] ts1 HP1 Hc; [|done..]. destruct Hc as (-> & t & -> & Ht).
  apply dialogue_try. eapply dialogue_mono; [..|apply dialogue_write; intros k Hpre; apply Hk; [done|]]; [done| |].
  2: { rewrite Em. etrans; [exact Hpre|]. by exists pin. }
  intros [[]|e|] ts2 HP2 Hw; [|done..]. subst ts2.
  apply dialogue_try. eapply dialogue_mono; [..|apply dialogue_write; intros k [k' Hpre]]; [done| |].
  2: { assert (say (say t (authorize_line id pin)) k = say t (authorize_line id pin ++ k)) as ->
         by (unfold say; cbn [said vouched reply]; by rewrite <- app_assoc).
       apply Hk; [done|]. rewrite Em. exists k'. by rewrite <- app_assoc, <- Hpre. }
  intros [[]|e|] ts3 HP3 Hw; [|done..]. subst ts3.
  set (t' := say (say t (authorize_line id pin)) pin) in *.
  apply dialogue_try. eapply dialogue_mono; [..|by apply dialogue_receive]; [done|]. intros r ts4 _ [-> ->].
  change (reply t') with (reply t). pose proof (authorize_response_fails (reply t)) as Hf.
  destruct (authorize_response (reply t)) as [[]|e|] eqn:E; [|done|by destruct Hf].
  assert (exists t'', ts ++ [t'] = ts ++ [t''] /\ authorized id t'') as Hdone.
  { exists t'. split; [done|]. split; [exact (proj2 Ht)|]. exists pin. split_and!; [done| |done].
    unfold t', say. cbn [said]. by rewrite (proj1 Ht), Em. }
  destruct report; [|by apply dialogue_ret].
  eapply dialogue_mono; [..|by apply dialogue_println]; [done|]. intros [[]|e|] ts5 _ ->; done.
Qed.
End Dialogue.

(** ** Authorizing *)

(** Conversations in which only pending requests are authorized: an authorization follows
    immediately the answer that lists its request, and the request is one that [chosen]
    allows among those that were pending. *)
Inductive prudent (var_os : environment) (w0 : session) (chosen : list (bytes * bytes) -> bytes -> Prop) : list talk -> Prop :=
  | prudent_nil : prudent var_os w0 chosen []
  | prudent_list ts t : prudent var_os w0 chosen ts -> listing var_os w0 t -> prudent var_os w0 chosen (ts ++ [t])
  | prudent_authorize ts t t' requests id :
      prudent var_os w0 chosen ts -> answered var_os w0 t requests -> chosen requests id -> authorizing var_os w0 id t' ->
      prudent var_os w0 chosen (ts ++ [t] ++ [t']).

(** The requests [authorize] may authorize: the one its argument names. *)
Definition named (arguments : list bytes) (requests : list (bytes * bytes)) (id : bytes) : Prop :=
  exists input name, parse_authorize arguments None Auto = Ok (Some id, input) /\ (id, name) ∈ requests.

Section Prudence.
Context (var_os : environment) (w0 : session) (arguments : list bytes).

Let P (ts : list talk) : Prop := prudent var_os w0 (named arguments) ts /\ len ts <= 2.
Let Q (r : result bytes unit) (ts : list talk) : Prop := forall id input,
  parse_authorize arguments None Auto = Ok (Some id, input) -> r = Ok tt ->
  exists t requests t', ts = [t; t'] /\ answered var_os w0 t requests /\ authorized var_os w0 id t'.

Lemma P_nil : P [].
Proof. split; [constructor|by vm_compute]. Qed.

Lemma P_listing t : listing var_os w0 t -> P ([] ++ [t]).
Proof. intros Hl. split; [apply prudent_list; [constructor|done]|by vm_compute]. Qed.

Lemma print_requests_dialogue ts requests :
  P ts -> dialogue w0 P ts (print_requests requests) (fun _ ts' => ts' = ts).
Proof.
  intros HP. induction requests as [|[id name] requests IH]; [by apply dialogue_ret|]. cbn [print_requests].
  apply dialogue_try. eapply dialogue_mono; [..|by apply dialogue_println]; [done|]. by intros [[]|e|] ts' _ ->.
Qed.

Lemma list_dialogue :
  dialogue w0 P [] (list_authorization_requests var_os) (fun _ _ => True).
Proof.
  apply dialogue_try. eapply dialogue_mono; [..|apply (dialogue_fetch var_os w0 P []); [exact P_nil|exact P_listing]]; [done|].
  intros [requests|e|] ts HP Hr; [|done..]. destruct (is_empty requests).
  - eapply dialogue_mono; [..|by apply dialogue_println]; done.
  - eapply dialogue_mono; [..|by apply print_requests_dialogue]; done.
Qed.

Lemma run_authorize_dialogue : dialogue w0 P [] (run_authorize var_os arguments) Q.
Proof.
  unfold run_authorize. apply dialogue_try, dialogue_ret; [exact P_nil|].
  destruct (parse_authorize arguments None Auto) as [[[id|] input]|e|] eqn:Ea; [| |done..].
  2: { eapply dialogue_mono; [..|exact list_dialogue]; [done|]. unfold Q. by intros r ts _ _ id' input' [=]. }
  apply dialogue_try. eapply dialogue_mono; [..|apply (dialogue_fetch var_os w0 P []); [exact P_nil|exact P_listing]]; [done|].
  intros [requests|e|] ts HP Hr; [|done..]. destruct Hr as (t & -> & Ht).
  apply dialogue_try, dialogue_ret; [done|].
  destruct (head (filter (fun request => fst request = id) requests)) as [[id' name]|] eqn:Eh; cbn [fmap option_fmap option_map ok_or]; [|done].
  apply head_Some_elem_of, list_elem_of_filter in Eh as [Hid Hin]. cbn [fst] in Hid. subst id'.
  eapply dialogue_mono; [..|apply (dialogue_authorize var_os w0 P ([] ++ [t])); [done|]]; [done|..].
  - intros r ts' HP' Hr id' input' E0 ->. simplify_eq. destruct Hr as (t' & -> & Ht'). by exists t, requests, t'.
  - intros t' Ht'. split; [|by vm_compute]. rewrite <- app_assoc.
    apply (prudent_authorize var_os w0 _ [] t t' requests id); [constructor|done| |done]. by exists input, name.
Qed.
End Prudence.

(** [C10] [keyvisor authorize] authorizes the request it is told to, and only if the agent
    says that it is pending.  Whatever the agent, the user and the files do, and at any
    moment: everything said was said on the control socket of the environment, found by the last
    inspection of that path to be the user's own, with the mode 0600; the PIN, of 6 to 64 bytes, is sent at most once, in an authorization
    of the request the arguments name, right after an answer that lists it; and success
    means that the agent accepted it. *)
Theorem authorize_is_prudent var_os arguments w p' w' :
  talks w = [] -> reach (run_authorize var_os arguments) w p' w' ->
  keeps w w' /\ prudent var_os w (named arguments) (talks w') /\ len (talks w') <= 2 /\
  forall id input, parse_authorize arguments None Auto = Ok (Some id, input) -> p' = Ret (Ok tt) ->
    exists t requests t', talks w' = [t; t'] /\ answered var_os w t requests /\ authorized var_os w id t'.
Proof.
  intros Ht Hr.
  pose proof (run_authorize_dialogue var_os w arguments) as Hd.
  assert (now w [] w) as Hn by (split; [reflexivity|by rewrite app_nil_r]). specialize (Hd w Hn).
  destruct (safe_reach_inv _ _ _ _ _ _ Hd Hr) as (ts & [Hk Hts] & [HP Hl]). rewrite Ht in Hts. cbn [app] in Hts. subst ts.
  split_and!; [done..|]. intros id input Ha ->.
  destruct (safe_reach_ret _ _ _ _ _ _ Hd Hr) as (ts & [_ Hts] & _ & HQ). rewrite Ht in Hts. cbn [app] in Hts. subst ts.
  by apply (HQ id input).
Qed.

(** ** Undisturbed *)

Lemma interfere_quiet w : interfere quiet_moment w = w.
Proof.
  destruct w. unfold interfere. cbn. rewrite Z.add_0_r, app_nil_r. reflexivity.
Qed.

Lemma exec_quiet {X} (e : sessionE X) w : exec quiet_moment w e = session_answer quiet_moment w e.
Proof.
  change (exec quiet_moment w e) with (session_answer quiet_moment (interfere quiet_moment w) e). by rewrite interfere_quiet.
Qed.

Lemma same_person w : set_person w (person w) = w.
Proof. by destruct w. Qed.

Lemma run_on_user {A} (p : prog userE A) w :
  run quiet_moment (on_user p) [] w = (fst (run obliging p [] (person w)), set_person w (snd (run obliging p [] (person w)))).
Proof.
  rewrite <- (same_person w) at 1. apply (run_lift OnUser (set_person w) obliging quiet_moment).
  intros X e u. rewrite exec_quiet. cbn [session_answer quiet_moment of_person set_person person].
  by destruct (exec obliging u e).
Qed.

Lemma quiet_op {Er X B} (g : Er -> bytes) (e : sessionE (result Er X)) (f : X -> prog sessionE (result bytes B)) w x w' :
  session_answer quiet_moment w e = (Ok x, w') ->
  run quiet_moment (x ←? map_err_prog g (trigger e); f x) [] w = run quiet_moment (f x) [] w'.
Proof. intros H. apply run_try, run_map_err. by rewrite run_trigger, exec_quiet. Qed.

Lemma quiet_op' {X B} (e : sessionE (result bytes X)) (f : X -> prog sessionE (result bytes B)) w x w' :
  session_answer quiet_moment w e = (Ok x, w') ->
  run quiet_moment (x ←? trigger e; f x) [] w = run quiet_moment (f x) [] w'.
Proof. intros H. apply run_try_op. by rewrite exec_quiet. Qed.

Lemma quiet_ret {A B} (a : A) (f : A -> prog sessionE (result bytes B)) w :
  run quiet_moment (x ←? Ret (Ok a); f x) [] w = run quiet_moment (f a) [] w.
Proof. by apply run_try. Qed.

Section Undisturbed.
Context (var_os : environment).

(** The user's own control socket, at its place. *)
Definition own_socket (s : fs) : Prop :=
  exists path i n, control_socket_path var_os = Ok path /\ find s path = Some (i, n) /\
    file_type n = SocketFile /\ Z.land (mode n) MODE_0777 = MODE_0600 /\ uid n = euid s.

(** A conversation, after what it was told. *)
Definition tell (w : session) (p : path) (m : metadata) (text : bytes) : session :=
  set_talks (set_answers (set_seen w (Some (p, Ok m))) (tail (answers w)))
    (talks w ++ [mkTalk p (Some m) text (default (mkSource [] None) (head (answers w)))]).

Lemma run_connect w :
  own_socket (disk w) -> exists p m, run quiet_moment (connect_control var_os) [] w = (Ok (length (talks w)), tell w p m []).
Proof.
  intros (path & i & n & Hp & Hf & Ht & Hm & Hu). exists path, (mk_metadata (file_type n) (mode n) (uid n) i).
  unfold connect_control. rewrite Hp, quiet_ret.
  erewrite quiet_op by (cbn [session_answer quiet_moment of_disk];
    change (exec calm (disk w) (SymlinkMetadata path)) with (fs_exec calm (disk w) (SymlinkMetadata path));
    cbn [fs_exec]; rewrite Hf; reflexivity).
  cbn [md_type md_mode md_uid]. rewrite Ht, Hm. cbn [is_socket negb].
  erewrite run_bind by (rewrite run_trigger, exec_quiet; reflexivity). cbn [set_seen disk].
  rewrite Hu, !Z.eqb_refl. cbn [negb orb].
  erewrite quiet_op by (cbn [session_answer]; unfold inspected; cbn [seen set_seen]; rewrite decide_True by done; reflexivity).
  erewrite quiet_op by reflexivity. erewrite quiet_op by reflexivity. reflexivity.
Qed.

Lemma run_write w p m text k :
  run quiet_moment (map_err_prog control_io (trigger (WriteAll (length (talks w)) k))) [] (tell w p m text) = (Ok tt, tell w p m (text ++ k)).
Proof.
  apply run_map_err. rewrite run_trigger, exec_quiet. cbn [session_answer tell set_talks talks]. f_equal.
  rewrite alter_last. reflexivity.
Qed.

Lemma run_receive {A} w p m text (read : source -> result bytes A) :
  run quiet_moment (trigger (Receive (length (talks w)) read)) [] (tell w p m text) =
    (read (default (mkSource [] None) (head (answers w))), tell w p m text).
Proof.
  rewrite run_trigger, exec_quiet. cbn [session_answer tell set_talks talks].
  by rewrite lookup_app_r, Nat.sub_diag by done.
Qed.

Lemma run_fetch w answer rest requests :
  own_socket (disk w) -> answers w = answer :: rest -> Control.fetch_authorization_requests answer = Ok requests ->
  exists p m, run quiet_moment (fetch_authorization_requests var_os) [] w = (Ok requests, tell w p m list_message).
Proof.
  intros Hs Ha Hf. destruct (run_connect w Hs) as (p & m & Hc). exists p, m. unfold fetch_authorization_requests.
  erewrite run_try by exact Hc. erewrite run_try by apply run_write. rewrite run_receive, Ha. cbn [head default].
  change (id answer) with answer. by rewrite Hf.
Qed.

Lemma run_authorize_request w id name input pin u answer rest :
  own_socket (disk w) -> answers w = answer :: rest -> authorize_response answer = Ok tt ->
  run obliging (read_existing_pin var_os (str "SSH signature with key “" ++ name ++ str "”") input) [] (person w) = (Ok pin, u) ->
  exists p m, run quiet_moment (authorize_request var_os id name input true) [] w =
    (Ok tt, print_out (tell (set_person w u) p m (authorize_message id pin)) (str "authorized " ++ id)).
Proof.
  intros Hs Ha Hf Hu. destruct (run_connect (set_person w u) Hs) as (p & m & Hc). exists p, m. unfold authorize_request.
  erewrite run_try by (rewrite run_on_user, Hu; reflexivity). erewrite run_try by exact Hc.
  cbn [fst snd]. change (length (talks (set_person w u))) with (length (talks w)) in *.
  erewrite run_try by apply (run_write (set_person w u)). erewrite run_try by apply (run_write (set_person w u)).
  erewrite run_try.
  2: { rewrite (run_receive (set_person w u)). change (answers (set_person w u)) with (answers w). rewrite Ha.
       cbn [head default]. change (@Datatypes.id source answer) with answer. rewrite Hf. reflexivity. }
  rewrite run_trigger, exec_quiet. cbn [session_answer quiet_moment closed].
  do 3 f_equal. unfold authorize_line, authorize_message. by rewrite <- !app_assoc.
Qed.
End Undisturbed.

(** A request identifier is not taken for an option. *)
Lemma plain_not_option id :
  plain_id id -> id <> str "--pin-stdin" /\ id <> str "--pinentry" /\ id <> str "--terminal".
Proof.
  intros Hid. assert (forall o c, c ∈ o -> id_byte c = false -> id <> o) as Hne.
  { intros o c Hc Hb ->. by apply (plain_not_in o c). }
  split_and!; [apply (Hne _ (b8 112))|apply (Hne _ (b8 112))|apply (Hne _ (b8 116))];
    try (by vm_compute); apply (bool_decide_unpack _); by vm_compute.
Qed.

Lemma parse_authorize_word id rest :
  plain_id id -> parse_authorize (id :: rest) None Auto = parse_authorize rest (Some id) Auto.
Proof.
  intros Hid. destruct (plain_not_option id Hid) as (H1 & H2 & H3). cbn [parse_authorize].
  rewrite !decide_False by done. unfold os_text, to_str. by rewrite utf8_ascii by by apply plain_ascii.
Qed.

Lemma parse_authorize_id id :
  plain_id id -> parse_authorize [id; str "--pin-stdin"] None Auto = Ok (Some id, Stdin).
Proof. intros Hid. rewrite parse_authorize_word by done. by vm_compute. Qed.

(** The command line, the control service and the broker work together: when a request
    is pending and the user, at a socket that is the user's own, types its PIN, then
    [keyvisor authorize ID --pin-stdin] says to the agent exactly what the agent's
    answers here are answers to, reports success, and the agent's request has
    the PIN in its channel, unchanged. *)
Theorem authorize_reaches_the_agent var_os st es s id p pin k e w :
  reachable es s -> peer_uid st = owner_uid st -> held s !! conn st = None -> authorizations s !! id = Some p ->
  len (list_pending s) <= MAX_PENDING_AUTHORIZATIONS ->
  (forall ch r, requests s !! ch = Some r -> utf8_valid (rq_key_name r) = true /\ len (rq_key_name r) <= 4 * 1024) ->
  6 <= len pin <= MAX_PIN_BYTES -> newline ∉ pin -> last pin <> Some carriage_return ->
  own_socket var_os (disk w) -> std_in (person w) = mkSource (pin ++ [newline] ++ k) e ->
  let listed := snd (run_alone st control_worker (accept s list_message)) in
  let taken := snd (run_alone st control_worker (accept s (authorize_message id pin))) in
  answers w = [mkSource (output listed) None; mkSource (output taken) None] ->
  exists w', run quiet_moment (run_authorize var_os [id; str "--pin-stdin"]) [] w = (Ok tt, w') /\
    said <$> talks w' = (said <$> talks w) ++ [list_message; authorize_message id pin] /\
    std_out w' = std_out w ++ [str "authorized " ++ id] /\
    exists r, requests (shared taken) !! pa_sender p = Some r /\ rq_id r = id /\ rq_channel r = Some pin.
Proof.
  intros Hre Hu Hh Hp Hl Hn Hpin Hnl Hcr Hs Hin listed taken Ha.
  pose proof (reachable_inv es s Hre) as Hi. pose proof (pending_listable es s Hre Hn) as Hlist.
  assert (exists name, (id, name) ∈ list_pending s) as [name Hpend].
  { exists (pa_key_name p). apply list_elem_of_fmap. exists (id, p). split; [done|]. by apply elem_of_map_to_list. }
  assert (plain_id id) as Hid.
  { rewrite Forall_forall in Hlist. exact (proj1 (Hlist _ Hpend)). }
  assert (Control.fetch_authorization_requests (mkSource (output listed) None) = Ok (list_pending s)) as Hf.
  { unfold listed. erewrite control_worker_alone by (apply serve_list; [exact Hu|apply Hi]). by apply fetch_list_answer. }
  destruct (serve_authorize_pending st s id pin Hu Hi Hh Hid Hpin p Hp) as (w1 & r & E & Ht & Hr & Hri & Hc & Ho).
  apply control_worker_alone in E. assert (taken = w1) as Et by (unfold taken; by rewrite E).
  assert (authorize_response (mkSource (output taken) None) = Ok tt) as Hauth.
  { rewrite Et, Ho, authorize_response_line; [by rewrite decide_True|by apply (bool_decide_unpack _)|done|done]. }
  unfold run_authorize. rewrite parse_authorize_id, quiet_ret by done.
  destruct (run_fetch var_os w _ _ _ Hs Ha Hf) as (p1 & m1 & Hrun1). erewrite run_try by exact Hrun1.
  assert (exists name', head (filter (fun request => fst request = id) (list_pending s)) = Some (id, name')) as [name' ->].
  { assert ((id, name) ∈ filter (fun request => fst request = id) (list_pending s)) as Hin' by by apply list_elem_of_filter.
    destruct (filter _ (list_pending s)) as [|[id' name'] l] eqn:Ef; [by apply not_elem_of_nil in Hin'|]. exists name'. cbn.
    assert ((id', name') ∈ (id', name') :: l) as H by by left. rewrite <- Ef in H. apply list_elem_of_filter in H as [<- _]. done. }
  cbn [fmap option_fmap option_map ok_or snd]. rewrite quiet_ret.
  destruct (run_authorize_request var_os (tell w p1 m1 list_message) id name' Stdin pin
    (set_std_in (person w) (mkSource k e)) (mkSource (output taken) None) []) as (p2 & m2 & Hrun2);
    [exact Hs|cbn; by rewrite Ha|exact Hauth| |].
  { unfold read_existing_pin. cbn [resolve_secret_input]. by apply read_pin_line_typed. }
  eexists. split; [exact Hrun2|]. split_and!.
  - cbn [talks print_out tell set_talks set_person set_answers set_seen]. by rewrite !fmap_app, <- app_assoc.
  - done.
  - exists r. by rewrite Et.
Qed.

(** ** A user who authorizes a pending request *)

Module Sample.
Definition home : environment := fun name =>
  if decide (name = str "KEYVISOR_CONTROL_SOCKET") then Some (str "/k/c") else None.
Definition disk : fs :=
  mk_fs (list_to_map [([str "k"], 1); ([str "k"; str "c"], 2)]) (list_to_map [([str "k"], 1); ([str "k"; str "c"], 2)])
    (list_to_map [(1, mk_inode Directory MODE_0700 1000 [] []); (2, mk_inode SocketFile MODE_0600 1000 [] [])]) 3 0 1000.

(** What the agent of Control says to the two messages. *)
Definition pin : bytes := str "123456".
Definition said_by_agent (message : bytes) : source :=
  mkSource (output (snd (run_alone Control.Sample.st control_worker (accept Broker.Sample.waiting message)))) None.
Definition start : session :=
  mkSession disk Secrets.Sample.someone None
    [said_by_agent list_message; said_by_agent (authorize_message Broker.Sample.id pin)] [] [] 0 None [] [] [].

Lemma disk_own_socket : own_socket home disk.
Proof.
  exists [str "k"; str "c"], 2, (mk_inode SocketFile MODE_0600 1000 [] []).
  split_and!; vm_compute; reflexivity.
Qed.

Lemma authorize_reaches_the_agent_witness :
  exists w', run quiet_moment (run_authorize home [Broker.Sample.id; str "--pin-stdin"]) [] start = (Ok tt, w') /\
    std_out w' = [str "authorized " ++ Broker.Sample.id].
Proof.
  destruct (authorize_reaches_the_agent home Control.Sample.st Broker.Sample.before Broker.Sample.waiting Broker.Sample.id
    (mkPending (str "n") 0) pin [] None start) as (w' & Hr & _ & Ho & _).
  - exact Broker.Sample.waiting_reachable.
  - reflexivity.
  - reflexivity.
  - vm_compute. reflexivity.
  - vm_compute. discriminate.
  - intros ch q Hq. assert (requests Broker.Sample.waiting = {[ 0 := mkRequest Broker.Sample.id (str "n") Waiting None ]}) as Es
      by (vm_compute; reflexivity).
    rewrite Es in Hq. apply lookup_singleton_Some in Hq as [_ <-]. vm_compute. split; [reflexivity|discriminate].
  - vm_compute. split; discriminate.
  - apply (bool_decide_unpack _). vm_compute. exact I.
  - vm_compute. discriminate.
  - exact disk_own_socket.
  - vm_compute. reflexivity.
  - reflexivity.
  - exists w'. split; [exact Hr|exact Ho].
Defined.

Lemma authorize_is_prudent_witness :
  let '(r, w') := run quiet_moment (run_authorize home [Broker.Sample.id; str "--pin-stdin"]) [] start in
  r = Ok tt /\ len (talks w') <= 2 /\ prudent home start (named [Broker.Sample.id; str "--pin-stdin"]) (talks w').
Proof.
  pose proof (run_reach quiet_moment (run_authorize home [Broker.Sample.id; str "--pin-stdin"]) [] start) as Hr.
  assert (fst (run quiet_moment (run_authorize home [Broker.Sample.id; str "--pin-stdin"]) [] start) = Ok tt) as E1
    by (vm_compute; reflexivity).
  destruct (run quiet_moment (run_authorize home [Broker.Sample.id; str "--pin-stdin"]) [] start) as [r w'].
  cbn [fst snd] in *. subst r. split; [reflexivity|].
  destruct (authorize_is_prudent home [Broker.Sample.id; str "--pin-stdin"] start _ _ eq_refl Hr) as (_ & Hp & Hl & _).
  split; [exact Hl|exact Hp].
Defined.
End Sample.
