(* ===== verification/Exec.v ===== *)
(** [keyvisor exec]: a command is run as a child process, signals are forwarded to it, and the
    authorization requests of its signatures are asked for on the terminal: [run_exec],
    [supervise_exec_child], [ForwardedSignals], [terminate_child] and [exit_status_code] of
    crates/keyvisor-cli/src/main.rs. *)

From S2P Require Import Prelude Bytes Text Effects FileSystem AtomicFile Paths Broker Control Pinentry Secrets Client.

(** ** Exit statuses *)

(** [ExitStatus::code] and [ExitStatus::signal], of the status that [wait] gives. *)
Definition status_code (status : Z) : option Z :=
  if Z.land status 0x7f =? 0 then Some (Z.land (Z.shiftr status 8) 0xff) else None.
Definition status_signal (status : Z) : option Z :=
  let s := Z.land status 0x7f in if (1 <=? s) && (s <=? 126) then Some s else None.

Definition exit_status_code (status : Z) : Z :=
  match status_code status with
  | Some code => code
  | None => match status_signal status with Some signal => 128 + signal | None => 1 end
  end.

(** ** Forwarded signals *)

(** A flag is known by its signal. *)
Record ForwardedSignals := mkForwardedSignals {
  registrations : list nat;
  pending : list Signal;
}.

Definition FORWARDED : list Signal := [HUP; INT; QUIT; TERM].

Fixpoint unregister_all (registrations : list nat) : prog sessionE unit :=
  match registrations with
  | [] => Ret tt
  | registration :: registrations => _ ← trigger (Unregister registration); unregister_all registrations
  end.

(** [Drop for ForwardedSignals]. *)
Definition ForwardedSignals_drop (self : ForwardedSignals) : prog sessionE unit := unregister_all (registrations self).

(** The loop of [install]: an error drops what was installed. *)
Fixpoint install_from (signals : list Signal) (installed : ForwardedSignals) : prog sessionE (result bytes ForwardedSignals) :=
  match signals with
  | [] => Ret (Ok installed)
  | signal :: signals =>
      r ← map_err_prog (fun error => str "cannot install signal forwarding: " ++ message error) (trigger (Register signal));
      match r with
      | Ok registration =>
          install_from signals (mkForwardedSignals (registrations installed ++ [registration]) (pending installed ++ [signal]))
      | Err error => _ ← ForwardedSignals_drop installed; Ret (Err error)
      | Panic => Ret Panic
      end
  end.

Definition ForwardedSignals_install : prog sessionE (result bytes ForwardedSignals) :=
  install_from FORWARDED (mkForwardedSignals [] []).

(** [i32::try_from(child_id).ok().and_then(Pid::from_raw)]. *)
Definition pid_from_raw (child_id : Z) : option Z :=
  if (0 <? child_id) && (child_id <=? 2 ^ 31 - 1) then Some child_id else None.

Fixpoint forward_pending (pid : Z) (pending : list Signal) : prog sessionE unit :=
  match pending with
  | [] => Ret tt
  | signal :: pending =>
      raised ← trigger (SwapFlag signal);
      _ ← (if (raised : bool) then _ ← trigger (KillProcess pid signal); Ret tt else Ret tt);
      forward_pending pid pending
  end.

Definition ForwardedSignals_forward (self : ForwardedSignals) (child_id : Z) : prog sessionE unit :=
  match pid_from_raw child_id with
  | None => Ret tt
  | Some pid => forward_pending pid (pending self)
  end.

(** ** Ending the child *)

(** The loop of [terminate_child]: whether the child ended before the deadline; [None] is
    running out of [fuel]. *)
Fixpoint await_end (fuel : nat) (deadline : Z) : prog sessionE (option bool) :=
  match fuel with
  | O => Ret None
  | S fuel =>
      now ← trigger InstantNow;
      if now <? deadline then
        status ← trigger TryWait;
        match status with
        | Ok (Some _) => Ret (Some true)
        | _ => _ ← trigger (Sleep 20); await_end fuel deadline
        end
      else Ret (Some false)
  end.

(** A second, slept through in steps of 20 ms. *)
Definition TERMINATE_FUEL : nat := 51.

Definition terminate_child (child_id : Z) : prog sessionE (option unit) :=
  _ ← match pid_from_raw child_id with
      | Some pid => _ ← trigger (KillProcess pid TERM); Ret tt
      | None => Ret tt
      end;
  now ← trigger InstantNow;
  ended ← await_end TERMINATE_FUEL (now + 1000);
  match ended with
  | None => Ret None
  | Some true => Ret (Some tt)
  | Some false =>
      _ ← trigger ChildKill;
      _ ← trigger ChildWait;
      Ret (Some tt)
  end.

(** ** Supervision *)

Section Exec.
(** [OsStr::to_string_lossy], which only an error message uses. *)
Context (var_os : environment) (to_string_lossy : bytes -> bytes).

Definition fetch_authorization_requests_if_running : prog sessionE (result bytes (list (bytes * bytes))) :=
  path ←? Ret (control_socket_path var_os);
  metadata ← trigger (Metadata path);
  match metadata with
  | Ok _ => fetch_authorization_requests var_os
  | Err error =>
      if decide (kind error = NotFound) then Ret (Ok [])
      else Ret (Err (str "cannot inspect the agent control socket: " ++ message error))
  | Panic => Ret Panic
  end.

(** What the loop does about the pending requests. *)
Definition authorize_pending (requests : list (bytes * bytes)) : prog sessionE (result bytes unit) :=
  match requests with
  | [] => Ret (Ok tt)
  | [(id, key_name)] => authorize_request var_os id key_name Terminal false
  | _ => Ret (Err (str "multiple authorization requests are pending; refusing to choose one"))
  end.

(** The loop ends with the child; [None] is running out of [fuel]. *)
Fixpoint supervise_exec_child (fuel : nat) (child_id : Z) (signals : ForwardedSignals) :
    prog sessionE (option (result bytes Z)) :=
  match fuel with
  | O => Ret None
  | S fuel =>
      _ ← ForwardedSignals_forward signals child_id;
      status ← map_err_prog (fun error => str "cannot wait for the command: " ++ message error) (trigger TryWait);
      match status with
      | Ok (Some status) => Ret (Some (Ok status))
      | Ok None =>
          r ← (requests ←? fetch_authorization_requests_if_running; authorize_pending requests);
          match r with
          | Ok _ => _ ← trigger (Sleep 50); supervise_exec_child fuel child_id signals
          | Err error => Ret (Some (Err error))
          | Panic => Ret (Some Panic)
          end
      | Err error => Ret (Some (Err error))
      | Panic => Ret (Some Panic)
      end
  end.

(** [run_exec] from the start of the command on, with the signal handlers installed; the
    result is the code the process exits with. *)
Definition run_child (fuel : nat) (command : list bytes) (signals : ForwardedSignals) :
    prog sessionE (option (result bytes Z)) :=
  child ← map_err_prog (fun error => str "cannot start `" ++ to_string_lossy (default [] (head command)) ++ str "`: " ++ message error)
    (trigger (Spawn command));
  match child with
  | Ok child_id =>
      result ← supervise_exec_child fuel child_id signals;
      match result with
      | None => Ret None
      | Some (Ok status) => _ ← ForwardedSignals_drop signals; Ret (Some (Ok (exit_status_code status)))
      | Some (Err error) =>
          _ ← terminate_child child_id;
          _ ← ForwardedSignals_drop signals;
          Ret (Some (Err error))
      | Some Panic => Ret (Some Panic)
      end
  | Err error => _ ← ForwardedSignals_drop signals; Ret (Some (Err error))
  | Panic => Ret (Some Panic)
  end.

Definition exec_usage : bytes := str "usage: keyvisor exec -- COMMAND [ARGUMENT ...]".

Definition run_exec (fuel : nat) (arguments : list bytes) : prog sessionE (option (result bytes Z)) :=
  match arguments with
  | [] => Ret (Some (Err exec_usage))
  | separator :: command =>
      if negb (bool_decide (separator = str "--")) || is_empty command then Ret (Some (Err exec_usage))
      else
        r ← (requests ←? fetch_authorization_requests_if_running;
             if negb (is_empty requests)
             then Ret (Err (str "cannot start command while another authorization request is pending"))
             else ForwardedSignals_install);
        match r with
        | Ok signals => run_child fuel command signals
        | Err error => Ret (Some (Err error))
        | Panic => Ret (Some Panic)
        end
  end.
End Exec.

(** ** What [exec] does *)

(** The only request that may be authorized is one that is pending alone. *)
Definition alone_pending (requests : list (bytes * bytes)) (id : bytes) : Prop := exists name, requests = [(id, name)].

Section Safety.
Context (var_os : environment) (w0 : session).

(** The control socket was looked for, and is not there. *)
Definition absent (i : inspection) : Prop :=
  exists p error, control_socket_path var_os = Ok p /\ i = Some (p, Err error) /\ kind error = NotFound.

(** After these conversations and this inspection nothing is pending: the agent has said
    so, or there is no agent. *)
Definition nothing_pending (ts : list talk) (i : inspection) : Prop :=
  (exists t, ts = [t] /\ answered var_os w0 t []) \/ (ts = [] /\ absent i).

(** The child was started with an empty queue, or without an agent. *)
Definition started_quietly (c : child_process) : Prop := nothing_pending (spawned_after c) (spawned_seen c).

(** A signal for the child, before it was waited for. *)
Definition at_child (c : child_process) (k : kill_call) : Prop := kl_process k = pid c /\ kl_reaped k = false.

Record cautious (w : session) : Prop := mk_cautious {
  ca_euid : euid (disk w) = euid (disk w0);
  ca_talks : prudent var_os w0 alone_pending (talks w);
  ca_child : match child w with
             | None => kills w = [] /\ Forall (listing var_os w0) (talks w)
             | Some c => started_quietly c /\ Forall (at_child c) (kills w)
             end;
}.

(** Registered handlers are the ones of [rs]. *)
Definition registered (rs : list nat) (w : session) : Prop := Forall (fun h => fst h ∈ rs) (handlers w).

(** The child [p] has not been waited for. *)
Definition unreaped (p : Z) (w : session) : Prop := exists c, child w = Some c /\ pid c = p /\ status c = None.

(** What these depend on. *)
Definition same_child (w w' : session) : Prop :=
  euid (disk w') = euid (disk w) /\ talks w' = talks w /\ child w' = child w /\ kills w' = kills w /\ handlers w' = handlers w.

Lemma cautious_same w w' : same_child w w' -> cautious w -> cautious w'.
Proof. intros (E1 & E2 & E3 & E4 & E5) [? ? ?]. split; [congruence|by rewrite E2|by rewrite E2, E3, E4]. Qed.

Lemma drift_same w w' : drift w w' -> same_child w w'.
Proof. by intros [? ? ? ? ? ? ? ? ?]. Qed.

(** The state of a running command: cautious, with these handlers and this child. *)
Definition watching (rs : list nat) (p : Z) (w : session) : Prop := cautious w /\ registered rs w /\ unreaped p w.

Lemma watching_same rs p w w' : same_child w w' -> watching rs p w -> watching rs p w'.
Proof.
  intros Hs (Hc & Hr & Hu). split_and!; [by eapply cautious_same| |]; destruct Hs as (_ & _ & E3 & _ & E5).
  - unfold registered. by rewrite E5.
  - unfold unreaped. by rewrite E3.
Qed.

(** An operation that changes nothing of this, while the child runs. *)
Lemma watch_op {X} rs p (e : sessionE X) (Q : X -> session -> Prop) w :
  watching rs p w ->
  (forall v w', watching rs p w' -> clock w <= clock w' -> let '(x, w'') := session_answer v w' e in cautious w'' /\ Q x w'') ->
  (forall v error w', watching rs p w' -> clock w <= clock w' -> let '(x, w'') := session_fails v error w' e in cautious w'' /\ Q x w'') ->
  safe cautious (trigger e) Q w.
Proof.
  intros Hw Ha Hf. apply session_op; [apply Hw|intros v w' Hd|intros v error w' Hd];
    (assert (watching rs p w') as Hw' by (eapply watching_same; [by apply drift_same|done]));
    [apply Ha|apply Hf]; try done; apply Hd.
Qed.

Lemma watching_kill rs p s f w : watching rs p w -> watching rs p (add_kill w (mkKill p s (reaped w) f)).
Proof.
  intros ([He Ht Hc] & Hr & (c & E & Hp & Hs)). assert (reaped w = false) as ->.
  { unfold reaped. rewrite E, Hs. by apply bool_decide_false, is_Some_None. }
  split_and!; [|done|by exists c]. split; [done..|]. cbn. rewrite E in *. destruct Hc as [Hc Hk]. split; [done|].
  apply Forall_app. split; [done|]. apply Forall_singleton. by split.
Qed.

Lemma forward_pending_safe rs p ss w :
  watching rs p w -> safe cautious (forward_pending p ss) (fun _ w' => watching rs p w') w.
Proof.
  revert w; induction ss as [|s ss IH]; intros w Hw; [by apply safe_ret; [apply Hw|]|]. cbn [forward_pending].
  assert (forall w' l, watching rs p w' -> watching rs p (set_flags w' l)) as Hflags by by intros w' l; apply watching_same.
  apply safe_bind. eapply (watch_op rs p); [done|intros v w' Hw' _|intros v error w' Hw' _]; cbn [session_answer session_fails];
    (pose proof (Hflags w' (filter (fun s' => s' <> s) (flags w')) Hw') as H1; revert H1;
     generalize (set_flags w' (filter (fun s' => s' <> s) (flags w'))); intros w1 H1; split; [apply H1|]); apply safe_bind.
  all: destruct (bool_decide _);
    [apply safe_bind; eapply (watch_op rs p); [exact H1|intros v2 w2 Hw2 _|intros v2 e2 w2 Hw2 _]
    |apply safe_ret; [apply H1|by apply IH]];
    cbn [session_answer session_fails].
  all: pose proof (fun f => watching_kill rs p s f w2 Hw2) as Hk; split; [apply Hk|]; apply safe_ret; [apply Hk|]; by apply IH.
Qed.

Lemma forward_safe rs p signals w :
  watching rs p w -> safe cautious (ForwardedSignals_forward signals p) (fun _ w' => watching rs p w') w.
Proof.
  intros Hw. unfold ForwardedSignals_forward, pid_from_raw. destruct (_ && _)%bool; [by apply forward_pending_safe|].
  apply safe_ret; [apply Hw|done].
Qed.

(** The child ended, with this status. *)
Definition ended_with (st : Z) (w : session) : Prop := exists c, child w = Some c /\ status c = Some st.

Definition waited (rs : list nat) (p : Z) (w : session) (r : io_result (option Z)) (w' : session) : Prop :=
  match r with
  | Ok (Some st) => cautious w' /\ registered rs w' /\ ended_with st w'
  | Ok None | Err _ => watching rs p w' /\ clock w <= clock w'
  | Panic => False
  end.

Lemma set_status rs p c st f w :
  watching rs p w -> child w = Some c ->
  let w' := set_child w (mkChild (pid c) st (spawned_after c) (spawned_seen c) f) in
  cautious w' /\ registered rs w' /\ match st with Some st => ended_with st w' | None => unreaped p w' end.
Proof.
  intros ([He Ht Hc] & Hr & (c' & E & Hp & Hs)) E'. assert (c' = c) as -> by congruence. rewrite E in Hc.
  split_and!; [split; [done..|]|done|]; [done|]. destruct st as [st|]; by eexists.
Qed.

Lemma try_wait_safe rs p w : watching rs p w -> safe cautious (trigger TryWait) (waited rs p w) w.
Proof.
  intros Hw. apply (watch_op rs p); [done|intros v w' Hw' Ht|intros v error w' Hw' Ht]; pose proof Hw' as (_ & _ & (c & E & Hp & Hs)).
  - cbn [session_answer]. rewrite E, Hs. destruct (set_status rs p c (ended v) (wait_failure c) w' Hw' E) as (H1 & H2 & H3). split; [done|].
    destruct (ended v); cbn [waited]; [by split_and!|]. split; [by split_and!|exact Ht].
  - assert (reaped w' = false) as Er. { unfold reaped. rewrite E, Hs. by apply bool_decide_false, is_Some_None. }
    unfold session_fails. rewrite Er. split; [apply Hw'|]. by split.
Qed.

Lemma await_end_safe rs p fuel deadline w :
  watching rs p w -> (0 < fuel)%nat -> deadline <= clock w + 20 * (Z.of_nat fuel - 1) ->
  safe cautious (await_end fuel deadline)
    (fun r w' => match r with
       | Some true => cautious w' /\ registered rs w' /\ exists st, ended_with st w'
       | Some false => watching rs p w'
       | None => False
       end) w.
Proof.
  revert w; induction fuel as [|fuel IH]; intros w Hw Hf Hd; [lia|]. cbn [await_end].
  apply safe_bind, (watch_op rs p); [done|intros v w1 Hw1 Hc1|intros v error w1 Hw1 Hc1]; cbn [session_answer session_fails];
    (split; [apply Hw1|]); (destruct (clock w1 <? deadline) eqn:El; [|apply safe_ret; [apply Hw1|done]]);
    apply Z.ltb_lt in El; apply safe_bind; (eapply safe_mono; [..|exact (safe_end _ _ _ _ (try_wait_safe rs p w1 Hw1))]; [done|]).
  all: intros r w2 [Hc Hr]; assert (forall w', watching rs p w' -> clock w1 <= clock w' ->
      safe cautious (_ ← trigger (Sleep 20); await_end fuel deadline)
        (fun r w' => match r with
           | Some true => cautious w' /\ registered rs w' /\ exists st, ended_with st w'
           | Some false => watching rs p w'
           | None => False
           end) w') as Hsleep.
  1, 3: intros w3 Hw3 Hc3; apply safe_bind, (watch_op rs p); [done|intros v4 w4 Hw4 Hc4|intros v4 e4 w4 Hw4 Hc4];
    cbn [session_answer session_fails];
    (assert (watching rs p (set_clock w4 (clock w4 + 20))) as Hw5 by by apply (watching_same rs p w4));
    (split; [apply Hw5|]); (apply IH; [done|lia|cbn; lia]).
  all: destruct r as [[st|]|e|]; cbn [waited] in Hr; [|destruct Hr; by apply Hsleep..|done].
  all: apply safe_ret; [done|]; destruct Hr as (? & ? & ?); split_and!; [done..|by exists st].
Qed.

(** The child was waited for; or waiting for it failed, after kill(2) was called with
    [SIGKILL]. *)
Definition dealt_with (w : session) : Prop :=
  exists c, child w = Some c /\
    (is_Some (status c) \/ is_Some (wait_failure c) /\ exists f, mkKill (pid c) KILL false f ∈ kills w).

Definition terminated (rs : list nat) (r : option unit) (w : session) : Prop :=
  r = Some tt /\ cautious w /\ registered rs w /\ dealt_with w.

Lemma kill_and_wait_safe rs p w :
  watching rs p w -> safe cautious (_ ← trigger ChildKill; _ ← trigger ChildWait; Ret (Some tt)) (terminated rs) w.
Proof.
  intros Hw.
  assert (forall w', watching rs p w' -> (exists f, mkKill p KILL false f ∈ kills w') ->
    safe cautious (_ ← trigger ChildWait; Ret (Some tt)) (terminated rs) w') as Hwait.
  { intros w1 Hw1 Hin. apply safe_bind, session_op; [apply Hw1|intros v w2 Hd|intros v error w2 Hd].
    all: pose proof (watching_same rs p w1 w2 (drift_same _ _ Hd) Hw1) as Hw2; pose proof Hw2 as (_ & _ & (c & E & Hp & Hs)).
    - cbn [session_answer]. rewrite E.
      destruct (set_status rs p c (Some (default (default 0 (ended v)) (status c))) (wait_failure c) w2 Hw2 E) as (H1 & H2 & (c' & E' & Hs')).
      split; [done|]. apply safe_ret; [done|]. split_and!; [done..|]. exists c'. split; [done|]. left. by eexists.
    - cbn [session_fails]. rewrite E, Hs. destruct (set_status rs p c None (Some error) w2 Hw2 E) as (H1 & H2 & _).
      split; [done|]. apply safe_ret; [done|]. split_and!; [done..|]. eexists. split; [done|]. right. split; [by eexists|].
      cbn. by rewrite Hp, (dr_kills _ _ Hd). }
  apply safe_bind, (watch_op rs p); [done|intros v w1 Hw1 _|intros v error w1 Hw1 _]; cbn [session_answer session_fails].
  all: pose proof Hw1 as (_ & _ & (c & E & Hp & Hs)).
  all: assert (reaped w1 = false) as Er by (unfold reaped; rewrite E, Hs; by apply bool_decide_false, is_Some_None).
  all: rewrite E, Er; cbn [fst snd]; pose proof (fun f => watching_kill rs p KILL f w1 Hw1) as Hk; rewrite Er in Hk; rewrite Hp;
    (split; [apply Hk|]); (apply Hwait; [apply Hk|]); eexists; apply elem_of_app; right; by left.
Qed.

Lemma terminate_child_safe rs p w :
  watching rs p w ->
  safe cautious (terminate_child p) (terminated rs) w.
Proof.
  intros Hw. unfold terminate_child. apply safe_bind.
  assert (safe cautious (match pid_from_raw p with
    | Some pid => _ ← trigger (KillProcess pid TERM); Ret tt | None => Ret tt end) (fun _ w' => watching rs p w') w) as Hterm.
  { unfold pid_from_raw. destruct (_ && _)%bool; [|by apply safe_ret; [apply Hw|]].
    apply safe_bind, (watch_op rs p); [done|intros v w' Hw' _|intros v error w' Hw' _]; cbn [session_answer session_fails];
      pose proof (fun f => watching_kill rs p TERM f w' Hw') as Hk; (split; [apply Hk|]); (apply safe_ret; [apply Hk|done]). }
  eapply safe_mono; [..|exact Hterm]; [done|]. intros u w1 Hw1.
  apply safe_bind, (watch_op rs p); [done|intros v w2 Hw2 _|intros v error w2 Hw2 _]; cbn [session_answer session_fails];
    (split; [apply Hw2|]); apply safe_bind;
    (eapply safe_mono; [..|apply (await_end_safe rs p); [exact Hw2|unfold TERMINATE_FUEL; lia|unfold TERMINATE_FUEL; lia]]; [done|]).
  all: intros [[|]|] w3 H3; [| |done].
  1, 3: destruct H3 as (Hc & Hr & st & c & E & Hs); apply safe_ret; [done|]; split_and!; [done..|];
    exists c; split; [done|]; left; by exists st.
  all: by apply (kill_and_wait_safe rs p).
Qed.

(** *** Conversations while the command runs *)

Definition conversing {A} (P : list talk -> Prop) (m : prog sessionE A) (Q : A -> list talk -> session -> Prop)
    (w w1 : session) : Prop :=
  safe (fun w' => exists ts, now w ts w' /\ P ts) m (fun r w' => exists ts, now w ts w' /\ P ts /\ Q r ts w') w1.

Lemma conversing_cautious {A} (P : list talk -> Prop) (m : prog sessionE A) (Q : A -> list talk -> session -> Prop) w :
  cautious w ->
  (forall ts, P ts -> prudent var_os w0 alone_pending (talks w ++ ts) /\
     (child w = None -> Forall (listing var_os w0) (talks w ++ ts))) ->
  conversing P m Q w w ->
  safe cautious m (fun r w' => exists ts, now w ts w' /\ cautious w' /\ Q r ts w') w.
Proof.
  intros [He Ht Hc] HP Hm.
  assert (forall ts w', now w ts w' -> P ts -> cautious w') as Hca.
  { intros ts w' [(K1 & K2 & K3 & K4 & K5) Hts] [H1 H2]%HP. split; [congruence|by rewrite Hts|].
    rewrite K1, K3, Hts. destruct (child w); [done|]. destruct Hc as [? ?]. split; auto. }
  eapply safe_mono; [..|exact Hm].
  - intros w' (ts & Hts & HPts). by eapply Hca.
  - intros r w' (ts & Hts & HPts & HQ). exists ts. split_and!; [done| |done]. by eapply Hca.
Qed.

Lemma listing_euid w t : euid (disk w) = euid (disk w0) -> listing var_os w t -> listing var_os w0 t.
Proof. intros E. unfold listing. by rewrite E. Qed.
Lemma answered_euid w t requests : euid (disk w) = euid (disk w0) -> answered var_os w t requests -> answered var_os w0 t requests.
Proof. intros E. unfold answered. by rewrite E. Qed.
Lemma authorizing_euid w id t : euid (disk w) = euid (disk w0) -> authorizing var_os w id t -> authorizing var_os w0 id t.
Proof. intros E. unfold authorizing. by rewrite E. Qed.

(** What [fetch_authorization_requests_if_running] answers, and why. *)
Definition fetched (w : session) (ts : list talk) (r : result bytes (list (bytes * bytes))) (ts' : list talk) (w' : session) : Prop :=
  match r with
  | Ok requests =>
      (ts' = ts /\ requests = [] /\ absent (seen w')) \/ exists t, ts' = ts ++ [t] /\ answered var_os w t requests
  | Err _ => True
  | Panic => False
  end.

Lemma if_running_conversing w (P : list talk -> Prop) ts w1 :
  now w ts w1 -> P ts -> (forall t, listing var_os w t -> P (ts ++ [t])) ->
  conversing P (fetch_authorization_requests_if_running var_os) (fetched w ts) w w1.
Proof.
  intros Hw1 HP Hl. unfold conversing, fetch_authorization_requests_if_running.
  destruct (control_socket_path var_os) as [path|e|] eqn:Ep; [|by apply safe_ret; exists ts|].
  2: { unfold control_socket_path in Ep. destruct (non_empty _); [done|]. by destruct (var_os _). }
  change (try_bind ?f (Ret (Ok path))) with (f path).
  cbv beta.
  match goal with |- safe ?I (trigger _ ≫= ?f) ?Q _ => assert (forall (md : io_result metadata) w2,
    now w ts w2 -> seen w2 = Some (path, md) -> md <> Panic -> safe I (f md) Q w2) as Hrest end.
  { intros md w2 Hw2 Hs2 Hnp. destruct md as [md|e|]; [| |done].
    - eapply safe_mono; [..|exact (dialogue_fetch var_os w P ts HP Hl w2 Hw2)]; [done|].
      intros r w3 (ts3 & Hts3 & HP3 & Hr). exists ts3. split_and!; [done..|]. destruct r; [by right|done..].
    - destruct (decide _) as [Hk|Hk]; (apply safe_ret; [by exists ts|]); exists ts; split_and!; try done.
      left. split_and!; [done..|]. by exists path, e. }
  apply safe_bind, session_op; [by exists ts|intros v w' Hd|intros v error w' Hd];
    (assert (forall i, now w ts (set_seen w' i)) as Hn
       by (intros i; eapply (now_stays w ts w1); [done|exact (drift_stays _ _ Hd)])).
  - cbn [session_answer].
    assert (exists r s, exec (of_disk v) (disk w') (SymlinkMetadata path) = (r, s) /\ r <> Panic) as (r & s & -> & Hr).
    { destruct (exec_cases (of_disk v) (disk w') (SymlinkMetadata path)) as [[m ->]| ->]; cbn [fs_fault fs_exec]; [eauto|].
      destruct (find (disk w') path) as [[]|]; eauto. }
    split; [by exists ts|]. exact (Hrest r _ (Hn _) eq_refl Hr).
  - cbn [session_fails]. split; [by exists ts|]. by exact (Hrest (Err error) _ (Hn _) eq_refl ltac:(done)).
Qed.

Lemma dialogue_if_running w (P : list talk -> Prop) ts :
  P ts -> (forall t, listing var_os w t -> P (ts ++ [t])) ->
  dialogue w P ts (fetch_authorization_requests_if_running var_os)
    (fun r ts' => match r with
       | Ok requests => ts' = ts /\ requests = [] \/ exists t, ts' = ts ++ [t] /\ answered var_os w t requests
       | Err _ => True
       | Panic => False
       end).
Proof.
  intros HP Hl w1 Hw1. eapply safe_mono; [..|exact (if_running_conversing w P ts w1 Hw1 HP Hl)]; [done|].
  intros r w2 (ts2 & Hts & HP2 & Hr). exists ts2. split_and!; [done..|]. destruct r; [|done..].
  destruct Hr as [(-> & -> & _)|Hr]; [by left|by right].
Qed.

Lemma poll_safe rs p w :
  watching rs p w ->
  safe cautious (requests ←? fetch_authorization_requests_if_running var_os; authorize_pending var_os requests)
    (fun r w' => watching rs p w' /\ r <> Panic) w.
Proof.
  intros Hw. pose proof Hw as ([He Ht Hc] & Hr & (c & E & Hp & Hs)).
  set (P := fun ts => prudent var_os w0 alone_pending (talks w ++ ts)).
  assert (P []) as HP by (unfold P; by rewrite app_nil_r).
  assert (forall t, listing var_os w t -> P ([] ++ [t])) as HPl.
  { intros t Hl. apply prudent_list; [done|]. by eapply listing_euid. }
  eapply safe_mono; [..|apply (conversing_cautious P _ (fun r _ _ => r <> Panic)); [by split| |]]; [done|..].
  - intros r w' (ts & [(K1 & K2 & K3 & K4 & K5) Hts] & Hca & Hnp). split; [|done]. split_and!; [done| |].
    + unfold registered. by rewrite K2.
    + exists c. by rewrite K1.
  - intros ts HPts. split; [exact HPts|]. by rewrite E.
  - cut (dialogue w P [] (requests ←? fetch_authorization_requests_if_running var_os; authorize_pending var_os requests)
      (fun r _ => r <> Panic)); [intros Hd; apply Hd; split; [reflexivity|by rewrite app_nil_r]|].
    apply dialogue_try. eapply dialogue_mono; [..|apply (dialogue_if_running w P []); done]; [done|].
    intros [requests|e|] ts HPts Hreq; [|done..]. destruct requests as [|[id name] [|]]; cbn [authorize_pending].
    + by apply dialogue_ret.
    + destruct Hreq as [[_ [=]]|(t & -> & Hans)].
      eapply dialogue_mono; [..|apply (dialogue_authorize var_os w P ([] ++ [t]) id); [done|]]; [done|..].
      * intros [[]|e|] ts' _ Hres; done.
      * intros t' Hauth. unfold P. rewrite <- app_assoc. cbn [app].
        apply (prudent_authorize var_os w0 _ (talks w) t t' [(id, name)] id); [done|by eapply answered_euid|by eexists|by eapply authorizing_euid].
    + by apply dialogue_ret.
Qed.

Lemma supervise_safe fuel rs p signals w :
  watching rs p w ->
  safe cautious (supervise_exec_child var_os fuel p signals)
    (fun r w' => match r with
       | Some (Ok st) => cautious w' /\ registered rs w' /\ ended_with st w'
       | Some (Err _) => watching rs p w'
       | Some Panic => False
       | None => cautious w'
       end) w.
Proof.
  revert w; induction fuel as [|fuel IH]; intros w Hw; [by apply safe_ret; apply Hw|]. cbn [supervise_exec_child].
  apply safe_bind. eapply safe_mono; [..|by apply (forward_safe rs p)]; [done|]. intros u w1 Hw1.
  apply safe_bind, safe_map_err. eapply safe_mono; [..|exact (safe_end _ _ _ _ (try_wait_safe rs p w1 Hw1))]; [done|].
  intros [[st|]|e|] w2 [Hc2 Hr2]; (split; [done|]); cbn [map_err waited] in *; [by apply safe_ret| |by apply safe_ret; [|apply Hr2]|done].
  destruct Hr2 as [Hw2 _]. apply safe_bind. eapply safe_mono; [..|by apply (poll_safe rs p)]; [done|].
  intros [[]|e|] w3 [Hw3 Hnp]; [|by apply safe_ret; [apply Hw3|]|done].
  apply safe_bind, (watch_op rs p); [done|intros v w4 Hw4 _|intros v error w4 Hw4 _]; cbn [session_answer session_fails];
    (assert (watching rs p (set_clock w4 (clock w4 + 50))) as Hw5 by by apply (watching_same rs p w4));
    (split; [apply Hw5|by apply IH]).
Qed.

(** *** The handlers *)

Lemma cautious_handlers w hs : cautious w -> cautious (set_handlers w hs).
Proof. by intros [? ? ?]. Qed.

Lemma registered_drift rs w w' : drift w w' -> registered rs w -> registered rs w'.
Proof. intros Hd. unfold registered. by rewrite (dr_handlers _ _ Hd). Qed.

Lemma drop_safe rs w :
  cautious w -> registered rs w ->
  safe cautious (unregister_all rs)
    (fun _ w' => cautious w' /\ handlers w' = [] /\ child w' = child w /\ kills w' = kills w) w.
Proof.
  revert w; induction rs as [|r rs IH]; intros w Hc Hr; cbn [unregister_all].
  - apply safe_ret; [done|]. split_and!; [done| |done..]. destruct (handlers w) as [|h hs] eqn:E; [done|].
    unfold registered in Hr. rewrite E in Hr. apply Forall_cons in Hr as [Hr _]. by apply not_elem_of_nil in Hr.
  - assert (forall w', drift w w' -> let w'' := set_handlers w' (filter (fun h => fst h <> r) (handlers w')) in
      cautious w'' /\ safe cautious (unregister_all rs)
        (fun _ w3 => cautious w3 /\ handlers w3 = [] /\ child w3 = child w /\ kills w3 = kills w) w'') as Hnext.
    { intros w' Hd w''. assert (cautious w'') as Hc'' by (apply cautious_handlers; eapply cautious_same; [by apply drift_same|done]).
      split; [done|]. eapply safe_mono; [..|apply IH; [done|]]; [done|..].
      - intros u w3 (? & ? & E1 & E2). split_and!; [done..| |]; [rewrite E1|rewrite E2]; apply Hd.
      - apply (registered_drift _ _ _ Hd) in Hr. unfold registered in *. cbn [w'' set_handlers handlers].
        apply Forall_forall. intros h [Hne Hin]%list_elem_of_filter. rewrite Forall_forall in Hr.
        apply Hr, list_elem_of_In in Hin. by apply list_elem_of_In, elem_of_cons in Hin as [?|?]. }
    apply safe_bind, session_op; [done|intros v w' Hd|intros v error w' Hd]; by apply Hnext.
Qed.

Definition installed (ts : list talk) (i : inspection) (r : result bytes ForwardedSignals) (w : session) : Prop :=
  cautious w /\ child w = None /\
  match r with
  | Ok signals => registered (registrations signals) w /\ talks w = ts /\ seen w = i
  | Err _ => handlers w = []
  | Panic => False
  end.

Lemma install_safe ss signals w :
  cautious w -> child w = None -> registered (registrations signals) w ->
  safe cautious (install_from ss signals) (installed (talks w) (seen w)) w.
Proof.
  revert signals w; induction ss as [|s ss IH]; intros signals w Hc Hn Hr; [by apply safe_ret|]. cbn [install_from].
  apply safe_bind, safe_map_err, session_op; [done|intros v w' Hd|intros v error w' Hd]; cbn [session_answer session_fails];
    (assert (cautious w') as Hc' by (eapply cautious_same; [by apply drift_same|done]));
    pose proof (registered_drift _ _ _ Hd Hr) as Hr'.
  - set (n := length (handlers w')). assert (cautious (set_handlers w' (handlers w' ++ [(n, s)]))) as Hc2 by by apply cautious_handlers.
    do 2 (split; [done|]). cbn [map_err]. eapply safe_mono; [..|apply IH; [done|by cbn; rewrite (dr_child _ _ Hd)|]]; [done|..].
    + intros r w2. cbn [talks seen set_handlers]. by rewrite (dr_talks _ _ Hd), (dr_seen _ _ Hd).
    + unfold registered in *. cbn [set_handlers handlers registrations]. apply Forall_app. split.
      * eapply Forall_impl; [exact Hr'|]. intros h Hh. apply elem_of_app. by left.
      * apply Forall_singleton, elem_of_app. right. by left.
  - do 2 (split; [done|]). cbn [map_err]. apply safe_bind. unfold ForwardedSignals_drop.
    eapply safe_mono; [..|apply (drop_safe (registrations signals)); done]; [done|].
    intros u w2 (Hc2 & Hh & E1 & E2). apply safe_ret; [done|]. split_and!; [done|by rewrite E1, (dr_child _ _ Hd)|done].
Qed.

(** *** The whole command *)

(** How the command ends: with the child's exit code, or with an error and no child left
    running; and without handlers. *)
Definition concluded (r : result bytes Z) (w : session) : Prop :=
  handlers w = [] /\
  match r with
  | Ok code => exists st, ended_with st w /\ code = exit_status_code st
  | Err _ => child w = None \/ dealt_with w
  | Panic => False
  end.

Definition finished (r : option (result bytes Z)) (w : session) : Prop :=
  cautious w /\ forall x, r = Some x -> concluded x w.

Lemma run_child_safe to_string_lossy fuel command signals w :
  cautious w -> child w = None -> registered (registrations signals) w ->
  nothing_pending (talks w) (seen w) ->
  safe cautious (run_child var_os to_string_lossy fuel command signals) finished w.
Proof.
  intros Hc Hn Hr Ht. apply safe_bind, safe_map_err, session_op; [done|intros v w1 Hd|intros v error w1 Hd];
    (assert (cautious w1) as Hc1 by (eapply cautious_same; [by apply drift_same|done]));
    pose proof (registered_drift _ _ _ Hd Hr) as Hr1; cbn [session_answer session_fails].
  - set (p := new_pid v). set (rs := registrations signals).
    assert (watching rs p (set_child w1 (mkChild p None (talks w1) (seen w1) None))) as Hw2.
    { split_and!; [|done|by eexists]. destruct Hc1 as [? ? Hk]. rewrite (dr_child _ _ Hd), Hn in Hk. destruct Hk as [Hk _].
      split; [done..|]. cbn. rewrite Hk, (dr_talks _ _ Hd), (dr_seen _ _ Hd). by split. }
    revert Hw2. generalize (set_child w1 (mkChild p None (talks w1) (seen w1) None)). intros w2 Hw2.
    do 2 (split; [apply Hw2|]). cbn [map_err].
    apply safe_bind. eapply safe_mono; [..|by apply (supervise_safe fuel rs p)]; [done|].
    intros [[st|e|]|] w3 H3; [| |done|by apply safe_ret].
    + destruct H3 as (Hc3 & Hr3 & He3). apply safe_bind. eapply safe_mono; [..|apply (drop_safe rs); done]; [done|].
      intros u w4 (Hc4 & Hh & E1 & E2). apply safe_ret; [done|]. split; [done|]. intros x [= <-]. split; [done|].
      exists st. unfold ended_with. by rewrite E1.
    + apply safe_bind. eapply safe_mono; [..|by apply (terminate_child_safe rs p)]; [done|]. intros r w4 (-> & Hc4 & Hr4 & Hd4).
      apply safe_bind. eapply safe_mono; [..|apply (drop_safe rs); done]; [done|].
      intros u w5 (Hc5 & Hh & E1 & E2). apply safe_ret; [done|]. split; [done|]. intros x [= <-]. split; [done|].
      right. unfold dealt_with. by rewrite E1, E2.
  - do 2 (split; [done|]). cbn [map_err]. apply safe_bind. unfold ForwardedSignals_drop.
    eapply safe_mono; [..|apply (drop_safe (registrations signals)); done]; [done|].
    intros u w2 (Hc2 & Hh & E1 & E2). apply safe_ret; [done|]. split; [done|]. intros x [= <-]. split; [done|].
    left. by rewrite E1, (dr_child _ _ Hd).
Qed.

Lemma run_exec_safe to_string_lossy fuel arguments :
  talks w0 = [] -> child w0 = None -> handlers w0 = [] -> kills w0 = [] ->
  safe cautious (run_exec var_os to_string_lossy fuel arguments) finished w0.
Proof.
  intros Ht Hc Hh Hk. assert (cautious w0) as H0.
  { split; [done|rewrite Ht; constructor|]. rewrite Hc, Ht. by split. }
  assert (forall e, finished (Some (Err e)) w0) as Hfail.
  { intros e. split; [done|]. intros x [= <-]. split; [done|by left]. }
  unfold run_exec. destruct arguments as [|separator command]; [by apply safe_ret|].
  destruct (_ || _)%bool; [by apply safe_ret|]. apply safe_bind.
  set (P := fun ts => ts = [] \/ exists t, ts = [t] /\ listing var_os w0 t).
  apply safe_try. eapply safe_mono; [..|apply (conversing_cautious P _ (fetched w0 [])); [done| |]]; [done|..].
  3: { apply (if_running_conversing w0 P []); [split; [reflexivity|by rewrite app_nil_r]|by left|]. intros t Hl. right. by exists t. }
  2: { rewrite Ht. intros ts [->|(t & -> & Hl)]; cbn [app]; [split; constructor|]. split.
       - apply (prudent_list var_os w0 _ [] t); [constructor|done].
       - intros _. by apply Forall_singleton. }
  intros r w1 (ts & [(K1 & K2 & K3 & K4 & K5) Hts] & Hc1 & Hr).
  assert (child w1 = None) as Hn1 by congruence. assert (handlers w1 = []) as Hh1 by congruence.
  assert (forall e, finished (Some (Err e)) w1) as Hfail1.
  { intros e. split; [done|]. intros x [= <-]. split; [done|by left]. }
  destruct r as [requests|e|]; [| |done]; cycle 1.
  { split; [done|]. by apply safe_ret. }
  destruct requests as [|request requests]; cbn [is_empty negb]; [|apply safe_ret; [done|]; by apply safe_ret].
  assert (nothing_pending (talks w1) (seen w1)) as Ht1.
  { rewrite Hts, Ht. destruct Hr as [(-> & _ & Ha)|(t & -> & Ha)]; [by right|left; by exists t]. }
  eapply safe_mono; [..|apply install_safe; [done|done|by unfold registered; rewrite Hh1]]; [done|].
  intros [signals|e|] w2 (Hc2 & Hn2 & H2); [| |done].
  - destruct H2 as (Hr2 & Ht2 & Hs2). apply run_child_safe; [done..|]. by rewrite Ht2, Hs2.
  - apply safe_ret; [done|]. split; [done|]. intros x [= <-]. split; [done|by left].
Qed.
End Safety.

(** [C4] [keyvisor exec] is cautious.  Whatever the agent, the child, the user and others do
    and whatever fails, at every moment: the child is started only after the agent, if
    its socket is there, has answered that nothing is pending, or after the last thing
    looked at was the control socket's path, and nothing was there; a PIN is sent only for
    a request that the agent has just listed, alone; and kill(2) is called only for the child,
    and never after it was waited for, when its identifier may be another's.  When the
    command ends its handlers are gone; it ends with the exit code of the child, or with
    an error, and then the child, if it was started, has ended or was killed; and it does
    not panic. *)
Theorem exec_is_cautious var_os to_string_lossy fuel arguments w p' w' :
  talks w = [] -> child w = None -> handlers w = [] -> kills w = [] ->
  reach (run_exec var_os to_string_lossy fuel arguments) w p' w' ->
  cautious var_os w w' /\ forall r, p' = Ret (Some r) -> concluded r w'.
Proof.
  intros Ht Hc Hh Hk Hr. pose proof (run_exec_safe var_os w to_string_lossy fuel arguments Ht Hc Hh Hk) as Hs.
  split; [exact (safe_reach_inv _ _ _ _ _ _ Hs Hr)|]. intros r ->. by apply (safe_reach_ret _ _ _ _ _ _ Hs Hr).
Qed.

(** ** Ending *)

(** [C30] [terminate_child] ends, within its fuel, and the child with it.  From any state of a
    running command, whatever fails and however the time passes: the loop reaches the
    deadline of one second in at most 51 rounds, and when the function returns, the child
    was waited for, or wait(2) failed after kill(2) was called with [SIGKILL]; kill(2) was
    called for the child only, before it was waited for. *)
Theorem terminate_child_ends var_os w0 rs p w r w' :
  watching var_os w0 rs p w -> reach (terminate_child p) w (Ret r) w' ->
  r = Some tt /\ dealt_with w' /\ exists c, child w' = Some c /\ Forall (at_child c) (kills w').
Proof.
  intros Hw Hr. pose proof (safe_reach_ret _ _ _ _ _ _ (terminate_child_safe var_os w0 rs p w Hw) Hr) as (-> & Hc & _ & Hd).
  split_and!; [done..|]. destruct Hd as (c & E & _). destruct Hc as [_ _ Hk]. rewrite E in Hk. exists c. split; [done|apply Hk].
Qed.

Lemma land_ff n : Z.land n 0xff = n mod 256.
Proof. change 0xff with (Z.ones 8). by rewrite Z.land_ones. Qed.

Lemma land_7f n : Z.land n 0x7f = n mod 128.
Proof. change 0x7f with (Z.ones 7). by rewrite Z.land_ones. Qed.

(** [C39] The exit code tells how the child ended.  For every status it is between 0 and 255,
    so that nothing of it is lost when the process exits with it; a child that exited
    with a code gives that code, a child that was ended by a signal, with or without a
    core dump, 128 and the signal. *)
Theorem exit_status_code_faithful :
  (forall status, 0 <= exit_status_code status <= 255) /\
  (forall code, 0 <= code <= 255 -> exit_status_code (Z.shiftl code 8) = code) /\
  (forall signal core, 1 <= signal <= 126 -> exit_status_code (signal + (if core : bool then 128 else 0)) = 128 + signal).
Proof.
  split_and!.
  - intros status. unfold exit_status_code, status_code, status_signal. destruct (_ =? 0).
    + rewrite land_ff. pose proof (Z.mod_pos_bound (Z.shiftr status 8) 256 eq_refl). lia.
    + destruct (_ && _)%bool eqn:E; [bool_lia|lia].
  - intros code Hc. unfold exit_status_code, status_code. rewrite land_ff, land_7f.
    rewrite Z.shiftr_shiftl_l, Z.sub_diag, Z.shiftl_0_r, Z.shiftl_mul_pow2 by lia.
    change (2 ^ 8) with (2 * 128). rewrite Z.mul_assoc, Z.mod_mul by lia. cbn [Z.eqb]. apply Z.mod_small. lia.
  - intros s core Hs. unfold exit_status_code, status_code, status_signal. rewrite land_7f.
    assert ((s + (if core then 128 else 0)) mod 128 = s) as ->.
    { destruct core; [|rewrite Z.add_0_r; apply Z.mod_small; lia].
      rewrite <- (Z.mul_1_l 128) at 1. rewrite Z.mod_add by lia. apply Z.mod_small. lia. }
    rewrite (proj2 (Z.eqb_neq _ _)), (proj2 (Z.leb_le _ _)), (proj2 (Z.leb_le _ _)) by lia. done.
Qed.

(** ** Forwarding *)

Lemma FORWARDED_nodup : NoDup FORWARDED.
Proof. apply (bool_decide_unpack _). by vm_compute. Qed.

(** What [forward] adds to the calls of kill(2), from [w]: calls for [p] only, one at most
    for each of [ss], in their order; and one for each that had arrived. *)
Definition sent_all (p : Z) (ss : list Signal) (w w' : session) : Prop :=
  exists new, kills w' = kills w ++ new /\ Forall (fun k => kl_process k = p) new /\ kl_signal <$> new `sublist_of` ss /\
    forall s, s ∈ ss -> s ∈ flags w -> s ∈ kl_signal <$> new.

(** From a state in which kill(2) was called for [s], if it had arrived, and the others
    that had arrived still wait. *)
Lemma sent_all_cons p s ss w w2 new w' :
  kills w2 = kills w ++ new -> new = [] \/ (exists b f, new = [mkKill p s b f]) ->
  (s ∈ flags w -> new <> []) -> (forall s', s' <> s -> s' ∈ flags w -> s' ∈ flags w2) ->
  sent_all p ss w2 w' -> sent_all p (s :: ss) w w'.
Proof.
  intros Hk Hn Hs Hf (new' & Hk' & Hp & Hsub & Hall). exists (new ++ new'). rewrite fmap_app. split_and!.
  - by rewrite Hk', Hk, <- app_assoc.
  - apply Forall_app. split; [|done]. destruct Hn as [->|(b & f & ->)]; by repeat constructor.
  - destruct Hn as [->|(b & f & ->)]; [by apply sublist_cons|by apply sublist_skip].
  - intros s' Hin Hs'. apply elem_of_app. destruct (decide (s' = s)) as [->|Hne].
    + left. destruct Hn as [->|(b & f & ->)]; [by apply Hs in Hs'|by left].
    + right. apply elem_of_cons in Hin as [?|?]; [done|auto].
Qed.

Lemma forward_pending_sends p ss w :
  safe (fun _ => True) (forward_pending p ss) (fun _ w' => sent_all p ss w w') w.
Proof.
  revert w; induction ss as [|s ss IH]; intros w; cbn [forward_pending].
  { apply safe_ret; [done|]. exists []. rewrite app_nil_r. split_and!; [done|done|done|]. by intros s Hs%not_elem_of_nil. }
  assert (forall v w', w' = interfere v w -> kills w' = kills w /\ forall s', s' ∈ flags w -> s' ∈ flags w') as Hi.
  { intros v w' ->. split; [done|]. intros s' Hs'. cbn. apply elem_of_app. by left. }
  apply safe_bind, safe_vis; [done|]. intros v.
  assert (exec v w (SwapFlag s) = let w' := interfere v w in
    (bool_decide (s ∈ flags w'), set_flags w' (filter (fun s' => s' <> s) (flags w')))) as ->.
  { change (exec v w (SwapFlag s)) with (session_exec v w (SwapFlag s)). unfold session_exec. by destruct (fault v). }
  destruct (Hi v _ eq_refl) as [Hk Hf]. cbn [fst snd]. set (w1 := set_flags _ _). apply safe_ret; [done|].
  assert (forall s', s' <> s -> s' ∈ flags w -> s' ∈ flags w1) as Hf1.
  { intros s' Hne Hs'. apply list_elem_of_filter. auto. }
  case_bool_decide as Hin; apply safe_bind; cycle 1.
  { apply safe_ret; [done|]. eapply safe_mono; [..|apply IH]; [done|]. intros u w' Hw'.
    apply (sent_all_cons p s ss w w1 []); [by rewrite app_nil_r, <- Hk|by left| |done..]. intros Hs. by destruct Hin; apply Hf. }
  apply safe_bind, safe_vis; [done|]. intros v2.
  assert (exists r b f, exec v2 w1 (KillProcess p s) = (r, add_kill (interfere v2 w1) (mkKill p s b f))) as (r & b & f & ->).
  { change (exec v2 w1 (KillProcess p s)) with (session_exec v2 w1 (KillProcess p s)). unfold session_exec.
    destruct (fault v2); eauto. }
  cbn [fst snd]. apply safe_ret; [done|]. apply safe_ret; [done|]. eapply safe_mono; [..|apply IH]; [done|]. intros u w' Hw'.
  apply (sent_all_cons p s ss w (add_kill (interfere v2 w1) (mkKill p s b f)) [mkKill p s b f]); [|by right; eauto|done| |done].
  - cbn. by rewrite <- Hk.
  - intros s' Hne Hs'. apply elem_of_app. left. by apply Hf1.
Qed.

Lemma filter_agree (P Q : Signal -> Prop) `{!forall s, Decision (P s), !forall s, Decision (Q s)} (ss : list Signal) :
  (forall s, s ∈ ss -> P s <-> Q s) -> filter P ss = filter Q ss.
Proof.
  induction ss as [|s ss IH]; intros Hpq; [done|]. rewrite !filter_cons, IH by (intros s' Hs'; apply Hpq; by right).
  destruct (Hpq s (list_elem_of_here _ _)) as [H1 H2]. repeat case_decide; tauto || done.
Qed.

(** Without faults and interference: exactly those that had arrived are sent. *)
Lemma forward_pending_runs p ss w :
  NoDup ss -> run quiet_moment (forward_pending p ss) [] w =
    (tt, set_flags (set_kills w (kills w ++ ((fun s => mkKill p s (reaped w) None) <$> filter (fun s => s ∈ flags w) ss)))
      (filter (fun s => s ∉ ss) (flags w))).
Proof.
  revert w; induction ss as [|s ss IH]; intros w Hnd; cbn [forward_pending].
  { cbn. f_equal. rewrite app_nil_r. assert (filter (fun s => s ∉ []) (flags w) = flags w) as ->; [|by destruct w].
    induction (flags w) as [|s l IH]; [done|]. rewrite filter_cons, decide_True by apply not_elem_of_nil. by f_equal. }
  apply NoDup_cons in Hnd as [Hs Hnd].
  erewrite run_bind by (rewrite run_trigger, exec_quiet; reflexivity). cbn [session_answer].
  set (w1 := set_flags w (filter (fun s' => s' <> s) (flags w))).
  assert (filter (fun s' => s' ∈ flags w1) ss = filter (fun s' => s' ∈ flags w) ss) as Efs.
  { apply filter_agree. intros s' Hin. cbn. rewrite list_elem_of_filter. split; [tauto|]. intros. split; [by intros ->|done]. }
  assert (filter (fun s' => s' ∉ ss) (flags w1) = filter (fun s' => s' ∉ s :: ss) (flags w)) as Ef1.
  { cbn. rewrite list_filter_filter. apply list_filter_iff. intros s'. rewrite elem_of_cons. tauto. }
  rewrite filter_cons. case_bool_decide as Hin.
  - rewrite decide_True by done. erewrite run_bind.
    2: { erewrite run_bind by (rewrite run_trigger, exec_quiet; reflexivity). reflexivity. }
    change (run quiet_moment (forward_pending p ss) [] (add_kill w1 (mkKill p s (reaped w) None)) = 
      (tt, set_flags (set_kills w (kills w ++ mkKill p s (reaped w) None ::
        ((fun s => mkKill p s (reaped w) None) <$> filter (fun s => s ∈ flags w) ss))) (filter (fun s' => s' ∉ s :: ss) (flags w)))).
    rewrite IH by done. set (k := mkKill p s (reaped w) None). change (flags (add_kill w1 k)) with (flags w1). rewrite Efs, Ef1.
    assert (kills (add_kill w1 k) = kills w ++ [k]) as -> by done. by rewrite <- app_assoc.
  - rewrite decide_False by done. erewrite run_bind by reflexivity. rewrite IH by done.
    by rewrite Efs, Ef1.
Qed.

(** [C38] No signal is forgotten.  Whatever fails and whatever arrives meanwhile, [forward] only
    signals the child; it calls kill(2) at most once for each of the forwarded signals, in
    their order, and it does call it for every one that had arrived when [forward] was
    called; such a signal is sent unless kill(2) itself refuses, with the error that is
    recorded.  Undisturbed, exactly the forwarded signals that had arrived are sent, each
    once, in order, and their flags are cleared while the other flags stay. *)
Theorem signals_are_forwarded signals p w w' :
  pid_from_raw p = Some p -> NoDup (pending signals) -> reach (ForwardedSignals_forward signals p) w (Ret tt) w' ->
  (exists new, kills w' = kills w ++ new /\ Forall (fun k => kl_process k = p) new /\
     kl_signal <$> new `sublist_of` pending signals /\
     forall s, s ∈ pending signals -> s ∈ flags w -> s ∈ kl_signal <$> new) /\
  let w'' := snd (run quiet_moment (ForwardedSignals_forward signals p) [] w) in
  kills w'' = kills w ++ ((fun s => mkKill p s (reaped w) None) <$> filter (fun s => s ∈ flags w) (pending signals)) /\
  flags w'' = filter (fun s => s ∉ pending signals) (flags w).
Proof.
  intros Hp Hnd Hr. unfold ForwardedSignals_forward in *. rewrite Hp in *. split.
  - exact (safe_reach_ret _ _ _ _ _ _ (forward_pending_sends p (pending signals) w) Hr).
  - by rewrite forward_pending_runs.
Qed.

(** ** Undisturbed *)

(** A moment at which the child has ended. *)
Definition child_ends (st : Z) : moment := mkMoment None [] 0 None 0 calm obliging 1 (Some st) false.

Section Ending.
Context (var_os : environment) (to_string_lossy : bytes -> bytes) (p : path) (st : Z).

Hypothesis located : control_socket_path var_os = Ok p.

(** No agent, no signals, and the child runs. *)
Definition uneventful (w : session) : Prop :=
  find (disk w) p = None /\ flags w = [] /\ exists c, child w = Some c /\ status c = None.

Lemma exec_ends {X} (e : sessionE X) w : exec (child_ends st) w e = session_answer (child_ends st) w e.
Proof.
  change (exec (child_ends st) w e) with (session_answer (child_ends st) (interfere quiet_moment w) e). by rewrite interfere_quiet.
Qed.

(** Nothing has arrived. *)
Lemma no_flag v s w : flags w = [] -> session_answer v w (SwapFlag s) = (false, w).
Proof. intros Hf. cbn [session_answer]. rewrite Hf. by destruct w; cbn in Hf; subst. Qed.

(** One round of the loop, 50 ms. *)
Lemma one_round {B} fuel rs (f : option (result bytes Z) -> prog sessionE B) vs w :
  uneventful w -> exists w', uneventful w' /\ handlers w' = handlers w /\ clock w' = clock w + 50 /\
    run (child_ends st) (supervise_exec_child var_os (S fuel) 1 (mkForwardedSignals rs FORWARDED) ≫= f) (replicate 7 quiet_moment ++ vs) w =
    run (child_ends st) (supervise_exec_child var_os fuel 1 (mkForwardedSignals rs FORWARDED) ≫= f) vs w'.
Proof.
  intros (Hp & Hf & c & E & Hs).
  set (w1 := set_seen (set_child w (mkChild (pid c) None (spawned_after c) (spawned_seen c) (wait_failure c))) (Some (p, Err not_found))).
  exists (set_clock w1 (clock w + 50)). split_and!; [split_and!; [done..|by eexists]|done|done|].
  cbn [supervise_exec_child]. unfold ForwardedSignals_forward, map_err_prog. change (pid_from_raw 1) with (Some 1). unfold FORWARDED.
  cbn [pending forward_pending mbind prog_bind trigger replicate app].
  do 4 (cbn [run tail mbind prog_bind]; rewrite exec_quiet, no_flag by done).
  cbn [run tail mbind prog_bind]. rewrite exec_quiet. cbn [session_answer quiet_moment ended]. rewrite E, Hs.
  cbn [run tail mbind prog_bind trigger map_err]. unfold fetch_authorization_requests_if_running. rewrite located.
  cbn [run tail mbind prog_bind trigger try_bind]. rewrite exec_quiet. cbn [session_answer quiet_moment of_disk set_child disk].
  change (exec calm (disk w) (SymlinkMetadata p)) with (fs_exec calm (disk w) (SymlinkMetadata p)). cbn [fs_exec]. rewrite Hp.
  cbn [run tail mbind prog_bind trigger try_bind not_found kind]. rewrite decide_True by done.
  cbn [run tail mbind prog_bind trigger try_bind authorize_pending]. rewrite exec_quiet. reflexivity.
Qed.

Lemma rounds {B} n fuel rs (f : option (result bytes Z) -> prog sessionE B) w :
  uneventful w -> exists w', uneventful w' /\ handlers w' = handlers w /\ clock w' = clock w + 50 * Z.of_nat n /\
    run (child_ends st) (supervise_exec_child var_os (n + fuel) 1 (mkForwardedSignals rs FORWARDED) ≫= f) (replicate (7 * n) quiet_moment) w =
    run (child_ends st) (supervise_exec_child var_os fuel 1 (mkForwardedSignals rs FORWARDED) ≫= f) [] w'.
Proof.
  revert w; induction n as [|n IH]; intros w Hw.
  { exists w. split_and!; [apply Hw..|done|lia|done]. }
  destruct (one_round (n + fuel) rs f (replicate (7 * n) quiet_moment) w Hw) as (w1 & Hw1 & Hh1 & Hc1 & E1).
  destruct (IH w1 Hw1) as (w2 & Hw2 & Hh2 & Hc2 & E2). exists w2. split_and!; [apply Hw2..|congruence|lia|].
  rewrite <- E2, <- E1. f_equal. rewrite <- replicate_add. f_equal. lia.
Qed.

(** The round in which the child is found to have ended. *)
Lemma last_round {B} fuel rs (f : option (result bytes Z) -> prog sessionE B) w :
  uneventful w -> exists w', handlers w' = handlers w /\ clock w' = clock w /\
    run (child_ends st) (supervise_exec_child var_os (S fuel) 1 (mkForwardedSignals rs FORWARDED) ≫= f) [] w =
    run (child_ends st) (f (Some (Ok st))) [] w'.
Proof.
  intros (Hp & Hf & c & E & Hs). exists (set_child w (mkChild (pid c) (Some st) (spawned_after c) (spawned_seen c) (wait_failure c))). split_and!; [done..|].
  cbn [supervise_exec_child]. unfold ForwardedSignals_forward, map_err_prog. change (pid_from_raw 1) with (Some 1). unfold FORWARDED.
  cbn [pending forward_pending mbind prog_bind trigger].
  do 4 (cbn [run tail mbind prog_bind]; rewrite exec_ends, no_flag by done).
  cbn [run tail mbind prog_bind]. rewrite exec_ends. cbn [session_answer child_ends ended]. rewrite E, Hs. reflexivity.
Qed.

(** The handlers are removed. *)
Lemma run_drop {B} (f : unit -> prog sessionE B) w :
  handlers w = [(0%nat, HUP); (1%nat, INT); (2%nat, QUIT); (3%nat, TERM)] ->
  exists w', clock w' = clock w /\ handlers w' = [] /\
    run (child_ends st) (ForwardedSignals_drop (mkForwardedSignals [0; 1; 2; 3]%nat FORWARDED) ≫= f) [] w =
    run (child_ends st) (f tt) [] w'.
Proof.
  intros Hh. eexists. split_and!; cycle 2.
  - cbn [ForwardedSignals_drop registrations unregister_all mbind prog_bind trigger].
    do 4 (cbn [run tail mbind prog_bind]; rewrite exec_ends; cbn [session_answer]). reflexivity.
  - done.
  - cbn [set_handlers handlers]. rewrite Hh. by vm_compute.
Qed.
End Ending.

(** [keyvisor exec] lasts as long as its child.  Undisturbed, without an agent, if the
    child runs through [n] rounds of the loop and has then ended with a status, the
    command waits for these rounds of 50 ms, and ends with the exit code of that status,
    with its handlers gone. *)
Theorem exec_ends_with_its_child var_os to_string_lossy p st n program arguments w :
  control_socket_path var_os = Ok p -> find (disk w) p = None -> flags w = [] -> handlers w = [] ->
  exists w', run (child_ends st) (run_exec var_os to_string_lossy (S n) (str "--" :: program :: arguments))
      (replicate (6 + 7 * n) quiet_moment) w = (Some (Ok (exit_status_code st)), w') /\
    clock w' = clock w + 50 * Z.of_nat n /\ handlers w' = [].
Proof.
  intros Hl Hp Hf Hh. set (vs := replicate (7 * n) quiet_moment).
  set (hs := [(0%nat, HUP); (1%nat, INT); (2%nat, QUIT); (3%nat, TERM)]).
  set (i := Some (p, Err not_found) : inspection).
  set (w1 := set_child (set_handlers (set_seen w i) hs) (mkChild 1 None (talks w) i None)).
  assert (uneventful p w1) as Hw1 by (split_and!; [done..|by eexists]).
  set (drop := fun r : option (result bytes Z) => match r return prog sessionE (option (result bytes Z)) with
    | None => Ret None
    | Some (Ok status) =>
        _ ← ForwardedSignals_drop (mkForwardedSignals [0; 1; 2; 3]%nat FORWARDED); Ret (Some (Ok (exit_status_code status)))
    | Some (Err error) =>
        _ ← terminate_child 1; _ ← ForwardedSignals_drop (mkForwardedSignals [0; 1; 2; 3]%nat FORWARDED); Ret (Some (Err error))
    | Some Panic => Ret (Some Panic)
    end).
  destruct (rounds var_os p st Hl n 1 [0; 1; 2; 3]%nat drop w1 Hw1) as (w2 & Hw2 & Hh2 & Hc2 & E2).
  destruct (last_round var_os p st 0 [0; 1; 2; 3]%nat drop w2 Hw2) as (w3 & Hh3 & Hc3 & E3).
  destruct (run_drop st (fun _ => Ret (Some (Ok (exit_status_code st) : result bytes Z))) w3) as (w4 & Hc4 & Hh4 & E4); [by rewrite Hh3, Hh2|].
  exists w4. split_and!; [|rewrite Hc4, Hc3, Hc2; done|done].
  rewrite Nat.add_1_r in E2. rewrite E3 in E2. unfold drop in E2 at 2. rewrite E4 in E2. cbn [run] in E2. rewrite <- E2.
  unfold run_exec, run_child. rewrite bool_decide_true by done. cbn [negb orb is_empty].
  unfold fetch_authorization_requests_if_running, map_err_prog, ForwardedSignals_install, FORWARDED. rewrite Hl.
  change (replicate (6 + 7 * n) quiet_moment) with (replicate 6 quiet_moment ++ vs). cbn [replicate app].
  cbn [run tail mbind prog_bind trigger try_bind]. rewrite exec_quiet. cbn [session_answer quiet_moment of_disk].
  change (exec calm (disk w) (SymlinkMetadata p)) with (fs_exec calm (disk w) (SymlinkMetadata p)). cbn [fs_exec]. rewrite Hp.
  cbn [run tail mbind prog_bind trigger try_bind not_found kind]. rewrite decide_True by done.
  cbn [run tail mbind prog_bind trigger try_bind is_empty negb install_from].
  do 4 (unfold map_err_prog; cbn [run tail mbind prog_bind trigger]; rewrite exec_quiet;
    cbn [session_answer map_err set_handlers set_seen handlers]; rewrite ?Hh; cbn [length app]).
  cbn [run tail mbind prog_bind trigger map_err registrations pending app]. rewrite exec_quiet. reflexivity.
Qed.

(** ** A command that makes a signature *)

Module Sample.
Definition home : environment := Client.Sample.home.

(** The agent is not running. *)
Definition start : session :=
  mkSession EmptyDir.state Secrets.Sample.someone None [] [] [] 0 None [] [] [].

(** While the command runs, the agent has nothing pending and the terminal sends a signal. *)
Definition agent_says (line : bytes) : source := mkSource (line ++ [newline]) None.
Definition busy : session :=
  mkSession Client.Sample.disk Secrets.Sample.someone None [agent_says (str "OK KEYVISOR-PENDING-1 0")] [] [] 0 None [] [] [].
Definition interrupt : moment := mkMoment None [INT] 0 None 0 calm obliging 7 None false.
Definition program : list bytes := [str "--"; str "git"; str "push"].
Definition moments : list moment := replicate 12 quiet_moment ++ [interrupt].

Lemma exec_is_cautious_witness :
  let '(r, w') := run (child_ends 2) (run_exec home id 5 program) moments busy in
  r = Some (Ok 130) /\ kills w' = [mkKill 7 INT false None] /\ cautious home busy w' /\ handlers w' = [].
Proof.
  pose proof (run_reach (child_ends 2) (run_exec home id 5 program) moments busy) as Hr.
  assert (fst (run (child_ends 2) (run_exec home id 5 program) moments busy) = Some (Ok 130)) as E1 by (vm_compute; reflexivity).
  assert (kills (snd (run (child_ends 2) (run_exec home id 5 program) moments busy)) = [mkKill 7 INT false None]) as E2
    by (vm_compute; reflexivity).
  destruct (run (child_ends 2) (run_exec home id 5 program) moments busy) as [r w'].
  cbn [fst snd] in *. subst r. split; [reflexivity|]. split; [exact E2|].
  destruct (exec_is_cautious home id 5 program busy _ _ eq_refl eq_refl eq_refl eq_refl Hr) as [Hc Hd].
  split; [exact Hc|exact (proj1 (Hd _ eq_refl))].
Defined.

Lemma exec_ends_with_its_child_witness :
  exists w', run (child_ends 256) (run_exec home id 4 program) (replicate 27 quiet_moment) start = (Some (Ok 1), w') /\
    clock w' = 150.
Proof.
  destruct (exec_ends_with_its_child home id [str "k"; str "c"] 256 3 (str "git") [str "push"] start) as (w' & Hr & Hc & _).
  - by vm_compute.
  - by vm_compute.
  - reflexivity.
  - reflexivity.
  - exists w'. split; [exact Hr|exact Hc].
Defined.

(** A child that does not care, started when there was no agent. *)
Definition no_agent : inspection := Some ([str "k"; str "c"], Err not_found).
Definition stubborn : session :=
  mkSession EmptyDir.state Secrets.Sample.someone None [] [] [] 0 (Some (mkChild 9 None [] no_agent None)) [] [INT] [].

Lemma stubborn_watched : watching home stubborn [] 9 stubborn.
Proof.
  split_and!; [|constructor|by eexists]. split; [reflexivity|constructor|]. split; [|constructor].
  right. split; [reflexivity|]. exists [str "k"; str "c"], not_found. by split_and!.
Qed.

Lemma terminate_child_ends_witness :
  let '(r, w') := run quiet_moment (terminate_child 9) [] stubborn in
  r = Some tt /\ dealt_with w' /\ kills w' = [mkKill 9 TERM false None; mkKill 9 KILL false None].
Proof.
  pose proof (run_reach quiet_moment (terminate_child 9) [] stubborn) as Hr.
  assert (kills (snd (run quiet_moment (terminate_child 9) [] stubborn)) = [mkKill 9 TERM false None; mkKill 9 KILL false None]) as E
    by (vm_compute; reflexivity).
  destruct (run quiet_moment (terminate_child 9) [] stubborn) as [r w']. cbn [fst snd] in *.
  destruct (terminate_child_ends home stubborn [] 9 stubborn r w' stubborn_watched Hr) as (Hr' & Hd & _).
  split; [exact Hr'|]. split; [exact Hd|exact E].
Defined.

Lemma signals_are_forwarded_witness :
  kills (snd (run quiet_moment (ForwardedSignals_forward (mkForwardedSignals [] FORWARDED) 9) [] stubborn)) =
    [mkKill 9 INT false None].
Proof.
  pose proof (run_reach quiet_moment (ForwardedSignals_forward (mkForwardedSignals [] FORWARDED) 9) [] stubborn) as Hr.
  destruct (fst (run quiet_moment (ForwardedSignals_forward (mkForwardedSignals [] FORWARDED) 9) [] stubborn)).
  exact (proj1 (proj2 (signals_are_forwarded (mkForwardedSignals [] FORWARDED) 9 stubborn _ eq_refl
    FORWARDED_nodup Hr))).
Defined.

Lemma exit_status_code_faithful_witness : exit_status_code (Z.shiftl 3 8) = 3 /\ exit_status_code 143 = 143.
Proof.
  split; [exact (proj1 (proj2 exit_status_code_faithful) 3 ltac:(lia))|].
  exact (proj2 (proj2 exit_status_code_faithful) 15 true ltac:(lia)).
Defined.
End Sample.
