(* ===== verification/Main.v ===== *)
(** The entry points of the two programs: [main] and [run] of crates/keyvisor-cli/src/main.rs
    and crates/keyvisor-agent/src/main.rs, which put the other files together. *)

From S2P Require Import Prelude Bytes Text Effects FileSystem Paths Tpm.
From S2P Require Sockets Accept Commands Client Exec.

(** [std::process::exit] and the exit codes of [main]; a panic gives 101. *)
Definition EXIT_FAILURE : Z := 1.
Definition EXIT_PANIC : Z := 101.

(** ** keyvisor *)

Section Keyvisor.
Context {E : Type -> Type} `{!TpmSigner E}.
Context (Sha256 STANDARD_NO_PAD_encode STANDARD_encode to_string_lossy : bytes -> bytes).
Context (var_os : environment) (process_id : Z).
(** [CARGO_PKG_VERSION], when the program is built. *)
Context (version : bytes).

Inductive keyvisorE : Type -> Type :=
  | OnCommand (X : Type) (e : Commands.cmdE X) : keyvisorE X
  | OnSession (X : Type) (e : Client.sessionE X) : keyvisorE X.

Definition println (line : bytes) : prog keyvisorE (result bytes unit) := trigger (OnCommand _ (Commands.Println line)).

(** A command that returns lets the process end with the code 0. *)
Definition returns (r : result bytes unit) : option (result bytes Z) := Some ((fun _ => 0) <$> r).
Definition on_command (p : prog Commands.cmdE (result bytes unit)) : prog keyvisorE (option (result bytes Z)) :=
  r ← lift OnCommand p; Ret (returns r).
Definition on_session (p : prog Client.sessionE (result bytes unit)) : prog keyvisorE (option (result bytes Z)) :=
  r ← lift OnSession p; Ret (returns r).

Definition help : bytes := str "Keyvisor — TPM-backed SSH key management

Usage:
  keyvisor key create --name NAME --authorization none|pin [--algorithm ecdsa-p256|ecdsa-p384] [--yes] [--terminal|--pinentry|--pin-stdin]
  keyvisor key list [--format human|tsv]
  keyvisor key show ID
  keyvisor key delete ID [--yes]
  keyvisor config list
  keyvisor config get NAME
  keyvisor config set NAME VALUE
  keyvisor agent status
  keyvisor history [--format human|tsv]
  keyvisor authorize [REQUEST_ID] [--terminal|--pinentry|--pin-stdin]
  keyvisor exec -- COMMAND [ARGUMENT ...]".

Definition print_help : prog keyvisorE (option (result bytes Z)) := r ← println help; Ret (returns r).
Definition print_version : prog keyvisorE (option (result bytes Z)) :=
  r ← println (str "keyvisor " ++ version); Ret (returns r).

Definition UNKNOWN : bytes := str "unknown command; run `keyvisor --help`".

(** The arms of [run] with a command name. *)
Definition run_command (fuel : nat) (command : bytes) (rest : list bytes) : prog keyvisorE (option (result bytes Z)) :=
  if decide (command = str "key") then
    on_command (Commands.run_key Sha256 STANDARD_NO_PAD_encode STANDARD_encode var_os process_id rest)
  else if decide (command = str "config") then on_command (Commands.run_config var_os process_id rest)
  else if decide (command = str "agent") then on_session (Client.run_agent var_os rest)
  else if decide (command = str "history") then on_command (Commands.run_history var_os rest)
  else if decide (command = str "authorize") then on_session (Client.run_authorize var_os rest)
  else if decide (command = str "exec") then lift OnSession (Exec.run_exec var_os to_string_lossy fuel rest)
  else Ret (Some (Err UNKNOWN)).

(** The result is the code the process exits with; [fuel] is that of [exec]. *)
Definition run (fuel : nat) (arguments : list bytes) : prog keyvisorE (option (result bytes Z)) :=
  match arguments with
  | [] => print_help
  | [flag] =>
      if decide (flag = str "--version" \/ flag = str "-V") then print_version
      else if decide (flag = str "--help" \/ flag = str "-h") then print_help
      else run_command fuel flag []
  | command :: rest => run_command fuel command rest
  end.

(** The error is printed; printing can itself panic. *)
Definition main (fuel : nat) (arguments : list bytes) : prog keyvisorE (option Z) :=
  result ← run fuel arguments;
  match result with
  | None => Ret None
  | Some (Ok code) => Ret (Some code)
  | Some (Err error) =>
      printed ← trigger (OnCommand _ (Commands.Eprintln (str "keyvisor: " ++ error)));
      match printed with Panic => Ret (Some EXIT_PANIC) | _ => Ret (Some EXIT_FAILURE) end
  | Some Panic => Ret (Some EXIT_PANIC)
  end.

Lemma run_authorize_command fuel argument rest :
  run fuel (str "authorize" :: argument :: rest) = on_session (Client.run_authorize var_os (argument :: rest)).
Proof. reflexivity. Qed.
End Keyvisor.

(** ** keyvisor-agent *)

Section Agent.
Context (var_os : environment) (version : bytes).

Inductive agentE : Type -> Type :=
  | OnSockets (X : Type) (e : Sockets.sockE X) : agentE X
  | OnClients (X : Type) (e : Accept.acceptE X) : agentE X
  | Println (line : bytes) : agentE (result bytes unit).

(** [serve] with its accept loop, which never ends: [None] after [rounds] of it. *)
Definition serve (rounds fuel : nat) (socket_path : path) : prog agentE (option (result bytes unit)) :=
  service ← lift OnSockets (Sockets.serve var_os socket_path);
  match service with
  | Ok _ => _ ← lift OnClients (Accept.serve_clients rounds fuel); Ret None
  | Err error => Ret (Some (Err error))
  | Panic => Ret (Some Panic)
  end.

Definition agent_run (rounds fuel : nat) (arguments : list bytes) : prog agentE (option (result bytes unit)) :=
  if decide (arguments = [str "--version"]) then
    r ← trigger (Println (str "keyvisor-agent " ++ version)); Ret (Some r)
  else if decide (arguments = [] \/ arguments = [str "serve"]) then
    match default_socket_path var_os with
    | Ok socket_path => serve rounds fuel socket_path
    | Err error => Ret (Some (Err error))
    | Panic => Ret (Some Panic)
    end
  else Ret (Some (Err (str "usage: keyvisor-agent [serve|--version]"))).

(** The exit code. *)
Definition agent_main (rounds fuel : nat) (arguments : list bytes) : prog agentE (option Z) :=
  result ← agent_run rounds fuel arguments;
  match result with
  | None => Ret None
  | Some (Ok _) => Ret (Some 0)
  | Some (Err error) =>
      _ ← trigger (OnClients _ (Accept.Eprintln (str "keyvisor-agent: " ++ error)));
      Ret (Some EXIT_FAILURE)
  | Some Panic => Ret (Some EXIT_PANIC)
  end.
End Agent.
