(* ===== verification/Dialog.v ===== *)
(** The dialog of a signing request, from start to end: [AgentRuntime] of
    crates/keyvisor-agent/src/main.rs (Runtime) with the dialog process (Graphical) and the
    command it runs (Main). *)

From S2P Require Import Prelude Bytes Text Core Protocol Effects Tpm FileSystem Paths.
From S2P Require KeyStore Graphical Secrets Control Client Main.
From S2P Require Import Broker Runtime.

Section Dialog.
Context {E : Type -> Type} {TS TV : Type} `{!Handler E TS TV} `{!TpmSigner E} (tpm_calm : TV) `{!TpmSignerLaws E tpm_calm}.
Context (Sha256 Sha384 : bytes -> bytes) (a : agent).
Abbreviation world := (@Runtime.world E TS _).
Abbreviation interference := (@Runtime.interference E TS TV _).
Abbreviation agentE := (@Runtime.agentE E _).
#[local] Instance request_handler : Handler agentE world interference := agent_handler tpm_calm a.

(** *** The identifier of the request *)

Definition mine (id : bytes) (w : world) : Prop :=
  (exists pid sequence, id = request_id pid sequence) /\
  exists ch r, channel w = Some ch /\ begun (shared w) ch r /\ rq_id r = id.

(** Every operation but [BeginRequest] and those of the dialog leaves both alone. *)
Definition aside X (e : agentE X) : Prop := match e with BeginRequest _ | Dialog _ => False | _ => True end.

Lemma after_pin_aside X (e : agentE X) : after_pin X e -> aside X e.
Proof. by destruct e. Qed.

Lemma interfere_desktop (v : interference) w : desktop (interfere v w) = desktop w.
Proof. unfold interfere. by destruct (steps _ _), (new_files v), (new_tpm v) as [[? ?]|], (disconnected v). Qed.

Lemma mine_moves id w w' es :
  channel w' = channel w -> steps (shared w) es = Some (shared w') -> mine id w -> mine id w'.
Proof.
  intros Hc Hs [Hid (ch & r & Hch & Hr & <-)]. split; [done|].
  destruct (begun_steps _ _ _ _ _ Hs Hr) as (r' & Hr' & (Hi & _) & _). exists ch, r'. split_and!; [congruence|done..].
Qed.

Lemma mine_extends P id w w' : extends P w w' -> mine id w -> mine id w'.
Proof. intros [Hc _ _ _ _ _ (es & _ & Hs & _)]. by apply mine_moves with es. Qed.

Lemma own_desktop (w : world) e : desktop (own_step w e) = desktop w.
Proof. unfold own_step. by destruct (step _ _). Qed.

Lemma aside_desktop {X} (e : agentE X) (v : interference) w :
  aside X e -> desktop (snd (agent_exec tpm_calm a v w e)) = desktop w.
Proof.
  intros He. destruct e; try done; cbn [agent_exec snd]; try apply own_desktop; try (by destruct (poisoned v));
    try (by destruct (run _ _ _ _)).
  - by destruct (run _ _ _ _) as [[] ?].
  - destruct (poisoned v); [done|]. by destruct (run _ _ _ _).
Qed.

Lemma aside_mine {X} (e : agentE X) (v : interference) id w :
  aside X e -> mine id w -> mine id (snd (agent_exec tpm_calm a v w e)).
Proof.
  intros He Hm.
  assert (forall e0, mine id (own_step w e0)) as Hown by (intros e0; by apply (mine_extends _ _ _ _ (extends_own (fun _ => True) w e0 I))).
  destruct e; try done; cbn [agent_exec snd]; try apply Hown; try (by destruct (poisoned v));
    try (by destruct (run _ _ _ _)).
  - by destruct (run _ _ _ _) as [[] ?].
  - destruct (poisoned v); [done|]. by destruct (run _ _ _ _).
Qed.

(** *** The invariant of a request *)

Definition untouched (w : world) : Prop := desktop w = Graphical.no_dialog.
Definition followed (w : world) : Prop :=
  untouched w \/ exists id, mine id w /\ Graphical.tidy (var_os a) id (desktop w).

(** A state of the request's own dialog. *)
Definition with_dialog (id : bytes) (D : Graphical.desktop -> Prop) (w : world) : Prop :=
  mine id w /\ Graphical.tidy (var_os a) id (desktop w) /\ D (desktop w).

Lemma with_dialog_followed id D w : with_dialog id D w -> followed w.
Proof. intros (? & ? & _). right. by exists id. Qed.

Lemma aside_with_dialog {X} (e : agentE X) v id D w :
  aside X e -> with_dialog id D w -> with_dialog id D (snd (exec v w e)).
Proof.
  intros He (Hm & Ht & HD). unfold exec, request_handler, agent_handler, with_dialog.
  rewrite (aside_desktop e v _ He), interfere_desktop. split_and!; [|done..].
  apply aside_mine; [done|]. by eapply mine_extends, Hm; apply interfere_extends.
Qed.

Lemma aside_untouched {X} (e : agentE X) v w : aside X e -> untouched w -> untouched (snd (exec v w e)).
Proof. intros He Hw. unfold exec, request_handler, agent_handler, untouched. by rewrite (aside_desktop e v _ He), interfere_desktop. Qed.

(** One such operation. *)
Lemma aside_op {X A} (J : world -> Prop) (e : agentE X) (f : X -> prog agentE A) Q w :
  aside X e -> (forall w, J w -> followed w) -> (forall v w, J w -> J (snd (exec v w e))) -> J w ->
  (forall x w', J w' -> safe followed (f x) Q w') -> safe followed (trigger e ≫= f) Q w.
Proof. intros He Hf HJ Hw H. apply safe_vis; [by apply Hf|]. intros v. by apply H, HJ. Qed.

Lemma aside_dialog_op {X A} id D (e : agentE X) (f : X -> prog agentE A) Q w :
  aside X e -> with_dialog id D w -> (forall x w', with_dialog id D w' -> safe followed (f x) Q w') ->
  safe followed (trigger e ≫= f) Q w.
Proof.
  intros He Hw H. apply (aside_op (with_dialog id D)); [done|apply with_dialog_followed| |done|done].
  intros v w1. by apply aside_with_dialog.
Qed.

Ltac step_aside H := eapply aside_dialog_op; [|exact H|]; [done|].

(** What the dialog's part promises of the process, it promises in the agent. *)
Lemma lift_dialog {A} id (p : prog Graphical.dialogE A) Q w :
  safe (Graphical.tidy (var_os a) id) p Q (desktop w) -> mine id w ->
  safe followed (on_dialog p) (fun x w' => with_dialog id (Q x) w') w.
Proof.
  revert w. induction p as [x|X e k IH]; intros w [Ht Hp] Hm.
  { assert (with_dialog id (Q x) w) as Hw by done. apply safe_ret; [by eapply with_dialog_followed|done]. }
  apply safe_vis; [right; by exists id|]. intros v. specialize (Hp (Runtime.dialog v)).
  unfold exec, request_handler, agent_handler in *. cbn [agent_exec]. rewrite interfere_desktop.
  unfold Graphical.dialog_handler in Hp.
  destruct (Graphical.dialog_exec (Runtime.dialog v) (desktop w) e) as [x d]. cbn [fst snd] in *. apply IH; [done|].
  assert (mine id (interfere v w)) as Hi by (eapply mine_extends, Hm; apply interfere_extends). done.
Qed.

(** *** The prompt *)

Definition looked (id : bytes) (x : loop_result) (w : world) : Prop :=
  match x with
  | Some (_, child) => with_dialog id (Graphical.held (var_os a) id child) w
  | None => exists D, with_dialog id D w
  end.

Lemma give_up_dialog id child deadline (again : prog agentE loop_result) w :
  with_dialog id (Graphical.held (var_os a) id child) w ->
  (forall w', with_dialog id (Graphical.held (var_os a) id child) w' -> safe followed again (looked id) w') ->
  safe followed (give_up_or deadline child again) (looked id) w.
Proof.
  intros Hw Hagain. step_aside Hw. intros now w1 H1.
  assert (forall e w, with_dialog id (Graphical.held (var_os a) id child) w ->
    safe followed (Ret (Some (Err e, child))) (looked id) w) as Hret.
  { intros e w2 H2. apply safe_ret; [by eapply with_dialog_followed|done]. }
  destruct (deadline <=? now); [by apply Hret|].
  apply safe_bind. step_aside H1. intros cancelled w2 H2.
  destruct cancelled; (apply safe_ret; [by eapply with_dialog_followed|]); [by apply Hret|].
  step_aside H2. intros _ w3 H3. by apply Hagain.
Qed.

Lemma wait_dialog fuel ch deadline id child w :
  with_dialog id (Graphical.held (var_os a) id child) w ->
  safe followed (wait_for_pin fuel ch deadline child) (looked id) w.
Proof.
  revert child w. induction fuel as [|fuel IH]; intros child w Hw; cbn [wait_for_pin].
  { apply safe_ret; [by eapply with_dialog_followed|by eexists]. }
  step_aside Hw. intros received w1 H1.
  destruct received as [pin| |]; [by apply safe_ret; [eapply with_dialog_followed|]| |by apply safe_ret; [eapply with_dialog_followed|]].
  unfold still_there. destruct child; [|by apply give_up_dialog; [|intros w'; apply IH]].
  apply safe_bind, safe_bind. eapply safe_mono; [done| |eapply lift_dialog, H1; apply Graphical.has_ended_safe, H1].
  intros ended w2 (Hm & Ht & Hh & _). assert (with_dialog id (Graphical.held (var_os a) id (negb ended)) w2) as H2 by done.
  apply safe_ret; [by eapply with_dialog_followed|]. by apply give_up_dialog; [|intros w'; apply IH].
Qed.

(** A request that has its PIN, or is refused: its dialog is gone. *)
Definition over (w : world) : Prop :=
  untouched w \/ exists id, with_dialog id (Graphical.settled (var_os a) id) w.

Lemma over_followed w : over w -> followed w.
Proof. intros [H|[id H]]; [by left|by eapply with_dialog_followed]. Qed.

Lemma aside_over {X} (e : agentE X) v w : aside X e -> over w -> over (snd (exec v w e)).
Proof. intros He [H|[id H]]; [left; by apply aside_untouched|right; exists id; by apply aside_with_dialog]. Qed.

(** [request_pin], when the dialog has not been touched. *)
Lemma begin_dialog n w v :
  untouched w ->
  let '(r, w') := agent_exec tpm_calm a v (interfere v w) (BeginRequest n) in
  untouched w' /\ match r with Ok (id, _) => mine id w' | _ => True end.
Proof.
  intros Hw. assert (untouched (interfere v w)) as H1 by (unfold untouched; by rewrite interfere_desktop).
  revert H1. generalize (interfere v w). clear w Hw. intros w Hw. cbn [agent_exec].
  assert (untouched (own_step w (Begin n))) as H2 by (unfold untouched; by rewrite own_desktop).
  destruct (lock_poisoned (shared w)) eqn:El; [done|]. split; [done|]. split; [by do 2 eexists|].
  eexists (started (shared w)), _. split_and!; [done| |].
  - unfold begun, own_step. cbn [step]. unfold begin_request. rewrite El. cbn. split; [by rewrite lookup_insert_eq|lia].
  - done.
Qed.

Lemma request_pin_dialog fuel n w :
  untouched w -> safe followed (request_pin a fuel n) (fun x w' => x <> None -> over w') w.
Proof.
  intros Hw. apply safe_vis; [by left|]. intros v. pose proof (begin_dialog n w v Hw) as H.
  unfold exec, request_handler, agent_handler. destruct (agent_exec _ _ _ _ _) as [r w1]. cbn [fst snd].
  destruct H as [H1 Hid]. destruct r as [[id ch]|u|]; [|by apply safe_ret; left..].
  assert (safe (Graphical.tidy (var_os a) id) (Graphical.start_graphical_authorizer (var_os a) id)
    (Graphical.held (var_os a) id) (desktop w1)) as Hstart.
  { rewrite H1. apply Graphical.start_safe; [|done..]. by split; [left|]. }
  apply safe_bind. eapply safe_mono; [done| |apply lift_dialog; [exact Hstart|exact Hid]].
  intros child w2 H2. step_aside H2. intros now w3 H3.
  apply safe_bind. eapply safe_mono; [done| |by apply wait_dialog]. intros [[result child']|] w4 H4.
  2: { destruct H4 as [D H4]. by apply safe_ret; [eapply with_dialog_followed|]. }
  step_aside H4. intros _ w5 (Hm & _ & H5). apply safe_bind.
  eapply safe_mono; [done| |apply lift_dialog; [apply Graphical.stop_authorizer_safe, H5|exact Hm]].
  intros u w6 H6. step_aside H6. intros _ w7 H7.
  apply safe_ret; [by eapply with_dialog_followed|]. intros _. right. by exists id.
Qed.

Lemma obtain_dialog fuel key w :
  untouched w -> safe followed (obtain_pin a fuel key) (fun x w' => x <> None -> over w') w.
Proof.
  intros Hw. unfold obtain_pin. destruct (use_policy _); [|by apply request_pin_dialog].
  apply safe_ret; [by left|]. intros _. by left.
Qed.

(** *** The request *)

Lemma after_over {A} (p : prog agentE A) w : every after_pin p -> over w -> safe followed p (fun _ => over) w.
Proof.
  intros Hp Hw. eapply safe_mono; [apply over_followed| |apply (safe_every after_pin over)]; [done| |done|done].
  intros X e v s He. by apply aside_over, after_pin_aside.
Qed.

Lemma untouched_prog {A} (p : prog agentE A) w : every aside p -> untouched w -> safe followed p (fun _ => untouched) w.
Proof.
  intros Hp Hw. eapply (safe_mono untouched); [by left| |apply (safe_every aside untouched)]; [done| |done|done].
  intros X e v s He. by apply aside_untouched.
Qed.

Definition answered (x : option (result bytes bytes)) (w : world) : Prop := x <> None -> over w.

Lemma handle_dialog fuel packet w :
  untouched w -> safe followed (handle Sha256 Sha384 a fuel packet) answered w.
Proof.
  intros Hw. unfold handle.
  assert (forall x w, over w -> safe followed (Ret x) answered w) as Hret.
  { intros x w1 H1. apply safe_ret; [by apply over_followed|intros _; exact H1]. }
  assert (forall x w, untouched w -> safe followed (Ret x) answered w) as Hret0 by (intros; apply Hret; by left).
  assert (every aside (map_err_prog KeyStore.StoreError_display (trigger (StoreList : agentE _)))) as Hlist by done.
  apply safe_bind. eapply safe_mono; [done| |apply untouched_prog; [|exact Hw]].
  2: { eapply every_mono, check_after. intros X e. apply after_pin_aside. }
  intros c w1 H1. destruct c; [|by apply Hret0..]. destruct (parse_request packet) as [[|pk data flags]|e|]; cbn [map_err];
    [..|by apply Hret0|by apply Hret0].
  { apply safe_bind. eapply safe_mono; [done| |by apply untouched_prog].
    intros [keys|e|] w2 H2; by apply Hret0. }
  destruct (negb _); [by apply Hret0|]. apply safe_bind. eapply safe_mono; [done| |by apply untouched_prog].
  intros [keys|e|] w2 H2; [|by apply Hret0..]. destruct (find_key pk keys) as [key|]; [|by apply Hret0].
  unfold sign_with_key. apply safe_bind, safe_bind. eapply safe_mono; [done| |by apply safe_end, obtain_dialog].
  assert (forall result w, over w ->
    safe followed (recorded ← record_history a key (if is_ok result then History.Succeeded else History.Failed);
      match recorded with Panic => Ret (Some Panic) | _ => Ret (Some result) end) answered w) as Hrecord.
  { intros result w3 H3. apply safe_bind. eapply safe_mono; [done| |by apply after_over; [apply record_after|]].
    intros [] w4 H4; by apply Hret. }
  intros [[pin|e|]|] w3 [Hf3 H3]; [|by apply safe_ret; [|apply Hrecord, H3]|by apply safe_ret; [|apply Hret, H3]|by apply safe_ret; [|apply safe_ret]].
  apply safe_bind. eapply safe_mono; [done| |by apply after_over; [apply sign_after|apply H3]].
  intros r w4 H4. apply safe_ret; [by apply over_followed|]. destruct r; [by apply Hrecord..|by apply Hret].
Qed.

(** [C19] A signing request's dialog is its own, and is cleaned up.  Whatever the processes, the
    threads, the peers and the clock do and whatever fails: while a request is handled at most one
    process is started, in a graphical session only, and it is the [keyvisor] next to the agent
    with the arguments that make it authorize the broker's entry of this very request with a
    dialog; no signal is ever sent to a process that was waited for; and when the request ends, as
    it does once the deadline has passed, the process, if there was one, has been waited for,
    unless waiting itself failed. *)
Theorem dialog_is_its_own cli_sha256 STANDARD_NO_PAD_encode STANDARD_encode to_string_lossy process_id version
    fuel packet w p w' :
  desktop w = Graphical.no_dialog -> authorization_timeout a <= 50 * Z.of_nat fuel ->
  reach (handle Sha256 Sha384 a (S fuel) packet) w p w' ->
  (Graphical.commands (desktop w') = [] \/ Graphical.graphical_session_available (var_os a) = true /\
     exists ch r exe rest, channel w' = Some ch /\ begun (shared w') ch r /\
       Graphical.commands (desktop w') = [(Graphical.with_file_name exe (str "keyvisor"), str "authorize" :: rest)] /\
       Client.parse_authorize rest None Pinentry.Auto = Ok (Some (rq_id r), Pinentry.Pinentry) /\
       Main.run cli_sha256 STANDARD_NO_PAD_encode STANDARD_encode to_string_lossy (var_os a) process_id version fuel
         (str "authorize" :: rest) = Main.on_session (Client.run_authorize (var_os a) rest)) /\
  Forall (fun r => r = false) (Graphical.kills (desktop w')) /\
  (forall x, p = Ret x -> is_Some x /\
     (Graphical.gone (desktop w') \/ Graphical.wait_failed (desktop w') = true)).
Proof.
  intros Hw Ht Hr. pose proof (safe_and _ _ _ _ _ _ (handle_dialog (S fuel) packet w Hw)
    (handle_concludes tpm_calm Sha256 Sha384 a packet fuel w Ht)) as Hs.
  destruct (safe_reach_inv _ _ _ _ _ _ Hs Hr) as [Hf _].
  assert (forall x, p = Ret x -> is_Some x /\ (Graphical.gone (desktop w') \/ Graphical.wait_failed (desktop w') = true)) as Hend.
  { intros x ->. destruct (safe_reach_ret _ _ _ _ _ _ Hs Hr) as [Ho (o & -> & _)]. split; [done|].
    destruct (Ho ltac:(done)) as [Hu|[id (_ & _ & _ & Hg)]]; [|done]. left. rewrite Hu. by left. }
  destruct Hf as [Hu|(id & [(pid & sequence & ->) (ch & r & Hc & Hb & Hid)] & [Hcm Hkl])].
  { split_and!; [by left; rewrite Hu|by rewrite Hu|exact Hend]. }
  split_and!; [|done..]. destruct Hcm as [[H _]|(Hg & _ & exe & H)]; [by left|right]. split; [done|].
  exists ch, r, exe, [request_id pid sequence; str "--pinentry"].
  split_and!; [done..| |apply Main.run_authorize_command].
  rewrite Hid, Client.parse_authorize_word by apply Control.request_id_plain. by vm_compute.
Qed.
End Dialog.

(** ** A request that is answered at the second look *)

Module Sample.
Import Toy.
Import Runtime.Sample.

Definition session : environment := fun name => if decide (name = str "WAYLAND_DISPLAY") then Some (str "wayland-0") else None.
Definition desktop_agent : agent :=
  mkAgent (store an_agent) (history an_agent) true 100 7 session.

#[local] Instance desktop_handler : Handler agentE (@Runtime.world toyE unit _) (@Runtime.interference toyE unit unit _) :=
  agent_handler tt desktop_agent.

(** check, list, begin, the two operations of the dialog, the clock, a round of five, and
    the owner's PIN before the second [try_recv]. *)
Definition request := handle sha sha desktop_agent 3 sign_packet.
Definition moments := replicate 11 alone ++ [owner].
Definition outcome := run alone request moments start.

Example outcome_result :
  (is_ok <$> fst outcome, Graphical.process (desktop (snd outcome)), Graphical.kills (desktop (snd outcome))) =
  (Some true, Some (Graphical.Reaped 9), [false]).
Proof. vm_compute. reflexivity. Qed.

Lemma dialog_is_its_own_witness :
  Graphical.commands (desktop (snd outcome)) = [([str "keyvisor"], [str "authorize"; request_id 255 1; str "--pinentry"])] /\
  (Graphical.gone (desktop (snd outcome)) \/ Graphical.wait_failed (desktop (snd outcome)) = true) /\
  Forall (fun r => r = false) (Graphical.kills (desktop (snd outcome))).
Proof.
  pose (text := fun b : bytes => b).
  destruct (dialog_is_its_own tt sha sha desktop_agent text text text text 1 (str "1") 2 sign_packet start
    (Ret (fst outcome)) (snd outcome) eq_refl ltac:(vm_compute; discriminate) (run_reach alone request moments start))
    as (_ & Hk & Hr).
  split; [vm_compute; reflexivity|]. split; [exact (proj2 (Hr (fst outcome) eq_refl))|exact Hk].
Defined.
End Sample.
