(* ===== verification/Abandon.v ===== *)
(** A client that leaves while its request waits for a PIN: [AgentRuntime] of
    crates/keyvisor-agent/src/main.rs, with the flag that its [RequestMonitor] sets (Monitor). *)

From S2P Require Import Prelude Bytes Text Core Protocol Effects Tpm FileSystem AtomicFile.
From S2P Require KeyStore History.
From S2P Require Import Broker Runtime.

Section Abandon.
Context {E : Type -> Type} {TS TV : Type} `{!Handler E TS TV} `{!TpmSigner E} (tpm_calm : TV).
Context (Sha256 Sha384 : bytes -> bytes) (a : agent).
Abbreviation world := (@Runtime.world E TS _).
Abbreviation interference := (@Runtime.interference E TS TV _).
Abbreviation agentE := (@Runtime.agentE E _).
#[local] Instance abandon_handler : Handler agentE world interference := agent_handler tpm_calm a.

(** The request waits in its loop; it no longer does, or not yet. *)
Definition waits (w : world) : Prop :=
  exists ch r, channel w = Some ch /\ begun (shared w) ch r /\ rq_phase r = Waiting.
Definition settled (w : world) : Prop :=
  match channel w with Some ch => exists r, begun (shared w) ch r /\ rq_phase r <> Waiting | None => True end.

Lemma settled_not_waiting w : settled w -> ~ waits w.
Proof.
  unfold settled. intros Hs (ch & r & Hc & [Hr _] & Hp). rewrite Hc in Hs. destruct Hs as (r' & [Hr' _] & Hp'). congruence.
Qed.

(** A look of the request at its channel. *)
Definition is_look (c : option Z) (e : event) : bool :=
  match e, c with Recv ch, Some c => ch =? c | _, _ => false end.
Definition looks (c : option Z) (es : list event) : nat := length (filter (fun e => is_look c e = true) es).

(** From [w0] to [w] the client stays away, the TPM is not asked to sign, and the
    request looks at its channel at most [n] times. *)
Record quits (n : nat) (w0 w : world) : Prop := mk_quits {
  qt_channel : channel w = channel w0;
  qt_gone : cancelled w = true;
  qt_calls : calls w = [];
  qt_looks : exists es, events w = events w0 ++ es /\ (looks (channel w0) es <= n)%nat;
}.

Lemma quits_refl n w : cancelled w = true -> calls w = [] -> quits n w w.
Proof. intros. split; [done..|]. exists []. rewrite app_nil_r. split; [done|cbn; lia]. Qed.

Lemma looks_app c es es' : looks c (es ++ es') = (looks c es + looks c es')%nat.
Proof. unfold looks. by rewrite filter_app, length_app. Qed.

Lemma quits_trans n n' w0 w1 w2 : quits n w0 w1 -> quits n' w1 w2 -> quits (n + n') w0 w2.
Proof.
  intros [Hc _ _ (es & He & Hl)] [Hc' Hg' Hk' (es' & He' & Hl')]. split; [congruence|done..|].
  exists (es ++ es'). split; [by rewrite He', He, app_assoc|]. rewrite looks_app. rewrite Hc in Hl'. lia.
Qed.

Lemma looks_none c es : Forall (fun e => is_look c e = false) es -> looks c es = 0%nat.
Proof.
  intros H. unfold looks. induction H as [|e es He _ IH]; [done|]. rewrite filter_cons_False by congruence. done.
Qed.

Lemma quits_extends n w0 w w' :
  quits n w0 w -> extends (fun e => is_look (channel w) e = false) w w' -> cancelled w' = true -> quits n w0 w'.
Proof.
  intros Hq [Hc Hk _ _ _ _ (es & He & _ & Hf)] Hg. replace n with (n + 0)%nat by lia. eapply quits_trans; [exact Hq|].
  split; [done..| |].
  - rewrite Hk. apply Hq.
  - exists es. split; [done|]. by rewrite looks_none.
Qed.

Lemma foreign_no_look c e : foreign c e = true -> is_look c e = false.
Proof. destruct c as [c|], e; cbn; try done. intros H. by apply negb_true_iff. Qed.

Lemma interfere_gone (v : interference) w : cancelled w = true -> cancelled (interfere v w) = true.
Proof. intros H. unfold interfere. destruct (steps _ _), (new_files v), (new_tpm v) as [[? ?]|], (disconnected v); done. Qed.

Lemma quits_interfere n w0 w (v : interference) : quits n w0 w -> quits n w0 (interfere v w).
Proof.
  intros Hq. eapply quits_extends; [exact Hq| |apply interfere_gone, Hq].
  eapply extends_mono, interfere_extends. apply foreign_no_look.
Qed.

Lemma own_step_gone (w : world) e : cancelled (own_step w e) = cancelled w.
Proof. unfold own_step. by destruct (step _ _). Qed.

(** *** Programs that stop *)

(** The operations of a request that is given up; a look is counted. *)
Definition quiet X (e : agentE X) : Prop :=
  match e with StoreList | BeginRequest _ | LockTpm | TpmConnect | TpmSign _ _ _ _ _ => False | _ => True end.
Definition cost {X} (e : agentE X) : nat := match e with TryRecv _ => 1 | _ => 0 end.

(** What an operation may answer after the client has left. *)
Definition possible {X} (e : agentE X) : X -> Prop :=
  match e in Runtime.agentE X return X -> Prop with Check => fun x => x = true | _ => fun _ => True end.

(** After the client has left [p] looks at most [n] times at its channel, does not sign, and
    its result satisfies [R]. *)
Fixpoint stops {A} (R : A -> Prop) (n : nat) (p : prog agentE A) : Prop :=
  match p with
  | Ret x => R x
  | Vis e k => quiet _ e /\ (cost e <= n)%nat /\ forall x, possible e x -> stops R (n - cost e) (k x)
  end.

Lemma stops_mono {A} (R R' : A -> Prop) n n' (p : prog agentE A) :
  (forall x, R x -> R' x) -> (n <= n')%nat -> stops R n p -> stops R' n' p.
Proof.
  intros HR. revert n n'. induction p as [x|X e k IH]; intros n n' Hn; cbn [stops]; [auto|].
  intros (Hq & Hc & Hk). split_and!; [done|lia|]. intros x Hx. eapply IH, Hk; [lia|done].
Qed.

Lemma stops_bind {A B} (R : A -> Prop) (R' : B -> Prop) n m (p : prog agentE A) (f : A -> prog agentE B) :
  stops R n p -> (forall x, R x -> stops R' m (f x)) -> stops R' (n + m) (p ≫= f).
Proof.
  intros Hp Hf. revert n Hp. induction p as [x|X e k IH]; intros n.
  { intros Hx. eapply stops_mono, Hf, Hx; [done|lia]. }
  intros (Hq & Hc & Hk). cbn. split_and!; [done|lia|]. intros x Hx.
  replace (n + m - cost e)%nat with (n - cost e + m)%nat by lia. by apply IH, Hk.
Qed.

(** Operations that do not look; the plain ones do not log either. *)
Definition still X (e : agentE X) : Prop := quiet X e /\ cost e = 0%nat.
Definition idle X (e : agentE X) : Prop := plain e = true /\ still X e.

Lemma idle_still {A} (p : prog agentE A) : every idle p -> every still p.
Proof. apply every_mono. by intros X e [_ H]. Qed.

Lemma stops_still {A} (p : prog agentE A) : every still p -> stops (fun _ => True) 0 p.
Proof.
  induction p as [x|X e k IH]; [done|]. intros [[Hq Hc] Hk]. cbn [stops]. rewrite Hc.
  split_and!; [done|lia|]. intros x _. by apply IH.
Qed.

(** *** They quit *)

Lemma quits_op {X} n w0 w (v : interference) (e : agentE X) :
  quiet X e -> quits n w0 w -> quits (n + cost e) w0 (snd (agent_exec tpm_calm a v (interfere v w) e)).
Proof.
  intros He Hq%(quits_interfere n w0 w v). revert Hq. generalize (interfere v w). clear w. intros w Hq.
  assert (forall e0, is_look (channel w) e0 = false -> quits n w0 (own_step w e0)) as Hown.
  { intros e0 H0. eapply quits_extends; [exact Hq|by apply extends_own|]. rewrite own_step_gone. apply Hq. }
  assert (forall w', events w' = events w -> channel w' = channel w -> calls w' = calls w -> cancelled w' = cancelled w ->
    quits n w0 w') as Hsame.
  { intros w' He1 Hc1 Hk1 Hg1. destruct Hq as [Hc Hg Hk Hl]. rewrite <- He1 in Hl. split; [congruence..|done]. }
  destruct e; try done; cbn [agent_exec snd cost]; rewrite ?Nat.add_0_r; try (by apply Hown); try (by apply Hsame).
  - eapply (quits_trans n 1); [exact Hq|]. unfold own_step. destruct (step _ _); [|by apply quits_refl; apply Hq].
    split; [done|apply Hq..|]. exists [Recv ch]. split; [done|]. unfold looks. etrans; [apply length_filter|done].
  - destruct (Graphical.dialog_exec _ _ _). by apply Hsame.
  - destruct (poisoned v); [by apply Hsame|]. destruct (run _ _ _ _). by apply Hsame.
Qed.

Lemma possible_answer {X} (v : interference) (e : agentE X) w :
  cancelled w = true -> possible e (fst (agent_exec tpm_calm a v w e)).
Proof. intros Hg. by destruct e. Qed.

(** After the client has left, [p] keeps quitting, and its result satisfies [R]. *)
Definition quitting {A} (R : A -> Prop) (w0 : world) (p : prog agentE A) (w : world) : Prop :=
  safe (quits 1 w0) p (fun x w' => quits 1 w0 w' /\ R x) w.

Lemma stops_quitting {A} (R : A -> Prop) n m w0 (p : prog agentE A) w :
  stops R n p -> (m + n <= 1)%nat -> quits m w0 w -> quitting R w0 p w.
Proof.
  assert (forall m w, (m <= 1)%nat -> quits m w0 w -> quits 1 w0 w) as Hle.
  { intros m' w' Hm [Hc Hg Hk (es & He & Hl)]. split; [done..|]. exists es. split; [done|lia]. }
  revert n m w. induction p as [x|X e k IH]; intros n m w Hp Hn Hq.
  { apply safe_ret; [|split]; [eapply Hle, Hq; lia..|exact Hp]. }
  destruct Hp as (He & Hc & Hk). apply safe_vis; [eapply Hle, Hq; lia|]. intros v.
  apply (IH _ (n - cost e)%nat (m + cost e)%nat); [apply Hk, possible_answer, interfere_gone, Hq|lia|by apply quits_op].
Qed.

(** At every moment: if the client has left while the request waits, the rest quits. *)
Definition abandons {A} (R : A -> Prop) (p : prog agentE A) (w : world) : Prop :=
  settled w \/ calls w = [] /\ stops R 1 p.

Lemma abandons_quits {A} (R : A -> Prop) (p : prog agentE A) w :
  abandons R p w -> waits w -> cancelled w = true -> quitting R w p w.
Proof.
  intros [Hs|[Hk Hp]] Hw Hg; [by destruct (settled_not_waiting w Hs)|].
  apply (stops_quitting R 1 0); [done|lia|by apply quits_refl].
Qed.

(** The same, from the moment the flag is set. *)
Lemma abandons_set {A} (R : A -> Prop) (p : prog agentE A) w :
  abandons R p w -> waits w -> quitting R (set_cancelled w true) p (set_cancelled w true).
Proof.
  intros [Hs|[Hk Hp]] Hw; [by destruct (settled_not_waiting w Hs)|].
  apply (stops_quitting R 1 0); [done|lia|by apply quits_refl].
Qed.

Lemma abandons_bind {A B} (R : A -> Prop) (R' : B -> Prop) (p : prog agentE A) (f : A -> prog agentE B) w :
  (forall x, R x -> stops R' 0 (f x)) -> abandons R p w -> abandons R' (p ≫= f) w.
Proof. intros Hf [Hs|[Hk Hp]]; [by left|right]. split; [done|]. by apply (stops_bind R R' 1 0). Qed.

Lemma calls_quiet {X} (v : interference) w (e : agentE X) :
  quiet X e -> calls w = [] -> calls (snd (exec v w e)) = [].
Proof.
  intros Hq Hk. rewrite <- (ext_calls _ _ _ (interfere_extends v w)) in Hk. revert Hk.
  unfold exec, abandon_handler, agent_handler. generalize (interfere v w). clear w. intros w Hk.
  destruct e; try done; cbn [agent_exec snd]; try (by unfold own_step; destruct (step _ _)).
  - by destruct (Graphical.dialog_exec (dialog v) (desktop w) e).
  - destruct (poisoned v); [done|]. by destruct (run _ _ _ _).
Qed.

(** Without a signature so far they make none. *)
Lemma still_along {A} (p : prog agentE A) w :
  every still p -> calls w = [] -> along (abandons (fun _ => True)) p w.
Proof.
  revert w. induction p as [x|X e k IH]; intros w Hp Hk.
  { split; [by right|done]. }
  pose proof (stops_still _ Hp) as Hs. destruct Hp as [[Hq _] Hp].
  split; [right; split; [done|eapply stops_mono, Hs; [done|lia]]|]. intros v. apply IH; [done|].
  by apply calls_quiet.
Qed.

(** *** Waiting *)

(** The invariant of a request with the channel [ch]. *)
Definition looping (ch : Z) (w : world) : Prop :=
  channel w = Some ch /\ calls w = [] /\ exists r, begun (shared w) ch r.

Lemma prompt_extends P ch w w' : extends P w w' -> looping ch w -> looping ch w'.
Proof.
  intros [Hc Hk _ _ _ _ (es & _ & Hs & _)] (Hch & Hcalls & r & Hr). destruct (begun_steps _ _ _ _ _ Hs Hr) as (r' & Hr' & _).
  split_and!; [congruence..|by exists r'].
Qed.

(** One operation of it. *)
Lemma looping_op {X A} ch (R : A -> Prop) (e : agentE X) (f : X -> prog agentE A) w :
  plain e = true -> looping ch w -> stops R 1 (Vis e f) ->
  (forall v w', looping ch w' -> w' = snd (agent_exec tpm_calm a v (interfere v w) e) ->
     along (abandons R) (f (fst (agent_exec tpm_calm a v (interfere v w) e))) w') ->
  along (abandons R) (Vis e f) w.
Proof.
  intros He Hw Hs Hf. split; [right; split; [apply Hw|exact Hs]|]. intros v. apply (Hf v); [|done].
  eapply prompt_extends, Hw. by apply exec_plain.
Qed.

(** The dialog's part. *)
Lemma dialog_idle {A} (p : prog Graphical.dialogE A) : every idle (on_dialog p).
Proof. induction p as [x|X e k IH]; [done|]. split; [done|exact IH]. Qed.

Lemma dialog_along {A B} ch (R : B -> Prop) (p : prog Graphical.dialogE A) (f : A -> prog agentE B) w :
  looping ch w -> (forall x, stops R 1 (f x)) -> (forall x w', looping ch w' -> along (abandons R) (f x) w') ->
  along (abandons R) (on_dialog p ≫= f) w.
Proof.
  intros Hw Hs Hf. revert w Hw. induction p as [x|X e k IH]; intros w Hw; [by apply Hf|].
  apply (looping_op ch); [done..| |].
  - split_and!; [done|cbn; lia|]. intros x _. apply (stops_bind (fun _ => True) R 0 1); [apply stops_still, idle_still, dialog_idle|done].
  - intros v w' Hw' _. by apply IH.
Qed.

Lemma give_up_stops deadline child (again : prog agentE loop_result) :
  stops (fun _ => True) 0 (give_up_or deadline child again).
Proof.
  split_and!; [done|cbn; lia|]. intros now _. cbn. destruct (deadline <=? now); [done|]. cbn. split_and!; [done|lia|]. by intros x ->.
Qed.

Lemma wait_stops fuel ch deadline child : stops (fun _ => True) 1 (wait_for_pin fuel ch deadline child).
Proof.
  destruct fuel as [|fuel]; [done|]. split_and!; [done|cbn; lia|]. intros received _. cbn.
  destruct received; [done| |done].
  apply (stops_bind (fun _ => True) _ 0 0); [|intros child' _; apply give_up_stops].
  unfold still_there. destruct child; [|done]. apply (stops_bind (fun _ => True) _ 0 0); [apply stops_still, idle_still, dialog_idle|done].
Qed.

Lemma looping_ret {A} (R : A -> Prop) ch x w : looping ch w -> R x -> along (abandons R) (Ret x) w.
Proof. intros Hw Hx. by split; [right; split; [apply Hw|]|]. Qed.

Lemma give_up_along ch deadline child (again : prog agentE loop_result) w :
  looping ch w -> stops (fun _ => True) 1 again -> (forall w', looping ch w' -> along (abandons (fun _ => True)) again w') ->
  along (abandons (fun _ => True)) (give_up_or deadline child again) w.
Proof.
  intros Hw Hs Hagain.
  apply (looping_op ch); [done..| |]; [eapply stops_mono, give_up_stops; [done|lia]|].
  intros v w1 H1 _. destruct (deadline <=? _); [by eapply looping_ret|].
  apply (looping_op ch); [done..| |].
  { split_and!; [done|cbn; lia|]. by intros x ->. }
  intros v2 w2 H2 _. destruct (fst _); [by eapply looping_ret|].
  apply (looping_op ch); [done..| |]; [split_and!; [done|cbn; lia|done]|].
  intros v3 w3 H3 _. by apply Hagain.
Qed.

Lemma wait_along fuel ch deadline child w :
  looping ch w -> along (abandons (fun _ => True)) (wait_for_pin fuel ch deadline child) w.
Proof.
  revert child w. induction fuel as [|fuel IH]; intros child w Hw; [by eapply looping_ret|].
  apply (looping_op ch); [done..| |]; [apply (wait_stops (S fuel) ch deadline child)|].
  intros v w1 H1 _. destruct (fst _); [by eapply looping_ret| |by eapply looping_ret].
  assert (forall child w', looping ch w' ->
    along (abandons (fun _ => True)) (give_up_or deadline child (wait_for_pin fuel ch deadline child)) w') as Hgive.
  { intros child' w' Hw'. apply (give_up_along ch); [done|apply wait_stops|]. intros w2 H2. by apply IH. }
  unfold still_there. destruct child; [|by apply Hgive].
  change (along (abandons (fun _ => True)) (on_dialog Graphical.has_ended ≫= fun ended =>
    give_up_or deadline (negb ended) (wait_for_pin fuel ch deadline (negb ended))) w1).
  apply (dialog_along ch); [done| |].
  - intros ended. eapply stops_mono, give_up_stops; [done|lia].
  - intros ended w2 H2. by apply Hgive.
Qed.

(** *** After the loop *)

Lemma settled_steps w w' es :
  channel w' = channel w -> steps (shared w) es = Some (shared w') -> settled w -> settled w'.
Proof.
  unfold settled. intros Hc Hs Hw. rewrite Hc. destruct (channel w) as [ch|]; [|done]. clear Hc.
  destruct Hw as (r & Hr & Hp). revert Hs r Hr Hp. generalize (shared w). intros s. revert s.
  induction es as [|e es IH]; intros s Hs r Hr Hp; [injection Hs as <-; by exists r|].
  cbn [steps] in Hs. destruct (step s e) as [s1|] eqn:Es; [|done]. cbn in Hs.
  destruct (left_step s e s1 ch r Es Hr Hp) as (r1 & Hr1 & Hp1). by apply (IH s1 Hs r1).
Qed.

Lemma settled_extends P w w' : extends P w w' -> settled w -> settled w'.
Proof. intros [Hc _ _ _ _ _ (es & _ & Hs & _)]. by eapply settled_steps. Qed.

Lemma settled_exec {X} v w (e : agentE X) :
  match e with BeginRequest _ => False | _ => True end -> settled w -> settled (snd (exec v w e)).
Proof.
  intros He Hw. unfold exec, abandon_handler, agent_handler. destruct (plain e) eqn:Hp.
  { eapply settled_extends, Hw. by apply exec_plain. }
  apply (settled_extends _ _ _ (interfere_extends v w)) in Hw. revert Hw. generalize (interfere v w). clear w.
  intros w Hw. destruct e; try done; cbn [agent_exec].
  - by destruct (run _ _ _ _) as [[] ?].
  - by destruct (run _ _ _ _).
  - destruct (poisoned v); [done|]. by destruct (run _ _ _ _).
Qed.

Lemma settled_after {A} (R : A -> Prop) (p : prog agentE A) w : every after_pin p -> settled w -> along (abandons R) p w.
Proof.
  intros Hp Hw. apply (along_safe settled _ _ (fun _ => settled)); [by left|].
  apply (safe_every after_pin); [|done..]. intros X e v s He. apply settled_exec. by destruct e.
Qed.

(** What has been received settles the request. *)
Lemma received_settles ch (v : interference) w pin :
  looping ch w -> fst (agent_exec tpm_calm a v (interfere v w) (TryRecv ch)) = Received pin ->
  settled (snd (agent_exec tpm_calm a v (interfere v w) (TryRecv ch))).
Proof.
  intros Hl%(prompt_extends _ ch _ _ (interfere_extends v w)). revert Hl. generalize (interfere v w). clear w.
  intros w (Hc & _ & r & Hr). cbn [agent_exec fst snd]. rewrite (proj1 Hr). intros Hrecv.
  assert (rq_phase r = Waiting \/ rq_phase r <> Waiting) as [Hp|Hp] by (destruct (rq_phase r); auto).
  2: { eapply settled_extends; [by apply (extends_own (fun _ => True))|]. unfold settled. rewrite Hc. by exists r. }
  unfold own_step, settled, begun. cbn [step]. rewrite (proj1 Hr). cbn [mbind option_bind]. rewrite Hp. unfold receive.
  rewrite Hrecv. cbn. rewrite Hc. eexists. rewrite lookup_insert_eq. split; [split; [done|apply Hr]|done].
Qed.

(** The result of the loop: with a PIN the request is settled. *)
Definition concludes (ch : Z) (x : loop_result) (w : world) : Prop :=
  looping ch w /\ forall pin child, x = Some (Ok pin, child) -> settled w.

Lemma looping_safe_op {X A} ch (e : agentE X) (f : X -> prog agentE A) Q w :
  plain e = true -> looping ch w ->
  (forall v w', looping ch w' -> w' = snd (agent_exec tpm_calm a v (interfere v w) e) ->
     safe (looping ch) (f (fst (agent_exec tpm_calm a v (interfere v w) e))) Q w') ->
  safe (looping ch) (trigger e ≫= f) Q w.
Proof.
  intros He Hw Hf. apply safe_vis; [done|]. intros v. apply (Hf v); [|done]. eapply prompt_extends, Hw. by apply exec_plain.
Qed.

Lemma dialog_looping {A} ch (p : prog Graphical.dialogE A) w :
  looping ch w -> safe (looping ch) (on_dialog p) (fun _ => looping ch) w.
Proof.
  revert w. induction p as [x|X e k IH]; intros w Hw; [by apply safe_ret|]. apply safe_vis; [done|]. intros v. apply IH.
  eapply prompt_extends, Hw. by apply (exec_plain tpm_calm a v w (Dialog e)).
Qed.

Lemma wait_obtains fuel ch deadline child w :
  looping ch w -> safe (looping ch) (wait_for_pin fuel ch deadline child) (concludes ch) w.
Proof.
  revert child w. induction fuel as [|fuel IH]; intros child w Hw; cbn [wait_for_pin]; [by apply safe_ret|].
  assert (forall child e w, looping ch w -> safe (looping ch) (Ret (Some (Err e, child))) (concludes ch) w) as Hret
    by (intros; by apply safe_ret).
  apply (looping_safe_op ch); [done..|]. intros v w1 H1 E1.
  destruct (fst _) as [pin| |] eqn:Er; [| |by apply Hret].
  { apply safe_ret; [done|]. split; [done|]. intros _ _ _. rewrite E1. by apply received_settles with pin. }
  clear Er. apply safe_bind. apply (safe_mono (looping ch) _ _ (fun _ => looping ch)); [done| |].
  2: { unfold still_there. destruct child; [|by apply safe_ret]. apply safe_bind.
       eapply safe_mono; [done| |by apply dialog_looping]. intros ended w' Hw'. by apply safe_ret. }
  intros child2 w2 H2. apply (looping_safe_op ch); [done..|]. intros v3 w3 H3 _.
  destruct (deadline <=? _); [by apply Hret|]. apply safe_bind, (looping_safe_op ch); [done..|]. intros v4 w4 H4 _.
  destruct (fst _); (apply safe_ret; [done|]); [by apply Hret|].
  apply (looping_safe_op ch); [done..|]. intros v5 w5 H5 _. by apply IH.
Qed.

(** *** The request *)

(** No signature in the answer. *)
Definition refused (x : option (result bytes bytes)) : Prop := forall response, x <> Some (Ok response).

(** The rest of [request_pin] after its loop. *)
Lemma tail_idle ch (x : loop_result) :
  every idle (match x with
    | Some (result, child) => _ ← trigger (RemoveRequest ch result); _ ← on_dialog (Graphical.stop_graphical_authorizer child);
        _ ← trigger (DropReceiver ch); Ret (Some result)
    | None => Ret None
    end : prog agentE (option (result bytes bytes))).
Proof.
  destruct x as [[result child]|]; [|done]. split; [done|]. intros u.
  apply every_bind; [apply dialog_idle|]. intros u2. by split.
Qed.

Lemma idle_keeps {A B} ch (S : Prop) (p : prog agentE A) (f : A -> prog agentE B) Q w :
  every idle p -> looping ch w -> (S -> settled w) ->
  (forall x w', looping ch w' -> (S -> settled w') -> safe (looping ch) (f x) Q w') -> safe (looping ch) (p ≫= f) Q w.
Proof.
  intros Hi Hl Hw Hf. apply safe_bind. set (J := fun w => looping ch w /\ (S -> settled w)).
  apply (safe_mono J _ _ (fun _ => J)); [by intros ? []|intros x w' []; by apply Hf|].
  apply (safe_every idle); [|done..]. intros X e v s [He [Hq _]] [H1 H2].
  split; [eapply prompt_extends, H1; by apply exec_plain|]. intros ?. apply settled_exec; [by destruct e|auto].
Qed.

(** Before the request has a channel. *)
Definition before (w : world) : Prop := channel w = None /\ calls w = [].

Lemma before_settled w : before w -> settled w.
Proof. intros [Hc _]. unfold settled. by rewrite Hc. Qed.

Lemma before_interfere (v : interference) w : before w -> before (interfere v w).
Proof. intros [Hc Hk]. pose proof (interfere_extends v w) as [Hci Hki _ _ _ _ _]. split; congruence. Qed.

Lemma begin_looping n (v : interference) w :
  before w ->
  let '(r, w') := agent_exec tpm_calm a v (interfere v w) (BeginRequest n) in
  match r with Ok (_, ch) => looping ch w' | _ => before w' end.
Proof.
  intros Hw%(before_interfere v). revert Hw. generalize (interfere v w). clear w. intros w [Hc Hk]. cbn [agent_exec].
  unfold own_step. cbn [step]. unfold begin_request. destruct (lock_poisoned (shared w)); [done|].
  split_and!; [done..|]. eexists. split; cbn; [by rewrite lookup_insert_eq|lia].
Qed.

(** After [obtain_pin]: nothing was signed, and a PIN that was received settles. *)
Definition obtained (x : option (result bytes bytes)) (w : world) : Prop :=
  calls w = [] /\ forall pin, x = Some (Ok pin) -> settled w.

(** [request_pin] after its dialog was started. *)
Lemma prompt_abandons fuel ch (child : bool) w :
  let p := (now ← trigger InstantNow;
      result ← wait_for_pin fuel ch (now + authorization_timeout a) child;
      match result with
      | Some (result, child) => _ ← trigger (RemoveRequest ch result); _ ← on_dialog (Graphical.stop_graphical_authorizer child);
          _ ← trigger (DropReceiver ch); Ret (Some result)
      | None => Ret None
      end) : prog agentE (option (result bytes bytes)) in
  stops (fun _ => True) 1 p /\ (looping ch w ->
    along (abandons (fun _ => True)) p w /\ safe (fun w' => calls w' = []) p obtained w).
Proof.
  intros p.
  assert (stops (fun _ => True) 1 p) as Hs.
  { split_and!; [done|cbn; lia|]. intros now _.
    apply (stops_bind (fun _ => True) _ 1 0); [apply wait_stops|]. intros x _. apply stops_still, idle_still, tail_idle. }
  split; [done|]. intros Hw. split.
  - apply (looping_op ch); [done..|]. intros v w1 H1 _.
    eapply along_bind; [eapply along_mono, (wait_along fuel ch)|eapply safe_mono, (wait_obtains fuel ch)]; [|done|done| |done].
    + intros q t. apply abandons_bind. intros x _. apply stops_still, idle_still, tail_idle.
    + intros x w2 [H2 _]. apply still_along, H2. apply idle_still, tail_idle.
  - apply (safe_mono (looping ch) _ _ obtained); [by intros ? (_ & ? & _)|done|].
    apply (idle_keeps ch False (trigger InstantNow)); [done|done|done|]. intros now w1 H1 _.
    apply safe_bind. eapply safe_mono, (wait_obtains fuel ch), H1; [done|].
    intros [[result child']|] w2 [H2 Hx]; [|apply safe_ret; [done|split; [apply H2|done]]].
    apply (idle_keeps ch (exists pin, result = Ok pin) (trigger (RemoveRequest ch result))); [done|done|by intros [pin ->]; eapply Hx|].
    intros _ w3 H3 Hx3. apply (idle_keeps ch (exists pin, result = Ok pin)); [apply dialog_idle|done|done|].
    intros _ w4 H4 Hx4. apply (idle_keeps ch (exists pin, result = Ok pin) (trigger (DropReceiver ch))); [done|done|done|].
    intros _ w5 H5 Hx5. apply safe_ret; [done|]. split; [apply H5|]. intros pin [= ->]. apply Hx5. by exists pin.
Qed.

Lemma obtain_along fuel key w :
  before w ->
  along (abandons (fun _ => True)) (obtain_pin a fuel key) w /\
  safe (fun w' => calls w' = []) (obtain_pin a fuel key) obtained w.
Proof.
  intros Hb. pose proof (before_settled w Hb) as Hw.
  assert (forall x w, before w -> along (abandons (fun _ => True)) (Ret x : prog agentE (option (result bytes bytes))) w /\
    safe (fun w' => calls w' = []) (Ret x) obtained w) as Hret.
  { intros x w1 H1. pose proof (before_settled w1 H1). split; [by split; [left|]|]. apply safe_ret; [apply H1|]. by split; [apply H1|]. }
  unfold obtain_pin. destruct (use_policy _); [by apply Hret|]. set (n := name _).
  assert (forall v, let '(r, w1) := exec v w (BeginRequest n) in
    let p := match r with
      | Ok (id, receiver) =>
          graphical_authorizer ← on_dialog (Graphical.start_graphical_authorizer (var_os a) id);
          now ← trigger InstantNow;
          result ← wait_for_pin fuel receiver (now + authorization_timeout a) graphical_authorizer;
          match result with
          | Some (result, graphical_authorizer) =>
              _ ← trigger (RemoveRequest receiver result);
              _ ← on_dialog (Graphical.stop_graphical_authorizer graphical_authorizer);
              _ ← trigger (DropReceiver receiver);
              Ret (Some result)
          | None => Ret None
          end
      | _ => Ret (Some (Err UNAVAILABLE))
      end in
    along (abandons (fun _ => True)) p w1 /\ safe (fun w' => calls w' = []) p obtained w1) as Hbegin.
  { intros v. pose proof (begin_looping n v w Hb) as H. unfold exec, abandon_handler, agent_handler.
    destruct (agent_exec _ _ _ _ _) as [[[id ch]|e|] w1]; [|by apply Hret..]. split.
    - apply (dialog_along ch); [done|intros child; by apply (prompt_abandons fuel ch child w1)|].
      intros child w2 H2. by apply (prompt_abandons fuel ch child w2).
    - apply safe_bind. eapply safe_mono, (dialog_looping ch), H; [by intros ? (_ & ? & _)|].
      intros child w2 H2. by apply (prompt_abandons fuel ch child w2). }
  split; (split; [first [by left|apply Hb]|]); intros v; specialize (Hbegin v); destruct (exec v w _) as [r w1]; apply Hbegin.
Qed.

Lemma check_stops : stops (fun r => r = Err DISCONNECTED) 0 check.
Proof. split_and!; [done|cbn; lia|]. by intros x ->. Qed.

Lemma sign_stops key digest pin : stops (fun r => r = Err DISCONNECTED) 0 (sign_authorized key digest pin).
Proof. apply (stops_bind (fun r => r = Err DISCONNECTED) _ 0 0); [exact check_stops|]. by intros r ->. Qed.

Lemma record_still key outcome : every still (record_history a key outcome).
Proof.
  unfold record_history. destruct (negb _); [done|]. split; [done|]. intros now. split; [done|]. intros [|error|]; [done| |done].
  by split.
Qed.

(** A request that ended: settled, or nothing was signed and it is refused. *)
Definition ended (x : option (result bytes bytes)) (w : world) : Prop :=
  settled w \/ calls w = [] /\ refused x.

Lemma sign_with_key_along fuel key data w :
  before w ->
  along (abandons refused) (sign_with_key Sha256 Sha384 a fuel key data) w /\
  safe (fun _ => True) (sign_with_key Sha256 Sha384 a fuel key data) ended w.
Proof.
  intros Hb. destruct (obtain_along fuel key w Hb) as [Ha Hs]. unfold sign_with_key.
  set (digest := digest_of Sha256 Sha384 (algorithm (KeyStore.summary key)) data).
  assert (forall e : option (result bytes bytes), match e with Some (Ok _) => False | _ => True end -> refused e) as Hr
    by (intros e He r ->; done).
  split.
  - eapply along_bind; [eapply along_mono, Ha|eapply safe_mono, Hs; [done|]].
    + intros q t. apply abandons_bind. intros [[pin|e|]|] _; [|by apply Hr..].
      apply (stops_bind (fun r => r = Err DISCONNECTED) _ 0 0); [apply sign_stops|]. intros r ->. by apply Hr.
    + intros [[pin|e|]|] w' [Hk Hw']; [|by split; [right; split; [|apply Hr]|]..].
      apply (along_safe settled _ _ (fun _ => settled)); [by left|]. apply safe_bind.
      eapply safe_mono, (safe_every after_pin settled), (Hw' pin eq_refl); [done|intros r w2 H2; by apply safe_ret| |apply sign_after].
      intros X e v s He. apply settled_exec. by destruct e.
  - apply safe_bind. eapply safe_mono, Hs; [done|].
    intros [[pin|e|]|] w' [Hk Hw']; [|by apply safe_ret; [|right; split; [|apply Hr]]..].
    apply safe_bind. eapply (safe_mono settled _ _ (fun _ => settled)); [done|intros r w2 H2; by apply safe_ret; [|left]|].
    apply (safe_every after_pin); [|apply sign_after|by eapply Hw'].
    intros X e v s He. apply settled_exec. by destruct e.
Qed.

(** The end of [handle]. *)
Lemma record_along key x w :
  ended x w ->
  along (abandons refused)
    (match x with
     | Some Panic => Ret (Some Panic)
     | Some result =>
         recorded ← record_history a key (if is_ok result then History.Succeeded else History.Failed);
         match recorded with Panic => Ret (Some Panic) | _ => Ret (Some result) end
     | None => Ret None
     end) w.
Proof.
  intros [Hw|[Hk Hr]].
  - destruct x as [[r|e|]|]; [| |by apply settled_after..]; (apply settled_after; [|done]);
      (apply every_bind; [apply record_after|by intros []]).
  - assert (forall x, refused x -> along (abandons refused) (Ret x) w) as Hret by (intros y Hy; by split; [right|]).
    destruct x as [[r|e|]|]; [by destruct (Hr r)| |by apply Hret..].
    assert (forall recorded : result bytes unit, stops refused 0
      (match recorded with Panic => Ret (Some Panic) | _ => Ret (Some (Err e)) end)) as Hend by by intros [].
    eapply (along_bind _ (fun w => calls w = [])).
    + eapply along_mono, still_along; [|apply record_still|done]. intros q t. by apply abandons_bind.
    + eapply (safe_mono (fun w => calls w = []) _ _ (fun _ w => calls w = [])); [done| |].
      2: { apply (safe_every still); [intros X e1 v s [Hq _]; by apply calls_quiet|apply record_still|done]. }
      intros recorded w2 H2. pose proof (Hend recorded). destruct recorded; by split; [right|].
Qed.

Lemma before_exec {X} v w (e : agentE X) :
  match e with Check | StoreList => True | _ => False end -> before w -> before (snd (exec v w e)).
Proof.
  intros He Hb%(before_interfere v). revert Hb. unfold exec, abandon_handler, agent_handler. generalize (interfere v w).
  clear w. intros w Hb. destruct e; try done. cbn [agent_exec]. by destruct (run _ _ _ _) as [[] ?].
Qed.

Lemma before_prefix {A} (p : prog agentE A) (f : A -> prog agentE (option (result bytes bytes))) w :
  every (fun X e => match e with Check | StoreList => True | _ => False end) p -> before w ->
  (forall x w', before w' -> along (abandons refused) (f x) w') -> along (abandons refused) (p ≫= f) w.
Proof.
  intros Hp Hw Hf. eapply (along_prefix _ before); [intros; left; by apply before_settled|].
  eapply safe_mono, (safe_every _ before); [done| | |exact Hp|done]; [intros x w' H; by apply Hf|].
  intros X e v s. by apply before_exec.
Qed.

Lemma handle_along fuel packet w :
  before w -> along (abandons refused) (handle Sha256 Sha384 a fuel packet) w.
Proof.
  intros Hw. unfold handle.
  assert (forall x w, before w -> along (abandons refused) (Ret x) w) as Hret
    by (intros x w1 H1; split; [left; by apply before_settled|done]).
  apply before_prefix; [by split; [|intros []]|done|]. intros c w1 H1. destruct c; [|by apply Hret..].
  destruct (parse_request packet) as [[|pk data flags]|e|]; cbn [map_err]; [..|by apply Hret|by apply Hret].
  { apply before_prefix; [done..|]. intros [keys|e|] w2 H2; by apply Hret. }
  destruct (negb _); [by apply Hret|]. apply before_prefix; [done..|]. intros [keys|e|] w2 H2; [|by apply Hret..].
  destruct (find_key pk keys) as [key|]; [|by apply Hret].
  destruct (sign_with_key_along fuel key data w2 H2) as [Ha Hs].
  eapply along_bind; [eapply along_mono, Ha|eapply safe_mono, Hs; [done|intros x w3; apply record_along]].
  intros q t. apply abandons_bind. intros x Hx. destruct x as [[response|e|]|]; [by destruct (Hx response)| |done..].
  apply (stops_bind (fun _ => True) _ 0 0); [apply stops_still, record_still|]. by intros [].
Qed.

(** [C11] A client that leaves gets nothing signed.  In every interleaving: once the monitor
    has seen, while a request waits for its PIN, that its client left, the TPM is not asked
    to sign for it any more, not even when the PIN is already in the channel of the request;
    the request looks at that channel at most once more, and is then refused. *)
Theorem abandoned_request_is_refused es0 fuel packet w p w1 p' w' :
  fresh es0 w -> reach (handle Sha256 Sha384 a fuel packet) w p w1 ->
  waits w1 -> cancelled w1 = true -> reach p w1 p' w' ->
  calls w' = [] /\
  (exists es, events w' = events w1 ++ es /\ (looks (channel w1) es <= 1)%nat) /\
  forall response, p' <> Ret (Some (Ok response)).
Proof.
  intros Hf Hr Hw Hg Hr'. assert (before w) as Hb by (by split; apply Hf).
  pose proof (abandons_quits _ _ _ (along_reach _ _ _ _ _ (handle_along fuel packet w Hb) Hr) Hw Hg) as Hq.
  destruct (safe_reach_inv _ _ _ _ _ _ Hq Hr') as [_ _ Hk Hl]. split_and!; [done..|].
  intros response ->. by destruct (proj2 (safe_reach_ret _ _ _ _ _ _ Hq Hr') response).
Qed.
End Abandon.

(** ** A client that leaves while the request sleeps *)

Module Sample.
Import Toy.
Import Runtime.Sample.

#[local] Instance abandon_sample_handler : Handler agentE (@Runtime.world toyE unit _) (@Runtime.interference toyE unit unit _) :=
  agent_handler tt an_agent.

Definition leaves : @Runtime.interference toyE unit unit _ :=
  mkInterference [] None None true [] [] false (Some 0) Graphical.undisturbed.
Definition request : prog agentE (option (result bytes bytes)) := handle sha sha an_agent 3 sign_packet.
Definition left_alone := advance request (replicate 7 alone ++ [leaves]) start.

(** The PIN comes all the same, before the second look. *)
Definition end_of_request := run alone (fst left_alone) [owner] (snd left_alone).

Lemma left_waiting : waits (snd left_alone).
Proof.
  exists 0, (mkRequest (request_id 255 1) (str "n") Waiting None).
  split; [vm_compute; reflexivity|]. split; [split; vm_compute; reflexivity|reflexivity].
Qed.

Lemma abandoned_request_is_refused_witness :
  fst end_of_request = Some (Err DISCONNECTED) /\ calls (snd end_of_request) = [] /\
  channel (snd left_alone) = Some 0 /\ In (Take 4 (request_id 255 1) pin) (events (snd end_of_request)).
Proof.
  pose proof (abandoned_request_is_refused tt sha sha an_agent [] 3 sign_packet start (fst left_alone) (snd left_alone)
    (Ret (fst end_of_request)) (snd end_of_request) start_fresh (advance_reach request _ start) left_waiting) as H.
  destruct H as (Hk & _ & _); [vm_compute; reflexivity|apply run_reach|].
  split; [vm_compute; reflexivity|]. split; [exact Hk|]. split; [vm_compute; reflexivity|].
  vm_compute. auto 10.
Defined.
End Sample.
