(* ===== verification/Watched.v ===== *)
(** A request and the monitor of its client: the middle of [serve_connection] of
    crates/keyvisor-agent/src/main.rs, with the request thread (Runtime) and the thread of
    its [RequestMonitor] (Monitor) running side by side.

    Between two operations of the request's thread the monitor's takes any number of its own,
    and the client and the other threads act.  The flag that the monitor stores is the one
    that the request loads. *)

From S2P Require Import Prelude Bytes Text Core Protocol Effects Tpm FileSystem.
From S2P Require Monitor.
From S2P Require Import Broker Runtime Abandon.

Section Watched.
Context {E : Type -> Type} {TS TV : Type} `{!Handler E TS TV} `{!TpmSigner E} (tpm_calm : TV).
Context (Sha256 Sha384 : bytes -> bytes) (a : agent).
Abbreviation world := (@Runtime.world E TS _).
Abbreviation interference := (@Runtime.interference E TS TV _).
Abbreviation agentE := (@Runtime.agentE E _).

(** ** The program *)

(** Joining a thread is a wait: [Ended] asks whether it has ended. *)
Inductive watchedE : Type -> Type :=
  | TryClone : watchedE (io_result unit)
  | SpawnMonitor (cancelled stopped : bool) : watchedE (io_result unit)
  | StoreStopped : watchedE unit
  | Ended : watchedE bool
  | Agent {X} (e : agentE X) : watchedE X.

Definition on_agent {A} : prog agentE A -> prog watchedE A := lift (fun X => Agent).

(** How often the end of the thread is asked for. *)
Context (join_fuel : nat).

(** [JoinHandle::join] returns when the thread has ended; [None] is still waiting. *)
Fixpoint join_monitor (fuel : nat) : prog watchedE (option unit) :=
  match fuel with
  | O => Ret None
  | S fuel =>
      ended ← trigger Ended;
      if (ended : bool) then Ret (Some tt) else join_monitor fuel
  end.

(** The operations of a [RequestMonitor] beside its thread. *)
Definition guard_op {X} (e : Monitor.guardE X) : prog watchedE (option X) :=
  match e in Monitor.guardE X return prog watchedE (option X) with
  | Monitor.TryClone => x ← trigger TryClone; Ret (Some x)
  | Monitor.SpawnMonitor cancelled stopped => x ← trigger (SpawnMonitor cancelled stopped); Ret (Some x)
  | Monitor.StoreStopped => x ← trigger StoreStopped; Ret (Some x)
  | Monitor.JoinMonitor => join_monitor join_fuel
  end.
Fixpoint on_guard {A} (p : prog Monitor.guardE A) : prog watchedE (option A) :=
  match p with
  | Ret x => Ret (Some x)
  | Vis e k =>
      r ← guard_op e;
      match r with
      | Some x => on_guard (k x)
      | None => Ret None
      end
  end.

(** A packet that was read: an error before it is handled, or its outcome; the monitor is
    dropped in any case. *)
Definition handle_watched (fuel : nat) (packet : bytes) : prog watchedE (option (result bytes (result bytes bytes))) :=
  monitor ← on_guard Monitor.RequestMonitor_start;
  match monitor with
  | Some (Ok _) =>
      outcome ← on_agent (handle Sha256 Sha384 a fuel packet);
      match outcome with
      | Some outcome =>
          dropped ← on_guard Monitor.RequestMonitor_drop;
          match dropped with
          | Some _ => Ret (Some (Ok outcome))
          | None => Ret None
          end
      | None => Ret None
      end
  | Some (Err error) => Ret (Some (Err error))
  | Some Panic => Ret (Some Panic)
  | None => Ret None
  end.

(** ** The two threads *)

(** The monitor's thread, once it is spawned, is the rest of its program; [stop_flag] is what
    the request has stored in [stopped]. *)
Record threads := mkThreads {
  agent_world : world;
  watch : Monitor.watch;
  thread : option (prog Monitor.monitorE (option unit));
  stop_flag : bool;
}.

(** What happens before an operation of the request: what the client does at the operations
    that the monitor's thread takes meanwhile, what the other threads do, and whether an
    operation of the operating system fails. *)
Record moment := mkMoment {
  moves : list Monitor.happening;
  others : interference;
  fault : option io_error;
}.
Definition quiet_moment : moment := mkMoment [] Runtime.alone None.

(** The monitor finds in [stopped] what was stored there. *)
Definition stopping (b : bool) (h : Monitor.happening) : Monitor.happening :=
  Monitor.mkHappening (Monitor.arrives h) (Monitor.closes h) (Monitor.leaves h) (Monitor.breaks h) b
    (Monitor.waits h) (Monitor.fault h).

(** The loop has no bound: where one round of it ends, the next begins. *)
Definition loop_on (p : prog Monitor.monitorE (option unit)) : prog Monitor.monitorE (option unit) :=
  match p with Ret None => Monitor.monitor_loop 1 | p => p end.

(** One operation of the monitor's thread; while there is none the client acts. *)
Definition monitor_step (d : threads) (h : Monitor.happening) : threads :=
  let h := stopping (stop_flag d) h in
  match thread d with
  | Some (Vis e k) =>
      let '(x, w) := Monitor.monitor_exec h (watch d) e in
      mkThreads (agent_world d) w (Some (loop_on (k x))) (stop_flag d)
  | _ => mkThreads (agent_world d) (Monitor.happen h (watch d)) (thread d) (stop_flag d)
  end.
Definition meanwhile (hs : list Monitor.happening) (d : threads) : threads := fold_left monitor_step hs d.

Definition ended (d : threads) : bool := match thread d with Some (Ret _) => true | _ => false end.

(** The request finds in [cancelled] what the monitor stored there. *)
Definition set_disconnected (v : interference) (b : bool) : interference :=
  mkInterference (Runtime.others v) (new_files v) (new_tpm v) b (fs_choices v) (tpm_choices v) (poisoned v)
    (wall_clock v) (Runtime.dialog v).

Definition watched_exec {X} (v : moment) (d : threads) (e : watchedE X) : X * threads :=
  let d := meanwhile (moves v) d in
  match e in watchedE X return X * threads with
  | TryClone => (match fault v with Some error => Err error | None => Ok tt end, d)
  | SpawnMonitor cancelled stopped =>
      match fault v with
      | Some error => (Err error, d)
      | None =>
          (Ok tt, mkThreads (agent_world d)
             (Monitor.set_since (Monitor.mkWatch stopped cancelled (Monitor.peer (watch d)) 0 (Monitor.clock (watch d)) false None))
             (Some (Monitor.monitor_loop 1)) stopped)
      end
  | StoreStopped => (tt, mkThreads (agent_world d) (watch d) (thread d) true)
  | Ended => (ended d, d)
  | Agent e =>
      let v' := set_disconnected (others v) (Monitor.cancelled (watch d)) in
      let '(x, w) := agent_exec tpm_calm a v' (interfere v' (agent_world d)) e in
      (x, mkThreads w (watch d) (thread d) (stop_flag d))
  end.
#[local] Instance watched_handler : Handler watchedE threads moment := fun X v d e => watched_exec v d e.
#[local] Instance agents_handler : Handler agentE world interference := agent_handler tpm_calm a.

(** ** The monitor's thread *)

(** What the client had sent is still there, and time has passed. *)
Definition grown (w w' : Monitor.watch) : Prop :=
  (exists more, Monitor.unread (Monitor.peer w') = Monitor.unread (Monitor.peer w) ++ more) /\
  Monitor.clock w <= Monitor.clock w'.

#[local] Instance grown_preorder : PreOrder grown.
Proof.
  split; [intros w; split; [exists []; by rewrite app_nil_r|done]|].
  intros w1 w2 w3 [[m1 H1] ?] [[m2 H2] ?]. split; [|lia]. exists (m1 ++ m2). by rewrite H2, H1, <- app_assoc.
Qed.

Lemma later_grown w w' : Monitor.later w w' -> grown w w'.
Proof. by intros [? _ ?]. Qed.

(** The places in the monitor's loop: its head, the poll, the look at what was reported, and
    the two ways on from there; or it has ended. *)
Definition giving_up : prog Monitor.monitorE (option unit) := _ ← trigger Monitor.StoreCancelled; Ret (Some tt).
Definition clearing : prog Monitor.monitorE (option unit) := _ ← trigger Monitor.ClearRevents; Ret None.
Definition reading : prog Monitor.monitorE (option unit) :=
  events ← trigger Monitor.Revents;
  if Monitor.intersects events (Z.lor Monitor.HUP Monitor.ERR) then giving_up else clearing.

Inductive in_loop : prog Monitor.monitorE (option unit) -> Prop :=
  | in_head : in_loop (Monitor.monitor_loop 1)
  | in_round : in_loop (Monitor.watch_round (Ret None))
  | in_reading : in_loop reading
  | in_clearing : in_loop clearing
  | in_giving_up : in_loop giving_up
  | in_end : in_loop (Ret (Some tt)).

Lemma in_loop_next p : in_loop p ->
  match p with Vis e k => forall x, in_loop (loop_on (k x)) | Ret r => r = Some tt end.
Proof.
  intros []; cbn.
  - intros []; [apply in_end|apply in_round].
  - intros [n|error|]; [destruct (n =? 0); [apply in_head|apply in_reading]|apply in_giving_up..].
  - intros events. destruct (Monitor.intersects _ _); [apply in_giving_up|apply in_clearing].
  - intros _. apply in_head.
  - intros _. apply in_end.
  - done.
Qed.

(** What is kept from the start [w0]: before there is a thread, and then the monitor's promises. *)
Definition guarded (w0 : Monitor.watch) (d : threads) : Prop :=
  (cancelled (agent_world d) = true -> Monitor.cancelled (watch d) = true) /\
  match thread d with
  | Some p => in_loop p /\
      exists w1 w2, grown w0 w1 /\ safe (Monitor.wary w1) p (Monitor.watched w1 1 w2) (watch d)
  | None => grown w0 (watch d) /\ Monitor.cancelled (watch d) = false /\
      forall t, Monitor.since (watch d) = Some t -> Monitor.clock (watch d) = t
  end.

(** At the start of a request nothing of its monitor is there. *)
Definition unwatched (d : threads) : Prop :=
  cancelled (agent_world d) = false /\ Monitor.cancelled (watch d) = false /\ Monitor.since (watch d) = None /\ thread d = None.

Lemma unwatched_guarded d : unwatched d -> guarded (watch d) d.
Proof. intros (Hc & Hm & Hs & Ht). split; [by rewrite Hc|]. rewrite Ht, Hs. by split_and!. Qed.

Lemma guarded_grown w0 d : guarded w0 d -> grown w0 (watch d).
Proof.
  intros [_ H]. destruct (thread d) as [p|]; [|apply H]. destruct H as (_ & w1 & w2 & H1 & Hs).
  etransitivity; [exact H1|]. by apply later_grown, Monitor.wa_later, (safe_here _ _ _ _ Hs).
Qed.

(** A request is cancelled for a reason only, and the monitor is prompt. *)
Lemma guarded_promises w0 d :
  guarded w0 d ->
  (Monitor.cancelled (watch d) = true -> Monitor.reason (watch d)) /\
  (forall t, Monitor.since (watch d) = Some t -> Monitor.clock (watch d) <= t + 50).
Proof.
  intros [_ H]. destruct (thread d) as [p|].
  - destruct H as (_ & w1 & w2 & _ & Hs). destruct (safe_here _ _ _ _ Hs) as [_ Hr _ Hp]. by split.
  - destruct H as (_ & Hc & Hs). split; [by rewrite Hc|]. intros t Ht. rewrite (Hs t Ht). lia.
Qed.

Lemma flag_stays {X} h w (e : Monitor.monitorE X) :
  Monitor.cancelled w = true -> Monitor.cancelled (snd (Monitor.monitor_exec h w e)) = true.
Proof.
  intros H. destruct e; cbn; try done. destruct (Monitor.fault h); [done|]. by destruct (Monitor.reported _ _ =? 0).
Qed.

(** The next round of the loop keeps the promises too. *)
Lemma loop_on_safe w1 w2 p w :
  safe (Monitor.wary w1) p (Monitor.watched w1 1 w2) w ->
  exists w3, safe (Monitor.wary w1) (loop_on p) (Monitor.watched w1 1 w3) w.
Proof.
  intros Hs. destruct p as [[[]|]|X e k]; [by exists w2| |by exists w2]. destruct Hs as [_ [Hh _]].
  exists w. by apply Monitor.monitor_loop_safe.
Qed.

Lemma monitor_step_guarded w0 d h : guarded w0 d -> guarded w0 (monitor_step d h).
Proof.
  intros [Hf H]. unfold monitor_step. set (h' := stopping _ h). destruct (thread d) as [[r|X e k]|] eqn:Et.
  - destruct H as (->%in_loop_next & w1 & w2 & H1 & [Hw Hr]). split; [exact Hf|]. split; [apply in_end|].
    exists w1, w2. split; [done|]. apply safe_ret; [by apply Monitor.wary_happen|].
    destruct Hr as [Hr|Hr]; [by left|right; cbn; by rewrite Hr].
  - destruct H as (Hin%in_loop_next & w1 & w2 & H1 & [Hw Hk]). specialize (Hk h'). unfold exec, Monitor.monitor_handler in Hk.
    pose proof (flag_stays h' (watch d) e) as Hs. destruct (Monitor.monitor_exec h' (watch d) e) as [x w]. cbn [fst snd] in *.
    split; [auto|]. split; [apply Hin|]. destruct (loop_on_safe w1 w2 (k x) w Hk) as [w3 Hk3]. by exists w1, w3.
  - destruct H as ((Hg & Hc) & Hm & Hs). split; [exact Hf|]. cbn. split_and!; [|done|].
    + etransitivity; [by split|]. by apply later_grown, Monitor.later_happen.
    + intros t. unfold Monitor.set_since. cbn. destruct (Monitor.since (watch d)) as [t'|]; [apply Hs|].
      destruct (Monitor.over _); [by intros [= <-]|done].
Qed.

Lemma monitor_step_world d h : agent_world (monitor_step d h) = agent_world d.
Proof. unfold monitor_step. destruct (thread d) as [[]|]; [done| |done]. by destruct (Monitor.monitor_exec _ _ _). Qed.

Lemma monitor_step_flag d h : Monitor.cancelled (watch d) = true -> Monitor.cancelled (watch (monitor_step d h)) = true.
Proof.
  unfold monitor_step. destruct (thread d) as [[r|X e k]|]; [done| |done].
  pose proof (flag_stays (stopping (stop_flag d) h) (watch d) e) as Hs. by destruct (Monitor.monitor_exec _ _ _).
Qed.

Lemma monitor_step_thread d h : thread d = None <-> thread (monitor_step d h) = None.
Proof. unfold monitor_step. destruct (thread d) as [[]|] eqn:Et; cbn; [done| |done]. by destruct (Monitor.monitor_exec _ _ _). Qed.

Lemma meanwhile_world hs d : agent_world (meanwhile hs d) = agent_world d.
Proof. revert d. induction hs as [|h hs IH]; intros d; [done|]. cbn. rewrite IH. apply monitor_step_world. Qed.

Lemma meanwhile_flag hs d : Monitor.cancelled (watch d) = true -> Monitor.cancelled (watch (meanwhile hs d)) = true.
Proof. revert d. induction hs as [|h hs IH]; intros d; [done|]. intros H. by apply IH, monitor_step_flag. Qed.

Lemma meanwhile_thread hs d : thread d = None <-> thread (meanwhile hs d) = None.
Proof. revert d. induction hs as [|h hs IH]; intros d; [done|]. cbn. rewrite <- IH. apply monitor_step_thread. Qed.

Lemma meanwhile_guarded w0 hs d : guarded w0 d -> guarded w0 (meanwhile hs d).
Proof. revert d. induction hs as [|h hs IH]; intros d Hd; [done|]. by apply IH, monitor_step_guarded. Qed.

Lemma exec_cancelled {X} (v : interference) w (e : agentE X) :
  cancelled (snd (agent_exec tpm_calm a v w e)) = cancelled w.
Proof.
  destruct e; cbn [agent_exec snd]; try done; try (by unfold own_step; destruct (step _ _)); try (by destruct (run _ _ _ _)).
  - by destruct (run _ _ _ _) as [[] ?].
  - destruct (lock_poisoned (shared w)); cbn [snd]; unfold own_step; by destruct (step (shared w) (Begin key_name)).
  - by destruct (Graphical.dialog_exec (Runtime.dialog v) (desktop w) e).
  - by destruct (poisoned v).
  - destruct (poisoned v); [done|]. by destruct (run _ _ _ _).
Qed.

(** *** The end of the thread *)

(** After [n] operations at most, whatever they find, once [stopped] is set. *)
Fixpoint stops_in (n : nat) (p : prog Monitor.monitorE (option unit)) : Prop :=
  match p with
  | Ret r => r = Some tt
  | Vis e k =>
      match n with
      | O => False
      | S n => forall h w, Monitor.finishes h = true -> stops_in n (loop_on (k (fst (Monitor.monitor_exec h w e))))
      end
  end.

Lemma in_loop_stops p : in_loop p -> stops_in 4 p.
Proof.
  assert (forall n, stops_in (S n) (Monitor.monitor_loop 1)) as Hhead.
  { intros n h w Hh. change (stops_in n (loop_on
      (if Monitor.stopped w || Monitor.finishes h then Ret (Some tt) else Monitor.watch_round (Ret None)))).
    rewrite Hh, orb_true_r. by destruct n. }
  assert (forall n, stops_in (S n) giving_up) as Hgiving by (by intros n h w Hh; destruct n).
  assert (forall n, stops_in (S (S n)) clearing) as Hclearing by (intros n h w Hh; exact (Hhead n)).
  assert (forall n, stops_in (S (S (S n))) reading) as Hreading.
  { intros n h w Hh. change (stops_in (S (S n)) (loop_on
      (if Monitor.intersects (Monitor.revents w) (Z.lor Monitor.HUP Monitor.ERR) then giving_up else clearing))).
    destruct (Monitor.intersects _ _); [apply Hgiving|apply Hclearing]. }
  intros []; [apply Hhead| |apply Hreading|apply Hclearing|apply Hgiving|done].
  intros h w Hh. cbn [fst Monitor.monitor_exec]. destruct (Monitor.fault h) as [error|]; [apply (Hgiving 2%nat)|].
  destruct (Monitor.reported _ _ =? 0); [apply (Hhead 2%nat)|apply (Hreading 0%nat)].
Qed.

Lemma stopped_thread_ends n d p hs :
  stop_flag d = true -> thread d = Some p -> stops_in n p -> (n <= length hs)%nat ->
  thread (meanwhile hs d) = Some (Ret (Some tt)).
Proof.
  revert n d p. induction hs as [|h hs IH]; intros n d p Hf Ht Hs Hn; cbn [length] in Hn.
  { assert (n = 0%nat) as -> by lia. destruct p as [r|]; [|done]. cbn in Hs. subst r. exact Ht. }
  change (thread (meanwhile hs (monitor_step d h)) = Some (Ret (Some tt))). unfold monitor_step. rewrite Ht.
  destruct p as [r|X e k].
  - apply (IH 0%nat _ (Ret r)); [done|done| |lia]. by destruct n.
  - destruct n as [|n]; [done|]. specialize (Hs (stopping (stop_flag d) h) (watch d) Hf).
    destruct (Monitor.monitor_exec _ _ _) as [x w]. apply (IH n _ (loop_on (k x))); [done|done|exact Hs|lia].
Qed.

(** *** The two threads together *)

Lemma op_guarded {X} w0 d v (e : watchedE X) :
  match e with SpawnMonitor _ _ => False | _ => True end -> guarded w0 d -> thread d <> None ->
  guarded w0 (snd (exec v d e)) /\ thread (snd (exec v d e)) <> None.
Proof.
  intros He Hd Ht. unfold exec, watched_handler, watched_exec.
  pose proof (meanwhile_guarded w0 (moves v) d Hd) as H1.
  assert (thread (meanwhile (moves v) d) <> None) as Ht1 by by rewrite <- meanwhile_thread.
  revert H1 Ht1. generalize (meanwhile (moves v) d). intros d1 H1 Ht1. destruct e as [| | | |X e]; try done.
  destruct H1 as [Hf H1]. set (v' := set_disconnected _ _). pose proof (exec_cancelled v' (interfere v' (agent_world d1)) e) as Hc.
  destruct (agent_exec _ _ _ _ _) as [x w]. cbn [fst snd] in *. split; [|done]. split; [|exact H1]. cbn. rewrite Hc.
  unfold interfere. destruct (steps _ _), (new_files v'), (new_tpm v') as [[? ?]|]; cbn; destruct (Monitor.cancelled (watch d1)); auto.
Qed.

Lemma start_watched w0 d :
  guarded w0 d -> thread d = None ->
  safe (guarded w0) (on_guard Monitor.RequestMonitor_start)
    (fun r d' => match r with
       | Some (Ok _) => guarded w0 d' /\ thread d' <> None
       | Some (Err _) => True
       | Some Panic | None => False
       end) d.
Proof.
  intros Hd Ht. split; [done|]. intros v. unfold exec, watched_handler, watched_exec.
  pose proof (meanwhile_guarded w0 (moves v) d Hd) as H1. pose proof (proj1 (meanwhile_thread (moves v) d) Ht) as Ht1.
  set (d1 := meanwhile _ d) in *. cbn [fst snd]. destruct (fault v); [by split|].
  split; [done|]. intros v2. unfold exec, watched_handler, watched_exec.
  pose proof (meanwhile_guarded w0 (moves v2) d1 H1) as H2. pose proof (proj1 (meanwhile_thread (moves v2) d1) Ht1) as Ht2.
  set (d2 := meanwhile _ d1) in *. cbn [fst snd]. destruct (fault v2); [by split|]. cbn [fst snd].
  destruct H2 as [Hf H2]. rewrite Ht2 in H2. destruct H2 as (Hg & Hc & _).
  set (w1 := Monitor.set_since _). set (d3 := mkThreads _ w1 _ _). assert (guarded w0 d3) as H3; [|by apply safe_ret].
  split; [intros Hx; specialize (Hf Hx); congruence|]. split; [apply in_head|]. exists w1, w1. split; [destruct Hg; by split|].
  apply Monitor.monitor_loop_safe, Monitor.fresh_head. by split.
Qed.

Lemma on_agent_guarded {A} w0 (p : prog agentE A) d :
  guarded w0 d -> thread d <> None -> safe (guarded w0) (on_agent p) (fun _ d' => guarded w0 d' /\ thread d' <> None) d.
Proof.
  revert d. induction p as [x|X e k IH]; intros d Hd Ht; [by apply safe_ret|]. apply safe_vis; [done|]. intros v.
  destruct (op_guarded w0 d v (Agent e) I Hd Ht). by apply IH.
Qed.

(** The thread has run to its end. *)
Definition thread_over (d : threads) : Prop := thread d = Some (Ret (Some tt)).

Lemma ended_thread w0 d : guarded w0 d -> ended d = true -> thread_over d.
Proof.
  intros [_ H] He. unfold thread_over, ended in *. destruct (thread d) as [[r|]|]; [|done..].
  by destruct H as [->%in_loop_next _].
Qed.

Lemma join_watched w0 fuel d :
  guarded w0 d -> thread d <> None ->
  safe (guarded w0) (join_monitor fuel) (fun r d' => guarded w0 d' /\ (r <> None -> thread_over d')) d.
Proof.
  revert d. induction fuel as [|fuel IH]; intros d Hd Ht; [by apply safe_ret|]. apply safe_vis; [done|]. intros v.
  destruct (op_guarded w0 d v Ended I Hd Ht) as [H1 Ht1]. revert H1 Ht1. unfold exec, watched_handler, watched_exec.
  cbn [fst snd]. generalize (meanwhile (moves v) d). clear d Hd Ht. intros d Hd Ht.
  destruct (ended d) eqn:He; [|by apply IH]. apply safe_ret; [done|]. split; [done|]. intros _. by eapply ended_thread.
Qed.

Lemma drop_watched w0 d :
  guarded w0 d -> thread d <> None ->
  safe (guarded w0) (on_guard Monitor.RequestMonitor_drop) (fun r d' => guarded w0 d' /\ (r <> None -> thread_over d')) d.
Proof.
  intros Hd Ht. apply safe_vis; [done|]. intros v. destruct (op_guarded w0 d v StoreStopped I Hd Ht) as [H1 Ht1].
  revert H1 Ht1. generalize (snd (exec v d StoreStopped)). clear d Hd Ht. intros d Hd Ht.
  change (safe (guarded w0) (join_monitor join_fuel ≫= fun r => match r with Some x => Ret (Some x) | None => Ret None end)
    (fun r d' => guarded w0 d' /\ (r <> None -> thread_over d')) d).
  apply safe_bind. eapply safe_mono; [done| |by apply join_watched]. intros [[]|] d' [H1 H2]; by apply safe_ret.
Qed.

Definition joined (x : option (result bytes (result bytes bytes))) (d : threads) : Prop :=
  forall o, x = Some (Ok o) -> thread_over d.

Lemma handle_watched_guarded fuel packet d :
  unwatched d -> safe (guarded (watch d)) (handle_watched fuel packet) joined d.
Proof.
  intros Hd. pose proof (unwatched_guarded d Hd) as Hg. destruct Hd as (_ & _ & _ & Ht).
  apply safe_bind. eapply safe_mono; [done| |by apply safe_end, start_watched].
  intros [[u|e|]|] d1 [H1 H]; [|by apply safe_ret|done..]. destruct H as [_ Ht1]. apply safe_bind.
  eapply safe_mono; [done| |by apply on_agent_guarded]. intros [o|] d2 [H2 Ht2]; [|by apply safe_ret].
  apply safe_bind. eapply safe_mono; [done| |by apply drop_watched]. intros [u'|] d3 [H3 Hr]; [|by apply safe_ret].
  apply safe_ret; [done|]. intros o' [= <-]. by apply Hr.
Qed.

(** *** Waiting for the thread *)

(** When the request waits for the thread's end, there is a thread, and [stopped] was set. *)
Definition joins {A} (q : prog watchedE A) : Prop :=
  match q with Vis e _ => match e with Ended => True | _ => False end | Ret _ => False end.
Definition told {A} (q : prog watchedE A) (d : threads) : Prop := joins q -> stop_flag d = true /\ thread d <> None.
Definition not_ended X (e : watchedE X) : Prop := match e with Ended => False | _ => True end.

Lemma before_join {A B} (I : threads -> Prop) (q : prog watchedE A) (f : A -> prog watchedE B) d :
  every not_ended q -> safe I q (fun x d => along told (f x) d) d -> along told (q ≫= f) d.
Proof.
  revert d. induction q as [x|X e k IH]; intros d Hq [_ Hf]; [exact Hf|]. destruct Hq as [He Hk].
  split; [|intros v; by apply IH]. intros Hj. by destruct e.
Qed.

Lemma meanwhile_stopped hs d : stop_flag (meanwhile hs d) = stop_flag d.
Proof.
  revert d. induction hs as [|h hs IH]; intros d; [done|]. cbn. rewrite IH. unfold monitor_step.
  destruct (thread d) as [[]|]; [done| |done]. by destruct (Monitor.monitor_exec _ _ _).
Qed.

Lemma at_join {A B} fuel (g : option unit -> prog watchedE A) (f : A -> prog watchedE B) d :
  stop_flag d = true -> thread d <> None -> (forall x d, along told (g x ≫= f) d) ->
  along told ((join_monitor fuel ≫= g) ≫= f) d.
Proof.
  intros Hd Ht Hf. revert d Hd Ht. induction fuel as [|fuel IH]; intros d Hd Ht; [apply Hf|]. split; [by intros _|]. intros v.
  unfold exec, watched_handler, watched_exec. cbn [fst snd]. rewrite <- (meanwhile_stopped (moves v) d) in Hd.
  rewrite (meanwhile_thread (moves v) d) in Ht. destruct (ended _); [apply Hf|by apply IH].
Qed.

Lemma on_agent_not_ended {A} (p : prog agentE A) : every not_ended (on_agent p).
Proof. induction p as [x|X e k IH]; [done|]. by split. Qed.

Lemma handle_watched_told fuel packet d : unwatched d -> along told (handle_watched fuel packet) d.
Proof.
  intros Hd. pose proof (unwatched_guarded d Hd) as Hg. destruct Hd as (_ & _ & _ & Ht).
  assert (forall x d, along told (Ret x : prog watchedE (option (result bytes (result bytes bytes)))) d) as Hret
    by (intros x d0; by split; [intros []|]).
  eapply before_join. { split; [done|]. intros [[]|e|]; [|done..]. split; [done|]. by intros [[]|e|]. }
  eapply safe_mono; [done| |by apply (start_watched (watch d))]. intros [[u|e|]|] d1 H1; [|apply Hret|done..].
  destruct H1 as [Hg1 Ht1]. eapply before_join; [apply on_agent_not_ended|].
  eapply safe_mono; [done| |by apply on_agent_guarded]. intros [o|] d2 [Hg2 Ht2]; [|apply Hret].
  split; [by intros []|]. intros v. destruct (op_guarded _ d2 v StoreStopped I Hg2 Ht2) as [_ Ht3].
  apply at_join; [done|exact Ht3|]. intros [[]|] d3; apply Hret.
Qed.

(** *** A client that leaves *)

Lemma agent_op_world {X} d v (e : agentE X) :
  exists v', exec v d (Agent e) = (fst (exec v' (agent_world d) e), snd (exec v d (Agent e))) /\
    agent_world (snd (exec v d (Agent e))) = snd (exec v' (agent_world d) e) /\
    (Monitor.cancelled (watch d) = true ->
       disconnected v' = true /\ Monitor.cancelled (watch (snd (exec v d (Agent e)))) = true).
Proof.
  unfold exec, watched_handler, agents_handler, agent_handler, watched_exec. set (d1 := meanwhile _ d).
  exists (set_disconnected (others v) (Monitor.cancelled (watch d1))).
  rewrite <- (meanwhile_world (moves v) d). fold d1.
  destruct (agent_exec _ _ _ _ _) as [x w]. split_and!; [done..|]. intros H. by split; apply meanwhile_flag.
Qed.

(** What holds of the rest of the request, at every moment, holds of it beside the monitor. *)
Lemma on_agent_along {A} (P : prog agentE A -> world -> Prop) (J : prog watchedE A -> threads -> Prop) p d :
  (forall q d, P q (agent_world d) -> J (on_agent q) d) -> along P p (agent_world d) -> along J (on_agent p) d.
Proof.
  intros H. revert d. induction p as [x|X e k IH]; intros d [HP Hk]; (split; [by apply H in HP|]); [done|].
  intros v. destruct (agent_op_world d v e) as (v' & Hx & Hw & _). rewrite Hx. cbn [fst snd]. apply IH. rewrite Hw. apply Hk.
Qed.

Lemma on_agent_safe {A} (I : world -> Prop) (p : prog agentE A) Q d :
  safe I p Q (agent_world d) -> safe (fun d => I (agent_world d)) (on_agent p) (fun x d' => Q x (agent_world d')) d.
Proof.
  revert d. induction p as [x|X e k IH]; intros d [HI Hk]; [by apply safe_ret|]. apply safe_vis; [done|].
  intros v. destruct (agent_op_world d v e) as (v' & Hx & Hw & _). rewrite Hx. cbn [fst snd]. apply IH. rewrite Hw. apply Hk.
Qed.

(** A flag that is set is seen at the next operation. *)
Lemma interfere_set (v : interference) (w : world) : disconnected v = true -> interfere v w = interfere v (set_cancelled w true).
Proof. intros H. unfold interfere. rewrite H. cbn. by destruct (steps _ _), (new_files v), (new_tpm v) as [[? ?]|]. Qed.

Lemma set_cancelled_id (w : world) : cancelled w = true -> set_cancelled w true = w.
Proof. destruct w; cbn. by intros ->. Qed.

Lemma on_agent_left {A} (I : world -> Prop) (p : prog agentE A) Q d :
  Monitor.cancelled (watch d) = true -> safe I p Q (set_cancelled (agent_world d) true) ->
  safe (fun d => I (set_cancelled (agent_world d) true)) (on_agent p) (fun x d' => Q x (set_cancelled (agent_world d') true)) d.
Proof.
  revert d. induction p as [x|X e k IH]; intros d Hd [HI Hk]; [by apply safe_ret|]. apply safe_vis; [done|].
  intros v. destruct (agent_op_world d v e) as (v' & Hx & Hw & Hf). destruct (Hf Hd) as [Hv Hd'].
  rewrite Hx. cbn [fst snd]. apply IH; [done|]. rewrite Hw. specialize (Hk v').
  unfold exec, agents_handler, agent_handler in *. rewrite <- (interfere_set v' _ Hv) in Hk.
  rewrite set_cancelled_id; [exact Hk|]. rewrite exec_cancelled. unfold interfere. rewrite Hv. done.
Qed.

(** When the flag is set while the request waits, the rest signs nothing. *)
Definition unsigned_rest (q : prog watchedE (option (result bytes (result bytes bytes)))) (d : threads) : Prop :=
  waits (agent_world d) -> Monitor.cancelled (watch d) = true ->
  safe (fun d => calls (agent_world d) = []) q (fun x _ => forall response, x <> Some (Ok (Ok response))) d.

(** Operations of the monitor's side leave the request's world alone. *)
Definition is_guard X (e : watchedE X) : Prop := match e with Agent _ => False | _ => True end.

Lemma guard_world {X} v d (e : watchedE X) : is_guard X e -> agent_world (snd (exec v d e)) = agent_world d.
Proof.
  intros He. unfold exec, watched_handler, watched_exec. rewrite <- (meanwhile_world (moves v) d). generalize (meanwhile (moves v) d).
  clear d. intros d. destruct e; try done. by destruct (fault v).
Qed.

Lemma guards_safe {A} (I : world -> Prop) (p : prog watchedE A) d :
  every is_guard p -> I (agent_world d) -> safe (fun d => I (agent_world d)) p (fun _ d => I (agent_world d)) d.
Proof.
  intros Hp Hd. apply (safe_every is_guard); [|done..]. intros X e v d' He. by rewrite (guard_world v d' e He).
Qed.

Lemma guards_bind {A B} (I : world -> Prop) (p : prog watchedE A) (f : A -> prog watchedE B) Q d :
  every is_guard p -> I (agent_world d) ->
  (forall x d', I (agent_world d') -> safe (fun d => I (agent_world d)) (f x) Q d') ->
  safe (fun d => I (agent_world d)) (p ≫= f) Q d.
Proof. intros Hp Hd Hf. apply safe_bind. eapply safe_mono, (guards_safe I p d Hp Hd); [done|]. intros x d'. apply Hf. Qed.

Lemma on_guard_every {A} (p : prog Monitor.guardE A) : every is_guard (on_guard p).
Proof.
  assert (forall fuel, every is_guard (join_monitor fuel)) as Hj.
  { induction fuel as [|fuel IH]; [done|]. split; [done|]. by intros []. }
  induction p as [x|X e k IH]; [done|]. apply every_bind; [clear k IH; destruct e; [by split..|apply Hj]|]. intros [x|]; [apply IH|done].
Qed.

(** What holds before each of them, and from their end on, holds along them. *)
Lemma guards_along {A B} (J : prog watchedE B -> threads -> Prop) w (p : prog watchedE A) (f : A -> prog watchedE B) d :
  every is_guard p -> agent_world d = w ->
  (forall q d, every is_guard q -> agent_world d = w -> J (q ≫= f) d) ->
  (forall x d, agent_world d = w -> along J (f x) d) -> along J (p ≫= f) d.
Proof.
  intros Hp Hd HJ Hf. revert d Hd. induction p as [x|X e k IH]; intros d Hd; [by apply Hf|].
  split; [exact (HJ (Vis e k) d Hp Hd)|]. destruct Hp as [He Hk]. intros v. apply IH; [apply Hk|]. by rewrite guard_world.
Qed.

(** The end of a request. *)
Definition ending (o : result bytes bytes) (dropped : option unit) : prog watchedE (option (result bytes (result bytes bytes))) :=
  match dropped with Some _ => Ret (Some (Ok o)) | None => Ret None end.
Definition finish (x : option (result bytes bytes)) : prog watchedE (option (result bytes (result bytes bytes))) :=
  match x with
  | Some outcome => on_guard Monitor.RequestMonitor_drop ≫= ending outcome
  | None => Ret None
  end.

Lemma finish_unsigned {A} (q : prog watchedE A) (f : A -> prog watchedE (option (result bytes (result bytes bytes)))) d :
  calls (agent_world d) = [] -> every is_guard q ->
  (forall x d, calls (agent_world d) = [] ->
     safe (fun d => calls (agent_world d) = []) (f x) (fun x _ => forall response, x <> Some (Ok (Ok response))) d) ->
  safe (fun d => calls (agent_world d) = []) (q ≫= f) (fun x _ => forall response, x <> Some (Ok (Ok response))) d.
Proof. intros Hk Hq Hf. by apply (guards_bind (fun w => calls w = [])). Qed.

Lemma ending_unsigned o dropped d :
  refused (Some o) -> calls (agent_world d) = [] ->
  safe (fun d => calls (agent_world d) = []) (ending o dropped) (fun x _ => forall response, x <> Some (Ok (Ok response))) d.
Proof.
  intros Hr Hk. destruct dropped; [|by apply safe_ret]. apply safe_ret; [done|]. intros response [= ->]. by destruct (Hr response).
Qed.

Lemma finish_along x d : abandons refused (Ret x) (agent_world d) -> along unsigned_rest (finish x) d.
Proof.
  intros Hx. assert (waits (agent_world d) -> calls (agent_world d) = [] /\ refused x) as Hrest.
  { intros Hw. destruct Hx as [Hs|Hk]; [by destruct (settled_not_waiting _ Hs)|exact Hk]. }
  destruct x as [o|]; cbn [finish].
  2: { split; [|done]. intros Hw _. by apply safe_ret; [apply Hrest|]. }
  apply (guards_along _ (agent_world d)); [apply on_guard_every|done| |].
  - intros q d1 Hq E1 Hw _. rewrite E1 in Hw. destruct (Hrest Hw) as [Hk Hr]. rewrite <- E1 in Hk.
    apply finish_unsigned; [done..|]. intros dropped d2 H2. by apply ending_unsigned.
  - intros dropped d1 E1. assert (unsigned_rest (ending o dropped) d1) as Hu; [|by destruct dropped].
    intros Hw _. rewrite E1 in Hw. destruct (Hrest Hw) as [Hk Hr]. rewrite <- E1 in Hk. by apply ending_unsigned.
Qed.

Lemma handle_watched_along fuel packet d :
  channel (agent_world d) = None -> calls (agent_world d) = [] ->
  along unsigned_rest (handle_watched fuel packet) d.
Proof.
  intros Hc Hk. set (w := agent_world d). assert (before w) as Hb by done.
  assert (forall q d1, agent_world d1 = w -> unsigned_rest q d1) as Hq.
  { intros q d1 E1 Hw. rewrite E1 in Hw. by destruct (settled_not_waiting w (before_settled w Hb)). }
  apply (guards_along _ w); [apply on_guard_every|done|intros; by apply Hq|].
  intros [[u|e|]|] d1 E1; [|by split; [apply Hq|]..].
  pose proof (handle_along tpm_calm Sha256 Sha384 a fuel packet (agent_world d1)) as Ha. rewrite E1 in Ha. specialize (Ha Hb).
  rewrite <- E1 in Ha.
  change (along unsigned_rest (on_agent (handle Sha256 Sha384 a fuel packet) ≫= finish) d1).
  eapply along_bind; [eapply on_agent_along, Ha|eapply safe_mono, on_agent_safe, along_end, Ha; [done|intros x d2; apply finish_along]].
  intros q d2 Hab Hw Hf. pose proof (on_agent_left _ _ _ d2 Hf (abandons_set tpm_calm a _ _ _ Hab Hw)) as Hs.
  apply safe_bind. eapply safe_mono, Hs; cbn.
  - intros d3 [_ _ H3 _]. exact H3.
  - intros x d3 [[_ _ H3 _] Hr]. destruct x as [o|]; [|by apply safe_ret].
    apply finish_unsigned; [exact H3|apply on_guard_every|]. intros dropped d4 H4. by apply ending_unsigned.
Qed.

(** ** What the two threads promise *)

(** [C17] A request and its monitor, run together in every interleaving, and whatever the
    client, the other threads and the operating system do.  None of the bytes that the client
    sends meanwhile is taken.  The request is cancelled only when the client left, the
    connection broke or its poll failed, so that neither a pipelined request nor a half-closed
    connection cancels anything; and the monitor still runs at most 50 ms after the request
    ended or the client left.  When the packet's outcome is known, the monitor's thread, whose
    loop has no bound of its own, has ended; and when the request waits for its end, four more
    operations of that thread end it, whatever the client does meanwhile.
    And when the monitor cancels the request while it waits for its PIN, from then on the TPM
    is not asked to sign for it, and its outcome is not a signature. *)
Theorem request_is_watched es0 fuel packet d p d' :
  fresh es0 (agent_world d) -> unwatched d -> reach (handle_watched fuel packet) d p d' ->
  (exists more, Monitor.unread (Monitor.peer (watch d')) = Monitor.unread (Monitor.peer (watch d)) ++ more) /\
  (cancelled (agent_world d') = true -> Monitor.reason (watch d')) /\
  (forall t, Monitor.since (watch d') = Some t -> Monitor.clock (watch d') <= t + 50) /\
  (forall outcome, p = Ret (Some (Ok outcome)) -> thread_over d') /\
  (joins p -> forall hs, (4 <= length hs)%nat -> thread_over (meanwhile hs d')) /\
  (waits (agent_world d') -> Monitor.cancelled (watch d') = true -> forall q d'', reach p d' q d'' ->
     calls (agent_world d'') = [] /\ forall response, q <> Ret (Some (Ok (Ok response)))).
Proof.
  intros Hf Hd Hr. pose proof (handle_watched_guarded fuel packet d Hd) as Hs.
  pose proof (safe_reach_inv _ _ _ _ _ _ Hs Hr) as Hg. destruct (guarded_promises _ _ Hg) as [Hre Hp].
  split_and!; [apply (guarded_grown _ _ Hg)|intros Hc; by apply Hre, Hg|done| | |].
  - intros o ->. by apply (safe_reach_ret _ _ _ _ _ _ Hs Hr o).
  - intros Hj hs Hn. destruct (along_reach _ _ _ _ _ (handle_watched_told fuel packet d Hd) Hr Hj) as [Hstop Ht].
    destruct Hg as [_ Hg]. destruct (thread d') as [q|] eqn:Et; [|done].
    apply (stopped_thread_ends 4 d' q); [done|done| |done]. by apply in_loop_stops, Hg.
  - intros Hw Hc q d'' Hr'.
    pose proof (along_reach _ _ _ _ _ (handle_watched_along fuel packet d (fr_channel _ _ Hf) (fr_calls _ _ Hf)) Hr Hw Hc) as Hq.
    split; [by eapply (safe_reach_inv _ _ _ _ _ _ Hq)|]. intros response ->.
    by destruct (safe_reach_ret _ _ _ _ _ _ Hq Hr' response).
Qed.
End Watched.

(** ** A client that leaves while the request sleeps *)

Module Sample.
Import Toy.
Import Runtime.Sample.

#[local] Instance sample_watched_handler : Handler (@watchedE toyE _) (@threads toyE unit _) (@moment toyE unit unit _) :=
  @watched_handler toyE unit unit _ _ tt an_agent.

Definition begin : @threads toyE unit _ := mkThreads start Monitor.Sample.w0 None false.
Definition request := handle_watched sha sha an_agent 9 3 sign_packet.

(** The monitor polls while the request sleeps: the client sends a byte and leaves. *)
Definition calm : @moment toyE unit unit _ := quiet_moment.
Definition watching : @moment toyE unit unit _ :=
  mkMoment [Monitor.nothing; Monitor.Sample.sends; Monitor.nothing; Monitor.Sample.leaving; Monitor.nothing; Monitor.nothing]
    Runtime.alone None.
Definition left_alone := advance request (replicate 9 calm ++ [watching]) begin.

(** The PIN comes all the same, before the second look. *)
Definition authorized : @moment toyE unit unit _ := mkMoment [] owner None.
Definition end_of_request := run calm (fst left_alone) [authorized] (snd left_alone).

Lemma left_in_wait : waits (agent_world (snd left_alone)).
Proof.
  exists 0, (mkRequest (request_id 255 1) (str "n") Waiting None).
  split; [vm_compute; reflexivity|]. split; [split; vm_compute; reflexivity|reflexivity].
Qed.

Lemma request_is_watched_witness :
  fst end_of_request = Some (Ok (Err DISCONNECTED)) /\ calls (agent_world (snd end_of_request)) = [] /\
  In (Take 4 (request_id 255 1) pin) (events (agent_world (snd end_of_request))) /\
  Monitor.unread (Monitor.peer (watch (snd left_alone))) = [Byte.x0a] /\ Monitor.reason (watch (snd end_of_request)) /\
  thread_over (snd end_of_request).
Proof.
  pose proof (advance_reach request (replicate 9 calm ++ [watching]) begin) as H1.
  assert (unwatched begin) as Hu by by split_and!.
  pose proof (request_is_watched tt sha sha an_agent 9 [] 3 sign_packet begin _ _ start_fresh Hu H1) as (_ & _ & _ & _ & _ & H).
  destruct (H left_in_wait ltac:(vm_compute; reflexivity) _ _ (run_reach calm (fst left_alone) [authorized] (snd left_alone))) as [Hk _].
  pose proof (reach_trans _ _ _ _ _ _ H1 (run_reach calm (fst left_alone) [authorized] (snd left_alone))) as H2.
  pose proof (request_is_watched tt sha sha an_agent 9 [] 3 sign_packet begin _ _ start_fresh Hu H2) as (_ & Hr & _ & Ho & _).
  split; [vm_compute; reflexivity|]. split; [exact Hk|]. split; [vm_compute; auto 10|].
  split; [vm_compute; reflexivity|]. split; [apply Hr; vm_compute; reflexivity|].
  apply (Ho (Err DISCONNECTED)), f_equal. vm_compute. reflexivity.
Defined.
End Sample.
