(* ===== verification/EndToEnd.v ===== *)
(** A signature with a PIN, end to end: the agent's request thread (Runtime), its control
    service (Control), the PIN broker between them (Broker), and [keyvisor authorize] on the
    other side of the control socket (Client), run together.  The requests that wait for
    nobody, for the identities and with a key without PIN, are here too. *)

From S2P Require Import Prelude Bytes Text Core Protocol Effects Tpm FileSystem AtomicFile Paths.
From S2P Require KeyStore History Secrets Graphical.
From S2P Require Import Broker.
From S2P Require Control Runtime Client.

(** ** A request that waits *)

(** Time passes for the broker. *)
Definition later (s : broker) (ms : Z) : broker :=
  mkBroker (process_id s) (started s) (authorizations s) (requests s) (held s) (clock s + ms) (lock_poisoned s).

(** The broker of [s] with a new request, [periods] looks later. *)
Definition asked (s : broker) (key_name : bytes) (periods : nat) : broker :=
  later (begin_request s key_name) (50 * Z.of_nat periods).

Definition request_of (s : broker) : bytes := request_id (process_id s) (NEXT_REQUEST_ID s).

Lemma asked_steps s key_name periods :
  steps s (Begin key_name :: replicate periods (Tick 50)) = Some (asked s key_name periods).
Proof.
  cbn [steps step]. change (mbind ?f (Some ?x)) with (f x). cbv beta. unfold asked. generalize (begin_request s key_name). clear s.
  induction periods as [|n IH]; intros s; [by destruct s; cbn; unfold later; cbn; rewrite Z.add_0_r|].
  cbn [replicate steps step]. cbn. change (mkBroker _ _ _ _ _ (clock s + 50) _) with (later s 50).
  rewrite IH. unfold later. cbn. f_equal. f_equal. lia.
Qed.

Lemma asked_reachable es s key_name periods :
  reachable es s -> started s < 2 ^ 64 ->
  reachable (es ++ Begin key_name :: replicate periods (Tick 50)) (asked s key_name periods).
Proof.
  intros (pid & Hs & _) Hlt. exists pid. split; [rewrite steps_app, Hs; apply asked_steps|].
  unfold asked. cbn [later started]. rewrite started_begin. lia.
Qed.

(** What the broker has of the new request. *)
Definition new_request (s : broker) (key_name : bytes) : request := mkRequest (request_of s) key_name Waiting None.
Lemma begin_entry s key_name :
  lock_poisoned s = false ->
  authorizations (begin_request s key_name) !! request_of s = Some (mkPending key_name (started s)) /\
  requests (begin_request s key_name) !! started s = Some (new_request s key_name) /\
  held (begin_request s key_name) = held s /\ lock_poisoned (begin_request s key_name) = false.
Proof. intros Hl. unfold begin_request. rewrite Hl. cbn. split_and!; [apply lookup_insert_eq|apply lookup_insert_eq|done|done]. Qed.

(** The owner's control connection hands the PIN over. *)
Lemma hand_over s id key_name ch r conn pin :
  lock_poisoned s = false -> authorizations s !! id = Some (mkPending key_name ch) -> requests s !! ch = Some r ->
  rq_phase r = Waiting -> rq_channel r = None -> held s !! conn = None ->
  exists s', steps s [Take conn id pin; Deliver conn] = Some s' /\
    requests s' !! ch = Some (Broker.set_channel r (Some pin)).
Proof.
  intros Hl Ha Hr Hp Hc Hh. eexists. split.
  - cbn [steps step]. rewrite Hh. unfold take_request. rewrite Hl, Ha. cbn [mbind option_bind pa_sender].
    cbn [set_held set_authorizations held]. rewrite lookup_insert_eq. cbn [mbind option_bind].
    unfold send_pin. cbn [requests set_held set_authorizations]. rewrite Hr. unfold receiver_dropped. rewrite Hp, Hc. reflexivity.
  - apply lookup_insert_eq.
Qed.

(** ** The request thread *)

Section Request.
Context {E : Type -> Type} {TS TV : Type} `{!Handler E TS TV} `{!TpmSigner E} (tpm_calm : TV) `{!TpmSignerLaws E tpm_calm}.
Context (Sha256 Sha384 : bytes -> bytes) (a : Runtime.agent).
Abbreviation world := (@Runtime.world E TS _).
Abbreviation interference := (@Runtime.interference E TS TV _).
Abbreviation agentE := (@Runtime.agentE E _).
#[local] Instance request_handler : Handler agentE world interference := Runtime.agent_handler tpm_calm a.
Abbreviation alone := (@Runtime.alone E TS TV _).

(** While the request waits: the files, the TPM and the logs are those of the start [w0],
    the client is there, and the broker is [s]. *)
Record waiting (w0 : world) (ch : option Z) (s : broker) (w : world) : Prop := mk_waiting {
  wt_files : Runtime.files w = Runtime.files w0;
  wt_tpm : Runtime.tpm_state w = Runtime.tpm_state w0;
  wt_slot : Runtime.tpm_slot w = Runtime.tpm_slot w0;
  wt_here : Runtime.cancelled w = false;
  wt_channel : Runtime.channel w = ch;
  wt_calls : Runtime.calls w = Runtime.calls w0;
  wt_signatures : Runtime.signatures w = Runtime.signatures w0;
  wt_recorded : Runtime.recorded w = Runtime.recorded w0;
  wt_shared : Runtime.shared w = s;
}.

Lemma waiting_alone w0 ch s w : waiting w0 ch s w -> waiting w0 ch s (Runtime.interfere alone w).
Proof. by intros []; split. Qed.

Context (w0 : world).

(** The other threads do [es] before an operation, and nothing else. *)
Definition meanwhile (es : list event) : interference := Runtime.mkInterference es None None false [] [] false (Some 0) Graphical.undisturbed.

Lemma waiting_shared ch s w s' es : waiting w0 ch s w -> waiting w0 ch s' (Runtime.set_shared w s' es).
Proof. by intros []; split. Qed.

Lemma run_check {A} (f : result bytes unit -> prog agentE A) vs ch s w :
  waiting w0 ch s w ->
  exists w', run alone (Runtime.check ≫= f) (alone :: vs) w = run alone (f (Ok tt)) vs w' /\ waiting w0 ch s w'.
Proof.
  intros Hw. apply waiting_alone in Hw. exists (Runtime.interfere alone w). split; [|exact Hw].
  change (run alone (f (Ok tt)) vs (Runtime.interfere alone w)) with
    (run alone ((if false then Ret (Err Runtime.DISCONNECTED) else Ret (Ok tt)) ≫= f) vs (Runtime.interfere alone w)).
  rewrite <- (wt_here _ _ _ _ Hw). reflexivity.
Qed.

Lemma run_begin {A} (f : result unit (bytes * Z) -> prog agentE A) vs s w key_name :
  waiting w0 None s w -> lock_poisoned s = false ->
  exists w', run alone (trigger (Runtime.BeginRequest key_name) ≫= f) (alone :: vs) w =
      run alone (f (Ok (request_of s, started s))) vs w' /\
    waiting w0 (Some (started s)) (begin_request s key_name) w'.
Proof.
  intros Hw Hl. apply waiting_alone in Hw. eexists. split.
  - erewrite run_op; [reflexivity|]. unfold exec, request_handler, Runtime.agent_handler. cbn [Runtime.agent_exec].
    rewrite (wt_shared _ _ _ _ Hw), Hl. reflexivity.
  - unfold Runtime.own_step. cbn [step]. rewrite (wt_shared _ _ _ _ Hw). by destruct Hw; split.
Qed.

Lemma run_now {A} (f : Z -> prog agentE A) vs ch s w :
  waiting w0 ch s w ->
  exists w', run alone (trigger Runtime.InstantNow ≫= f) (alone :: vs) w = run alone (f (clock s)) vs w' /\ waiting w0 ch s w'.
Proof.
  intros Hw. apply waiting_alone in Hw. exists (Runtime.interfere alone w). split; [|done].
  erewrite run_op; [reflexivity|]. unfold exec, request_handler, Runtime.agent_handler. cbn [Runtime.agent_exec].
  by rewrite (wt_shared _ _ _ _ Hw).
Qed.

(** [try_recv] on the own channel of the request. *)
Lemma exec_recv v ch s w r :
  waiting w0 (Some ch) s (Runtime.interfere v w) -> requests s !! ch = Some r -> rq_phase r = Waiting ->
  exec v w (Runtime.TryRecv ch) =
    (try_recv s ch r, Runtime.set_shared (Runtime.interfere v w) (receive s ch r) [Recv ch]).
Proof.
  intros Hw Hr Hp. unfold exec, request_handler, Runtime.agent_handler. cbn [Runtime.agent_exec].
  unfold Runtime.own_step. cbn [step]. rewrite (wt_shared _ _ _ _ Hw), Hr. cbn [mbind option_bind]. by rewrite Hp.
Qed.

(** One round of the loop, while nobody has sent a PIN. *)
Lemma run_round {A} (f : Runtime.loop_result -> prog agentE A) fuel vs ch deadline s w r id p :
  waiting w0 (Some ch) s w -> requests s !! ch = Some r -> rq_phase r = Waiting -> rq_channel r = None ->
  authorizations s !! id = Some p -> pa_sender p = ch -> clock s < deadline ->
  exists w', run alone (Runtime.wait_for_pin (S fuel) ch deadline false ≫= f) (alone :: alone :: alone :: alone :: vs) w =
      run alone (Runtime.wait_for_pin fuel ch deadline false ≫= f) vs w' /\ waiting w0 (Some ch) (later s 50) w'.
Proof.
  intros Hw Hr Hp Hc Ha Hs Hd.
  assert (try_recv s ch r = Empty) as Htry.
  { unfold try_recv. rewrite Hc. assert (sender_alive s ch = true) as -> by (apply sender_alive_spec; left; by exists id, p). done. }
  pose proof (exec_recv alone ch s w r (waiting_alone _ _ _ _ Hw) Hr Hp) as E1.
  unfold receive in E1. rewrite Htry in E1. set (w2 := Runtime.set_shared _ s [Recv ch]) in *.
  assert (waiting w0 (Some ch) s w2) as Hw2 by by apply waiting_shared with s, waiting_alone.
  cbn [Runtime.wait_for_pin]. erewrite run_op_bind by exact E1. cbn iota.
  unfold Runtime.still_there. change (Ret ?x ≫= ?g) with (g x). cbv beta. unfold Runtime.give_up_or. rewrite run_assoc.
  match goal with |- context [run alone (trigger Runtime.InstantNow ≫= ?g) (_ :: ?vs) _] =>
    destruct (run_now g vs (Some ch) s w2 Hw2) as (w3 & -> & Hw3) end.
  rewrite (proj2 (Z.leb_gt _ _) Hd). rewrite run_assoc.
  match goal with |- context [run alone (Runtime.check ≫= ?g) (_ :: ?vs) _] =>
    destruct (run_check g vs (Some ch) s w3 Hw3) as (w4 & -> & Hw4) end.
  apply waiting_alone in Hw4. eexists. split; [erewrite run_op_bind by reflexivity; reflexivity|].
  unfold Runtime.own_step. cbn [step]. rewrite (wt_shared _ _ _ _ Hw4). by apply waiting_shared with s.
Qed.

Lemma later_later s x y : later (later s x) y = later s (x + y).
Proof. unfold later. cbn. f_equal. lia. Qed.

Lemma run_rounds {A} (f : Runtime.loop_result -> prog agentE A) n fuel vs ch deadline s w r id p :
  waiting w0 (Some ch) s w -> requests s !! ch = Some r -> rq_phase r = Waiting -> rq_channel r = None ->
  authorizations s !! id = Some p -> pa_sender p = ch -> clock s + 50 * (Z.of_nat n - 1) < deadline ->
  exists w', run alone (Runtime.wait_for_pin (n + fuel) ch deadline false ≫= f) (replicate (4 * n) alone ++ vs) w =
      run alone (Runtime.wait_for_pin fuel ch deadline false ≫= f) vs w' /\ waiting w0 (Some ch) (later s (50 * Z.of_nat n)) w'.
Proof.
  intros Hw Hr Hp Hc Ha Hs. revert s w Hw Hr Ha. induction n as [|n IH]; intros s w Hw Hr Ha Hd.
  { exists w. split; [done|]. assert (later s (50 * Z.of_nat 0) = s) as -> by (destruct s; unfold later; cbn; by rewrite Z.add_0_r). done. }
  replace (4 * S n)%nat with (S (S (S (S (4 * n))))) by lia. cbn [replicate app Nat.add].
  destruct (run_round f (n + fuel) (replicate (4 * n) alone ++ vs) ch deadline s w r id p Hw Hr Hp Hc Ha Hs ltac:(lia)) as (w1 & -> & Hw1).
  destruct (IH (later s 50) w1 Hw1 Hr Ha) as (w2 & -> & Hw2); [cbn; lia|]. exists w2. split; [done|].
  rewrite later_later in Hw2. by replace (50 * Z.of_nat (S n)) with (50 + 50 * Z.of_nat n) by lia.
Qed.

(** The look that finds the PIN which a control connection sent before it. *)
Lemma run_found {A} (f : Runtime.loop_result -> prog agentE A) fuel vs ch deadline s s' w r conn id pin :
  waiting w0 (Some ch) s w -> steps s [Take conn id pin; Deliver conn] = Some s' ->
  requests s' !! ch = Some r -> rq_phase r = Waiting -> rq_channel r = Some pin ->
  exists w' s'', run alone (Runtime.wait_for_pin (S fuel) ch deadline false ≫= f) (meanwhile [Take conn id pin; Deliver conn] :: vs) w =
      run alone (f (Some (Ok pin, false))) vs w' /\ waiting w0 (Some ch) s'' w'.
Proof.
  intros Hw Hs Hr Hp Hc. set (es := [Take conn id pin; Deliver conn]).
  set (w1 := Runtime.interfere (meanwhile es) w).
  assert (w1 = Runtime.set_shared w s' es) as E1.
  { unfold w1, Runtime.interfere. cbn [Runtime.others meanwhile]. rewrite (wt_channel _ _ _ _ Hw).
    assert (filter (fun e => Runtime.foreign (Some ch) e = true) es = es) as -> by reflexivity.
    rewrite (wt_shared _ _ _ _ Hw). unfold es. by rewrite Hs. }
  assert (waiting w0 (Some ch) s' w1) as Hw1 by (rewrite E1; by apply waiting_shared with s).
  pose proof (exec_recv (meanwhile es) ch s' w r Hw1 Hr Hp) as E2.
  assert (try_recv s' ch r = Received pin) as Htry by (unfold try_recv; by rewrite Hc). rewrite Htry in E2.
  exists (Runtime.set_shared w1 (receive s' ch r) [Recv ch]), (receive s' ch r).
  split; [|by apply waiting_shared with s']. cbn [Runtime.wait_for_pin]. by erewrite run_op_bind by exact E2.
Qed.

(** An own step of the request, when nobody is left to interfere. *)
Lemma waiting_own ch s w e : waiting w0 ch s w -> exists s', waiting w0 ch s' (Runtime.own_step (Runtime.interfere alone w) e).
Proof.
  intros Hw%waiting_alone. unfold Runtime.own_step. destruct (step _ _) as [s'|]; [exists s'|by exists s]. by eapply waiting_shared.
Qed.

(** *** The signature *)

Context (key : KeyStore.StoredKey) (pin : bytes).

(** The TPM can be opened, and signs with this key and the authorization its policy asks for. *)
Record tpm_available (digest : bytes) : Prop := mk_available {
  av_open : forall t, exists self t', run tpm_calm tpm_connect [] t = (Ok self, t');
  av_sign : forall self t, exists signature t',
    run tpm_calm (tpm_sign self (KeyStore.object key) (algorithm (KeyStore.summary key)) digest
      (Runtime.authorization_of key pin)) [] t = (Ok signature, t');
}.

(** The signature was made: these are the logs, and the flag is still not set. *)
Record made (digest signature : bytes) (w : world) : Prop := mk_made {
  md_here : Runtime.cancelled w = false;
  md_calls : Runtime.calls w =
    Runtime.calls w0 ++ [(KeyStore.object key, algorithm (KeyStore.summary key), digest, Runtime.authorization_of key pin)];
  md_signatures : Runtime.signatures w = Runtime.signatures w0 ++ [Ok signature];
  md_recorded : Runtime.recorded w = Runtime.recorded w0;
  md_files : Runtime.files w = Runtime.files w0;
}.

Lemma run_check_alone w :
  Runtime.cancelled w = false -> run alone Runtime.check [] w = (Ok tt, Runtime.interfere alone w).
Proof.
  intros Hc. unfold Runtime.check. erewrite run_bind by (rewrite run_trigger; reflexivity).
  change (Runtime.cancelled (Runtime.interfere alone w)) with (Runtime.cancelled w). by rewrite Hc.
Qed.

(** The signer, opened when it is not yet. *)
Lemma run_open ch s w digest (slot : option signer) :
  waiting w0 ch s w -> tpm_available digest ->
  exists self w', run alone (match slot with
      | None => map_err_prog (fun error => str "cannot open the TPM: " ++ TpmError_display error) (trigger Runtime.TpmConnect)
      | Some self => Ret (Ok self)
      end : prog agentE (result bytes signer)) [] w = (Ok self, w') /\
    Runtime.cancelled w' = false /\ Runtime.calls w' = Runtime.calls w0 /\
    Runtime.signatures w' = Runtime.signatures w0 /\ Runtime.recorded w' = Runtime.recorded w0 /\
    Runtime.files w' = Runtime.files w0.
Proof.
  intros Hw Hav. destruct slot as [self|]; [exists self, w; by destruct Hw|].
  destruct (av_open _ Hav (Runtime.tpm_state (Runtime.interfere alone w))) as (self & t & Ht).
  exists self. eexists. split.
  - apply run_map_err. rewrite run_trigger. unfold exec, request_handler, Runtime.agent_handler, Runtime.agent_exec.
    cbn [Runtime.tpm_choices Runtime.alone]. rewrite Ht. reflexivity.
  - destruct (waiting_alone _ _ _ _ Hw). by split_and!.
Qed.

Lemma run_sign ch s w digest :
  waiting w0 ch s w -> tpm_available digest ->
  exists signature response w', run alone (Runtime.sign_authorized key digest pin) [] w = (Ok response, w') /\
    ecdsa_signature_response (algorithm (KeyStore.summary key)) signature = Ok response /\ made digest signature w'.
Proof.
  intros Hw Hav. unfold Runtime.sign_authorized. cbv zeta.
  erewrite run_try by apply run_check_alone, (wt_here _ _ _ _ Hw). apply waiting_alone in Hw.
  revert Hw. generalize (Runtime.interfere alone w). clear w. intros w Hw.
  erewrite run_try by (apply run_map_err; rewrite run_trigger; reflexivity). apply waiting_alone in Hw.
  revert Hw. generalize (Runtime.interfere alone w). clear w. intros w Hw.
  destruct (run_open ch s w digest (Runtime.tpm_slot w) Hw Hav) as (self & w1 & Ho & Hc & Hl & Hsg & Hrec & Hfs).
  erewrite run_try by exact Ho.
  destruct (av_sign _ Hav self (Runtime.tpm_state (Runtime.interfere alone w1))) as (signature & t & Ht).
  pose proof (sign_width self (KeyStore.object key) (algorithm (KeyStore.summary key)) digest (Runtime.authorization_of key pin) []
    (Runtime.tpm_state (Runtime.interfere alone w1))) as Hwidth. rewrite Ht in Hwidth. cbn [fst] in Hwidth.
  set (w2 := Runtime.add_call (Runtime.set_tpm (Runtime.interfere alone w1) t (Runtime.tpm_slot (Runtime.interfere alone w1)))
    (KeyStore.object key, algorithm (KeyStore.summary key), digest, Runtime.authorization_of key pin) (Ok signature)).
  erewrite (run_try _ _ _ _ signature w2).
  2:{ apply run_map_err. rewrite run_trigger. unfold exec, request_handler, Runtime.agent_handler, Runtime.agent_exec.
      cbn [Runtime.tpm_choices Runtime.alone]. by rewrite Ht. }
  erewrite run_try by (apply run_check_alone; exact Hc).
  exists signature. rewrite signature_response_eq, Hwidth, Z.eqb_refl. do 2 eexists. split; [reflexivity|]. split; [reflexivity|].
  split; cbn; [done|by rewrite Hl|by rewrite Hsg|done..].
Qed.

(** The history of a signature, when it is enabled: one append, to the files of the start, and
    the files are then what it left; what it did to the history is [appended]; and it succeeds
    if the history is well-formed and a temporary name is free. *)
Definition history_kept (w : world) : Prop :=
  let entry := Runtime.history_entry key 0 History.Succeeded in
  if Runtime.history_enabled a then
    exists r, let c := Runtime.mkAppend entry (Runtime.files w0) r (Runtime.files w) in
      Runtime.recorded w = Runtime.recorded w0 ++ [c] /\ Runtime.appended a c /\
      forall dir fname old hist k,
        Runtime.history_ready a (Runtime.files w0) entry dir fname old hist -> (k < 100)%nat ->
        entries (Runtime.files w0) !! (dir ++ [History.temporary_name (Runtime.agent_pid a) (Z.of_nat k)]) = None ->
        r = Ok tt
  else Runtime.recorded w = Runtime.recorded w0 /\ Runtime.files w = Runtime.files w0.

Lemma run_record digest signature w :
  made digest signature w ->
  exists w', run alone (Runtime.record_history a key History.Succeeded) [] w = (Ok tt, w') /\
    Runtime.calls w' = Runtime.calls w /\ Runtime.signatures w' = Runtime.signatures w /\ history_kept w'.
Proof.
  intros [Hc Hl Hsg Hrec Hfs]. unfold Runtime.record_history, history_kept. destruct (Runtime.history_enabled a); cbn [negb].
  2:{ by exists w. }
  erewrite run_bind by (rewrite run_trigger; reflexivity).
  set (w1 := Runtime.interfere alone w). set (w2 := Runtime.interfere alone w1).
  set (entry := Runtime.history_entry key 0 History.Succeeded).
  destruct (run FileSystem.calm (History.HistoryStore_append (Runtime.history a) (Runtime.agent_pid a) entry) [] (Runtime.files w2))
    as [r fs'] eqn:Er.
  pose proof (total_run FileSystem.calm _ [] (Runtime.files w2) (History.total_append (Runtime.history a) (Runtime.agent_pid a) entry)) as Hn.
  pose proof (run_reach FileSystem.calm (History.HistoryStore_append (Runtime.history a) (Runtime.agent_pid a) entry) [] (Runtime.files w2)) as Hr.
  assert (forall dir fname old hist k, Runtime.history_ready a (Runtime.files w0) entry dir fname old hist -> (k < 100)%nat ->
    entries (Runtime.files w0) !! (dir ++ [History.temporary_name (Runtime.agent_pid a) (Z.of_nat k)]) = None ->
    map_err History.HistoryError_display r = Ok tt) as Hsucc.
  { intros dir fname old hist k H1 H2 H3. pose proof (Runtime.append_undisturbed a _ _ _ _ _ _ k H1 H2 H3) as H.
    rewrite <- Hfs in H. change (Runtime.files w) with (Runtime.files w2) in H. rewrite Er in H. cbn [fst] in H. by rewrite H. }
  rewrite Er in Hn, Hr. cbn [fst snd] in Hn, Hr. apply Runtime.appended_outcome in Hr.
  set (r' := map_err History.HistoryError_display r) in *. change (Runtime.files w2) with (Runtime.files w) in Hr.
  rewrite Hfs in Hr. set (c := Runtime.mkAppend entry (Runtime.files w0) r' fs') in *.
  set (w3 := Runtime.add_record (Runtime.set_files w2 fs') c).
  erewrite (run_bind _ _ _ _ r' w3).
  2:{ rewrite run_trigger. unfold exec, request_handler, Runtime.agent_handler, Runtime.agent_exec.
      cbn [Runtime.poisoned Runtime.alone Runtime.fs_choices Runtime.wall_clock]. fold w1 w2 entry. rewrite Er.
      unfold w3, c. by rewrite <- Hfs. }
  assert (Runtime.recorded w3 = Runtime.recorded w0 ++ [c]) as Hrec3 by (cbn; by rewrite Hrec).
  destruct r as [u|error|]; [exists w3| |done].
  - split_and!; [done..|]. by exists r'.
  - eexists. split; [unfold r'; cbn [map_err]; by erewrite run_bind by (rewrite run_trigger; reflexivity)|].
    split_and!; [done..|]. by exists r'.
Qed.

(** *** The request *)

Context (packet data : bytes) (keys : list KeyStore.StoredKey).

(** The choices of an execution in which the PIN arrives after some looks. *)
Definition authorized_after (periods : nat) (es : list event) : list interference :=
  replicate 4 alone ++ replicate (4 * periods) alone ++ [meanwhile es].

(** The key store is listed. *)
Lemma run_list {A} (f : result bytes (list KeyStore.StoredKey) -> prog agentE A) vs s w :
  waiting w0 None s w ->
  run FileSystem.calm (KeyStore.KeyStore_list (Runtime.store a)) [] (Runtime.files w0) = (Ok keys, Runtime.files w0) ->
  exists w', run alone (map_err_prog KeyStore.StoreError_display (trigger Runtime.StoreList) ≫= f) (alone :: vs) w =
      run alone (f (Ok keys)) vs w' /\ waiting w0 None s w'.
Proof.
  intros Hw%waiting_alone Hlist. set (w1 := Runtime.interfere alone w) in *.
  exists (Runtime.add_answer (Runtime.set_files w1 (Runtime.files w0)) keys). split; [|by destruct Hw; split].
  assert (exec alone w Runtime.StoreList = (Ok keys, Runtime.add_answer (Runtime.set_files w1 (Runtime.files w0)) keys)) as E1.
  { unfold exec, request_handler, Runtime.agent_handler. fold w1. cbn [Runtime.agent_exec Runtime.fs_choices Runtime.alone].
    by rewrite (wt_files _ _ _ _ Hw : Runtime.files w1 = _), Hlist. }
  unfold map_err_prog. by erewrite run_op_bind by exact E1.
Qed.

(** The request for the identities. *)
Lemma run_identities s fuel :
  waiting w0 None s w0 -> parse_request packet = Ok RequestIdentities ->
  run FileSystem.calm (KeyStore.KeyStore_list (Runtime.store a)) [] (Runtime.files w0) = (Ok keys, Runtime.files w0) ->
  fst (run alone (Runtime.handle Sha256 Sha384 a fuel packet) [] w0) =
    Some (map_err ProtocolError_display (identities_response (KeyStore.summary <$> keys))).
Proof.
  intros Hw Hparse Hlist. rewrite <- run_calm_cons. unfold Runtime.handle.
  match goal with |- context [run alone (Runtime.check ≫= ?f) (_ :: ?vs) _] => destruct (run_check f vs None s w0 Hw) as (w1 & -> & Hw1) end.
  rewrite Hparse. cbn [map_err]. rewrite <- run_calm_cons.
  match goal with |- context [run alone (map_err_prog ?g (trigger ?e) ≫= ?f) (_ :: ?vs) _] =>
    destruct (run_list f vs s w1 Hw1 Hlist) as (w2 & -> & _) end. reflexivity.
Qed.

(** The request to sign with a key that needs no PIN. *)
Lemma run_handle_no_pin s fuel :
  waiting w0 None s w0 -> parse_request packet = Ok (Sign (public_key (KeyStore.summary key)) data 0) ->
  run FileSystem.calm (KeyStore.KeyStore_list (Runtime.store a)) [] (Runtime.files w0) = (Ok keys, Runtime.files w0) ->
  Runtime.find_key (public_key (KeyStore.summary key)) keys = Some key ->
  use_policy (KeyStore.summary key) = NoPin -> pin = [] ->
  tpm_available (Runtime.digest_of Sha256 Sha384 (algorithm (KeyStore.summary key)) data) ->
  exists signature response w',
    run alone (Runtime.handle Sha256 Sha384 a fuel packet) [] w0 = (Some (Ok response), w') /\
    ecdsa_signature_response (algorithm (KeyStore.summary key)) signature = Ok response /\
    Runtime.calls w' = Runtime.calls w0 ++ [(KeyStore.object key, algorithm (KeyStore.summary key),
      Runtime.digest_of Sha256 Sha384 (algorithm (KeyStore.summary key)) data, AuthNone)] /\
    Runtime.signatures w' = Runtime.signatures w0 ++ [Ok signature] /\
    history_kept w'.
Proof.
  intros Hw Hparse Hlist Hfind Hpol Hpin Hav. rewrite <- run_calm_cons. unfold Runtime.handle.
  match goal with |- context [run alone (Runtime.check ≫= ?f) (_ :: ?vs) _] => destruct (run_check f vs None s w0 Hw) as (w1 & -> & Hw1) end.
  rewrite Hparse. cbn [map_err Z.eqb negb]. rewrite <- run_calm_cons.
  match goal with |- context [run alone (map_err_prog ?g (trigger ?e) ≫= ?f) (_ :: ?vs) _] =>
    destruct (run_list f vs s w1 Hw1 Hlist) as (w2 & -> & Hw2) end.
  cbv beta iota. rewrite Hfind. unfold Runtime.sign_with_key, Runtime.obtain_pin. rewrite Hpol, run_assoc.
  change (Ret ?x ≫= ?f) with (f x). cbv beta iota. rewrite <- Hpin, run_assoc.
  destruct (run_sign _ _ _ (Runtime.digest_of Sha256 Sha384 (algorithm (KeyStore.summary key)) data) Hw2 Hav)
    as (signature & response & w3 & Hsign & Hresp & Hmade).
  erewrite run_bind by exact Hsign. change (Ret ?x ≫= ?f) with (f x). cbv beta iota. cbn [is_ok].
  destruct (run_record _ _ _ Hmade) as (w4 & Hrec & Hcalls & Hsigs & Hrecorded).
  erewrite run_bind by exact Hrec. exists signature, response, w4. split; [reflexivity|]. split; [exact Hresp|].
  rewrite Hcalls, Hsigs. destruct Hmade as [_ -> -> _ _]. unfold Runtime.authorization_of. rewrite Hpol. by split_and!.
Qed.

Lemma run_handle s conn fuel periods :
  Graphical.graphical_session_available (Runtime.var_os a) = false ->
  waiting w0 None s w0 -> lock_poisoned s = false -> held s !! conn = None ->
  parse_request packet = Ok (Sign (public_key (KeyStore.summary key)) data 0) ->
  run FileSystem.calm (KeyStore.KeyStore_list (Runtime.store a)) [] (Runtime.files w0) = (Ok keys, Runtime.files w0) ->
  Runtime.find_key (public_key (KeyStore.summary key)) keys = Some key ->
  use_policy (KeyStore.summary key) = TpmPin ->
  tpm_available (Runtime.digest_of Sha256 Sha384 (algorithm (KeyStore.summary key)) data) ->
  50 * (Z.of_nat periods - 1) < Runtime.authorization_timeout a ->
  exists signature response w',
    run alone (Runtime.handle Sha256 Sha384 a (periods + S fuel) packet)
      (authorized_after periods [Take conn (request_of s) pin; Deliver conn]) w0 = (Some (Ok response), w') /\
    ecdsa_signature_response (algorithm (KeyStore.summary key)) signature = Ok response /\
    Runtime.calls w' = Runtime.calls w0 ++ [(KeyStore.object key, algorithm (KeyStore.summary key),
      Runtime.digest_of Sha256 Sha384 (algorithm (KeyStore.summary key)) data, AuthPin pin)] /\
    Runtime.signatures w' = Runtime.signatures w0 ++ [Ok signature] /\
    history_kept w'.
Proof.
  intros Hterm Hw Hlock Hh Hparse Hlist Hfind Hpol Hav Hper.
  unfold Runtime.handle, authorized_after. cbn [replicate app].
  match goal with |- context [run alone (Runtime.check ≫= ?f) _ _] => destruct (run_check f
    (alone :: alone :: alone :: replicate (4 * periods) alone ++ [meanwhile [Take conn (request_of s) pin; Deliver conn]]) None s w0 Hw)
    as (w1 & -> & Hw1) end.
  rewrite Hparse. cbn [map_err Z.eqb negb].
  match goal with |- context [run alone (map_err_prog ?g (trigger ?e) ≫= ?f) (_ :: ?vs) _] =>
    destruct (run_list f vs s w1 Hw1 Hlist) as (w3 & -> & Hw3) end.
  cbv beta iota. rewrite Hfind. unfold Runtime.sign_with_key. rewrite run_assoc. unfold Runtime.obtain_pin. rewrite Hpol.
  unfold Runtime.request_pin. rewrite run_assoc.
  match goal with |- context [run alone (trigger ?e ≫= ?f) (_ :: ?vs) _] =>
    destruct (run_begin f vs s w3 (name (KeyStore.summary key)) Hw3 Hlock) as (w4 & -> & Hw4) end.
  unfold Graphical.start_graphical_authorizer. rewrite Hterm. cbn [negb]. change (Runtime.on_dialog (Ret false)) with (Ret false : prog agentE bool).
  cbv beta iota. change (Ret ?x ≫= ?f) with (f x). cbv beta. rewrite run_assoc.
  set (s1 := begin_request s (name (KeyStore.summary key))) in *.
  match goal with |- context [run alone (trigger ?e ≫= ?f) (_ :: ?vs) _] =>
    destruct (run_now f vs _ s1 w4 Hw4) as (w5 & -> & Hw5) end.
  rewrite run_assoc.
  destruct (begin_entry s (name (KeyStore.summary key)) Hlock) as (Hentry & Hreq & Hheld & Hlock1). fold s1 in Hentry, Hreq, Hheld, Hlock1.
  match goal with |- context [run alone (Runtime.wait_for_pin _ _ ?d _ ≫= ?f) (_ ++ ?vs) _] =>
    destruct (run_rounds f periods (S fuel) vs (started s) d s1 w5 _ _ _ Hw5 Hreq eq_refl eq_refl Hentry eq_refl) as (w6 & -> & Hw6);
      [lia|] end.
  destruct (hand_over (later s1 (50 * Z.of_nat periods)) (request_of s) _ _ _ conn pin Hlock1 Hentry Hreq eq_refl eq_refl) as (s2 & Hs2 & Hr2);
    [cbn; by rewrite Hheld|].
  match goal with |- context [run alone (Runtime.wait_for_pin _ _ ?d _ ≫= ?f) (_ :: ?vs) _] =>
    destruct (run_found f fuel vs (started s) d _ s2 w6 _ conn (request_of s) pin Hw6 Hs2 Hr2 eq_refl eq_refl) as (w7 & s3 & -> & Hw7) end.
  cbn iota. rewrite run_assoc.
  erewrite run_bind by (rewrite run_trigger; reflexivity). destruct (waiting_own _ _ _ (Remove (started s) (Ok pin)) Hw7) as [s4 Hw8].
  change (Runtime.on_dialog (Graphical.stop_graphical_authorizer false)) with (Ret tt : prog agentE unit).
  cbv beta iota. change (Ret ?x ≫= ?f) with (f x). cbv beta. rewrite run_assoc.
  erewrite run_bind by (rewrite run_trigger; reflexivity). destruct (waiting_own _ _ _ (Finish (started s)) Hw8) as [s5 Hw9].
  change (Ret ?x ≫= ?f) with (f x). cbv beta iota. rewrite run_assoc.
  destruct (run_sign _ _ _ (Runtime.digest_of Sha256 Sha384 (algorithm (KeyStore.summary key)) data) Hw9 Hav)
    as (signature & response & w10 & Hsign & Hresp & Hmade).
  erewrite run_bind by exact Hsign. change (Ret ?x ≫= ?f) with (f x). cbv beta iota. cbn [is_ok].
  destruct (run_record _ _ _ Hmade) as (w11 & Hrec & Hcalls & Hsigs & Hrecorded).
  erewrite run_bind by exact Hrec. exists signature, response, w11. split; [reflexivity|]. split; [exact Hresp|].
  rewrite Hcalls, Hsigs. destruct Hmade as [_ -> -> _ _]. unfold Runtime.authorization_of. rewrite Hpol. by split_and!.
Qed.
End Request.

(** ** The key of the request *)

Section Stored.
Context (store : KeyStore.KeyStore) (m : gmap KeyId KeyStore.StoredKey) (s : fs).

(** The store of the agent, undisturbed: a directory with the records of the keys of [m]. *)
Record stored : Prop := mk_stored {
  sd_exists : exists i n, find s (KeyStore.directory store) = Some (i, n) /\ file_type n = Directory;
  sd_keyed : KeyStore.well_keyed m;
  sd_holds : KeyStore.holds s (KeyStore.directory store) m;
  sd_names : KeyStore.names_ok s (KeyStore.directory store);
  sd_only : forall name, name ∈ KeyStore.record_names s (KeyStore.directory store) ->
    exists kid, is_Some (m !! kid) /\ name = KeyStore.record_name kid;
}.

(** The agent lists it. *)
Lemma store_is_listed :
  stored -> exists keys, run FileSystem.calm (KeyStore.KeyStore_list store) [] s = (Ok keys, s) /\
    KeyStore.sorted_keys keys /\ keys ≡ₚ (map_to_list m).*2.
Proof.
  intros [Hx Hk Hh Hn Ho].
  destruct (KeyStore.KeyStore_list_calm store m s Hx Hk Hh Hn Ho FileSystem.calm eq_refl) as [keys Hl].
  rewrite run_calm_cons in Hl. exists keys. split; [exact Hl|].
  pose proof (run_reach FileSystem.calm (KeyStore.KeyStore_list store) [] s) as Hr. rewrite Hl in Hr.
  destruct (safe_reach_ret _ _ _ _ _ _ (KeyStore.KeyStore_list_refines store m s Hk Hh Hn Ho) Hr) as [_ [Hs [[_ Hf]|Hp]]]; [|done].
  destruct Hx as (? & ? & ? & _). congruence.
Qed.

(** It finds a key by its public key, which no other key has. *)
Lemma key_is_found kid key :
  stored -> m !! kid = Some key ->
  (forall kid' key', m !! kid' = Some key' ->
     public_key (KeyStore.summary key') = public_key (KeyStore.summary key) -> key' = key) ->
  exists keys, run FileSystem.calm (KeyStore.KeyStore_list store) [] s = (Ok keys, s) /\
    Runtime.find_key (public_key (KeyStore.summary key)) keys = Some key.
Proof.
  intros Hst Hm Hu. destruct (store_is_listed Hst) as (keys & Hl & _ & Hp). exists keys. split; [exact Hl|].
  assert (forall key', key' ∈ keys <-> exists kid', m !! kid' = Some key') as Hmem.
  { intros key'. rewrite Hp, list_elem_of_fmap. split.
    - intros ([kid' ?] & -> & ?%elem_of_map_to_list). by exists kid'.
    - intros [kid' ?]. exists (kid', key'). by rewrite elem_of_map_to_list. }
  unfold Runtime.find_key. destruct (filter _ keys) as [|key' rest] eqn:Ef; cbn.
  - assert (key ∈ filter (fun key' => public_key (KeyStore.summary key') = public_key (KeyStore.summary key)) keys) as Hin
      by (apply list_elem_of_filter; split; [done|apply Hmem; by exists kid]).
    rewrite Ef in Hin. by apply not_elem_of_nil in Hin.
  - assert (key' ∈ key' :: rest) as Hin by by left. rewrite <- Ef in Hin. apply list_elem_of_filter in Hin as [He [kid' Hk']%Hmem].
    f_equal. by eapply Hu.
Qed.
End Stored.

(** ** From the request packet to the signature *)

Section EndToEnd.
Context {E : Type -> Type} {TS TV : Type} `{!Handler E TS TV} `{!TpmSigner E} (tpm_calm : TV) `{!TpmSignerLaws E tpm_calm}.
Context (Sha256 Sha384 : bytes -> bytes) (a : Runtime.agent).
Abbreviation agent_world := (@Runtime.world E TS _).
Abbreviation nobody_else := (@Runtime.alone E TS TV _).
#[local] Instance end_handler : Handler (@Runtime.agentE E _) agent_world (@Runtime.interference E TS TV _) :=
  Runtime.agent_handler tpm_calm a.

(** The requests of the broker have names that fit a line of the control protocol. *)
Definition names_fit (s : broker) : Prop :=
  forall ch r, requests s !! ch = Some r -> utf8_valid (rq_key_name r) = true /\ len (rq_key_name r) <= 4 * 1024.

Lemma names_fit_asked s key periods :
  lock_poisoned s = false -> names_fit s -> KeyStore.record_valid key -> KeyStore.StoredKey_wf key ->
  names_fit (asked s (name (KeyStore.summary key)) periods).
Proof.
  intros Hlock Hn Hv Hwf ch r. unfold asked, begin_request. rewrite Hlock. cbn. intros [[_ <-]|[_ Hr]]%lookup_insert_Some; [cbn|by eapply Hn].
  apply KeyStore.rv_name in Hv as [_ Hl]. unfold KeyStore.StoredKey_wf, KeySummary_wf in Hwf.
  apply andb_true_iff in Hwf as [_ Hu]. by split.
Qed.

(** A request thread that starts: its flag is not set, and it waits for nothing. *)
Definition starts (s : broker) (w : agent_world) : Prop :=
  Runtime.cancelled w = false /\ Runtime.channel w = None /\ Runtime.shared w = s.

(** [C1] A signature, end to end.  A client of the agent sends the request to sign [data]
    with a stored key that needs a PIN; some looks at its channel later,
    before the deadline, in a terminal session, the user
    runs [keyvisor authorize ID --pin-stdin], at a socket that is the user's own, and types
    the PIN.  The command says to the agent what the agent's answers are answers to, and
    reports success; what its second connection does to the broker are the events that the
    request thread meets before its next look; and with these, if the TPM can sign, the thread
    answers with the signature of the digest of [data], made by one TPM command, with the key
    that was asked for and the PIN that was typed.  The history, if enabled, is appended to
    once: this succeeds if the history is well-formed and a temporary name is free, and then
    the entry is read back at the end of it, even after a crash. *)
Theorem signature_end_to_end var_os st es s m kid key data packet pin k e fuel periods
    (w : agent_world) (v : Client.session) :
  Graphical.graphical_session_available (Runtime.var_os a) = false ->
  reachable es s -> started s < 2 ^ 64 -> names_fit s -> starts s w ->
  stored (Runtime.store a) m (Runtime.files w) -> m !! kid = Some key ->
  (forall kid' key', m !! kid' = Some key' ->
     public_key (KeyStore.summary key') = public_key (KeyStore.summary key) -> key' = key) ->
  use_policy (KeyStore.summary key) = TpmPin ->
  parse_request packet = Ok (Sign (public_key (KeyStore.summary key)) data 0) ->
  let digest := Runtime.digest_of Sha256 Sha384 (algorithm (KeyStore.summary key)) data in
  tpm_available tpm_calm key pin digest ->
  50 * (Z.of_nat periods - 1) < Runtime.authorization_timeout a ->
  let before := asked s (name (KeyStore.summary key)) periods in
  Control.peer_uid st = Control.owner_uid st -> held s !! Control.conn st = None ->
  len (list_pending before) <= Control.MAX_PENDING_AUTHORIZATIONS ->
  6 <= len pin <= Control.MAX_PIN_BYTES -> newline ∉ pin -> last pin <> Some carriage_return ->
  Client.own_socket var_os (Client.disk v) ->
  Secrets.std_in (Client.person v) = Control.mkSource (pin ++ [newline] ++ k) e ->
  let served message := snd (Control.run_alone st Control.control_worker (Control.accept before message)) in
  let listed := served Control.list_message in
  let taken := served (Control.authorize_message (request_of s) pin) in
  Client.answers v = [Control.mkSource (Control.output listed) None; Control.mkSource (Control.output taken) None] ->
  (exists v', run Client.quiet_moment (Client.run_authorize var_os [request_of s; str "--pin-stdin"]) [] v = (Ok tt, v') /\
     Client.said <$> Client.talks v' =
       (Client.said <$> Client.talks v) ++ [Control.list_message; Control.authorize_message (request_of s) pin] /\
     Client.std_out v' = Client.std_out v ++ [str "authorized " ++ request_of s]) /\
  exists signature response w',
    run nobody_else (Runtime.handle Sha256 Sha384 a (periods + S fuel) packet)
      (authorized_after periods (Control.trace taken)) w = (Some (Ok response), w') /\
    ecdsa_signature_response (algorithm (KeyStore.summary key)) signature = Ok response /\
    Runtime.calls w' = Runtime.calls w ++ [(KeyStore.object key, algorithm (KeyStore.summary key), digest, AuthPin pin)] /\
    Runtime.signatures w' = Runtime.signatures w ++ [Ok signature] /\
    history_kept a w key w'.
Proof.
  intros Hterm Hre Hlt Hnames (Hc & Hch & Hs) Hst Hm Huniq Hpol Hparse digest Hav Hper before Hu Hh Hl Hpin Hnl Hcr Hsock Hin
    served listed taken Ha.
  set (entry := mkPending (name (KeyStore.summary key)) (started s)).
  assert (lock_poisoned s = false) as Hlock by (apply inv_lock; by eapply reachable_inv).
  assert (authorizations before !! request_of s = Some entry) as Hentry by apply (begin_entry s _ Hlock).
  assert (held before !! Control.conn st = None) as Hhb.
  { destruct (begin_entry s (name (KeyStore.summary key)) Hlock) as (_ & _ & H & _). cbn. by rewrite H. }
  pose proof (asked_reachable es s (name (KeyStore.summary key)) periods Hre Hlt) as Hreb.
  destruct (sd_keyed _ _ _ Hst kid key Hm) as (_ & Hv & Hwf).
  pose proof (names_fit_asked s key periods Hlock Hnames Hv Hwf) as Hfit.
  destruct (Client.authorize_reaches_the_agent var_os st _ before (request_of s) entry pin k e v Hreb Hu Hhb Hentry Hl Hfit
    Hpin Hnl Hcr Hsock Hin Ha) as (v' & Hrun & Hsaid & Hout & _).
  split; [by exists v'|].
  assert (Control.trace taken = [Take (Control.conn st) (request_of s) pin; Deliver (Control.conn st)]) as ->.
  { assert (Control.plain_id (request_of s)) as Hid by exact (Control.request_id_plain (process_id s) (NEXT_REQUEST_ID s)).
    pose proof (Control.authorize_roundtrip st _ before (request_of s) pin Hreb Hu Hhb Hid Hpin
      (fst (Control.run_alone st Control.control_worker (Control.accept before (Control.authorize_message (request_of s) pin))))
      taken (surjective_pairing _)) as H. rewrite Hentry in H. apply H. }
  destruct (key_is_found _ _ _ kid key Hst Hm Huniq) as (keys & Hlist & Hfind).
  assert (waiting w None s w) as Hw by by split.
  exact (run_handle tpm_calm Sha256 Sha384 a w key pin packet data keys s (Control.conn st) fuel periods
    Hterm Hw Hlock Hh Hparse Hlist Hfind Hpol Hav Hper).
Qed.
End EndToEnd.

(** ** A signature with the toy TPM *)

Module Sample.
Import Toy.
Import Runtime.Sample.

(** The store has one key; the user authorizes after two polls. *)
Definition m : gmap KeyId KeyStore.StoredKey := {[ id (KeyStore.summary key) := key ]}.
Definition broker0 : broker := broker_init 255.
Definition periods : nat := 2.
Definition before : broker := asked broker0 (str "n") periods.

Definition says (message : bytes) : Control.source :=
  Control.mkSource (Control.output (snd (Control.run_alone Control.Sample.st Control.control_worker
    (Control.accept before message)))) None.
Definition client : Client.session :=
  Client.mkSession Client.Sample.disk Secrets.Sample.someone None
    [says Control.list_message; says (Control.authorize_message (request_of broker0) pin)] [] [] 0 None [] [] [].

Lemma disk_names : names_in disk EmptyDir.dir = [KeyStore.record_name (id (KeyStore.summary key))].
Proof. vm_compute. reflexivity. Qed.

Lemma disk_holds : KeyStore.holds disk EmptyDir.dir m.
Proof.
  intros kid. unfold m. destruct (decide (kid = id (KeyStore.summary key))) as [->|Hne].
  { rewrite lookup_singleton_eq. vm_compute. reflexivity. }
  rewrite lookup_singleton_ne by congruence.
  assert (entries disk !! (EmptyDir.dir ++ [KeyStore.record_name kid]) = None) as He.
  { unfold disk. cbn [entries]. change (KeyStore.path_for (KeyStore.KeyStore_new EmptyDir.dir) (id (KeyStore.summary key)))
      with (EmptyDir.dir ++ [KeyStore.record_name (id (KeyStore.summary key))]).
    rewrite lookup_insert_ne; [by apply lookup_singleton_ne|]. intros [_ [= H]]%app_inj_2; [|done].
    by apply Hne, eq_sym, KeyStore.record_name_inj. }
  exact (contents_absent _ _ He).
Qed.

Lemma disk_stored : stored (Runtime.store an_agent) m disk.
Proof.
  split.
  - exists 1, (mk_inode Directory MODE_0700 1000 [] []). split; vm_compute; reflexivity.
  - apply map_Forall_singleton. split_and!; [reflexivity| |vm_compute; reflexivity].
    apply KeyStore.validate_record_valid. vm_compute. reflexivity.
  - exact disk_holds.
  - change (KeyStore.names_ok disk EmptyDir.dir). unfold KeyStore.names_ok. rewrite disk_names.
    repeat constructor; apply KeyStore.record_name_ok.
  - intros name0 [_ Hin]%list_elem_of_filter. change (KeyStore.directory (Runtime.store an_agent)) with EmptyDir.dir in Hin.
    rewrite disk_names in Hin. apply list_elem_of_singleton in Hin as ->. exists (id (KeyStore.summary key)). split; [|reflexivity].
    unfold m. rewrite lookup_singleton_eq. by eexists.
Qed.

Lemma broker0_reachable : reachable [] broker0.
Proof. exists 255. split; [reflexivity|vm_compute; discriminate]. Qed.

Lemma signature_end_to_end_witness :
  (exists v', run Client.quiet_moment (Client.run_authorize Client.Sample.home [request_of broker0; str "--pin-stdin"]) []
      client = (Ok tt, v') /\ Client.std_out v' = [str "authorized " ++ request_of broker0]) /\
  exists signature response w',
    @run (@Runtime.agentE toyE _) (@Runtime.world toyE unit _) (@Runtime.interference toyE unit unit _) (Runtime.agent_handler tt an_agent)
      Runtime.alone _ (Runtime.handle sha sha an_agent (periods + 1) sign_packet)
      (authorized_after periods [Take 4 (request_of broker0) pin; Deliver 4]) start = (Some (Ok response), w') /\
    ecdsa_signature_response EcdsaNistP256 signature = Ok response /\ Runtime.signatures w' = [Ok signature].
Proof.
  destruct (signature_end_to_end (TS := unit) tt sha sha an_agent Client.Sample.home Control.Sample.st [] broker0 m
    (id (KeyStore.summary key)) key (str "data") sign_packet pin [] None 0 periods start client)
    as [(v' & Hv & _ & Ho) (signature & response & w' & Hw & Hr & _ & Hs & _)].
  - vm_compute. reflexivity.
  - exact broker0_reachable.
  - vm_compute. reflexivity.
  - intros ch r Hr. discriminate Hr.
  - split; [reflexivity|]. split; reflexivity.
  - exact disk_stored.
  - unfold m. rewrite lookup_singleton_eq. reflexivity.
  - intros kid' key' H _. unfold m in H. apply lookup_singleton_Some in H as [_ H]. symmetry. exact H.
  - reflexivity.
  - vm_compute. reflexivity.
  - split; [intros t; exists tt, t; reflexivity|]. intros self t. eexists _, t. reflexivity.
  - vm_compute. reflexivity.
  - reflexivity.
  - reflexivity.
  - vm_compute. discriminate.
  - vm_compute. split; discriminate.
  - apply (bool_decide_unpack _). vm_compute. exact I.
  - vm_compute. discriminate.
  - exact Client.Sample.disk_own_socket.
  - vm_compute. reflexivity.
  - reflexivity.
  - split; [exists v'; split; [exact Hv|exact Ho]|]. exists signature, response, w'.
    change (Control.accept (asked broker0 _ periods)) with (Control.accept before) in Hw.
    assert (Control.trace (snd (Control.run_alone Control.Sample.st Control.control_worker
      (Control.accept before (Control.authorize_message (request_of broker0) pin)))) =
      [Take 4 (request_of broker0) pin; Deliver 4]) as Et by (vm_compute; reflexivity).
    rewrite Et in Hw. split; [exact Hw|]. split; [exact Hr|exact Hs].
Defined.
End Sample.
