(* ===== verification/Served.v ===== *)
(** A key from [keyvisor key create] (Commands) to its use: what the command stored, the agent
    lists and signs with, for both look for the store in the same place (Paths) and the
    store is a map of records to both (KeyStore). *)

From S2P Require Import Prelude Bytes Text Core Protocol Effects Tpm FileSystem AtomicFile Paths.
From S2P Require KeyStore History Graphical Runtime Commands.
From S2P Require Import Broker EndToEnd.

Section Served.
Context {E : Type -> Type} {TS TV : Type} `{!Handler E TS TV} `{!TpmSigner E} (tpm_calm : TV) `{!TpmSignerLaws E tpm_calm}.
Context (Sha256 Sha384 : bytes -> bytes).
Context (var_os : environment) (pid : Z).
Abbreviation agent_world := (@Runtime.world E TS _).
#[local] Instance command_handler : Handler (@Commands.cmdE E _) (@Commands.desk TS) (@Commands.turn TV) :=
  Commands.desk_handler tpm_calm.

(** The agent looks where the command line does. *)
Lemma same_store dir : store_directory var_os = Ok dir -> default_store_directory var_os = Ok dir.
Proof.
  intros Hd. pose proof (agree_fmap (fun path => join path (str "keys")) _ _ (agree_data_directory var_os)) as H.
  change (agree (default_store_directory var_os) (store_directory var_os)) in H. rewrite Hd in H.
  destruct (default_store_directory var_os) as [d|e|]; cbn [agree] in H; [by subst|done..].
Qed.

(** A command that succeeded leaves a store for the agent. *)
Lemma created_is_stored arguments dir m w w' s' :
  store_directory var_os = Ok dir -> dir <> [] -> fs_wf (Commands.disk w) -> KeyStore.keeps (Commands.disk w) dir m ->
  reach (Commands.create_key var_os pid arguments) w (Ret (Ok tt)) w' -> crash (Commands.disk w') s' ->
  exists authorization key,
    Commands.std_out w' = Commands.std_out w ++ [as_str (id (KeyStore.summary key))] /\
    Commands.generated w' = Commands.generated w ++ [(authorization, key)] /\
    Commands.ordered arguments w authorization key /\
    (KeyStore.StoredKey_wf key ->
     stored (KeyStore.KeyStore_new dir) (<[id (KeyStore.summary key) := key]> m) s').
Proof.
  intros Hdir Hne Hwf Hk Hr Hc.
  destruct (safe_reach_ret _ _ _ _ _ _ (Commands.create_safe tpm_calm var_os pid arguments w dir Hdir) Hr eq_refl)
    as (authorization & key & Ho & Hg & Hord & Hq).
  exists authorization, key. split_and!; [done..|]. intros Hu.
  destruct (KeyStore.KeyStore_save_keeps (KeyStore.KeyStore_new dir) pid key m _ _ s' Hne Hwf Hk Hu Hq Hc)
    as (? & ? & ? & ? & ?). by split.
Qed.

(** [C7] A created key is served.  When [key create] has reported success, on a store that
    held the keys of [m], then, even after a crash: the agent, in the same environment, has
    its store where the key is; the store is what the theorem about the signatures of keys
    with a PIN asks for; a request for the identities is answered with those of [m] and the
    new one; and a request to sign with a new key without PIN is answered at once, by one TPM
    command with that key and no authorization.  (Another key of the same public key would be the
    same key of the TPM; identifiers and names are strings.) *)
Theorem created_key_is_served arguments dir m w w' s' :
  store_directory var_os = Ok dir -> dir <> [] -> fs_wf (Commands.disk w) -> KeyStore.keeps (Commands.disk w) dir m ->
  reach (Commands.create_key var_os pid arguments) w (Ret (Ok tt)) w' -> crash (Commands.disk w') s' ->
  exists authorization key,
    Commands.std_out w' = Commands.std_out w ++ [as_str (id (KeyStore.summary key))] /\
    Commands.generated w' = Commands.generated w ++ [(authorization, key)] /\
    Commands.ordered arguments w authorization key /\
    default_store_directory var_os = Ok dir /\
    (KeyStore.StoredKey_wf key ->
     let m' := <[id (KeyStore.summary key) := key]> m in
     stored (KeyStore.KeyStore_new dir) m' s' /\
     forall (a : Runtime.agent) (b : broker) (v : agent_world) fuel packet,
     Runtime.store a = KeyStore.KeyStore_new dir -> Runtime.files v = s' -> starts b v ->
     (parse_request packet = Ok RequestIdentities ->
      exists keys, keys ≡ₚ (map_to_list m').*2 /\ KeyStore.sorted_keys keys /\ key ∈ keys /\
        fst (@run _ _ _ (Runtime.agent_handler tpm_calm a) Runtime.alone _ (Runtime.handle Sha256 Sha384 a fuel packet) [] v) =
          Some (map_err ProtocolError_display (identities_response (KeyStore.summary <$> keys)))) /\
     forall data, parse_request packet = Ok (Sign (public_key (KeyStore.summary key)) data 0) ->
      use_policy (KeyStore.summary key) = NoPin ->
      (forall kid' key', m !! kid' = Some key' ->
         public_key (KeyStore.summary key') = public_key (KeyStore.summary key) -> key' = key) ->
      let digest := Runtime.digest_of Sha256 Sha384 (algorithm (KeyStore.summary key)) data in
      tpm_available tpm_calm key [] digest ->
      exists signature response v',
        @run _ _ _ (Runtime.agent_handler tpm_calm a) Runtime.alone _ (Runtime.handle Sha256 Sha384 a fuel packet) [] v =
          (Some (Ok response), v') /\
        ecdsa_signature_response (algorithm (KeyStore.summary key)) signature = Ok response /\
        Runtime.calls v' = Runtime.calls v ++ [(KeyStore.object key, algorithm (KeyStore.summary key), digest, AuthNone)] /\
        Runtime.signatures v' = Runtime.signatures v ++ [Ok signature] /\
        history_kept a v key v').
Proof.
  intros Hdir Hne Hwf Hk Hr Hc.
  destruct (created_is_stored arguments dir m w w' s' Hdir Hne Hwf Hk Hr Hc) as (authorization & key & Ho & Hg & Hord & Hst).
  exists authorization, key. split_and!; [done..|by apply same_store|]. intros Hu m'. specialize (Hst Hu). split; [exact Hst|].
  intros a b v fuel packet Ha Hf (Hcan & Hch & Hb).
  assert (waiting v None b v) as Hw by by split.
  assert (m' !! id (KeyStore.summary key) = Some key) as Hm by apply lookup_insert_eq.
  split.
  - intros Hp. destruct (store_is_listed _ _ _ Hst) as (keys & Hl & Hsort & Hperm). exists keys. split_and!; [done..| |].
    + rewrite Hperm. apply list_elem_of_fmap. exists (id (KeyStore.summary key), key). split; [done|]. by apply elem_of_map_to_list.
    + apply (run_identities tpm_calm Sha256 Sha384 a v packet keys b fuel Hw Hp). by rewrite Ha, Hf.
  - intros data Hp Hpol Huniq digest Hav.
    destruct (key_is_found _ _ _ (id (KeyStore.summary key)) key Hst Hm) as (keys & Hl & Hfind).
    { intros kid' key' [[_ <-]|[_ H]]%lookup_insert_Some; [done|]. by eapply Huniq. }
    apply (run_handle_no_pin tpm_calm Sha256 Sha384 a v key [] packet data keys b fuel Hw Hp); [|done..].
    by rewrite Ha, Hf.
Qed.
End Served.

(** ** A key without PIN, made and used *)

Module Sample.
Import Toy.
Import Commands.Sample.

#[local] Instance toy_desk : Handler (@Commands.cmdE toyE _) (@Commands.desk unit) (@Commands.turn unit) :=
  Commands.desk_handler tt.

Definition arguments : list bytes := [str "--name"; str "work"; str "--authorization"; str "none"; str "--yes"].
Definition desk0 : @Commands.desk unit := desk_with no_record [].
Definition made_key : KeyStore.StoredKey :=
  let '(summary, object) := toy_key (str "work") EcdsaNistP256 AuthNone in KeyStore.mkStoredKey summary object.

(** The command, and the disk it leaves. *)
Definition command : result bytes unit * @Commands.desk unit :=
  run Commands.smooth (@Commands.create_key toyE _ desktop 7 arguments) [] desk0.
Definition disk1 : fs := Commands.disk (snd command).

(** An agent of the same session, without history. *)
Definition an_agent : Runtime.agent :=
  Runtime.mkAgent (KeyStore.KeyStore_new dir) (History.HistoryStore_new (dir ++ [str "h"])) false 120000 8 desktop.
Definition start : @Runtime.world toyE unit _ :=
  Runtime.mkWorld disk1 (broker_init 255) tt None false None [] [] [] [] [] Graphical.no_dialog [].
Definition sha (b : bytes) : bytes := firstn 32 b.
Definition sign_packet : bytes := encode_request (Sign (str "p") (str "data") 0).
Definition list_packet : bytes := encode_request RequestIdentities.

Lemma no_record_keeps : KeyStore.keeps no_record dir no_keys.
Proof.
  split; [by apply map_Forall_empty|exact no_record_holds|].
  intros name Hn. cbn [entries stable_entries no_record] in Hn. rewrite no_folder in Hn.
  by destruct Hn as [[? [=]]|[? [=]]].
Qed.

Lemma created_key_is_served_witness :
  default_store_directory desktop = Ok dir /\
  (exists keys, keys ≡ₚ [made_key] /\
    fst (@run _ _ _ (Runtime.agent_handler tt an_agent) Runtime.alone _ (Runtime.handle sha sha an_agent 0 list_packet) [] start) =
      Some (map_err ProtocolError_display (identities_response (KeyStore.summary <$> keys)))) /\
  exists signature response v',
    @run _ _ _ (Runtime.agent_handler tt an_agent) Runtime.alone _ (Runtime.handle sha sha an_agent 0 sign_packet) [] start =
      (Some (Ok response), v') /\
    ecdsa_signature_response EcdsaNistP256 signature = Ok response /\
    Runtime.calls v' = [(KeyStore.object made_key, EcdsaNistP256, str "data", AuthNone)].
Proof.
  pose proof (run_reach Commands.smooth (@Commands.create_key toyE _ desktop 7 arguments) [] desk0) as Hr.
  assert (fst command = Ok tt) as E1 by (vm_compute; reflexivity).
  assert (Commands.generated (snd command) = [(AuthNone, made_key)]) as E2 by (vm_compute; reflexivity).
  change (run Commands.smooth (@Commands.create_key toyE _ desktop 7 arguments) [] desk0) with command in Hr. rewrite E1 in Hr.
  destruct (created_key_is_served tt sha sha desktop 7 arguments dir no_keys desk0 (snd command) disk1
    ltac:(by vm_compute) ltac:(discriminate) no_record_wf no_record_keeps Hr (crash_refl _))
    as (authorization & key & _ & Hg & _ & Hdir & Hserved).
  rewrite E2 in Hg. injection Hg as <- <-.
  destruct (Hserved ltac:(by vm_compute)) as [_ Hs]. split; [exact Hdir|]. split.
  - destruct (proj1 (Hs an_agent (broker_init 255) start 0%nat list_packet eq_refl eq_refl ltac:(by split_and!)) ltac:(by vm_compute))
      as (keys & Hp & _ & _ & Hrun).
    exists keys. split; [|exact Hrun]. rewrite Hp. unfold no_keys. rewrite insert_empty, map_to_list_singleton. reflexivity.
  - destruct (proj2 (Hs an_agent (broker_init 255) start 0%nat sign_packet eq_refl eq_refl ltac:(by split_and!)) (str "data"))
      as (signature & response & v' & Hrun & Hresp & Hcalls & _).
    + by vm_compute.
    + reflexivity.
    + intros kid key H. unfold no_keys in H. by rewrite lookup_empty in H.
    + split; [intros t; exists tt, t; reflexivity|]. intros self t. eexists _, t. reflexivity.
    + exists signature, response, v'. split; [exact Hrun|]. split; [exact Hresp|exact Hcalls].
Defined.
End Sample.
